(* ===== verification/_CoqProject ===== *)
-Q . S2P
Prelude.v
Str.v
BTree.v
External.v
Models.v
Redaction.v
Host.v
Policy.v
Request.v
Injection.v
WebSocket.v
Ip.v
Catalog.v
Database.v
Store.v
StoreFacts.v
StoreProps.v
Net.v
Auth.v
Connector.v
ConnectorFacts.v
Config.v
ConfigFacts.v
Leases.v
LeaseProps.v
Control.v
ServiceFacts.v
ControlFacts.v
Sessions.v
SessionFacts.v
Proxy.v
ProxyFacts.v
ProxyProps.v
Relay.v
RelayProps.v
Interleave.v
InterleaveFacts.v
InterleaveProps.v
OwnershipProps.v
Browser.v
BrowserFacts.v
BrowserProps.v
Cli.v
CliFacts.v
CliProps.v
Account.v
AccountProps.v
Container.v
ContainerProps.v
Local.v
RateLimit.v
Edge.v
EdgeProps.v
Tls.v
TlsProps.v
Pool.v
PoolProps.v
Startup.v
StartupProps.v
LocalProps.v
