(* ===== verification/Prelude.v ===== *)
(** AV, a credential broker: a verification library.

    AV keeps upstream credentials out of the hands of the programs that need
    them.  A caller authenticates, asks for a configured profile, and either
    receives the profile's values as environment variables (Tier 1) or sends its
    requests through AV, which checks them against a route, adds the credential,
    and removes it from whatever comes back (Tier 2).  This library models the
    decision-making code of both crates and proves what it promises.

    * The program's parts and the files that model them

    Requests through a route (crates/av-credential-proxy).  [Policy] has the
    route and tunnel configuration and [validate_proxy_route]; [Request] the
    admission of one request ([validate_proxy_request]), the target check inside
    an intercepted tunnel and [build_target_url]; [Injection] the credential
    material ([build_proxy_injection], [apply_body_substitutions],
    [prepare_credentials]) and the outbound headers; [WebSocket] the upgrade
    checks.  All of these are policy.rs.  [Redaction] is redaction.rs: the pattern
    set, and the buffered and the streaming redactor with their loops.

    CONNECT and tunnels (catalog.rs).  [Host] canonicalises DNS names and
    authorities, [Catalog] builds the destination catalog and authorises CONNECT
    requests, [Ip] classifies the addresses a tunnel resolves to.

    The control plane (src/store.rs).  [Database] gives SQL statements and
    transactions as a monad in which the environment may fail any statement or
    commit, before or after it takes effect.  [Store] has the tables and every
    method of [Store], for PostgreSQL and SQLite where they differ.  [StoreFacts]
    turns the methods into atomic steps with a specified effect; [StoreProps] has
    what clients rely on.  [Pool] opens the database and rotates its credentials
    ([Store::connect], [ReloadablePostgres] and the reloader), [PoolProps] shows which
    pool is in use.

    Authentication (src/auth.rs).  [Auth] has [authorize] with its agent, OIDC and
    Basic arms, the signing-key cache with its refresh, and the loading of Basic
    credentials.

    Secret backends and leases.  [Connector] has the OpenBao, Infisical and Google
    connectors (src/openbao.rs, src/infisical.rs, src/google_secret_manager.rs)
    and their dispatch (src/connector.rs); [ConnectorFacts] what they guarantee.
    [Leases] has the dynamic-lease registry of src/server.rs and the handlers that
    acquire, renew and revoke leases; [LeaseProps] what becomes of a lease.

    Configuration (src/config.rs).  [Net] parses addresses and CIDR blocks as the
    standard library does; [Config] has the configuration records, [load], [validate]
    and the expansion of provider operations; [ConfigFacts] what an accepted
    configuration guarantees.

    The services (src/server.rs).  [Control] has every handler of the control
    service, [ControlFacts] its refinement of a role-gated, audited store;
    [Sessions] the session service (listings, creation, renewal and revocation of
    proxy sessions, the start of the transparent proxy), [SessionFacts] its theorems.
    [ServiceFacts] has what handlers share: which computations only read, and
    postconditions on the tables.

    The request path (src/server.rs).  [Proxy] has the proxy endpoint, CONNECT, the
    requests inside an intercepted tunnel, the outbound request and the streamed
    response; [Relay] the WebSocket relay with its session checks and lease
    renewals, as a loop over an explicit sequence of events.  [ProxyFacts],
    [ProxyProps] and [RelayProps] follow a request from the caller to the upstream
    and back.  [Tls] has what surrounds them for the transparent proxy: the
    certificate authority (crates/av-credential-proxy/src/ca.rs, src/proxy_ca.rs), the
    reloading transport certificate (src/transport_tls.rs), the listener and a whole
    connection, between whose steps the rest of the server may do anything; [TlsProps]
    its theorems.

    Concurrency (src/server.rs).  [Interleave] has the lease handlers, the requests
    through a route and the relays as tasks that give way to each other at their awaits, with schedules
    that start, advance and drop them; a dropped task drops the lease owner it holds,
    which spawns the revocation.  [InterleaveFacts] shows that a task on its own is its
    handler and that a task that gets its turns ends; [InterleaveProps] what becomes of a
    lease under every schedule; [OwnershipProps] who looks after the lease of a request.

    The edge and the start (src/server.rs).  [RateLimit] has the API rate limiter with
    its 64-bit floating-point arithmetic, [Edge] the routing table with the selection of a
    handler, the layers around it, the arrivals that share the limiter, health,
    readiness and the static pages, [EdgeProps] what a client meets there.
    [Startup] has [server::run] with [Authenticator::new] and the construction of the
    connectors, [StartupProps] what the service that starts looks like.

    The console (src/server.rs).  [Browser] has GitHub sign-in with its pending
    logins and sessions, cookies, the role gates, every form and the pages as the
    data they are rendered from; [BrowserFacts] and [BrowserProps] its theorems.

    The client (src/main.rs, src/keyring.rs).  [Cli] has profile runs and transparent
    runs with their renewals and revocation, the choice of a credential, the kernel
    keyring, private files, the local proxy helper, the environment of a child and the
    container commands, over the trace of what a run did; [Account] login and logout,
    the agent and role commands and the listings; [Container] the contained run and
    the relay inside it; [Local] local initialisation and the dispatch of a parsed
    command line.  [CliFacts], [CliProps], [AccountProps], [ContainerProps] and
    [LocalProps] have the theorems.

    [Prelude], [Str] and [BTree] are the shared base: results, byte strings as
    Rust's str and slice methods see them, and ordered maps.  [External] lists, as
    type classes, what the source calls in other crates, with the documented
    behaviour as law classes; a theorem takes the laws it needs.  [Models] has an
    executable instance of every class, on which the witnesses run.

    * How the code is rendered

    A Rust function is a Rocq function of the same name; [Result] is [result]
    (a value or the error's text), [?] is the monadic bind, [bail!] is [bail_if].
    Integers are [Z] with their widths written out where they matter; a [String]
    or byte slice is the list of its bytes, and [char] methods decode UTF-8.  State
    is explicit: a record per component, and one monad per kind of effect ([db]
    for the store, [io] for everything that reaches outside).  Loops that walk an
    offset (the redactors) take the length of their input as fuel, since each
    iteration advances, and the theorems show that they always return a result; the
    loops of the relays, streams and renewals walk the list of what happens to them,
    and all other recursion is structural.  The two loops of the client that poll until
    a deadline have fuel for every round that fits before it (one a second for the
    login, ten a second for the container relay), which is shown to be enough.
    A race between futures is given by what
    the scheduler did.  The outside world is never assumed to be well behaved:
    database outcomes, clocks, files, networks and HTTP answers are arbitrary
    functions or lists, and theorems quantify over them.

    * What the theorems show

    Confidentiality: no credential of a route appears, raw or in any of its
    encodings, in the response a caller receives, buffered or streamed in chunks of
    any size, nor in a message the WebSocket relay forwards, provided that it is not empty
    and that the marker [REDACTED] cannot complete it (it holds no bracket and is not part
    of the marker; [Redaction] has an example where it can); the streaming redactor
    equals the single-pass one, a streamed response ends and stays within its limit;
    responses that contain no credential pass unchanged; memory between chunks is
    bounded.

    Confinement: the proxy contacts an upstream at most once per request, only for
    an authenticated and admitted one with, in managed mode, a grant, at the route's own
    origin and with the credential the route injects; the
    same holds inside a tunnel, while its session is live; a CONNECT opens only to an
    allowed address.  A request is admitted exactly when it meets its route's contract;
    the target URL keeps the configured origin; outbound headers are exactly the
    injected one and the allowlisted ones; CONNECT is bound to one configured
    destination and the requests inside the tunnel to the host of the CONNECT, over
    the whole connection and with a certificate for that host alone;
    tunnels reach exactly the permitted address ranges; WebSocket upgrades are
    accepted exactly when they meet the policy.

    Identity and access: an accepted identity is backed by a token, a signed claim
    or the user's own password; the provider's keys are fetched at a bounded rate;
    profile access follows unexpired grants.  Every RPC of the control service and every
    console form changes nothing, or makes exactly its change for a caller whose role
    suffices, with its audit event, and a listing shows what is stored; an owner always
    remains.  A GitHub sign-in is
    bound to one unexpired login and one admitted account, and the owner page shows
    exactly what is stored.  Sessions are opened, renewed, listed and revoked only for
    their own caller and only under a current grant, and nothing else in the tables but
    the caller's audit events changes with them.

    Configuration: what [validate] accepts is well formed in every part and stays so
    when provider operations are expanded; loading never panics.  The service that is
    started from it is the configured one and meets what its handlers rely on.

    Operation: the token bucket that the API, CONNECT and tunnelled requests share lets no
    more of them through than its rate and burst allow, and refuses no more than it has
    to; a path is answered by the handler the routing table names for it, with the security
    headers; every connection gets the newest usable transport certificate, and the store
    the newest usable database credentials, with every earlier pool closed.

    The client: its children never see the wrapper's credentials; its local helper
    sends exactly the rewritten CONNECT with one credential; what a run was lent, it
    asks to be revoked exactly once at its end.  A contained run starts only isolated
    containers under the names it removes before it gives its session back (for images
    that do not start with a hyphen); a login ends and keeps only a token that the named
    endpoint issued; local initialisation closes what it makes to others and writes files
    that the server can start from.

    The store: every operation of an open store is atomic and has its specified effect;
    from a start that has or makes an owner the database invariant (an owner
    exists, the owner mirror agrees, digests are
    unique, sessions are bounded) holds in every reachable state; revoked sessions
    stay dead and no renewal passes the absolute bound; changing an agent ends its
    sessions and its old token; start-up recovers on PostgreSQL.

    Backends and leases: acquisitions are confined to the profile's exports or
    allowed keys; damaged payloads are refused; a registered lease is kept (with the
    renewals its backend gave it), has been revoked by a call the backend confirmed since,
    or has expired by a clock that was read since, is out of reach of other subjects, and the registry
    is bounded; the same along the whole request path, streams and relays included.
    However handlers and requests interleave, and wherever they are dropped while the
    lease is in the registry, a lease that is not at rest is in the hands of one task,
    which settles it in a bounded number of turns; a request owns its lease at every
    await from its registration to its revocation.

    Some theorems show where the code falls short of what it means to do: the secret
    that a marker completes, the owner lost by a crash in the SQLite start-up, the last-owner check under
    concurrent demotions, the role that survives a deleted agent, the lease that an
    environment renewal drops when the store fails, the lease that goes with a handler
    dropped in the middle and with a request that is dropped while it revokes, the limit
    a restored lease passes, exports of one field under two
    names, the operator who becomes an owner through a password change, the lease a
    client keeps when it refuses its environment, the line feed a header name may
    carry through the local helper, the issuer on localhost that passes validation and
    never starts, and the agent token that is lost with a bare output name.

    * What is not modelled

    Cryptography, TLS records, sockets and the copying of bytes between accepted
    connections; HTML rendering; the parsing of command lines and of JSON into the
    configuration records (clap and serde derive both from the types), and the router,
    HTTP and SQL libraries, all of which are parameters with the laws the code relies
    on; the build script; the crate roots, which only name modules; [Debug] and [Drop]
    implementations that hide or clear secrets.  The handlers of the services and the
    console run one request at a time; the lease handlers, the requests through a route
    and the relays ([Interleave]), concurrent demotions and transparent connections interleave
    with the rest of the server.  The listener's connections, a task each in the code, are
    accepted one after another.  Listings are ordered by byte value, which is the order of
    SQLite and of PostgreSQL under the C collation.  The environment-lease renewal of the
    very lease in question is left out of the schedules, since it can lose the lease.
    A call to a backend, the store or an upstream is one
    stage of a task; the number of stages is bounded for upstreams that send a bounded
    number of chunks and relays with a bounded number of events.

    This file: results, reflection tactics and generic list facts. *)

From Stdlib Require Import Ascii String.
From stdpp Require Import base list strings gmap.

(** Byte strings.  A Rust [&[u8]], [Vec<u8>], [&str] or [String] is the list
    of its bytes; for the text types these are the bytes of the UTF-8
    encoding, so [len()] is [length]. *)
Abbreviation byte := ascii.
Abbreviation bytes := (list ascii).

Declare Scope av_scope.
Delimit Scope av_scope with av.
Notation "& s" := (list_ascii_of_string s%string)
  (at level 1, s at level 0, format "& s") : av_scope.
Open Scope av_scope.

(** ** [Duration], [Instant] and [SystemTime]: nanoseconds *)

Definition NANOS : Z := 1000000000.
Definition from_secs (s : Z) : Z := (s * NANOS)%Z.

(** ** [anyhow::Result]: a value, or the text of the error *)

Inductive result (A : Type) : Type :=
| Ok (a : A)
| Err (e : string).
Arguments Ok {A} a.
Arguments Err {A} e.

#[global] Instance result_ret : MRet result := fun A a => Ok a.
#[global] Instance result_bind : MBind result := fun A B f m =>
  match m with Ok a => f a | Err e => Err e end.
#[global] Instance result_fmap : FMap result := fun A B f m =>
  match m with Ok a => Ok (f a) | Err e => Err e end.

Definition is_ok {A} (r : result A) : bool :=
  match r with Ok _ => true | Err _ => false end.

(** [if c { bail!(msg) }] *)
Definition bail_if (c : bool) (msg : string) : result unit :=
  if c then Err msg else Ok ().

(** [Option::is_some] and [Option::is_none] *)
Definition is_some {A} (o : option A) : bool :=
  match o with Some _ => true | None => false end.
Definition is_none {A} (o : option A) : bool := negb (is_some o).

Lemma is_some_true {A} (o : option A) : is_some o = true <-> is_Some o.
Proof. destruct o; simpl; [by split|]. split; [done|by intros [? [=]]]. Qed.
Lemma is_some_false {A} (o : option A) : is_some o = false <-> o = None.
Proof. by destruct o. Qed.
Lemma is_none_true {A} (o : option A) : is_none o = true <-> o = None.
Proof. by destruct o. Qed.
Lemma is_none_false {A} (o : option A) : is_none o = false <-> is_Some o.
Proof. unfold is_none. by rewrite negb_false_iff, is_some_true. Qed.

(** [option.context(msg)?] *)
Definition ok_or {A} (o : option A) (msg : string) : result A :=
  match o with Some a => Ok a | None => Err msg end.

(** [result.with_context(msg)?]: the context replaces the displayed text. *)
Definition with_context {A} (r : result A) (msg : string) : result A :=
  match r with Ok a => Ok a | Err _ => Err msg end.

(** [for x in xs { f(x)?; }] *)
Fixpoint for_each {A} (f : A -> result unit) (xs : list A) : result unit :=
  match xs with
  | [] => Ok ()
  | x :: xs => _ ← f x; for_each f xs
  end.

(** [for x in xs { acc = f(acc, x)?; }] *)
Fixpoint try_fold {A S} (f : S -> A -> result S) (acc : S) (xs : list A)
    : result S :=
  match xs with
  | [] => Ok acc
  | x :: xs => acc ← f acc x; try_fold f acc xs
  end.

Lemma bind_ok {A B} (m : result A) (f : A -> result B) b :
  (m ≫= f) = Ok b <-> exists a, m = Ok a /\ f a = Ok b.
Proof.
  destruct m as [a|e]; simpl; split.
  - intros H. by exists a.
  - by intros (a' & [= ->] & H).
  - done.
  - by intros (a' & [=] & _).
Qed.

Lemma fmap_ok {A B} (m : result A) (f : A -> B) b :
  (f <$> m) = Ok b <-> exists a, m = Ok a /\ f a = b.
Proof.
  destruct m as [a|e]; simpl; split.
  - intros [= H]. by exists a.
  - by intros (a' & [= ->] & ->).
  - done.
  - by intros (a' & [=] & _).
Qed.

Lemma Ok_inj {A} (a b : A) : Ok a = Ok b -> a = b.
Proof. by intros [= ->]. Qed.

Lemma bail_if_ok c msg u : bail_if c msg = Ok u <-> c = false.
Proof. destruct c, u; simpl; split; congruence. Qed.

Lemma ok_or_ok {A} (o : option A) msg a : ok_or o msg = Ok a <-> o = Some a.
Proof. destruct o; simpl; split; congruence. Qed.

Lemma with_context_ok {A} (r : result A) msg a :
  with_context r msg = Ok a <-> r = Ok a.
Proof. destruct r; simpl; split; congruence. Qed.

Lemma is_ok_true {A} (r : result A) : is_ok r = true <-> exists a, r = Ok a.
Proof. destruct r as [a|e]; simpl; split; [by exists a|done|done|by intros [? [=]]]. Qed.

Lemma for_each_ok {A} (f : A -> result unit) xs u :
  for_each f xs = Ok u <-> Forall (fun x => f x = Ok ()) xs.
Proof.
  destruct u. induction xs as [|x xs IH]; simpl.
  - by split; [constructor|].
  - rewrite bind_ok, Forall_cons, <- IH. split.
    + by intros ([] & ? & ?).
    + intros []. by exists ().
Qed.

(** A left-to-right invariant rule for loops that thread an accumulator. *)
Lemma try_fold_inv {A S} (P : list A -> S -> Prop) (f : S -> A -> result S) :
  forall xs acc acc',
  try_fold f acc xs = Ok acc' ->
  P [] acc ->
  (forall done x s s', P done s -> f s x = Ok s' -> P (done ++ [x]) s') ->
  P xs acc'.
Proof.
  intros xs acc acc' H H0 Hstep.
  assert (forall xs done acc, P done acc -> try_fold f acc xs = Ok acc' ->
            P (done ++ xs) acc') as Hgen.
  { clear H H0 acc xs.
    induction xs as [|x xs IH]; intros done acc HP H; simpl in H.
    - rewrite app_nil_r. congruence.
    - apply bind_ok in H as (s & Hs & H).
      change (x :: xs) with ([x] ++ xs). rewrite app_assoc.
      eapply IH; eauto. }
  exact (Hgen xs [] acc H0 H).
Qed.

Lemma try_fold_app {A S} (f : S -> A -> result S) xs ys acc :
  try_fold f acc (xs ++ ys) = (s ← try_fold f acc xs; try_fold f s ys).
Proof.
  revert acc. induction xs as [|x xs IH]; intros acc; simpl; [done|].
  by destruct (f acc x); simpl.
Qed.

(** ** Automation *)

Create HintDb av discriminated.
Create Rewrite HintDb av_bool.
#[export] Hint Rewrite orb_false_iff orb_true_iff andb_true_iff andb_false_iff
  negb_true_iff negb_false_iff bool_decide_eq_true bool_decide_eq_false
  Z.leb_le Z.ltb_lt Z.leb_gt Z.ltb_ge Z.eqb_eq Z.eqb_neq
  Nat.leb_le Nat.ltb_lt Nat.leb_gt Nat.ltb_ge Nat.eqb_eq Nat.eqb_neq
  N.leb_le N.ltb_lt N.leb_gt N.ltb_ge N.eqb_eq N.eqb_neq
  @is_some_true @is_some_false @is_none_true @is_none_false
  Is_true_true Is_true_false : av_bool.

(** Turn boolean hypotheses (goals) into propositions. *)
Tactic Notation "breflect" "in" hyp(H) := autorewrite with av_bool in H.
Tactic Notation "breflect" "in" "*" := autorewrite with av_bool in *.
Tactic Notation "breflect" := autorewrite with av_bool.

(** Peel a successful computation into the success of its steps. *)
Ltac inv_ok_step :=
  match goal with
  | H : Ok _ = Ok _ |- _ => apply Ok_inj in H
  | H : Err _ = Ok _ |- _ => discriminate H
  | H : Ok _ = Err _ |- _ => discriminate H
  | H : Some _ = None |- _ => discriminate H
  | H : None = Some _ |- _ => discriminate H
  | H : mret _ = Ok _ |- _ => unfold mret, result_ret in H
  | H : mbind _ _ = Ok _ |- _ =>
      let a := fresh "x" in let H1 := fresh "H" in
      apply bind_ok in H as (a & H1 & H)
  | H : fmap _ _ = Ok _ |- _ =>
      let a := fresh "x" in let H1 := fresh "H" in
      apply fmap_ok in H as (a & H1 & H)
  | H : match ?x with _ => _ end = Ok _ |- _ =>
      is_var x;
      lazymatch type of x with prod _ _ => destruct x as [? ?]; cbv beta iota in H end
  | H : bail_if _ _ = Ok ?u |- _ =>
      apply bail_if_ok in H; try (is_var u; clear u)
  | H : ok_or _ _ = Ok _ |- _ => apply ok_or_ok in H
  | H : with_context _ _ = Ok _ |- _ => apply with_context_ok in H
  | H : for_each _ _ = Ok ?u |- _ =>
      apply for_each_ok in H; try (is_var u; clear u)
  end.
Ltac inv_ok := repeat inv_ok_step.

(** Split every conjunction and existential hypothesis. *)
Ltac split_hyps :=
  repeat match goal with
  | H : _ /\ _ |- _ => destruct H
  | H : exists _, _ |- _ => destruct H
  end.

(** ** Panics

    A panic of the source is an error whose text starts with [panic: ]. *)

Definition panics {A} (r : result A) : Prop := exists m, r = Err (String.append "panic: " m).

Lemma no_panic_ok {A} (a : A) : ~ panics (Ok a).
Proof. by intros [m [=]]. Qed.
Lemma no_panic_bind {A B} (r : result A) (f : A -> result B) :
  ~ panics r -> (forall a, r = Ok a -> ~ panics (f a)) -> ~ panics (r ≫= f).
Proof.
  destruct r as [a|e]; simpl; [by intros _ H; apply H|].
  intros H _ [m [= ->]]. apply H. by exists m.
Qed.
Lemma no_panic_bail c msg : ~ panics (@Err unit msg) -> ~ panics (bail_if c msg).
Proof. destruct c; simpl; [done|]. intros _. apply no_panic_ok. Qed.
Lemma no_panic_ok_or {A} (o : option A) msg : ~ panics (@Err A msg) -> ~ panics (ok_or o msg).
Proof. destruct o; simpl; [intros _; apply no_panic_ok|done]. Qed.
Lemma no_panic_context {A} (r : result A) msg :
  ~ panics (@Err A msg) -> ~ panics (with_context r msg).
Proof. destruct r; simpl; [intros _; apply no_panic_ok|done]. Qed.
Lemma no_panic_for_each {A} (f : A -> result unit) xs :
  (forall x, ~ panics (f x)) -> ~ panics (for_each f xs).
Proof.
  intros Hf. induction xs as [|x xs IH]; simpl; [apply no_panic_ok|].
  apply no_panic_bind; [apply Hf|by intros].
Qed.
Lemma no_panic_try_fold {A S} (f : S -> A -> result S) xs acc :
  (forall s x, ~ panics (f s x)) -> ~ panics (try_fold f acc xs).
Proof.
  intros Hf. revert acc. induction xs as [|x xs IH]; intros acc; simpl; [apply no_panic_ok|].
  apply no_panic_bind; [apply Hf|by intros].
Qed.

(** Decompose a computation whose error texts are literals. *)
Ltac no_panic_step :=
  match goal with
  | H : ~ panics ?r |- ~ panics ?r => exact H
  | |- ~ panics (Ok _) => apply no_panic_ok
  | |- ~ panics (Err _) => let m := fresh in intros [m [=]]
  | |- ~ panics (mbind _ _) => apply no_panic_bind; [|intros]
  | |- ~ panics (bail_if _ _) => apply no_panic_bail
  | |- ~ panics (ok_or _ _) => apply no_panic_ok_or
  | |- ~ panics (with_context _ _) => apply no_panic_context
  | |- ~ panics (for_each _ _) => apply no_panic_for_each; intros
  | |- ~ panics (try_fold _ _ _) => apply no_panic_try_fold; intros
  | |- ~ panics (let _ := _ in _) => cbv zeta
  | |- ~ panics (match ?x with _ => _ end) => destruct x eqn:?
  end.
Ltac no_panic := repeat no_panic_step.

(** ** Occurrences of a byte string inside another *)

Definition infix_of {A} (p s : list A) : Prop := exists a b, s = a ++ p ++ b.

Lemma infix_of_cons {A} (p s : list A) c :
  infix_of p (c :: s) <-> p `prefix_of` (c :: s) \/ infix_of p s.
Proof.
  split.
  - intros ([|x a] & b & H); simplify_eq/=.
    + left. exists b. done.
    + right. exists a, b. done.
  - intros [[b H]|(a & b & ->)].
    + exists [], b. done.
    + exists (c :: a), b. done.
Qed.

Lemma infix_of_nil {A} (p : list A) : infix_of p [] <-> p = [].
Proof.
  split.
  - intros (a & b & H). symmetry in H.
    apply app_eq_nil in H as [_ H]. by apply app_eq_nil in H as [-> _].
  - intros ->. by exists [], [].
Qed.

(** An occurrence that avoids the byte [c] lies on one side of it. *)
Lemma prefix_of_sep {A} (p z y : list A) c :
  c ∉ p -> p `prefix_of` (z ++ c :: y) -> p `prefix_of` z.
Proof.
  revert p. induction z as [|e z IH]; intros p Hc [b Hb]; simpl in *.
  - destruct p as [|e p]; [apply prefix_nil|]. simplify_eq/=. set_solver.
  - destruct p as [|e' p]; [apply prefix_nil|]. simplify_eq/=.
    apply prefix_cons, IH; [set_solver|]. by exists b.
Qed.

Lemma infix_of_sep {A} (p x y : list A) c :
  c ∉ p -> infix_of p (x ++ c :: y) -> infix_of p x \/ infix_of p y.
Proof.
  intros Hc. induction x as [|d x IH]; simpl.
  - rewrite infix_of_cons. intros [Hp|?]; [|by right].
    left. apply infix_of_nil. apply prefix_nil_inv.
    by apply (prefix_of_sep p [] y c).
  - rewrite !infix_of_cons. intros [Hp|H].
    + left; left. by apply (prefix_of_sep p (d :: x) y c).
    + destruct (IH H) as [?|?]; [left; by right|by right].
Qed.

Lemma infix_of_trans {A} (p q s : list A) :
  infix_of p q -> infix_of q s -> infix_of p s.
Proof.
  intros (a & b & ->) (c & d & ->). exists (c ++ a), (b ++ d).
  by rewrite !app_assoc.
Qed.

Lemma infix_of_app_l {A} (p s t : list A) : infix_of p s -> infix_of p (s ++ t).
Proof. intros (a & b & ->). exists a, (b ++ t). by rewrite !app_assoc. Qed.

Lemma infix_of_app_r {A} (p s t : list A) : infix_of p t -> infix_of p (s ++ t).
Proof. intros (a & b & ->). exists (s ++ a), b. by rewrite !app_assoc. Qed.

Lemma infix_of_refl {A} (p : list A) : infix_of p p.
Proof. exists [], []. by rewrite app_nil_r. Qed.

#[export] Hint Resolve infix_of_app_l infix_of_app_r infix_of_refl : av.

(** ** Membership in boolean form *)

Lemma existsb_true {A} (f : A -> bool) xs :
  existsb f xs = true <-> exists x, x ∈ xs /\ f x = true.
Proof.
  rewrite existsb_exists. by setoid_rewrite list_elem_of_In.
Qed.

Lemma existsb_false {A} (f : A -> bool) xs :
  existsb f xs = false <-> Forall (fun x => f x = false) xs.
Proof.
  induction xs as [|x xs IH]; simpl; [by split; [constructor|]|].
  by rewrite orb_false_iff, Forall_cons, IH.
Qed.

Lemma forallb_true {A} (f : A -> bool) xs :
  forallb f xs = true <-> Forall (fun x => f x = true) xs.
Proof.
  induction xs as [|x xs IH]; simpl; [by split; [constructor|]|].
  by rewrite andb_true_iff, Forall_cons, IH.
Qed.
