(* ===== verification/Str.v ===== *)
(** Str: the parts of Rust's [core::str], [core::slice], [core::char] and [u8]
    that AV uses, as functions on byte strings, with the lemmas the components
    share.  A [char] is its Unicode scalar value, decoded from UTF-8. *)

From Stdlib Require Import Ascii String.
From stdpp Require Import base list strings gmap.
From S2P Require Import Prelude.

(** ** [u8] classes *)

Definition code (b : byte) : N := N_of_ascii b.

Definition in_range (lo hi : N) (b : byte) : bool :=
  (lo <=? code b)%N && (code b <=? hi)%N.

Definition is_ascii_uppercase : byte -> bool := in_range 65 90.
Definition is_ascii_lowercase : byte -> bool := in_range 97 122.
Definition is_ascii_digit : byte -> bool := in_range 48 57.
Definition is_ascii_alphabetic (b : byte) : bool :=
  is_ascii_uppercase b || is_ascii_lowercase b.
Definition is_ascii_alphanumeric (b : byte) : bool :=
  is_ascii_alphabetic b || is_ascii_digit b.
Definition is_ascii_hexdigit (b : byte) : bool :=
  is_ascii_digit b || in_range 65 70 b || in_range 97 102 b.
Definition is_ascii_control (b : byte) : bool :=
  (code b <? 32)%N || (code b =? 127)%N.
(** U+0020, tab, line feed, form feed, carriage return *)
Definition is_ascii_whitespace (b : byte) : bool :=
  existsb (N.eqb (code b)) [32; 9; 10; 12; 13]%N.

Definition to_lower (b : byte) : byte :=
  if is_ascii_uppercase b then ascii_of_N (code b + 32) else b.
Definition to_upper (b : byte) : byte :=
  if is_ascii_lowercase b then ascii_of_N (code b - 32) else b.
Definition to_ascii_lowercase (s : bytes) : bytes := to_lower <$> s.
Definition to_ascii_uppercase (s : bytes) : bytes := to_upper <$> s.
Definition eq_ignore_ascii_case (a b : bytes) : bool :=
  bool_decide (to_ascii_lowercase a = to_ascii_lowercase b).

(** [matches!(byte, b'-' | b'_' | ...)] *)
Definition one_of (cs : string) (b : byte) : bool :=
  bool_decide (b ∈ list_ascii_of_string cs).

(** ** [str] searching and splitting on ASCII patterns *)

Definition is_empty {A} (s : list A) : bool :=
  match s with [] => true | _ => false end.

Definition len {A} (s : list A) : Z := Z.of_nat (length s).

Definition contains (c : byte) (s : bytes) : bool := bool_decide (c ∈ s).
Definition contains_any (cs : string) (s : bytes) : bool :=
  existsb (one_of cs) s.

Fixpoint starts_with (p s : bytes) : bool :=
  match p, s with
  | [], _ => true
  | a :: p, b :: s => bool_decide (a = b) && starts_with p s
  | _ :: _, [] => false
  end.

Definition ends_with (p s : bytes) : bool := starts_with (rev p) (rev s).

Fixpoint contains_str (p s : bytes) : bool :=
  starts_with p s || match s with [] => false | _ :: s => contains_str p s end.

Definition strip_prefix (p s : bytes) : option bytes :=
  if starts_with p s then Some (drop (length p) s) else None.
Definition strip_suffix (p s : bytes) : option bytes :=
  if ends_with p s then Some (take (length s - length p) s) else None.

(** [s.split(c)]: always at least one piece *)
Fixpoint split (c : byte) (s : bytes) : list bytes :=
  match s with
  | [] => [[]]
  | x :: s =>
      if bool_decide (x = c) then [] :: split c s
      else match split c s with
           | piece :: rest => (x :: piece) :: rest
           | [] => [[x]]
           end
  end.

Fixpoint split_once (c : byte) (s : bytes) : option (bytes * bytes) :=
  match s with
  | [] => None
  | x :: s =>
      if bool_decide (x = c) then Some ([], s)
      else match split_once c s with
           | Some (a, b) => Some (x :: a, b)
           | None => None
           end
  end.

Definition rsplit_once (c : byte) (s : bytes) : option (bytes * bytes) :=
  match split_once c (rev s) with
  | Some (a, b) => Some (rev b, rev a)
  | None => None
  end.

Fixpoint trim_start_matches (c : byte) (s : bytes) : bytes :=
  match s with
  | x :: s' => if bool_decide (x = c) then trim_start_matches c s' else s
  | [] => []
  end.
Definition trim_end_matches (c : byte) (s : bytes) : bytes :=
  rev (trim_start_matches c (rev s)).
Definition trim_matches (c : byte) (s : bytes) : bytes :=
  trim_end_matches c (trim_start_matches c s).

(** [s.windows(p.len()).position(|w| w == p)] and
    [s.windows(p.len()).filter(|w| w == p).count()], for non-empty [p] *)
Fixpoint position (p s : bytes) : option nat :=
  if starts_with p s then Some 0
  else match s with [] => None | _ :: s => S <$> position p s end.
Fixpoint occurrences (p s : bytes) : nat :=
  (if starts_with p s then 1 else 0) +
  match s with [] => 0 | _ :: s => occurrences p s end.

(** ** [char]s of a UTF-8 string *)

Definition continuation (b : byte) : bool := in_range 128 191 b.

(** The first scalar value and its encoded length; overlong forms, surrogates
    and values above U+10FFFF are not UTF-8. *)
Definition decode_char (s : bytes) : option (N * nat) :=
  match s with
  | [] => None
  | b0 :: r =>
      let x := code b0 in
      if (x <? 128)%N then Some (x, 1)
      else if in_range 194 223 b0 then
        match r with
        | b1 :: _ =>
            if continuation b1
            then Some (((x - 192) * 64 + (code b1 - 128))%N, 2) else None
        | _ => None
        end
      else if in_range 224 239 b0 then
        match r with
        | b1 :: b2 :: _ =>
            let cp := ((x - 224) * 4096 + (code b1 - 128) * 64
                       + (code b2 - 128))%N in
            if continuation b1 && continuation b2 && (2048 <=? cp)%N
               && negb ((55296 <=? cp)%N && (cp <=? 57343)%N)
            then Some (cp, 3) else None
        | _ => None
        end
      else if in_range 240 244 b0 then
        match r with
        | b1 :: b2 :: b3 :: _ =>
            let cp := ((x - 240) * 262144 + (code b1 - 128) * 4096
                       + (code b2 - 128) * 64 + (code b3 - 128))%N in
            if continuation b1 && continuation b2 && continuation b3
               && (65536 <=? cp)%N && (cp <=? 1114111)%N
            then Some (cp, 4) else None
        | _ => None
        end
      else None
  end.

(** The scalar values with their encodings; a byte that starts no scalar value
    counts as U+FFFD (a Rust [str] has none). *)
Fixpoint char_chunks_from (skip : nat) (s : bytes) : list (N * bytes) :=
  match s with
  | [] => []
  | b :: r =>
      match skip with
      | S k => char_chunks_from k r
      | 0 =>
          match decode_char s with
          | Some (cp, n) => (cp, take n s) :: char_chunks_from (n - 1) r
          | None => (65533%N, [b]) :: char_chunks_from 0 r
          end
      end
  end.
Definition char_chunks : bytes -> list (N * bytes) := char_chunks_from 0.
Definition chars (s : bytes) : list N := fst <$> char_chunks s.

Fixpoint utf8_valid_from (skip : nat) (s : bytes) : bool :=
  match s with
  | [] => bool_decide (skip = 0)
  | _ :: r =>
      match skip with
      | S k => utf8_valid_from k r
      | 0 => match decode_char s with
             | Some (_, n) => utf8_valid_from (n - 1) r
             | None => false
             end
      end
  end.
(** [std::str::from_utf8(s).is_ok()] *)
Definition utf8_valid : bytes -> bool := utf8_valid_from 0.

(** [char::is_control] (general category Cc) *)
Definition is_control (c : N) : bool :=
  (c <? 32)%N || ((127 <=? c)%N && (c <=? 159)%N).

(** [char::is_whitespace] (property White_Space) *)
Definition is_whitespace (c : N) : bool :=
  ((9 <=? c)%N && (c <=? 13)%N) || ((8192 <=? c)%N && (c <=? 8202)%N)
  || existsb (N.eqb c) [32; 133; 160; 5760; 8232; 8233; 8239; 8287; 12288]%N.

(** [s.chars().any(char::is_control)] and the whitespace analogue *)
Definition any_control (s : bytes) : bool := existsb is_control (chars s).
Definition any_whitespace (s : bytes) : bool := existsb is_whitespace (chars s).

Fixpoint drop_while {A} (f : A -> bool) (s : list A) : list A :=
  match s with x :: s' => if f x then drop_while f s' else s | [] => [] end.

(** [str::trim]: remove white space at both ends *)
Definition trim (s : bytes) : bytes :=
  let ws (c : N * bytes) := is_whitespace c.1 in
  concat (snd <$> rev (drop_while ws (rev (drop_while ws (char_chunks s))))).

(** ** Lemmas *)

Lemma starts_with_spec p s : starts_with p s = true <-> p `prefix_of` s.
Proof.
  revert s. induction p as [|a p IH]; intros s; simpl.
  - split; [intros _; apply prefix_nil|done].
  - destruct s as [|b s].
    + split; [done|]. intros H. by apply prefix_nil_inv in H.
    + breflect. rewrite IH. split.
      * intros [-> ?]. by apply prefix_cons.
      * intros H. split; [by eapply prefix_cons_inv_1|by eapply prefix_cons_inv_2].
Qed.

Lemma starts_with_false p s : starts_with p s = false <-> ~ p `prefix_of` s.
Proof. rewrite <- starts_with_spec. by destruct (starts_with p s). Qed.

Lemma starts_with_app p s : starts_with p (p ++ s) = true.
Proof. apply starts_with_spec. by exists s. Qed.

Lemma contains_spec c s : contains c s = true <-> c ∈ s.
Proof. unfold contains. by breflect. Qed.

Lemma contains_false c s : contains c s = false <-> c ∉ s.
Proof. unfold contains. by breflect. Qed.

Lemma contains_str_spec p s : contains_str p s = true <-> infix_of p s.
Proof.
  induction s as [|x s IH]; simpl.
  - rewrite orb_false_r, starts_with_spec, infix_of_nil. split.
    + apply prefix_nil_inv.
    + intros ->. done.
  - by rewrite orb_true_iff, starts_with_spec, IH, infix_of_cons.
Qed.

Lemma contains_str_false p s : contains_str p s = false <-> ~ infix_of p s.
Proof. rewrite <- contains_str_spec. by destruct (contains_str p s). Qed.

Lemma one_of_spec cs b : one_of cs b = true <-> b ∈ list_ascii_of_string cs.
Proof. unfold one_of. by breflect. Qed.

Lemma strip_prefix_spec p s r : strip_prefix p s = Some r <-> s = p ++ r.
Proof.
  unfold strip_prefix. destruct (starts_with p s) eqn:E.
  - apply starts_with_spec in E as [t ->]. rewrite drop_app_length. split.
    + by intros [= ->].
    + by intros ->%app_inv_head.
  - split; [done|]. intros ->. by rewrite starts_with_app in E.
Qed.

Lemma strip_prefix_app p r : strip_prefix p (p ++ r) = Some r.
Proof. by apply strip_prefix_spec. Qed.

Lemma strip_suffix_spec p s r : strip_suffix p s = Some r <-> s = r ++ p.
Proof.
  unfold strip_suffix, ends_with. destruct (starts_with (rev p) (rev s)) eqn:E.
  - apply starts_with_spec in E as [t E].
    apply (f_equal (@rev ascii)) in E.
    rewrite rev_involutive, rev_app_distr, rev_involutive in E. subst s.
    rewrite length_app, Nat.add_sub, take_app_length. split.
    + by intros [= ->].
    + intros ->%app_inv_tail. done.
  - split; [done|]. intros ->. rewrite rev_app_distr in E.
    by rewrite starts_with_app in E.
Qed.

Lemma split_cons_ne c x s :
  x <> c -> exists h t, split c s = h :: t /\ split c (x :: s) = (x :: h) :: t.
Proof.
  intros Hx. simpl. rewrite bool_decide_eq_false_2 by done.
  assert (split c s <> []) as Hne.
  { destruct s; simpl; [done|]. case_bool_decide; [done|]. by destruct (split _ _). }
  destruct (split c s) as [|h t]; [done|]. by exists h, t.
Qed.

Lemma split_nonempty c s : split c s <> [].
Proof.
  destruct s as [|x s]; [done|]. destruct (decide (x = c)) as [->|Hx].
  - simpl. by rewrite bool_decide_eq_true_2.
  - destruct (split_cons_ne c x s Hx) as (h & t & _ & ->). done.
Qed.

Lemma split_app c a b : split c (a ++ c :: b) = split c a ++ split c b.
Proof.
  induction a as [|x a IH]; simpl.
  - by rewrite bool_decide_eq_true_2.
  - case_bool_decide; [by rewrite IH|].
    rewrite IH. destruct (split c a) as [|h t] eqn:E; [|done].
    by apply split_nonempty in E.
Qed.

Lemma split_no_sep c s : Forall (fun piece => c ∉ piece) (split c s).
Proof.
  induction s as [|x s IH]; simpl; [repeat constructor; set_solver|].
  case_bool_decide; [constructor; [set_solver|done]|].
  destruct (split c s) as [|h t]; [repeat constructor; set_solver|].
  apply Forall_cons in IH as [Hh Ht]. constructor; [set_solver|done].
Qed.

(** Joining the pieces with the separator gives the string back. *)
Fixpoint join (c : byte) (pieces : list bytes) : bytes :=
  match pieces with
  | [] => []
  | [p] => p
  | p :: ps => p ++ c :: join c ps
  end.

Lemma join_split c s : join c (split c s) = s.
Proof.
  induction s as [|x s IH]; [done|]. destruct (decide (x = c)) as [->|Hx].
  - simpl. rewrite bool_decide_eq_true_2 by done. simpl.
    destruct (split c s) eqn:E; [by apply split_nonempty in E|].
    by rewrite IH.
  - destruct (split_cons_ne c x s Hx) as (h & t & E & ->). rewrite E in IH.
    destruct t; simpl in *; by rewrite IH.
Qed.

Lemma join_app c ps qs :
  ps <> [] -> qs <> [] -> join c (ps ++ qs) = join c ps ++ c :: join c qs.
Proof.
  intros Hp Hq. induction ps as [|p ps IH]; [done|].
  destruct ps as [|p' ps]; simpl in *.
  - by destruct qs.
  - rewrite IH by done. by rewrite <- !app_assoc.
Qed.

(** Splitting turns "equal to [x], or [x] followed by the separator" into a
    prefix of the list of pieces: matching at a separator boundary. *)
Lemma split_prefix c x y :
  split c x `prefix_of` split c y <->
  y = x \/ (x ++ [c]) `prefix_of` y.
Proof.
  split.
  - intros [qs Hq]. destruct qs as [|q qs].
    + left. rewrite app_nil_r in Hq. rewrite <- (join_split c x), <- (join_split c y).
      by rewrite Hq.
    + right. exists (join c (q :: qs)). rewrite <- (join_split c y), Hq.
      rewrite join_app by (done || apply split_nonempty).
      by rewrite join_split, <- app_assoc.
  - intros [->|[t ->]]; [done|].
    rewrite <- app_assoc. simpl. rewrite split_app. by apply prefix_app_r.
Qed.

Lemma trim_start_matches_spec c s :
  exists n, s = replicate n c ++ trim_start_matches c s
            /\ forall t, trim_start_matches c s <> c :: t.
Proof.
  induction s as [|x s (n & IH & Hne)]; simpl.
  - by exists 0.
  - case_bool_decide as Hx.
    + subst x. exists (S n). simpl. by rewrite <- IH.
    + exists 0. split; [done|]. congruence.
Qed.

Lemma position_Some p s n :
  position p s = Some n ->
  p `prefix_of` drop n s /\ (forall m, m < n -> ~ p `prefix_of` drop m s).
Proof.
  revert n. induction s as [|x s IH]; intros n; simpl.
  - destruct (starts_with p []) eqn:E; [|done]. intros [= <-].
    apply starts_with_spec in E. split; [done|lia].
  - destruct (starts_with p (x :: s)) eqn:E.
    + intros [= <-]. apply starts_with_spec in E. split; [done|lia].
    + intros (m & Hm & ->)%fmap_Some. apply starts_with_false in E.
      destruct (IH _ Hm) as [H1 H2]. split; [done|].
      intros [|k] Hk; [done|]. apply H2. lia.
Qed.

Lemma position_None p s : position p s = None <-> ~ infix_of p s.
Proof.
  induction s as [|x s IH]; simpl.
  - rewrite infix_of_nil. destruct (starts_with p []) eqn:E.
    + apply starts_with_spec, prefix_nil_inv in E. naive_solver.
    + apply starts_with_false in E. split; [|done]. intros _ ->. by apply E.
  - rewrite infix_of_cons. destruct (starts_with p (x :: s)) eqn:E.
    + apply starts_with_spec in E. naive_solver.
    + apply starts_with_false in E. rewrite fmap_None, IH. naive_solver.
Qed.

Lemma occurrences_zero p s : occurrences p s = 0 <-> ~ infix_of p s.
Proof.
  rewrite <- position_None.
  induction s as [|x s IH]; simpl; destruct (starts_with p _); try done.
  by rewrite fmap_None.
Qed.

(** The first occurrence splits the string around it. *)
Lemma position_split p s n :
  position p s = Some n -> s = take n s ++ p ++ drop (n + length p) s.
Proof.
  intros [[t Ht] _]%position_Some.
  rewrite <- (take_drop n s) at 1. rewrite Ht. do 2 f_equal.
  rewrite <- drop_drop, Ht. by rewrite drop_app_length.
Qed.

Lemma len_one {A} (l : list A) : (len l =? 1)%Z = true -> exists x, l = [x].
Proof.
  unfold len. destruct l as [|x [|]]; [done|by exists x|].
  intros H%Z.eqb_eq. simpl in H. lia.
Qed.

Lemma code_lt b : (code b < 256)%N.
Proof. unfold code. destruct b as [[] [] [] [] [] [] [] []]; vm_compute; done. Qed.

Lemma in_range_spec lo hi b :
  in_range lo hi b = true <-> (lo <= code b <= hi)%N.
Proof. unfold in_range. by breflect. Qed.

Lemma continuation_high b : continuation b = true -> (128 <= code b)%N.
Proof. unfold continuation. rewrite in_range_spec. lia. Qed.

(** Every byte after the first of a decoded scalar value is at least 128. *)
Lemma decode_char_tail s cp n :
  decode_char s = Some (cp, n) ->
  0 < n <= length s /\ Forall (fun b => (128 <= code b)%N) (take (n - 1) (tail s)).
Proof.
  destruct s as [|b0 s]; [done|]. unfold decode_char. intros H.
  repeat case_match; simplify_eq/=; breflect in *; destruct_and?;
    (split; [lia|]); repeat constructor; by apply continuation_high.
Qed.

Lemma char_chunks_ascii skip s b :
  Forall (fun b => (128 <= code b)%N) (take skip s) ->
  b ∈ s -> (code b < 128)%N -> code b ∈ fst <$> char_chunks_from skip s.
Proof.
  revert skip. induction s as [|x s IH]; intros skip Hskip Hb Hlow; [set_solver|].
  destruct skip as [|skip].
  - cbn [char_chunks_from]. destruct (decide (b = x)) as [->|Hne].
    + assert (decode_char (x :: s) = Some (code x, 1)) as ->.
      { unfold decode_char. by rewrite (proj2 (N.ltb_lt _ _) Hlow). }
      simpl. left.
    + assert (b ∈ s) as Hin by set_solver.
      destruct (decode_char (x :: s)) as [[cp n]|] eqn:E; simpl; right.
      * apply IH; [by apply decode_char_tail in E as [_ ?]|done|done].
      * apply IH; [constructor|done|done].
  - simpl in *. apply Forall_cons in Hskip as [Hx Hskip].
    apply IH; [done| |done]. apply elem_of_cons in Hb as [->|?]; [lia|done].
Qed.

(** A string with no control character has no ASCII control byte. *)
Lemma any_control_ascii s b :
  any_control s = false -> b ∈ s -> is_ascii_control b = false.
Proof.
  intros H Hb. unfold any_control in H. rewrite existsb_false, Forall_forall in H.
  destruct (is_ascii_control b) eqn:E; [|done]. exfalso.
  unfold is_ascii_control in E. breflect in E.
  assert (code b < 128)%N as Hlow by lia.
  specialize (H (code b) (char_chunks_ascii 0 s b ltac:(constructor) Hb Hlow)).
  unfold is_control in H. breflect in H. lia.
Qed.

(** A property of every byte, decided by evaluating all 256. *)
Definition all_bytes : list byte := ascii_of_nat <$> seq 0 256.

Lemma elem_of_all_bytes b : b ∈ all_bytes.
Proof.
  apply list_elem_of_fmap. exists (nat_of_ascii b). split.
  - by rewrite ascii_nat_embedding.
  - apply elem_of_seq. pose proof (nat_ascii_bounded b). lia.
Qed.

Lemma byte_impl (f g : byte -> bool) b :
  forallb (fun b => implb (f b) (g b)) all_bytes = true -> f b = true -> g b = true.
Proof.
  rewrite forallb_true, Forall_forall. intros H Hf.
  specialize (H b (elem_of_all_bytes b)). cbv beta in H. by rewrite Hf in H.
Qed.

(** ** More on splitting *)

Lemma split_fmap (f : byte -> byte) c (s : bytes) :
  (forall x, f x = c <-> x = c) ->
  split c (f <$> s) = (fun piece : bytes => f <$> piece) <$> split c s.
Proof.
  intros Hf. induction s as [|x s IH]; [done|].
  rewrite fmap_cons. cbn [split]. rewrite IH.
  destruct (decide (x = c)) as [Hx|Hx].
  - by rewrite !bool_decide_eq_true_2 by (by rewrite ?Hf).
  - rewrite !bool_decide_eq_false_2 by (by rewrite ?Hf).
    destruct (split c s) as [|h t] eqn:E; [by apply split_nonempty in E|done].
Qed.

Lemma split_elem c s b : b ∈ s -> b <> c -> exists piece, piece ∈ split c s /\ b ∈ piece.
Proof.
  intros Hb Hne. induction s as [|x s IH]; [set_solver|].
  destruct (decide (x = c)) as [->|Hx].
  - destruct IH as (p & Hp & Hbp); [set_solver|]. exists p. simpl.
    rewrite bool_decide_eq_true_2 by done. set_solver.
  - destruct (split_cons_ne c x s Hx) as (h & t & E & ->). rewrite E in IH.
    apply elem_of_cons in Hb as [->|Hb]; [exists (x :: h); set_solver|].
    destruct (IH Hb) as (p & Hp & Hbp).
    apply elem_of_cons in Hp as [->|Hp]; [exists (x :: h)|exists p]; set_solver.
Qed.

Lemma to_lower_idem b : to_lower (to_lower b) = to_lower b.
Proof.
  apply (bool_decide_eq_true_1 (to_lower (to_lower b) = to_lower b)).
  by apply (byte_impl (fun _ => true)
              (fun b => bool_decide (to_lower (to_lower b) = to_lower b)) b).
Qed.

Lemma to_ascii_lowercase_idem s :
  to_ascii_lowercase (to_ascii_lowercase s) = to_ascii_lowercase s.
Proof.
  unfold to_ascii_lowercase. rewrite <- list_fmap_compose. apply list_fmap_ext.
  intros. apply to_lower_idem.
Qed.

(** A byte that is no letter is the only one that lower-cases to itself. *)
Lemma to_lower_only c b :
  is_ascii_alphabetic c = false -> to_lower b = c -> b = c.
Proof.
  intros Hc <-. destruct (is_ascii_uppercase b) eqn:E.
  - exfalso. apply not_true_iff_false in Hc. apply Hc.
    by apply (byte_impl is_ascii_uppercase (fun b => is_ascii_alphabetic (to_lower b)) b).
  - unfold to_lower. by rewrite E.
Qed.

Lemma split_sep_free c s : c ∉ s -> split c s = [s].
Proof.
  induction s as [|x s IH]; intros Hc; [done|]. apply not_elem_of_cons in Hc as [Hx Hc].
  destruct (split_cons_ne c x s) as (h & t & E & ->); [done|].
  rewrite IH in E by done. by injection E as <- <-.
Qed.

Lemma split_join c ps : ps <> [] -> Forall (fun p => c ∉ p) ps -> split c (join c ps) = ps.
Proof.
  intros Hne Hps. induction Hps as [|p ps Hp Hps IH]; [done|].
  destruct ps as [|q ps]; [by apply split_sep_free|].
  change (join c (p :: q :: ps)) with (p ++ c :: join c (q :: ps)).
  by rewrite split_app, IH, split_sep_free.
Qed.

(** ** ASCII text *)

Lemma char_chunks_ascii_text s :
  Forall (fun b => (code b < 128)%N) s -> char_chunks s = (fun b => (code b, [b])) <$> s.
Proof.
  unfold char_chunks. induction 1 as [|b s Hb Hs IH]; [done|].
  cbn [char_chunks_from]. unfold decode_char. rewrite (proj2 (N.ltb_lt _ _) Hb).
  rewrite fmap_cons, <- IH. done.
Qed.

(** Surrounding spaces are all that [trim] removes from printable text. *)
Lemma trim_space_text s :
  Forall (fun b => (code b < 128)%N /\ is_whitespace (code b) = false) s ->
  trim (&" " ++ s) = s.
Proof.
  intros Hs.
  assert (forall l : list (N * bytes), Forall (fun c => is_whitespace c.1 = false) l ->
            drop_while (fun c => is_whitespace c.1) l = l) as Hdrop.
  { intros l Hl. destruct Hl as [|c l Hc Hl]; [done|]. simpl. by rewrite Hc. }
  assert (Forall (fun c : N * bytes => is_whitespace c.1 = false)
            ((fun b => (code b, [b])) <$> s)) as Hws.
  { apply Forall_fmap. eapply Forall_impl; [exact Hs|]. by intros b [_ ?]. }
  unfold trim. rewrite char_chunks_ascii_text.
  2: { constructor; [done|]. eapply Forall_impl; [exact Hs|]. by intros b [? _]. }
  change ((fun b => (code b, [b])) <$> &" " ++ s) with
    ((32%N, [" "%char]) :: ((fun b => (code b, [b])) <$> s)).
  cbn [drop_while fst]. change (is_whitespace 32) with true. cbv iota.
  rewrite (Hdrop _ Hws), (Hdrop _ (Forall_rev Hws)).
  rewrite rev_involutive, <- list_fmap_compose.
  clear. induction s as [|b s IH]; [done|]. rewrite fmap_cons. simpl. by f_equal.
Qed.
