(* ===== verification/BTree.v ===== *)
(** BTree: [std::collections::BTreeMap<String, V>] and [BTreeSet<String>].

    A map is the list of its entries in ascending key order, the order its
    iterators follow; keys compare by their bytes. *)

From Stdlib Require Import Ascii String Sorted.
From stdpp Require Import base list strings gmap.
From S2P Require Import Prelude Str.

(** ** [Ord for str] *)

Fixpoint compare_bytes (a b : bytes) : comparison :=
  match a, b with
  | [], [] => Eq
  | [], _ :: _ => Lt
  | _ :: _, [] => Gt
  | x :: a, y :: b =>
      match N.compare (code x) (code y) with
      | Eq => compare_bytes a b
      | o => o
      end
  end.

Definition bytes_lt (a b : bytes) : Prop := compare_bytes a b = Lt.

Lemma code_inj a b : code a = code b -> a = b.
Proof.
  unfold code. intros H. rewrite <- (ascii_N_embedding a), <- (ascii_N_embedding b).
  by rewrite H.
Qed.

Lemma compare_bytes_eq a b : compare_bytes a b = Eq <-> a = b.
Proof.
  revert b. induction a as [|x a IH]; intros [|y b]; simpl; try done.
  destruct (N.compare_spec (code x) (code y)) as [E|E|E].
  - apply code_inj in E as ->. rewrite IH. split; [by intros ->|by intros [= ->]].
  - split; [done|]. intros [= -> _]. lia.
  - split; [done|]. intros [= -> _]. lia.
Qed.

Lemma compare_bytes_antisym a b : compare_bytes b a = CompOpp (compare_bytes a b).
Proof.
  revert b. induction a as [|x a IH]; intros [|y b]; simpl; try done.
  rewrite (N.compare_antisym (code x) (code y)).
  by destruct (N.compare (code x) (code y)); simpl.
Qed.

Lemma bytes_lt_trans a b c : bytes_lt a b -> bytes_lt b c -> bytes_lt a c.
Proof.
  unfold bytes_lt. revert b c.
  induction a as [|x a IH]; intros [|y b] [|z c]; simpl; try done.
  destruct (N.compare_spec (code x) (code y)) as [E|E|E]; try done;
    destruct (N.compare_spec (code y) (code z)) as [F|F|F]; try done;
    destruct (N.compare_spec (code x) (code z)) as [G|G|G];
    try done; try lia; eauto.
Qed.

Lemma bytes_lt_irrefl a : ~ bytes_lt a a.
Proof. unfold bytes_lt. by rewrite (proj2 (compare_bytes_eq a a) eq_refl). Qed.

Lemma compare_bytes_gt a b : compare_bytes a b = Gt <-> bytes_lt b a.
Proof.
  unfold bytes_lt. rewrite (compare_bytes_antisym a b).
  by destruct (compare_bytes a b).
Qed.

(** ** Maps *)

Abbreviation BTreeMap V := (list (bytes * V)).

Section BTreeMap.
Context {V : Type}.
Implicit Types (m : BTreeMap V) (k : bytes) (v : V).

Fixpoint bt_get m k : option V :=
  match m with
  | [] => None
  | (k', v) :: m => if bool_decide (k' = k) then Some v else bt_get m k
  end.

Definition bt_contains m k : bool := bool_decide (is_Some (bt_get m k)).

Fixpoint bt_insert m k v : BTreeMap V :=
  match m with
  | [] => [(k, v)]
  | (k', v') :: m' =>
      match compare_bytes k k' with
      | Lt => (k, v) :: m
      | Eq => (k, v) :: m'
      | Gt => (k', v') :: bt_insert m' k v
      end
  end.

Fixpoint bt_remove m k : BTreeMap V :=
  match m with
  | [] => []
  | (k', v') :: m' =>
      if bool_decide (k' = k) then m' else (k', v') :: bt_remove m' k
  end.

(** Every [BTreeMap] value has strictly ascending keys. *)
Definition bt_wf m : Prop := StronglySorted bytes_lt m.*1.

Lemma bt_get_insert m k v k' :
  bt_get (bt_insert m k v) k' = if decide (k = k') then Some v else bt_get m k'.
Proof.
  induction m as [|[k0 v0] m IH]; simpl.
  - repeat case_decide; case_bool_decide; congruence.
  - destruct (compare_bytes k k0) eqn:E; simpl.
    + apply compare_bytes_eq in E as ->. repeat case_decide; case_bool_decide; congruence.
    + repeat case_decide; repeat case_bool_decide; congruence.
    + rewrite IH. apply compare_bytes_gt in E.
      repeat case_decide; repeat case_bool_decide; subst; try done.
      by apply bytes_lt_irrefl in E.
Qed.

Lemma bt_get_elem m k v : bt_get m k = Some v -> (k, v) ∈ m.
Proof.
  induction m as [|[k0 v0] m IH]; simpl; [done|].
  case_bool_decide as Hk; intros H.
  - simplify_eq. left.
  - right. by apply IH.
Qed.

Lemma bt_get_None m k : bt_get m k = None <-> k ∉ m.*1.
Proof.
  induction m as [|[k0 v0] m IH]; simpl; [set_solver|].
  case_bool_decide; set_solver.
Qed.

Lemma bt_elem_get m k v : bt_wf m -> (k, v) ∈ m -> bt_get m k = Some v.
Proof.
  unfold bt_wf. induction m as [|[k0 v0] m IH]; simpl; intros Hs Hin; [set_solver|].
  apply StronglySorted_inv in Hs as [Hs Hall].
  apply elem_of_cons in Hin as [[= -> ->]|Hin].
  - by rewrite bool_decide_eq_true_2.
  - rewrite bool_decide_eq_false_2; [by apply IH|]. intros ->.
    rewrite List.Forall_forall in Hall.
    apply (bytes_lt_irrefl k), Hall, list_elem_of_In.
    apply (list_elem_of_fmap_2 fst _ _ Hin).
Qed.

Lemma bt_insert_keys m k v : forall x, x ∈ (bt_insert m k v).*1 <-> x = k \/ x ∈ m.*1.
Proof.
  intros x. induction m as [|[k0 v0] m IH]; simpl; [set_solver|].
  destruct (compare_bytes k k0) eqn:E; simpl; try set_solver.
  apply compare_bytes_eq in E as ->. set_solver.
Qed.

Lemma bt_wf_insert m k v : bt_wf m -> bt_wf (bt_insert m k v).
Proof.
  unfold bt_wf. induction m as [|[k0 v0] m IH]; simpl; intros Hs.
  - repeat constructor.
  - apply StronglySorted_inv in Hs as [Hs Hall].
    destruct (compare_bytes k k0) eqn:E; simpl.
    + apply compare_bytes_eq in E as ->. by constructor.
    + constructor; [by constructor|]. constructor; [done|].
      eapply List.Forall_impl; [|exact Hall]. intros a. by apply bytes_lt_trans.
    + apply compare_bytes_gt in E. constructor; [by apply IH|].
      apply List.Forall_forall. intros x Hx%list_elem_of_In.
      apply bt_insert_keys in Hx as [->|Hx]; [done|].
      rewrite List.Forall_forall in Hall. by apply Hall, list_elem_of_In.
Qed.

Lemma bt_wf_nil : bt_wf [].
Proof. constructor. Qed.

Lemma bt_wf_NoDup m : bt_wf m -> NoDup m.*1.
Proof.
  unfold bt_wf. induction m as [|[k v] m IH]; simpl; intros Hs; [constructor|].
  apply StronglySorted_inv in Hs as [Hs Hall]. constructor; [|by apply IH].
  intros Hin. rewrite List.Forall_forall in Hall.
  by apply (bytes_lt_irrefl k), Hall, list_elem_of_In.
Qed.

Lemma bt_get_remove_ne m k k' : k <> k' -> bt_get (bt_remove m k) k' = bt_get m k'.
Proof.
  intros Hne. induction m as [|[k0 v0] m IH]; simpl; [done|].
  repeat case_bool_decide; simpl; subst; try done.
  - by rewrite bool_decide_eq_true_2.
  - by rewrite bool_decide_eq_false_2.
Qed.

Lemma bt_get_remove m k : bt_wf m -> bt_get (bt_remove m k) k = None.
Proof.
  intros Hs%bt_wf_NoDup. rewrite bt_get_None.
  induction m as [|[k0 v0] m IH]; simpl in *; [set_solver|].
  apply NoDup_cons in Hs as [Hn Hs]. case_bool_decide; [by subst|].
  simpl. specialize (IH Hs). set_solver.
Qed.

Lemma bt_remove_keys m k x : x ∈ (bt_remove m k).*1 -> x ∈ m.*1.
Proof.
  induction m as [|[k0 v0] m IH]; simpl; [done|]. case_bool_decide; simpl; set_solver.
Qed.

Lemma bt_wf_remove m k : bt_wf m -> bt_wf (bt_remove m k).
Proof.
  unfold bt_wf. induction m as [|[k0 v0] m IH]; simpl; [done|].
  intros [Hs Hall]%StronglySorted_inv. case_bool_decide; [done|]. simpl.
  constructor; [by apply IH|]. rewrite List.Forall_forall in *. intros x Hx%list_elem_of_In.
  by apply Hall, list_elem_of_In, bt_remove_keys with k.
Qed.

End BTreeMap.

#[export] Hint Resolve bt_wf_insert bt_wf_remove bt_wf_nil : av.
