(* ===== verification/External.v ===== *)
(** External: interfaces to the crates AV calls and does not contain.

    [http] (header names, values and maps), [url] (URLs and hosts), [base64],
    [form_urlencoded], [serde_json] and [sha2] are parameters of the model.
    Each class lists the functions the source calls; the law classes state the
    documented behaviour the theorems rely on, and a theorem names the laws it
    uses.  Models.v has an executable instance of every class. *)

From Stdlib Require Import Ascii String.
From stdpp Require Import base list strings gmap.
From S2P Require Import Prelude Str.

(** ** [http::header] *)

Class HeaderLib := {
  HeaderName : Type;
  HeaderName_eq_dec :: EqDecision HeaderName;
  HeaderValue : Type;
  HeaderMap : Type;
  (** [HeaderName::from_bytes] *)
  name_from_bytes : bytes -> option HeaderName;
  (** the constants [header::HOST] etc. and [HeaderName::from_static] *)
  from_static : bytes -> HeaderName;
  name_as_str : HeaderName -> bytes;
  (** [HeaderValue::from_bytes], also [HeaderValue::from_str] *)
  value_from_bytes : bytes -> option HeaderValue;
  value_as_bytes : HeaderValue -> bytes;
  value_to_str : HeaderValue -> option bytes;
  hm_new : HeaderMap;
  hm_get_all : HeaderMap -> HeaderName -> list HeaderValue;
  hm_insert : HeaderMap -> HeaderName -> HeaderValue -> HeaderMap;
  hm_remove : HeaderMap -> HeaderName -> HeaderMap;
}.

Section Headers.
Context `{!HeaderLib}.

(** [get] returns the first value of a name. *)
Definition hm_get (m : HeaderMap) (n : HeaderName) : option HeaderValue :=
  head (hm_get_all m n).
Definition hm_contains_key (m : HeaderMap) (n : HeaderName) : bool :=
  negb (is_empty (hm_get_all m n)).
End Headers.

(** The names AV writes as constants. *)
Definition standard_header_names : list bytes :=
  [&"accept"; &"authorization"; &"connection"; &"content-length";
   &"content-type"; &"cookie"; &"host"; &"origin"; &"proxy-authorization";
   &"sec-fetch-site"; &"sec-websocket-extensions"; &"sec-websocket-key";
   &"sec-websocket-protocol"; &"sec-websocket-version"; &"upgrade"].

(** A byte [HeaderValue::to_str] lets through: visible ASCII, space or tab. *)
Definition header_text_byte (b : byte) : bool :=
  ((32 <=? code b)%N && (code b <? 127)%N) || (code b =? 9)%N.

Class HeaderLaws `{!HeaderLib} : Prop := {
  (** names are normalised to lower case *)
  name_from_bytes_lower b n :
    name_from_bytes b = Some n -> name_as_str n = to_ascii_lowercase b;
  name_as_str_inj n n' : name_as_str n = name_as_str n' -> n = n';
  from_static_valid b :
    b ∈ standard_header_names -> name_from_bytes b = Some (from_static b);
  value_from_bytes_as b v : value_from_bytes b = Some v -> value_as_bytes v = b;
  value_to_str_text v s :
    value_to_str v = Some s ->
    s = value_as_bytes v /\ Forall (fun b => header_text_byte b = true) s;
  hm_get_all_new n : hm_get_all hm_new n = [];
  hm_get_all_insert m n v n' :
    hm_get_all (hm_insert m n v) n' =
      if decide (n = n') then [v] else hm_get_all m n';
  hm_get_all_remove m n n' :
    hm_get_all (hm_remove m n) n' =
      if decide (n = n') then [] else hm_get_all m n';
}.

(** ** [http::Method] and [http::Uri]: the observations the source makes *)

Record Uri := {
  uri_scheme : option bytes;
  uri_authority : option bytes;
  uri_path : bytes;
  uri_query : option bytes;
}.

(** ** [url] *)

Inductive Host := Domain (domain : bytes) | IpLiteral.

Class UrlLib := {
  Url : Type;
  url_parse : bytes -> option Url;
  url_scheme : Url -> bytes;
  url_host_str : Url -> option bytes;
  url_port : Url -> option Z;
  url_port_or_known_default : Url -> option Z;
  url_username : Url -> bytes;
  url_password : Url -> option bytes;
  url_path : Url -> bytes;
  url_query : Url -> option bytes;
  url_fragment : Url -> option bytes;
  url_set_path : Url -> bytes -> Url;
  (** [set_query(None)] *)
  url_clear_query : Url -> Url;
  (** [query_pairs_mut().extend_pairs(..)] *)
  url_extend_pairs : Url -> list (bytes * bytes) -> Url;
  (** [url::Host::parse] *)
  host_parse : bytes -> option Host;
}.

(** What decides where a request goes and who it authenticates as. *)
Definition url_origin `{!UrlLib} (u : Url) :
    bytes * option bytes * option Z * bytes * option bytes :=
  (url_scheme u, url_host_str u, url_port_or_known_default u,
   url_username u, url_password u).

Class UrlLaws `{!UrlLib} : Prop := {
  origin_set_path u p : url_origin (url_set_path u p) = url_origin u;
  origin_clear_query u : url_origin (url_clear_query u) = url_origin u;
  origin_extend_pairs u ps : url_origin (url_extend_pairs u ps) = url_origin u;
  fragment_set_path u p : url_fragment (url_set_path u p) = url_fragment u;
  fragment_clear_query u : url_fragment (url_clear_query u) = url_fragment u;
  fragment_extend_pairs u ps : url_fragment (url_extend_pairs u ps) = url_fragment u;
  query_clear_query u : url_query (url_clear_query u) = None;
}.

(** ** [base64], [form_urlencoded], [serde_json], [sha2] *)

(** [serde_json::Value]; a number is the text [to_string] gives it, an object
    its entries in iteration order. *)
Inductive Value :=
| Null | Bool (b : bool) | Number (printed : bytes) | Text (s : bytes) | Array (xs : list Value)
| Object (fields : list (bytes * Value)).

Class EncodingLib := {
  base64_standard : bytes -> bytes;
  base64_standard_no_pad : bytes -> bytes;
  base64_url_safe : bytes -> bytes;
  base64_url_safe_no_pad : bytes -> bytes;
  base64_standard_decode : bytes -> option bytes;
  (** [form_urlencoded::byte_serialize(..).collect::<String>()] *)
  byte_serialize : bytes -> bytes;
  form_urlencoded_parse : bytes -> list (bytes * bytes);
  (** [serde_json::to_string] of a [&str] *)
  json_to_string : bytes -> option bytes;
  sha256_digest : bytes -> bytes;
}.

Class EncodingLaws `{!EncodingLib} : Prop := {
  sha256_digest_length b : length (sha256_digest b) = 32;
}.

(** The URL-safe alphabet without padding: 32 bytes take 43 characters. *)
Definition url_safe_byte (b : byte) : bool := is_ascii_alphanumeric b || one_of "-_" b.
Class TokenLaws `{!EncodingLib} : Prop := {
  base64_url_safe_token b :
    length b = 32 ->
    length (base64_url_safe_no_pad b) = 43
    /\ Forall (fun c => url_safe_byte c = true) (base64_url_safe_no_pad b);
}.

(** ** Facts derived from the laws *)

Section HeaderFacts.
Context `{!HeaderLib, !HeaderLaws}.

Lemma from_static_as_str b :
  b ∈ standard_header_names -> name_as_str (from_static b) = b.
Proof.
  intros Hb. rewrite (name_from_bytes_lower _ _ (from_static_valid _ Hb)).
  revert Hb. unfold standard_header_names.
  rewrite !elem_of_cons, elem_of_nil. naive_solver reflexivity.
Qed.

Lemma hm_get_insert m n v n' :
  hm_get (hm_insert m n v) n' = if decide (n = n') then Some v else hm_get m n'.
Proof. unfold hm_get. rewrite hm_get_all_insert. by case_decide. Qed.

Lemma hm_get_remove m n n' :
  hm_get (hm_remove m n) n' = if decide (n = n') then None else hm_get m n'.
Proof. unfold hm_get. rewrite hm_get_all_remove. by case_decide. Qed.

Lemma hm_get_new n : hm_get hm_new n = None.
Proof. unfold hm_get. by rewrite hm_get_all_new. Qed.

End HeaderFacts.
