(* ===== verification/Models.v ===== *)
(** Models: an executable instance of every interface of External.v.

    The instances show that the laws can hold together and let the witnesses
    evaluate the components on concrete inputs.  They are reference
    implementations of the documented formats, not translations of the
    crates. *)

From Stdlib Require Import Ascii String.
From stdpp Require Import base list strings gmap.
From S2P Require Import Prelude Str External.

Module Models.

(** ** Headers: lower-case tokens, visible bytes, an association list *)

Definition token_byte (b : byte) : bool :=
  is_ascii_alphanumeric b || one_of "!#$%&'*+-.^_`|~" b.

Definition header_name (b : bytes) : option bytes :=
  if negb (is_empty b) && forallb token_byte b
  then Some (to_ascii_lowercase b) else None.

Definition header_value_byte (b : byte) : bool :=
  ((32 <=? code b)%N && negb (code b =? 127)%N) || (code b =? 9)%N.

Definition header_value (b : bytes) : option bytes :=
  if forallb header_value_byte b then Some b else None.

Definition header_to_str (v : bytes) : option bytes :=
  if forallb header_text_byte v then Some v else None.

Fixpoint values_of (m : list (bytes * bytes)) (n : bytes) : list bytes :=
  match m with
  | [] => []
  | (k, v) :: m => if decide (k = n) then v :: values_of m n else values_of m n
  end.

Fixpoint without (m : list (bytes * bytes)) (n : bytes) : list (bytes * bytes) :=
  match m with
  | [] => []
  | (k, v) :: m => if decide (k = n) then without m n else (k, v) :: without m n
  end.

#[export] Instance headers : HeaderLib := {
  HeaderName := bytes;
  HeaderValue := bytes;
  HeaderMap := list (bytes * bytes);
  name_from_bytes := header_name;
  from_static b := b;
  name_as_str n := n;
  value_from_bytes := header_value;
  value_as_bytes v := v;
  value_to_str := header_to_str;
  hm_new := [];
  hm_get_all := values_of;
  hm_insert m n v := without m n ++ [(n, v)];
  hm_remove := without;
}.

Lemma values_of_without m n n' :
  values_of (without m n) n' = if decide (n = n') then [] else values_of m n'.
Proof.
  induction m as [|[k v] m IH]; simpl; [by case_decide|].
  destruct (decide (k = n)); simpl; rewrite IH;
    destruct (decide (n = n')), (decide (k = n')); congruence.
Qed.

Lemma values_of_app m m' n : values_of (m ++ m') n = values_of m n ++ values_of m' n.
Proof.
  induction m as [|[k v] m IH]; simpl; [done|]. rewrite IH. by case_decide.
Qed.

#[export] Instance headers_laws : HeaderLaws.
Proof.
  split; simpl.
  - intros b n. unfold header_name. case_match; [by intros [= <-]|done].
  - done.
  - unfold standard_header_names. intros b.
    rewrite !elem_of_cons, elem_of_nil.
    intros H. repeat (destruct H as [->|H]; [vm_compute; reflexivity|]). done.
  - intros b v. unfold header_value. case_match; [by intros [= <-]|done].
  - intros v s. unfold header_to_str. case_match eqn:E; [|done].
    intros [= <-]. by apply forallb_true in E.
  - done.
  - intros m n v n'. rewrite values_of_app, values_of_without. simpl.
    case_decide; [done|by rewrite app_nil_r].
  - apply values_of_without.
Qed.

(** ** URLs: [scheme://[user[:password]@]host[:port][path][?query][#fragment]] *)

Record url := {
  u_scheme : bytes;
  u_user : bytes;
  u_password : option bytes;
  u_host : option bytes;
  u_port : option Z;
  u_path : bytes;
  u_query : option bytes;
  u_fragment : option bytes;
}.

Fixpoint digits_value (acc : Z) (s : bytes) : option Z :=
  match s with
  | [] => Some acc
  | d :: s =>
      if is_ascii_digit d
      then digits_value (acc * 10 + Z.of_N (code d) - 48) s else None
  end.

Definition cut (c : byte) (s : bytes) : bytes * option bytes :=
  match split_once c s with Some (a, b) => (a, Some b) | None => (s, None) end.

(** The authority ends at the first slash. *)
Definition cut_path (s : bytes) : bytes * bytes :=
  match split_once "/" s with Some (a, b) => (a, "/"%char :: b) | None => (s, &"/") end.

Definition parse (s : bytes) : option url :=
  let (s, fragment) := cut "#" s in
  let (s, query) := cut "?" s in
  match split_once ":" s with
  | Some (scheme, rest) =>
      match strip_prefix &"//" rest with
      | None => None
      | Some rest =>
          let (authority, path) := cut_path rest in
          let '(user, password, hostport) :=
            match rsplit_once "@" authority with
            | Some (info, hp) => let (u, p) := cut ":" info in (u, p, hp)
            | None => ([], None, authority)
            end in
          let (host, port) := cut ":" hostport in
          let host := to_ascii_lowercase host in
          match port with
          | None =>
              if is_empty host then None
              else Some (Build_url (to_ascii_lowercase scheme) user password
                           (Some host) None path query fragment)
          | Some port =>
              match digits_value 0 port with
              | None => None
              | Some p =>
                  if is_empty host || is_empty port then None
                  else Some (Build_url (to_ascii_lowercase scheme) user password
                               (Some host) (Some p) path query fragment)
              end
          end
      end
  | None => None
  end.

Definition known_port (u : url) : option Z :=
  match u_port u with
  | Some p => Some p
  | None => if bool_decide (u_scheme u = &"https") then Some 443%Z
            else if bool_decide (u_scheme u = &"http") then Some 80%Z else None
  end.

Definition with_path (u : url) (p : bytes) : url :=
  Build_url (u_scheme u) (u_user u) (u_password u) (u_host u) (u_port u) p
    (u_query u) (u_fragment u).
Definition with_query (u : url) (q : option bytes) : url :=
  Build_url (u_scheme u) (u_user u) (u_password u) (u_host u) (u_port u)
    (u_path u) q (u_fragment u).

Definition is_ip_literal (s : bytes) : bool :=
  starts_with &"[" s
  || (bool_decide (length (split "." s) = 4)
      && forallb (fun p => negb (is_empty p) && forallb is_ascii_digit p) (split "." s)).

Definition parse_host (s : bytes) : option Host :=
  if is_empty s then None
  else if is_ip_literal s then Some IpLiteral
  else if forallb token_byte s then Some (Domain (to_ascii_lowercase s)) else None.

(** ** Encodings *)

Definition base64_digit (url_safe : bool) (n : N) : byte :=
  if (n <? 26)%N then ascii_of_N (65 + n)
  else if (n <? 52)%N then ascii_of_N (97 + (n - 26))
  else if (n <? 62)%N then ascii_of_N (48 + (n - 52))
  else if (n =? 62)%N then (if url_safe then "-" else "+")%char
  else (if url_safe then "_" else "/")%char.

Fixpoint base64 (url_safe pad : bool) (s : bytes) : bytes :=
  let d := base64_digit url_safe in
  let padding (n : nat) := if pad then replicate n "="%char else [] in
  match s with
  | a :: b :: c :: r =>
      let x := (code a * 65536 + code b * 256 + code c)%N in
      d (x / 262144)%N :: d (x / 4096 mod 64)%N :: d (x / 64 mod 64)%N
      :: d (x mod 64)%N :: base64 url_safe pad r
  | [a; b] =>
      let x := (code a * 1024 + code b * 4)%N in
      [d (x / 4096)%N; d (x / 64 mod 64)%N; d (x mod 64)%N] ++ padding 1
  | [a] =>
      let x := (code a * 16)%N in [d (x / 64)%N; d (x mod 64)%N] ++ padding 2
  | [] => []
  end.

Definition base64_value (b : byte) : option N :=
  if is_ascii_uppercase b then Some (code b - 65)%N
  else if is_ascii_lowercase b then Some (code b - 71)%N
  else if is_ascii_digit b then Some (code b + 4)%N
  else if bool_decide (b = "+"%char) then Some 62%N
  else if bool_decide (b = "/"%char) then Some 63%N else None.

Fixpoint base64_decode (s : bytes) : option bytes :=
  match s with
  | [] => Some []
  | [a; b; "="; "="]%char =>
      x ← base64_value a; y ← base64_value b;
      Some [ascii_of_N (x * 4 + y / 16)]
  | [a; b; c; "="]%char =>
      x ← base64_value a; y ← base64_value b; z ← base64_value c;
      Some [ascii_of_N (x * 4 + y / 16); ascii_of_N (y mod 16 * 16 + z / 4)]
  | a :: b :: c :: d :: r =>
      x ← base64_value a; y ← base64_value b; z ← base64_value c;
      w ← base64_value d; t ← base64_decode r;
      Some (ascii_of_N (x * 4 + y / 16) :: ascii_of_N (y mod 16 * 16 + z / 4)
            :: ascii_of_N (z mod 4 * 64 + w) :: t)
  | _ => None
  end.

Definition hex_digit (n : N) : byte :=
  if (n <? 10)%N then ascii_of_N (48 + n) else ascii_of_N (55 + n).

Definition percent_encode (s : bytes) : bytes :=
  s ≫= fun b =>
    if is_ascii_alphanumeric b || one_of "*-._" b then [b]
    else if bool_decide (b = " "%char) then &"+"
    else ["%"%char; hex_digit (code b / 16)%N; hex_digit (code b mod 16)%N].

Definition hex_value (b : byte) : N :=
  if is_ascii_digit b then (code b - 48)%N else (code (to_upper b) - 55)%N.

Fixpoint percent_decode (s : bytes) : bytes :=
  match s with
  | "%"%char :: ((a :: b :: r) as t) =>
      if is_ascii_hexdigit a && is_ascii_hexdigit b
      then ascii_of_N (hex_value a * 16 + hex_value b) :: percent_decode r
      else "%"%char :: percent_decode t
  | "+"%char :: r => " "%char :: percent_decode r
  | b :: r => b :: percent_decode r
  | [] => []
  end.

Definition form_parse (s : bytes) : list (bytes * bytes) :=
  (fun piece => let (a, b) := cut "=" piece in
                (percent_decode a, percent_decode (default [] b)))
  <$> filter (fun piece => piece <> []) (split "&" s).

Definition quote : byte := ascii_of_nat 34.

Definition json_quote (s : bytes) : option bytes :=
  Some (quote :: (s ≫= fun b => if bool_decide (b = quote) || bool_decide (b = "\"%char)
                                then ["\"%char; b] else [b]) ++ [quote]).

#[export] Instance encodings : EncodingLib := {
  base64_standard := base64 false true;
  base64_standard_no_pad := base64 false false;
  base64_url_safe := base64 true true;
  base64_url_safe_no_pad := base64 true false;
  base64_standard_decode := base64_decode;
  byte_serialize := percent_encode;
  form_urlencoded_parse := form_parse;
  json_to_string := json_quote;
  sha256_digest s := take 32 (s ++ replicate 32 zero);
}.

#[export] Instance encodings_laws : EncodingLaws.
Proof.
  split. intros b. change (length (take 32 (b ++ replicate 32 zero)) = 32).
  rewrite length_take, length_app, length_replicate. lia.
Qed.

Lemma base64_digit_url_safe n : url_safe_byte (base64_digit true n) = true.
Proof.
  assert (forallb (fun n => url_safe_byte (base64_digit true (N.of_nat n))) (seq 0 64) = true) as H
    by reflexivity.
  destruct (N.ltb_spec n 64) as [Hn|Hn].
  - rewrite forallb_true, Forall_forall in H. specialize (H (N.to_nat n)).
    rewrite N2Nat.id in H. apply H. apply elem_of_seq. lia.
  - unfold base64_digit. rewrite !(proj2 (N.ltb_ge _ _)) by lia.
    by rewrite (proj2 (N.eqb_neq _ _)) by lia.
Qed.

#[export] Instance encodings_token_laws : TokenLaws.
Proof.
  split. intros b Hb. do 32 (destruct b as [|? b]; [done|]). destruct b; [|done].
  split; [reflexivity|]. repeat constructor; apply base64_digit_url_safe.
Qed.

Definition query_of (ps : list (bytes * bytes)) : bytes :=
  join "&" ((fun p => percent_encode p.1 ++ &"=" ++ percent_encode p.2) <$> ps).

#[export] Instance urls : UrlLib := {
  Url := url;
  url_parse := parse;
  url_scheme := u_scheme;
  url_host_str := u_host;
  url_port := u_port;
  url_port_or_known_default := known_port;
  url_username := u_user;
  url_password := u_password;
  url_path := u_path;
  url_query := u_query;
  url_fragment := u_fragment;
  url_set_path := with_path;
  url_clear_query u := with_query u None;
  url_extend_pairs u ps :=
    with_query u (Some (match u_query u with
                        | Some q => q ++ &"&" ++ query_of ps
                        | None => query_of ps
                        end));
  host_parse := parse_host;
}.

#[export] Instance urls_laws : UrlLaws.
Proof. by split. Qed.

End Models.
