(* ===== verification/Redaction.v ===== *)
(** Redaction: crates/av-credential-proxy/src/redaction.rs.

    [RedactionSet] holds the raw and encoded forms of the credentials of one
    request.  [redact_bytes] replaces them in a buffered response,
    [StreamingRedactor] in a response that arrives in chunks.  The reference
    for both is [scan]: one left-to-right pass that replaces the first pattern
    that matches at each position. *)

From Stdlib Require Import Ascii String Sorted.
From stdpp Require Import base list strings gmap.
From S2P Require Import Prelude Str External Models.

Definition marker : bytes := &"[REDACTED]".

(** ** [Vec] operations *)

(** [sort_by_key(|v| Reverse(v.len()))]: stable, longest first *)
Fixpoint insert_longest (x : bytes) (l : list bytes) : list bytes :=
  match l with
  | [] => [x]
  | y :: l' => if length y <=? length x then x :: l else y :: insert_longest x l'
  end.
Definition sort_longest_first (l : list bytes) : list bytes :=
  foldr insert_longest [] l.

(** [Vec::dedup]: drop consecutive repetitions *)
Fixpoint dedup (l : list bytes) : list bytes :=
  match l with
  | x :: (y :: _) as t => if bool_decide (x = y) then dedup t else x :: dedup t
  | _ => l
  end.

(** ** Definitions of redaction.rs *)

Record RedactionSet := {
  patterns : list bytes;
  maximum_pattern_length : nat;
}.

Record StreamingRedactor := {
  pending : bytes;
  stream_patterns : list bytes;
  stream_maximum : nat;
}.

Fixpoint lowercase_percent_hex (value : bytes) : bytes :=
  match value with
  | a :: (b :: c :: r) as t =>
      if bool_decide (a = "%"%char)
      then a :: to_lower b :: to_lower c :: lowercase_percent_hex r
      else a :: lowercase_percent_hex t
  | _ => value
  end.

Section Encodings.
Context `{!EncodingLib}.

Definition credential_encodings (secret : bytes) : list bytes :=
  let percent_encoded := byte_serialize secret in
  let encodings :=
    [secret;
     base64_standard secret;
     base64_standard_no_pad secret;
     base64_url_safe secret;
     base64_url_safe_no_pad secret;
     percent_encoded;
     lowercase_percent_hex percent_encoded] in
  let encodings :=
    if utf8_valid secret then
      match json_to_string secret with
      | Some json => encodings ++ [take (length json - 2) (drop 1 json)]
      | None => encodings
      end
    else encodings in
  dedup (sort_longest_first encodings).

(** [RedactionSet::new] *)
Definition redaction_new (secrets : list bytes) : RedactionSet :=
  let patterns :=
    dedup (sort_longest_first
      (filter (fun pattern => pattern <> []) (secrets ≫= credential_encodings))) in
  {| patterns := patterns;
     maximum_pattern_length :=
       match patterns with
       | [] => 1
       | _ => foldr Nat.max 0 (length <$> patterns)
       end |}.
End Encodings.

Definition redaction_is_empty (set : RedactionSet) : bool := is_empty (patterns set).

(** The loop of [redact_exact] from [offset]; [fuel] bounds its iterations. *)
Fixpoint redact_exact_loop (fuel : nat) (body secret output : bytes) (offset : nat)
    : option bytes :=
  match position secret (drop offset body) with
  | None => Some (output ++ drop offset body)
  | Some position =>
      match fuel with
      | 0 => None
      | S fuel =>
          let absolute := offset + position in
          redact_exact_loop fuel body secret
            (output ++ take position (drop offset body) ++ marker)
            (absolute + length secret)
      end
  end.

Definition redact_exact (body secret : bytes) : option bytes :=
  if is_empty secret || (length body <? length secret) then Some body
  else redact_exact_loop (length body) body secret [] 0.

(** [RedactionSet::redact_bytes] *)
Fixpoint redact_patterns (ps : list bytes) (output : bytes) : option bytes :=
  match ps with
  | [] => Some output
  | p :: ps => output ← redact_exact output p; redact_patterns ps output
  end.
Definition redact_bytes (set : RedactionSet) (body : bytes) : option bytes :=
  redact_patterns (patterns set) body.

(** [RedactionSet::redact_header] *)
Definition redact_header `{!HeaderLib} (set : RedactionSet) (value : HeaderValue)
    : option HeaderValue :=
  redacted ← redact_bytes set (value_as_bytes value);
  value_from_bytes redacted.

Definition into_streaming (set : RedactionSet) : StreamingRedactor :=
  {| pending := []; stream_patterns := patterns set;
     stream_maximum := maximum_pattern_length set |}.

(** The loop of [StreamingRedactor::emit]: the output and the bytes consumed. *)
Fixpoint emit_loop (fuel : nat) (ps : list bytes) (data : bytes)
    (safe_limit consumed : nat) (output : bytes) : option (bytes * nat) :=
  if consumed <? safe_limit then
    match fuel with
    | 0 => None
    | S fuel =>
        match find (fun pattern => starts_with pattern (drop consumed data)) ps with
        | Some pattern =>
            emit_loop fuel ps data safe_limit (consumed + length pattern)
              (output ++ marker)
        | None =>
            match data !! consumed with
            | Some b =>
                emit_loop fuel ps data safe_limit (consumed + 1) (output ++ [b])
            | None => None
            end
        end
    end
  else Some (output, consumed).

Definition emit (r : StreamingRedactor) (finished : bool)
    : option (bytes * StreamingRedactor) :=
  let safe_limit :=
    if finished then length (pending r)
    else length (pending r) - (stream_maximum r - 1) in
  '(output, consumed) ←
    emit_loop safe_limit (stream_patterns r) (pending r) safe_limit 0 [];
  Some (output,
        {| pending := drop consumed (pending r);
           stream_patterns := stream_patterns r;
           stream_maximum := stream_maximum r |}).

Definition push (r : StreamingRedactor) (chunk : bytes)
    : option (bytes * StreamingRedactor) :=
  emit {| pending := pending r ++ chunk;
          stream_patterns := stream_patterns r;
          stream_maximum := stream_maximum r |} false.

Definition finish (r : StreamingRedactor) : option (bytes * StreamingRedactor) :=
  emit r true.

(** A whole response: one [push] per chunk, then [finish]. *)
Fixpoint stream_all (r : StreamingRedactor) (chunks : list bytes) : option bytes :=
  match chunks with
  | [] => '(output, _) ← finish r; Some output
  | chunk :: chunks =>
      '(output, r) ← push r chunk;
      rest ← stream_all r chunks;
      Some (output ++ rest)
  end.

(** ** Reference: a single pass *)

Fixpoint scan_from (ps : list bytes) (skip : nat) (s : bytes) : bytes :=
  match s with
  | [] => []
  | b :: r =>
      match skip with
      | S k => scan_from ps k r
      | 0 =>
          match find (fun p => starts_with p s) ps with
          | Some p => marker ++ scan_from ps (length p - 1) r
          | None => b :: scan_from ps 0 r
          end
      end
  end.
Definition scan (ps : list bytes) (s : bytes) : bytes := scan_from ps 0 s.

(** A pattern that no text around a replacement marker can recreate: it has no
    bracket and is not part of the word between them. *)
Definition marker_proof (p : bytes) : bool :=
  negb (contains "[" p) && negb (contains "]" p) && negb (contains_str p &"REDACTED").

Definition wf_patterns (maximum : nat) (ps : list bytes) : Prop :=
  0 < maximum /\ Forall (fun p => 0 < length p <= maximum) ps.

(** ** The single pass *)

Lemma scan_from_skip ps k s : scan_from ps k s = scan ps (drop k s).
Proof.
  unfold scan. revert k. induction s as [|b s IH]; intros k; [by destruct k|].
  destruct k as [|k]; [done|]. simpl. apply IH.
Qed.

Lemma find_starts_with ps s p :
  find (fun p => starts_with p s) ps = Some p -> p ∈ ps /\ p `prefix_of` s.
Proof.
  intros [Hin Hp]%find_some. by rewrite list_elem_of_In, <- starts_with_spec.
Qed.

Lemma find_starts_with_None ps s p :
  find (fun p => starts_with p s) ps = None -> p ∈ ps -> ~ p `prefix_of` s.
Proof.
  intros Hf Hin%list_elem_of_In. rewrite <- starts_with_spec.
  by rewrite (find_none _ _ Hf p Hin).
Qed.

Lemma scan_hit m ps s p :
  wf_patterns m ps -> find (fun p => starts_with p s) ps = Some p ->
  scan ps s = marker ++ scan ps (drop (length p) s).
Proof.
  intros [_ Hwf] Hf. destruct (find_starts_with _ _ _ Hf) as [Hin [t ->]].
  rewrite Forall_forall in Hwf. specialize (Hwf p Hin).
  destruct p as [|b p]; [simpl in Hwf; lia|].
  unfold scan at 1. simpl app in *. cbn [scan_from]. rewrite Hf. f_equal.
  rewrite scan_from_skip. simpl. by rewrite Nat.sub_0_r.
Qed.

Lemma scan_miss ps b s :
  find (fun p => starts_with p (b :: s)) ps = None ->
  scan ps (b :: s) = b :: scan ps s.
Proof. intros Hf. unfold scan. cbn [scan_from]. by rewrite Hf. Qed.

(** Induction along the pass: a byte copied, or a pattern replaced. *)
Lemma scan_ind m ps (P : bytes -> bytes -> Prop) :
  wf_patterns m ps ->
  P [] [] ->
  (forall b s, find (fun p => starts_with p (b :: s)) ps = None ->
     P s (scan ps s) -> P (b :: s) (b :: scan ps s)) ->
  (forall p s, p ∈ ps -> P s (scan ps s) -> P (p ++ s) (marker ++ scan ps s)) ->
  forall s, P s (scan ps s).
Proof.
  intros Hwf Hnil Hmiss Hhit s. remember (length s) as n eqn:Hn.
  revert s Hn. induction (lt_wf n) as [n _ IH]. intros s ->.
  destruct s as [|b s]; [done|].
  destruct (find (fun p => starts_with p (b :: s)) ps) as [p|] eqn:Hf.
  - rewrite (scan_hit m ps (b :: s) p Hwf Hf).
    destruct (find_starts_with _ _ _ Hf) as [Hin [t Ht]].
    destruct Hwf as [_ Hall]. rewrite Forall_forall in Hall.
    specialize (Hall p Hin). rewrite Ht, drop_app_length.
    apply Hhit; [done|]. eapply IH; [|done]. rewrite Ht, length_app. lia.
  - rewrite (scan_miss _ _ _ Hf). apply Hmiss; [done|].
    eapply IH; [|done]. simpl. lia.
Qed.

(** ** Nothing recognisable survives a pass *)

Lemma marker_proof_spec p :
  marker_proof p = true <->
  "["%char ∉ p /\ "]"%char ∉ p /\ ~ infix_of p &"REDACTED".
Proof.
  unfold marker_proof. breflect.
  rewrite !contains_false, contains_str_false. tauto.
Qed.

Lemma scan_prefix m ps p s :
  wf_patterns m ps -> marker_proof p = true ->
  p `prefix_of` scan ps s -> p `prefix_of` s.
Proof.
  intros Hwf (Hopen & _ & _)%marker_proof_spec. revert p Hopen.
  apply (scan_ind m ps (fun s out => forall p, "["%char ∉ p ->
           p `prefix_of` out -> p `prefix_of` s)); [done|done| |].
  - intros b t _ IH p Hp Hpre. destruct p as [|c p]; [apply prefix_nil|].
    pose proof (prefix_cons_inv_1 _ _ _ _ Hpre) as ->.
    apply prefix_cons, IH; [set_solver|]. by eapply prefix_cons_inv_2.
  - intros q t _ _ p Hp Hpre. destruct p as [|c p]; [apply prefix_nil|].
    pose proof (prefix_cons_inv_1 _ _ _ _ Hpre) as ->. set_solver.
Qed.

(** An occurrence of a marker-proof [p] in the output was copied from the
    input, at a position where no pattern matched. *)
Lemma scan_occurrence m ps p s :
  wf_patterns m ps -> marker_proof p = true -> p <> [] ->
  infix_of p (scan ps s) ->
  exists t, p `prefix_of` t /\ infix_of t s /\ find (fun q => starts_with q t) ps = None.
Proof.
  intros Hwf Hmp Hne.
  pose proof (proj1 (marker_proof_spec p) Hmp) as (Hopen & Hclose & Hword).
  apply (scan_ind m ps (fun s out => infix_of p out -> exists t, p `prefix_of` t
           /\ infix_of t s /\ find (fun q => starts_with q t) ps = None)); [done| | |].
  - by rewrite infix_of_nil.
  - intros b t Hf IH. rewrite infix_of_cons. intros [Hpre|Hin].
    + exists (b :: t). split; [|split; [apply infix_of_refl|done]].
      apply (scan_prefix m ps); [done|done|]. by rewrite scan_miss.
    + destruct (IH Hin) as (u & ? & ? & ?). exists u.
      split_and!; [done| |done]. apply infix_of_cons. by right.
  - intros q t Hq IH Hin.
    change marker with ([] ++ "["%char :: (&"REDACTED" ++ ["]"%char])) in Hin.
    rewrite <- app_assoc in Hin. cbn [app] in Hin.
    apply (infix_of_sep p [] _ _ Hopen) in Hin as [Hin|Hin];
      [by apply infix_of_nil in Hin|].
    rewrite <- app_assoc in Hin.
    apply (infix_of_sep p &"REDACTED" _ _ Hclose) in Hin as [Hin|Hin]; [done|].
    destruct (IH Hin) as (u & ? & ? & ?). exists u.
    split_and!; [done| |done]. by apply infix_of_app_r.
Qed.

Lemma scan_removes m ps p s :
  wf_patterns m ps -> p ∈ ps -> marker_proof p = true ->
  ~ infix_of p (scan ps s).
Proof.
  intros Hwf Hin Hmp Hocc. destruct Hwf as [? Hall].
  pose proof (proj1 (Forall_forall _ _) Hall p Hin) as Hlen.
  destruct (scan_occurrence m ps p s) as (t & Hpre & _ & Hf); try done.
  - by destruct p; simpl in Hlen; [lia|].
  - by apply (find_starts_with_None _ _ _ Hf Hin).
Qed.

Lemma scan_preserves_absence m ps p s :
  wf_patterns m ps -> p <> [] -> marker_proof p = true ->
  ~ infix_of p s -> ~ infix_of p (scan ps s).
Proof.
  intros Hwf Hne Hmp Habs Hocc.
  destruct (scan_occurrence m ps p s) as (t & [u ->] & Ht & _); try done.
  apply Habs. eapply infix_of_trans; [|exact Ht]. by exists [], u.
Qed.

(** ** [redact_exact] is the pass with one pattern *)

Lemma find_singleton p s :
  find (fun q => starts_with q s) [p] = if starts_with p s then Some p else None.
Proof. simpl. by destruct (starts_with p s). Qed.

Lemma wf_singleton p : p <> [] -> wf_patterns (length p) [p].
Proof.
  intros Hp. assert (0 < length p) by (destruct p; simpl; [done|lia]).
  split; [done|]. by repeat constructor.
Qed.

Lemma scan_no_match p s : ~ infix_of p s -> scan [p] s = s.
Proof.
  induction s as [|b s IH]; intros Hno; [done|].
  rewrite infix_of_cons in Hno. rewrite scan_miss.
  - f_equal. apply IH. naive_solver.
  - rewrite find_singleton. destruct (starts_with p (b :: s)) eqn:E; [|done].
    apply starts_with_spec in E. naive_solver.
Qed.

Lemma scan_first_match p s n :
  p <> [] -> position p s = Some n ->
  scan [p] s = take n s ++ marker ++ scan [p] (drop (n + length p) s).
Proof.
  intros Hp. revert n. induction s as [|b s IH]; intros n; cbn [position].
  - destruct (starts_with p []) eqn:E; [|done].
    apply starts_with_spec, prefix_nil_inv in E. done.
  - destruct (starts_with p (b :: s)) eqn:E.
    + intros [= <-]. simpl take. rewrite Nat.add_0_l. cbn [app].
      apply (scan_hit (length p)); [by apply wf_singleton|].
      by rewrite find_singleton, E.
    + intros (m & Hm & ->)%fmap_Some.
      rewrite scan_miss by (by rewrite find_singleton, E).
      by rewrite (IH m Hm).
Qed.

Lemma redact_exact_loop_scan fuel body secret output offset :
  secret <> [] -> length body <= offset + fuel ->
  redact_exact_loop fuel body secret output offset =
    Some (output ++ scan [secret] (drop offset body)).
Proof.
  intros Hs. revert output offset.
  induction fuel as [|fuel IH]; intros output offset Hf; cbn [redact_exact_loop].
  - rewrite drop_ge by lia.
    destruct (position secret []) eqn:E; [|done].
    apply position_Some in E as [E _]. rewrite drop_nil in E.
    by apply prefix_nil_inv in E.
  - destruct (position secret (drop offset body)) as [n|] eqn:E.
    + assert (0 < length secret) by (destruct secret; simpl; [done|lia]).
      rewrite IH by lia. f_equal.
      rewrite (scan_first_match _ _ _ Hs E), drop_drop.
      by rewrite <- !app_assoc, <- Nat.add_assoc.
    + apply position_None in E. by rewrite scan_no_match.
Qed.

Lemma redact_exact_scan body secret :
  secret <> [] -> redact_exact body secret = Some (scan [secret] body).
Proof.
  intros Hs. unfold redact_exact. destruct secret as [|c secret']; [done|].
  set (secret := c :: secret') in *. cbn [is_empty].
  destruct (length body <? length secret) eqn:E; cbn [orb].
  - breflect in E. rewrite scan_no_match; [done|].
    intros (a & b & ->). rewrite !length_app in E. lia.
  - by rewrite redact_exact_loop_scan by (done || lia).
Qed.

(** [redact_bytes] is one pass per pattern, longest first. *)
Lemma redact_patterns_scan ps body :
  Forall (fun p => p <> []) ps ->
  redact_patterns ps body = Some (foldl (fun out p => scan [p] out) body ps).
Proof.
  intros Hps. revert body. induction Hps as [|p ps Hp Hps IH]; intros body; [done|].
  cbn [redact_patterns foldl]. rewrite redact_exact_scan by done. apply IH.
Qed.

Lemma foldl_scan_absent ps p body :
  Forall (fun q => q <> []) ps -> p <> [] -> marker_proof p = true ->
  p ∈ ps \/ ~ infix_of p body ->
  ~ infix_of p (foldl (fun out q => scan [q] out) body ps).
Proof.
  intros Hps Hp Hmp. revert body. induction Hps as [|q ps Hq Hps IH];
    intros body Hor; cbn [foldl].
  - destruct Hor as [Hin|?]; [set_solver|done].
  - pose proof (wf_singleton q Hq) as Hwf. apply IH.
    rewrite elem_of_cons in Hor. destruct Hor as [[->|?]|?]; [right|by left|right].
    + by apply (scan_removes (length q)); [|set_solver|].
    + by apply (scan_preserves_absence (length q)).
Qed.

(** ** The streaming redactor *)

Lemma starts_with_app_long p s t :
  length p <= length s -> starts_with p (s ++ t) = starts_with p s.
Proof.
  revert s. induction p as [|a p IH]; intros [|b s] Hlen; simpl in *; try done; [lia|].
  by rewrite IH by lia.
Qed.

Lemma find_app_long m ps s t :
  Forall (fun p => 0 < length p <= m) ps -> m <= length s ->
  find (fun p => starts_with p (s ++ t)) ps = find (fun p => starts_with p s) ps.
Proof.
  intros Hps Hm. induction Hps as [|p ps Hp _ IH]; simpl; [done|].
  rewrite starts_with_app_long by lia. by rewrite IH.
Qed.

(** The loop consumes past the safe limit, and its output followed by a pass
    over what is left (plus any later bytes) is a pass over the whole input:
    below the limit every decision sees a full pattern's worth of bytes. *)
Lemma emit_loop_scan m ps data later safe_limit :
  wf_patterns m ps -> safe_limit <= length data ->
  (later = [] \/ safe_limit + (m - 1) <= length data) ->
  forall fuel consumed output,
  safe_limit <= consumed + fuel -> consumed <= length data ->
  exists o c,
    emit_loop fuel ps data safe_limit consumed output = Some (output ++ o, c) /\
    consumed <= c /\ safe_limit <= c <= length data /\
    scan ps (drop consumed data ++ later) = o ++ scan ps (drop c data ++ later).
Proof.
  intros Hwf Hsafe Hlater. pose proof Hwf as [Hm Hps].
  induction fuel as [|fuel IH]; intros consumed output Hf Hc; cbn [emit_loop];
    destruct (consumed <? safe_limit) eqn:E; breflect in E; try lia.
  1, 3: exists [], consumed; rewrite app_nil_r; split_and!; (done || lia).
  assert (find (fun p => starts_with p (drop consumed data ++ later)) ps =
          find (fun p => starts_with p (drop consumed data)) ps) as Hfind.
  { destruct Hlater as [->|Hl]; [by rewrite app_nil_r|].
    apply (find_app_long m); [done|]. rewrite length_drop. lia. }
  destruct (find (fun p => starts_with p (drop consumed data)) ps) as [p|] eqn:Hp.
  - destruct (find_starts_with _ _ _ Hp) as [Hin [t Ht]].
    pose proof (proj1 (Forall_forall _ _) Hps p Hin) as Hlen. cbv beta in Hlen.
    apply (f_equal length) in Ht as Hl. rewrite length_drop, length_app in Hl.
    destruct (IH (consumed + length p) (output ++ marker)) as (o & c & He & ? & ? & Hs);
      [lia|lia|].
    exists (marker ++ o), c. rewrite He, <- !app_assoc. split_and!; try done; try lia.
    rewrite (scan_hit m _ _ _ Hwf Hfind), <- Hs, <- drop_drop.
    by rewrite (drop_app_le _ later) by (rewrite length_drop; lia).
  - destruct (lookup_lt_is_Some_2 data consumed ltac:(lia)) as [b Hb]. rewrite Hb.
    destruct (IH (consumed + 1) (output ++ [b])) as (o & c & He & ? & ? & Hs);
      [lia|lia|].
    exists (b :: o), c. rewrite He, <- !app_assoc. split_and!; try done; try lia.
    rewrite (drop_S _ _ _ Hb) in Hfind |- *. cbn [app] in *.
    rewrite (scan_miss _ _ _ Hfind). replace (consumed + 1) with (S consumed) in Hs by lia.
    by rewrite Hs.
Qed.

Definition wf_redactor (r : StreamingRedactor) : Prop :=
  wf_patterns (stream_maximum r) (stream_patterns r).

(** One [emit]: it returns, keeps the patterns, holds back less than a pattern,
    and what it emits agrees with the single pass. *)
Lemma emit_scan r finished later :
  wf_redactor r -> (finished = true -> later = []) ->
  exists o r',
    emit r finished = Some (o, r') /\
    stream_patterns r' = stream_patterns r /\ stream_maximum r' = stream_maximum r /\
    length (pending r') <= (if finished then 0 else stream_maximum r - 1) /\
    scan (stream_patterns r) (pending r ++ later) =
      o ++ scan (stream_patterns r) (pending r' ++ later).
Proof.
  intros Hwf Hfin. pose proof Hwf as [Hm _]. unfold emit.
  set (limit := if finished then length (pending r)
                else length (pending r) - (stream_maximum r - 1)).
  destruct (decide (length (pending r) < stream_maximum r - 1 /\ finished = false))
    as [[Hshort ->]|Hlong].
  - assert (limit = 0) as -> by (unfold limit; lia). simpl.
    eexists [], _. split_and!; rewrite ?drop_0; try done. simpl. lia.
  - destruct (emit_loop_scan (stream_maximum r) (stream_patterns r) (pending r) later
                limit Hwf) with (fuel := limit) (consumed := 0) (output := @nil ascii)
      as (o & c & He & _ & Hc & Hs); try lia.
    { unfold limit. destruct finished; lia. }
    { unfold limit. destruct finished; [by left; apply Hfin|right].
      assert (~ length (pending r) < stream_maximum r - 1) by naive_solver. lia. }
    rewrite He. simpl. eexists o, _. split_and!; try done; simpl.
    rewrite length_drop. unfold limit in Hc. destruct finished; [lia|].
    assert (~ length (pending r) < stream_maximum r - 1) by naive_solver. lia.
Qed.

Lemma stream_all_scan r chunks :
  wf_redactor r ->
  stream_all r chunks = Some (scan (stream_patterns r) (pending r ++ concat chunks)).
Proof.
  revert r. induction chunks as [|chunk chunks IH]; intros r Hwf; cbn [stream_all].
  - destruct (emit_scan r true [] Hwf) as (o & r' & He & _ & _ & Hlen & Hs); [done|].
    unfold finish. rewrite He. simpl. rewrite Hs.
    destruct (pending r'); simpl in Hlen; [|lia]. by rewrite app_nil_r.
  - set (r0 := {| pending := pending r ++ chunk; stream_patterns := stream_patterns r;
                  stream_maximum := stream_maximum r |}).
    destruct (emit_scan r0 false (concat chunks)) as (o & r' & He & Hp & Hm & _ & Hs);
      [done|done|].
    unfold push. fold r0. rewrite He. simpl. rewrite IH.
    + simpl. rewrite Hp. cbn [concat]. rewrite app_assoc. by rewrite <- Hs.
    + unfold wf_redactor. by rewrite Hp, Hm.
Qed.

(** ** [RedactionSet::new] *)

Lemma insert_longest_perm x l : insert_longest x l ≡ₚ x :: l.
Proof.
  induction l as [|y l IH]; simpl; [done|]. case_match; [done|].
  rewrite IH. apply Permutation_swap.
Qed.

Lemma sort_longest_first_perm l : sort_longest_first l ≡ₚ l.
Proof.
  induction l as [|x l IH]; simpl; [done|]. by rewrite insert_longest_perm, IH.
Qed.

Lemma elem_of_dedup x l : x ∈ dedup l <-> x ∈ l.
Proof.
  induction l as [|y [|z l] IH]; [done|done|].
  cbn [dedup]. case_bool_decide; [subst|].
  - change (x ∈ dedup (z :: l) <-> x ∈ z :: z :: l). rewrite IH. set_solver.
  - rewrite !elem_of_cons. change (x = y \/ x ∈ dedup (z :: l) <-> x = y \/ x = z \/ x ∈ l).
    rewrite IH. set_solver.
Qed.

Section New.
Context `{!EncodingLib}.

Lemma elem_of_patterns secrets p :
  p ∈ patterns (redaction_new secrets) <->
  p <> [] /\ exists secret, secret ∈ secrets /\ p ∈ credential_encodings secret.
Proof.
  unfold redaction_new. simpl.
  rewrite elem_of_dedup, sort_longest_first_perm, list_elem_of_filter.
  rewrite list_elem_of_bind. naive_solver.
Qed.

Lemma elem_of_encodings secret :
  forall p,
  p ∈ [secret; base64_standard secret; base64_standard_no_pad secret;
       base64_url_safe secret; base64_url_safe_no_pad secret;
       byte_serialize secret; lowercase_percent_hex (byte_serialize secret)] ->
  p ∈ credential_encodings secret.
Proof.
  intros p Hp. unfold credential_encodings.
  rewrite elem_of_dedup, sort_longest_first_perm.
  repeat case_match; rewrite ?elem_of_app; auto.
Qed.

Lemma max_length_bound (ps : list bytes) :
  Forall (fun p => length p <= foldr Nat.max 0 (length <$> ps)) ps.
Proof.
  induction ps as [|p ps IH]; simpl; constructor; [lia|].
  eapply Forall_impl; [exact IH|]. intros q Hq.
  etransitivity; [exact Hq|apply Nat.le_max_r].
Qed.

Lemma redaction_new_wf secrets :
  wf_patterns (maximum_pattern_length (redaction_new secrets))
              (patterns (redaction_new secrets)).
Proof.
  assert (Forall (fun p => p <> []) (patterns (redaction_new secrets))) as Hne.
  { apply Forall_forall. intros p. rewrite elem_of_patterns. naive_solver. }
  revert Hne. unfold redaction_new. simpl.
  generalize (dedup (sort_longest_first
    (filter (fun pattern => pattern <> []) (secrets ≫= credential_encodings)))) as ps.
  intros ps Hne. assert (Forall (fun p => 0 < length p) ps) as Hpos.
  { eapply Forall_impl; [exact Hne|]. intros [|b p]; simpl; [done|lia]. }
  destruct ps as [|p ps]; [split; [lia|constructor]|].
  split.
  { apply Forall_cons in Hpos as [Hp _].
    change (0 < length p `max` foldr Nat.max 0 (length <$> ps)). lia. }
  apply Forall_and. split; [done|]. apply (max_length_bound (p :: ps)).
Qed.
End New.

(** ** Order of the patterns, and inputs without credentials *)

Definition longest_first : list bytes -> Prop :=
  StronglySorted (fun p q => length q <= length p).

Lemma insert_longest_sorted x l : longest_first l -> longest_first (insert_longest x l).
Proof.
  intros Hs. induction Hs as [|y l Hs IH Hall]; simpl.
  - repeat constructor.
  - destruct (length y <=? length x) eqn:E; breflect in E.
    + constructor; [by constructor|]. constructor; [done|].
      eapply List.Forall_impl; [|exact Hall]. simpl. lia.
    + constructor; [done|]. rewrite insert_longest_perm.
      constructor; [lia|done].
Qed.

Lemma sort_longest_first_sorted l : longest_first (sort_longest_first l).
Proof.
  induction l as [|x l IH]; simpl; [constructor|]. by apply insert_longest_sorted.
Qed.

Lemma dedup_sorted l : longest_first l -> longest_first (dedup l).
Proof.
  intros Hs. induction Hs as [|x l Hs IH Hall]; [constructor|].
  destruct l as [|y l]; [repeat constructor|].
  change (longest_first (if bool_decide (x = y) then dedup (y :: l)
                         else x :: dedup (y :: l))).
  case_bool_decide; [done|]. constructor; [done|].
  rewrite Forall_forall in Hall |- *. intros z Hz. by apply Hall, elem_of_dedup, Hz.
Qed.

Lemma scan_absent ps s :
  Forall (fun p => ~ infix_of p s) ps -> scan ps s = s.
Proof.
  induction s as [|b s IH]; intros Hps; [done|].
  assert (find (fun p => starts_with p (b :: s)) ps = None) as Hf.
  { destruct (find _ ps) as [p|] eqn:E; [|done].
    apply find_starts_with in E as [Hin [t Ht]].
    rewrite Forall_forall in Hps. destruct (Hps p Hin). by exists [], t. }
  rewrite (scan_miss _ _ _ Hf), IH; [done|].
  eapply Forall_impl; [exact Hps|]. intros p Hp Hin. apply Hp, infix_of_cons. by right.
Qed.

Lemma patterns_nonempty `{!EncodingLib} secrets :
  Forall (fun q => q <> []) (patterns (redaction_new secrets)).
Proof. apply Forall_forall. intros q. rewrite elem_of_patterns. naive_solver. Qed.

Lemma stream_all_absent `{!EncodingLib} secrets chunks p :
  p ∈ patterns (redaction_new secrets) -> marker_proof p = true ->
  exists output,
    stream_all (into_streaming (redaction_new secrets)) chunks = Some output
    /\ ~ infix_of p output.
Proof.
  intros Hp Hmp. rewrite stream_all_scan by apply redaction_new_wf. eexists.
  split; [done|]. by apply (scan_removes _ _ _ _ (redaction_new_wf secrets)).
Qed.

Lemma redact_bytes_absent `{!EncodingLib} secrets body p :
  p ∈ patterns (redaction_new secrets) -> marker_proof p = true ->
  exists output,
    redact_bytes (redaction_new secrets) body = Some output /\ ~ infix_of p output.
Proof.
  intros Hp Hmp. unfold redact_bytes.
  rewrite redact_patterns_scan by apply patterns_nonempty. eexists.
  split; [done|]. apply foldl_scan_absent; [apply patterns_nonempty| |done|by left].
  by apply elem_of_patterns in Hp as [? _].
Qed.

Section Properties.
Context `{!EncodingLib}.

(** C7: a response redacted chunk by chunk comes out exactly as one
    left-to-right pass over the whole response would make it, wherever the
    chunk boundaries fall; in particular the redactor always terminates. *)
Theorem streaming_matches_single_pass secrets chunks :
  stream_all (into_streaming (redaction_new secrets)) chunks =
    Some (scan (patterns (redaction_new secrets)) (concat chunks)).
Proof. by rewrite stream_all_scan by apply redaction_new_wf. Qed.

(** No credential pattern survives in a response, buffered or streamed,
    however the upstream splits it into chunks; the pattern must not be one the
    replacement marker itself could recreate. *)
Theorem redaction_no_leak secrets chunks p :
  p ∈ patterns (redaction_new secrets) -> marker_proof p = true ->
  (exists output,
     stream_all (into_streaming (redaction_new secrets)) chunks = Some output
     /\ ~ infix_of p output)
  /\ (exists output,
     redact_bytes (redaction_new secrets) (concat chunks) = Some output
     /\ ~ infix_of p output).
Proof. auto using stream_all_absent, redact_bytes_absent. Qed.

(** The set built for a list of credentials recognises each of them raw,
    in the four base64 variants and percent-encoded with upper- or lower-case
    digits, keeps its patterns longest first, holds no empty pattern and
    records their exact maximum length. *)
Theorem redaction_new_complete secrets :
  let set := redaction_new secrets in
  (forall secret p, secret ∈ secrets -> p <> [] ->
     p ∈ [secret; base64_standard secret; base64_standard_no_pad secret;
          base64_url_safe secret; base64_url_safe_no_pad secret;
          byte_serialize secret; lowercase_percent_hex (byte_serialize secret)] ->
     p ∈ patterns set)
  /\ longest_first (patterns set)
  /\ wf_patterns (maximum_pattern_length set) (patterns set)
  /\ (patterns set <> [] ->
      exists p, p ∈ patterns set /\ length p = maximum_pattern_length set).
Proof.
  intros set. split_and!.
  - intros secret p Hs Hne Hp. apply elem_of_patterns. split; [done|].
    exists secret. split; [done|]. by apply elem_of_encodings.
  - apply dedup_sorted, sort_longest_first_sorted.
  - apply redaction_new_wf.
  - unfold set, redaction_new. simpl. generalize (dedup (sort_longest_first
      (filter (fun pattern => pattern <> []) (secrets ≫= credential_encodings)))).
    intros [|p ps] Hne; [done|]. clear Hne.
    change (exists q, q ∈ p :: ps /\
      length q = length p `max` foldr Nat.max 0 (length <$> ps)).
    induction ps as [|q ps IH] in p |- *; [exists p; split; [left|simpl; lia]|].
    destruct (IH q) as (r & Hr & Hlen).
    change (foldr Nat.max 0 (length <$> q :: ps)) with
      (length q `max` foldr Nat.max 0 (length <$> ps)).
    rewrite <- Hlen. destruct (decide (length p <= length r)).
    + exists r. split; [by right|lia].
    + exists p. split; [left|lia].
Qed.

(** A response that contains no form of a credential passes through both
    redactors unchanged. *)
Theorem redaction_transparent secrets body :
  Forall (fun p => ~ infix_of p body) (patterns (redaction_new secrets)) ->
  redact_bytes (redaction_new secrets) body = Some body
  /\ stream_all (into_streaming (redaction_new secrets)) [body] = Some body.
Proof.
  intros Habs. split.
  - unfold redact_bytes. rewrite redact_patterns_scan.
    + f_equal. clear -Habs. induction Habs as [|p ps Hp _ IH]; [done|].
      simpl. by rewrite scan_absent by (by repeat constructor).
    + apply patterns_nonempty.
  - rewrite stream_all_scan by apply redaction_new_wf. simpl.
    rewrite app_nil_r. by rewrite scan_absent.
Qed.
End Properties.

(** The offset loop of [redact_exact] computes the single-pass replacement
    of one pattern, for every body and pattern, the empty pattern included. *)
Theorem redact_exact_single_pass body secret :
  redact_exact body secret =
    Some (if is_empty secret then body else scan [secret] body).
Proof.
  destruct secret as [|c secret]; [done|]. by apply redact_exact_scan.
Qed.

(** Between chunks the streaming redactor retains fewer bytes than its
    longest pattern, keeps its patterns, and is ready for the next chunk. *)
Theorem push_retains_bounded_overlap r chunk :
  wf_redactor r ->
  exists output r',
    push r chunk = Some (output, r') /\ wf_redactor r'
    /\ length (pending r') < stream_maximum r'.
Proof.
  intros Hwf. destruct (emit_scan {| pending := pending r ++ chunk;
    stream_patterns := stream_patterns r; stream_maximum := stream_maximum r |} false [])
    as (o & r' & He & Hp & Hm & Hlen & _); [done|done|].
  exists o, r'. unfold wf_redactor. rewrite Hp, Hm. split_and!; [done|done|].
  destruct Hwf as [? _]. simpl in *. lia.
Qed.

(** ** Witnesses, on the reference instances *)

Import Models.

Definition sample_secret : bytes := &"stream+secret".

(** A credential that is not [marker_proof] can be completed by the marker: the bracket
    that ends the marker and the text behind it spell the credential again. *)
Example marker_completes_secret :
  marker_proof &"]hunter2" = false
  /\ redact_bytes (redaction_new [&"]hunter2"]) &"]hunter2hunter2" = Some &"[REDACTED]hunter2"
  /\ infix_of &"]hunter2" &"[REDACTED]hunter2".
Proof.
  split_and!; [vm_compute; reflexivity..|]. by exists &"[REDACTED", [].
Qed.

Lemma redaction_no_leak_witness :
  (exists output,
     stream_all (into_streaming (redaction_new [sample_secret]))
       [&"before c3RyZWFtK3"; &"NlY3"; &"JldA== after"] = Some output
     /\ ~ infix_of &"c3RyZWFtK3NlY3JldA==" output)
  /\ (exists output,
     redact_bytes (redaction_new [sample_secret])
       (concat [&"before c3RyZWFtK3"; &"NlY3"; &"JldA== after"]) = Some output
     /\ ~ infix_of &"c3RyZWFtK3NlY3JldA==" output).
Proof.
  apply (redaction_no_leak [sample_secret]).
  - apply elem_of_patterns. split; [done|]. exists sample_secret.
    split; [set_solver|]. apply elem_of_encodings.
    change (&"c3RyZWFtK3NlY3JldA==") with (base64_standard sample_secret). set_solver.
  - reflexivity.
Defined.

Lemma redaction_transparent_witness :
  redact_bytes (redaction_new [sample_secret]) &"hello" = Some &"hello"
  /\ stream_all (into_streaming (redaction_new [sample_secret])) [&"hello"] =
       Some &"hello".
Proof.
  apply (redaction_transparent [sample_secret]). apply Forall_forall. intros p Hp.
  apply contains_str_false. revert p Hp. apply Forall_forall, existsb_false.
  reflexivity.
Defined.

Lemma push_retains_bounded_overlap_witness :
  exists output r',
    push (into_streaming (redaction_new [sample_secret])) &"before stre" =
      Some (output, r')
    /\ wf_redactor r' /\ length (pending r') < stream_maximum r'.
Proof. apply push_retains_bounded_overlap. apply redaction_new_wf. Defined.

Example redaction_matches_the_unit_tests :
  redact_bytes (redaction_new [&"secret+token"]) &"before secret+token after" =
    Some &"before [REDACTED] after"
  /\ redact_bytes (redaction_new [&"secret+token"]) &"secret%2Btoken" = Some marker.
Proof. vm_compute. done. Qed.
