(* ===== verification/Host.v ===== *)
(** Host: DNS names and CONNECT authorities of
    crates/av-credential-proxy/src/catalog.rs.

    [canonical_dns_host] is the one function that turns a configured or
    requested host into the key of the destination catalog, so its result is
    characterised exactly: lower-case LDH labels within the DNS limits. *)

From Stdlib Require Import Ascii String.
From stdpp Require Import base list strings gmap.
From S2P Require Import Prelude Str External Models.

(** ** Definitions *)

(** The condition a label must meet. *)
Definition valid_label (label : bytes) : bool :=
  negb (is_empty label)
  && negb (63 <? len label)%Z
  && forallb (fun byte => is_ascii_alphanumeric byte || bool_decide (byte = "-"%char)) label
  && match head label with Some b => is_ascii_alphanumeric b | None => false end
  && match last label with Some b => is_ascii_alphanumeric b | None => false end.

Definition canonical_dns_host `{!UrlLib} (host : bytes) : result bytes :=
  _ ← bail_if (ends_with &".." host)
        "transparent proxy destination has an invalid DNS name";
  let host := default host (strip_suffix &"." host) in
  parsed ← ok_or (host_parse host) "parse transparent proxy DNS name";
  match parsed with
  | IpLiteral => Err "transparent proxy destinations must be DNS names, not IP literals"
  | Domain host =>
      _ ← bail_if (is_empty host || (253 <? len host)%Z
                   || existsb (fun label => negb (valid_label label)) (split "." host))
            "transparent proxy destination has an invalid DNS name";
      Ok (to_ascii_lowercase host)
  end.

Definition canonical_tunnel_host `{!UrlLib} (host : bytes) : result bytes :=
  _ ← bail_if (contains_any ":/?#@" host || any_whitespace host)
        "tunnel host must be an exact DNS name without a port";
  canonical_dns_host host.

Definition canonical_connect_authority `{!UrlLib} (authority : bytes) : result bytes :=
  _ ← bail_if (is_empty authority || contains "/" authority || contains "?" authority
               || contains "#" authority || contains "@" authority
               || any_whitespace authority)
        "invalid CONNECT authority";
  '(host, port) ← ok_or (rsplit_once ":" authority) "CONNECT authority must include a port";
  _ ← bail_if (negb (bool_decide (port = &"443")) || contains ":" host)
        "CONNECT authority must explicitly use port 443";
  canonical_dns_host host.

(** ** Lemmas *)

Definition dns_byte (b : byte) : bool :=
  is_ascii_lowercase b || is_ascii_digit b || bool_decide (b = "-"%char).

(** A canonical DNS name: lower-case labels of at most 63 bytes that neither
    start nor end with a hyphen, at most 253 bytes in all. *)
Definition dns_name (host : bytes) : Prop :=
  host <> [] /\ (len host <= 253)%Z /\
  Forall (fun label =>
      label <> [] /\ (len label <= 63)%Z /\ Forall (fun b => dns_byte b = true) label
      /\ head label <> Some "-"%char /\ last label <> Some "-"%char)
    (split "." host).

Lemma to_lower_dns b :
  is_ascii_alphanumeric b || bool_decide (b = "-"%char) = true ->
  dns_byte (to_lower b) = true.
Proof.
  by apply (byte_impl (fun b => is_ascii_alphanumeric b || bool_decide (b = "-"%char))
              (fun b => dns_byte (to_lower b)) b).
Qed.

Lemma to_lower_hyphen b : to_lower b = "-"%char -> is_ascii_alphanumeric b = false.
Proof.
  intros H%(bool_decide_eq_true_2 _). apply negb_true_iff. revert H.
  by apply (byte_impl (fun b => bool_decide (to_lower b = "-"%char))
              (fun b => negb (is_ascii_alphanumeric b)) b).
Qed.

Lemma to_lower_dot b : to_lower b = "."%char <-> b = "."%char.
Proof. split; [by apply to_lower_only|by intros ->]. Qed.

Lemma valid_label_lower label :
  valid_label label = true ->
  let l := to_ascii_lowercase label in
  l <> [] /\ (len l <= 63)%Z /\ Forall (fun b => dns_byte b = true) l
  /\ head l <> Some "-"%char /\ last l <> Some "-"%char.
Proof.
  unfold valid_label, to_ascii_lowercase. breflect.
  intros ((((Hne & Hlen) & Hall) & Hhead) & Hlast). rewrite forallb_true in Hall.
  split_and!.
  - by destruct label.
  - unfold len in *. rewrite length_fmap. lia.
  - apply Forall_fmap. eapply Forall_impl; [exact Hall|]. apply to_lower_dns.
  - destruct label as [|b label]; [done|]. simpl in *. intros [= E%to_lower_hyphen].
    congruence.
  - rewrite fmap_last. destruct (last label) as [b|]; [|done]. simpl.
    intros [= E%to_lower_hyphen]. congruence.
Qed.

Lemma canonical_dns_host_name `{!UrlLib} host h :
  canonical_dns_host host = Ok h -> dns_name h.
Proof.
  unfold canonical_dns_host. intros Hok. inv_ok. case_match; [|done]. inv_ok. subst.
  breflect in *. destruct_and!. rewrite existsb_false in *. unfold dns_name. split_and!.
  - by destruct domain.
  - unfold len, to_ascii_lowercase in *. rewrite length_fmap. lia.
  - unfold to_ascii_lowercase. rewrite (split_fmap _ _ _ to_lower_dot).
    apply Forall_fmap. eapply Forall_impl; [eassumption|]. cbv beta.
    intros label Hl. apply negb_false_iff in Hl. by apply valid_label_lower.
Qed.

Lemma canonical_tunnel_host_name `{!UrlLib} host h :
  canonical_tunnel_host host = Ok h -> dns_name h.
Proof.
  unfold canonical_tunnel_host. intros Hok. inv_ok. by eapply canonical_dns_host_name.
Qed.

(** A canonical name holds only lower-case letters, digits, hyphens and dots. *)
Lemma dns_name_bytes h b : dns_name h -> b ∈ h -> dns_byte b || bool_decide (b = "."%char) = true.
Proof.
  intros (_ & _ & Hall) Hb. apply orb_true_iff. breflect.
  destruct (decide (b = "."%char)) as [->|Hne]; [by right|left].
  destruct (split_elem "." h b Hb Hne) as (label & Hl & Hin).
  rewrite Forall_forall in Hall. destruct (Hall _ Hl) as (_ & _ & Hd & _).
  rewrite Forall_forall in Hd. by apply Hd.
Qed.
