(* ===== verification/Policy.v ===== *)
(** Policy: the route and tunnel configuration of
    crates/av-credential-proxy/src/policy.rs and its validation.

    The configuration structs are records, [ProxyInjectionConfig] is the
    source's enum, and every validator returns [result] with the text of the
    source's message (its interpolations left as written). *)

From Stdlib Require Import Ascii String.
From stdpp Require Import base list strings gmap.
From S2P Require Import Prelude Str BTree External Models Host.

(** ** Configuration *)

Inductive ProxyInjectionConfig :=
| Bearer (secret_key : bytes)
| Header (secret_key header prefix : bytes)
| Basic (username password_secret_key : bytes).

Inductive ProxyResponseMode := Buffered | Streaming.

Record ProxyWebSocketConfig := {
  allowed_origins : list bytes;
  allow_missing_origin : bool;
  allowed_subprotocols : list bytes;
  max_duration_seconds : Z;
  max_message_bytes : Z;
  max_total_bytes : Z;
}.

Record ProxyRouteConfig := {
  route_profile : bytes;
  base_url : bytes;
  legacy_secret_key : bytes;
  legacy_header : bytes;
  legacy_header_prefix : bytes;
  injection : option ProxyInjectionConfig;
  body_substitutions : BTreeMap bytes;
  allowed_methods : list bytes;
  allowed_exact_paths : list bytes;
  allowed_path_prefixes : list bytes;
  allowed_request_headers : list bytes;
  allowed_response_headers : list bytes;
  allowed_query_parameters : list bytes;
  allowed_content_types : list bytes;
  max_body_bytes : Z;
  response_mode : ProxyResponseMode;
  max_response_bytes : Z;
  websocket : option ProxyWebSocketConfig;
}.

Record ProxyTunnelConfig := {
  tunnel_profile : bytes;
  tunnel_host : bytes;
  tunnel_allow_private_ips : bool;
}.

Definition default_allowed_request_headers : list bytes :=
  [&"accept"; &"content-type"; &"if-match"; &"if-none-match"].
Definition default_allowed_response_headers : list bytes :=
  [&"content-type"; &"etag"; &"last-modified"; &"retry-after"].
Definition default_proxy_max_body_bytes : Z := 1024 * 1024.
Definition default_proxy_max_response_bytes : Z := 4 * 1024 * 1024.
Definition default_websocket_max_duration_seconds : Z := 5 * 60.
Definition default_websocket_max_message_bytes : Z := 1024 * 1024.
Definition default_websocket_max_total_bytes : Z := 64 * 1024 * 1024.

(** [(lo..=hi).contains(&x)] *)
Definition range_contains (lo hi x : Z) : bool := (lo <=? x)%Z && (x <=? hi)%Z.

(** ** Names, keys, paths and tokens *)

Definition validate_policy_name (name : bytes) : result unit :=
  bail_if (is_empty name
           || negb (forallb (fun byte => is_ascii_lowercase byte || is_ascii_digit byte
                                         || bool_decide (byte = "-"%char)) name))
    "{kind} name {name:?} must use lowercase letters, digits, and hyphens".

Definition validate_binding (value : bytes) : result unit :=
  bail_if (is_empty value || (256 <? len value)%Z || any_control value)
    "binding must contain 1-256 non-control characters".

Definition validate_credential_key (value : bytes) : result unit :=
  match value with
  | [] => Err "credential key is empty"
  | first :: bytes =>
      bail_if (negb (bool_decide (first = "_"%char) || is_ascii_alphabetic first)
               || negb (forallb (fun byte => bool_decide (byte = "_"%char)
                                             || is_ascii_alphanumeric byte) bytes))
        "credential key must match [A-Za-z_][A-Za-z0-9_]*"
  end.

Definition path_matches_prefix (path configured_prefix : bytes) : bool :=
  let normalized_prefix := &"/" ++ trim_matches "/" configured_prefix in
  if bool_decide (normalized_prefix = &"/") then true
  else bool_decide (path = normalized_prefix)
       || match strip_prefix normalized_prefix path with
          | Some remainder => starts_with &"/" remainder
          | None => false
          end.

Definition safe_policy_path (path : bytes) : bool :=
  starts_with &"/" path
  && negb (contains_any "?#\%" path)
  && negb (contains_str &"//" path)
  && negb (any_control path)
  && negb (existsb (fun segment => bool_decide (segment = &".")
                                   || bool_decide (segment = &"..")) (split "/" path)).

Definition reject_mixed_legacy_injection (route : ProxyRouteConfig) : result unit :=
  bail_if (negb (is_empty (legacy_secret_key route)) || negb (is_empty (legacy_header route))
           || negb (is_empty (legacy_header_prefix route)))
    "proxy route {name} may not mix typed and legacy injection fields".

Definition valid_http_token (value : bytes) : bool :=
  negb (is_empty value)
  && forallb (fun byte => is_ascii_alphanumeric byte || one_of "!#$%&'*+-.^_`|~" byte) value.

(** The loop over the byte index, on the bytes from the index on. *)
Fixpoint validate_percent_encoding (bytes : bytes) : result unit :=
  match bytes with
  | [] => Ok ()
  | byte :: rest =>
      if bool_decide (byte = "%"%char) then
        match rest with
        | high :: low :: rest =>
            if negb (is_ascii_hexdigit high) || negb (is_ascii_hexdigit low)
            then Err "query contains invalid percent encoding"
            else validate_percent_encoding rest
        | _ => Err "query contains invalid percent encoding"
        end
      else validate_percent_encoding rest
  end.

Definition valid_body_placeholder (value : bytes) : bool :=
  match strip_prefix &"__AV_SECRET_" value ≫= strip_suffix &"__" with
  | None => false
  | Some name =>
      negb (is_empty name)
      && (len value <=? 128)%Z
      && forallb (fun byte => is_ascii_uppercase byte || is_ascii_digit byte
                              || bool_decide (byte = "_"%char)) name
  end.

(** ** Allowlists *)

(** [validate_string_allowlist]: [unique] holds the values already seen. *)
Fixpoint validate_strings (valid : bytes -> bool) (unique values : list bytes)
    : result unit :=
  match values with
  | [] => Ok ()
  | value :: values =>
      _ ← bail_if (negb (valid value)) "proxy route {route_name} contains invalid {kind} {value:?}";
      _ ← bail_if (bool_decide (value ∈ unique)) "proxy route {route_name} repeats {kind} {value:?}";
      validate_strings valid (value :: unique) values
  end.
Definition validate_string_allowlist (values : list bytes) (valid : bytes -> bool)
    : result unit := validate_strings valid [] values.

Definition forbidden_headers : list bytes :=
  [&"authorization"; &"connection"; &"content-length"; &"cookie"; &"forwarded";
   &"host"; &"location"; &"proxy-authenticate"; &"proxy-authorization";
   &"set-cookie"; &"te"; &"trailer"; &"transfer-encoding"; &"upgrade";
   &"user-agent"; &"www-authenticate"; &"x-forwarded-for"; &"x-forwarded-host";
   &"x-forwarded-port"; &"x-forwarded-proto"; &"x-http-method-override";
   &"x-method-override"; &"x-original-url"; &"x-real-ip"; &"x-rewrite-url"].

Section Validation.
Context {HL : HeaderLib} {UL : UrlLib}.

(** The condition under which one configured header is refused. *)
Definition unsafe_header (injection_header : option bytes) (configured : bytes) : bool :=
  let lower := to_ascii_lowercase configured in
  negb (bool_decide (configured = lower))
  || match name_from_bytes configured with Some _ => false | None => true end
  || bool_decide (lower ∈ forbidden_headers)
  || match injection_header with
     | Some header => eq_ignore_ascii_case header configured
     | None => false
     end.

Fixpoint validate_headers (injection_header : option bytes) (unique headers : list bytes)
    : result unit :=
  match headers with
  | [] => Ok ()
  | configured :: headers =>
      let lower := to_ascii_lowercase configured in
      _ ← bail_if (unsafe_header injection_header configured)
            "proxy route {route_name} contains unsafe {direction} header {configured:?}";
      _ ← bail_if (bool_decide (lower ∈ unique))
            "proxy route {route_name} repeats {direction} header {configured:?}";
      validate_headers injection_header (lower :: unique) headers
  end.
Definition validate_proxy_header_allowlist (headers : list bytes)
    (injection_header : option bytes) : result unit :=
  validate_headers injection_header [] headers.

Definition has_url_credentials (url : Url) : bool :=
  negb (is_empty (url_username url)) || bool_decide (is_Some (url_password url)).

Definition validate_websocket_origin (value : bytes) : result unit :=
  origin ← ok_or (url_parse value) "origin must be a URL";
  bail_if (negb (bool_decide (url_scheme origin ∈ [&"https"; &"http"]))
           || bool_decide (url_host_str origin = None)
           || has_url_credentials origin
           || bool_decide (is_Some (url_query origin))
           || bool_decide (is_Some (url_fragment origin))
           || negb (bool_decide (url_path origin ∈ [&""; &"/"])))
    "origin must be an exact HTTP(S) origin".

(** The username check shared by [validate_proxy_route] and
    [build_proxy_injection]. *)
Definition invalid_basic_username (username : bytes) : bool :=
  is_empty username || (256 <? len username)%Z || contains ":" username
  || any_control username.

(** ** [validate_proxy_route] *)

(** The first part: names, origin, limits, methods and paths. *)
Definition validate_route_origin (name : bytes) (route : ProxyRouteConfig)
    (allow_insecure_http : bool) : result Url :=
  _ ← validate_policy_name name;
  _ ← with_context (validate_binding (route_profile route))
        "proxy route {name} profile is invalid";
  base ← ok_or (url_parse (base_url route)) "proxy route {name} base_url must be a URL";
  _ ← bail_if (bool_decide (url_host_str base = None)
               || (negb (bool_decide (url_scheme base = &"https"))
                   && negb (bool_decide (url_scheme base = &"http") && allow_insecure_http)))
        "proxy route {name} base_url must use HTTPS";
  _ ← bail_if (has_url_credentials base || bool_decide (is_Some (url_query base))
               || bool_decide (is_Some (url_fragment base)))
        "proxy route {name} base_url may not contain credentials, query, or fragment";
  _ ← bail_if (is_empty (allowed_methods route)
               || (is_empty (allowed_exact_paths route)
                   && is_empty (allowed_path_prefixes route)))
        "proxy route {name} must constrain methods and at least one path";
  _ ← bail_if (negb (range_contains 1 (4 * 1024 * 1024) (max_body_bytes route)))
        "proxy route {name} max_body_bytes must be between 1 and 4194304";
  _ ← bail_if ((max_response_bytes route =? 0)%Z
               || (256 * 1024 * 1024 <? max_response_bytes route)%Z)
        "proxy route {name} max_response_bytes must be between 1 and 268435456";
  _ ← bail_if (existsb (fun method => negb (bool_decide (to_ascii_uppercase method ∈
                 [&"GET"; &"HEAD"; &"POST"; &"PUT"; &"PATCH"; &"DELETE"])))
                 (allowed_methods route))
        "proxy route {name} contains a non-CRUD HTTP method";
  _ ← bail_if (existsb (fun path => negb (safe_policy_path path))
                 (allowed_exact_paths route ++ allowed_path_prefixes route))
        "proxy route {name} contains an unsafe path policy";
  Ok base.

(** The injection header and the secret keys it needs. *)
Definition validate_route_injection (route : ProxyRouteConfig)
    : result (bytes * list bytes) :=
  match injection route with
  | None =>
      _ ← bail_if (is_empty (legacy_secret_key route) || is_empty (legacy_header route))
            "proxy route {name} legacy injection requires secret_key and header";
      Ok (legacy_header route, [legacy_secret_key route])
  | Some (Bearer secret_key) =>
      _ ← reject_mixed_legacy_injection route;
      Ok (&"authorization", [secret_key])
  | Some (Header secret_key header prefix) =>
      _ ← reject_mixed_legacy_injection route;
      _ ← bail_if (any_control prefix)
            "proxy route {name} injection prefix contains control characters";
      Ok (header, [secret_key])
  | Some (Basic username password_secret_key) =>
      _ ← reject_mixed_legacy_injection route;
      _ ← bail_if (invalid_basic_username username)
            "proxy route {name} basic username is invalid";
      Ok (&"authorization", [password_secret_key])
  end.

(** Authorization or an X-* header: the check shared by [validate_proxy_route]
    and [build_proxy_injection] *)
Definition injectable_header (header : bytes) : bool :=
  eq_ignore_ascii_case header &"authorization"
  || starts_with &"x-" (to_ascii_lowercase header).

Definition valid_query_parameter (value : bytes) : bool :=
  negb (is_empty value)
  && forallb (fun byte => is_ascii_alphanumeric byte || one_of "-_." byte) value.

Definition valid_content_type (value : bytes) : bool :=
  negb (is_empty value)
  && bool_decide (value = to_ascii_lowercase value)
  && negb (contains ";" value)
  && bool_decide (is_Some (split_once "/" value))
  && match value_from_bytes value with Some _ => true | None => false end.

Definition validate_route_websocket (route : ProxyRouteConfig) (base : Url)
    (transparent_proxy_configured : bool) (websocket : ProxyWebSocketConfig)
    : result unit :=
  _ ← bail_if (negb transparent_proxy_configured
               || negb (bool_decide (url_scheme base = &"https"))
               || negb (bool_decide (url_port_or_known_default base = Some 443%Z)))
        "proxy route {name} WebSockets require the transparent proxy and standard HTTPS";
  _ ← bail_if (negb (existsb (fun method => eq_ignore_ascii_case method &"GET")
                       (allowed_methods route)))
        "proxy route {name} WebSockets require GET";
  _ ← bail_if (is_empty (allowed_origins websocket)
               && negb (allow_missing_origin websocket))
        "proxy route {name} WebSockets require allowed_origins or allow_missing_origin";
  _ ← bail_if ((32 <? len (allowed_origins websocket))%Z
               || (16 <? len (allowed_subprotocols websocket))%Z)
        "proxy route {name} WebSocket policy is too large";
  _ ← for_each (fun origin => with_context (validate_websocket_origin origin)
                  "proxy route {name} has an invalid WebSocket origin")
        (allowed_origins websocket);
  _ ← validate_string_allowlist (allowed_subprotocols websocket) valid_http_token;
  bail_if (negb (range_contains 1 (24 * 60 * 60) (max_duration_seconds websocket))
           || negb (range_contains 1 (16 * 1024 * 1024) (max_message_bytes websocket))
           || negb (range_contains 1 (1024 * 1024 * 1024) (max_total_bytes websocket)))
    "proxy route {name} WebSocket limits are outside safe bounds".

Definition validate_proxy_route (name : bytes) (route : ProxyRouteConfig)
    (allow_insecure_http transparent_proxy_configured : bool) : result unit :=
  base ← validate_route_origin name route allow_insecure_http;
  '(injection_header, injection_secret_keys) ← validate_route_injection route;
  _ ← for_each (fun secret_key => with_context (validate_credential_key secret_key)
                  "proxy route {name} injection secret key is invalid")
        injection_secret_keys;
  _ ← bail_if (negb (injectable_header injection_header))
        "proxy route {name} may inject Authorization or an X-* header only";
  _ ← ok_or (name_from_bytes injection_header) "proxy route {name} injection header is invalid";
  _ ← validate_proxy_header_allowlist (allowed_request_headers route) (Some injection_header);
  _ ← validate_proxy_header_allowlist (allowed_response_headers route) None;
  _ ← validate_string_allowlist (allowed_query_parameters route) valid_query_parameter;
  _ ← bail_if (16 <? len (body_substitutions route))%Z
        "proxy route {name} may define at most 16 body substitutions";
  _ ← bail_if (negb (is_empty (body_substitutions route))
               && is_empty (allowed_content_types route))
        "proxy route {name} body substitutions require explicit allowed content types";
  _ ← for_each (fun '(placeholder, secret_key) =>
        _ ← bail_if (negb (valid_body_placeholder placeholder))
              "proxy route {name} contains an invalid body placeholder";
        with_context (validate_credential_key secret_key)
          "proxy route {name} body substitution secret key is invalid")
        (body_substitutions route);
  _ ← validate_string_allowlist (allowed_content_types route) valid_content_type;
  match websocket route with
  | Some websocket =>
      validate_route_websocket route base transparent_proxy_configured websocket
  | None => Ok ()
  end.

Definition validate_proxy_tunnel (name : bytes) (tunnel : ProxyTunnelConfig) : result unit :=
  _ ← validate_policy_name name;
  _ ← with_context (validate_binding (tunnel_profile tunnel))
        "proxy tunnel {name} profile is invalid";
  _ ← with_context (canonical_tunnel_host (tunnel_host tunnel))
        "proxy tunnel {name} has an invalid host";
  Ok ().
End Validation.

(** ** Lemmas *)

Lemma validate_strings_ok valid unique values u :
  validate_strings valid unique values = Ok u <->
  Forall (fun v => valid v = true) values /\ NoDup values
  /\ Forall (fun v => v ∉ unique) values.
Proof.
  destruct u. revert unique. induction values as [|v values IH]; intros unique.
  - simpl. repeat split; constructor.
  - cbn [validate_strings]. rewrite !Forall_cons, NoDup_cons.
    destruct (valid v) eqn:Ev; [|simpl; naive_solver]. simpl.
    case_bool_decide as Hu; simpl; [naive_solver|]. rewrite IH.
    rewrite !Forall_forall. setoid_rewrite not_elem_of_cons. naive_solver.
Qed.

Lemma validate_string_allowlist_ok values valid u :
  validate_string_allowlist values valid = Ok u <->
  Forall (fun v => valid v = true) values /\ NoDup values.
Proof.
  unfold validate_string_allowlist. rewrite validate_strings_ok.
  assert (Forall (fun v => v ∉ @nil bytes) values) as Hn.
  { apply Forall_forall. set_solver. }
  naive_solver.
Qed.

(** Appending a slash-free boundary: the prefix policy in terms of segments. *)
Lemma path_matches_prefix_spec rest configured :
  path_matches_prefix (&"/" ++ rest) configured = true <->
  let t := trim_matches "/" configured in
  t = [] \/ split "/" t `prefix_of` split "/" rest.
Proof.
  unfold path_matches_prefix. generalize (trim_matches "/" configured) as t. intros t.
  cbv zeta. case_bool_decide as Ht.
  - simpl in Ht. split; [intros _; left; congruence|done].
  - assert (t <> []) as Hne by (intros ->; done).
    rewrite split_prefix, orb_true_iff, bool_decide_eq_true.
    assert ((match strip_prefix (&"/" ++ t) (&"/" ++ rest) with
             | Some r => starts_with &"/" r | None => false end = true) <->
            (t ++ &"/") `prefix_of` rest) as ->.
    { destruct (strip_prefix _ _) as [r|] eqn:E.
      - apply strip_prefix_spec in E. injection E as ->.
        rewrite starts_with_spec. split.
        + intros [x ->]. exists x. by rewrite <- app_assoc.
        + intros [x Hx]. rewrite <- app_assoc in Hx. apply app_inv_head in Hx as ->.
          by exists x.
      - split; [done|]. intros [x Hx].
        assert (strip_prefix (&"/" ++ t) (&"/" ++ rest) = Some (&"/" ++ x)) as Hs.
        { apply strip_prefix_spec. rewrite Hx, <- !app_assoc. done. }
        congruence. }
    split.
    + intros [[= ->]|?]; right; [by left|by right].
    + intros [?|[->|?]]; [done|by left|by right].
Qed.

(** ** Percent encoding *)

(** Every percent sign is followed by two hexadecimal digits. *)
Definition percent_encoded (s : bytes) : Prop :=
  forall i, s !! i = Some "%"%char ->
  exists h l, s !! (i + 1) = Some h /\ s !! (i + 2) = Some l
              /\ is_ascii_hexdigit h = true /\ is_ascii_hexdigit l = true.

Lemma percent_encoded_cons b s :
  b <> "%"%char -> percent_encoded (b :: s) <-> percent_encoded s.
Proof.
  intros Hb. split.
  - intros H i Hi. by apply (H (S i)).
  - intros H [|i] Hi; [simplify_eq/=|]. by apply (H i).
Qed.

Lemma percent_encoded_escape h l s :
  is_ascii_hexdigit h = true -> is_ascii_hexdigit l = true ->
  percent_encoded ("%"%char :: h :: l :: s) <-> percent_encoded s.
Proof.
  intros Hh Hl.
  assert (h <> "%"%char) by (by intros ->). assert (l <> "%"%char) by (by intros ->).
  rewrite <- (percent_encoded_cons l s), <- (percent_encoded_cons h (l :: s)) by done.
  split.
  - intros H' i Hi. by apply (H' (S i)).
  - intros H' [|i] Hi; [by exists h, l|]. by apply (H' i).
Qed.

Lemma validate_percent_encoding_iff n s :
  length s <= n -> validate_percent_encoding s = Ok () <-> percent_encoded s.
Proof.
  revert s. induction n as [|n IH]; intros [|b s] Hn; simpl in Hn;
    try (split; [by intros _ i|done]); [lia|].
  cbn [validate_percent_encoding]. case_bool_decide as Hb.
  - subst b. destruct s as [|h [|l s]].
    1,2: split; [done|]; intros H; destruct (H 0 eq_refl) as (? & ? & ? & ? & _);
      simplify_eq/=.
    destruct (is_ascii_hexdigit h) eqn:Eh, (is_ascii_hexdigit l) eqn:El; simpl.
    1: rewrite percent_encoded_escape by done; apply IH; simpl in Hn; lia.
    all: split; [done|]; intros H; destruct (H 0 eq_refl) as (? & ? & ? & ? & ? & ?);
      simplify_eq/=; congruence.
  - rewrite percent_encoded_cons by done. apply IH. lia.
Qed.

(** ** What a validated route guarantees *)

Section Validated.
Context {HL : HeaderLib} {UL : UrlLib}.

Lemma unsafe_header_false injection_header configured :
  unsafe_header injection_header configured = false <->
  to_ascii_lowercase configured = configured
  /\ is_Some (name_from_bytes configured)
  /\ configured ∉ forbidden_headers
  /\ (forall h, injection_header = Some h -> to_ascii_lowercase h <> configured).
Proof.
  unfold unsafe_header, eq_ignore_ascii_case. rewrite !orb_false_iff, negb_false_iff,
    bool_decide_eq_true, bool_decide_eq_false.
  assert (forall o : option HeaderName,
    match o with Some _ => false | None => true end = false <-> is_Some o) as ->.
  { intros [?|]; split; done || (by intros [? [=]]). }
  split.
  - intros (((Hlow & Hn) & Hf) & Hi). rewrite <- Hlow in Hf. split_and!; try done.
    intros h ->. apply bool_decide_eq_false in Hi. congruence.
  - intros (Hlow & Hn & Hf & Hi). rewrite Hlow. split_and!; try done.
    destruct injection_header as [h|]; [|done]. apply bool_decide_eq_false. by apply Hi.
Qed.

Lemma validate_headers_ok injection_header unique headers u :
  validate_headers injection_header unique headers = Ok u <->
  Forall (fun c => unsafe_header injection_header c = false) headers
  /\ NoDup headers /\ Forall (fun c => c ∉ unique) headers.
Proof.
  destruct u. revert unique. induction headers as [|c headers IH]; intros unique.
  - simpl. repeat split; constructor.
  - cbn [validate_headers]. rewrite !Forall_cons, NoDup_cons.
    destruct (unsafe_header injection_header c) eqn:Ec; simpl; [naive_solver|].
    apply unsafe_header_false in Ec as [-> _].
    case_bool_decide as Hu; simpl; [naive_solver|]. rewrite IH.
    rewrite !Forall_forall. setoid_rewrite not_elem_of_cons. naive_solver.
Qed.

Lemma validate_proxy_header_allowlist_ok headers injection_header u :
  validate_proxy_header_allowlist headers injection_header = Ok u <->
  Forall (fun c => unsafe_header injection_header c = false) headers /\ NoDup headers.
Proof.
  unfold validate_proxy_header_allowlist. rewrite validate_headers_ok.
  assert (Forall (fun c => c ∉ @nil bytes) headers) as Hn.
  { apply Forall_forall. set_solver. }
  naive_solver.
Qed.

Record valid_route (route : ProxyRouteConfig) (allow_insecure_http transparent : bool)
    (base : Url) (injection_header : bytes) (keys : list bytes) : Prop := {
  vr_base : url_parse (base_url route) = Some base;
  vr_host : url_host_str base <> None;
  vr_scheme : url_scheme base = &"https"
              \/ url_scheme base = &"http" /\ allow_insecure_http = true;
  vr_user : url_username base = [];
  vr_password : url_password base = None;
  vr_query : url_query base = None;
  vr_fragment : url_fragment base = None;
  vr_body_limit : (1 <= max_body_bytes route <= 4194304)%Z;
  vr_response_limit : (max_response_bytes route <> 0
                       /\ max_response_bytes route <= 268435456)%Z;
  vr_paths : Forall (fun p => safe_policy_path p = true)
               (allowed_exact_paths route ++ allowed_path_prefixes route);
  vr_injection : validate_route_injection route = Ok (injection_header, keys);
  vr_keys : Forall (fun k => validate_credential_key k = Ok ()) keys;
  vr_injectable : injectable_header injection_header = true;
  vr_injection_name : is_Some (name_from_bytes injection_header);
  vr_request_headers :
    Forall (fun c => unsafe_header (Some injection_header) c = false)
      (allowed_request_headers route) /\ NoDup (allowed_request_headers route);
  vr_response_headers :
    Forall (fun c => unsafe_header None c = false) (allowed_response_headers route)
    /\ NoDup (allowed_response_headers route);
  vr_substitutions : (len (body_substitutions route) <= 16)%Z;
  vr_placeholders :
    Forall (fun e => valid_body_placeholder e.1 = true
                     /\ validate_credential_key e.2 = Ok ()) (body_substitutions route);
  vr_websocket : forall ws, websocket route = Some ws ->
    transparent = true /\ url_scheme base = &"https"
    /\ url_port_or_known_default base = Some 443%Z
    /\ (1 <= max_duration_seconds ws <= 86400)%Z
    /\ (1 <= max_message_bytes ws <= 16777216)%Z
    /\ (1 <= max_total_bytes ws <= 1073741824)%Z
    /\ Forall (fun p => valid_http_token p = true) (allowed_subprotocols ws)
    /\ NoDup (allowed_subprotocols ws);
}.

Lemma has_url_credentials_false u :
  has_url_credentials u = false <-> url_username u = [] /\ url_password u = None.
Proof.
  unfold has_url_credentials. breflect. rewrite <- eq_None_not_Some.
  destruct (url_username u); naive_solver.
Qed.

Lemma is_Some_false {A} (o : option A) `{!Decision (is_Some o)} :
  bool_decide (is_Some o) = false <-> o = None.
Proof. rewrite bool_decide_eq_false. symmetry. apply eq_None_not_Some. Qed.

Lemma Forall_negb_false {A} (f : A -> bool) xs :
  Forall (fun x => negb (f x) = false) xs -> Forall (fun x => f x = true) xs.
Proof. intros H. eapply Forall_impl; [exact H|]. intros x. apply negb_false_iff. Qed.

Lemma range_contains_spec lo hi x : range_contains lo hi x = true <-> (lo <= x <= hi)%Z.
Proof. unfold range_contains. by breflect. Qed.

Lemma validate_route_origin_ok name route insecure base :
  validate_route_origin name route insecure = Ok base ->
  url_parse (base_url route) = Some base
  /\ url_host_str base <> None
  /\ (url_scheme base = &"https" \/ url_scheme base = &"http" /\ insecure = true)
  /\ (url_username base = [] /\ url_password base = None)
  /\ url_query base = None /\ url_fragment base = None
  /\ (1 <= max_body_bytes route <= 4194304)%Z
  /\ (max_response_bytes route <> 0 /\ max_response_bytes route <= 268435456)%Z
  /\ Forall (fun p => safe_policy_path p = true)
       (allowed_exact_paths route ++ allowed_path_prefixes route).
Proof.
  unfold validate_route_origin. intros Hok. inv_ok. subst.
  rewrite !orb_false_iff, !is_Some_false, ?has_url_credentials_false in *. split_hyps.
  rewrite existsb_false, ?andb_false_iff, ?negb_false_iff, ?andb_true_iff,
    ?bool_decide_eq_true, ?bool_decide_eq_false, ?range_contains_spec in *.
  breflect in *. split_and!; try done; try lia. by apply Forall_negb_false.
Qed.

Lemma validate_route_websocket_ok route base transparent ws u :
  validate_route_websocket route base transparent ws = Ok u ->
  transparent = true /\ url_scheme base = &"https"
  /\ url_port_or_known_default base = Some 443%Z
  /\ (1 <= max_duration_seconds ws <= 86400)%Z
  /\ (1 <= max_message_bytes ws <= 16777216)%Z
  /\ (1 <= max_total_bytes ws <= 1073741824)%Z
  /\ Forall (fun p => valid_http_token p = true) (allowed_subprotocols ws)
  /\ NoDup (allowed_subprotocols ws).
Proof.
  unfold validate_route_websocket. intros Hok. inv_ok.
  rewrite validate_string_allowlist_ok in *.
  rewrite !orb_false_iff, ?negb_false_iff, ?bool_decide_eq_true, ?range_contains_spec in *.
  split_hyps. split_and!; done || lia.
Qed.

Lemma validate_proxy_route_valid name route insecure transparent :
  validate_proxy_route name route insecure transparent = Ok () ->
  exists base injection_header keys,
    valid_route route insecure transparent base injection_header keys.
Proof.
  unfold validate_proxy_route. intros Hok. inv_ok. do 3 eexists.
  rewrite ?validate_proxy_header_allowlist_ok, ?negb_false_iff in *.
  destruct (validate_route_origin_ok _ _ _ _ H)
    as (? & ? & ? & [? ?] & ? & ? & ? & ? & ?).
  split; try done.
  - eapply Forall_impl; [exact H1|]. intros k. apply with_context_ok.
  - breflect in *. lia.
  - eapply Forall_impl; [exact H9|]. intros [p k] Hp. cbv beta iota in Hp. inv_ok.
    cbv beta. by split; [apply negb_false_iff|].
  - intros ws Hws. rewrite Hws in Hok. by eapply validate_route_websocket_ok.
Qed.
End Validated.

(** ** A route for the witnesses *)

Module Sample.
Definition ws : ProxyWebSocketConfig := {|
  allowed_origins := [&"https://app.example.test"];
  allow_missing_origin := false;
  allowed_subprotocols := [&"chat"; &"superchat"];
  max_duration_seconds := default_websocket_max_duration_seconds;
  max_message_bytes := default_websocket_max_message_bytes;
  max_total_bytes := default_websocket_max_total_bytes;
|}.

Definition route : ProxyRouteConfig := {|
  route_profile := &"deploy";
  base_url := &"https://api.example.test/base/";
  legacy_secret_key := [];
  legacy_header := [];
  legacy_header_prefix := [];
  injection := Some (Bearer &"API_TOKEN");
  body_substitutions := [(&"__AV_SECRET_PASSWORD__", &"PASSWORD")];
  allowed_methods := [&"GET"; &"POST"];
  allowed_exact_paths := [&"/health"];
  allowed_path_prefixes := [&"/v1/items"];
  allowed_request_headers := default_allowed_request_headers;
  allowed_response_headers := default_allowed_response_headers;
  allowed_query_parameters := [&"page"];
  allowed_content_types := [&"application/json"];
  max_body_bytes := default_proxy_max_body_bytes;
  response_mode := Buffered;
  max_response_bytes := default_proxy_max_response_bytes;
  websocket := Some ws;
|}.

Definition tunnel : ProxyTunnelConfig := {|
  tunnel_profile := &"deploy";
  tunnel_host := &"Registry.Example.test.";
  tunnel_allow_private_ips := false;
|}.

Definition credentials : BTreeMap bytes :=
  [(&"API_TOKEN", &"s3cr+t/token"); (&"PASSWORD", &"hunter2")].

Import Models.
Lemma route_valid : validate_proxy_route &"items" route false true = Ok ().
Proof. reflexivity. Qed.
End Sample.
