(* ===== verification/Request.v ===== *)
(** Request: admission of one caller request against its route
    (crates/av-credential-proxy/src/policy.rs: [validate_proxy_request],
    [enforce_transparent_tunnel_target], [build_target_url] and the helpers
    they call).

    [request_allowed] is the contract of a route as an operator reads it; the
    code is proved to accept exactly the requests that meet it. *)

From Stdlib Require Import Ascii String.
From stdpp Require Import base list strings gmap.
From S2P Require Import Prelude Str BTree External Models Host Policy.

Record ValidatedProxyRequest := {
  normalized_path : bytes;
  query : list (bytes * bytes);
}.

(** ** Definitions *)

Section Request.
Context {HL : HeaderLib} {UL : UrlLib} {EL : EncodingLib}.

Definition enforce_proxy_content_type (route : ProxyRouteConfig) (headers : HeaderMap)
    (body_len : Z) : result unit :=
  if (body_len =? 0)%Z then Ok () else
  match hm_get_all headers (from_static &"content-type") with
  | [value] =>
      content_type ← ok_or
        (value ← value_to_str value;
         value ← head (split ";" value);
         Some (to_ascii_lowercase (trim value)))
        "request body requires a valid Content-Type";
      bail_if (negb (existsb (fun allowed => bool_decide (allowed = content_type))
                       (allowed_content_types route)))
        "request Content-Type is not allowed"
  | _ => Err "request body requires exactly one Content-Type"
  end.

(** The loop over the decoded pairs; [names] and [validated] as in the source. *)
Fixpoint validate_query_pairs (route : ProxyRouteConfig) (names : list bytes)
    (validated pairs : list (bytes * bytes)) : result (list (bytes * bytes)) :=
  match pairs with
  | [] => Ok validated
  | (name, value) :: pairs =>
      _ ← bail_if (any_control name || any_control value)
            "query contains control characters";
      _ ← bail_if (negb (existsb (fun allowed => bool_decide (allowed = name))
                           (allowed_query_parameters route)))
            "query parameter is not allowed";
      _ ← bail_if (bool_decide (name ∈ names))
            "duplicate query parameters are not allowed";
      validate_query_pairs route (name :: names) (validated ++ [(name, value)]) pairs
  end.

Definition validate_proxy_query (route : ProxyRouteConfig) (query : option bytes)
    : result (list (bytes * bytes)) :=
  match query with
  | None | Some [] => Ok []
  | Some query =>
      _ ← validate_percent_encoding query;
      validate_query_pairs route [] [] (form_urlencoded_parse query)
  end.

Definition validate_proxy_request (route : ProxyRouteConfig) (path : bytes)
    (query : option bytes) (method : bytes) (headers : HeaderMap) (body_len : Z)
    : result ValidatedProxyRequest :=
  _ ← bail_if (negb (existsb (fun allowed => eq_ignore_ascii_case allowed method)
                       (allowed_methods route)))
        "method is not allowed";
  let normalized_path := &"/" ++ trim_start_matches "/" path in
  _ ← bail_if (negb (safe_policy_path normalized_path))
        "path contains a traversal sequence";
  _ ← bail_if (negb (bool_decide (normalized_path ∈ allowed_exact_paths route))
               && negb (existsb (path_matches_prefix normalized_path)
                          (allowed_path_prefixes route)))
        "path is not allowed";
  _ ← bail_if (max_body_bytes route <? body_len)%Z "request body is too large";
  _ ← enforce_proxy_content_type route headers body_len;
  query ← validate_proxy_query route query;
  Ok {| normalized_path := normalized_path; query := query |}.

Definition enforce_transparent_tunnel_target (route : ProxyRouteConfig) (uri : Uri)
    (headers : HeaderMap) : result unit :=
  let HOST := from_static &"host" in
  _ ← bail_if (bool_decide (is_Some (uri_scheme uri))
               || bool_decide (is_Some (uri_authority uri))
               || negb (starts_with &"/" (uri_path uri)))
        "transparent tunnel requires an origin-form request target";
  _ ← bail_if (negb (len (hm_get_all headers HOST) =? 1)%Z)
        "transparent tunnel requires exactly one Host header";
  _ ← bail_if (hm_contains_key headers (from_static &"proxy-authorization"))
        "transparent tunnel must not contain proxy authorization";
  configured ← ok_or (url_parse (base_url route)) "transparent route base URL disappeared";
  _ ← bail_if (negb (bool_decide (url_scheme configured = &"https"))
               || negb (bool_decide (url_port_or_known_default configured = Some 443%Z)))
        "transparent tunnel route is not standard HTTPS";
  supplied_host ← ok_or (hm_get headers HOST ≫= value_to_str)
                    "transparent tunnel Host header is invalid";
  supplied ← ok_or (url_parse (&"https://" ++ supplied_host))
               "transparent tunnel Host header is malformed";
  bail_if (negb (bool_decide (url_username supplied = &""))
           || bool_decide (is_Some (url_password supplied))
           || negb (bool_decide (url_port_or_known_default supplied = Some 443%Z))
           || negb (bool_decide (url_host_str supplied = url_host_str configured))
           || negb (bool_decide (url_path supplied = &"/"))
           || bool_decide (is_Some (url_query supplied))
           || bool_decide (is_Some (url_fragment supplied)))
    "transparent tunnel Host does not match its configured route".

Definition build_target_url (route : ProxyRouteConfig) (request : ValidatedProxyRequest)
    : result Url :=
  target ← ok_or (url_parse (base_url route)) "proxy route base URL disappeared";
  _ ← bail_if (negb (bool_decide (url_scheme target ∈ [&"https"; &"http"]))
               || bool_decide (url_host_str target = None)
               || has_url_credentials target
               || bool_decide (is_Some (url_query target))
               || bool_decide (is_Some (url_fragment target)))
        "proxy route base URL is unsafe";
  let target_path := trim_end_matches "/" (url_path target) ++ normalized_path request in
  let target := url_set_path target target_path in
  let target := url_clear_query target in
  Ok (if is_empty (query request) then target
      else url_extend_pairs target (query request)).

(** ** The contract of a route *)

(** The path segments after the leading slash *)
Definition segments (path : bytes) : list bytes := split "/" (drop 1 path).

(** A canonical path: one leading slash, no empty segment before the last, no
    dot segment, and none of the characters a later decoder could act on. *)
Definition canonical_path (path : bytes) : Prop :=
  (exists rest, path = "/"%char :: rest)
  /\ Forall (fun c => c ∉ path) ["?"; "#"; "\"; "%"]%char
  /\ ~ infix_of &"//" path
  /\ any_control path = false
  /\ &"." ∉ segments path /\ &".." ∉ segments path.

Definition path_allowed (route : ProxyRouteConfig) (path : bytes) : Prop :=
  path ∈ allowed_exact_paths route
  \/ exists prefix, prefix ∈ allowed_path_prefixes route
     /\ (trim_matches "/" prefix = []
         \/ split "/" (trim_matches "/" prefix) `prefix_of` segments path).

Definition content_type_allowed (route : ProxyRouteConfig) (headers : HeaderMap)
    (body_len : Z) : Prop :=
  body_len = 0%Z \/
  exists value text media rest,
    hm_get_all headers (from_static &"content-type") = [value]
    /\ value_to_str value = Some text
    /\ split ";" text = media :: rest
    /\ to_ascii_lowercase (trim media) ∈ allowed_content_types route.

Definition query_allowed (route : ProxyRouteConfig) (query : option bytes)
    (pairs : list (bytes * bytes)) : Prop :=
  let q := default [] query in
  pairs = (if is_empty q then [] else form_urlencoded_parse q)
  /\ (q <> [] -> percent_encoded q)
  /\ NoDup pairs.*1
  /\ Forall (fun '(name, value) => name ∈ allowed_query_parameters route
       /\ any_control name = false /\ any_control value = false) pairs.

Record request_allowed (route : ProxyRouteConfig) (path : bytes) (query' : option bytes)
    (method : bytes) (headers : HeaderMap) (body_len : Z) (v : ValidatedProxyRequest)
    : Prop := {
  ra_method : exists allowed, allowed ∈ allowed_methods route
                /\ to_ascii_lowercase allowed = to_ascii_lowercase method;
  ra_path : normalized_path v = &"/" ++ trim_start_matches "/" path;
  ra_canonical : canonical_path (normalized_path v);
  ra_allowed : path_allowed route (normalized_path v);
  ra_body : (body_len <= max_body_bytes route)%Z;
  ra_content_type : content_type_allowed route headers body_len;
  ra_query : query_allowed route query' (query v);
}.

(** ** Lemmas *)

Lemma safe_policy_path_spec path : safe_policy_path path = true <-> canonical_path path.
Proof.
  unfold safe_policy_path, canonical_path, contains_any.
  rewrite !andb_true_iff, !negb_true_iff, contains_str_false, !existsb_false,
    starts_with_spec.
  assert (Forall (fun c => one_of "?#\%" c = false) path <->
          Forall (fun c => c ∉ path) ["?"; "#"; "\"; "%"]%char) as ->.
  { rewrite !Forall_forall. unfold one_of. setoid_rewrite bool_decide_eq_false.
    simpl. set_solver. }
  assert (forall rest : bytes,
    Forall (fun segment => bool_decide (segment = &".") || bool_decide (segment = &"..")
            = false) (split "/" (&"/" ++ rest)) <->
    &"." ∉ segments (&"/" ++ rest) /\ &".." ∉ segments (&"/" ++ rest)) as Hseg.
  { intros rest. change (split "/" (&"/" ++ rest)) with ([] :: split "/" rest).
    rewrite Forall_cons, Forall_forall. setoid_rewrite orb_false_iff.
    setoid_rewrite bool_decide_eq_false. unfold segments. simpl. rewrite drop_0.
    naive_solver. }
  split.
  - intros ((((Hs & Hc) & Hd) & Hctl) & Hdot). destruct Hs as [rest ->].
    apply Hseg in Hdot as [? ?]. split_and!; try done. by exists rest.
  - intros ((rest & ->) & Hc & Hd & Hctl & H1 & H2). split_and!; try done.
    + by exists rest.
    + apply (Hseg rest). done.
Qed.

Lemma path_allowed_spec route rest :
  negb (bool_decide (&"/" ++ rest ∈ allowed_exact_paths route))
  && negb (existsb (path_matches_prefix (&"/" ++ rest)) (allowed_path_prefixes route))
  = false <-> path_allowed route (&"/" ++ rest).
Proof.
  rewrite andb_false_iff, !negb_false_iff, bool_decide_eq_true, existsb_true.
  unfold path_allowed, segments. simpl drop. rewrite drop_0.
  setoid_rewrite path_matches_prefix_spec. done.
Qed.

Lemma existsb_elem {A} `{!EqDecision A} (x : A) xs :
  existsb (fun y => bool_decide (y = x)) xs = true <-> x ∈ xs.
Proof. rewrite existsb_true. setoid_rewrite bool_decide_eq_true. naive_solver. Qed.

Lemma enforce_proxy_content_type_spec route headers body_len :
  enforce_proxy_content_type route headers body_len = Ok () <->
  content_type_allowed route headers body_len.
Proof.
  unfold enforce_proxy_content_type, content_type_allowed.
  destruct (Z.eqb_spec body_len 0) as [?|Hne]; [naive_solver|].
  destruct (hm_get_all _ _) as [|value [|]];
    [by split; [|intros [?|(? & ? & ? & ? & [=] & _)]]| 
    |by split; [|intros [?|(? & ? & ? & ? & [=] & _)]]].
  destruct (value_to_str value) as [text|] eqn:Ev; simpl.
  2: { split; [done|]. intros [?|(? & ? & ? & ? & [= <-] & ? & _)]; congruence. }
  destruct (split ";" text) as [|media rest] eqn:Es; [by apply split_nonempty in Es|].
  simpl. rewrite bail_if_ok, negb_false_iff, existsb_elem. split.
  - intros Hin. right. by exists value, text, media, rest.
  - intros [?|(? & ? & ? & ? & [= <-] & ? & ? & ?)]; congruence.
Qed.

Lemma validate_query_pairs_spec route names validated pairs out :
  validate_query_pairs route names validated pairs = Ok out <->
  out = validated ++ pairs
  /\ NoDup pairs.*1 /\ Forall (fun p => p.1 ∉ names) pairs
  /\ Forall (fun '(name, value) => name ∈ allowed_query_parameters route
       /\ any_control name = false /\ any_control value = false) pairs.
Proof.
  revert names validated. induction pairs as [|[name value] pairs IH]; intros names validated.
  - simpl. rewrite app_nil_r. split.
    + intros [= <-]. repeat split; constructor.
    + by intros (-> & _).
  - cbn [validate_query_pairs]. rewrite fmap_cons, NoDup_cons, !Forall_cons.
    destruct (any_control name) eqn:E1; simpl; [naive_solver|].
    destruct (any_control value) eqn:E2; simpl; [naive_solver|].
    destruct (existsb _ _) eqn:E3; simpl.
    2: { rewrite <- not_true_iff_false, existsb_elem in E3. naive_solver. }
    apply existsb_elem in E3. case_bool_decide as Hn; simpl; [naive_solver|].
    rewrite IH, <- app_assoc. simpl.
    assert (Forall (fun p => p.1 ∉ name :: names) pairs <->
            name ∉ pairs.*1 /\ Forall (fun p => p.1 ∉ names) pairs) as ->; [|naive_solver].
    rewrite !Forall_forall. setoid_rewrite not_elem_of_cons. rewrite list_elem_of_fmap.
    naive_solver.
Qed.

Lemma validate_proxy_query_spec route query' pairs :
  validate_proxy_query route query' = Ok pairs <-> query_allowed route query' pairs.
Proof.
  unfold validate_proxy_query, query_allowed.
  destruct query' as [[|b q]|]; cbn [default is_empty].
  1,3: split; [intros [= <-]; split_and!; try done; constructor|by intros (-> & _)].
  rewrite bind_ok. split.
  - intros ([] & Hp & Hq). apply validate_query_pairs_spec in Hq as (-> & Hn & _ & Ha).
    split_and!; try done. intros _. by eapply validate_percent_encoding_iff.
  - intros (-> & Hp & Hn & Ha). exists (). split.
    + eapply validate_percent_encoding_iff; [done|]. by apply Hp.
    + apply validate_query_pairs_spec. split_and!; try done. apply Forall_forall. set_solver.
Qed.

Lemma validate_proxy_request_spec route path query' method headers body_len v :
  validate_proxy_request route path query' method headers body_len = Ok v <->
  request_allowed route path query' method headers body_len v.
Proof.
  unfold validate_proxy_request. rewrite bind_ok. split.
  - intros ([] & Hm & H). apply bail_if_ok, negb_false_iff, existsb_true in Hm. inv_ok.
    rewrite negb_false_iff in H0. apply safe_policy_path_spec in H0.
    apply path_allowed_spec in H1. destruct x2. apply enforce_proxy_content_type_spec in H3.
    apply validate_proxy_query_spec in H4. breflect in H2. subst v. split; try done.
    destruct Hm as (m & ? & Heq). exists m. split; [done|]. by apply bool_decide_eq_true in Heq.
  - intros [(m & Hin & Hm) Hp Hc Ha Hb Hct Hq]. exists (). split.
    { apply bail_if_ok, negb_false_iff, existsb_true. exists m.
      split; [done|]. by apply bool_decide_eq_true. }
    destruct v as [np q]. cbn [normalized_path query] in *. subst np.
    rewrite (proj2 (safe_policy_path_spec _) Hc), (proj2 (path_allowed_spec _ _) Ha).
    rewrite (proj2 (Z.ltb_ge _ _) Hb). cbn [bail_if negb mbind result_bind].
    rewrite (proj2 (enforce_proxy_content_type_spec _ _ _) Hct). cbn [mbind result_bind].
    by rewrite (proj2 (validate_proxy_query_spec _ _ _) Hq).
Qed.

(** C6: a request is admitted to a route exactly when it meets the route's
    contract: an allowed method in any case, a canonical path that is listed or
    lies below a listed prefix segment by segment, a body within the limit with
    one allowed media type, and a well-formed query of distinct allowed
    parameters; the admitted request is that path and those decoded pairs. *)
Theorem validate_proxy_request_iff route path query' method headers body_len v :
  validate_proxy_request route path query' method headers body_len = Ok v <->
  request_allowed route path query' method headers body_len v.
Proof. apply validate_proxy_request_spec. Qed.

(** For a validated route every admitted request has a target URL, and that
    URL has the configured scheme, host, port and (absent) credentials, no
    fragment, and a query only when the request has one. *)
Theorem build_target_url_confined `{!UrlLaws} name route insecure transparent request :
  validate_proxy_route name route insecure transparent = Ok () ->
  exists base target,
    url_parse (base_url route) = Some base
    /\ build_target_url route request = Ok target
    /\ url_origin target = url_origin base
    /\ url_username target = [] /\ url_password target = None
    /\ url_fragment target = None
    /\ (query request = [] -> url_query target = None).
Proof.
  intros (base & h & keys & Hv)%validate_proxy_route_valid.
  destruct Hv as [Hb Hh Hs Hu Hp Hq Hf].
  unfold build_target_url. rewrite Hb. simpl.
  rewrite bool_decide_eq_true_2 by (destruct Hs as [->|[-> _]]; set_solver).
  rewrite (bool_decide_eq_false_2 (url_host_str base = None)) by done.
  rewrite (proj2 (has_url_credentials_false base)), Hq, Hf by done.
  rewrite !bool_decide_eq_false_2 by (by intros []). simpl.
  eexists base, _. split; [done|]. split; [done|].
  match goal with |- context [if ?c then _ else _] => set (t := if c then _ else _) end.
  assert (url_origin t = url_origin base /\ url_fragment t = None) as [Ho Hft].
  { unfold t. destruct (is_empty _).
    - by rewrite origin_clear_query, origin_set_path, fragment_clear_query, fragment_set_path.
    - by rewrite origin_extend_pairs, origin_clear_query, origin_set_path,
        fragment_extend_pairs, fragment_clear_query, fragment_set_path. }
  pose proof Ho as Hpair. unfold url_origin in Hpair. injection Hpair as _ _ _ -> ->.
  split_and!; try done. intros Hreq. unfold t. rewrite Hreq. simpl. apply query_clear_query.
Qed.
End Request.

Import Models.

Lemma build_target_url_confined_witness :
  exists base target,
    url_parse (base_url Sample.route) = Some base
    /\ build_target_url Sample.route
         {| normalized_path := &"/v1/items"; query := [(&"page", &"2")] |} = Ok target
    /\ url_origin target = url_origin base
    /\ url_username target = [] /\ url_password target = None
    /\ url_fragment target = None
    /\ (query {| normalized_path := &"/v1/items"; query := [(&"page", &"2")] |} = [] ->
        url_query target = None).
Proof. apply (build_target_url_confined &"items" _ false true). reflexivity. Defined.

Example request_examples :
  let headers := [(&"content-type", &"Application/JSON; charset=utf-8")] in
  validate_proxy_request Sample.route &"v1/items/7" (Some &"page=2") &"post" headers 10 =
    Ok {| normalized_path := &"/v1/items/7"; query := [(&"page", &"2")] |}
  /\ is_ok (validate_proxy_request Sample.route &"/v1/itemsX" None &"GET" [] 0) = false
  /\ is_ok (validate_proxy_request Sample.route &"/v1/items/../x" None &"GET" [] 0) = false
  /\ is_ok (validate_proxy_request Sample.route &"/health" (Some &"page=%2") &"GET" [] 0) = false.
Proof. vm_compute. done. Qed.
