(* ===== verification/Injection.v ===== *)
(** Injection: construction of the outbound credential material
    (crates/av-credential-proxy/src/policy.rs: [build_proxy_injection],
    [apply_body_substitutions], [prepare_credentials],
    [prepare_websocket_credentials], [prepare_outbound_headers]).

    [CredentialSource] is the source's trait; its implementation for
    [BTreeMap] is the instance. *)

From Stdlib Require Import Ascii String.
From stdpp Require Import base list strings gmap.
From S2P Require Import Prelude Str BTree External Models Redaction Host Policy.

Class CredentialSource (T : Type) := credential : T -> bytes -> option bytes.
#[export] Instance btree_credentials : CredentialSource (BTreeMap bytes) := bt_get.

Definition usize_max : Z := 2 ^ 64 - 1.
Definition saturating_sub (a b : Z) : Z := Z.max 0 (a - b).
Definition saturating_add (a b : Z) : Z := Z.min usize_max (a + b).

Section Injection.
Context {HL : HeaderLib} {UL : UrlLib} {EL : EncodingLib}.

Record PreparedCredentials := {
  injection_name : HeaderName;
  injection_value : HeaderValue;
  body : bytes;
  redaction : RedactionSet;
}.

Context {T : Type} `{CS : !CredentialSource T}.

(** ** Definitions *)

(** The header name, its value and the sensitive values, before the checks
    common to all kinds of injection. *)
Definition injection_material (route : ProxyRouteConfig) (credentials : T)
    : result (bytes * bytes * list bytes) :=
  match injection route with
  | None =>
      secret ← ok_or (credential credentials (legacy_secret_key route))
                 "proxy credential is unavailable";
      Ok (legacy_header route, legacy_header_prefix route ++ secret, [secret])
  | Some (Bearer secret_key) =>
      secret ← ok_or (credential credentials secret_key)
                 "proxy bearer credential is unavailable";
      Ok (&"authorization", &"Bearer " ++ secret, [secret])
  | Some (Header secret_key header prefix) =>
      secret ← ok_or (credential credentials secret_key)
                 "proxy header credential is unavailable";
      Ok (header, prefix ++ secret, [secret])
  | Some (Basic username password_secret_key) =>
      _ ← bail_if (invalid_basic_username username) "proxy basic username is invalid";
      password ← ok_or (credential credentials password_secret_key)
                   "proxy basic password is unavailable";
      let pair := username ++ &":" ++ password in
      Ok (&"authorization", &"Basic " ++ base64_standard pair, [password; pair])
  end.

Definition build_proxy_injection (route : ProxyRouteConfig) (credentials : T)
    : result (HeaderName * HeaderValue * list bytes) :=
  '(name, value, sensitive_values) ← injection_material route credentials;
  _ ← bail_if (negb (injectable_header name))
        "proxy may inject Authorization or an X-* header only";
  let sensitive_values := sensitive_values ++ [value] in
  name ← ok_or (name_from_bytes name) "invalid HTTP header name";
  value ← ok_or (value_from_bytes value) "failed to parse header value";
  Ok (name, value, sensitive_values).

(** One round of the loop of [apply_body_substitutions]. *)
Definition substitute_one (route : ProxyRouteConfig) (credentials : T)
    (state : bytes * list bytes) (substitution : bytes * bytes)
    : result (bytes * list bytes) :=
  let '(output, sensitive_values) := state in
  let '(placeholder, secret_key) := substitution in
  _ ← bail_if (negb (valid_body_placeholder placeholder))
        "proxy route contains an invalid body placeholder";
  secret ← ok_or (credential credentials secret_key)
             "body substitution secret {secret_key} is unavailable";
  _ ← bail_if (negb (occurrences placeholder output =? 1)%nat)
        "body placeholder must appear exactly once";
  position ← ok_or (position placeholder output) "body placeholder disappeared";
  let resulting_length :=
    saturating_add (saturating_sub (len output) (len placeholder)) (len secret) in
  _ ← bail_if (max_body_bytes route <? resulting_length)%Z
        "substituted request body is too large";
  Ok (take position output ++ secret ++ drop (position + length placeholder) output,
      sensitive_values ++ [secret]).

Definition apply_body_substitutions (route : ProxyRouteConfig) (credentials : T)
    (body : bytes) : result (bytes * list bytes) :=
  _ ← bail_if (16 <? len (body_substitutions route))%Z
        "proxy route may define at most 16 body substitutions";
  try_fold (substitute_one route credentials) (body, []) (body_substitutions route).

Definition prepare_credentials (route : ProxyRouteConfig) (credentials : T)
    (body : bytes) : result PreparedCredentials :=
  _ ← bail_if (max_body_bytes route <? len body)%Z "request body is too large";
  '(injection_name, injection_value, sensitive_values) ←
    build_proxy_injection route credentials;
  '(body, body_sensitive_values) ← apply_body_substitutions route credentials body;
  let sensitive_values := sensitive_values ++ body_sensitive_values in
  Ok {| injection_name := injection_name; injection_value := injection_value;
        body := body; redaction := redaction_new sensitive_values |}.

Definition prepare_websocket_credentials (route : ProxyRouteConfig) (credentials : T)
    : result PreparedCredentials :=
  '(injection_name, injection_value, sensitive_values) ←
    build_proxy_injection route credentials;
  Ok {| injection_name := injection_name; injection_value := injection_value;
        body := []; redaction := redaction_new sensitive_values |}.

(** One round of the loop of [prepare_outbound_headers]. *)
Definition copy_header (inbound outbound : HeaderMap) (configured : bytes)
    : result HeaderMap :=
  name ← ok_or (name_from_bytes configured) "invalid HTTP header name";
  Ok (match hm_get inbound name with
      | Some value => hm_insert outbound name value
      | None => outbound
      end).

Definition prepare_outbound_headers (route : ProxyRouteConfig) (inbound : HeaderMap)
    (prepared : PreparedCredentials) : result HeaderMap :=
  _ ← validate_proxy_header_allowlist (allowed_request_headers route)
        (Some (name_as_str (injection_name prepared)));
  outbound ← try_fold (copy_header inbound) hm_new (allowed_request_headers route);
  let outbound := hm_remove outbound (injection_name prepared) in
  Ok (hm_insert outbound (injection_name prepared) (injection_value prepared)).
End Injection.
Arguments PreparedCredentials {HL}.

(** ** Occurrences *)

Definition occurs_at (p s before : bytes) : Prop := exists after, s = before ++ p ++ after.

Lemma occurs_at_cons p x s before :
  occurs_at p (x :: s) before <->
  (before = [] /\ p `prefix_of` (x :: s))
  \/ exists before', before = x :: before' /\ occurs_at p s before'.
Proof.
  split.
  - intros [after H]. destruct before as [|y before]; [left|right].
    + split; [done|]. by exists after.
    + simplify_eq/=. exists before. split; [done|]. by exists after.
  - intros [[-> [after H]]|(b & -> & [after ->])]; by exists after.
Qed.

Lemma occurrences_none p s : occurrences p s = 0 <-> forall b, ~ occurs_at p s b.
Proof.
  rewrite occurrences_zero. unfold infix_of, occurs_at. naive_solver.
Qed.

(** [occurrences p s = 1]: there is exactly one place where [p] stands. *)
Lemma occurrences_one p s :
  occurrences p s = 1 <->
  exists b, occurs_at p s b /\ forall b', occurs_at p s b' -> b' = b.
Proof.
  induction s as [|x s IH].
  - simpl. destruct (starts_with p []) eqn:E; split.
    + intros _. apply starts_with_spec, prefix_nil_inv in E as ->. exists [].
      split; [by exists []|]. intros b [a H]. by destruct b.
    + done.
    + done.
    + intros (b & [a H] & _). destruct b, p; done.
  - cbn [occurrences]. destruct (starts_with p (x :: s)) eqn:E.
    + apply starts_with_spec in E. rewrite Nat.add_1_l, Nat.succ_inj_wd, occurrences_none.
      setoid_rewrite occurs_at_cons. split.
      * intros Hn. exists []. split; [by left|]. intros b' [[-> _]|(b & -> & Hb)]; [done|].
        by destruct (Hn b).
      * intros (b & Hb & Hu) b' Hb'.
        assert ([] = b) as <- by (apply Hu; by left).
        discriminate (Hu (x :: b')). right. by exists b'.
    + apply starts_with_false in E. rewrite Nat.add_0_l, IH.
      setoid_rewrite occurs_at_cons. split.
      * intros (b & Hb & Hu). exists (x :: b). split; [right; by exists b|].
        intros b' [[_ ?]|(c & -> & Hc)]; [done|]. f_equal. by apply Hu.
      * intros (b & [[_ ?]|(c & -> & Hc)] & Hu); [done|]. exists c. split; [done|].
        intros d Hd. assert (x :: d = x :: c) as [= ->]; [|done].
        apply Hu. right. by exists d.
Qed.

(** ** Body substitution *)

Section Substitution.
Context {T : Type} `{CS : !CredentialSource T}.
Implicit Types (route : ProxyRouteConfig) (credentials : T).

(** [substituted route credentials subs body out secrets]: replacing, in order,
    the only occurrence of each placeholder by its credential turns [body] into
    [out], within the size limit at every step. *)
Inductive substituted route credentials
    : list (bytes * bytes) -> bytes -> bytes -> list bytes -> Prop :=
| substituted_nil body : substituted route credentials [] body body []
| substituted_cons placeholder key subs before after secret out secrets :
    valid_body_placeholder placeholder = true ->
    credential credentials key = Some secret ->
    (forall b, occurs_at placeholder (before ++ placeholder ++ after) b -> b = before) ->
    (len (before ++ secret ++ after) <= max_body_bytes route)%Z ->
    substituted route credentials subs (before ++ secret ++ after) out secrets ->
    substituted route credentials ((placeholder, key) :: subs)
      (before ++ placeholder ++ after) out (secret :: secrets).

Lemma substitute_one_spec route credentials output values placeholder key state :
  (max_body_bytes route < usize_max)%Z ->
  substitute_one route credentials (output, values) (placeholder, key) = Ok state <->
  exists secret before after,
    valid_body_placeholder placeholder = true
    /\ credential credentials key = Some secret
    /\ output = before ++ placeholder ++ after
    /\ (forall b, occurs_at placeholder output b -> b = before)
    /\ (len (before ++ secret ++ after) <= max_body_bytes route)%Z
    /\ state = (before ++ secret ++ after, values ++ [secret]).
Proof.
  intros Hmax. unfold substitute_one.
  assert (forall before secret after,
    output = before ++ placeholder ++ after ->
    saturating_add (saturating_sub (len output) (len placeholder)) (len secret) =
    Z.min usize_max (len (before ++ secret ++ after))) as Hlen.
  { intros before secret after ->. unfold saturating_add, saturating_sub, len.
    rewrite !length_app. lia. }
  split.
  - intros Hok. inv_ok. rewrite ?negb_false_iff in *. apply Nat.eqb_eq in H1.
    apply occurrences_one in H1 as (b & [after Hb] & Hu). exists x0, b, after.
    assert (take x2 output = b) as Ht.
    { apply Hu. exists (drop (x2 + length placeholder) output). by apply position_split. }
    pose proof (position_split _ _ _ H2) as Hs. rewrite Ht, Hb in Hs at 1.
    apply app_inv_head, app_inv_head in Hs.
    rewrite (Hlen b x0 after Hb) in H3. breflect in H3.
    subst state. rewrite Ht, <- Hs. split_and!; try done. lia.
  - intros (secret & before & after & Hv & Hc & Ho & Hu & Hl & ->).
    rewrite Hv, Hc. cbn [bail_if negb ok_or mbind result_bind].
    assert (occurrences placeholder output = 1) as ->.
    { apply occurrences_one. exists before. split; [by exists after|done]. }
    cbn [bail_if Nat.eqb negb ok_or mbind result_bind].
    destruct (position placeholder output) as [n|] eqn:Ep.
    2: { apply position_None in Ep. destruct Ep. by exists before, after. }
    cbn [ok_or mbind result_bind]. rewrite (Hlen _ secret _ Ho).
    rewrite (proj2 (Z.ltb_ge _ _)) by lia. cbn [bail_if mbind result_bind].
    pose proof (position_split _ _ _ Ep) as Hs.
    assert (take n output = before) as Ht by (apply Hu; by eexists).
    rewrite Ht. rewrite Ht, Ho in Hs at 1. apply app_inv_head, app_inv_head in Hs.
    by rewrite <- Hs.
Qed.

Lemma substitutions_spec route credentials subs body values out secrets :
  (max_body_bytes route < usize_max)%Z ->
  try_fold (substitute_one route credentials) (body, values) subs = Ok (out, secrets) <->
  exists more, secrets = values ++ more /\ substituted route credentials subs body out more.
Proof.
  intros Hmax. revert body values. induction subs as [|[ph key] subs IH]; intros body values.
  - simpl. split.
    + intros [= -> ->]. exists []. rewrite app_nil_r. split; [done|constructor].
    + intros (more & -> & H). inversion H; subst. by rewrite app_nil_r.
  - cbn [try_fold]. rewrite bind_ok. split.
    + intros ([b v] & H1 & H2).
      apply substitute_one_spec in H1 as (s & x & y & Hv & Hc & -> & Hu & Hl & [= -> ->]);
        [|done].
      apply IH in H2 as (more & -> & Hm). exists (s :: more).
      rewrite <- app_assoc. split; [done|]. by constructor.
    + intros (more & -> & H). inversion H as [|? ? ? x y s ? m Hv Hc Hu Hl Hm]; subst.
      exists (x ++ s ++ y, values ++ [s]). split.
      * apply substitute_one_spec; [done|]. by exists s, x, y.
      * apply IH. exists m. rewrite <- app_assoc. done.
Qed.

Lemma substituted_length route credentials subs body out secrets :
  substituted route credentials subs body out secrets ->
  (len body <= max_body_bytes route)%Z -> (len out <= max_body_bytes route)%Z.
Proof. induction 1; auto. Qed.

Lemma substituted_secrets route credentials subs body out secrets :
  substituted route credentials subs body out secrets ->
  Forall2 (fun e s => credential credentials e.2 = Some s) subs secrets.
Proof. induction 1; by constructor. Qed.
End Substitution.

(** ** Credentials and the redaction set *)

Section Prepared.
Context {HL : HeaderLib} {UL : UrlLib} {EL : EncodingLib}.
Context {T : Type} `{CS : !CredentialSource T}.
Implicit Types (route : ProxyRouteConfig) (credentials : T).

(** The credential keys a route names. *)
Definition injection_key route : bytes :=
  match injection route with
  | None => legacy_secret_key route
  | Some (Bearer key) | Some (Header key _ _) | Some (Basic _ key) => key
  end.
Definition credential_keys route : list bytes :=
  injection_key route :: (body_substitutions route).*2.

Lemma injection_material_ok route credentials name value sensitive :
  injection_material route credentials = Ok (name, value, sensitive) ->
  (exists secret, credential credentials (injection_key route) = Some secret
                  /\ secret ∈ sensitive)
  /\ (forall h keys, validate_route_injection route = Ok (h, keys) -> h = name).
Proof.
  unfold injection_material, injection_key, validate_route_injection.
  destruct (injection route) as [[]|]; intros Hok; inv_ok; simplify_eq/=;
    (split; [eexists; split; [eassumption|set_solver]|]);
    intros h keys Hv; inv_ok; by simplify_eq.
Qed.

Lemma build_proxy_injection_ok route credentials name value sensitive :
  build_proxy_injection route credentials = Ok (name, value, sensitive) ->
  exists n v s0,
    injection_material route credentials = Ok (n, v, s0)
    /\ injectable_header n = true
    /\ name_from_bytes n = Some name /\ value_from_bytes v = Some value
    /\ sensitive = s0 ++ [v].
Proof.
  unfold build_proxy_injection. intros Hok. inv_ok.
  simplify_eq. do 3 eexists. split_and!; try done. by apply negb_false_iff.
Qed.

(** The header and the value that the route's injection makes of its credential. *)
Inductive injects route (credentials : T) : bytes -> bytes -> Prop :=
| injects_legacy secret : injection route = None ->
    credential credentials (legacy_secret_key route) = Some secret ->
    injects route credentials (legacy_header route) (legacy_header_prefix route ++ secret)
| injects_bearer key secret : injection route = Some (Bearer key) ->
    credential credentials key = Some secret ->
    injects route credentials &"authorization" (&"Bearer " ++ secret)
| injects_header key header prefix secret : injection route = Some (Header key header prefix) ->
    credential credentials key = Some secret ->
    injects route credentials header (prefix ++ secret)
| injects_basic username key password : injection route = Some (Basic username key) ->
    credential credentials key = Some password ->
    injects route credentials &"authorization"
      (&"Basic " ++ base64_standard (username ++ &":" ++ password)).

Definition injected route (credentials : T) (name : HeaderName) (value : HeaderValue) : Prop :=
  exists n v, injects route credentials n v /\ injectable_header n = true
    /\ name_from_bytes n = Some name /\ value_from_bytes v = Some value.

Lemma prepare_credentials_injected route credentials input prepared :
  prepare_credentials route credentials input = Ok prepared ->
  injected route credentials (injection_name prepared) (injection_value prepared).
Proof.
  unfold prepare_credentials. intros Hok. inv_ok. subst prepared. simpl.
  match goal with H : build_proxy_injection _ _ = Ok _ |- _ =>
    apply build_proxy_injection_ok in H as (n & v & s0 & Hm & Hi & Hn & Hv & _) end.
  exists n, v. split_and!; try done. unfold injection_material in Hm.
  destruct (injection route) as [[]|] eqn:E; inv_ok; simplify_eq; by econstructor.
Qed.

(** Everything a prepared request carries that must not come back. *)
Lemma prepare_credentials_ok route credentials input prepared :
  prepare_credentials route credentials input = Ok prepared ->
  (max_body_bytes route < usize_max)%Z ->
  exists sensitive secrets,
    build_proxy_injection route credentials =
      Ok (injection_name prepared, injection_value prepared, sensitive)
    /\ (len input <= max_body_bytes route)%Z
    /\ substituted route credentials (body_substitutions route) input (body prepared) secrets
    /\ redaction prepared = redaction_new (sensitive ++ secrets).
Proof.
  unfold prepare_credentials, apply_body_substitutions. intros Hok Hmax. inv_ok.
  match goal with H : try_fold _ _ _ = Ok _ |- _ =>
    apply substitutions_spec in H as (more & Hmore & Hs); [|done] end.
  subst prepared. simpl in *. subst. breflect in *. by exists l, more.
Qed.

Lemma prepared_secret_pattern route credentials input prepared key secret :
  prepare_credentials route credentials input = Ok prepared ->
  (max_body_bytes route < usize_max)%Z ->
  key ∈ credential_keys route -> credential credentials key = Some secret ->
  secret <> [] -> secret ∈ patterns (redaction prepared).
Proof.
  intros Hp Hmax Hkey Hsec Hne.
  destruct (prepare_credentials_ok _ _ _ _ Hp Hmax) as (sens & secrets & Hb & _ & Hs & ->).
  apply elem_of_patterns. split; [done|]. exists secret.
  split; [|apply elem_of_encodings; set_solver]. apply elem_of_app.
  apply elem_of_cons in Hkey as [->|Hkey].
  - left. apply build_proxy_injection_ok in Hb as (n & v & s0 & Hm & _ & _ & _ & ->).
    apply injection_material_ok in Hm as [(x & Hx & Hin) _]. set_solver.
  - right. apply substituted_secrets in Hs.
    apply list_elem_of_fmap in Hkey as ([ph k] & -> & Hin).
    apply list_elem_of_lookup in Hin as [i Hi].
    destruct (Forall2_lookup_l _ _ _ _ _ Hs Hi) as (x & Hx & Hcx). simpl in *.
    apply list_elem_of_lookup. exists i. congruence.
Qed.

(** ** Outbound headers *)

Lemma copy_headers_ok inbound hs m :
  Forall (fun c => is_Some (name_from_bytes c)) hs ->
  exists out, try_fold (copy_header inbound) m hs = Ok out.
Proof.
  intros Hs. revert m. induction Hs as [|c hs [n Hn] Hs IH]; intros m; [by eexists|].
  cbn [try_fold]. destruct (copy_header inbound m c) eqn:E; [apply IH|].
  unfold copy_header in E. by rewrite Hn in E.
Qed.

Lemma copy_headers_get `{HW : !HeaderLaws} inbound hs m out n :
  try_fold (copy_header inbound) m hs = Ok out ->
  hm_get_all out n =
    if decide (Exists (fun c => name_from_bytes c = Some n) hs)
    then match hm_get inbound n with Some v => [v] | None => hm_get_all m n end
    else hm_get_all m n.
Proof.
  revert m. induction hs as [|c hs IH]; intros m; cbn [try_fold].
  - intros [= <-]. destruct (decide _) as [He|_]; [by apply Exists_nil in He|done].
  - intros (m' & Hc & Hok)%bind_ok. unfold copy_header in Hc. inv_ok. subst.
    rewrite (IH _ Hok).
    destruct (decide (Exists _ (c :: hs))) as [He|He]; rewrite Exists_cons in He;
      destruct (decide (Exists _ hs)) as [Hr|Hr]; try tauto.
    + destruct (hm_get inbound n) eqn:En; [done|]. destruct (hm_get inbound x) eqn:E0; [|done].
      rewrite hm_get_all_insert. case_decide; congruence.
    + destruct He as [He|He]; [|done]. assert (x = n) as -> by congruence.
      destruct (hm_get inbound n); [|done]. rewrite hm_get_all_insert. by case_decide.
    + destruct (hm_get inbound x); [|done]. rewrite hm_get_all_insert.
      case_decide; [|done]. subst. destruct He. by left.
Qed.

(** An allowlist entry names the header it spells. *)
Lemma allowed_header_name `{HW : !HeaderLaws} injected hs n :
  Forall (fun c => unsafe_header injected c = false) hs ->
  Exists (fun c => name_from_bytes c = Some n) hs <-> name_as_str n ∈ hs.
Proof.
  intros Hs. rewrite Exists_exists. rewrite Forall_forall in Hs. split.
  - intros (c & Hc & Hn).
    destruct (proj1 (unsafe_header_false _ _) (Hs c Hc)) as [Hl _].
    rewrite (name_from_bytes_lower _ _ Hn). by rewrite Hl.
  - intros Hin. exists (name_as_str n). split; [done|].
    apply Hs, unsafe_header_false in Hin as (Hl & [n' Hn'] & _).
    rewrite Hn'. f_equal. apply name_as_str_inj.
    by rewrite (name_from_bytes_lower _ _ Hn'), Hl.
Qed.

Lemma outbound_headers_get `{HW : !HeaderLaws} route inbound (prepared : PreparedCredentials) out :
  prepare_outbound_headers route inbound prepared = Ok out ->
  forall n, hm_get_all out n =
    if decide (n = injection_name prepared) then [injection_value prepared]
    else if decide (name_as_str n ∈ allowed_request_headers route)
    then option_list (hm_get inbound n) else [].
Proof.
  unfold prepare_outbound_headers. intros Hok n. inv_ok. subst out.
  apply validate_proxy_header_allowlist_ok in H as [Hs _].
  rewrite hm_get_all_insert, hm_get_all_remove.
  destruct (decide (n = injection_name prepared)) as [->|Hn]; [by rewrite decide_True|].
  rewrite !decide_False by congruence.
  rewrite (copy_headers_get _ _ _ _ n H0), hm_get_all_new.
  destruct (decide (Exists _ _)) as [He|He]; rewrite (allowed_header_name _ _ _ Hs) in He.
  - rewrite decide_True by done. by destruct (hm_get inbound n).
  - by rewrite decide_False.
Qed.

(** Once a request's credentials are prepared, no credential the route names
    (injected or substituted into the body) appears in the response the caller
    gets, buffered or streamed. *)
Theorem prepared_response_no_leak route credentials input prepared key secret chunks :
  prepare_credentials route credentials input = Ok prepared ->
  (max_body_bytes route < usize_max)%Z ->
  key ∈ credential_keys route -> credential credentials key = Some secret ->
  secret <> [] -> marker_proof secret = true ->
  (exists output, redact_bytes (redaction prepared) (concat chunks) = Some output
                  /\ ~ infix_of secret output)
  /\ (exists output, stream_all (into_streaming (redaction prepared)) chunks = Some output
                  /\ ~ infix_of secret output).
Proof.
  intros Hp Hmax Hkey Hsec Hne Hmp.
  pose proof (prepared_secret_pattern _ _ _ _ _ _ Hp Hmax Hkey Hsec Hne) as Hin.
  destruct (prepare_credentials_ok _ _ _ _ Hp Hmax) as (sens & secrets & _ & _ & _ & Hr).
  rewrite Hr in *. auto using stream_all_absent, redact_bytes_absent.
Qed.

(** C27: for a validated route the outbound headers are always built, and they are
    exactly the injected header with the credential, plus the first value the
    caller sent for each other allowlisted header; nothing else of the caller's
    reaches the upstream. *)
Theorem prepare_outbound_headers_exact `{HW : !HeaderLaws} name route insecure transparent
    credentials input inbound (prepared : PreparedCredentials) :
  validate_proxy_route name route insecure transparent = Ok () ->
  prepare_credentials route credentials input = Ok prepared ->
  exists out, prepare_outbound_headers route inbound prepared = Ok out
  /\ forall n, hm_get_all out n =
       if decide (n = injection_name prepared) then [injection_value prepared]
       else if decide (name_as_str n ∈ allowed_request_headers route)
       then option_list (hm_get inbound n) else [].
Proof.
  intros (base & h & keys & Hv)%validate_proxy_route_valid Hp.
  assert (max_body_bytes route < usize_max)%Z as Hmax.
  { pose proof (vr_body_limit _ _ _ _ _ _ Hv). unfold usize_max. lia. }
  destruct (prepare_credentials_ok _ _ _ _ Hp Hmax) as (sens & secrets & Hb & _).
  apply build_proxy_injection_ok in Hb as (n & v & s0 & Hm & _ & Hn & _).
  apply injection_material_ok in Hm as [_ Hh].
  specialize (Hh _ _ (vr_injection _ _ _ _ _ _ Hv)) as ->.
  destruct (vr_request_headers _ _ _ _ _ _ Hv) as [Hall Hnd].
  assert (Forall (fun c => unsafe_header (Some (name_as_str (injection_name prepared))) c
                           = false) (allowed_request_headers route)) as Hall'.
  { eapply Forall_impl; [exact Hall|]. intros c (? & ? & ? & Hi)%unsafe_header_false.
    apply unsafe_header_false. split_and!; try done. intros ? [= <-].
    rewrite (name_from_bytes_lower _ _ Hn), to_ascii_lowercase_idem. by apply Hi. }
  destruct (copy_headers_ok inbound (allowed_request_headers route) hm_new) as [out Ho].
  { eapply Forall_impl; [exact Hall|]. intros c. rewrite unsafe_header_false. naive_solver. }
  assert (exists out', prepare_outbound_headers route inbound prepared = Ok out')
    as [out' Ho'].
  { unfold prepare_outbound_headers.
    rewrite (proj2 (validate_proxy_header_allowlist_ok _ _ ()) (conj Hall' Hnd)).
    simpl. rewrite Ho. by eexists. }
  exists out'. split; [done|]. by apply outbound_headers_get.
Qed.

(** Whatever the route says, no hop-by-hop, cookie, authorization, host,
    forwarding or method-override header of the caller is forwarded: if the
    outbound headers are built, such a name is absent unless it is the injected
    one, which carries the credential only. *)
Theorem outbound_headers_no_smuggling `{HW : !HeaderLaws} route inbound
    (prepared : PreparedCredentials) out n :
  prepare_outbound_headers route inbound prepared = Ok out ->
  name_as_str n ∈ forbidden_headers ->
  hm_get_all out n =
    if decide (n = injection_name prepared) then [injection_value prepared] else [].
Proof.
  intros Ho Hf. rewrite (outbound_headers_get _ _ _ _ Ho). case_decide; [done|].
  rewrite decide_False; [done|]. intros Hin. unfold prepare_outbound_headers in Ho. inv_ok.
  apply validate_proxy_header_allowlist_ok in H0 as [Hs _]. rewrite Forall_forall in Hs.
  by apply Hs, unsafe_header_false in Hin as (_ & _ & ? & _).
Qed.
End Prepared.

(** C33: body substitution succeeds exactly when each of at most sixteen valid
    placeholders stands exactly once in the body it is applied to, its credential
    exists and the size limit holds after each step; the output replaces each
    placeholder by its credential and the credentials are returned in order. *)
Theorem apply_body_substitutions_iff `{CS : !CredentialSource T} route (credentials : T)
    input output secrets :
  (max_body_bytes route < usize_max)%Z ->
  apply_body_substitutions route credentials input = Ok (output, secrets) <->
  (len (body_substitutions route) <= 16)%Z
  /\ substituted route credentials (body_substitutions route) input output secrets.
Proof.
  intros Hmax. unfold apply_body_substitutions. rewrite bind_ok.
  setoid_rewrite substitutions_spec; [|done]. simpl. split.
  - intros ([] & Hl & more & -> & Hs). apply bail_if_ok, Z.ltb_ge in Hl. done.
  - intros [Hl Hs]. exists (). rewrite bail_if_ok, Z.ltb_ge. split; [done|]. by exists secrets.
Qed.

(** A prepared body never exceeds the route's limit. *)
Theorem prepared_body_bounded {HL : HeaderLib} {EL : EncodingLib}
    `{CS : !CredentialSource T} route (credentials : T) input prepared :
  (max_body_bytes route < usize_max)%Z ->
  prepare_credentials route credentials input = Ok prepared ->
  (len (body prepared) <= max_body_bytes route)%Z.
Proof.
  intros Hmax Hp. destruct (prepare_credentials_ok _ _ _ _ Hp Hmax) as (? & ? & _ & Hl & Hs & _).
  by eapply substituted_length.
Qed.

(** ** Witnesses *)

Import Models.

Definition sample_body : bytes := &"{'pw': '__AV_SECRET_PASSWORD__'}".

Definition sample_prepared : PreparedCredentials :=
  Build_PreparedCredentials &"authorization" &"Bearer s3cr+t/token"
    &"{'pw': 'hunter2'}"
    (redaction_new [&"s3cr+t/token"; &"Bearer s3cr+t/token"; &"hunter2"]).

Lemma sample_prepares :
  prepare_credentials Sample.route Sample.credentials sample_body = Ok sample_prepared.
Proof. reflexivity. Qed.

Lemma prepared_response_no_leak_witness :
  let chunks := [&"echo: hun"; &"ter2"] in
  (exists output, redact_bytes (redaction sample_prepared) (concat chunks) = Some output
                  /\ ~ infix_of &"hunter2" output)
  /\ (exists output, stream_all (into_streaming (redaction sample_prepared)) chunks
                     = Some output /\ ~ infix_of &"hunter2" output).
Proof.
  intros chunks.
  apply (prepared_response_no_leak Sample.route Sample.credentials sample_body
           sample_prepared &"PASSWORD").
  - apply sample_prepares.
  - reflexivity.
  - vm_compute. set_solver.
  - reflexivity.
  - discriminate.
  - reflexivity.
Defined.

Lemma prepare_outbound_headers_exact_witness :
  exists out,
    prepare_outbound_headers Sample.route
      [(&"authorization", &"Bearer caller"); (&"accept", &"text/html");
       (&"cookie", &"a=b"); (&"accept", &"text/plain")] sample_prepared = Ok out
    /\ forall n, hm_get_all out n =
         if decide (n = injection_name sample_prepared) then [injection_value sample_prepared]
         else if decide (name_as_str n ∈ allowed_request_headers Sample.route)
         then option_list (hm_get [(&"authorization", &"Bearer caller");
                (&"accept", &"text/html"); (&"cookie", &"a=b");
                (&"accept", &"text/plain")] n) else [].
Proof.
  apply (prepare_outbound_headers_exact &"items" Sample.route false true
           Sample.credentials sample_body).
  - apply Sample.route_valid.
  - apply sample_prepares.
Defined.

Lemma outbound_headers_no_smuggling_witness :
  hm_get_all [(&"accept", &"text/html"); (&"authorization", &"Bearer s3cr+t/token")] &"cookie"
  = if decide (&"cookie" = injection_name sample_prepared)
    then [injection_value sample_prepared] else [].
Proof.
  apply (outbound_headers_no_smuggling (HL := headers) Sample.route
    [(&"cookie", &"a=b"); (&"accept", &"text/html")]).
  - reflexivity.
  - vm_compute. set_solver.
Defined.

Lemma apply_body_substitutions_iff_witness :
  apply_body_substitutions Sample.route Sample.credentials sample_body =
    Ok (&"{'pw': 'hunter2'}", [&"hunter2"]) <->
  (len (body_substitutions Sample.route) <= 16)%Z
  /\ substituted Sample.route Sample.credentials (body_substitutions Sample.route)
       sample_body &"{'pw': 'hunter2'}" [&"hunter2"].
Proof. apply apply_body_substitutions_iff. reflexivity. Defined.

Lemma prepared_body_bounded_witness :
  (len (body sample_prepared) <= max_body_bytes Sample.route)%Z.
Proof.
  apply (prepared_body_bounded Sample.route Sample.credentials sample_body).
  - reflexivity.
  - apply sample_prepares.
Defined.
