(* ===== verification/WebSocket.v ===== *)
(** WebSocket: the upgrade checks of crates/av-credential-proxy/src/policy.rs
    ([is_websocket_attempt], [validate_websocket_handshake],
    [websocket_subprotocols] and the header helpers they use). *)

From Stdlib Require Import Ascii String.
From stdpp Require Import base list strings gmap.
From S2P Require Import Prelude Str BTree External Models Host Policy Request.

(** ** Definitions *)

Section Handshake.
Context {HL : HeaderLib} {EL : EncodingLib}.
Implicit Types (headers : HeaderMap).

Definition header_contains_token headers (name : HeaderName) (expected : bytes) : bool :=
  existsb (fun value =>
      match value_to_str value with
      | Some value => existsb (fun token => eq_ignore_ascii_case (trim token) expected)
                        (split "," value)
      | None => false
      end)
    (hm_get_all headers name).

Definition single_header_text headers (name : HeaderName) : result bytes :=
  match hm_get_all headers name with
  | [value] => ok_or (value_to_str value) "WebSocket header is not valid text"
  | _ => Err "WebSocket header must occur exactly once"
  end.

Definition single_header_equals headers (name : HeaderName) (expected : bytes) : bool :=
  match single_header_text headers name with
  | Ok value => eq_ignore_ascii_case value expected
  | Err _ => false
  end.

Definition single_optional_header_text headers (name : HeaderName) : result (option bytes) :=
  match hm_get_all headers name with
  | [] => Ok None
  | [value] => text ← ok_or (value_to_str value) "WebSocket header is not valid text";
               Ok (Some text)
  | _ => Err "WebSocket header may occur at most once"
  end.

(** The loop of [websocket_subprotocols]. *)
Fixpoint collect_subprotocols (unique protocols pieces : list bytes)
    : result (list bytes) :=
  match pieces with
  | [] => Ok protocols
  | protocol :: pieces =>
      _ ← bail_if (negb (valid_http_token protocol) || bool_decide (protocol ∈ unique))
            "WebSocket subprotocol list is invalid";
      collect_subprotocols (protocol :: unique) (protocols ++ [protocol]) pieces
  end.

Definition websocket_subprotocols headers : result (list bytes) :=
  value ← single_optional_header_text headers (from_static &"sec-websocket-protocol");
  match value with
  | None => Ok []
  | Some value => collect_subprotocols [] [] (trim <$> split "," value)
  end.

Definition is_websocket_attempt headers : bool :=
  existsb (fun name => hm_contains_key headers (from_static name))
    [&"upgrade"; &"sec-websocket-key"; &"sec-websocket-version";
     &"sec-websocket-protocol"; &"sec-websocket-extensions"]
  || header_contains_token headers (from_static &"connection") &"upgrade".

Definition validate_websocket_handshake headers (policy : ProxyWebSocketConfig)
    : result unit :=
  _ ← bail_if
        (negb (header_contains_token headers (from_static &"connection") &"upgrade")
         || negb (single_header_equals headers (from_static &"upgrade") &"websocket")
         || negb (single_header_equals headers (from_static &"sec-websocket-version") &"13")
         || hm_contains_key headers (from_static &"sec-websocket-extensions"))
        "WebSocket upgrade headers are invalid or extensions were requested";
  key ← single_header_text headers (from_static &"sec-websocket-key");
  _ ← bail_if (negb (match base64_standard_decode key with
                     | Some decoded => (len decoded =? 16)%Z
                     | None => false
                     end)) "WebSocket key is invalid";
  origin ← single_optional_header_text headers (from_static &"origin");
  _ ← match origin with
      | Some origin =>
          bail_if (negb (existsb (fun allowed => bool_decide (allowed = origin))
                           (allowed_origins policy)))
            "WebSocket Origin is not allowed"
      | None =>
          if negb (allow_missing_origin policy)
          then Err "WebSocket Origin is required" else Ok ()
      end;
  requested ← websocket_subprotocols headers;
  bail_if (existsb (fun protocol =>
             negb (existsb (fun allowed => bool_decide (allowed = protocol))
                     (allowed_subprotocols policy))) requested)
    "WebSocket subprotocol is not allowed".

(** ** Contract of a handshake *)

(** The only value of a header, as text *)
Definition only_text headers (name text : bytes) : Prop :=
  exists v, hm_get_all headers (from_static name) = [v] /\ value_to_str v = Some text.
Definition absent headers (name : bytes) : Prop :=
  hm_get_all headers (from_static name) = [].

Definition subprotocols_requested headers (protocols : list bytes) : Prop :=
  (absent headers &"sec-websocket-protocol" /\ protocols = [])
  \/ exists text, only_text headers &"sec-websocket-protocol" text
     /\ protocols = trim <$> split "," text
     /\ Forall (fun p => valid_http_token p = true) protocols /\ NoDup protocols.

Record handshake_allowed headers (policy : ProxyWebSocketConfig) : Prop := {
  ha_connection : header_contains_token headers (from_static &"connection") &"upgrade" = true;
  ha_upgrade : exists text, only_text headers &"upgrade" text
                 /\ to_ascii_lowercase text = &"websocket";
  ha_version : only_text headers &"sec-websocket-version" &"13";
  ha_extensions : absent headers &"sec-websocket-extensions";
  ha_key : exists key decoded, only_text headers &"sec-websocket-key" key
             /\ base64_standard_decode key = Some decoded /\ length decoded = 16;
  ha_origin : (absent headers &"origin" /\ allow_missing_origin policy = true)
              \/ exists origin, only_text headers &"origin" origin
                 /\ origin ∈ allowed_origins policy;
  ha_subprotocols : exists protocols, subprotocols_requested headers protocols
                      /\ protocols ⊆ allowed_subprotocols policy;
}.

(** ** Lemmas *)

Lemma single_header_text_ok headers name text :
  single_header_text headers (from_static name) = Ok text <-> only_text headers name text.
Proof.
  unfold single_header_text, only_text. destruct (hm_get_all _ _) as [|v [|]].
  - split; [done|]. by intros (? & [=] & _).
  - rewrite ok_or_ok. split; [by exists v|]. by intros (? & [= <-] & ?).
  - split; [done|]. by intros (? & [=] & _).
Qed.

Lemma single_header_equals_ok headers name expected :
  single_header_equals headers (from_static name) expected = true <->
  exists text, only_text headers name text
               /\ to_ascii_lowercase text = to_ascii_lowercase expected.
Proof.
  unfold single_header_equals. destruct (single_header_text _ _) as [t|e] eqn:E.
  - apply single_header_text_ok in E as (v & Hv & Ht). unfold eq_ignore_ascii_case.
    rewrite bool_decide_eq_true. split.
    + intros H. exists t. split; [by exists v|done].
    + intros (t' & (v' & Hv' & Ht') & H). congruence.
  - split; [done|]. intros (t & Ht & _). apply single_header_text_ok in Ht. congruence.
Qed.

Lemma single_optional_header_text_ok headers name o :
  single_optional_header_text headers (from_static name) = Ok o <->
  (absent headers name /\ o = None) \/ exists text, only_text headers name text /\ o = Some text.
Proof.
  unfold single_optional_header_text, only_text, absent.
  destruct (hm_get_all _ _) as [|v [|]].
  - split; [intros [= <-]; by left|]. by intros [[_ ->]|(? & (? & [=] & _) & _)].
  - rewrite bind_ok. setoid_rewrite ok_or_ok. split.
    + intros (t & Ht & [= <-]). right. exists t. split; [by exists v|done].
    + intros [[[=] _]|(t & (? & [= <-] & Ht) & ->)]. by exists t.
  - split; [done|]. by intros [[[=] _]|(? & (? & [=] & _) & _)].
Qed.

Lemma collect_subprotocols_ok unique protocols pieces out :
  collect_subprotocols unique protocols pieces = Ok out <->
  out = protocols ++ pieces /\ Forall (fun p => valid_http_token p = true) pieces
  /\ NoDup pieces /\ Forall (fun p => p ∉ unique) pieces.
Proof.
  revert unique protocols. induction pieces as [|p pieces IH]; intros unique protocols.
  - simpl. rewrite app_nil_r. split.
    + intros [= <-]. repeat split; constructor.
    + by intros (-> & _).
  - cbn [collect_subprotocols]. rewrite !Forall_cons, NoDup_cons.
    destruct (valid_http_token p) eqn:Ep; simpl; [|naive_solver].
    case_bool_decide as Hu; simpl; [naive_solver|].
    rewrite IH, <- app_assoc. simpl. rewrite !Forall_forall.
    setoid_rewrite not_elem_of_cons. naive_solver.
Qed.

Lemma websocket_subprotocols_ok headers protocols :
  websocket_subprotocols headers = Ok protocols <-> subprotocols_requested headers protocols.
Proof.
  unfold websocket_subprotocols, subprotocols_requested. rewrite bind_ok.
  setoid_rewrite single_optional_header_text_ok. split.
  - intros (o & [[Ha ->]|(t & Ht & ->)] & H); [left; naive_solver|].
    apply collect_subprotocols_ok in H as (-> & ? & ? & _). right. by exists t.
  - intros [[Ha ->]|(t & Ht & -> & Hv & Hn)].
    + exists None. split; [by left|done].
    + exists (Some t). split; [right; by exists t|]. apply collect_subprotocols_ok.
      split_and!; try done. apply Forall_forall. set_solver.
Qed.

Lemma existsb_not_allowed allowed requested :
  existsb (fun protocol : bytes =>
    negb (existsb (fun a => bool_decide (a = protocol)) allowed)) requested = false <->
  requested ⊆ allowed.
Proof.
  rewrite existsb_false, Forall_forall. unfold subseteq, list_subseteq. split.
  - intros H x Hx. specialize (H x Hx). cbv beta in H.
    by rewrite negb_false_iff, existsb_elem in H.
  - intros H x Hx. rewrite negb_false_iff, existsb_elem. by apply H.
Qed.

Lemma origin_check_ok (policy : ProxyWebSocketConfig) o u :
  match o with
  | Some origin =>
      bail_if (negb (existsb (fun allowed => bool_decide (allowed = origin))
                       (allowed_origins policy))) "WebSocket Origin is not allowed"
  | None => if negb (allow_missing_origin policy)
            then Err "WebSocket Origin is required" else Ok ()
  end = Ok u <->
  match o with
  | Some origin => origin ∈ allowed_origins policy
  | None => allow_missing_origin policy = true
  end.
Proof.
  destruct o as [origin|].
  - by rewrite bail_if_ok, negb_false_iff, existsb_elem.
  - destruct u, (allow_missing_origin policy); simpl; done.
Qed.

Lemma hm_contains_key_false headers name :
  hm_contains_key headers (from_static name) = false <-> absent headers name.
Proof. unfold hm_contains_key, absent. by destruct (hm_get_all _ _). Qed.

(** Only "13" itself lower-cases to "13". *)
Lemma lowercase_13 text : to_ascii_lowercase text = &"13" -> text = &"13".
Proof.
  destruct text as [|a [|b [|]]]; try done. intros [= H1 H2].
  by rewrite (to_lower_only "1"%char a), (to_lower_only "3"%char b).
Qed.

(** A WebSocket upgrade is accepted exactly when it meets the policy: one
    Upgrade, version and 16-byte key, no extensions, an exact allowed Origin (or
    none where that is permitted) and only allowed, well-formed, distinct
    subprotocols. *)
Theorem validate_websocket_handshake_iff headers policy :
  validate_websocket_handshake headers policy = Ok () <-> handshake_allowed headers policy.
Proof.
  unfold validate_websocket_handshake. split.
  - intros Hok. inv_ok. rewrite !orb_false_iff, !negb_false_iff in H. destruct H as (((Hc & Hu) & Hv) & He).
    apply single_header_equals_ok in Hu, Hv. apply hm_contains_key_false in He.
    apply single_header_text_ok in H0. apply negb_false_iff in H1.
    destruct (base64_standard_decode x0) as [d|] eqn:Ed; [|done]. apply Z.eqb_eq in H1.
    apply single_optional_header_text_ok in H2. apply origin_check_ok in H3.
    apply websocket_subprotocols_ok in H4. apply existsb_not_allowed in Hok.
    destruct Hv as (t & Ht & Hl%lowercase_13). subst t. split; try done.
    + exists x0, d. unfold len in H1. split_and!; [done|done|lia].
    + destruct H2 as [[Ha ->]|(o & Ho & ->)]; [by left|right; by exists o].
    + by exists x4.
  - intros [Hc (t & Ht & Hl) Hv He (k & d & Hk & Hd & Hlen) Ho (ps & Hps & Hsub)].
    rewrite Hc, (proj2 (single_header_equals_ok headers &"upgrade" &"websocket"))
      by (by exists t).
    rewrite (proj2 (single_header_equals_ok headers &"sec-websocket-version" &"13"))
      by (by exists &"13").
    rewrite (proj2 (hm_contains_key_false _ _) He). cbn [orb negb bail_if mbind result_bind].
    rewrite (proj2 (single_header_text_ok _ _ _) Hk). cbn [mbind result_bind].
    rewrite Hd. unfold len at 1. rewrite Hlen. cbn [negb bail_if mbind result_bind Z.of_nat Z.eqb].
    assert (exists o, single_optional_header_text headers (from_static &"origin") = Ok o
      /\ match o with Some origin => origin ∈ allowed_origins policy
         | None => allow_missing_origin policy = true end) as (o & Hopt & Hor).
    { destruct Ho as [[Ha Hm]|(o & Ho & Hin)]; [exists None|exists (Some o)];
        (split; [apply single_optional_header_text_ok|done]); [by left|right; by exists o]. }
    rewrite Hopt. cbn [mbind result_bind].
    rewrite (proj2 (origin_check_ok policy o ()) Hor). cbn [mbind result_bind].
    rewrite (proj2 (websocket_subprotocols_ok _ _) Hps). cbn [mbind result_bind].
    apply bail_if_ok. by apply existsb_not_allowed.
Qed.
End Handshake.

Lemma valid_http_token_text t :
  valid_http_token t = true ->
  ","%char ∉ t /\ Forall (fun b => (code b < 128)%N /\ is_whitespace (code b) = false) t.
Proof.
  unfold valid_http_token. rewrite andb_true_iff, forallb_true, Forall_forall.
  intros [_ H]. split.
  - intros Hin. by specialize (H _ Hin).
  - apply Forall_forall. intros b Hb. specialize (H b Hb). revert H. clear.
    intros H. assert ((code b <? 128)%N && negb (is_whitespace (code b)) = true) as Hx.
    { revert H. by apply (byte_impl (fun byte => is_ascii_alphanumeric byte
        || one_of "!#$%&'*+-.^_`|~" byte)
        (fun b => (code b <? 128)%N && negb (is_whitespace (code b))) b). }
    by rewrite andb_true_iff, negb_true_iff, N.ltb_lt in Hx.
Qed.

(** Printing distinct tokens as a subprotocol list and parsing the header
    gives the tokens back, in order, with any surrounding spaces removed. *)
Theorem websocket_subprotocols_roundtrip {HL : HeaderLib} (headers : HeaderMap) v tokens :
  hm_get_all headers (from_static &"sec-websocket-protocol") = [v] ->
  value_to_str v = Some (join "," ((fun t => &" " ++ t) <$> tokens)) ->
  tokens <> [] -> Forall (fun t => valid_http_token t = true) tokens -> NoDup tokens ->
  websocket_subprotocols headers = Ok tokens.
Proof.
  intros Hv Ht Hne Htok Hnd. apply websocket_subprotocols_ok. right.
  eexists. split; [by exists v|].
  rewrite split_join.
  2: { by destruct tokens. }
  2: { apply Forall_fmap. eapply Forall_impl; [exact Htok|]. intros t [Hc _]%valid_http_token_text.
       simpl. by apply not_elem_of_cons. }
  rewrite <- list_fmap_compose. split; [|done].
  rewrite <- (list_fmap_id tokens) at 1. apply list_fmap_ext.
  intros i t Hi. simpl. symmetry. apply (trim_space_text t).
  rewrite Forall_forall in Htok.
  apply valid_http_token_text, Htok. by eapply list_elem_of_lookup_2.
Qed.

Import Models.

Lemma websocket_subprotocols_roundtrip_witness :
  websocket_subprotocols [(&"sec-websocket-protocol", &" chat, superchat")] =
    Ok [&"chat"; &"superchat"].
Proof.
  apply (websocket_subprotocols_roundtrip (HL := headers) _ &" chat, superchat").
  - reflexivity.
  - reflexivity.
  - discriminate.
  - repeat constructor.
  - apply (bool_decide_eq_true_1 (NoDup [&"chat"; &"superchat"])). reflexivity.
Defined.

Definition sample_handshake : list (bytes * bytes) :=
  [(&"connection", &"keep-alive, Upgrade"); (&"upgrade", &"WebSocket");
   (&"sec-websocket-version", &"13"); (&"sec-websocket-key", &"dGhlIHNhbXBsZSBub25jZQ==");
   (&"origin", &"https://app.example.test"); (&"sec-websocket-protocol", &"chat")].

Example handshake_examples :
  validate_websocket_handshake sample_handshake Sample.ws = Ok ()
  /\ is_websocket_attempt sample_handshake = true
  /\ is_ok (validate_websocket_handshake
       (hm_insert sample_handshake &"origin" &"https://evil.example.test") Sample.ws) = false
  /\ is_ok (validate_websocket_handshake
       (hm_insert sample_handshake &"sec-websocket-key" &"c2hvcnQ=") Sample.ws) = false.
Proof. vm_compute. done. Qed.
