(* ===== verification/Ip.v ===== *)
(** Ip: classification of resolved tunnel addresses
    (crates/av-credential-proxy/src/catalog.rs: [tunnel_ip_allowed],
    [ipv4_in_prefix]).

    Addresses are octets and 16-bit segments, as [std::net] gives them; the
    predicates of [std::net] the source calls are written out.  The reference is
    a table of address ranges. *)

From Stdlib Require Import Ascii String.
From stdpp Require Import base list.
From S2P Require Import Prelude Str.
Local Open Scope Z_scope.

(** ** [std::net] *)

Record Ipv4Addr := { octet0 : Z; octet1 : Z; octet2 : Z; octet3 : Z }.
Record Ipv6Addr := {
  seg0 : Z; seg1 : Z; seg2 : Z; seg3 : Z; seg4 : Z; seg5 : Z; seg6 : Z; seg7 : Z;
}.
Inductive IpAddr := V4 (address : Ipv4Addr) | V6 (address : Ipv6Addr).

Definition v4_is_unspecified (a : Ipv4Addr) : bool :=
  (octet0 a =? 0) && (octet1 a =? 0) && (octet2 a =? 0) && (octet3 a =? 0).
Definition v4_is_loopback (a : Ipv4Addr) : bool := octet0 a =? 127.
Definition v4_is_link_local (a : Ipv4Addr) : bool := (octet0 a =? 169) && (octet1 a =? 254).
Definition v4_is_multicast (a : Ipv4Addr) : bool := (224 <=? octet0 a) && (octet0 a <=? 239).
Definition v4_is_broadcast (a : Ipv4Addr) : bool :=
  (octet0 a =? 255) && (octet1 a =? 255) && (octet2 a =? 255) && (octet3 a =? 255).
Definition v4_is_documentation (a : Ipv4Addr) : bool :=
  (octet0 a =? 192) && (octet1 a =? 0) && (octet2 a =? 2)
  || (octet0 a =? 198) && (octet1 a =? 51) && (octet2 a =? 100)
  || (octet0 a =? 203) && (octet1 a =? 0) && (octet2 a =? 113).
Definition v4_is_private (a : Ipv4Addr) : bool :=
  (octet0 a =? 10)
  || (octet0 a =? 172) && (16 <=? octet1 a) && (octet1 a <=? 31)
  || (octet0 a =? 192) && (octet1 a =? 168).

(** [u32::from] *)
Definition u32_of (a : Ipv4Addr) : Z :=
  octet0 a * 2 ^ 24 + octet1 a * 2 ^ 16 + octet2 a * 2 ^ 8 + octet3 a.
(** [u32::MAX.checked_shl(n).unwrap_or(0)] *)
Definition u32_max_shl (n : Z) : Z :=
  if n <? 32 then Z.shiftl (2 ^ 32 - 1) n mod 2 ^ 32 else 0.

Definition v6_is_unspecified (a : Ipv6Addr) : bool :=
  (seg0 a =? 0) && (seg1 a =? 0) && (seg2 a =? 0) && (seg3 a =? 0)
  && (seg4 a =? 0) && (seg5 a =? 0) && (seg6 a =? 0) && (seg7 a =? 0).
Definition v6_is_loopback (a : Ipv6Addr) : bool :=
  (seg0 a =? 0) && (seg1 a =? 0) && (seg2 a =? 0) && (seg3 a =? 0)
  && (seg4 a =? 0) && (seg5 a =? 0) && (seg6 a =? 0) && (seg7 a =? 1).
Definition v6_is_multicast (a : Ipv6Addr) : bool := Z.land (seg0 a) 0xff00 =? 0xff00.
Definition v6_is_unicast_link_local (a : Ipv6Addr) : bool :=
  Z.land (seg0 a) 0xffc0 =? 0xfe80.
Definition v6_is_unique_local (a : Ipv6Addr) : bool := Z.land (seg0 a) 0xfe00 =? 0xfc00.
Definition to_ipv4_mapped (a : Ipv6Addr) : option Ipv4Addr :=
  if (seg0 a =? 0) && (seg1 a =? 0) && (seg2 a =? 0) && (seg3 a =? 0)
     && (seg4 a =? 0) && (seg5 a =? 0xffff)
  then Some {| octet0 := seg6 a / 256; octet1 := seg6 a mod 256;
               octet2 := seg7 a / 256; octet3 := seg7 a mod 256 |}
  else None.

(** ** catalog.rs *)

Definition ipv4_in_prefix (address network : Ipv4Addr) (prefix : Z) : bool :=
  let mask := u32_max_shl (32 - prefix) in
  Z.land (u32_of address) mask =? Z.land (u32_of network) mask.

Definition tunnel_ipv4_allowed (address : Ipv4Addr) (allow_private_ips : bool) : bool :=
  if v4_is_unspecified address || v4_is_loopback address || v4_is_link_local address
     || v4_is_multicast address || v4_is_broadcast address || v4_is_documentation address
     || (octet0 address =? 0) || (240 <=? octet0 address)
     || ipv4_in_prefix address (Build_Ipv4Addr 192 0 0 0) 24
  then false
  else allow_private_ips
       || (negb (v4_is_private address)
           && negb (ipv4_in_prefix address (Build_Ipv4Addr 100 64 0 0) 10)
           && negb (ipv4_in_prefix address (Build_Ipv4Addr 198 18 0 0) 15)).

Definition tunnel_ip_allowed (address : IpAddr) (allow_private_ips : bool) : bool :=
  match address with
  | V4 address => tunnel_ipv4_allowed address allow_private_ips
  | V6 address =>
      match to_ipv4_mapped address with
      | Some address => tunnel_ipv4_allowed address allow_private_ips
      | None =>
          if v6_is_unspecified address || v6_is_loopback address || v6_is_multicast address
             || v6_is_unicast_link_local address
             || (seg0 address =? 0x2001) && (seg1 address =? 0x0db8)
             || (seg0 address =? 0x2001) && (seg1 address =? 0)
             || (seg0 address =? 0x2002)
          then false
          else if v6_is_unique_local address then allow_private_ips
          else Z.land (seg0 address) 0xe000 =? 0x2000
      end
  end.

(** ** Reference: ranges *)

(** [a.b.c.d/p] as the interval of its 32-bit values *)
Definition cidr (a b c d p : Z) : Z * Z :=
  let lo := a * 2 ^ 24 + b * 2 ^ 16 + c * 2 ^ 8 + d in (lo, lo + 2 ^ (32 - p) - 1).

(** "This network", loopback, link-local (metadata), IETF protocol assignments,
    the three documentation networks, multicast and reserved/broadcast *)
Definition always_denied : list (Z * Z) :=
  [cidr 0 0 0 0 8; cidr 127 0 0 0 8; cidr 169 254 0 0 16; cidr 192 0 0 0 24;
   cidr 192 0 2 0 24; cidr 198 51 100 0 24; cidr 203 0 113 0 24; cidr 224 0 0 0 4;
   cidr 240 0 0 0 4].
(** RFC 1918, carrier-grade NAT and benchmarking *)
Definition private_ranges : list (Z * Z) :=
  [cidr 10 0 0 0 8; cidr 172 16 0 0 12; cidr 192 168 0 0 16; cidr 100 64 0 0 10;
   cidr 198 18 0 0 15].

Definition outside (ranges : list (Z * Z)) (v : Z) : Prop :=
  Forall (fun r => v < r.1 \/ r.2 < v) ranges.

Definition wf_ipv4 (a : Ipv4Addr) : Prop :=
  0 <= octet0 a < 256 /\ 0 <= octet1 a < 256 /\ 0 <= octet2 a < 256 /\ 0 <= octet3 a < 256.
Definition wf_ipv6 (a : Ipv6Addr) : Prop :=
  Forall (fun s => 0 <= s < 65536)
    [seg0 a; seg1 a; seg2 a; seg3 a; seg4 a; seg5 a; seg6 a; seg7 a].

(** The 128-bit prefixes matter only in their first 32 bits. *)
Definition ipv6_allowed (a : Ipv6Addr) (allow_private_ips : bool) : Prop :=
  (0x2000 <= seg0 a < 0x4000 /\ seg0 a <> 0x2002
     /\ ~ (seg0 a = 0x2001 /\ (seg1 a = 0x0db8 \/ seg1 a = 0)))
  \/ (0xfc00 <= seg0 a < 0xfe00 /\ allow_private_ips = true).

(** ** Lemmas *)

Lemma land_high_mask v n :
  0 <= v < 2 ^ 32 -> 0 <= n < 32 ->
  Z.land v (u32_max_shl n) = Z.shiftl (Z.shiftr v n) n.
Proof.
  intros Hv Hn. unfold u32_max_shl. rewrite (proj2 (Z.ltb_lt _ _)) by lia.
  apply Z.bits_inj'. intros i Hi. rewrite Z.land_spec.
  change (2 ^ 32 - 1) with (Z.ones 32).
  destruct (Z.lt_ge_cases i 32) as [H32|H32].
  - rewrite Z.mod_pow2_bits_low by lia. destruct (Z.lt_ge_cases i n).
    + by rewrite !Z.shiftl_spec_low, andb_false_r by lia.
    + rewrite !Z.shiftl_spec by lia. rewrite Z.ones_spec_low by lia.
      rewrite Z.shiftr_spec, andb_true_r by lia. f_equal. lia.
  - rewrite Z.mod_pow2_bits_high by lia. rewrite andb_false_r, Z.shiftl_spec by lia.
    rewrite Z.shiftr_spec by lia. replace (i - n + n) with i by lia.
    rewrite <- (Z.mod_small v (2 ^ 32)) by lia. by rewrite Z.mod_pow2_bits_high by lia.
Qed.

Lemma shift_interval v w n :
  0 <= n -> 0 <= w -> w mod 2 ^ n = 0 ->
  Z.shiftl (Z.shiftr v n) n = Z.shiftl (Z.shiftr w n) n <-> w <= v <= w + 2 ^ n - 1.
Proof.
  intros Hn Hw Hm. rewrite !Z.shiftl_mul_pow2, !Z.shiftr_div_pow2 by lia.
  assert (0 < 2 ^ n) as Hp by (apply Z.pow_pos_nonneg; lia).
  pose proof (Z.div_mod v (2 ^ n)). pose proof (Z.mod_pos_bound v (2 ^ n)).
  pose proof (Z.div_mod w (2 ^ n)). split; [nia|]. intros Hr.
  assert (v / 2 ^ n = w / 2 ^ n) as ->; [|done].
  symmetry. apply Z.div_unique_pos with (v - w); lia.
Qed.

Lemma u32_of_bound a : wf_ipv4 a -> 0 <= u32_of a < 2 ^ 32.
Proof. unfold wf_ipv4, u32_of. lia. Qed.

Lemma ipv4_in_prefix_spec a net p :
  wf_ipv4 a -> wf_ipv4 net -> 0 < p <= 32 -> u32_of net mod 2 ^ (32 - p) = 0 ->
  ipv4_in_prefix a net p = true <->
  u32_of net <= u32_of a <= u32_of net + 2 ^ (32 - p) - 1.
Proof.
  intros Ha%u32_of_bound Hn%u32_of_bound Hp Hm. unfold ipv4_in_prefix.
  rewrite Z.eqb_eq, !land_high_mask by lia. apply shift_interval; lia.
Qed.

Lemma ipv4_in_prefix_false a net p :
  wf_ipv4 a -> wf_ipv4 net -> 0 < p <= 32 -> u32_of net mod 2 ^ (32 - p) = 0 ->
  ipv4_in_prefix a net p = false <->
  u32_of a < u32_of net \/ u32_of net + 2 ^ (32 - p) - 1 < u32_of a.
Proof.
  intros. rewrite <- not_true_iff_false, ipv4_in_prefix_spec by done. lia.
Qed.

(** An octet test and the range it stands for. *)
Ltac octet_range :=
  match goal with H : wf_ipv4 ?a |- _ => destruct a as [o0 o1 o2 o3] end;
  unfold wf_ipv4, u32_of, cidr, v4_is_loopback, v4_is_link_local, v4_is_multicast,
    v4_is_documentation, v4_is_private, outside in *;
  cbn [octet0 octet1 octet2 octet3 fst snd] in *;
  rewrite ?Forall_cons, ?Forall_nil; breflect; cbn [fst snd]; lia.

Section Ranges.
Context (a : Ipv4Addr) (Ha : wf_ipv4 a).

Lemma first_octet_range : (octet0 a =? 0) = false <-> outside [cidr 0 0 0 0 8] (u32_of a).
Proof using Ha. octet_range. Qed.
Lemma loopback_range : v4_is_loopback a = false <-> outside [cidr 127 0 0 0 8] (u32_of a).
Proof using Ha. octet_range. Qed.
Lemma link_local_range :
  v4_is_link_local a = false <-> outside [cidr 169 254 0 0 16] (u32_of a).
Proof using Ha. octet_range. Qed.
Lemma multicast_range : v4_is_multicast a = false <-> outside [cidr 224 0 0 0 4] (u32_of a).
Proof using Ha. octet_range. Qed.
Lemma reserved_range : (240 <=? octet0 a) = false <-> outside [cidr 240 0 0 0 4] (u32_of a).
Proof using Ha. octet_range. Qed.
Lemma documentation_range :
  v4_is_documentation a = false <->
  outside [cidr 192 0 2 0 24; cidr 198 51 100 0 24; cidr 203 0 113 0 24] (u32_of a).
Proof using Ha. octet_range. Qed.
Lemma private_range :
  v4_is_private a = false <->
  outside [cidr 10 0 0 0 8; cidr 172 16 0 0 12; cidr 192 168 0 0 16] (u32_of a).
Proof using Ha. octet_range. Qed.

Lemma prefix_range b c d e p :
  wf_ipv4 (Build_Ipv4Addr b c d e) -> 0 < p <= 32 ->
  u32_of (Build_Ipv4Addr b c d e) mod 2 ^ (32 - p) = 0 ->
  ipv4_in_prefix a (Build_Ipv4Addr b c d e) p = false <->
  outside [cidr b c d e p] (u32_of a).
Proof using Ha.
  intros Hn Hp Hm. rewrite <- not_true_iff_false, ipv4_in_prefix_spec by done.
  unfold outside, cidr. rewrite Forall_singleton. cbn [fst snd].
  change (u32_of (Build_Ipv4Addr b c d e)) with
    (b * 2 ^ 24 + c * 2 ^ 16 + d * 2 ^ 8 + e). lia.
Qed.

(** Unspecified and broadcast lie in ranges denied by their first octet. *)
Lemma covered_by_first_octet :
  (octet0 a =? 0) = false -> (240 <=? octet0 a) = false ->
  v4_is_unspecified a = false /\ v4_is_broadcast a = false.
Proof using Ha.
  intros H0 H1. breflect in *. unfold v4_is_unspecified, v4_is_broadcast. breflect. lia.
Qed.

Lemma outside_app xs ys v : outside (xs ++ ys) v <-> outside xs v /\ outside ys v.
Proof using. apply Forall_app. Qed.

(** The always-denied test as one conjunction. *)
Lemma denied_ranges :
  v4_is_unspecified a || v4_is_loopback a || v4_is_link_local a || v4_is_multicast a
  || v4_is_broadcast a || v4_is_documentation a || (octet0 a =? 0) || (240 <=? octet0 a)
  || ipv4_in_prefix a (Build_Ipv4Addr 192 0 0 0) 24 = false <->
  outside always_denied (u32_of a).
Proof using Ha.
  change always_denied with
    ([cidr 0 0 0 0 8] ++ [cidr 127 0 0 0 8] ++ [cidr 169 254 0 0 16] ++ [cidr 192 0 0 0 24]
     ++ [cidr 192 0 2 0 24; cidr 198 51 100 0 24; cidr 203 0 113 0 24]
     ++ [cidr 224 0 0 0 4] ++ [cidr 240 0 0 0 4]).
  rewrite !outside_app, !orb_false_iff.
  rewrite <- first_octet_range, <- loopback_range, <- link_local_range, <- multicast_range,
    <- reserved_range, <- documentation_range,
    <- prefix_range by (done || lia || by repeat split).
  pose proof covered_by_first_octet. naive_solver.
Qed.

Lemma not_private_ranges :
  negb (v4_is_private a) && negb (ipv4_in_prefix a (Build_Ipv4Addr 100 64 0 0) 10)
  && negb (ipv4_in_prefix a (Build_Ipv4Addr 198 18 0 0) 15) = true <->
  outside private_ranges (u32_of a).
Proof using Ha.
  change private_ranges with
    ([cidr 10 0 0 0 8; cidr 172 16 0 0 12; cidr 192 168 0 0 16]
     ++ [cidr 100 64 0 0 10] ++ [cidr 198 18 0 0 15]).
  rewrite !outside_app, !andb_true_iff, !negb_true_iff.
  rewrite <- private_range, <- !prefix_range by (done || lia || by repeat split). tauto.
Qed.

Lemma tunnel_ipv4_allowed_spec allow :
  tunnel_ipv4_allowed a allow = true <->
  outside always_denied (u32_of a) /\ (allow = true \/ outside private_ranges (u32_of a)).
Proof using Ha.
  rewrite <- denied_ranges, <- not_private_ranges, <- orb_true_iff.
  unfold tunnel_ipv4_allowed. destruct (_ || ipv4_in_prefix a _ 24); naive_solver.
Qed.
End Ranges.

(** ** IPv6 *)

Lemma land_top_bits s n :
  0 <= s < 2 ^ 16 -> 0 <= n <= 16 ->
  Z.land s (Z.shiftl (Z.ones (16 - n)) n) = Z.shiftl (Z.shiftr s n) n.
Proof.
  intros Hs Hn. apply Z.bits_inj'. intros i Hi. rewrite Z.land_spec.
  destruct (Z.lt_ge_cases i n).
  - by rewrite !Z.shiftl_spec_low, andb_false_r by lia.
  - rewrite !Z.shiftl_spec, Z.shiftr_spec by lia. replace (i - n + n) with i by lia.
    destruct (Z.lt_ge_cases i 16).
    + by rewrite Z.ones_spec_low, andb_true_r by lia.
    + rewrite <- (Z.mod_small s (2 ^ 16)) by lia. by rewrite Z.mod_pow2_bits_high by lia.
Qed.

Lemma top_bits_range s n w :
  0 <= s < 2 ^ 16 -> 0 <= n <= 16 -> 0 <= w -> w mod 2 ^ n = 0 ->
  Z.land s (Z.shiftl (Z.ones (16 - n)) n) = w <-> w <= s <= w + 2 ^ n - 1.
Proof.
  intros Hs Hn Hw Hm. rewrite land_top_bits by done.
  rewrite <- (shift_interval s w n) by lia.
  rewrite (Z.shiftl_mul_pow2 (Z.shiftr w n)), (Z.shiftr_div_pow2 w) by lia.
  pose proof (Z.div_mod w (2 ^ n)). split; nia.
Qed.

(** A mask test of a segment as a range test. *)
Lemma mask_test s n w mask :
  0 <= s < 65536 -> 0 <= n <= 16 -> 0 <= w -> w mod 2 ^ n = 0 ->
  mask = Z.shiftl (Z.ones (16 - n)) n ->
  (Z.land s mask =? w) = (w <=? s) && (s <=? w + 2 ^ n - 1).
Proof.
  intros Hs Hn Hw Hm ->. apply eq_true_iff_eq.
  rewrite Z.eqb_eq, top_bits_range by done. by breflect.
Qed.

Lemma tunnel_ipv6_spec a allow :
  wf_ipv6 a -> to_ipv4_mapped a = None ->
  tunnel_ip_allowed (V6 a) allow = true <-> ipv6_allowed a allow.
Proof.
  intros Ha Hm. cbn [tunnel_ip_allowed]. rewrite Hm. unfold ipv6_allowed.
  unfold wf_ipv6 in Ha. rewrite !Forall_cons in Ha. destruct Ha as (H0 & H1 & _).
  assert (v6_is_unspecified a || v6_is_loopback a = true -> seg0 a = 0) as Hz.
  { unfold v6_is_unspecified, v6_is_loopback. breflect. tauto. }
  unfold v6_is_multicast, v6_is_unicast_link_local, v6_is_unique_local.
  rewrite (mask_test _ 9 0xfc00), (mask_test _ 13 0x2000), (mask_test _ 8 0xff00),
    (mask_test _ 6 0xfe80) by (done || lia).
  destruct (v6_is_unspecified a || v6_is_loopback a).
  - specialize (Hz eq_refl). cbn [orb]. lia.
  - cbn [orb]. clear Hz Hm. repeat case_match; breflect in *; destruct allow; lia.
Qed.

(** C31: a resolved address may be tunnelled to exactly when it lies outside the
    ranges that are always denied and, without the opt-in, outside the private
    ranges; an IPv6 address is judged by its embedded IPv4 address when it is
    IPv4-mapped, and otherwise must be global unicast other than documentation,
    Teredo and 6to4, or unique-local with the opt-in. *)
Theorem tunnel_ip_allowed_iff address allow :
  match address with V4 a => wf_ipv4 a | V6 a => wf_ipv6 a end ->
  tunnel_ip_allowed address allow = true <->
  match address with
  | V4 a => outside always_denied (u32_of a)
            /\ (allow = true \/ outside private_ranges (u32_of a))
  | V6 a =>
      match to_ipv4_mapped a with
      | Some a4 => outside always_denied (u32_of a4)
                   /\ (allow = true \/ outside private_ranges (u32_of a4))
      | None => ipv6_allowed a allow
      end
  end.
Proof.
  destruct address as [a|a]; intros Ha.
  - by apply tunnel_ipv4_allowed_spec.
  - destruct (to_ipv4_mapped a) as [a4|] eqn:Em; [|by apply tunnel_ipv6_spec].
    cbn [tunnel_ip_allowed]. rewrite Em. apply tunnel_ipv4_allowed_spec.
    unfold to_ipv4_mapped in Em. case_match; [|done]. injection Em as <-.
    unfold wf_ipv6 in Ha. rewrite !Forall_cons in Ha. unfold wf_ipv4. cbn.
    pose proof (Z.mod_pos_bound (seg6 a) 256). pose proof (Z.mod_pos_bound (seg7 a) 256).
    destruct_and!. split_and!; try lia; try (apply Z.div_pos; lia);
      apply Z.div_lt_upper_bound; lia.
Qed.

Lemma tunnel_ip_allowed_iff_witness :
  tunnel_ip_allowed (V4 (Build_Ipv4Addr 169 254 169 254)) true = true <->
  outside always_denied 2852039166 /\ (true = true \/ outside private_ranges 2852039166).
Proof.
  apply (tunnel_ip_allowed_iff (V4 (Build_Ipv4Addr 169 254 169 254))).
  by repeat split.
Defined.
