(* ===== verification/Catalog.v ===== *)
(** Catalog: the transparent-proxy destination catalog and CONNECT admission
    (crates/av-credential-proxy/src/catalog.rs). *)

From Stdlib Require Import Ascii String.
From stdpp Require Import base list strings gmap.
From S2P Require Import Prelude Str BTree External Models Host Policy Request.

(** ** Definitions *)

Inductive TransparentDestination :=
| Injecting (name profile : bytes)
| Tunnel (name profile host : bytes) (allow_private_ips : bool).

Definition destination_name (d : TransparentDestination) : bytes :=
  match d with Injecting name _ | Tunnel name _ _ _ => name end.
Definition destination_profile (d : TransparentDestination) : bytes :=
  match d with Injecting _ profile | Tunnel _ profile _ _ => profile end.
Definition destination_mode (d : TransparentDestination) : bytes :=
  match d with Injecting _ _ => &"injecting" | Tunnel _ _ _ _ => &"tunnel" end.

Record TransparentRouteCatalog := {
  destinations_by_host : BTreeMap TransparentDestination;
}.

Record ProxySessionCredential := {
  session_id : bytes;
  token : bytes;
  credential_token_hash : bytes;
}.

Record AuthorizedConnect := {
  destination : TransparentDestination;
  connect_host : bytes;
  connect_token_hash : bytes;
}.

(** [if let Some(existing) = destinations.insert(host, destination) { bail!(..) }] *)
Definition add_destination (m : BTreeMap TransparentDestination) (host : bytes)
    (d : TransparentDestination) : result (BTreeMap TransparentDestination) :=
  match bt_get m host with
  | Some existing =>
      Err "transparent proxy destinations share host {host}; one host may have only one destination"
  | None => Ok (bt_insert m host d)
  end.

Section Catalog.
Context {HL : HeaderLib} {UL : UrlLib} {EL : EncodingLib}.

Definition proxy_session_token_hash (token : bytes) : bytes := sha256_digest token.

(** The two buffers [OsRng] fills are arguments. *)
Definition mint_proxy_session_credential (session_id_bytes token_bytes : bytes)
    : ProxySessionCredential :=
  let token := base64_url_safe_no_pad token_bytes in
  {| session_id := base64_url_safe_no_pad session_id_bytes;
     token := token;
     credential_token_hash := proxy_session_token_hash token |}.

Definition add_route (m : BTreeMap TransparentDestination)
    (entry : bytes * ProxyRouteConfig) : result (BTreeMap TransparentDestination) :=
  let '(route_name, route) := entry in
  url ← ok_or (url_parse (base_url route)) "parse proxy route {route_name} base URL";
  if negb (bool_decide (url_scheme url = &"https"))
     || negb (bool_decide (url_port_or_known_default url = Some 443%Z))
  then Ok m
  else
    host ← ok_or (url_host_str url) "transparent proxy route {route_name} has no host";
    host ← canonical_dns_host host;
    add_destination m host (Injecting route_name (route_profile route)).

Definition add_tunnel (m : BTreeMap TransparentDestination)
    (entry : bytes * ProxyTunnelConfig) : result (BTreeMap TransparentDestination) :=
  let '(tunnel_name, tunnel) := entry in
  host ← canonical_tunnel_host (tunnel_host tunnel);
  add_destination m host
    (Tunnel tunnel_name (tunnel_profile tunnel) host (tunnel_allow_private_ips tunnel)).

Definition from_config (routes : BTreeMap ProxyRouteConfig)
    (tunnels : BTreeMap ProxyTunnelConfig) : result TransparentRouteCatalog :=
  destinations ← try_fold add_route [] routes;
  destinations ← try_fold add_tunnel destinations tunnels;
  Ok {| destinations_by_host := destinations |}.

Definition destination_for_connect_authority (catalog : TransparentRouteCatalog)
    (authority : bytes) : option TransparentDestination :=
  match canonical_connect_authority authority with
  | Ok host => bt_get (destinations_by_host catalog) host
  | Err _ => None
  end.

Definition catalog_is_empty (catalog : TransparentRouteCatalog) : bool :=
  is_empty (destinations_by_host catalog).

(** The proxy bearer capability: the last part of [authorize_connect_request]. *)
Definition connect_token (headers : HeaderMap) : result bytes :=
  match hm_get_all headers (from_static &"proxy-authorization") with
  | [value] =>
      value ← ok_or (value_to_str value) "CONNECT proxy authorization is not valid text";
      token ← ok_or (token ← strip_prefix &"Bearer " value;
                     if is_empty token then None else Some token)
                "CONNECT proxy authorization must use Bearer";
      _ ← bail_if (existsb (fun byte => is_ascii_whitespace byte || is_ascii_control byte) token)
            "CONNECT proxy bearer capability is malformed";
      Ok token
  | _ => Err "CONNECT request requires exactly one proxy bearer capability"
  end.

Definition authorize_connect_request (method : bytes) (uri : Uri) (headers : HeaderMap)
    (catalog : TransparentRouteCatalog) : result AuthorizedConnect :=
  _ ← bail_if (negb (bool_decide (method = &"CONNECT")))
        "transparent proxy accepts CONNECT only";
  authority ← ok_or (uri_authority uri) "CONNECT request has no authority";
  host ← ok_or (hm_get headers (from_static &"host") ≫= value_to_str)
           "CONNECT request has no valid Host header";
  _ ← (if negb (len (hm_get_all headers (from_static &"host")) =? 1)%Z
       then Err "CONNECT Host header must exactly identify the requested authority"
       else
         host ← canonical_connect_authority host;
         authority ← canonical_connect_authority authority;
         bail_if (negb (bool_decide (host = authority)))
           "CONNECT Host header must exactly identify the requested authority");
  canonical_authority ← canonical_connect_authority authority;
  destination ← ok_or (bt_get (destinations_by_host catalog) canonical_authority)
                  "CONNECT destination is not configured";
  token ← connect_token headers;
  Ok {| destination := destination; connect_host := canonical_authority;
        connect_token_hash := proxy_session_token_hash token |}.

(** ** The catalog as configured *)

(** What one route contributes: nothing unless it is standard HTTPS. *)
Definition route_destination (entry : bytes * ProxyRouteConfig) (host : bytes)
    (d : TransparentDestination) : Prop :=
  exists url h, url_parse (base_url entry.2) = Some url
    /\ url_scheme url = &"https" /\ url_port_or_known_default url = Some 443%Z
    /\ url_host_str url = Some h /\ canonical_dns_host h = Ok host
    /\ d = Injecting entry.1 (route_profile entry.2).

Definition tunnel_destination (entry : bytes * ProxyTunnelConfig) (host : bytes)
    (d : TransparentDestination) : Prop :=
  canonical_tunnel_host (tunnel_host entry.2) = Ok host
  /\ d = Tunnel entry.1 (tunnel_profile entry.2) host (tunnel_allow_private_ips entry.2).

Definition configured_destination (routes : BTreeMap ProxyRouteConfig)
    (tunnels : BTreeMap ProxyTunnelConfig) (host : bytes) (d : TransparentDestination) : Prop :=
  (exists entry, entry ∈ routes /\ route_destination entry host d)
  \/ (exists entry, entry ∈ tunnels /\ tunnel_destination entry host d).

(** ** Lemmas *)

(** [m] holds exactly the destinations of [contributes]. *)
Definition catalog_of (m : BTreeMap TransparentDestination)
    (contributes : bytes -> TransparentDestination -> Prop) : Prop :=
  forall host d, bt_get m host = Some d <-> contributes host d.

Lemma add_destination_ok m host d m' :
  add_destination m host d = Ok m' ->
  bt_get m host = None /\ forall h, bt_get m' h = if decide (host = h) then Some d else bt_get m h.
Proof.
  unfold add_destination. destruct (bt_get m host) eqn:E; [done|]. intros [= <-].
  split; [done|]. intros h. apply bt_get_insert.
Qed.

Lemma catalog_of_add m host d m' (P Q : bytes -> TransparentDestination -> Prop) :
  catalog_of m P -> add_destination m host d = Ok m' ->
  (forall h e, Q h e <-> h = host /\ e = d) ->
  catalog_of m' (fun h e => P h e \/ Q h e).
Proof.
  intros HP (Hnone & Hget)%add_destination_ok HQ h e. rewrite Hget, HQ.
  destruct (decide (host = h)) as [<-|Hne].
  - rewrite <- (HP host e), Hnone. naive_solver.
  - rewrite (HP h e). naive_solver.
Qed.

Lemma add_route_ok m entry m' P :
  catalog_of m P -> add_route m entry = Ok m' ->
  catalog_of m' (fun h e => P h e \/ route_destination entry h e).
Proof.
  intros HP. destruct entry as [n route]. unfold add_route. intros Hok. inv_ok.
  destruct (_ || _) eqn:E.
  - inv_ok. subst m'. intros h e. rewrite (HP h e). split; [by left|].
    intros [?|(u & t & Hu & Hs & Hp & _)]; [done|]. simplify_eq/=.
    apply orb_true_iff in E. rewrite !negb_true_iff, !bool_decide_eq_false in E.
    naive_solver congruence.
  - apply orb_false_iff in E. rewrite !negb_false_iff, !bool_decide_eq_true in E.
    destruct E as [E1 E2]. inv_ok. eapply catalog_of_add; [done|done|].
    intros h e. unfold route_destination. simpl. split.
    + intros (u & t & Hu & _ & _ & Ht & Hc & ->). simplify_eq. split; congruence.
    + intros [-> ->]. by eexists _, _.
Qed.

Lemma add_tunnel_ok m entry m' P :
  catalog_of m P -> add_tunnel m entry = Ok m' ->
  catalog_of m' (fun h e => P h e \/ tunnel_destination entry h e).
Proof.
  intros HP. destruct entry as [n tunnel]. unfold add_tunnel. intros Hok. inv_ok.
  eapply catalog_of_add; [done|done|]. intros h e. unfold tunnel_destination. simpl.
  rewrite H. naive_solver.
Qed.

Lemma catalog_of_step {A} m (P Q : bytes -> TransparentDestination -> Prop)
    (R : A -> bytes -> TransparentDestination -> Prop) done x :
  (forall h e, P h e <-> Q h e \/ exists y, y ∈ done /\ R y h e) ->
  catalog_of m (fun h e => P h e \/ R x h e) ->
  catalog_of m (fun h e => Q h e \/ exists y, y ∈ done ++ [x] /\ R y h e).
Proof.
  intros HP Hm h e. rewrite (Hm h e), HP. setoid_rewrite elem_of_app.
  setoid_rewrite list_elem_of_singleton. naive_solver.
Qed.

Lemma from_config_ok routes tunnels catalog :
  from_config routes tunnels = Ok catalog ->
  catalog_of (destinations_by_host catalog) (configured_destination routes tunnels).
Proof.
  unfold from_config. intros Hok. inv_ok. subst catalog. simpl.
  assert (catalog_of x (fun h e => exists y, y ∈ routes /\ route_destination y h e)) as Hr.
  { assert (catalog_of x (fun h e => False \/ exists y, y ∈ routes /\ route_destination y h e))
      as Hx; [|intros h e; rewrite (Hx h e); naive_solver].
    eapply (try_fold_inv (fun done m => catalog_of m
      (fun h e => False \/ exists y, y ∈ done /\ route_destination y h e))); [done| |].
    - intros h e. simpl. set_solver.
    - intros done y m m' Hm Hy. eapply catalog_of_step; [|by eapply add_route_ok].
      done. }
  eapply (try_fold_inv (fun done m => catalog_of m
    (fun h e => (exists y, y ∈ routes /\ route_destination y h e)
                \/ exists y, y ∈ done /\ tunnel_destination y h e))); [done| |].
  - intros h e. rewrite (Hr h e). set_solver.
  - intros done y m m' Hm Hy. eapply catalog_of_step; [|by eapply add_tunnel_ok]. done.
Qed.

Lemma configured_dns_name routes tunnels h d :
  configured_destination routes tunnels h d -> dns_name h.
Proof.
  intros [(e & _ & (u & t & _ & _ & _ & _ & Hc & _))|(e & _ & Hc & _)].
  - by eapply canonical_dns_host_name.
  - by eapply canonical_tunnel_host_name.
Qed.

Lemma connect_token_ok headers tok :
  connect_token headers = Ok tok ->
  exists v, hm_get_all headers (from_static &"proxy-authorization") = [v]
    /\ value_to_str v = Some (&"Bearer " ++ tok) /\ tok <> []
    /\ Forall (fun b => is_ascii_whitespace b = false /\ is_ascii_control b = false) tok.
Proof.
  unfold connect_token. destruct (hm_get_all _ _) as [|v [|]]; [done| |done].
  intros Hok. inv_ok. subst x0. exists v. split; [done|].
  apply bind_Some in H0 as (t & Ht & Hne). apply strip_prefix_spec in Ht as ->.
  destruct t as [|b t]; [done|]. cbn [is_empty] in Hne. injection Hne as <-.
  split_and!; [done|done|].
  apply existsb_false in H1. eapply Forall_impl; [exact H1|].
  intros c Hc. by apply orb_false_iff in Hc.
Qed.

(** C26: an authorised CONNECT names, in both its target and its single Host
    header, port 443 of one DNS host; that host is the key of the configured
    route or tunnel it is bound to; and the session digest is the hash of the
    single bearer token it carries, which has no blank or control byte. *)
Theorem authorize_connect_request_sound routes tunnels catalog method uri headers ac :
  from_config routes tunnels = Ok catalog ->
  authorize_connect_request method uri headers catalog = Ok ac ->
  method = &"CONNECT"
  /\ dns_name (connect_host ac)
  /\ configured_destination routes tunnels (connect_host ac) (destination ac)
  /\ (exists authority, uri_authority uri = Some authority
        /\ canonical_connect_authority authority = Ok (connect_host ac))
  /\ (exists v host, hm_get_all headers (from_static &"host") = [v]
        /\ value_to_str v = Some host
        /\ canonical_connect_authority host = Ok (connect_host ac))
  /\ (exists v tok, hm_get_all headers (from_static &"proxy-authorization") = [v]
        /\ value_to_str v = Some (&"Bearer " ++ tok) /\ tok <> []
        /\ Forall (fun b => is_ascii_whitespace b = false /\ is_ascii_control b = false) tok
        /\ connect_token_hash ac = proxy_session_token_hash tok).
Proof.
  intros Hcat%from_config_ok. unfold authorize_connect_request. intros Hok. inv_ok.
  destruct (len _ =? 1)%Z eqn:El; cbn [negb] in *; inv_ok. subst ac.
  cbn [connect_host destination connect_token_hash].
  rewrite negb_false_iff, bool_decide_eq_true in *. simplify_eq.
  assert (x6 = x3) as -> by congruence.
  assert (configured_destination routes tunnels x3 x4) as Hc by (by apply Hcat).
  destruct (connect_token_ok _ _ H5) as (v & Hv & Ht & Hne & Htok).
  split_and!; [done|by eapply configured_dns_name|done|by eexists| |by exists v, x5].
  apply len_one in El as [hv El]. unfold hm_get in H1. rewrite El in *. by exists hv, x1.
Qed.

(** The catalog built from a configuration holds exactly the configured
    destinations: every tunnel, every standard-HTTPS route, and nothing else;
    in particular no host has two. *)
Theorem from_config_exact routes tunnels catalog host d :
  from_config routes tunnels = Ok catalog ->
  bt_get (destinations_by_host catalog) host = Some d <->
  configured_destination routes tunnels host d.
Proof. intros H. apply (from_config_ok _ _ _ H). Qed.

(** A request inside an intercepted tunnel is bound to the host the CONNECT
    was authorised for: if the connection was authorised for a route and the
    request passes the target check of that route, then its only Host header
    canonicalises to the CONNECT host on port 443. *)
Theorem tunnel_request_bound_to_connect routes tunnels catalog method uri headers ac
    name profile route inner_uri inner :
  bt_wf routes ->
  from_config routes tunnels = Ok catalog ->
  authorize_connect_request method uri headers catalog = Ok ac ->
  destination ac = Injecting name profile ->
  bt_get routes name = Some route ->
  enforce_transparent_tunnel_target route inner_uri inner = Ok () ->
  exists v text supplied host,
    hm_get_all inner (from_static &"host") = [v] /\ value_to_str v = Some text
    /\ url_parse (&"https://" ++ text) = Some supplied
    /\ url_port_or_known_default supplied = Some 443%Z
    /\ url_host_str supplied = Some host
    /\ canonical_dns_host host = Ok (connect_host ac).
Proof.
  intros Hwf Hcat%from_config_ok Hok Hd Hroute Hin.
  assert (configured_destination routes tunnels (connect_host ac) (destination ac)) as Hc.
  { apply Hcat. unfold authorize_connect_request in Hok. inv_ok. by subst ac. }
  rewrite Hd in Hc. destruct Hc as [([n r] & Hin' & Hrd)|(e & _ & _ & [=])].
  destruct Hrd as (url & h & Hu & Hs & Hp & Hh & Hcan & [= -> ->]). simpl in *.
  assert (r = route) as ->.
  { apply bt_elem_get in Hin'; [|done]. simpl in *. congruence. }
  unfold enforce_transparent_tunnel_target in Hin. inv_ok. rewrite Hu in H2. injection H2 as <-.
  rewrite !orb_false_iff, !negb_false_iff, !bool_decide_eq_true in Hin. destruct_and!.
  rewrite negb_false_iff in H0. apply len_one in H0 as [v H0].
  unfold hm_get in H4. rewrite H0 in *. exists v, x4, x5, h. split_and!; try done. congruence.
Qed.
End Catalog.

Import Models.

Definition sample_routes : BTreeMap ProxyRouteConfig := [(&"items", Sample.route)].
Definition sample_tunnels : BTreeMap ProxyTunnelConfig := [(&"registry", Sample.tunnel)].
Definition sample_catalog : TransparentRouteCatalog := {|
  destinations_by_host :=
    [(&"api.example.test", Injecting &"items" &"deploy");
     (&"registry.example.test",
      Tunnel &"registry" &"deploy" &"registry.example.test" false)] |}.
Definition sample_connect_uri : Uri :=
  {| uri_scheme := None; uri_authority := Some &"API.example.test:443";
     uri_path := []; uri_query := None |}.
Definition sample_connect : list (bytes * bytes) :=
  [(&"host", &"api.example.test:443"); (&"proxy-authorization", &"Bearer abc")].
Definition sample_authorized : AuthorizedConnect := {|
  destination := Injecting &"items" &"deploy";
  connect_host := &"api.example.test";
  connect_token_hash := sha256_digest &"abc" |}.

Lemma authorize_connect_request_sound_witness :
  dns_name &"api.example.test" /\ configured_destination sample_routes sample_tunnels
    &"api.example.test" (Injecting &"items" &"deploy").
Proof.
  assert (from_config sample_routes sample_tunnels = Ok sample_catalog) as Hc by reflexivity.
  assert (authorize_connect_request &"CONNECT" sample_connect_uri sample_connect
            sample_catalog = Ok sample_authorized) as Ha by reflexivity.
  destruct (authorize_connect_request_sound _ _ _ _ _ _ _ Hc Ha) as (_ & H1 & H2 & _).
  by split.
Defined.

Lemma from_config_exact_witness :
  bt_get (destinations_by_host sample_catalog) &"registry.example.test" =
    Some (Tunnel &"registry" &"deploy" &"registry.example.test" false) <->
  configured_destination sample_routes sample_tunnels &"registry.example.test"
    (Tunnel &"registry" &"deploy" &"registry.example.test" false).
Proof. apply from_config_exact. reflexivity. Defined.

Lemma tunnel_request_bound_to_connect_witness :
  exists v text supplied host,
    hm_get_all [(&"host", &"api.example.test")] (from_static &"host") = [v]
    /\ value_to_str v = Some text
    /\ url_parse (&"https://" ++ text) = Some supplied
    /\ url_port_or_known_default supplied = Some 443%Z
    /\ url_host_str supplied = Some host
    /\ canonical_dns_host host = Ok (connect_host sample_authorized).
Proof.
  apply (tunnel_request_bound_to_connect (HL := headers) sample_routes sample_tunnels
    sample_catalog &"CONNECT" sample_connect_uri sample_connect sample_authorized
    &"items" &"deploy" Sample.route
    {| uri_scheme := None; uri_authority := None; uri_path := &"/v1"; uri_query := None |}).
  - repeat constructor.
  - reflexivity.
  - reflexivity.
  - reflexivity.
  - reflexivity.
  - reflexivity.
Defined.
