(* ===== verification/Database.v ===== *)
(** Database: SQL statements and transactions as the store issues them.

    A computation reads and changes the tables, reads the clock, and meets an
    outcome at every round trip to the server: it succeeds, it fails before
    taking effect, or it takes effect and the acknowledgement is lost.  The
    same computation with no failure ahead is its ideal run; [honest] and
    [atomic] relate the two. *)

From Stdlib Require Import String.
From stdpp Require Import base list.
From S2P Require Import Prelude.

Inductive outcome := Succeeds | FailsBefore | FailsAfter.

Section Database.
Context {T : Type}.

Record world := {
  tables : T;
  clock : option Z;
  (** one outcome per round trip; past the end every round trip succeeds *)
  outcomes : list outcome;
}.

Definition db (A : Type) : Type := world -> result A * world.

#[global] Instance db_ret : MRet db := fun A a w => (Ok a, w).
#[global] Instance db_bind : MBind db := fun A B f m w =>
  match m w with
  | (Ok a, w) => f a w
  | (Err e, w) => (Err e, w)
  end.

(** [value?] of a [Result] computed without the database *)
Definition lift {A} (r : result A) : db A := fun w => (r, w).

Definition with_tables (w : world) (t : T) : world :=
  {| tables := t; clock := clock w; outcomes := outcomes w |}.
Definition next_outcome (w : world) : outcome * world :=
  (default Succeeds (head (outcomes w)),
   {| tables := tables w; clock := clock w; outcomes := tail (outcomes w) |}).

(** One SQL statement: [f] is its effect, or the constraint it violates. *)
Definition statement {A} (f : T -> result (A * T)) : db A := fun w =>
  let '(o, w) := next_outcome w in
  match o with
  | FailsBefore => (Err "database error", w)
  | _ =>
      match f (tables w) with
      | Err e => (Err e, w)
      | Ok (a, t) =>
          match o with
          | Succeeds => (Ok a, with_tables w t)
          | _ => (Err "database error", with_tables w t)
          end
      end
  end.

Definition query {A} (f : T -> A) : db A := statement (fun t => Ok (f t, t)).
Definition execute (f : T -> T) : db unit := statement (fun t => Ok (tt, f t)).

(** [pool.begin()], the body, [transaction.commit()]; a transaction dropped on
    an error path rolls back. *)
Definition transaction {A} (body : db A) : db A := fun w =>
  let '(o, w0) := next_outcome w in
  match o with
  | Succeeds =>
      match body w0 with
      | (Err e, w1) => (Err e, with_tables w1 (tables w0))
      | (Ok a, w1) =>
          let '(o, w2) := next_outcome w1 in
          match o with
          | Succeeds => (Ok a, w2)
          | FailsBefore => (Err "database error", with_tables w2 (tables w0))
          | FailsAfter => (Err "database error", w2)
          end
      end
  | _ => (Err "database error", w0)
  end.

(** The system clock; [None] stands for one outside the supported range. *)
Definition now_unix_seconds : db Z := fun w =>
  (ok_or (clock w) "system clock is before Unix epoch", w).

(** The run with no failure ahead. *)
Definition ideal {A} (m : db A) (c : option Z) (t : T) : result A * T :=
  let '(r, w) := m {| tables := t; clock := c; outcomes := [] |} in (r, tables w).

(** ** Honest computations: failures change whether there is a result, never
    which result *)

Record honest {A} (m : db A) : Prop := {
  honest_clock w : clock (m w).2 = clock w;
  honest_quiet w : outcomes w = [] -> outcomes (m w).2 = [];
  honest_result w a :
    (m w).1 = Ok a -> ideal m (clock w) (tables w) = (Ok a, tables (m w).2);
}.

(** An honest computation that leaves the tables as they were, or fully
    changed as its ideal run does. *)
Record atomic {A} (m : db A) : Prop := {
  atomic_honest :> honest m;
  atomic_effect w :
    tables (m w).2 = tables w
    \/ exists a, ideal m (clock w) (tables w) = (Ok a, tables (m w).2);
}.

(** A computation that never changes the tables. *)
Record readonly {A} (m : db A) : Prop := {
  readonly_honest :> honest m;
  readonly_effect w : tables (m w).2 = tables w;
}.

Lemma world_eta w c t : clock w = c -> tables w = t -> outcomes w = [] ->
  w = {| tables := t; clock := c; outcomes := [] |}.
Proof. by destruct w; simpl; intros -> -> ->. Qed.

Lemma ideal_bind {A B} (m : db A) (f : A -> db B) c t a t' :
  honest m -> ideal m c t = (Ok a, t') -> ideal (m ≫= f) c t = ideal (f a) c t'.
Proof.
  intros Hm. unfold ideal, mbind, db_bind.
  set (w := {| tables := t; clock := c; outcomes := [] |}).
  pose proof (honest_clock m Hm w) as Hc. pose proof (honest_quiet m Hm w eq_refl) as Ho.
  destruct (m w) as [r w'] eqn:E. intros [= -> <-]. simpl in *.
  by rewrite (world_eta w' c (tables w')).
Qed.

Lemma honest_bind {A B} (m : db A) (f : A -> db B) :
  honest m -> (forall a, honest (f a)) -> honest (m ≫= f).
Proof.
  intros Hm Hf. split.
  - intros w. pose proof (honest_clock m Hm w). unfold mbind, db_bind.
    destruct (m w) as [[a|e] w']; simpl in *; [|done]. by rewrite (honest_clock _ (Hf a)).
  - intros w Hw. pose proof (honest_quiet m Hm w Hw). unfold mbind, db_bind.
    destruct (m w) as [[a|e] w']; simpl in *; [|done]. by apply (honest_quiet _ (Hf a)).
  - intros w b Hb. pose proof (honest_clock m Hm w) as Hc.
    pose proof (honest_result m Hm w) as Hr. revert Hb. unfold mbind at 1, db_bind at 1.
    unfold mbind at 2, db_bind at 2.
    destruct (m w) as [[a|e] w'] eqn:E; simpl in *; [|done]. intros Hb.
    rewrite (ideal_bind m f _ _ a (tables w')) by auto.
    rewrite <- Hc. by apply (honest_result _ (Hf a)).
Qed.

Lemma honest_ret {A} (a : A) : honest (mret a).
Proof. split; [done|done|]. by intros w x [= ->]. Qed.

Lemma honest_lift {A} (r : result A) : honest (lift r).
Proof. split; [done|done|]. intros w x H. unfold ideal, lift in *. simpl in *. by rewrite H. Qed.

Lemma honest_now : honest now_unix_seconds.
Proof.
  split; [done|done|]. intros w x H. unfold ideal, now_unix_seconds in *. simpl in *.
  by rewrite H.
Qed.

Lemma honest_statement {A} (f : T -> result (A * T)) : honest (statement f).
Proof.
  split.
  - intros w. unfold statement. simpl. repeat case_match; done.
  - intros w Hw. unfold statement. simpl. rewrite Hw. simpl.
    destruct (f (tables w)) as [[]|]; done.
  - intros w a. unfold ideal, statement. simpl.
    destruct (head (outcomes w)) as [[]|]; simpl;
      destruct (f (tables w)) as [[]|]; simpl; naive_solver.
Qed.

Lemma ideal_transaction {A} (m : db A) c t :
  honest m ->
  ideal (transaction m) c t =
    match ideal m c t with (Ok a, t') => (Ok a, t') | (Err e, _) => (Err e, t) end.
Proof.
  intros Hm. unfold ideal, transaction. simpl.
  pose proof (honest_quiet m Hm {| tables := t; clock := c; outcomes := [] |} eq_refl) as Hq.
  destruct (m {| tables := t; clock := c; outcomes := [] |}) as [[a|e] w]; simpl in *; [|done].
  by rewrite Hq.
Qed.

Lemma honest_transaction {A} (m : db A) : honest m -> honest (transaction m).
Proof.
  intros Hm. split.
  - intros w. unfold transaction. simpl.
    destruct (default Succeeds (head (outcomes w))); simpl; [|done|done].
    match goal with |- context [m ?v] =>
      pose proof (honest_clock m Hm v); destruct (m v) as [[a|e] w1] end; simpl in *; [|done].
    by case_match.
  - intros w Hw. unfold transaction. simpl. rewrite Hw. simpl.
    match goal with |- context [m ?v] =>
      pose proof (honest_quiet m Hm v eq_refl) as Hq; destruct (m v) as [[a|e] w1] end;
      simpl in *; [by rewrite Hq|done].
  - intros w a. destruct (transaction m w) as [r w'] eqn:E. simpl. intros ->.
    rewrite ideal_transaction by done. revert E. unfold transaction. simpl.
    destruct (default Succeeds (head (outcomes w))); simpl; [|done|done].
    match goal with |- context [m ?v] => set (v0 := v) end.
    pose proof (honest_result m Hm v0) as Hr.
    destruct (m v0) as [[b|e] w1]; simpl in *; [|done].
    destruct (default Succeeds (head (outcomes w1))); simpl; [|done|done].
    intros [= -> <-]. by rewrite (Hr a eq_refl).
Qed.

Lemma atomic_transaction {A} (m : db A) : honest m -> atomic (transaction m).
Proof.
  intros Hm. split; [by apply honest_transaction|]. intros w.
  rewrite ideal_transaction by done. destruct (transaction m w) as [r w'] eqn:E.
  revert E. unfold transaction. simpl.
  destruct (default Succeeds (head (outcomes w))); simpl; [|intros [= _ <-]; by left..].
  match goal with |- context [m ?v] => set (v0 := v) end.
  pose proof (honest_result m Hm v0) as Hr.
  destruct (m v0) as [[b|e] w1]; simpl in *; [|intros [= _ <-]; by left].
  destruct (default Succeeds (head (outcomes w1))); simpl; intros [= _ <-];
    [right|by left|right]; exists b; by rewrite (Hr b eq_refl).
Qed.

Lemma atomic_statement {A} (f : T -> result (A * T)) : atomic (statement f).
Proof.
  split; [apply honest_statement|]. intros w. unfold ideal, statement. simpl.
  destruct (head (outcomes w)) as [[]|]; simpl;
    destruct (f (tables w)) as [[]|]; simpl; naive_solver.
Qed.

Lemma readonly_query {A} (f : T -> A) : readonly (query f).
Proof.
  split; [apply honest_statement|]. intros w. unfold query, statement. simpl.
  by destruct (head (outcomes w)) as [[]|].
Qed.
Lemma readonly_lift {A} (r : result A) : readonly (lift r).
Proof. split; [apply honest_lift|done]. Qed.
Lemma readonly_ret {A} (a : A) : readonly (mret a).
Proof. split; [apply honest_ret|done]. Qed.
Lemma readonly_now : readonly now_unix_seconds.
Proof. split; [apply honest_now|done]. Qed.

Lemma readonly_bind {A B} (m : db A) (f : A -> db B) :
  readonly m -> (forall a, readonly (f a)) -> readonly (m ≫= f).
Proof.
  intros Hm Hf. split; [apply honest_bind; [apply Hm|intros; apply Hf]|].
  intros w. pose proof (readonly_effect m Hm w). unfold mbind, db_bind.
  destruct (m w) as [[a|e] w']; simpl in *; [|done]. by rewrite (readonly_effect _ (Hf a)).
Qed.

(** Reads before one atomic change. *)
Lemma atomic_bind_read {A B} (m : db A) (f : A -> db B) :
  readonly m -> (forall a, atomic (f a)) -> atomic (m ≫= f).
Proof.
  intros Hm Hf. split; [apply honest_bind; [apply Hm|intros; apply Hf]|].
  intros w. pose proof (readonly_effect m Hm w) as Ht.
  pose proof (honest_result m Hm w) as Hr. pose proof (honest_clock m Hm w) as Hc.
  unfold mbind at 1, db_bind at 1. unfold mbind at 2, db_bind at 2.
  destruct (m w) as [[a|e] w'] eqn:E; simpl in *; [|by left].
  rewrite (ideal_bind m f _ _ a (tables w')) by (apply Hm || by apply Hr).
  rewrite <- Ht, <- Hc. by apply (atomic_effect _ (Hf a)).
Qed.

(** A pure computation after one atomic change. *)
Lemma atomic_bind_pure {A B} (m : db A) (g : A -> B) :
  atomic m -> atomic (m ≫= fun a => mret (g a)).
Proof.
  intros Hm. split; [apply honest_bind; [apply Hm|intros; apply honest_ret]|].
  intros w. pose proof (atomic_effect m Hm w) as He.
  assert (tables ((m ≫= (fun a => mret (g a) : db B)) w).2 = tables (m w).2) as ->.
  { unfold mbind, db_bind. by destruct (m w) as [[]]. }
  destruct He as [?|[a Ha]]; [by left|]. right. exists (g a).
  rewrite (ideal_bind m _ _ _ a (tables (m w).2)) by (done || apply Hm). done.
Qed.

Lemma atomic_readonly {A} (m : db A) : readonly m -> atomic m.
Proof. intros [Hh He]. split; [done|]. intros w. left. apply He. Qed.

(** *** Inverting a successful ideal run *)

Lemma ideal_bind_ok {A B} (m : db A) (f : A -> db B) c t b t'' :
  ideal (m ≫= f) c t = (Ok b, t'') -> honest m ->
  exists a t', ideal m c t = (Ok a, t') /\ ideal (f a) c t' = (Ok b, t'').
Proof.
  intros Hb Hm. destruct (ideal m c t) as [[a|e] t'] eqn:E.
  - exists a, t'. by rewrite (ideal_bind m f c t a t' Hm E) in Hb.
  - exfalso. revert Hb E. unfold ideal, mbind, db_bind.
    by destruct (m _) as [[]]; intros; simplify_eq.
Qed.

Lemma ideal_lift_ok {A} (r : result A) c t a t' :
  ideal (lift r) c t = (Ok a, t') -> r = Ok a /\ t' = t.
Proof. unfold ideal, lift. simpl. naive_solver. Qed.
Lemma ideal_ret_ok {A} (x : A) c t a t' :
  ideal (mret x) c t = (Ok a, t') -> a = x /\ t' = t.
Proof. unfold ideal, mret, db_ret. simpl. naive_solver. Qed.
Lemma ideal_now_ok c t a t' :
  ideal now_unix_seconds c t = (Ok a, t') -> c = Some a /\ t' = t.
Proof. unfold ideal, now_unix_seconds. simpl. destruct c; naive_solver. Qed.
Lemma ideal_statement_ok {A} (f : T -> result (A * T)) c t a t' :
  ideal (statement f) c t = (Ok a, t') <-> f t = Ok (a, t').
Proof.
  unfold ideal, statement. simpl. destruct (f t) as [[]|]; naive_solver.
Qed.
Lemma ideal_query_ok {A} (f : T -> A) c t a t' :
  ideal (query f) c t = (Ok a, t') -> a = f t /\ t' = t.
Proof. unfold query. rewrite ideal_statement_ok. naive_solver. Qed.
Lemma ideal_execute_ok (f : T -> T) c t a t' :
  ideal (execute f) c t = (Ok a, t') -> t' = f t.
Proof. unfold execute. rewrite ideal_statement_ok. naive_solver. Qed.
Lemma ideal_transaction_ok {A} (m : db A) c t a t' :
  ideal (transaction m) c t = (Ok a, t') -> honest m -> ideal m c t = (Ok a, t').
Proof.
  intros H Hm. rewrite ideal_transaction in H by done.
  by destruct (ideal m c t) as [[]]; simplify_eq.
Qed.

(** *** Properties every statement keeps, also when a computation stops halfway *)

Definition preserves {A} (P : T -> Prop) (m : db A) : Prop :=
  forall w, P (tables w) -> P (tables (m w).2).

Lemma preserves_bind {A B} P (m : db A) (f : A -> db B) :
  preserves P m -> (forall a, preserves P (f a)) -> preserves P (m ≫= f).
Proof.
  intros Hm Hf w Hw. specialize (Hm w Hw). unfold mbind, db_bind.
  destruct (m w) as [[a|e] w']; simpl in *; [by apply Hf|done].
Qed.
Lemma preserves_ret {A} P (a : A) : preserves P (mret a).
Proof. by intros w Hw. Qed.
Lemma preserves_statement {A} P (f : T -> result (A * T)) :
  (forall t a t', P t -> f t = Ok (a, t') -> P t') -> preserves P (statement f).
Proof.
  intros Hf w Hw. unfold statement. simpl.
  destruct (default Succeeds (head (outcomes w))); simpl; [|done|];
    (destruct (f (tables w)) as [[a t']|] eqn:E; simpl; [|done]); eauto.
Qed.
Lemma preserves_execute P f : (forall t, P t -> P (f t)) -> preserves P (execute f).
Proof. intros Hf. apply preserves_statement. intros t a t' Ht Hft. simplify_eq. by apply Hf. Qed.

(** Invariants hold across atomic computations when their ideal runs keep them. *)
Lemma atomic_invariant {A} (m : db A) (P : T -> Prop) w :
  atomic m ->
  (forall a t', ideal m (clock w) (tables w) = (Ok a, t') -> P (tables w) -> P t') ->
  P (tables w) -> P (tables (m w).2).
Proof.
  intros Hm Hi HP. destruct (atomic_effect m Hm w) as [->|[a Ha]]; [done|]. eauto.
Qed.
End Database.
Arguments world : clear implicits.
Arguments db : clear implicits.

(** Honesty follows the structure of the computation. *)
Ltac solve_honest :=
  repeat first
    [ apply honest_bind; [|intros ?] | apply honest_transaction | apply honest_ret
    | apply honest_lift | apply honest_now | apply honest_statement
    | apply readonly_honest; solve [auto with av] | apply atomic_honest; solve [auto with av]
    | case_match ].

(** Peel a successful ideal run into its statements. *)
Ltac inv_ideal :=
  repeat match goal with
  | H : ideal (mbind _ _) _ _ = (Ok _, _) |- _ =>
      apply ideal_bind_ok in H as (? & ? & ? & ?); [|solve_honest]
  | H : ideal (lift _) _ _ = (Ok _, _) |- _ => apply ideal_lift_ok in H as [H ->]
  | H : ideal (mret _) _ _ = (Ok _, _) |- _ => apply ideal_ret_ok in H as [H ->]; try subst
  | H : ideal now_unix_seconds _ _ = (Ok _, _) |- _ => apply ideal_now_ok in H as [H ->]
  | H : ideal (query _) _ _ = (Ok _, _) |- _ => apply ideal_query_ok in H as [H ->]; try subst
  | H : ideal (execute _) _ _ = (Ok _, _) |- _ => apply ideal_execute_ok in H; try subst
  | H : ideal (statement _) _ _ = (Ok _, _) |- _ => apply ideal_statement_ok in H
  | H : ideal (transaction _) _ _ = (Ok _, _) |- _ =>
      apply ideal_transaction_ok in H; [|solve_honest]
  end.

#[export] Hint Resolve honest_bind honest_ret honest_lift honest_now honest_statement
  honest_transaction atomic_transaction atomic_statement readonly_query readonly_lift
  readonly_ret readonly_now readonly_bind atomic_bind_read atomic_bind_pure
  readonly_honest atomic_honest : av.
