(* ===== verification/Store.v ===== *)
(** Store: the managed control-plane database (src/store.rs).

    The tables are a record with the schema of [migrate]; every [Store] method
    is a [db] computation that issues the source's statements in its order,
    inside a transaction where the source opens one.  The PostgreSQL and SQLite
    arms issue the same statements except in [renew_proxy_session_for_subject]
    and [bootstrap_owner], which take the backend. *)

From Stdlib Require Import Ascii String.
From stdpp Require Import base list strings gmap sorting.
From S2P Require Import Prelude Str BTree Database.

(** ** Schema *)

Inductive Backend := Postgres | Sqlite.

Inductive PrincipalRole := Owner | Operator | Auditor | User.
#[global] Instance PrincipalRole_eq_dec : EqDecision PrincipalRole.
Proof. solve_decision. Defined.

Definition role_as_str (r : PrincipalRole) : bytes :=
  match r with
  | Owner => &"owner" | Operator => &"operator" | Auditor => &"auditor" | User => &"user"
  end.
Definition role_parse (value : bytes) : result PrincipalRole :=
  if bool_decide (value = &"owner") then Ok Owner
  else if bool_decide (value = &"operator") then Ok Operator
  else if bool_decide (value = &"auditor") then Ok Auditor
  else if bool_decide (value = &"user") then Ok User
  else Err "invalid principal role".
Definition can_operate (r : PrincipalRole) : bool :=
  match r with Owner | Operator => true | _ => false end.
Definition can_audit (r : PrincipalRole) : bool :=
  match r with Owner | Auditor => true | _ => false end.

Inductive GrantMode := Both | Proxy | Environment.
#[global] Instance GrantMode_eq_dec : EqDecision GrantMode.
Proof. solve_decision. Defined.

Definition mode_as_str (m : GrantMode) : bytes :=
  match m with Both => &"both" | Proxy => &"proxy" | Environment => &"environment" end.
Definition mode_from_database (value : bytes) : result GrantMode :=
  if bool_decide (value = &"both") then Ok Both
  else if bool_decide (value = &"proxy") then Ok Proxy
  else if bool_decide (value = &"environment") then Ok Environment
  else Err "managed store contains an invalid grant mode".

Record AgentRow := { agent_token_hash : bytes; agent_enabled : bool }.
Record BasicUserRow := { password_hash : bytes; user_enabled : bool }.
Record GrantRow := { grant_mode : bytes; grant_expires : option Z }.
Record SessionRow := {
  session_token_hash : bytes;
  session_subject : bytes;
  session_profile : bytes;
  session_expires : Z;
  session_revoked : bool;
}.
Record AuditEvent := {
  created_unix_seconds : Z;
  actor : bytes;
  action : bytes;
  audit_profile : option bytes;
  audit_route : option bytes;
  executable_basename : option bytes;
}.

(** Primary keys are the keys of the maps. *)
Record Tables := {
  av_owners : gset bytes;
  (** the row with [singleton = 1], if any *)
  av_owner_bootstrap : option bytes;
  av_principal_roles : gmap bytes bytes;
  av_basic_users : gmap bytes BasicUserRow;
  av_agents : gmap bytes AgentRow;
  av_profile_grants : gset (bytes * bytes);
  av_capability_grants : gmap (bytes * bytes) GrantRow;
  av_audit_events : list AuditEvent;
  av_proxy_sessions : gmap bytes SessionRow;
  av_proxy_session_bounds : gmap bytes Z;
}.

Definition empty_tables : Tables := Build_Tables ∅ None ∅ ∅ ∅ ∅ ∅ [] ∅ ∅.

Definition set_owners f (t : Tables) : Tables :=
  let 'Build_Tables a b c d e g h i j k := t in Build_Tables (f a) b c d e g h i j k.
Definition set_bootstrap f (t : Tables) : Tables :=
  let 'Build_Tables a b c d e g h i j k := t in Build_Tables a (f b) c d e g h i j k.
Definition set_roles f (t : Tables) : Tables :=
  let 'Build_Tables a b c d e g h i j k := t in Build_Tables a b (f c) d e g h i j k.
Definition set_users f (t : Tables) : Tables :=
  let 'Build_Tables a b c d e g h i j k := t in Build_Tables a b c (f d) e g h i j k.
Definition set_agents f (t : Tables) : Tables :=
  let 'Build_Tables a b c d e g h i j k := t in Build_Tables a b c d (f e) g h i j k.
Definition set_grants f (t : Tables) : Tables :=
  let 'Build_Tables a b c d e g h i j k := t in Build_Tables a b c d e g (f h) i j k.
Definition set_audit f (t : Tables) : Tables :=
  let 'Build_Tables a b c d e g h i j k := t in Build_Tables a b c d e g h (f i) j k.
Definition set_sessions f (t : Tables) : Tables :=
  let 'Build_Tables a b c d e g h i j k := t in Build_Tables a b c d e g h i (f j) k.
Definition set_bounds f (t : Tables) : Tables :=
  let 'Build_Tables a b c d e g h i j k := t in Build_Tables a b c d e g h i j (f k).

Abbreviation DB := (db Tables).

(** [UPDATE .. SET row = f row WHERE cond], with the number of rows affected *)
Definition update_where `{Countable K} {V} (cond : K -> V -> bool) (f : V -> V)
    (m : gmap K V) : gmap K V :=
  map_imap (fun k v => Some (if cond k v then f v else v)) m.
Definition count_where `{Countable K} {V} (cond : K -> V -> bool) (m : gmap K V) : nat :=
  size (filter (fun kv => cond kv.1 kv.2 = true) m).

(** [ORDER BY] a text column, by its bytes: SQLite's default, and PostgreSQL's order in a
    database with the C collation.  Under another collation PostgreSQL lists the same rows
    in another order. *)
Definition bytes_le (a b : bytes) : Prop := compare_bytes a b <> Gt.
#[global] Instance bytes_le_dec a b : Decision (bytes_le a b).
Proof. unfold bytes_le. destruct (compare_bytes a b); [left|left|right]; naive_solver. Defined.
Definition order_by {R} (key : R -> bytes) (rows : list R) : list R :=
  merge_sort (fun a b => bytes_le (key a) (key b)) rows.

(** ** Roles *)

Definition principal_role (subject : bytes) : DB PrincipalRole :=
  role ← query (fun t => av_principal_roles t !! subject);
  match role with
  | Some role => lift (role_parse role)
  | None => mret User
  end.

Definition is_owner (subject : bytes) : DB bool :=
  role ← principal_role subject;
  mret (bool_decide (role = Owner)).

(** [rows.into_iter().map(..).collect::<Result<_>>()] *)
Fixpoint collect_results {A B} (f : A -> result B) (rows : list A) : result (list B) :=
  match rows with
  | [] => Ok []
  | row :: rows => x ← f row; xs ← collect_results f rows; Ok (x :: xs)
  end.

Definition list_principal_roles : DB (list (bytes * PrincipalRole)) :=
  rows ← query (fun t => order_by fst (map_to_list (av_principal_roles t)));
  lift (collect_results (fun '(subject, role) => role ← role_parse role; Ok (subject, role)) rows).

Definition invalid_subject (subject : bytes) : bool :=
  is_empty subject || (1024 <? len subject)%Z || any_control subject.

(** [SELECT COUNT( * ) FROM av_principal_roles WHERE role = 'owner'] *)
Definition owner_count (t : Tables) : nat :=
  count_where (fun _ role => bool_decide (role = &"owner")) (av_principal_roles t).

(** The statements of [set_principal_role] before and after its decision. *)
Definition set_role_guard (subject : bytes) (role : PrincipalRole) : DB unit :=
  current ← query (fun t => av_principal_roles t !! subject);
  if bool_decide (current = Some &"owner") && negb (bool_decide (role = Owner)) then
    owners ← query owner_count;
    lift (bail_if (owners <=? 1) "cannot remove the last owner")
  else mret ().
Definition set_role_write (subject : bytes) (role : PrincipalRole) : DB unit :=
  _ ← execute (set_roles (<[subject := role_as_str role]>));
  if bool_decide (role = Owner)
  then execute (set_owners (fun owners => {[subject]} ∪ owners))
  else execute (set_owners (fun owners => owners ∖ {[subject]})).

Definition set_principal_role (subject : bytes) (role : PrincipalRole) : DB unit :=
  _ ← lift (bail_if (invalid_subject subject) "principal subject is invalid");
  transaction (
    _ ← set_role_guard subject role;
    set_role_write subject role).

(** ** Basic users *)

Definition basic_password_hash (username : bytes) : DB (option bytes) :=
  query (fun t =>
    row ← av_basic_users t !! username;
    if user_enabled row then Some (password_hash row) else None).

Definition list_basic_users : DB (list (bytes * bool)) :=
  rows ← query (fun t => order_by fst (map_to_list (av_basic_users t)));
  mret ((fun '(username, row) => (username, user_enabled row)) <$> rows).

Definition upsert_basic_user (username hash : bytes) : DB unit :=
  execute (set_users (<[username := {| password_hash := hash; user_enabled := true |}]>)).

Definition set_basic_user_enabled (username : bytes) (enabled : bool) : DB bool :=
  affected ← statement (fun t =>
    let cond k (_ : BasicUserRow) := bool_decide (k = username) in
    Ok (count_where cond (av_basic_users t),
        set_users (update_where cond (fun row =>
          {| password_hash := password_hash row; user_enabled := enabled |})) t));
  mret (affected =? 1).

(** ** Agents *)

Definition validate_agent_token (name token_hash : bytes) : result unit :=
  _ ← bail_if (is_empty name || (128 <? len name)%Z
               || negb (forallb (fun byte => is_ascii_alphanumeric byte || one_of "-_" byte) name))
        "agent name must be 1-128 ASCII letters, digits, hyphens, or underscores";
  bail_if (negb (len token_hash =? 32)%Z) "agent token hash must be exactly 32 bytes".

Definition agent_subject (name : bytes) : bytes := &"agent:" ++ name.

Definition list_agents : DB (list (bytes * bool)) :=
  rows ← query (fun t => order_by fst (map_to_list (av_agents t)));
  mret ((fun '(name, row) => (name, agent_enabled row)) <$> rows).

(** Another agent already has the token hash: the UNIQUE constraint. *)
Definition agent_hash_taken (name token_hash : bytes) (t : Tables) : bool :=
  negb (count_where (fun k row => negb (bool_decide (k = name))
                                  && bool_decide (agent_token_hash row = token_hash))
          (av_agents t) =? 0).

Definition create_agent (name token_hash : bytes) : DB unit :=
  _ ← lift (validate_agent_token name token_hash);
  statement (fun t =>
    _ ← bail_if (bool_decide (is_Some (av_agents t !! name))) "duplicate key: av_agents.name";
    _ ← bail_if (agent_hash_taken name token_hash t) "duplicate key: av_agents.token_hash";
    Ok ((), set_agents (<[name := {| agent_token_hash := token_hash;
                                     agent_enabled := true |}]>) t)).

(** [UPDATE av_proxy_sessions SET revoked = TRUE WHERE .. AND revoked = FALSE] *)
Definition revoke_row (row : SessionRow) : SessionRow :=
  {| session_token_hash := session_token_hash row; session_subject := session_subject row;
     session_profile := session_profile row; session_expires := session_expires row;
     session_revoked := true |}.
Definition revoke_sessions_where (cond : bytes -> SessionRow -> bool) : DB nat :=
  statement (fun t =>
    let cond id row := cond id row && negb (session_revoked row) in
    Ok (count_where cond (av_proxy_sessions t),
        set_sessions (update_where cond revoke_row) t)).
Definition revoke_subject_sessions (subject : bytes) : DB nat :=
  revoke_sessions_where (fun _ row => bool_decide (session_subject row = subject)).

Definition rotate_agent_token (name token_hash : bytes) : DB bool :=
  _ ← lift (validate_agent_token name token_hash);
  affected ← transaction (
    affected ← statement (fun t =>
      let cond k (_ : AgentRow) := bool_decide (k = name) in
      _ ← bail_if (bool_decide (is_Some (av_agents t !! name)) && agent_hash_taken name token_hash t)
            "duplicate key: av_agents.token_hash";
      Ok (count_where cond (av_agents t),
          set_agents (update_where cond (fun _ =>
            {| agent_token_hash := token_hash; agent_enabled := true |})) t));
    _ ← revoke_subject_sessions (agent_subject name);
    mret affected);
  mret (affected =? 1).

Definition set_agent_enabled (name : bytes) (enabled : bool) : DB bool :=
  affected ← transaction (
    affected ← statement (fun t =>
      let cond k (_ : AgentRow) := bool_decide (k = name) in
      Ok (count_where cond (av_agents t),
          set_agents (update_where cond (fun row =>
            {| agent_token_hash := agent_token_hash row; agent_enabled := enabled |})) t));
    _ ← (if negb enabled then revoke_subject_sessions (agent_subject name) else mret 0);
    mret affected);
  mret (affected =? 1).

Definition delete_agent (name : bytes) : DB bool :=
  let subject := agent_subject name in
  affected ← transaction (
    _ ← execute (set_grants (filter (fun kv => kv.1.1 <> subject)));
    _ ← revoke_subject_sessions subject;
    statement (fun t =>
      Ok (count_where (fun k (_ : AgentRow) => bool_decide (k = name)) (av_agents t),
          set_agents (delete name) t)));
  mret (affected =? 1).

Definition agent_for_token_hash (token_hash : bytes) : DB (option bytes) :=
  if negb (len token_hash =? 32)%Z then mret None else
  query (fun t =>
    head (map_to_list (filter (fun kv => agent_token_hash kv.2 = token_hash
                                         /\ agent_enabled kv.2 = true) (av_agents t))).*1).

(** ** Grants *)

(** [expires_unix_seconds IS NULL OR expires_unix_seconds > now] *)
Definition unexpired (now : Z) (row : GrantRow) : bool :=
  match grant_expires row with None => true | Some e => (now <? e)%Z end.
(** [mode = 'both' OR mode = $mode] *)
Definition mode_covers (mode : GrantMode) (row : GrantRow) : bool :=
  bool_decide (grant_mode row = &"both") || bool_decide (grant_mode row = mode_as_str mode).

Definition profile_allowed (subject profile : bytes) : DB bool :=
  now ← now_unix_seconds;
  count ← query (fun t => count_where (fun k row =>
    bool_decide (k = (subject, profile)) && unexpired now row) (av_capability_grants t));
  mret (0 <? count).

Definition profile_allowed_for (subject profile : bytes) (mode : GrantMode) : DB bool :=
  now ← now_unix_seconds;
  count ← query (fun t => count_where (fun k row =>
    bool_decide (k = (subject, profile)) && unexpired now row && mode_covers mode row)
    (av_capability_grants t));
  mret (0 <? count).

(** The [profile] column of the rows of one subject that meet a condition. *)
Definition profiles_where (subject : bytes) (cond : GrantRow -> bool) (t : Tables) : list bytes :=
  order_by id
    (map_to_list (filter (fun kv => kv.1.1 = subject /\ cond kv.2 = true)
                    (av_capability_grants t))).*1.*2.

Definition list_allowed_profiles (subject : bytes) : DB (list bytes) :=
  now ← now_unix_seconds;
  query (profiles_where subject (unexpired now)).

Definition list_allowed_profiles_for (subject : bytes) (mode : GrantMode) : DB (list bytes) :=
  now ← now_unix_seconds;
  query (profiles_where subject (fun row => unexpired now row && mode_covers mode row)).

Record ProfileGrant := {
  pg_profile : bytes;
  pg_subject : bytes;
  pg_mode : GrantMode;
  pg_expires : option Z;
}.

Definition profile_grant_of (subject profile : bytes) (row : GrantRow) : result ProfileGrant :=
  mode ← mode_from_database (grant_mode row);
  Ok {| pg_profile := profile; pg_subject := subject; pg_mode := mode;
        pg_expires := grant_expires row |}.

Definition list_profile_grants (profile : bytes) : DB (list ProfileGrant) :=
  rows ← query (fun t => order_by (fun r => r.1.1)
    (map_to_list (filter (fun kv => kv.1.2 = profile) (av_capability_grants t))));
  lift (collect_results (fun '((subject, _), row) => profile_grant_of subject profile row) rows).

Definition list_subject_grants (subject : bytes) : DB (list ProfileGrant) :=
  rows ← query (fun t => order_by (fun r => r.1.2)
    (map_to_list (filter (fun kv => kv.1.1 = subject) (av_capability_grants t))));
  lift (collect_results (fun '((_, profile), row) => profile_grant_of subject profile row) rows).

Definition grant_profile_mode (subject profile : bytes) (mode : GrantMode)
    (expires : option Z) : DB unit :=
  _ ← match expires with
      | Some expires =>
          now ← now_unix_seconds;
          lift (bail_if (expires <=? now)%Z "profile grant expiry must be in the future")
      | None => mret ()
      end;
  execute (set_grants (<[(subject, profile) :=
    {| grant_mode := mode_as_str mode; grant_expires := expires |}]>)).

Definition grant_profile (subject profile : bytes) : DB unit :=
  grant_profile_mode subject profile Both None.

Definition revoke_profile (subject profile : bytes) : DB bool :=
  affected ← statement (fun t =>
    Ok (count_where (fun k (_ : GrantRow) => bool_decide (k = (subject, profile)))
          (av_capability_grants t),
        set_grants (delete (subject, profile)) t));
  mret (affected =? 1).

(** ** Audit *)

Definition newest_first (a b : AuditEvent) : Prop :=
  (created_unix_seconds b <= created_unix_seconds a)%Z.
#[global] Instance newest_first_dec a b : Decision (newest_first a b).
Proof. unfold newest_first. apply _. Defined.

(** [i64::clamp] *)
Definition clamp (lo hi x : Z) : Z := Z.max lo (Z.min hi x).

Definition list_audit_events (limit : Z) : DB (list AuditEvent) :=
  query (fun t => take (Z.to_nat (clamp 1 500 limit))
                    (merge_sort newest_first (av_audit_events t))).

Definition record_audit (actor action : bytes) (profile route executable : option bytes)
    : DB unit :=
  created ← now_unix_seconds;
  execute (set_audit (fun events => events ++
    [{| created_unix_seconds := created; actor := actor; action := action;
        audit_profile := profile; audit_route := route;
        executable_basename := executable |}])).

(** ** Proxy sessions *)

Record ProxySession := {
  ps_session_id : bytes;
  ps_subject : bytes;
  ps_profile : bytes;
  ps_expires : Z;
}.
Definition session_of (id : bytes) (row : SessionRow) : ProxySession :=
  {| ps_session_id := id; ps_subject := session_subject row;
     ps_profile := session_profile row; ps_expires := session_expires row |}.

Definition validate_proxy_session (session_id token_hash subject profile : bytes)
    (expires maximum : Z) : DB unit :=
  _ ← lift (bail_if
        (is_empty session_id || is_empty subject || is_empty profile
         || (256 <? len session_id)%Z || (1024 <? len subject)%Z || (256 <? len profile)%Z
         || any_control session_id || any_control subject || any_control profile)
        "proxy session fields must be non-empty bounded text without control characters");
  _ ← lift (bail_if (negb (len token_hash =? 32)%Z)
        "proxy session token hash must be exactly 32 bytes");
  now ← now_unix_seconds;
  _ ← lift (bail_if (expires <=? now)%Z "proxy session expiry must be in the future");
  lift (bail_if (maximum <? expires)%Z
    "proxy session maximum expiry must not precede its sliding expiry").

Definition session_hash_taken (token_hash : bytes) (t : Tables) : bool :=
  negb (count_where (fun _ row => bool_decide (session_token_hash row = token_hash))
          (av_proxy_sessions t) =? 0).

Definition create_proxy_session (session_id token_hash subject profile : bytes)
    (expires maximum : Z) : DB unit :=
  _ ← validate_proxy_session session_id token_hash subject profile expires maximum;
  transaction (
    _ ← statement (fun t =>
      _ ← bail_if (bool_decide (is_Some (av_proxy_sessions t !! session_id))
                   || session_hash_taken token_hash t) "write proxy session";
      Ok ((), set_sessions (<[session_id :=
        {| session_token_hash := token_hash; session_subject := subject;
           session_profile := profile; session_expires := expires;
           session_revoked := false |}]>) t));
    statement (fun t =>
      _ ← bail_if (bool_decide (is_Some (av_proxy_session_bounds t !! session_id)))
            "write proxy session bound";
      Ok ((), set_bounds (<[session_id := maximum]>) t))).

(** [WHERE token_hash = $1 AND revoked = FALSE AND expires_unix_seconds > now] *)
Definition session_live (token_hash : bytes) (now : Z) (row : SessionRow) : bool :=
  bool_decide (session_token_hash row = token_hash) && negb (session_revoked row)
  && (now <? session_expires row)%Z.

Definition active_proxy_session (token_hash : bytes) : DB (option ProxySession) :=
  if negb (len token_hash =? 32)%Z then mret None else
  now ← now_unix_seconds;
  row ← query (fun t => head (map_to_list
    (filter (fun kv => session_live token_hash now kv.2 = true) (av_proxy_sessions t))));
  mret ((fun '(id, row) => session_of id row) <$> row).

Definition with_expiry (expires : Z) (row : SessionRow) : SessionRow :=
  {| session_token_hash := session_token_hash row; session_subject := session_subject row;
     session_profile := session_profile row; session_expires := expires;
     session_revoked := session_revoked row |}.

(** The row selected by [session_id = $1 AND subject = $2 AND revoked = FALSE AND
    expires_unix_seconds > now]. *)
Definition renewable (session_id subject : bytes) (now : Z) (t : Tables) : option SessionRow :=
  row ← av_proxy_sessions t !! session_id;
  if bool_decide (session_subject row = subject) && negb (session_revoked row)
     && (now <? session_expires row)%Z then Some row else None.

(** PostgreSQL: [UPDATE .. FROM av_proxy_session_bounds .. RETURNING], a join *)
Definition renew_postgres (session_id subject : bytes) (requested now : Z) (t : Tables)
    : option SessionRow * Tables :=
  match renewable session_id subject now t, av_proxy_session_bounds t !! session_id with
  | Some row, Some bound =>
      if (now <? bound)%Z then
        let row := with_expiry (Z.min requested bound) row in
        (Some row, set_sessions (<[session_id := row]>) t)
      else (None, t)
  | _, _ => (None, t)
  end.

(** SQLite: the bound is a scalar subquery, its presence an [EXISTS]; [MIN] with
    a NULL argument is NULL, which the NOT NULL column refuses. *)
Definition renew_sqlite (session_id subject : bytes) (requested now : Z) (t : Tables)
    : result (option SessionRow * Tables) :=
  match renewable session_id subject now t with
  | Some row =>
      let exists_bound :=
        match av_proxy_session_bounds t !! session_id with
        | Some bound => (now <? bound)%Z
        | None => false
        end in
      if exists_bound then
        expires ← ok_or (Z.min requested <$> av_proxy_session_bounds t !! session_id)
                    "NOT NULL constraint failed: av_proxy_sessions.expires_unix_seconds";
        let row := with_expiry expires row in
        Ok (Some row, set_sessions (<[session_id := row]>) t)
      else Ok (None, t)
  | None => Ok (None, t)
  end.

Definition renew_proxy_session_for_subject (backend : Backend) (session_id subject : bytes)
    (requested : Z) : DB (option ProxySession) :=
  _ ← lift (bail_if
        (is_empty session_id || is_empty subject || (256 <? len session_id)%Z
         || (1024 <? len subject)%Z || any_control session_id || any_control subject)
        "proxy session identity is invalid");
  now ← now_unix_seconds;
  _ ← lift (bail_if (requested <=? now)%Z
        "proxy session renewal expiry must be in the future");
  row ← match backend with
        | Postgres => statement (fun t => Ok (renew_postgres session_id subject requested now t))
        | Sqlite => statement (renew_sqlite session_id subject requested now)
        end;
  mret (session_of session_id <$> row).

Definition revoke_proxy_session (session_id : bytes) : DB bool :=
  affected ← revoke_sessions_where (fun id _ => bool_decide (id = session_id));
  mret (affected =? 1).

Definition revoke_proxy_session_for_subject (session_id subject : bytes) : DB bool :=
  affected ← revoke_sessions_where (fun id row =>
    bool_decide (id = session_id) && bool_decide (session_subject row = subject));
  mret (affected =? 1).

(** ** Migration and bootstrap *)

(** The data-changing statements of [migrate]; [CREATE .. IF NOT EXISTS]
    statements leave the rows as they are. *)
Definition migrate_owners (t : Tables) : Tables :=
  set_roles (fun roles => set_fold (fun s => <[s := &"owner"]>) roles (av_owners t)) t.
Definition migrate_profile_grants (t : Tables) : Tables :=
  set_grants (fun grants => grants ∪
    set_to_map (fun k => (k, {| grant_mode := &"both"; grant_expires := None |}))
      (av_profile_grants t)) t.
Definition create_table : DB unit := execute id.

Definition migrate : DB unit :=
  _ ← create_table; _ ← create_table; _ ← create_table;
  _ ← execute migrate_owners;
  _ ← create_table; _ ← create_table; _ ← create_table; _ ← create_table;
  _ ← execute migrate_profile_grants;
  _ ← create_table; _ ← create_table; _ ← create_table; _ ← create_table;
  create_table.

(** [INSERT INTO av_principal_roles SELECT subject, 'owner' FROM av_owners
    WHERE subject = $1 ON CONFLICT DO UPDATE] *)
Definition promote_if_owner (subject : bytes) (t : Tables) : Tables :=
  if bool_decide (subject ∈ av_owners t)
  then set_roles (<[subject := &"owner"]>) t else t.

Definition bootstrap_owner (backend : Backend) (subject : bytes) : DB unit :=
  match backend with
  | Postgres =>
      _ ← execute (fun t =>
            match av_owner_bootstrap t with
            | Some _ => t
            | None => set_owners (fun o => {[subject]} ∪ o)
                        (set_bootstrap (fun _ => Some subject) t)
            end);
      execute (promote_if_owner subject)
  | Sqlite =>
      inserted ← statement (fun t =>
        match av_owner_bootstrap t with
        | Some _ => Ok (0, t)
        | None => Ok (1, set_bootstrap (fun _ => Some subject) t)
        end);
      _ ← (if inserted =? 1 then execute (set_owners (fun o => {[subject]} ∪ o))
           else mret ());
      execute (promote_if_owner subject)
  end.

(** [Store::connect] past the connection: migrate, then bootstrap when an
    initial owner is configured. *)
Definition connect (backend : Backend) (initial_owner_oidc_subject : bytes) : DB unit :=
  _ ← migrate;
  if negb (is_empty initial_owner_oidc_subject)
  then bootstrap_owner backend initial_owner_oidc_subject else mret ().
