(* ===== verification/StoreFacts.v ===== *)
(** StoreFacts: the store's operations as atomic steps.

    [run_op] runs one state-changing method; [step] is one such run under any
    clock and any failures, [rtc step] any sequence of them.  Every method is
    atomic, so an invariant is checked on ideal runs only. *)

From Stdlib Require Import Ascii String.
From stdpp Require Import base list strings gmap relations.
From S2P Require Import Prelude Str Database Store.

(** ** Selection lemmas *)

Section Tables.
Context `{Countable K} {V : Type}.
Implicit Types (m : gmap K V) (cond : K -> V -> bool).

Lemma lookup_update_where cond f m k :
  update_where cond f m !! k = (fun v => if cond k v then f v else v) <$> m !! k.
Proof. unfold update_where. rewrite map_lookup_imap. by destruct (m !! k). Qed.

Lemma count_where_zero cond m :
  count_where cond m = 0 <-> forall k v, m !! k = Some v -> cond k v = false.
Proof.
  unfold count_where. rewrite map_size_empty_iff, map_empty. split.
  - intros Hn k v Hk. specialize (Hn k). rewrite map_lookup_filter_None in Hn.
    destruct Hn as [Hn|Hn]; [congruence|]. apply not_true_iff_false. by apply Hn.
  - intros Hc k. rewrite map_lookup_filter_None. right. intros v Hk. simpl.
    rewrite (Hc k v Hk). done.
Qed.

Lemma count_where_pos cond m :
  0 < count_where cond m <-> exists k v, m !! k = Some v /\ cond k v = true.
Proof.
  split.
  - intros Hp. unfold count_where in Hp.
    destruct (map_choose (filter (fun kv => cond kv.1 kv.2 = true) m)) as (k & v & Hk).
    { intros He. rewrite He, map_size_empty in Hp. lia. }
    apply map_lookup_filter_Some in Hk as [? ?]. by exists k, v.
  - intros (k & v & Hk & Hc). apply Nat.neq_0_lt_0. intros Hz.
    rewrite count_where_zero in Hz. by rewrite (Hz k v Hk) in Hc.
Qed.

End Tables.

(** ** Operations as steps *)

(** The methods that change the tables of a running store.  [Store::connect] runs before
    them: its migrations and the owner bootstrap are separate statements. *)

Inductive op :=
| SetPrincipalRole (subject : bytes) (role : PrincipalRole)
| UpsertBasicUser (username hash : bytes)
| SetBasicUserEnabled (username : bytes) (enabled : bool)
| CreateAgent (name token_hash : bytes)
| RotateAgentToken (name token_hash : bytes)
| SetAgentEnabled (name : bytes) (enabled : bool)
| DeleteAgent (name : bytes)
| GrantProfileMode (subject profile : bytes) (mode : GrantMode) (expires : option Z)
| RevokeProfile (subject profile : bytes)
| RecordAudit (actor action : bytes) (profile route executable : option bytes)
| CreateProxySession (session_id token_hash subject profile : bytes) (expires maximum : Z)
| RenewProxySession (backend : Backend) (session_id subject : bytes) (requested : Z)
| RevokeProxySession (session_id : bytes)
| RevokeProxySessionForSubject (session_id subject : bytes).

Definition discard {A} (m : DB A) : DB unit := m ≫= fun _ => mret ().

Definition run_op (o : op) : DB unit :=
  match o with
  | SetPrincipalRole s r => set_principal_role s r
  | UpsertBasicUser u h => upsert_basic_user u h
  | SetBasicUserEnabled u e => discard (set_basic_user_enabled u e)
  | CreateAgent n h => create_agent n h
  | RotateAgentToken n h => discard (rotate_agent_token n h)
  | SetAgentEnabled n e => discard (set_agent_enabled n e)
  | DeleteAgent n => discard (delete_agent n)
  | GrantProfileMode s p m e => grant_profile_mode s p m e
  | RevokeProfile s p => discard (revoke_profile s p)
  | RecordAudit a b c d e => record_audit a b c d e
  | CreateProxySession a b c d e f => create_proxy_session a b c d e f
  | RenewProxySession b i s r => discard (renew_proxy_session_for_subject b i s r)
  | RevokeProxySession i => discard (revoke_proxy_session i)
  | RevokeProxySessionForSubject i s => discard (revoke_proxy_session_for_subject i s)
  end.

Inductive step (t : Tables) : Tables -> Prop :=
| step_op o c os :
    step t (tables (run_op o {| tables := t; clock := c; outcomes := os |}).2).

(** ** Every operation is atomic *)

Lemma set_role_guard_readonly subject role : readonly (set_role_guard subject role).
Proof.
  unfold set_role_guard. apply readonly_bind; [apply readonly_query|]. intros current.
  destruct (_ && _); [|apply readonly_ret].
  apply readonly_bind; [apply readonly_query|]. intros n. apply readonly_lift.
Qed.

Lemma set_role_write_honest subject role : honest (set_role_write subject role).
Proof.
  unfold set_role_write, execute. apply honest_bind; [apply honest_statement|]. intros _.
  destruct (bool_decide _); apply honest_statement.
Qed.

Lemma set_principal_role_atomic subject role : atomic (set_principal_role subject role).
Proof.
  apply atomic_bind_read; [apply readonly_lift|]. intros _. apply atomic_transaction.
  apply honest_bind; [apply set_role_guard_readonly|]. intros _. apply set_role_write_honest.
Qed.

Lemma revoke_where_atomic cond : atomic (revoke_sessions_where cond).
Proof. apply atomic_statement. Qed.

Lemma validate_proxy_session_readonly i h s p e m :
  readonly (validate_proxy_session i h s p e m).
Proof.
  repeat (apply readonly_bind; [apply readonly_lift || apply readonly_now|intros ?]).
  apply readonly_lift.
Qed.

Lemma run_op_atomic o : atomic (run_op o).
Proof.
  destruct o; cbn [run_op]; try apply (atomic_bind_pure _ (fun _ => tt)).
  - apply set_principal_role_atomic.
  - apply atomic_statement.
  - apply atomic_bind_pure, atomic_statement.
  - apply atomic_bind_read; [apply readonly_lift|]. intros _. apply atomic_statement.
  - apply atomic_bind_read; [apply readonly_lift|]. intros _.
    apply atomic_bind_pure, atomic_transaction.
    repeat (apply honest_bind; [apply honest_statement|intros ?]). apply honest_ret.
  - apply atomic_bind_pure, atomic_transaction.
    apply honest_bind; [apply honest_statement|intros a].
    apply honest_bind; [|intros ?; apply honest_ret].
    destruct enabled; [apply honest_ret|apply honest_statement].
  - apply atomic_bind_pure, atomic_transaction.
    repeat (apply honest_bind; [apply honest_statement|intros ?]). apply honest_statement.
  - apply atomic_bind_read; [|intros _; apply atomic_statement].
    destruct expires; [|apply readonly_ret].
    apply readonly_bind; [apply readonly_now|]. intros now. apply readonly_lift.
  - apply atomic_bind_pure, atomic_statement.
  - apply atomic_bind_read; [apply readonly_now|]. intros now. apply atomic_statement.
  - apply atomic_bind_read; [apply validate_proxy_session_readonly|]. intros _.
    apply atomic_transaction. apply honest_bind; [apply honest_statement|intros ?].
    apply honest_statement.
  - unfold renew_proxy_session_for_subject.
    repeat (apply atomic_bind_read; [apply readonly_lift || apply readonly_now|intros ?]).
    apply (atomic_bind_pure _ (fmap _)). destruct backend; apply atomic_statement.
  - apply atomic_bind_pure, atomic_statement.
  - apply atomic_bind_pure, atomic_statement.
Qed.

(** A step leaves the tables alone or is the ideal run of an operation. *)
Lemma step_ideal t t' :
  step t t' -> t' = t \/ exists o c, ideal (run_op o) c t = (Ok (), t').
Proof.
  intros [o c os]. set (w := {| tables := t; clock := c; outcomes := os |}).
  destruct (atomic_effect _ (run_op_atomic o) w) as [He|[[] He]]; [by left|].
  right. by exists o, c.
Qed.

#[export] Hint Resolve set_role_guard_readonly validate_proxy_session_readonly : av.

Definition session_evolves (t t' : Tables) : Prop :=
  forall id row, av_proxy_sessions t !! id = Some row ->
  exists row', av_proxy_sessions t' !! id = Some row'
    /\ session_token_hash row' = session_token_hash row
    /\ session_subject row' = session_subject row
    /\ session_profile row' = session_profile row
    /\ (session_revoked row = true -> row' = row)
    /\ forall bound, av_proxy_session_bounds t !! id = Some bound ->
         av_proxy_session_bounds t' !! id = Some bound
         /\ (session_expires row <= bound -> session_expires row' <= bound)%Z.

Lemma session_evolves_frame t t' :
  av_proxy_sessions t' = av_proxy_sessions t ->
  av_proxy_session_bounds t' = av_proxy_session_bounds t -> session_evolves t t'.
Proof. intros Hs Hb id row Hrow. rewrite Hs, Hb. exists row. naive_solver. Qed.

Lemma session_evolves_revoke t t' cond :
  av_proxy_sessions t' = update_where (fun id row => cond id row && negb (session_revoked row))
                           revoke_row (av_proxy_sessions t) ->
  av_proxy_session_bounds t' = av_proxy_session_bounds t -> session_evolves t t'.
Proof.
  intros Hs Hb id row Hrow. rewrite Hs, Hb, lookup_update_where, Hrow. simpl.
  eexists. split; [done|]. destruct (cond id row), (session_revoked row) eqn:Er; simpl;
    split_and!; naive_solver.
Qed.

Lemma session_evolves_insert t t' id row m :
  av_proxy_sessions t !! id = None ->
  av_proxy_sessions t' = <[id := row]> (av_proxy_sessions t) ->
  av_proxy_session_bounds t' = <[id := m]> (av_proxy_session_bounds t) ->
  session_evolves t t'.
Proof.
  intros Hn Hs Hb id' row' Hrow. assert (id <> id') by congruence.
  rewrite Hs, Hb, !lookup_insert_ne by done. exists row'. naive_solver.
Qed.

(** Both renewal statements agree. *)
Lemma renew_sqlite_postgres id subject requested now t :
  renew_sqlite id subject requested now t = Ok (renew_postgres id subject requested now t).
Proof.
  unfold renew_sqlite, renew_postgres.
  destruct (renewable id subject now t) as [row|]; [|done].
  destruct (av_proxy_session_bounds t !! id) as [bound|]; simpl; [|done]. by case_match.
Qed.

Lemma renewable_spec id subject now t row :
  renewable id subject now t = Some row <->
  av_proxy_sessions t !! id = Some row /\ session_subject row = subject
  /\ session_revoked row = false /\ (now < session_expires row)%Z.
Proof.
  unfold renewable. rewrite bind_Some. split.
  - intros (r & Hr & Hc). destruct (_ && _) eqn:E; [|done]. simplify_eq.
    apply andb_true_iff in E as [[E1 E2]%andb_true_iff E3]. by breflect in *.
  - intros (Hr & <- & Hrev & Hexp). exists row. split; [done|].
    rewrite bool_decide_eq_true_2, Hrev, (proj2 (Z.ltb_lt _ _) Hexp) by done. done.
Qed.

Lemma session_evolves_renew id subject requested now t :
  session_evolves t (renew_postgres id subject requested now t).2.
Proof.
  unfold renew_postgres.
  destruct (renewable _ _ _ _) as [row|] eqn:Er; [|by apply session_evolves_frame].
  destruct (av_proxy_session_bounds t !! id) as [bound|] eqn:Eb;
    [|by apply session_evolves_frame].
  destruct (now <? bound)%Z; [|by apply session_evolves_frame].
  apply renewable_spec in Er as (Hrow & _ & Hrev & _). intros id' row' Hrow'.
  destruct t. simpl in *. destruct (decide (id = id')) as [<-|Hne].
  - rewrite lookup_insert_eq. simplify_eq. eexists. split; [done|]. simpl.
    split_and!; try done; [congruence|]. intros b Hb. simplify_eq. split; [done|]. lia.
  - rewrite lookup_insert_ne by done. exists row'. naive_solver.
Qed.

(** ** What an operation does when it takes effect *)

Definition write_role (subject : bytes) (role : PrincipalRole) (t : Tables) : Tables :=
  set_owners (fun owners => if bool_decide (role = Owner) then {[subject]} ∪ owners
                            else owners ∖ {[subject]})
    (set_roles (<[subject := role_as_str role]>) t).

Definition update_agent (name : bytes) (f : AgentRow -> AgentRow) (t : Tables) : Tables :=
  set_agents (update_where (fun k _ => bool_decide (k = name)) f) t.

Definition revoke_where (cond : bytes -> SessionRow -> bool) (t : Tables) : Tables :=
  set_sessions (update_where (fun id row => cond id row && negb (session_revoked row))
                  revoke_row) t.
Definition of_subject (subject : bytes) (_ : bytes) (row : SessionRow) : bool :=
  bool_decide (session_subject row = subject).

(** The change each operation makes, and what it requires of the tables. *)
Definition effect (o : op) (c : option Z) (t t' : Tables) : Prop :=
  match o with
  | SetPrincipalRole s r =>
      invalid_subject s = false
      /\ (av_principal_roles t !! s = Some &"owner" -> r <> Owner -> 1 < owner_count t)
      /\ t' = write_role s r t
  | UpsertBasicUser u h =>
      t' = set_users (<[u := {| password_hash := h; user_enabled := true |}]>) t
  | SetBasicUserEnabled u e =>
      t' = set_users (update_where (fun k _ => bool_decide (k = u)) (fun row =>
             {| password_hash := password_hash row; user_enabled := e |})) t
  | CreateAgent n h =>
      validate_agent_token n h = Ok () /\ av_agents t !! n = None
      /\ agent_hash_taken n h t = false
      /\ t' = set_agents (<[n := {| agent_token_hash := h; agent_enabled := true |}]>) t
  | RotateAgentToken n h =>
      validate_agent_token n h = Ok ()
      /\ (is_Some (av_agents t !! n) -> agent_hash_taken n h t = false)
      /\ t' = revoke_where (of_subject (agent_subject n)) (update_agent n (fun _ =>
             {| agent_token_hash := h; agent_enabled := true |}) t)
  | SetAgentEnabled n e =>
      let t1 := update_agent n (fun row =>
        {| agent_token_hash := agent_token_hash row; agent_enabled := e |}) t in
      t' = if e then t1 else revoke_where (of_subject (agent_subject n)) t1
  | DeleteAgent n =>
      t' = set_agents (delete n) (revoke_where (of_subject (agent_subject n))
             (set_grants (filter (fun kv => kv.1.1 <> agent_subject n)) t))
  | GrantProfileMode s p m e =>
      (forall x, e = Some x -> exists now, c = Some now /\ (now < x)%Z)
      /\ t' = set_grants (<[(s, p) := {| grant_mode := mode_as_str m; grant_expires := e |}]>) t
  | RevokeProfile s p => t' = set_grants (delete (s, p)) t
  | RecordAudit a b p r x =>
      exists now, c = Some now
      /\ t' = set_audit (fun events => events ++
           [{| created_unix_seconds := now; actor := a; action := b; audit_profile := p;
               audit_route := r; executable_basename := x |}]) t
  | CreateProxySession i h s p e m =>
      (exists now, c = Some now /\ (now < e)%Z) /\ (e <= m)%Z /\ (len h = 32)%Z
      /\ av_proxy_sessions t !! i = None /\ session_hash_taken h t = false
      /\ av_proxy_session_bounds t !! i = None
      /\ t' = set_bounds (<[i := m]>) (set_sessions (<[i :=
           {| session_token_hash := h; session_subject := s; session_profile := p;
              session_expires := e; session_revoked := false |}]>) t)
  | RenewProxySession _ i s r =>
      exists now, c = Some now /\ (now < r)%Z /\ t' = (renew_postgres i s r now t).2
  | RevokeProxySession i => t' = revoke_where (fun id _ => bool_decide (id = i)) t
  | RevokeProxySessionForSubject i s =>
      t' = revoke_where (fun id row => bool_decide (id = i)
                                       && bool_decide (session_subject row = s)) t
  end.

Lemma set_role_guard_ok s r c t u t' :
  ideal (set_role_guard s r) c t = (Ok u, t') ->
  t' = t /\ (av_principal_roles t !! s = Some &"owner" -> r <> Owner -> 1 < owner_count t).
Proof.
  unfold set_role_guard. intros Hi. inv_ideal. destruct (_ && _) eqn:E; inv_ideal.
  - split; [done|]. inv_ok. breflect in *. lia.
  - split; [done|]. intros Ho Hr. rewrite andb_false_iff, negb_false_iff in E. breflect in E.
    naive_solver.
Qed.

Lemma set_principal_role_ok s r c t u t' :
  ideal (set_principal_role s r) c t = (Ok u, t') ->
  invalid_subject s = false
  /\ (av_principal_roles t !! s = Some &"owner" -> r <> Owner -> 1 < owner_count t)
  /\ t' = write_role s r t.
Proof.
  unfold set_principal_role, set_role_write. intros Hi. inv_ideal. inv_ok.
  match goal with H : ideal (set_role_guard _ _) _ _ = _ |- _ =>
    apply set_role_guard_ok in H as [-> Hg] end.
  split_and!; [done|done|]. unfold write_role.
  destruct (bool_decide (r = Owner)); by inv_ideal.
Qed.

Lemma create_proxy_session_ok i h s p e m c t u t' :
  ideal (create_proxy_session i h s p e m) c t = (Ok u, t') ->
  effect (CreateProxySession i h s p e m) c t t'.
Proof.
  unfold create_proxy_session, validate_proxy_session. intros Hi. inv_ideal. inv_ok.
  breflect in *. simplify_eq. rewrite <- !eq_None_not_Some in *. destruct_and!.
  split_and!; [by eexists|done|done|done|done| |done]. by destruct t.
Qed.

Lemma renew_proxy_session_ok b i s r c t u t' :
  ideal (renew_proxy_session_for_subject b i s r) c t = (Ok u, t') ->
  exists now, c = Some now /\ (now < r)%Z
    /\ t' = (renew_postgres i s r now t).2
    /\ u = session_of i <$> (renew_postgres i s r now t).1.
Proof.
  unfold renew_proxy_session_for_subject. intros Hi. inv_ideal. inv_ok. breflect in *.
  eexists. split; [done|]. split; [done|].
  destruct b; inv_ideal; rewrite ?renew_sqlite_postgres in *; inv_ok;
    match goal with H : renew_postgres _ _ _ _ _ = _ |- _ => by rewrite H end.
Qed.

Lemma run_op_effect o c t t' :
  ideal (run_op o) c t = (Ok (), t') -> effect o c t t'.
Proof.
  destruct o; cbn [run_op effect]; unfold discard; intros Hi.
  - by apply set_principal_role_ok in Hi.
  - unfold upsert_basic_user in Hi. by inv_ideal.
  - unfold set_basic_user_enabled in Hi. inv_ideal. inv_ok. by simplify_eq.
  - unfold create_agent in Hi. inv_ideal. destruct x. inv_ok. simplify_eq.
    breflect in *. by rewrite <- eq_None_not_Some in *.
  - unfold rotate_agent_token, revoke_subject_sessions, revoke_sessions_where in Hi.
    inv_ideal. inv_ok. simplify_eq.
    match goal with H : validate_agent_token _ _ = Ok ?v |- _ => destruct v end.
    split_and!; [done| |done]. intros Hs.
    match goal with H : _ && agent_hash_taken _ _ _ = false |- _ =>
      apply andb_false_iff in H as [H|H]; [by apply bool_decide_eq_false in H|done] end.
  - unfold set_agent_enabled, revoke_subject_sessions, revoke_sessions_where in Hi.
    destruct enabled; simpl in Hi; inv_ideal; inv_ok; by simplify_eq.
  - unfold delete_agent, revoke_subject_sessions, revoke_sessions_where in Hi.
    inv_ideal. inv_ok. by simplify_eq.
  - unfold grant_profile_mode in Hi. inv_ideal. destruct expires as [e|]; inv_ideal.
    + inv_ok. breflect in *. split; [|done]. intros ? [= <-]. eauto.
    + done.
  - unfold revoke_profile in Hi. inv_ideal. inv_ok. by simplify_eq.
  - unfold record_audit in Hi. inv_ideal. by eexists.
  - by apply create_proxy_session_ok in Hi.
  - inv_ideal. match goal with H : ideal (renew_proxy_session_for_subject _ _ _ _) _ _ = _ |- _ =>
      apply renew_proxy_session_ok in H as (now & ? & ? & ? & _) end. by exists now.
  - unfold revoke_proxy_session, revoke_sessions_where in Hi. inv_ideal. inv_ok. by simplify_eq.
  - unfold revoke_proxy_session_for_subject, revoke_sessions_where in Hi. inv_ideal. inv_ok.
    by simplify_eq.
Qed.

(** ** Sessions over time *)

Lemma effect_session_evolves o c t t' : effect o c t t' -> session_evolves t t'.
Proof.
  destruct o; cbn [effect]; intros He; destruct_and?; split_hyps; subst.
  - apply session_evolves_frame; by destruct t.
  - apply session_evolves_frame; by destruct t.
  - apply session_evolves_frame; by destruct t.
  - apply session_evolves_frame; by destruct t.
  - eapply session_evolves_revoke; by destruct t.
  - destruct enabled; [apply session_evolves_frame|eapply session_evolves_revoke];
      by destruct t.
  - eapply session_evolves_revoke; by destruct t.
  - apply session_evolves_frame; by destruct t.
  - apply session_evolves_frame; by destruct t.
  - apply session_evolves_frame; by destruct t.
  - eapply session_evolves_insert; [done|by destruct t..].
  - apply session_evolves_renew.
  - eapply session_evolves_revoke; by destruct t.
  - eapply (session_evolves_revoke _ _ (fun id row => bool_decide (id = session_id)
      && bool_decide (session_subject row = subject))); by destruct t.
Qed.

Lemma step_effect t t' : step t t' -> t' = t \/ exists o c, effect o c t t'.
Proof.
  intros [->|(o & c & Hi)]%step_ideal; [by left|]. right. exists o, c. by apply run_op_effect.
Qed.

Lemma step_session_evolves t t' : step t t' -> session_evolves t t'.
Proof.
  intros [->|(o & c & He)]%step_effect.
  - by apply session_evolves_frame.
  - by eapply effect_session_evolves.
Qed.

Lemma session_evolves_trans t1 t2 t3 :
  session_evolves t1 t2 -> session_evolves t2 t3 -> session_evolves t1 t3.
Proof.
  intros H12 H23 id row Hrow. destruct (H12 _ _ Hrow) as (r2 & Hr2 & Hh & Hs & Hp & Hrev & Hb).
  destruct (H23 _ _ Hr2) as (r3 & Hr3 & Hh' & Hs' & Hp' & Hrev' & Hb').
  exists r3. split; [done|]. split_and!; try congruence.
  - intros Hr. rewrite (Hrev Hr) in *. by apply Hrev'.
  - intros b Hbd. destruct (Hb _ Hbd) as [Hbd2 Hle]. destruct (Hb' _ Hbd2) as [? Hle'].
    split; [done|]. auto.
Qed.

Lemma steps_session_evolves t t' : rtc step t t' -> session_evolves t t'.
Proof.
  induction 1 as [t|t1 t2 t3 Hs _ IH]; [by apply session_evolves_frame|].
  eapply session_evolves_trans; [by apply step_session_evolves|done].
Qed.

(** ** The schema's constraints and AV's own invariants *)

Record wf_tables (t : Tables) : Prop := {
  wf_roles s r : av_principal_roles t !! s = Some r -> exists role, r = role_as_str role;
  (** [av_owners] mirrors the owner rows of [av_principal_roles] *)
  wf_owners s : s ∈ av_owners t <-> av_principal_roles t !! s = Some &"owner";
  wf_agent_hash n a : av_agents t !! n = Some a -> len (agent_token_hash a) = 32%Z;
  wf_agent_unique n a n' a' :
    av_agents t !! n = Some a -> av_agents t !! n' = Some a' ->
    agent_token_hash a = agent_token_hash a' -> n = n';
  wf_session_unique i s i' s' :
    av_proxy_sessions t !! i = Some s -> av_proxy_sessions t !! i' = Some s' ->
    session_token_hash s = session_token_hash s' -> i = i';
  wf_session_bound i s b :
    av_proxy_sessions t !! i = Some s -> av_proxy_session_bounds t !! i = Some b ->
    (session_expires s <= b)%Z;
  wf_modes k g : av_capability_grants t !! k = Some g -> exists m, grant_mode g = mode_as_str m;
}.

(** The parts of the invariant each group of operations touches. *)
Definition roles_wf (t : Tables) : Prop :=
  (forall s r, av_principal_roles t !! s = Some r -> exists role, r = role_as_str role)
  /\ (forall s, s ∈ av_owners t <-> av_principal_roles t !! s = Some &"owner").
Definition agents_wf (m : gmap bytes AgentRow) : Prop :=
  (forall n a, m !! n = Some a -> len (agent_token_hash a) = 32%Z)
  /\ (forall n a n' a', m !! n = Some a -> m !! n' = Some a' ->
        agent_token_hash a = agent_token_hash a' -> n = n').
Definition sessions_wf (m : gmap bytes SessionRow) (b : gmap bytes Z) : Prop :=
  (forall i s i' s', m !! i = Some s -> m !! i' = Some s' ->
     session_token_hash s = session_token_hash s' -> i = i')
  /\ (forall i s x, m !! i = Some s -> b !! i = Some x -> (session_expires s <= x)%Z).
Definition grants_wf (m : gmap (bytes * bytes) GrantRow) : Prop :=
  forall k g, m !! k = Some g -> exists m, grant_mode g = mode_as_str m.

Lemma wf_tables_parts t :
  wf_tables t <-> roles_wf t /\ agents_wf (av_agents t)
  /\ sessions_wf (av_proxy_sessions t) (av_proxy_session_bounds t)
  /\ grants_wf (av_capability_grants t).
Proof.
  split.
  - intros []. repeat split; eauto; naive_solver.
  - intros ([? ?] & [? ?] & [? ?] & ?). by split.
Qed.

Lemma roles_wf_write s r t : roles_wf t -> roles_wf (write_role s r t).
Proof.
  intros [Hr Ho]. unfold write_role. destruct t as [ow ? ro]. unfold roles_wf in *. simpl in *.
  split.
  - intros s' x. rewrite lookup_insert_Some. naive_solver.
  - intros s'. specialize (Ho s'). destruct (decide (s = s')) as [<-|Hne].
    + rewrite lookup_insert_eq. destruct r; simpl; set_solver.
    + rewrite lookup_insert_ne by done. case_bool_decide; set_solver.
Qed.

Lemma agents_wf_update name f m :
  agents_wf m -> (forall a, agent_token_hash (f a) = agent_token_hash a) ->
  agents_wf (update_where (fun k _ => bool_decide (k = name)) f m).
Proof.
  intros [Hl Hu] Hf.
  assert (forall n a, update_where (fun k _ => bool_decide (k = name)) f m !! n = Some a ->
    exists a0, m !! n = Some a0 /\ agent_token_hash a = agent_token_hash a0) as Hget.
  { intros n a. rewrite lookup_update_where, fmap_Some. intros (a0 & Ha0 & ->).
    exists a0. split; [done|]. by case_match. }
  split.
  - intros n a (a0 & Ha0 & ->)%Hget. by eapply Hl.
  - intros n a n' a' (b & Hb & Eb)%Hget (b' & Hb' & Eb')%Hget Heq.
    eapply Hu; [done|done|]. congruence.
Qed.

Lemma agent_hash_taken_false name h t :
  agent_hash_taken name h t = false <->
  forall n a, av_agents t !! n = Some a -> n <> name -> agent_token_hash a <> h.
Proof.
  unfold agent_hash_taken. rewrite negb_false_iff, Nat.eqb_eq, count_where_zero.
  setoid_rewrite andb_false_iff. setoid_rewrite negb_false_iff.
  setoid_rewrite bool_decide_eq_true. setoid_rewrite bool_decide_eq_false. split.
  - intros Hc n a Ha Hn. by destruct (Hc n a Ha).
  - intros Hc n a Ha. destruct (decide (n = name)); [by left|right; eauto].
Qed.

Lemma session_hash_taken_false h t :
  session_hash_taken h t = false <->
  forall i s, av_proxy_sessions t !! i = Some s -> session_token_hash s <> h.
Proof.
  unfold session_hash_taken. rewrite negb_false_iff, Nat.eqb_eq, count_where_zero.
  setoid_rewrite bool_decide_eq_false. done.
Qed.

Lemma validate_agent_token_len n h : validate_agent_token n h = Ok () -> len h = 32%Z.
Proof. unfold validate_agent_token. intros H. inv_ok. by breflect in *. Qed.

(** Setting one agent's hash to a fresh 32-byte value. *)
Lemma agents_wf_fresh name h m m' :
  agents_wf m -> len h = 32%Z ->
  (forall n a, m !! n = Some a -> n <> name -> agent_token_hash a <> h) ->
  (forall n a, m' !! n = Some a ->
     (n = name /\ agent_token_hash a = h) \/ (n <> name /\ m !! n = Some a)) ->
  agents_wf m'.
Proof.
  intros [Hl Hu] Hlen Hfresh Hm'. split.
  - intros n a [[-> ->]|[? ?]]%Hm'; eauto.
  - intros n a n' a' [[-> E]|[? E]]%Hm' [[-> E']|[? E']]%Hm' Heq; eauto.
    + exfalso. eapply Hfresh; [exact E'|done|congruence].
    + exfalso. eapply Hfresh; [exact E|done|congruence].
Qed.

Lemma sessions_wf_evolve m b m' :
  sessions_wf m b ->
  (forall i s', m' !! i = Some s' -> exists s, m !! i = Some s
     /\ session_token_hash s' = session_token_hash s
     /\ (forall x, b !! i = Some x -> session_expires s <= x -> session_expires s' <= x)%Z) ->
  sessions_wf m' b.
Proof.
  intros [Hu Hb] Hm. split.
  - intros i s i' s' (x & Hx & Ex & _)%Hm (y & Hy & Ey & _)%Hm Heq.
    eapply Hu; [done|done|]. congruence.
  - intros i s x (y & Hy & _ & Hle)%Hm Hx. eauto.
Qed.

Lemma sessions_wf_revoke cond m b :
  sessions_wf m b -> sessions_wf (update_where cond revoke_row m) b.
Proof.
  intros H. eapply sessions_wf_evolve; [done|]. intros i s'.
  rewrite lookup_update_where, fmap_Some. intros (s & Hs & ->). exists s.
  split; [done|]. by case_match.
Qed.

Lemma sessions_wf_renew i s r now t :
  sessions_wf (av_proxy_sessions t) (av_proxy_session_bounds t) ->
  let t' := (renew_postgres i s r now t).2 in
  sessions_wf (av_proxy_sessions t') (av_proxy_session_bounds t').
Proof.
  intros Hwf. unfold renew_postgres.
  destruct (renewable i s now t) as [row|] eqn:Er; [|done].
  destruct (av_proxy_session_bounds t !! i) as [x|] eqn:Eb; [|done].
  destruct (now <? x)%Z; [|done]. apply renewable_spec in Er as (Hrow & _).
  destruct t. simpl in *. eapply sessions_wf_evolve; [done|]. intros i' s'.
  rewrite lookup_insert_Some. intros [[<- <-]|[Hne Hs']].
  - exists row. simpl. split_and!; [done|done|]. intros y Hy. simplify_eq. lia.
  - exists s'. naive_solver.
Qed.

Lemma sessions_wf_insert i s x m b :
  sessions_wf m b -> (session_expires s <= x)%Z ->
  (forall i' s', m !! i' = Some s' -> session_token_hash s' <> session_token_hash s) ->
  sessions_wf (<[i := s]> m) (<[i := x]> b).
Proof.
  intros [Hu Hb] Hx Hfresh. split.
  - intros i1 s1 i2 s2. rewrite !lookup_insert_Some.
    intros [[<- <-]|[? E1]] [[<- <-]|[? E2]] Heq; eauto; exfalso; eapply Hfresh; eauto.
  - intros i1 s1 y. rewrite !lookup_insert_Some. intros [[<- <-]|[? E1]] [[? <-]|[? E2]];
      naive_solver.
Qed.

Lemma effect_roles_wf o c t t' : effect o c t t' -> roles_wf t -> roles_wf t'.
Proof.
  intros He. destruct o; cbn [effect] in He; destruct_and?; split_hyps; subst;
    try (destruct t; done).
  - apply roles_wf_write.
  - destruct t, enabled; done.
  - unfold renew_postgres. repeat case_match; destruct t; done.
Qed.

Lemma effect_agents_wf o c t t' :
  effect o c t t' -> agents_wf (av_agents t) -> agents_wf (av_agents t').
Proof.
  intros He Hwf. destruct o; cbn [effect] in He; destruct_and?; split_hyps; subst;
    try (destruct t; done).
  - eapply agents_wf_fresh; [done|by eapply validate_agent_token_len| |].
    + by apply agent_hash_taken_false.
    + intros n a. destruct t. simpl in *. rewrite lookup_insert_Some. naive_solver.
  - destruct (av_agents t !! name) as [old|] eqn:En.
    + eapply (agents_wf_fresh name token_hash); [done|by eapply validate_agent_token_len| |].
      * apply agent_hash_taken_false. eauto.
      * intros n a. destruct t. simpl in *. rewrite lookup_update_where, fmap_Some.
        intros (a0 & Ha0 & ->). case_bool_decide; naive_solver.
    + replace (av_agents _) with (av_agents t); [done|].
      apply map_eq. intros n. destruct t. simpl in *. rewrite lookup_update_where.
      destruct (decide (n = name)) as [->|Hne]; [by rewrite En|].
      rewrite bool_decide_eq_false_2 by done. by destruct (_ !! n).
  - destruct t, enabled; simpl in *; by apply agents_wf_update.
  - destruct t. simpl in *. destruct Hwf as [Hl Hu]. split.
    + intros n a [_ ?]%lookup_delete_Some. eauto.
    + intros n a n' a' [_ ?]%lookup_delete_Some [_ ?]%lookup_delete_Some. eauto.
  - unfold renew_postgres. repeat case_match; destruct t; done.
Qed.

Lemma effect_sessions_wf o c t t' :
  effect o c t t' -> sessions_wf (av_proxy_sessions t) (av_proxy_session_bounds t) ->
  sessions_wf (av_proxy_sessions t') (av_proxy_session_bounds t').
Proof.
  intros He Hwf. destruct o; cbn [effect] in He; destruct_and?; split_hyps; subst;
    try (destruct t; done); try (destruct t; by apply sessions_wf_revoke).
  - destruct t, enabled; [done|by apply sessions_wf_revoke].
  - rewrite session_hash_taken_false in *. destruct t. by apply sessions_wf_insert.
  - by apply sessions_wf_renew.
Qed.

Lemma effect_grants_wf o c t t' :
  effect o c t t' -> grants_wf (av_capability_grants t) -> grants_wf (av_capability_grants t').
Proof.
  intros He Hwf. destruct o; cbn [effect] in He; destruct_and?; split_hyps; subst;
    try (destruct t; done).
  - destruct t, enabled; done.
  - destruct t. intros k g [Hk _]%map_lookup_filter_Some. eauto.
  - destruct t. intros k g. simpl. rewrite lookup_insert_Some.
    intros [[_ <-]|[_ ?]]; [by eexists|eauto].
  - destruct t. intros k g. simpl. intros [_ ?]%lookup_delete_Some. eauto.
  - unfold renew_postgres. repeat case_match; destruct t; done.
Qed.

Lemma effect_wf_tables o c t t' : effect o c t t' -> wf_tables t -> wf_tables t'.
Proof.
  rewrite !wf_tables_parts. intros He (H1 & H2 & H3 & H4).
  split_and!; eauto using effect_roles_wf, effect_agents_wf, effect_sessions_wf,
    effect_grants_wf.
Qed.

Lemma step_wf_tables t t' : step t t' -> wf_tables t -> wf_tables t'.
Proof. intros [->|(o & c & He)]%step_effect; [done|]. by eapply effect_wf_tables. Qed.

Lemma steps_wf_tables t t' : rtc step t t' -> wf_tables t -> wf_tables t'.
Proof. induction 1; eauto using step_wf_tables. Qed.

(** ** Owners *)

Definition has_owner (t : Tables) : Prop :=
  exists s, av_principal_roles t !! s = Some &"owner".

Lemma owner_count_two t s :
  1 < owner_count t -> exists s', s' <> s /\ av_principal_roles t !! s' = Some &"owner".
Proof.
  unfold owner_count, count_where. intros Hc.
  set (m := filter _ _) in Hc.
  destruct (map_choose (delete s m)) as (s' & r & Hs').
  { intros He. assert (size m <= 1); [|lia]. destruct (m !! s) as [r|] eqn:Es.
    - rewrite <- (insert_delete_id m s r Es), map_size_insert, lookup_delete_eq, He. done.
    - rewrite <- (delete_id m s Es), He. rewrite map_size_empty. lia. }
  apply lookup_delete_Some in Hs' as [Hne Hs']. unfold m in Hs'.
  apply map_lookup_filter_Some in Hs' as [Hs' Ho]. simpl in Ho.
  apply bool_decide_eq_true in Ho as ->. by exists s'.
Qed.

Lemma effect_has_owner o c t t' : effect o c t t' -> has_owner t -> has_owner t'.
Proof.
  intros He [s0 Hs0]. destruct o; cbn [effect] in He; destruct_and?; split_hyps; subst;
    try (exists s0; destruct t; done).
  - destruct (decide (role = Owner)) as [->|Hr].
    { exists subject. destruct t. simpl. by rewrite lookup_insert_eq. }
    destruct (decide (s0 = subject)) as [->|Hne].
    + destruct (owner_count_two t subject) as (s' & Hne & Hs'); [auto|].
      exists s'. destruct t. simpl in *. by rewrite lookup_insert_ne.
    + exists s0. destruct t. simpl in *. by rewrite lookup_insert_ne.
  - exists s0. destruct t, enabled; done.
  - exists s0. unfold renew_postgres. repeat case_match; destruct t; done.
Qed.

Lemma steps_has_owner t t' : rtc step t t' -> has_owner t -> has_owner t'.
Proof.
  induction 1 as [|t1 t2 t3 [->|(o & c & He)]%step_effect _ IH]; [done|done|].
  intros H. by eapply IH, effect_has_owner.
Qed.
