(* ===== verification/StoreProps.v ===== *)
(** StoreProps: what the control-plane database guarantees to its clients. *)

From Stdlib Require Import Ascii String.
From stdpp Require Import base list strings gmap relations sorting.
From S2P Require Import Prelude Str BTree Database Store StoreFacts.

(** ** Reading back *)

(** The outcome list of a query decides only whether there is an answer. *)
Lemma run_honest {A} (m : DB A) w a :
  honest m -> (m w).1 = Ok a -> exists t', ideal m (clock w) (tables w) = (Ok a, t').
Proof. intros Hm H. eexists. by apply honest_result. Qed.

Lemma active_honest h : honest (active_proxy_session h).
Proof. unfold active_proxy_session. case_match; solve_honest. Qed.

(** The rows a digest resolves to. *)
Lemma active_proxy_session_ok h w ps :
  (active_proxy_session h w).1 = Ok (Some ps) ->
  exists now id row, clock w = Some now /\ av_proxy_sessions (tables w) !! id = Some row
    /\ session_token_hash row = h /\ session_revoked row = false
    /\ (now < session_expires row)%Z /\ ps = session_of id row.
Proof.
  intros (t' & Hi)%run_honest; [|apply active_honest].
  unfold active_proxy_session in Hi. destruct (negb _); inv_ideal; [done|].
  destruct (head _) as [[id row]|] eqn:Eh; [|done]. simpl in *. simplify_eq.
  eexists x, id, row. split; [done|].
  assert ((id, row) ∈ map_to_list (filter (fun kv => session_live h x kv.2 = true)
    (av_proxy_sessions (tables w)))) as Hin.
  { apply head_Some in Eh as [l ->]. left. }
  apply elem_of_map_to_list, map_lookup_filter_Some in Hin as [Hl Hlive].
  unfold session_live in Hlive. simpl in Hlive. breflect in Hlive. naive_solver.
Qed.

Lemma active_proxy_session_none h now t :
  (forall id row, av_proxy_sessions t !! id = Some row ->
     session_live h now row = false) ->
  forall os r, (active_proxy_session h {| tables := t; clock := Some now; outcomes := os |}).1
    = Ok r -> r = None.
Proof.
  intros Hn os [ps|]; [|done]. intros (now' & id & row & [= <-] & Hr & Hh & Hv & He & _)
    %active_proxy_session_ok. specialize (Hn _ _ Hr). unfold session_live in Hn.
  rewrite Hv, (proj2 (Z.ltb_lt _ _) He), bool_decide_eq_true_2 in Hn by done. done.
Qed.

Lemma run_op_ok_effect o w w' :
  run_op o w = (Ok (), w') -> effect o (clock w) (tables w) (tables w').
Proof.
  intros H. apply run_op_effect.
  pose proof (honest_result _ (run_op_atomic o) w ()) as Hr. rewrite H in Hr. by apply Hr.
Qed.

(** ** Claims *)

(** C8: each of the methods of a running store that change its tables, the fourteen of
    [op], either leaves the database as it was or makes its whole documented change,
    whatever fails on the way; when it reports success the change has been made.
    [Store::connect], with its migrations and the owner bootstrap, is not one of them. *)
Theorem store_operation_atomic o w :
  ((run_op o w).1 = Ok () -> effect o (clock w) (tables w) (tables (run_op o w).2))
  /\ (tables (run_op o w).2 = tables w
      \/ effect o (clock w) (tables w) (tables (run_op o w).2)).
Proof.
  split.
  - intros H. apply run_op_effect. by apply (honest_result _ (run_op_atomic o)).
  - destruct (atomic_effect _ (run_op_atomic o) w) as [?|[[] ?]]; [by left|right].
    by apply run_op_effect.
Qed.

(** A revoked proxy session is never accepted again, whatever operations,
    failures and clock readings follow. *)
Theorem revoked_session_never_active t t' id row now os r :
  wf_tables t -> av_proxy_sessions t !! id = Some row -> session_revoked row = true ->
  rtc step t t' ->
  (active_proxy_session (session_token_hash row)
     {| tables := t'; clock := Some now; outcomes := os |}).1 = Ok r ->
  r = None.
Proof.
  intros Hwf Hrow Hrev Hsteps. apply active_proxy_session_none. intros id' row' Hrow'.
  destruct (steps_session_evolves _ _ Hsteps _ _ Hrow) as (r2 & Hr2 & Hh & _ & _ & Heq & _).
  rewrite (Heq Hrev) in *. unfold session_live.
  case_bool_decide as Hhash; [|done].
  assert (id' = id) as -> by (eapply (wf_session_unique t'); eauto using steps_wf_tables).
  simplify_eq. by rewrite Hrev.
Qed.

(** A session is dead once its absolute bound has passed: renewals by its
    holder, over any sequence of operations, cannot carry it further. *)
Theorem session_expires_by_its_bound t t' id row bound now os r :
  wf_tables t -> av_proxy_sessions t !! id = Some row ->
  av_proxy_session_bounds t !! id = Some bound -> (bound <= now)%Z ->
  rtc step t t' ->
  (active_proxy_session (session_token_hash row)
     {| tables := t'; clock := Some now; outcomes := os |}).1 = Ok r ->
  r = None.
Proof.
  intros Hwf Hrow Hb Hnow Hsteps. apply active_proxy_session_none. intros id' row' Hrow'.
  destruct (steps_session_evolves _ _ Hsteps _ _ Hrow) as (r2 & Hr2 & Hh & _ & _ & _ & Hbd).
  destruct (Hbd _ Hb) as [_ Hle]. specialize (Hle (wf_session_bound _ Hwf _ _ _ Hrow Hb)).
  unfold session_live. case_bool_decide as Hhash; [|done].
  assert (id' = id) as ->.
  { eapply (wf_session_unique t'); [by eapply steps_wf_tables|done|done|congruence]. }
  simplify_eq. rewrite (proj2 (Z.ltb_ge _ _)), andb_false_r by lia. done.
Qed.

(** PostgreSQL and SQLite renew a session alike: for every database, clock
    and request both arms give the same answer and leave the same tables. *)
Theorem renew_backends_agree id subject requested w :
  renew_proxy_session_for_subject Postgres id subject requested w =
  renew_proxy_session_for_subject Sqlite id subject requested w.
Proof.
  unfold renew_proxy_session_for_subject, mbind, db_bind, lift. destruct (bail_if _ _); [|done].
  destruct (now_unix_seconds w) as [[now|] w1]; [|done]. destruct (bail_if _ _); [|done].
  unfold statement. simpl. by rewrite renew_sqlite_postgres.
Qed.

Lemma renew_own_live b id subject requested w ps :
  (renew_proxy_session_for_subject b id subject requested w).1 = Ok (Some ps) ->
  exists now row bound,
    clock w = Some now /\ (now < requested)%Z
    /\ av_proxy_sessions (tables w) !! id = Some row
    /\ av_proxy_session_bounds (tables w) !! id = Some bound
    /\ session_subject row = subject /\ session_revoked row = false
    /\ (now < session_expires row)%Z /\ (now < bound)%Z
    /\ ps = {| ps_session_id := id; ps_subject := subject;
               ps_profile := session_profile row; ps_expires := Z.min requested bound |}
    /\ tables (renew_proxy_session_for_subject b id subject requested w).2 =
         set_sessions (<[id := with_expiry (Z.min requested bound) row]>) (tables w).
Proof.
  intros H. assert (honest (renew_proxy_session_for_subject b id subject requested)) as Hh.
  { unfold renew_proxy_session_for_subject. solve_honest. }
  apply (honest_result _ Hh) in H. apply renew_proxy_session_ok in H as (now & Hc & Hr & Ht & Hu).
  revert Ht Hu. unfold renew_postgres.
  destruct (renewable _ _ _ _) as [row|] eqn:Er; [|done].
  destruct (av_proxy_session_bounds (tables w) !! id) as [bound|] eqn:Eb; [|done].
  destruct (Z.ltb_spec now bound); [|done]. cbn [fst snd fmap option_fmap option_map].
  intros Ht [= ->]. apply renewable_spec in Er as (Hrow & <- & Hrev & Hexp).
  exists now, row, bound. by split_and!.
Qed.

(** A renewal that reports a session extended exactly the caller's own live
    session, to the requested time or its bound, whichever is earlier. *)
Theorem renew_extends_own_live_session b id subject requested w ps :
  (renew_proxy_session_for_subject b id subject requested w).1 = Ok (Some ps) ->
  exists now row bound,
    clock w = Some now /\ (now < requested)%Z
    /\ av_proxy_sessions (tables w) !! id = Some row
    /\ av_proxy_session_bounds (tables w) !! id = Some bound
    /\ session_subject row = subject /\ session_revoked row = false
    /\ (now < session_expires row)%Z /\ (now < bound)%Z
    /\ ps = {| ps_session_id := id; ps_subject := subject;
               ps_profile := session_profile row; ps_expires := Z.min requested bound |}
    /\ tables (renew_proxy_session_for_subject b id subject requested w).2 =
         set_sessions (<[id := with_expiry (Z.min requested bound) row]>) (tables w).
Proof. apply renew_own_live. Qed.

(** Disabling, rotating or deleting an agent ends its proxy sessions: once
    the operation reports success no session of the agent is accepted. *)
Theorem agent_change_revokes_sessions o name w :
  (o = DeleteAgent name \/ o = SetAgentEnabled name false
   \/ exists h, o = RotateAgentToken name h) ->
  (run_op o w).1 = Ok () ->
  forall id row, av_proxy_sessions (tables (run_op o w).2) !! id = Some row ->
  session_subject row = agent_subject name -> session_revoked row = true.
Proof.
  intros Ho H id row.
  assert (effect o (clock w) (tables w) (tables (run_op o w).2)) as He.
  { apply run_op_effect. by apply (honest_result _ (run_op_atomic o)). }
  assert (exists m, av_proxy_sessions (tables (run_op o w).2) =
    update_where (fun id row => of_subject (agent_subject name) id row
                   && negb (session_revoked row)) revoke_row m) as [m ->].
  { exists (av_proxy_sessions (tables w)).
    destruct Ho as [->|[->|[h ->]]]; cbn [effect] in He; [| |destruct He as (_ & _ & He)];
      rewrite He; by destruct (tables w). }
  rewrite lookup_update_where, fmap_Some. intros (r0 & Hr0 & ->). unfold of_subject.
  case_match eqn:E; [done|]. intros Hs. rewrite bool_decide_eq_true_2 in E by done.
  by destruct (session_revoked r0).
Qed.

(** ** Agents and grants *)

Lemma agent_for_token_hash_ok h w n :
  (agent_for_token_hash h w).1 = Ok (Some n) ->
  exists row, av_agents (tables w) !! n = Some row
    /\ agent_token_hash row = h /\ agent_enabled row = true.
Proof.
  assert (honest (agent_for_token_hash h)) as Hh.
  { unfold agent_for_token_hash. case_match; solve_honest. }
  intros (t' & Hi)%run_honest; [|done]. unfold agent_for_token_hash in Hi.
  destruct (negb _); inv_ideal; [done|].
  set (m := filter _ _) in Hi.
  destruct (map_to_list m) as [|[n' row] l] eqn:El; [done|]. simpl in Hi. simplify_eq.
  assert ((n', row) ∈ map_to_list m) as Hin by (rewrite El; left).
  apply elem_of_map_to_list in Hin. unfold m in Hin.
  apply map_lookup_filter_Some in Hin as [? [? ?]]. by exists row.
Qed.

(** Disabling, rotating or deleting an agent kills its old token: once the
    operation reports success, the old digest authenticates no agent. *)
Theorem agent_change_kills_token o name old w os c r :
  wf_tables (tables w) -> av_agents (tables w) !! name = Some old ->
  (o = DeleteAgent name \/ o = SetAgentEnabled name false
   \/ exists h, o = RotateAgentToken name h /\ h <> agent_token_hash old) ->
  (run_op o w).1 = Ok () ->
  (agent_for_token_hash (agent_token_hash old)
     {| tables := tables (run_op o w).2; clock := c; outcomes := os |}).1 = Ok r ->
  r = None.
Proof.
  intros Hwf Hold Ho H. destruct r as [n|]; [|done]. intros (row & Hrow & Hh & He)
    %agent_for_token_hash_ok. exfalso. simpl in Hrow. revert Hrow.
  assert (effect o (clock w) (tables w) (tables (run_op o w).2)) as Hef.
  { apply run_op_effect. by apply (honest_result _ (run_op_atomic o)). }
  pose proof (wf_agent_unique _ Hwf) as Hu.
  destruct Ho as [->|[->|(h & -> & Hne)]]; cbn [effect] in Hef;
    [| |destruct Hef as (_ & _ & Hef)]; rewrite Hef; destruct (tables w); simpl in *.
  - intros [Hn ?]%lookup_delete_Some. apply Hn. by eapply Hu.
  - rewrite lookup_update_where, fmap_Some. intros (a & Ha & ->).
    case_bool_decide; [by simpl in He|]. naive_solver.
  - rewrite lookup_update_where, fmap_Some. intros (a & Ha & ->).
    case_bool_decide; [by simpl in Hh|]. naive_solver.
Qed.

(** A grant that permits a use at a time. *)
Definition grant_permits (now : Z) (mode : GrantMode) (g : GrantRow) : Prop :=
  (grant_expires g = None \/ exists e, grant_expires g = Some e /\ (now < e)%Z)
  /\ (grant_mode g = &"both" \/ grant_mode g = mode_as_str mode).

Lemma grant_permits_spec now mode g :
  unexpired now g && mode_covers mode g = true <-> grant_permits now mode g.
Proof.
  unfold unexpired, mode_covers, grant_permits. breflect.
  destruct (grant_expires g); breflect; naive_solver.
Qed.

Lemma permitted_count (subject profile : bytes) (now : Z) (mode : GrantMode)
    (m : gmap (bytes * bytes) GrantRow) :
  0 < count_where (fun k row => bool_decide (k = (subject, profile)) && unexpired now row
                                && mode_covers mode row) m <->
  exists g, m !! (subject, profile) = Some g /\ unexpired now g && mode_covers mode g = true.
Proof.
  rewrite count_where_pos. split.
  - intros (k & g & Hg & Hc). rewrite <- andb_assoc in Hc.
    apply andb_true_iff in Hc as [->%bool_decide_eq_true_1 Hc]. by exists g.
  - intros (g & Hg & Hc). exists (subject, profile), g. split; [done|].
    by rewrite <- andb_assoc, bool_decide_eq_true_2.
Qed.

Lemma profile_allowed_spec subject profile mode w allowed :
  (profile_allowed_for subject profile mode w).1 = Ok allowed ->
  allowed = true <->
  exists now g, clock w = Some now
    /\ av_capability_grants (tables w) !! (subject, profile) = Some g
    /\ grant_permits now mode g.
Proof.
  intros (t' & Hi)%run_honest; [|unfold profile_allowed_for; solve_honest].
  unfold profile_allowed_for in Hi. inv_ideal. rewrite H.
  rewrite Nat.ltb_lt, permitted_count. setoid_rewrite <- grant_permits_spec. split.
  - intros (g & Hg & Hc). by eexists _, g.
  - intros (now & g & [= <-] & Hg & Hc). by exists g.
Qed.

(** A profile is open to a subject for a use exactly when the subject holds
    an unexpired grant of that profile for both uses or for this one. *)
Theorem profile_allowed_for_iff subject profile mode w allowed :
  (profile_allowed_for subject profile mode w).1 = Ok allowed ->
  allowed = true <->
  exists now g, clock w = Some now
    /\ av_capability_grants (tables w) !! (subject, profile) = Some g
    /\ grant_permits now mode g.
Proof. apply profile_allowed_spec. Qed.

Lemma elem_of_order_by {R} (key : R -> bytes) rows x : x ∈ order_by key rows <-> x ∈ rows.
Proof. unfold order_by. by rewrite merge_sort_Permutation. Qed.

(** The profiles listed for a subject and a use are exactly those the
    permission check accepts at the same moment. *)
Theorem listed_profiles_are_allowed subject profile mode t now ps allowed os os' :
  (list_allowed_profiles_for subject mode
     {| tables := t; clock := Some now; outcomes := os |}).1 = Ok ps ->
  (profile_allowed_for subject profile mode
     {| tables := t; clock := Some now; outcomes := os' |}).1 = Ok allowed ->
  profile ∈ ps <-> allowed = true.
Proof.
  intros (t1 & H1)%run_honest (t2 & H2)%run_honest;
    [|unfold profile_allowed_for; solve_honest|unfold list_allowed_profiles_for; solve_honest].
  unfold list_allowed_profiles_for in H1. unfold profile_allowed_for in H2. simpl in *.
  inv_ideal. simplify_eq. rewrite Nat.ltb_lt, permitted_count.
  unfold profiles_where. rewrite elem_of_order_by, !list_elem_of_fmap. split.
  - intros ([s p] & -> & ([k g] & -> & Hin)%list_elem_of_fmap).
    apply elem_of_map_to_list, map_lookup_filter_Some in Hin as [Hg [Hs Hc]].
    destruct k as [s' p']. simpl in *. subst. by exists g.
  - intros (g & Hg & Hc). exists (subject, profile). split; [done|].
    apply list_elem_of_fmap. exists ((subject, profile), g). split; [done|].
    apply elem_of_map_to_list, map_lookup_filter_Some. done.
Qed.

(** ** Owners: migration and bootstrap *)

Lemma lookup_migrate_owners t s :
  av_principal_roles (migrate_owners t) !! s =
    if decide (s ∈ av_owners t) then Some &"owner" else av_principal_roles t !! s.
Proof.
  assert (forall X : gset bytes,
    let r := set_fold (fun s => <[s := &"owner"]>) (av_principal_roles t) X in
    (s ∈ X -> r !! s = Some &"owner") /\ (s ∉ X -> r !! s = av_principal_roles t !! s)) as Hf.
  { intros X. apply (set_fold_ind_L (fun (r : gmap bytes bytes) X =>
      (s ∈ X -> r !! s = Some &"owner") /\ (s ∉ X -> r !! s = av_principal_roles t !! s))).
    - set_solver.
    - intros x Y r Hx [IH1 IH2]. destruct (decide (x = s)) as [->|Hne].
      + rewrite lookup_insert_eq. set_solver.
      + rewrite lookup_insert_ne by done. set_solver. }
  specialize (Hf (av_owners t)) as [H1 H2]. unfold migrate_owners.
  destruct t. simpl in *. case_decide; auto.
Qed.

(** The tables after a bootstrap that ran to its end. *)
Definition bootstrapped (s : bytes) (t : Tables) : Tables :=
  promote_if_owner s
    match av_owner_bootstrap t with
    | Some _ => t
    | None => set_owners (fun o => {[s]} ∪ o) (set_bootstrap (fun _ => Some s) t)
    end.
Definition connected (s : bytes) (t : Tables) : Tables :=
  let t1 := migrate_profile_grants (migrate_owners t) in
  if is_empty s then t1 else bootstrapped s t1.

Lemma ideal_bootstrap b s c t : ideal (bootstrap_owner b s) c t = (Ok (), bootstrapped s t).
Proof.
  unfold bootstrapped. destruct b; cbn [bootstrap_owner]; unfold ideal, mbind, db_bind,
    execute, statement; simpl; by destruct (av_owner_bootstrap t).
Qed.

Lemma ideal_connect b s c t : ideal (connect b s) c t = (Ok (), connected s t).
Proof.
  pose proof (ideal_bootstrap b s c (migrate_profile_grants (migrate_owners t))) as Hb.
  unfold connected, connect. rewrite (ideal_bind _ _ _ _ tt
    (migrate_profile_grants (migrate_owners t))).
  - destruct s; [done|]. exact Hb.
  - unfold migrate, create_table, execute. solve_honest.
  - done.
Qed.

Lemma connect_honest b s : honest (connect b s).
Proof.
  unfold connect, migrate, create_table, execute, bootstrap_owner, execute. solve_honest.
Qed.

(** What a database left by earlier runs, finished or not, satisfies. *)
Definition startable (t : Tables) : Prop :=
  (forall s r, av_principal_roles t !! s = Some r -> exists role, r = role_as_str role)
  /\ (forall s, av_principal_roles t !! s = Some &"owner" -> s ∈ av_owners t)
  /\ agents_wf (av_agents t)
  /\ sessions_wf (av_proxy_sessions t) (av_proxy_session_bounds t)
  /\ grants_wf (av_capability_grants t).

Lemma migrated_wf t : startable t -> wf_tables (migrate_profile_grants (migrate_owners t)).
Proof.
  intros (Hr & Ho & Ha & Hs & Hg). apply wf_tables_parts.
  assert (forall s, av_principal_roles (migrate_profile_grants (migrate_owners t)) !! s =
    if decide (s ∈ av_owners t) then Some &"owner" else av_principal_roles t !! s) as Hl.
  { intros s. rewrite <- lookup_migrate_owners. unfold migrate_profile_grants.
    by destruct (migrate_owners t). }
  assert (av_owners (migrate_profile_grants (migrate_owners t)) = av_owners t) as How
    by (by destruct t).
  split_and!; [split| | |].
  - intros s r. rewrite Hl. case_decide; [|apply Hr]. intros [= <-]. by exists Owner.
  - intros s. rewrite Hl, How. case_decide; [done|]. split; [done|apply Ho].
  - by destruct t.
  - by destruct t.
  - intros k g. destruct t. simpl. intros [?|[_ Hk]]%lookup_union_Some_raw; [by eapply Hg|].
    apply lookup_set_to_map in Hk as (k' & _ & [= <- <-]); [by exists Both|naive_solver].
Qed.

Lemma bootstrapped_wf s t : wf_tables t -> wf_tables (bootstrapped s t).
Proof.
  rewrite !wf_tables_parts. intros ((Hr & Ho) & Hrest). unfold bootstrapped, promote_if_owner.
  destruct t as [ow bo ro]. destruct bo as [x|]; simpl in *.
  - case_bool_decide; [|done]. split; [|done].
    assert (ro !! s = Some &"owner") as Hs by (by apply Ho). simpl.
    split; simpl; rewrite insert_id by done; done.
  - rewrite bool_decide_eq_true_2 by set_solver. split; [|done]. split; simpl.
    + intros s' r. rewrite lookup_insert_Some. intros [[_ <-]|[_ ?]]; [by exists Owner|eauto].
    + intros s'. specialize (Ho s'). simpl in Ho. destruct (decide (s = s')) as [<-|Hne].
      * rewrite lookup_insert_eq. set_solver.
      * rewrite lookup_insert_ne by done. set_solver.
Qed.

Lemma connected_wf s t : startable t -> wf_tables (connected s t).
Proof.
  intros Hs%migrated_wf. unfold connected. destruct s; [done|]. by apply bootstrapped_wf.
Qed.

Lemma connected_has_owner s t :
  s <> [] -> (av_owner_bootstrap t = None \/ av_owners t <> ∅) -> has_owner (connected s t).
Proof.
  intros Hs Hb. unfold connected. destruct s as [|b s0]; [done|]. simpl. set (s := b :: s0).
  set (t1 := migrate_profile_grants (migrate_owners t)).
  assert (av_owner_bootstrap t1 = av_owner_bootstrap t) as Hbo by (by destruct t).
  assert (av_owners t1 = av_owners t) as How by (by destruct t).
  assert (forall x, x ∈ av_owners t -> av_principal_roles t1 !! x = Some &"owner") as Hl.
  { intros x Hx. replace (av_principal_roles t1) with (av_principal_roles (migrate_owners t))
      by (by destruct t). rewrite lookup_migrate_owners. by rewrite decide_True. }
  unfold bootstrapped, promote_if_owner. rewrite Hbo.
  destruct (av_owner_bootstrap t) as [x|].
  - destruct Hb as [?|[y Hy]%set_choose_L]; [done|]. apply Hl in Hy as Hy'.
    case_bool_decide as Hs'; [|by exists y]. exists s. destruct t1. simpl in *.
    by rewrite lookup_insert_eq.
  - exists s. destruct t1. simpl in *. rewrite bool_decide_eq_true_2 by set_solver.
    simpl. by rewrite lookup_insert_eq.
Qed.

(** C28: once the server has started with a configured owner on tables that are empty or
    that an earlier run left, where a bootstrap marker, if there is one, comes with an
    owner, and through any sequence of operations, failures and clock readings after
    that, some
    principal is an owner, [av_owners] mirrors the role table, token digests are
    unique 32-byte values, no session outlives its bound and every stored role
    and mode is one the code knows. *)
Theorem control_plane_invariant b owner w t :
  startable (tables w) -> owner <> [] ->
  (av_owner_bootstrap (tables w) = None \/ av_owners (tables w) <> ∅) ->
  (connect b owner w).1 = Ok () ->
  rtc step (tables (connect b owner w).2) t ->
  wf_tables t /\ has_owner t.
Proof.
  intros Hst Hne Hb Hok Hsteps. apply (honest_result _ (connect_honest b owner)) in Hok.
  rewrite ideal_connect in Hok. injection Hok as Ht. rewrite <- Ht in Hsteps. split.
  - eapply steps_wf_tables; [done|]. by apply connected_wf.
  - eapply steps_has_owner; [done|]. by apply connected_has_owner.
Qed.

Lemma migrate_preserves (P : Tables -> Prop) :
  (forall t, P t -> P (migrate_owners t)) -> (forall t, P t -> P (migrate_profile_grants t)) ->
  preserves P migrate.
Proof.
  intros Ho Hg. assert (preserves P create_table) as Hc by (by apply preserves_execute).
  repeat (apply preserves_bind; [exact Hc || by apply preserves_execute|intros _]). done.
Qed.

(** On PostgreSQL the bootstrap row is never without its owner row. *)
Definition bootstrap_paired (t : Tables) : Prop :=
  forall s, av_owner_bootstrap t = Some s -> s ∈ av_owners t.

Lemma connect_postgres_paired owner : preserves bootstrap_paired (connect Postgres owner).
Proof.
  apply preserves_bind.
  { apply migrate_preserves; intros t Ht; unfold bootstrap_paired in *; by destruct t. }
  intros _. case_match; [|apply preserves_ret]. apply preserves_bind.
  - apply preserves_execute. intros t Ht. destruct t as [ow [x|]]; [done|].
    intros s [= <-]. simpl. set_solver.
  - intros _. apply preserves_execute. intros t Ht. unfold promote_if_owner.
    case_bool_decide; [|done]. unfold bootstrap_paired in *. by destruct t.
Qed.

Lemma connect_quiet b s c t :
  connect b s {| tables := t; clock := c; outcomes := [] |} =
    (Ok (), {| tables := connected s t; clock := c; outcomes := [] |}).
Proof.
  pose proof (ideal_connect b s c t) as Hi. revert Hi. unfold ideal.
  set (w := {| tables := t; clock := c; outcomes := [] |}).
  pose proof (honest_clock _ (connect_honest b s) w) as Hc.
  pose proof (honest_quiet _ (connect_honest b s) w eq_refl) as Ho.
  destruct (connect b s w) as [r w2]. intros [-> Ht]%pair_equal_spec. simpl in *.
  f_equal. by apply world_eta.
Qed.

(** On PostgreSQL a crash anywhere in startup is harmless: however a first
    start fails, the next undisturbed start succeeds and leaves an owner. *)
Theorem postgres_bootstrap_recovers owner c c' os w1 :
  owner <> [] ->
  w1 = (connect Postgres owner {| tables := empty_tables; clock := c; outcomes := os |}).2 ->
  exists t2,
    connect Postgres owner {| tables := tables w1; clock := c'; outcomes := [] |} =
      (Ok (), {| tables := t2; clock := c'; outcomes := [] |})
    /\ has_owner t2.
Proof.
  intros Hne Hw1. exists (connected owner (tables w1)). split; [apply connect_quiet|].
  apply connected_has_owner; [done|].
  assert (bootstrap_paired (tables w1)) as HP.
  { rewrite Hw1. by apply connect_postgres_paired. }
  destruct (av_owner_bootstrap (tables w1)) as [s|] eqn:E; [right|by left].
  specialize (HP s E). set_solver.
Qed.

(** On SQLite a crash in startup can lose the owner for good: after the
    bootstrap row is written and before the owner row is, a failure leaves a
    database on which every later start succeeds, changes nothing and finds no
    owner. *)
Theorem sqlite_bootstrap_crash_loses_owner :
  let owner := &"admin-subject" in
  let crashed := tables (connect Sqlite owner
    {| tables := empty_tables; clock := Some 0%Z;
       outcomes := repeat Succeeds 15 ++ [FailsBefore] |}).2 in
  ~ has_owner crashed
  /\ forall c, connect Sqlite owner {| tables := crashed; clock := c; outcomes := [] |} =
       (Ok (), {| tables := crashed; clock := c; outcomes := [] |}).
Proof.
  assert (tables (connect Sqlite &"admin-subject"
    {| tables := empty_tables; clock := Some 0%Z;
       outcomes := repeat Succeeds 15 ++ [FailsBefore] |}).2 =
    set_bootstrap (fun _ => Some &"admin-subject") empty_tables) as Hc by reflexivity.
  cbv zeta. rewrite Hc. split.
  - intros [s Hs]. simpl in Hs. by rewrite lookup_empty in Hs.
  - intros c. by rewrite connect_quiet.
Qed.

(** Two concurrent demotions defeat the last-owner guard on PostgreSQL:
    under READ COMMITTED both transactions read before either writes, each sees
    two owners, and their writes to different rows leave none. *)
Theorem concurrent_demotions_remove_last_owner :
  exists t s1 s2,
    wf_tables t /\ has_owner t
    /\ ideal (set_role_guard s1 User) None t = (Ok (), t)
    /\ ideal (set_role_guard s2 User) None t = (Ok (), t)
    /\ ~ has_owner (ideal (set_role_write s2 User) None
                      (ideal (set_role_write s1 User) None t).2).2.
Proof.
  set (t := write_role &"alice" Owner (write_role &"bob" Owner empty_tables)).
  assert (wf_tables empty_tables) as He.
  { split; simpl; intros *; rewrite ?lookup_empty; set_solver. }
  exists t, &"alice", &"bob". split_and!.
  - apply wf_tables_parts in He as ([H1 H2] & H3). apply wf_tables_parts.
    split; [|done]. by apply roles_wf_write, roles_wf_write.
  - by exists &"alice".
  - reflexivity.
  - reflexivity.
  - intros [s Hs].
    assert (av_principal_roles (ideal (set_role_write &"bob" User) None
      (ideal (set_role_write &"alice" User) None t).2).2 =
      <[&"bob" := &"user"]> (<[&"alice" := &"user"]> (<[&"alice" := &"owner"]>
        (<[&"bob" := &"owner"]> ∅)))) as Hr by reflexivity.
    rewrite Hr, !lookup_insert_Some, lookup_empty in Hs. naive_solver.
Qed.

(** Deleting an agent leaves its role binding: an agent created later under
    the same name starts with the deleted agent's role. *)
Theorem deleted_agent_keeps_role name h w w1 w2 :
  run_op (DeleteAgent name) w = (Ok (), w1) ->
  run_op (CreateAgent name h) w1 = (Ok (), w2) ->
  av_principal_roles (tables w2) !! agent_subject name
  = av_principal_roles (tables w) !! agent_subject name.
Proof.
  intros He1%run_op_ok_effect (_ & _ & _ & He2)%run_op_ok_effect. cbn [effect] in He1.
  rewrite He2, He1. by destruct (tables w).
Qed.

(** The audit listing returns at most 500 (and at most the requested number
    of) recorded events, newest first, and omits only events that are not newer
    than those it returns. *)
Theorem audit_listing_newest limit w events :
  (list_audit_events limit w).1 = Ok events ->
  (len events <= 500)%Z /\ (len events <= Z.max 1 limit)%Z
  /\ Sorted newest_first events
  /\ exists omitted, events ++ omitted ≡ₚ av_audit_events (tables w)
       /\ Forall (fun e => Forall (newest_first e) omitted) events.
Proof.
  intros (t' & Hi)%run_honest; [|apply honest_statement].
  unfold list_audit_events in Hi. inv_ideal. 
  set (sorted := merge_sort newest_first (av_audit_events (tables w))).
  assert (Transitive newest_first) as Htr by (intros a b c; unfold newest_first; lia).
  assert (Total newest_first) as Hto by (intros a b; unfold newest_first; lia).
  assert (StronglySorted newest_first sorted) as Hs
    by (apply Sorted_StronglySorted, Sorted_merge_sort; done).
  set (n := Z.to_nat (clamp 1 500 limit)).
  pose proof (take_drop n sorted) as Htd.
  split_and!.
  - unfold len, n, clamp. rewrite length_take. lia.
  - unfold len, n, clamp. rewrite length_take. lia.
  - apply StronglySorted_Sorted. rewrite <- Htd in Hs. by apply StronglySorted_app in Hs as (_ & ? & _).
  - exists (drop n sorted). rewrite Htd. split; [apply merge_sort_Permutation|].
    rewrite <- Htd in Hs. apply StronglySorted_app in Hs as (Hx & _ & _).
    apply Forall_forall. intros x Hxin. apply Forall_forall. intros y Hy. by apply Hx.
Qed.

(** ** Witnesses: one agent with a session and a grant *)

Module Sample.
Definition at10 (t : Tables) : world Tables :=
  {| tables := t; clock := Some 10%Z; outcomes := [] |}.
Definition after (o : op) (t : Tables) : Tables := tables (run_op o (at10 t)).2.

Definition agent_hash : bytes := repeat "a"%char 32.
Definition session_hash : bytes := repeat "s"%char 32.
Definition started : Tables := connected &"admin" empty_tables.
Definition with_agent : Tables := after (CreateAgent &"bot" agent_hash) started.
Definition with_session : Tables :=
  after (CreateProxySession &"s1" session_hash &"agent:bot" &"deploy" 100 200) with_agent.
Definition with_grant : Tables :=
  after (GrantProfileMode &"agent:bot" &"deploy" Proxy (Some 500%Z)) with_session.
Definition revoked : Tables := after (RevokeProxySession &"s1") with_grant.
Definition session_row (revoked : bool) : SessionRow :=
  {| session_token_hash := session_hash; session_subject := &"agent:bot";
     session_profile := &"deploy"; session_expires := 100; session_revoked := revoked |}.

Lemma startable_empty : startable empty_tables.
Proof.
  split_and!; [..|split|split|]; intros *; simpl; rewrite ?lookup_empty; done.
Qed.

Lemma after_step o t : step t (after o t).
Proof. constructor. Qed.

Lemma wf_with_grant : wf_tables with_grant.
Proof.
  do 3 (eapply step_wf_tables; [apply after_step|]). apply connected_wf, startable_empty.
Qed.
Lemma wf_revoked : wf_tables revoked.
Proof. eapply step_wf_tables; [apply after_step|]. apply wf_with_grant. Qed.
End Sample.
Import Sample.

Definition renewed_at (backend : Backend) (requested : Z) (t : Tables) (now : Z) : world Tables :=
  {| tables := after (RenewProxySession backend &"s1" &"agent:bot" requested) t;
     clock := Some now; outcomes := [] |}.

Lemma revoked_session_never_active_witness :
  exists r, (active_proxy_session session_hash (renewed_at Sqlite 150 revoked 20)).1 = Ok r
            /\ r = None.
Proof.
  exists None. split; [reflexivity|].
  apply (revoked_session_never_active revoked
    (after (RenewProxySession Sqlite &"s1" &"agent:bot" 150) revoked) &"s1"
    (session_row true) 20 []).
  - apply wf_revoked.
  - reflexivity.
  - reflexivity.
  - apply rtc_once, after_step.
  - reflexivity.
Defined.

Lemma session_expires_by_its_bound_witness :
  exists r, (active_proxy_session session_hash (renewed_at Postgres 900 with_grant 200)).1 = Ok r
            /\ r = None.
Proof.
  exists None. split; [reflexivity|].
  apply (session_expires_by_its_bound with_grant
    (after (RenewProxySession Postgres &"s1" &"agent:bot" 900) with_grant) &"s1"
    (session_row false) 200 200 []).
  - apply wf_with_grant.
  - reflexivity.
  - reflexivity.
  - lia.
  - apply rtc_once, after_step.
  - reflexivity.
Defined.

Lemma renew_extends_own_live_session_witness :
  exists now row bound,
    clock (at10 with_grant) = Some now /\ (now < 900)%Z
    /\ av_proxy_sessions with_grant !! &"s1" = Some row
    /\ av_proxy_session_bounds with_grant !! &"s1" = Some bound
    /\ session_subject row = &"agent:bot" /\ session_revoked row = false
    /\ (now < session_expires row)%Z /\ (now < bound)%Z
    /\ {| ps_session_id := &"s1"; ps_subject := &"agent:bot"; ps_profile := &"deploy";
          ps_expires := 200 |} =
       {| ps_session_id := &"s1"; ps_subject := &"agent:bot";
          ps_profile := session_profile row; ps_expires := Z.min 900 bound |}
    /\ tables (renew_proxy_session_for_subject Sqlite &"s1" &"agent:bot" 900
                 (at10 with_grant)).2 =
         set_sessions (<[&"s1" := with_expiry (Z.min 900 bound) row]>) with_grant.
Proof.
  apply (renew_extends_own_live_session Sqlite &"s1" &"agent:bot" 900 (at10 with_grant)).
  reflexivity.
Defined.

Lemma agent_change_revokes_sessions_witness :
  session_revoked (session_row true) = true.
Proof.
  apply (agent_change_revokes_sessions (SetAgentEnabled &"bot" false) &"bot"
    (at10 with_grant)) with (id := &"s1").
  - right. by left.
  - reflexivity.
  - reflexivity.
  - reflexivity.
Defined.

Lemma agent_change_kills_token_witness :
  exists r, (agent_for_token_hash agent_hash
    {| tables := after (RotateAgentToken &"bot" session_hash) with_grant;
       clock := None; outcomes := [] |}).1 = Ok r /\ r = None.
Proof.
  exists None. split; [reflexivity|].
  apply (agent_change_kills_token (RotateAgentToken &"bot" session_hash) &"bot"
    {| agent_token_hash := agent_hash; agent_enabled := true |} (at10 with_grant) [] None).
  - apply wf_with_grant.
  - reflexivity.
  - right. right. by exists session_hash.
  - reflexivity.
  - reflexivity.
Defined.

Lemma profile_allowed_for_iff_witness :
  true = true <->
  exists now g, clock (at10 with_grant) = Some now
    /\ av_capability_grants with_grant !! (&"agent:bot", &"deploy") = Some g
    /\ grant_permits now Proxy g.
Proof.
  apply (profile_allowed_for_iff &"agent:bot" &"deploy" Proxy (at10 with_grant)). reflexivity.
Defined.

Lemma listed_profiles_are_allowed_witness :
  &"deploy" ∈ [&"deploy"] <-> true = true.
Proof.
  apply (listed_profiles_are_allowed &"agent:bot" &"deploy" Proxy with_grant 10 _ _ [] []);
    reflexivity.
Defined.

Lemma control_plane_invariant_witness : wf_tables with_agent /\ has_owner with_agent.
Proof.
  apply (control_plane_invariant Sqlite &"admin" (at10 empty_tables)).
  - apply startable_empty.
  - done.
  - by left.
  - reflexivity.
  - apply rtc_once. apply (after_step (CreateAgent &"bot" agent_hash) started).
Defined.

Lemma postgres_bootstrap_recovers_witness :
  exists t2,
    connect Postgres &"admin"
      {| tables := tables (connect Postgres &"admin" {| tables := empty_tables;
           clock := None; outcomes := repeat Succeeds 14 ++ [FailsAfter] |}).2;
         clock := None; outcomes := [] |} =
      (Ok (), {| tables := t2; clock := None; outcomes := [] |})
    /\ has_owner t2.
Proof.
  by apply (postgres_bootstrap_recovers &"admin" None None
    (repeat Succeeds 14 ++ [FailsAfter])).
Defined.

Lemma deleted_agent_keeps_role_witness :
  let t := after (SetPrincipalRole &"agent:bot" Operator) with_agent in
  let t1 := after (DeleteAgent &"bot") t in
  let t2 := after (CreateAgent &"bot" session_hash) t1 in
  av_principal_roles t2 !! &"agent:bot" = av_principal_roles t !! &"agent:bot".
Proof.
  intros t t1 t2.
  apply (deleted_agent_keeps_role &"bot" session_hash (at10 t) (at10 t1) (at10 t2));
    reflexivity.
Defined.

Lemma audit_listing_newest_witness :
  (len (@nil AuditEvent) <= 500)%Z /\ (len (@nil AuditEvent) <= Z.max 1 7)%Z
  /\ Sorted newest_first []
  /\ exists omitted, [] ++ omitted ≡ₚ av_audit_events started
       /\ Forall (fun e => Forall (newest_first e) omitted) [].
Proof. apply (audit_listing_newest 7 (at10 started)). reflexivity. Defined.
