(* ===== verification/Net.v ===== *)
(** Net: what the source uses of [std::net] parsing and [std::path::Path].

    The address parsers follow [core::net::parser]: a parser takes the rest of
    the text and gives a value and what is left, and a failed parser consumes
    nothing.  Paths are those of a Unix host. *)

From Stdlib Require Import Ascii String.
From stdpp Require Import base list.
From S2P Require Import Prelude Str Ip.
Local Open Scope Z_scope.

Definition parser (A : Type) : Type := bytes -> option (A * bytes).

Definition digit_of (radix : Z) (b : byte) : option Z :=
  let n := Z.of_N (code b) in
  let d := if is_ascii_digit b then n - 48
           else if is_ascii_lowercase b then n - 87
           else if is_ascii_uppercase b then n - 55 else radix in
  if d <? radix then Some d else None.

(** The digits at the front of the text, and the rest. *)
Fixpoint read_digits (radix : Z) (s : bytes) : list Z * bytes :=
  match s with
  | [] => ([], [])
  | b :: t =>
      match digit_of radix b with
      | Some d => let '(ds, rest) := read_digits radix t in (d :: ds, rest)
      | None => ([], s)
      end
  end.

Definition number_of (radix : Z) (ds : list Z) : Z :=
  fold_left (fun acc d => acc * radix + d) ds 0.

(** [read_number(radix, max_digits, allow_zero_prefix)] into a type whose
    largest value is [max] *)
Definition read_number (radix : Z) (max_digits : option Z) (allow_zero_prefix : bool) (max : Z)
    : parser Z := fun s =>
  let '(ds, rest) := read_digits radix s in
  let too_long := match max_digits with Some n => n <? len ds | None => false end in
  let zero_prefix := match ds with d :: _ :: _ => d =? 0 | _ => false end in
  if is_empty ds || too_long || (negb allow_zero_prefix && zero_prefix)
     || (max <? number_of radix ds)
  then None else Some (number_of radix ds, rest).

Definition read_given_char (c : byte) : parser unit := fun s =>
  match s with b :: rest => if bool_decide (b = c) then Some ((), rest) else None | [] => None end.

(** [read_separator(sep, index, inner)] *)
Definition read_separator {A} (sep : byte) (first : bool) (inner : parser A) : parser A := fun s =>
  if first then inner s
  else '(_, s) ← read_given_char sep s; inner s.

Definition read_octet : parser Z := read_number 10 (Some 3) false 255.
Definition read_ipv4_addr : parser Ipv4Addr := fun s =>
  '(a, s) ← read_octet s;
  '(b, s) ← read_separator "." false read_octet s;
  '(c, s) ← read_separator "." false read_octet s;
  '(d, s) ← read_separator "." false read_octet s;
  Some ({| octet0 := a; octet1 := b; octet2 := c; octet3 := d |}, s).

(** [read_groups]: at most [limit] groups, the last two of which may be
    written as an IPv4 address, which ends the sequence. *)
Fixpoint read_groups (limit : nat) (first : bool) (s : bytes) : list Z * bool * bytes :=
  match limit with
  | O => ([], false, s)
  | S limit =>
      match (if bool_decide (limit = O) then None
             else read_separator ":" first read_ipv4_addr s) with
      | Some (a, s) =>
          ([octet0 a * 256 + octet1 a; octet2 a * 256 + octet3 a], true, s)
      | None =>
          match read_separator ":" first (read_number 16 (Some 4) true 65535) s with
          | Some (g, s) =>
              let '(gs, ipv4, s) := read_groups limit false s in (g :: gs, ipv4, s)
          | None => ([], false, s)
          end
      end
  end.

Definition ipv6_of_groups (gs : list Z) : Ipv6Addr :=
  let g i := nth i gs 0 in
  {| seg0 := g 0%nat; seg1 := g 1%nat; seg2 := g 2%nat; seg3 := g 3%nat;
     seg4 := g 4%nat; seg5 := g 5%nat; seg6 := g 6%nat; seg7 := g 7%nat |}.

Definition read_ipv6_addr : parser Ipv6Addr := fun s =>
  let '(head, head_ipv4, s) := read_groups 8 true s in
  if bool_decide (length head = 8%nat) then Some (ipv6_of_groups head, s)
  else if head_ipv4 then None
  else
    '(_, s) ← read_given_char ":" s;
    '(_, s) ← read_given_char ":" s;
    let '(tail, _, s) := read_groups (8 - (length head + 1)) true s in
    Some (ipv6_of_groups (head ++ replicate (8 - length head - length tail) 0 ++ tail), s).

Definition or_else {A} (p q : parser A) : parser A := fun s =>
  match p s with Some r => Some r | None => q s end.
Definition pmap {A B} (f : A -> B) (p : parser A) : parser B := fun s =>
  '(a, s) ← p s; Some (f a, s).
(** [parse_with]: the whole text *)
Definition parse_with {A} (p : parser A) (s : bytes) : option A :=
  '(a, rest) ← p s; if is_empty rest then Some a else None.

(** [str::parse::<IpAddr>] *)
Definition parse_ip_addr : bytes -> option IpAddr :=
  parse_with (or_else (pmap V4 read_ipv4_addr) (pmap V6 read_ipv6_addr)).

Definition is_loopback (a : IpAddr) : bool :=
  match a with V4 a => v4_is_loopback a | V6 a => v6_is_loopback a end.

Record SocketAddr := { socket_ip : IpAddr; socket_port : Z; socket_scope : Z }.

#[global] Instance Ipv4Addr_eq_dec : EqDecision Ipv4Addr.
Proof. solve_decision. Defined.
#[global] Instance Ipv6Addr_eq_dec : EqDecision Ipv6Addr.
Proof. solve_decision. Defined.
#[global] Instance IpAddr_eq_dec : EqDecision IpAddr.
Proof. solve_decision. Defined.
#[global] Instance SocketAddr_eq_dec : EqDecision SocketAddr.
Proof. solve_decision. Defined.

Definition read_port : parser Z := fun s =>
  '(_, s) ← read_given_char ":" s; read_number 10 None true 65535 s.

Definition read_socket_v4 : parser SocketAddr := fun s =>
  '(ip, s) ← read_ipv4_addr s;
  '(port, s) ← read_port s;
  Some ({| socket_ip := V4 ip; socket_port := port; socket_scope := 0 |}, s).

Definition read_scope : parser Z := fun s =>
  '(_, s) ← read_given_char "%" s; read_number 10 None true (2 ^ 32 - 1) s.

Definition read_socket_v6 : parser SocketAddr := fun s =>
  '(_, s) ← read_given_char "[" s;
  '(ip, s) ← read_ipv6_addr s;
  let '(scope, s) := default (0, s) (read_scope s) in
  '(_, s) ← read_given_char "]" s;
  '(port, s) ← read_port s;
  Some ({| socket_ip := V6 ip; socket_port := port; socket_scope := scope |}, s).

(** [str::parse::<SocketAddr>] *)
Definition parse_socket_addr : bytes -> option SocketAddr :=
  parse_with (or_else read_socket_v4 read_socket_v6).

(** ** [std::path::Path] *)

(** [Path::is_absolute] *)
Definition is_absolute (path : bytes) : bool := starts_with &"/" path.

(** The components [Path] equality compares: a root, and the names between
    slashes; empty names are skipped, and so is [.] except at the start of a
    relative path. *)
Definition path_components (path : bytes) : bool * list bytes :=
  let names := filter (fun n => n <> []) (split "/" path) in
  (is_absolute path,
   match names with
   | n :: rest =>
       (if bool_decide (n = &".") && is_absolute path then [] else [n])
       ++ filter (fun n => n <> &".") rest
   | [] => []
   end).

Definition path_eqb (a b : bytes) : bool :=
  bool_decide (path_components a = path_components b).

(** ** Facts *)

Lemma digit_of_range radix b d :
  digit_of radix b = Some d -> 0 < radix <= 36 -> 0 <= d < radix.
Proof.
  unfold digit_of. intros H Hr. case_match eqn:E; [|done].
  apply Some_inj in H as <-. breflect in E.
  unfold is_ascii_digit, is_ascii_lowercase, is_ascii_uppercase, in_range in *.
  repeat case_match; breflect in *; split_hyps; lia.
Qed.

Lemma read_digits_range radix s ds rest :
  read_digits radix s = (ds, rest) -> 0 < radix <= 36 ->
  Forall (fun d => 0 <= d < radix) ds.
Proof.
  intros H Hr. revert ds rest H. induction s as [|b s IH]; simpl; intros ds rest H.
  { apply pair_equal_spec in H as [<- _]. constructor. }
  destruct (digit_of radix b) as [d|] eqn:E.
  - destruct (read_digits radix s) as [ds' rest'] eqn:E'.
    apply pair_equal_spec in H as [<- _]. constructor; [by eapply digit_of_range|by eapply IH].
  - apply pair_equal_spec in H as [<- _]. constructor.
Qed.

Lemma number_of_nonneg radix ds :
  Forall (fun d => 0 <= d < radix) ds -> 0 <= number_of radix ds.
Proof.
  intros H. unfold number_of.
  assert (forall acc, 0 <= acc -> 0 <= fold_left (fun acc d => acc * radix + d) ds acc) as Hg;
    [|apply Hg; lia].
  induction H as [|d ds Hd _ IH]; simpl; intros acc Hacc; [done|]. apply IH. nia.
Qed.

Lemma read_number_range radix md z max s v rest :
  read_number radix md z max s = Some (v, rest) -> 0 < radix <= 36 -> 0 <= v <= max.
Proof.
  unfold read_number. intros H Hr. destruct (read_digits radix s) as [ds r] eqn:E.
  apply read_digits_range in E; [|done]. apply number_of_nonneg in E.
  case_match eqn:C; [done|]. apply Some_inj, pair_equal_spec in H as [<- _].
  breflect in C. lia.
Qed.

Lemma read_separator_inner {A} sep first (p : parser A) s r :
  read_separator sep first p s = Some r -> exists s', p s' = Some r.
Proof.
  unfold read_separator. destruct first; [by exists s|].
  destruct (read_given_char sep s) as [[[] s']|]; simpl; [by exists s'|done].
Qed.

(** An address that was parsed has octets. *)
Lemma read_ipv4_addr_wf s a rest : read_ipv4_addr s = Some (a, rest) -> wf_ipv4 a.
Proof.
  unfold read_ipv4_addr. intros H.
  apply bind_Some in H as ([a0 s0] & H0 & H).
  apply bind_Some in H as ([a1 s1] & [? H1]%read_separator_inner & H).
  apply bind_Some in H as ([a2 s2] & [? H2]%read_separator_inner & H).
  apply bind_Some in H as ([a3 s3] & [? H3]%read_separator_inner & H).
  apply Some_inj, pair_equal_spec in H as [<- _].
  unfold wf_ipv4; simpl.
  apply read_number_range in H0; [|lia]. apply read_number_range in H1; [|lia].
  apply read_number_range in H2; [|lia]. apply read_number_range in H3; [|lia]. lia.
Qed.

Lemma read_groups_wf limit first s gs ipv4 rest :
  read_groups limit first s = (gs, ipv4, rest) -> Forall (fun g => 0 <= g < 65536) gs.
Proof.
  revert first s gs ipv4 rest. induction limit as [|limit IH]; simpl; intros first s gs ipv4 rest H.
  { apply pair_equal_spec in H as [H _]. apply pair_equal_spec in H as [<- _]. constructor. }
  case_match eqn:E4.
  - destruct p as [a s']. apply pair_equal_spec in H as [H _].
    apply pair_equal_spec in H as [<- _].
    case_bool_decide; [done|]. apply read_separator_inner in E4 as [? E4].
    apply read_ipv4_addr_wf in E4. unfold wf_ipv4 in E4. repeat constructor; lia.
  - case_match eqn:E6.
    + destruct p as [g s']. destruct (read_groups limit false s') as [[gs' i'] r'] eqn:E.
      apply pair_equal_spec in H as [H _]. apply pair_equal_spec in H as [<- _].
      apply read_separator_inner in E6 as [? E6]. apply read_number_range in E6; [|lia].
      constructor; [lia|by eapply IH].
    + apply pair_equal_spec in H as [H _]. apply pair_equal_spec in H as [<- _]. constructor.
Qed.

Lemma ipv6_of_groups_wf gs :
  Forall (fun g => 0 <= g < 65536) gs -> wf_ipv6 (ipv6_of_groups gs).
Proof.
  intros H. assert (forall i, 0 <= nth i gs 0 < 65536) as Hn.
  { intros i. destruct (nth_in_or_default i gs 0) as [Hin| ->]; [|lia].
    apply list_elem_of_In in Hin. rewrite Forall_forall in H. by apply H. }
  unfold wf_ipv6, ipv6_of_groups; cbn [seg0 seg1 seg2 seg3 seg4 seg5 seg6 seg7].
  repeat constructor; apply Hn.
Qed.

Lemma read_ipv6_addr_wf s a rest : read_ipv6_addr s = Some (a, rest) -> wf_ipv6 a.
Proof.
  unfold read_ipv6_addr. destruct (read_groups 8 true s) as [[head h4] s'] eqn:E.
  apply read_groups_wf in E.
  case_bool_decide; [intros [<- _]%Some_inj%pair_equal_spec; by apply ipv6_of_groups_wf|].
  destruct h4; [done|]. intros H'.
  apply bind_Some in H' as ([? s1] & _ & H'). apply bind_Some in H' as ([? s2] & _ & H').
  destruct (read_groups _ true s2) as [[tail t4] s3] eqn:Et. apply read_groups_wf in Et.
  apply Some_inj, pair_equal_spec in H' as [<- _]. apply ipv6_of_groups_wf.
  apply Forall_app. split; [done|]. apply Forall_app. split; [|done].
  apply Forall_replicate. lia.
Qed.

Lemma parse_ip_addr_wf s a :
  parse_ip_addr s = Some a -> match a with V4 a => wf_ipv4 a | V6 a => wf_ipv6 a end.
Proof.
  unfold parse_ip_addr, parse_with, or_else, pmap. intros H.
  apply bind_Some in H as ([a' rest] & H & Hr). case_match; [|done].
  apply Some_inj in Hr as ->.
  destruct (read_ipv4_addr s) as [[v r]|] eqn:E4; simpl in H.
  - apply Some_inj, pair_equal_spec in H as [<- _]. by eapply read_ipv4_addr_wf.
  - apply bind_Some in H as ([v r] & E6 & H). apply Some_inj, pair_equal_spec in H as [<- _].
    by eapply read_ipv6_addr_wf.
Qed.

Example parse_ip_addr_v4 :
  parse_ip_addr &"127.0.0.1" = Some (V4 (Build_Ipv4Addr 127 0 0 1))
  /\ parse_ip_addr &"127.0.0.01" = None /\ parse_ip_addr &"127.0.0.256" = None
  /\ parse_ip_addr &"127.0.0.1 " = None.
Proof. repeat split. Qed.
Example parse_ip_addr_v6 :
  parse_ip_addr &"::1" = Some (V6 (Build_Ipv6Addr 0 0 0 0 0 0 0 1))
  /\ parse_ip_addr &"2001:DB8::192.0.2.1"
     = Some (V6 (Build_Ipv6Addr 0x2001 0xdb8 0 0 0 0 0xc000 0x0201))
  /\ parse_ip_addr &"[::1]" = None /\ parse_ip_addr &"1::2::3" = None.
Proof. repeat split. Qed.
Example parse_socket_addr_both :
  parse_socket_addr &"0.0.0.0:14322"
    = Some {| socket_ip := V4 (Build_Ipv4Addr 0 0 0 0); socket_port := 14322; socket_scope := 0 |}
  /\ parse_socket_addr &"[::1%3]:443"
    = Some {| socket_ip := V6 (Build_Ipv6Addr 0 0 0 0 0 0 0 1); socket_port := 443;
              socket_scope := 3 |}
  /\ parse_socket_addr &"localhost:80" = None /\ parse_socket_addr &"127.0.0.1:65536" = None.
Proof. repeat split. Qed.
Example path_eqb_normalises : path_eqb &"/a//b/./c/" &"/a/b/c" = true.
Proof. reflexivity. Qed.
