(* ===== verification/Auth.v ===== *)
(** Auth: request authentication (src/auth.rs).

    The token libraries (jsonwebtoken, argon2) and the OIDC provider are
    parameters: the classes below list what the source calls.  Store lookups run
    in the database monad of Database.v; the signing-key cache is explicit
    state. *)

From Stdlib Require Import Ascii String Sorted.
From stdpp Require Import base list strings gmap.
From S2P Require Import Prelude Str BTree External Models Database Store StoreFacts StoreProps.

(** ** Parameters *)

Record Claims := { sub : bytes; extra : list (bytes * Value) }.

Inductive Algorithm := RS256 | RS384 | RS512 | PS256 | PS384 | PS512 | ES256 | ES384 | EdDSA
                     | OtherAlgorithm.
#[global] Instance Algorithm_eq_dec : EqDecision Algorithm.
Proof. solve_decision. Defined.

(** [jsonwebtoken::Validation], as far as the source sets it *)
Record Validation := {
  algorithms : list Algorithm;
  val_issuer : bytes;
  val_audience : list bytes;
}.

Class JwtLib := {
  JwkSet : Type;
  Jwk : Type;
  DecodingKey : Type;
  (** [decode_header]: algorithm and key id *)
  decode_header : bytes -> option (Algorithm * option bytes);
  jwks_find : JwkSet -> bytes -> option Jwk;
  from_jwk : Jwk -> option DecodingKey;
  decode : bytes -> DecodingKey -> Validation -> option Claims;
}.

(** [argon2] / [password_hash] *)
Class PasswordLib := {
  PasswordHash : Type;
  password_hash_new : bytes -> option PasswordHash;
  ph_algorithm : PasswordHash -> bytes;
  ph_version : PasswordHash -> option Z;
  ph_salt : PasswordHash -> option bytes;
  ph_hash : PasswordHash -> option bytes;
  (** [Params::try_from]: memory, iterations, parallelism *)
  ph_params : PasswordHash -> option (Z * Z * Z);
  verify_password : bytes -> PasswordHash -> bool;
}.

(** ** Configuration and state *)

Inductive AuthMode := ModeOidc | ModeBasic | ModeOidcOrBasic | ModeGithubOrBasic | ModeDisabled.
#[global] Instance AuthMode_eq_dec : EqDecision AuthMode.
Proof. solve_decision. Defined.

Inductive OidcSigningAlgorithm :=
| Rs256 | Rs384 | Rs512 | Ps256 | Ps384 | Ps512 | Es256 | Es384 | EdDsa.

Definition oidc_algorithm (a : OidcSigningAlgorithm) : Algorithm :=
  match a with
  | Rs256 => RS256 | Rs384 => RS384 | Rs512 => RS512 | Ps256 => PS256 | Ps384 => PS384
  | Ps512 => PS512 | Es256 => ES256 | Es384 => ES384 | EdDsa => EdDSA
  end.

Record BasicUserConfig := { bu_username : bytes; password_hash_file : bytes }.

Record GithubAuthConfig := {
  github_client_id : bytes;
  github_client_secret_file : bytes;
  allowed_user_ids : list Z;
  allowed_organizations : list bytes;
}.

Record AuthConfig := {
  auth_mode : AuthMode;
  issuer : bytes;
  client_id : bytes;
  audiences : list bytes;
  scopes : list bytes;
  signing_algorithms : list OidcSigningAlgorithm;
  group_claim : bytes;
  allowed_groups : list bytes;
  basic_users : list BasicUserConfig;
  github : option GithubAuthConfig;
}.

Record BasicCredential := { bc_username : bytes; bc_password_hash : bytes }.
Record Identity := { subject : bytes }.

Definition JWKS_REFRESH_COOLDOWN : Z := from_secs 60.
Definition BASIC_AUTH_MIN_MEMORY_KIB : Z := 19 * 1024.
Definition BASIC_AUTH_MAX_MEMORY_KIB : Z := 64 * 1024.
Definition BASIC_AUTH_MIN_ITERATIONS : Z := 2.
Definition BASIC_AUTH_MAX_ITERATIONS : Z := 6.
Definition BASIC_AUTH_MAX_PARALLELISM : Z := 4.
Definition DUMMY_PASSWORD_HASH : bytes :=
  &"$argon2id$v=19$m=19456,t=2,p=1$c29tZXNhbHQ$CTFhFdXPJO1aFaMaO6Mm5c8y7cJHAph8ArZWb2GRPPc".

(** ** Definitions *)

Definition value_as_str (v : Value) : option bytes :=
  match v with Text s => Some s | _ => None end.

Definition claim_allows_group (claim : option Value) (allowed_groups : list bytes) : bool :=
  match claim with
  | Some (Array groups) =>
      existsb (fun group => existsb (fun allowed => bool_decide (allowed = group)) allowed_groups)
        (omap value_as_str groups)
  | Some (Object roles) =>
      existsb (fun role => existsb (fun allowed => bool_decide (allowed = role)) allowed_groups)
        roles.*1
  | _ => false
  end.

Section Auth.
Context {HL : HeaderLib} {EL : EncodingLib} {JL : JwtLib} {PL : PasswordLib}.

(** [Authenticator]: the mutable part is the key cache *)
Record JwksState := { jwks : option JwkSet; last_attempt : option Z }.
Record Authenticator := {
  config : AuthConfig;
  (** the provider's answer to a key request, when discovery is configured *)
  discovery : option (result JwkSet);
  basic_credentials : list BasicCredential;
  (** whether a managed store is attached *)
  managed : bool;
}.

(** [refresh_jwks] at time [now]; the second component tells whether the
    provider was asked. *)
Definition refresh_jwks (a : Authenticator) (now : Z) (force : bool) (st : JwksState)
    : result unit * JwksState * bool :=
  if negb force && match last_attempt st with
                   | Some attempt => (now - attempt <? JWKS_REFRESH_COOLDOWN)%Z
                   | None => false
                   end
  then (Ok (), st, false)
  else
    let st := {| jwks := jwks st; last_attempt := Some now |} in
    match discovery a with
    | None => (Err "OIDC is not configured", st, false)
    | Some (Err e) => (Err e, st, true)
    | Some (Ok set) => (Ok (), {| jwks := Some set; last_attempt := Some now |}, true)
    end.

Definition find_jwk (st : JwksState) (kid : bytes) : option Jwk :=
  set ← jwks st; jwks_find set kid.

Definition oidc_validation (c : AuthConfig) : Validation := {|
  algorithms := oidc_algorithm <$> signing_algorithms c;
  val_issuer := issuer c;
  val_audience := if is_empty (audiences c) then [client_id c] else audiences c |}.

(** The part of [authorize_oidc] after the key has been found. *)
Definition validate_oidc (c : AuthConfig) (token : bytes) (key : option Jwk) : result Identity :=
  jwk ← ok_or key "bearer token key is not trusted";
  key ← ok_or (from_jwk jwk) "unsupported OIDC signing key";
  claims ← ok_or (decode token key (oidc_validation c)) "bearer token validation failed";
  _ ← bail_if (negb (claim_allows_group (bt_get (extra claims) (group_claim c))
                       (allowed_groups c)))
        "OIDC identity is not in an allowed group";
  Ok {| subject := sub claims |}.

Definition authorize_oidc (a : Authenticator) (now : Z) (token : bytes) (st : JwksState)
    : result Identity * JwksState :=
  let checked :=
    header ← ok_or (decode_header token) "invalid bearer token header";
    let allowed_algorithms := oidc_algorithm <$> signing_algorithms (config a) in
    _ ← ok_or (head allowed_algorithms) "OIDC has no trusted signing algorithms";
    _ ← bail_if (negb (bool_decide (header.1 ∈ allowed_algorithms)))
          "bearer token uses an untrusted signing algorithm";
    ok_or header.2 "bearer token has no key id" in
  match checked with
  | Err e => (Err e, st)
  | Ok kid =>
      match find_jwk st kid with
      | Some jwk => (validate_oidc (config a) token (Some jwk), st)
      | None =>
          match refresh_jwks a now false st with
          | (Err e, st, _) => (Err e, st)
          | (Ok _, st, _) => (validate_oidc (config a) token (find_jwk st kid), st)
          end
      end
  end.

Definition authorize_agent (a : Authenticator) (token : bytes) : DB Identity :=
  _ ← lift (bail_if (negb (len token =? 52)%Z || negb (starts_with &"av_agent_" token)
                     || negb (forallb (fun byte => is_ascii_alphanumeric byte || one_of "-_" byte)
                                (drop 9 token))) "invalid agent token");
  _ ← lift (bail_if (negb (managed a)) "agent authentication requires managed mode");
  name ← agent_for_token_hash (sha256_digest token);
  name ← lift (ok_or name "agent token is unknown or disabled");
  mret {| subject := &"agent:" ++ name |}.

(** The credential of the user that is asking, if there is one. *)
Definition requested_credential (a : Authenticator) (username : bytes)
    (managed_hash : option bytes) : option BasicCredential :=
  if managed a then
    hash ← managed_hash; Some {| bc_username := username; bc_password_hash := hash |}
  else find (fun credential => bool_decide (bc_username credential = username))
         (basic_credentials a).

(** The verification; an unknown user is compared against some other hash and
    refused.  [slot] is the outcome of waiting for a verification slot. *)
Definition verify_basic (a : Authenticator) (slot : result unit) (username password : bytes)
    (requested : option BasicCredential) : result Identity :=
  let comparison :=
    match requested with Some r => Some r | None => head (basic_credentials a) end in
  _ ← slot;
  let hash := match comparison with
              | Some credential => bc_password_hash credential
              | None => DUMMY_PASSWORD_HASH
              end in
  hash ← ok_or (password_hash_new hash) "parse Argon2id password hash: {error}";
  if verify_password password hash && bool_decide (is_Some requested)
  then Ok {| subject := &"basic:" ++ username |}
  else Err "invalid Basic credentials".

Definition decode_basic (encoded : bytes) : result (bytes * bytes) :=
  decoded ← ok_or (base64_standard_decode encoded) "invalid Basic authorization";
  _ ← bail_if (negb (utf8_valid decoded)) "invalid Basic authorization encoding";
  ok_or (split_once ":" decoded) "invalid Basic authorization payload".

Definition authorize_basic (a : Authenticator) (slot : result unit) (encoded : bytes)
    : DB Identity :=
  '(username, password) ← lift (decode_basic encoded);
  managed_hash ← (if managed a then basic_password_hash username else mret None);
  lift (verify_basic a slot username password (requested_credential a username managed_hash)).

Definition oidc_mode (m : AuthMode) : bool :=
  match m with ModeOidc | ModeOidcOrBasic => true | _ => false end.
Definition basic_mode (m : AuthMode) : bool :=
  match m with ModeBasic | ModeOidcOrBasic | ModeGithubOrBasic => true | _ => false end.

Definition authorize (a : Authenticator) (now : Z) (slot : result unit) (headers : HeaderMap)
    (st : JwksState) : DB Identity * JwksState :=
  if bool_decide (auth_mode (config a) = ModeDisabled)
  then (mret {| subject := &"local-insecure" |}, st)
  else
    match hm_get headers (from_static &"authorization") ≫= value_to_str with
    | None => (lift (Err "missing Authorization header"), st)
    | Some authorization =>
        let basic :=
          match strip_prefix &"Basic " authorization with
          | Some encoded =>
              if basic_mode (auth_mode (config a)) then authorize_basic a slot encoded
              else lift (Err "unsupported authentication scheme")
          | None => lift (Err "unsupported authentication scheme")
          end in
        match strip_prefix &"Agent " authorization with
        | Some token => (authorize_agent a token, st)
        | None =>
            match strip_prefix &"Bearer " authorization with
            | Some token =>
                if oidc_mode (auth_mode (config a)) then
                  let '(r, st) := authorize_oidc a now token st in (lift r, st)
                else (basic, st)
            | None => (basic, st)
            end
        end
    end.

(** One user of [load_basic_credentials]; [read_to_string] is the file system. *)
Definition load_basic_credential (read_to_string : bytes -> option bytes) (user : BasicUserConfig)
    : result BasicCredential :=
  hash ← ok_or (read_to_string (password_hash_file user)) "read password hash file for {}";
  let hash := trim hash in
  parsed ← ok_or (password_hash_new hash) "parse Argon2id password hash for {}: {error}";
  _ ← bail_if (negb (bool_decide (ph_algorithm parsed = &"argon2id")))
        "password hash for {} must use Argon2id";
  _ ← bail_if (negb (bool_decide (ph_version parsed = Some 19%Z))
               || bool_decide (ph_salt parsed = None) || bool_decide (ph_hash parsed = None))
        "password hash for {} must be a complete Argon2id v19 PHC string";
  '(m_cost, t_cost, p_cost) ← ok_or (ph_params parsed) "parse Argon2id parameters for {}: {error}";
  _ ← bail_if (negb ((BASIC_AUTH_MIN_MEMORY_KIB <=? m_cost)%Z
                     && (m_cost <=? BASIC_AUTH_MAX_MEMORY_KIB)%Z)
               || negb ((BASIC_AUTH_MIN_ITERATIONS <=? t_cost)%Z
                        && (t_cost <=? BASIC_AUTH_MAX_ITERATIONS)%Z)
               || negb ((1 <=? p_cost)%Z && (p_cost <=? BASIC_AUTH_MAX_PARALLELISM)%Z))
        "password hash for {} uses Argon2id parameters outside AV's safety bounds";
  Ok {| bc_username := bu_username user; bc_password_hash := hash |}.

Definition load_basic_credentials (read_to_string : bytes -> option bytes) (c : AuthConfig)
    : result (list BasicCredential) :=
  collect_results (load_basic_credential read_to_string) (basic_users c).
End Auth.

(** ** What proves an identity *)

Section Evidence.
Context {HL : HeaderLib} {EL : EncodingLib} {JL : JwtLib} {PL : PasswordLib}.

Definition in_allowed_group (c : AuthConfig) (claims : Claims) : Prop :=
  exists group, group ∈ allowed_groups c
    /\ ((exists groups, bt_get (extra claims) (group_claim c) = Some (Array groups)
                        /\ Text group ∈ groups)
        \/ (exists roles, bt_get (extra claims) (group_claim c) = Some (Object roles)
                          /\ group ∈ roles.*1)).

(** The key set a token may be checked against: cached or freshly fetched. *)
Definition trusted_keys (a : Authenticator) (st : JwksState) (set : JwkSet) : Prop :=
  jwks st = Some set \/ discovery a = Some (Ok set).

(** The stored hash of a Basic user: the managed row when there is a store,
    otherwise the first configured credential of that name. *)
Definition basic_hash_of (a : Authenticator) (t : Tables) (username hash : bytes) : Prop :=
  if managed a then
    exists row, av_basic_users t !! username = Some row
                /\ user_enabled row = true /\ password_hash row = hash
  else find (fun credential => bool_decide (bc_username credential = username))
         (basic_credentials a) = Some {| bc_username := username; bc_password_hash := hash |}.

Inductive proves (a : Authenticator) (t : Tables) (st : JwksState) : bytes -> bytes -> Prop :=
| proves_agent token name row :
    managed a = true -> av_agents t !! name = Some row ->
    agent_token_hash row = sha256_digest token -> agent_enabled row = true ->
    len token = 52%Z ->
    proves a t st (&"Agent " ++ token) (&"agent:" ++ name)
| proves_oidc token alg kid set jwk key claims :
    oidc_mode (auth_mode (config a)) = true ->
    decode_header token = Some (alg, Some kid) ->
    alg ∈ oidc_algorithm <$> signing_algorithms (config a) ->
    trusted_keys a st set -> jwks_find set kid = Some jwk -> from_jwk jwk = Some key ->
    decode token key (oidc_validation (config a)) = Some claims ->
    in_allowed_group (config a) claims ->
    proves a t st (&"Bearer " ++ token) (sub claims)
| proves_basic encoded username password hash parsed :
    basic_mode (auth_mode (config a)) = true ->
    base64_standard_decode encoded = Some (username ++ &":" ++ password) ->
    ":"%char ∉ username ->
    basic_hash_of a t username hash ->
    password_hash_new hash = Some parsed -> verify_password password parsed = true ->
    proves a t st (&"Basic " ++ encoded) (&"basic:" ++ username).

Lemma split_once_ok c s x y : split_once c s = Some (x, y) -> s = x ++ c :: y /\ c ∉ x.
Proof.
  revert x y. induction s as [|b s IH]; intros x y; simpl; [done|]. case_bool_decide as Hb.
  - intros [= <- <-]. subst. split; [done|set_solver].
  - destruct (split_once c s) as [[x' y']|]; [|done]. intros [= <- <-].
    destruct (IH x' y' eq_refl) as [-> ?]. split; [done|]. set_solver.
Qed.

Lemma existsb_member allowed xs :
  existsb (fun g => existsb (fun a : bytes => bool_decide (a = g)) allowed) xs = true <->
  exists g, g ∈ allowed /\ g ∈ xs.
Proof.
  rewrite existsb_true. setoid_rewrite existsb_true. setoid_rewrite bool_decide_eq_true.
  naive_solver.
Qed.

Lemma claim_allows_group_ok c claims :
  claim_allows_group (bt_get (extra claims) (group_claim c)) (allowed_groups c) = true <->
  in_allowed_group c claims.
Proof.
  unfold claim_allows_group, in_allowed_group.
  destruct (bt_get (extra claims) (group_claim c)) as [[| | | |groups|roles]|];
    rewrite ?existsb_member; try naive_solver.
  setoid_rewrite list_elem_of_omap. split.
  - intros (g & Hg & v & Hv & Hs). destruct v; try done. simplify_eq/=. exists g. naive_solver.
  - intros (g & Hg & [(gs & [= <-] & Hin)|(r & [=] & _)]). exists g. split; [done|].
    by exists (Text g).
Qed.

Lemma authorize_agent_ok a w token id st :
  (authorize_agent a token w).1 = Ok id ->
  proves a (tables w) st (&"Agent " ++ token) (subject id).
Proof.
  unfold authorize_agent, mbind, db_bind, lift. destruct (bail_if _ _) eqn:E1; [|done].
  destruct (bail_if (negb (managed a)) _) eqn:E2; [|done].
  destruct (agent_for_token_hash (sha256_digest token) w) as [[[name|]|] w'] eqn:Eq; try done.
  intros [= <-]. simpl. inv_ok. rewrite !orb_false_iff, !negb_false_iff in *. destruct_and!.
  destruct (agent_for_token_hash_ok (sha256_digest token) w name) as (row & ? & ? & ?);
    [by rewrite Eq|]. eapply proves_agent; try done. lia.
Qed.

Lemma validate_oidc_ok a t st token alg kid set id :
  oidc_mode (auth_mode (config a)) = true ->
  decode_header token = Some (alg, Some kid) ->
  alg ∈ oidc_algorithm <$> signing_algorithms (config a) ->
  trusted_keys a st set ->
  validate_oidc (config a) token (jwks_find set kid) = Ok id ->
  proves a t st (&"Bearer " ++ token) (subject id).
Proof.
  intros Hm Hh Ha Hset Hv. unfold validate_oidc in Hv. inv_ok. subst id. simpl.
  eapply proves_oidc; try done. apply claim_allows_group_ok. by apply negb_false_iff.
Qed.

(** A refresh leaves the cached keys or replaces them by the provider's. *)
Lemma refresh_keys a now force st u st' b set :
  refresh_jwks a now force st = (Ok u, st', b) -> jwks st' = Some set ->
  trusted_keys a st set.
Proof.
  unfold refresh_jwks, trusted_keys. destruct (negb force && _); [intros; simplify_eq; by left|].
  destruct (discovery a) as [[]|]; intros; simplify_eq/=. by right.
Qed.

Lemma authorize_oidc_ok a t now token st id st' :
  oidc_mode (auth_mode (config a)) = true ->
  authorize_oidc a now token st = (Ok id, st') ->
  proves a t st (&"Bearer " ++ token) (subject id).
Proof.
  intros Hm. unfold authorize_oidc. case_match eqn:Ec; [|done]. rename a0 into kid.
  inv_ok. destruct x as [alg o]. simpl in *. subst o.
  rewrite negb_false_iff, bool_decide_eq_true in *.
  destruct (find_jwk st kid) as [jwk|] eqn:Ef.
  - intros [= Hv _]. rewrite <- Ef in Hv. apply bind_Some in Ef as (set & Hs & _).
    unfold find_jwk in Hv. rewrite Hs in Hv. eapply validate_oidc_ok; try done. by left.
  - destruct (refresh_jwks a now false st) as [[[u|e] st1] b] eqn:Er; [|done].
    intros [= Hv _]. unfold find_jwk in Hv. destruct (jwks st1) as [set|] eqn:Es; [|done].
    eapply validate_oidc_ok; try done. by eapply refresh_keys.
Qed.

Lemma basic_password_hash_ok username w hash :
  (basic_password_hash username w).1 = Ok (Some hash) ->
  exists row, av_basic_users (tables w) !! username = Some row
    /\ user_enabled row = true /\ password_hash row = hash.
Proof.
  intros H. assert (exists t', ideal (basic_password_hash username) (clock w) (tables w)
    = (Ok (Some hash), t')) as [t' Hi].
  { eexists. apply honest_result; [apply honest_statement|done]. }
  unfold basic_password_hash in Hi. inv_ideal. symmetry in Hi.
  apply bind_Some in Hi as (row & Hr & Hc). destruct (user_enabled row) eqn:E; [|done].
  exists row. naive_solver.
Qed.

Lemma verify_basic_ok a slot username password requested id :
  verify_basic a slot username password requested = Ok id ->
  id = {| subject := &"basic:" ++ username |}
  /\ exists r parsed, requested = Some r
       /\ password_hash_new (bc_password_hash r) = Some parsed
       /\ verify_password password parsed = true.
Proof.
  unfold verify_basic. intros Hok. inv_ok. destruct (_ && _) eqn:E; [|done]. inv_ok.
  apply andb_true_iff in E as [E1 E2%bool_decide_eq_true]. split; [done|].
  destruct E2 as [r ->]. by eexists r, _.
Qed.

Lemma requested_credential_ok a w username hash w' r :
  (if managed a then basic_password_hash username else mret None) w = (Ok hash, w') ->
  requested_credential a username hash = Some r ->
  basic_hash_of a (tables w) username (bc_password_hash r).
Proof.
  unfold requested_credential, basic_hash_of. destruct (managed a).
  - intros Hq Hr. apply bind_Some in Hr as (h & -> & [= <-]). simpl.
    apply basic_password_hash_ok. by rewrite Hq.
  - intros _ Hf. rewrite Hf. apply List.find_some in Hf as [_ Hu%bool_decide_eq_true].
    by destruct r; simpl in *; subst.
Qed.

Lemma authorize_basic_ok a slot encoded w id st :
  basic_mode (auth_mode (config a)) = true ->
  (authorize_basic a slot encoded w).1 = Ok id ->
  proves a (tables w) st (&"Basic " ++ encoded) (subject id).
Proof.
  intros Hm. unfold authorize_basic, mbind, db_bind, lift.
  destruct (decode_basic encoded) as [[username password]|] eqn:Ed; [|done].
  destruct ((if managed a then basic_password_hash username else mret None) w)
    as [[hash|] w'] eqn:Eq; [|done]. cbn [fst].
  intros (-> & r & parsed & Hr & Hp & Hv)%verify_basic_ok.
  unfold decode_basic in Ed. inv_ok. apply split_once_ok in Ed as [-> Hcolon].
  apply (proves_basic a _ _ encoded username password (bc_password_hash r) parsed); try done.
  by eapply (requested_credential_ok a w username hash w').
Qed.

Lemma authorize_ok a now slot headers st w id :
  auth_mode (config a) <> ModeDisabled ->
  ((authorize a now slot headers st).1 w).1 = Ok id ->
  exists text,
    hm_get headers (from_static &"authorization") ≫= value_to_str = Some text
    /\ proves a (tables w) st text (subject id).
Proof.
  intros Hmode. unfold authorize. rewrite bool_decide_eq_false_2 by done.
  destruct (_ ≫= value_to_str) as [text|] eqn:Et; [|done]. intros H. exists text.
  split; [done|]. revert H.
  assert (((match strip_prefix &"Basic " text with
            | Some encoded => if basic_mode (auth_mode (config a))
                              then authorize_basic a slot encoded
                              else lift (Err "unsupported authentication scheme")
            | None => lift (Err "unsupported authentication scheme")
            end : DB Identity) w).1 = Ok id -> proves a (tables w) st text (subject id)) as Hbasic.
  { destruct (strip_prefix &"Basic " text) as [encoded|] eqn:Eb; [|done].
    apply strip_prefix_spec in Eb as ->. destruct (basic_mode _) eqn:Em; [|done].
    by apply authorize_basic_ok. }
  destruct (strip_prefix &"Agent " text) as [token|] eqn:Ea.
  - apply strip_prefix_spec in Ea as ->. apply authorize_agent_ok.
  - destruct (strip_prefix &"Bearer " text) as [token|] eqn:Eb; [|done].
    destruct (oidc_mode _) eqn:Em; [|done]. apply strip_prefix_spec in Eb as ->.
    destruct (authorize_oidc a now token st) as [r st'] eqn:Eo. simpl. intros ->.
    by eapply authorize_oidc_ok.
Qed.

(** C9: with authentication enabled, an accepted request proves its identity: an
    enabled agent whose stored digest is the token's hash; an OIDC token with an
    allowed algorithm, verified by a trusted key against the configured issuer
    and audiences, with an allowed group; or the password of the named Basic user
    itself, never that of another user or of the dummy hash. *)
Theorem authorize_sound a now slot headers st w id :
  auth_mode (config a) <> ModeDisabled ->
  ((authorize a now slot headers st).1 w).1 = Ok id ->
  exists text,
    hm_get headers (from_static &"authorization") ≫= value_to_str = Some text
    /\ proves a (tables w) st text (subject id).
Proof. apply authorize_ok. Qed.

(** ** The key cache *)

(** The times at which unforced refreshes at the given times ask the provider. *)
Fixpoint refresh_times (a : Authenticator) (nows : list Z) (st : JwksState) : list Z :=
  match nows with
  | [] => []
  | now :: nows =>
      let '(_, st, asked) := refresh_jwks a now false st in
      (if asked then [now] else []) ++ refresh_times a nows st
  end.

Lemma refresh_asked a now force st r st' :
  refresh_jwks a now force st = (r, st', true) ->
  last_attempt st' = Some now
  /\ (force = false -> forall t, last_attempt st = Some t -> t + JWKS_REFRESH_COOLDOWN <= now)%Z.
Proof.
  unfold refresh_jwks. destruct force; simpl.
  - destruct (discovery a) as [[]|]; intros; simplify_eq; done.
  - destruct (last_attempt st) as [t|].
    + destruct (Z.ltb_spec (now - t) JWKS_REFRESH_COOLDOWN); [done|].
      destruct (discovery a) as [[]|]; intros; simplify_eq/=; split; try done;
        intros _ ? [= <-]; lia.
    + destruct (discovery a) as [[]|]; intros; simplify_eq/=; done.
Qed.

Lemma refresh_not_asked a now st r st' set :
  discovery a = Some set -> refresh_jwks a now false st = (r, st', false) -> st' = st.
Proof.
  intros Hd. unfold refresh_jwks. rewrite Hd. case_match; [by intros [= _ <-]|].
  destruct set; done.
Qed.

(** Tokens with unknown key ids cannot flood the identity provider: however
    many arrive and whenever, key requests are at least the cool-down apart. *)
Theorem jwks_refresh_rate_limited a set nows st :
  discovery a = Some set ->
  Sorted (fun x y => x + JWKS_REFRESH_COOLDOWN <= y)%Z
    (option_list (last_attempt st) ++ refresh_times a nows st).
Proof.
  intros Hd. revert st. induction nows as [|now nows IH]; intros st; simpl.
  - destruct (last_attempt st); simpl; repeat constructor.
  - destruct (refresh_jwks a now false st) as [[r st'] asked] eqn:E. destruct asked; simpl.
    + apply refresh_asked in E as [Hl Hgap]. specialize (IH st'). rewrite Hl in IH. simpl in IH.
      destruct (last_attempt st) as [t|]; simpl; [|done].
      constructor; [done|]. constructor. by apply Hgap.
    + by rewrite (refresh_not_asked _ _ _ _ _ _ Hd E).
Qed.

(** Every Basic credential loaded from configuration is an Argon2id v19 hash
    with salt and digest and with memory, iterations and parallelism inside AV's
    bounds, in the configured order. *)
Theorem loaded_credentials_bounded read_to_string c credentials :
  load_basic_credentials read_to_string c = Ok credentials ->
  Forall2 (fun user credential =>
    bc_username credential = bu_username user
    /\ exists parsed m t p,
      password_hash_new (bc_password_hash credential) = Some parsed
      /\ ph_algorithm parsed = &"argon2id" /\ ph_version parsed = Some 19%Z
      /\ ph_salt parsed <> None /\ ph_hash parsed <> None
      /\ ph_params parsed = Some (m, t, p)
      /\ (19456 <= m <= 65536 /\ 2 <= t <= 6 /\ 1 <= p <= 4)%Z)
    (basic_users c) credentials.
Proof.
  unfold load_basic_credentials. generalize (basic_users c). intros users. revert credentials.
  induction users as [|user users IH]; intros credentials Hok; cbn [collect_results] in Hok.
  - inv_ok. subst. constructor.
  - inv_ok. subst. constructor; [|by apply IH]. clear IH. unfold load_basic_credential in *.
    inv_ok. subst. simpl. split; [done|]. rewrite ?orb_false_iff, ?negb_false_iff in *.
    breflect in *. do 4 eexists. split_and!; try done; try lia; naive_solver.
Qed.
End Evidence.

(** ** Witnesses, on stand-ins for the token libraries *)

Module AuthModels.
Import Models.

(** A token is its own signed claim: [kid.sub], signed with RS256. *)
#[export] Instance jwt : JwtLib := {
  JwkSet := list bytes;
  Jwk := bytes;
  DecodingKey := bytes;
  decode_header token := '(kid, _) ← split_once "." token; Some (RS256, Some kid);
  jwks_find set kid := if bool_decide (kid ∈ set) then Some kid else None;
  from_jwk jwk := Some jwk;
  decode token key v :=
    '(kid, s) ← split_once "." token;
    if bool_decide (kid = key /\ RS256 ∈ algorithms v)
    then Some {| sub := s; extra := [(&"groups", Array [Text &"ops"])] |} else None;
}.

(** A hash is its PHC prefix and the password in clear. *)
#[export] Instance passwords : PasswordLib := {
  PasswordHash := bytes;
  password_hash_new h := strip_prefix &"$argon2id$" h;
  ph_algorithm _ := &"argon2id";
  ph_version _ := Some 19%Z;
  ph_salt _ := Some [];
  ph_hash h := Some h;
  ph_params _ := Some (19456, 2, 1)%Z;
  verify_password password h := bool_decide (password = h);
}.

Definition auth_config : AuthConfig := {|
  auth_mode := ModeOidcOrBasic; issuer := &"https://id.example.test"; client_id := &"av";
  audiences := []; scopes := []; signing_algorithms := [Rs256]; group_claim := &"groups";
  allowed_groups := [&"ops"];
  basic_users := [{| bu_username := &"ann"; password_hash_file := &"/ann" |}];
  github := None |}.

Definition authenticator : Authenticator := {|
  config := auth_config; discovery := Some (Ok [&"k1"]); basic_credentials := [];
  managed := true |}.

Definition agent_token : bytes := &"av_agent_" ++ repeat "x"%char 43.
Definition agent_tables : Tables :=
  StoreProps.Sample.after (CreateAgent &"bot" (sha256_digest agent_token))
    StoreProps.Sample.started.
Definition cold : JwksState := {| jwks := None; last_attempt := None |}.

Lemma authorize_sound_witness :
  exists text,
    hm_get [(&"authorization", &"Agent " ++ agent_token)] (from_static &"authorization")
      ≫= value_to_str = Some text
    /\ proves authenticator agent_tables cold text &"agent:bot".
Proof.
  apply (authorize_sound (HL := headers) authenticator 0 (Ok ())
    [(&"authorization", &"Agent " ++ agent_token)] cold
    {| tables := agent_tables; clock := None; outcomes := [] |} {| subject := &"agent:bot" |}).
  - done.
  - reflexivity.
Defined.

Lemma jwks_refresh_rate_limited_witness :
  Sorted (fun x y => x + JWKS_REFRESH_COOLDOWN <= y)%Z
    (option_list (last_attempt cold) ++ refresh_times authenticator (from_secs <$> [5; 10; 64; 65; 70]%Z) cold)
  /\ refresh_times authenticator (from_secs <$> [5; 10; 64; 65; 70]%Z) cold = from_secs <$> [5; 65]%Z.
Proof.
  split; [|reflexivity]. by apply (jwks_refresh_rate_limited authenticator (Ok [&"k1"])).
Defined.

Lemma loaded_credentials_bounded_witness :
  Forall2 (fun user credential =>
    bc_username credential = bu_username user
    /\ exists parsed m t p,
      password_hash_new (bc_password_hash credential) = Some parsed
      /\ ph_algorithm parsed = &"argon2id" /\ ph_version parsed = Some 19%Z
      /\ ph_salt parsed <> None /\ ph_hash parsed <> None
      /\ ph_params parsed = Some (m, t, p)
      /\ (19456 <= m <= 65536 /\ 2 <= t <= 6 /\ 1 <= p <= 4)%Z)
    (basic_users auth_config) [{| bc_username := &"ann"; bc_password_hash := &"$argon2id$pw" |}].
Proof.
  apply (loaded_credentials_bounded (fun _ => Some &"$argon2id$pw ")). reflexivity.
Defined.

Example authorize_examples :
  let run h := (((authorize authenticator 0 (Ok ()) [(&"authorization", h)] cold).1)
    {| tables := agent_tables; clock := None; outcomes := [] |}).1 in
  run &"Bearer k1.alice" = Ok {| subject := &"alice" |}
  /\ is_ok (run &"Bearer k2.alice") = false
  /\ is_ok (run &"Basic YW5uOnB3") = false
  /\ is_ok (run &"Digest x") = false.
Proof. vm_compute. done. Qed.
End AuthModels.
