(* ===== verification/Connector.v ===== *)
(** Connector: the secret backends (src/connector.rs, src/openbao.rs,
    src/infisical.rs, src/google_secret_manager.rs).

    Everything outside the process (clocks, files, HTTP servers, the Google
    client, randomness) is the record [Outside]: one function per kind of
    call, indexed by the number of outside calls made so far, so that two calls
    may get different answers.  A computation threads that counter, the log of
    the HTTP exchanges and the token caches. *)

From Stdlib Require Import Ascii String.
From stdpp Require Import base list strings gmap pretty.
From S2P Require Import Prelude Str BTree External.

(** ** The outside world *)

Inductive HttpMethod := GET | POST | DELETE.
Record HttpRequest := {
  rq_method : HttpMethod;
  rq_url : bytes;
  rq_headers : list (bytes * bytes);
  rq_query : list (bytes * bytes);
  rq_body : option Value;
}.
(** [json()] of the body is left to the decoders below. *)
Record HttpResponse := { status : Z; body : bytes }.

Definition is_success (r : HttpResponse) : bool := (200 <=? status r)%Z && (status r <? 300)%Z.
Definition is_not_found (r : HttpResponse) : bool := (status r =? 404)%Z.

(** The observations made of an [AccessSecretVersionResponse]: the payload's
    data and its [data_crc32c]. *)
Record SecretPayload := { data : bytes; data_crc32c : option Z }.

Record Outside := {
  (** [SystemTime::now] and [Instant::now], in nanoseconds *)
  system_time : nat -> Z;
  instant_time : nat -> Z;
  (** [std::fs::read_to_string] *)
  read_to_string : nat -> bytes -> option bytes;
  (** [reqwest] *)
  respond : nat -> HttpRequest -> option HttpResponse;
  (** [SecretManagerService::access_secret_version] *)
  google_access : nat -> bytes -> option (option SecretPayload);
  (** 32 bytes of [OsRng] *)
  random_bytes : nat -> bytes;
  (** waiting for a semaphore permit, with its time-out *)
  wait_permit : nat -> bool;
}.

Record CachedToken := { token_value : bytes; token_expires_at : Z }.

(** [server] is the state of the component that uses the connectors. *)
Record world (X : Type) := {
  calls : nat;
  exchanges : list (HttpRequest * option HttpResponse);
  tokens : gmap bytes CachedToken;
  server : X;
}.
Arguments calls {X} w.
Arguments exchanges {X} w.
Arguments tokens {X} w.
Arguments server {X} w.

Definition io (X A : Type) : Type := world X -> result A * world X.

#[global] Instance io_ret {X} : MRet (io X) := fun A a w => (Ok a, w).
#[global] Instance io_bind {X} : MBind (io X) := fun A B f m w =>
  match m w with
  | (Ok a, w) => f a w
  | (Err e, w) => (Err e, w)
  end.

Section Io.
Context {X : Type} (env : Outside).

Definition ensure {A} (r : result A) : io X A := fun w => (r, w).

(** The result as a value, where the source inspects or logs an error. *)
Definition attempt {A} (m : io X A) : io X (result A) := fun w =>
  let '(r, w) := m w in (Ok r, w).

(** [match m { Ok(a) => a, Err(_) => return e }] *)
Definition or_return {A B} (m : io X A) (e : B) (k : A -> io X B) : io X B :=
  r ← attempt m;
  match r with Ok a => k a | Err _ => mret e end.

(** [m.await.context(msg)?] *)
Definition context_of {A} (m : io X A) (msg : string) : io X A := fun w =>
  let '(r, w) := m w in (with_context r msg, w).

Definition tick (w : world X) : world X :=
  {| calls := S (calls w); exchanges := exchanges w; tokens := tokens w; server := server w |}.
Definition outside {A} (f : nat -> A) : io X A := fun w => (Ok (f (calls w)), tick w).

Definition system_now : io X Z := outside (system_time env).
Definition instant_now : io X Z := outside (instant_time env).

Definition send (rq : HttpRequest) : io X HttpResponse := fun w =>
  let answer := respond env (calls w) rq in
  (ok_or answer "error sending request",
   {| calls := S (calls w); exchanges := exchanges w ++ [(rq, answer)];
      tokens := tokens w; server := server w |}).

Definition cached_token (cell : bytes) : io X (option CachedToken) := fun w =>
  (Ok (tokens w !! cell), w).
Definition cache_token (cell : bytes) (t : CachedToken) : io X unit := fun w =>
  (Ok (), {| calls := calls w; exchanges := exchanges w;
             tokens := <[cell := t]> (tokens w); server := server w |}).

Definition get_server : io X X := fun w => (Ok (server w), w).
Definition set_server (x : X) : io X unit := fun w =>
  (Ok (), {| calls := calls w; exchanges := exchanges w; tokens := tokens w; server := x |}).

Definition read_secret_file (path : bytes) : io X bytes :=
  value ← outside (fun n => read_to_string env n path);
  value ← ensure (ok_or value "read credential file {}");
  let value := trim value in
  _ ← ensure (bail_if (is_empty value) "credential file {} is empty");
  mret value.
End Io.

(** ** Times *)

(** Times are a signed 64-bit number of seconds and a fraction. *)
Definition MAX_TIME : Z := 2 ^ 63 * NANOS.
Definition checked_add (t d : Z) : option Z :=
  if (t + d <? MAX_TIME)%Z then Some (t + d)%Z else None.

(** ** Configuration *)

Record DynamicSecretConfig := { dyn_name : bytes; dyn_project_slug : bytes; ttl_seconds : Z }.
Record ProfileExportConfig := { resource : bytes; field : bytes }.
Record ProfileConfig := {
  profile_connector : bytes;
  project_id : bytes;
  environment : bytes;
  secret_path : bytes;
  allowed_keys : list bytes;
  exports : BTreeMap ProfileExportConfig;
  dynamic_secret : option DynamicSecretConfig;
}.

Inductive OpenBaoAuth :=
| OBAppRole (role_id_file secret_id_file mount_path : bytes)
| OBKubernetes (role token_file mount_path : bytes)
| OBToken (token_file : bytes).
Inductive InfisicalAuth :=
| InfKubernetes (identity_id token_file : bytes)
| InfUniversal (client_id_file client_secret_file : bytes)
| InfToken (token_file : bytes).

(** [cell] identifies the connector's shared token cache. *)
Record OpenBaoConnector := {
  ob_base_url : bytes; ob_namespace : bytes; ob_auth : OpenBaoAuth; ob_cell : bytes }.
Record InfisicalConnector := {
  inf_base_url : bytes; inf_auth : InfisicalAuth; inf_cell : bytes }.

Inductive Connector :=
| ConnInfisical (c : InfisicalConnector)
| ConnOpenBao (c : OpenBaoConnector)
| ConnGoogle.

(** ** Leases and acquisitions *)

Record OpenBaoLease := {
  ob_id : bytes; ob_renewable : bool; ob_expires_at : Z; ob_renew_increment : Z }.
Record InfisicalLease := {
  inf_id : bytes; inf_project_slug : bytes; inf_environment : bytes; inf_path : bytes;
  inf_expires_at : Z; inf_renew_increment : Z }.
Inductive BackendLease := OpenBao (lease : OpenBaoLease) | Infisical (lease : InfisicalLease).

Definition expires_at (l : BackendLease) : Z :=
  match l with OpenBao l => ob_expires_at l | Infisical l => inf_expires_at l end.
Definition lease_renewable (l : BackendLease) : bool :=
  match l with OpenBao l => ob_renewable l | Infisical _ => true end.

Record SecretAcquisition := { values : BTreeMap bytes; lease : option BackendLease }.

(** ** Response bodies: the structs the source derives [Deserialize] for *)

Record OpenBaoAuthResponse := { client_token : bytes; auth_lease_duration : Z }.
Record SecretResponse := {
  response_data : Value; lease_id : bytes; response_renewable : bool; lease_duration : Z }.
Record LeaseResponse := {
  renewed_id : bytes; renewed_renewable : bool; renewed_duration : Z }.
Record InfisicalAuthResponse := { access_token : bytes; expires_in : Z }.
Record DynamicLease := { dl_id : bytes; expire_at : bytes }.

(** [serde_json] decoding, RFC 3339 parsing ([time]) and URL joining ([url]). *)
Class BackendLib := {
  decode_openbao_auth : bytes -> option OpenBaoAuthResponse;
  decode_secret : bytes -> option SecretResponse;
  decode_lease : bytes -> option LeaseResponse;
  decode_infisical_auth : bytes -> option InfisicalAuthResponse;
  decode_secrets : bytes -> option (list (bytes * bytes));
  decode_dynamic_lease : bytes -> option (DynamicLease * Value);
  decode_dynamic_lease_only : bytes -> option DynamicLease;
  (** [OffsetDateTime::parse(.., &Rfc3339)?.unix_timestamp()] *)
  rfc3339_timestamp : bytes -> option Z;
  (** [Url::parse] of the base, then [pop_if_empty] and [push] of segments *)
  url_push : bytes -> list bytes -> option bytes;
}.

Definition ONE_DAY : Z := 24 * 60 * 60.

Definition value_to_text (v : Value) : option (option bytes) :=
  match v with
  | Text s => Some (Some s)
  | Bool b => Some (Some (if b then &"true" else &"false"))
  | Number n => Some (Some n)
  | Null => Some None
  | Array _ | Object _ => None
  end.

Definition as_object (v : Value) : option (list (bytes * Value)) :=
  match v with Object fields => Some fields | _ => None end.

(** The loop both decoders share: [keep] is the key filter of the OpenBao one. *)
Definition collect_scalars (keep : bytes -> bool) (msg : string)
    (fields : list (bytes * Value)) : result (BTreeMap bytes) :=
  try_fold (fun secrets '(key, value) =>
    if negb (keep key) then Ok secrets else
    text ← ok_or (value_to_text value) msg;
    Ok (match text with Some text => bt_insert secrets key text | None => secrets end)) [] fields.

Definition key_allowed (allowed : list bytes) (key : bytes) : bool :=
  is_empty allowed || bool_decide (key ∈ allowed).

Definition json_str (fields : list (bytes * bytes)) : option Value :=
  Some (Object (prod_map id Text <$> fields)).

(** ** OpenBao (src/openbao.rs) *)

Section Operations.
Context {X : Type} {BL : BackendLib} (env : Outside).
#[local] Abbreviation IO := (io X).

Definition base_of (url : bytes) : bytes := trim_end_matches "/" url.

Definition with_namespace (c : OpenBaoConnector) (headers : list (bytes * bytes))
    : list (bytes * bytes) :=
  if is_empty (ob_namespace c) then headers
  else headers ++ [(&"X-Vault-Namespace", ob_namespace c)].

(** A cached token that is still fresh. *)
Definition fresh_token (cell : bytes) : IO (option bytes) :=
  cached ← cached_token cell;
  match cached with
  | None => mret None
  | Some t =>
      now ← instant_now env;
      mret (if (now <? token_expires_at t)%Z then Some (token_value t) else None)
  end.

(** [Some(CachedToken { value, expires_at: Instant::now() + lifetime })]; the
    addition panics when the instant is not representable. *)
Definition remember_token (cell value : bytes) (lifetime : Z) : IO unit :=
  now ← instant_now env;
  expires ← ensure (ok_or (checked_add now (from_secs lifetime))
                      "panic: overflow when adding duration to instant");
  cache_token cell {| token_value := value; token_expires_at := expires |}.

Definition openbao_login (c : OpenBaoConnector) : IO (bytes * list (bytes * bytes)) :=
  match ob_auth c with
  | OBAppRole role_id_file secret_id_file mount_path =>
      role_id ← read_secret_file env role_id_file;
      secret_id ← read_secret_file env secret_id_file;
      mret (mount_path, [(&"role_id", role_id); (&"secret_id", secret_id)])
  | OBKubernetes role token_file mount_path =>
      jwt ← read_secret_file env token_file;
      mret (mount_path, [(&"role", role); (&"jwt", jwt)])
  | OBToken _ => ensure (Err "panic: token auth returned above")
  end.

Definition openbao_authenticate (c : OpenBaoConnector) : IO bytes :=
  match ob_auth c with
  | OBToken token_file => read_secret_file env token_file
  | _ =>
      fresh ← fresh_token (ob_cell c);
      match fresh with
      | Some token => mret token
      | None =>
          '(mount_path, fields) ← openbao_login c;
          response ← send env {|
            rq_method := POST;
            rq_url := base_of (ob_base_url c) ++ &"/v1/auth/" ++ trim_matches "/" mount_path
                      ++ &"/login";
            rq_headers := with_namespace c []; rq_query := []; rq_body := json_str fields |};
          _ ← ensure (bail_if (negb (is_success response))
                        "OpenBao authentication failed with status {}");
          auth ← ensure (ok_or (decode_openbao_auth (body response))
                           "decode OpenBao auth response");
          _ ← ensure (bail_if (is_empty (client_token auth))
                        "OpenBao authentication returned an empty token");
          _ ← remember_token (ob_cell c) (client_token auth)
                (Z.max (Z.max 0 (auth_lease_duration auth - 30)) 1);
          mret (client_token auth)
      end
  end.

Definition openbao_request (c : OpenBaoConnector) (token : bytes) (method : HttpMethod)
    (path : bytes) (payload : option Value) : HttpRequest := {|
  rq_method := method; rq_url := base_of (ob_base_url c) ++ &"/v1/" ++ path;
  rq_headers := with_namespace c [(&"X-Vault-Token", token)];
  rq_query := []; rq_body := payload |}.

Definition validate_lease_id (id : bytes) : result unit :=
  bail_if (is_empty id || (4096 <? len id)%Z || any_control id)
    "OpenBao returned an invalid lease ID".

Definition lease_expiry (duration : Z) : IO Z :=
  _ ← ensure (bail_if (negb ((1 <=? duration)%Z && (duration <=? ONE_DAY)%Z))
                "OpenBao returned a lease duration outside AV's safe bounds");
  now ← system_now env;
  ensure (ok_or (checked_add now (from_secs duration))
            "OpenBao lease expiry is outside the system clock range").

Definition decode_secret_data (v : Value) (allowed : list bytes) : result (BTreeMap bytes) :=
  root ← ok_or (as_object v) "OpenBao secret data is not an object";
  let fields := default root (bt_get root &"data" ≫= as_object) in
  collect_scalars (key_allowed allowed) "OpenBao secret {key} is not a scalar value" fields.

Definition decode_secret_response (response : SecretResponse) (profile : ProfileConfig)
    : IO SecretAcquisition :=
  decoded ← ensure (decode_secret_data (response_data response) (allowed_keys profile));
  match dynamic_secret profile with
  | None =>
      _ ← ensure (bail_if (negb (is_empty (lease_id response)) || response_renewable response
                           || (0 <? lease_duration response)%Z)
                    "OpenBao returned a lease for a profile not configured as dynamic");
      mret {| values := decoded; lease := None |}
  | Some dynamic =>
      _ ← ensure (validate_lease_id (lease_id response));
      expiry ← lease_expiry (lease_duration response);
      mret {| values := decoded;
              lease := Some (OpenBao {|
                ob_id := lease_id response; ob_renewable := response_renewable response;
                ob_expires_at := expiry;
                ob_renew_increment := from_secs (ttl_seconds dynamic) |}) |}
  end.

Definition openbao_acquire (c : OpenBaoConnector) (profile : ProfileConfig)
    : IO SecretAcquisition :=
  token ← openbao_authenticate c;
  response ← send env (openbao_request c token GET (trim_matches "/" (secret_path profile)) None);
  if is_not_found response then mret {| values := []; lease := None |} else
  _ ← ensure (bail_if (negb (is_success response)) "OpenBao secret read failed with status {}");
  response ← ensure (ok_or (decode_secret (body response)) "decode OpenBao response");
  decode_secret_response response profile.

(** [renew] takes [&mut lease]: the second component is the lease afterwards,
    also when the call fails. *)
Definition openbao_renew (c : OpenBaoConnector) (l : OpenBaoLease)
    : IO (result unit * OpenBaoLease) :=
  answer ← attempt (
    _ ← ensure (bail_if (negb (ob_renewable l)) "OpenBao lease is not renewable");
    token ← openbao_authenticate c;
    response ← send env (openbao_request c token POST &"sys/leases/renew"
      (Some (Object [(&"lease_id", Text (ob_id l));
        (&"increment", Number (list_ascii_of_string
                                 (pretty (ob_renew_increment l / NANOS)%Z)))])));
    _ ← ensure (bail_if (negb (is_success response))
                  "OpenBao lease renewal failed with status {}");
    renewed ← ensure (ok_or (decode_lease (body response)) "decode OpenBao lease renewal");
    _ ← ensure (validate_lease_id (renewed_id renewed));
    _ ← ensure (bail_if (negb (bool_decide (renewed_id renewed = ob_id l)))
                  "OpenBao lease renewal returned a different lease ID");
    mret renewed);
  match answer with
  | Err e => mret (Err e, l)
  | Ok renewed =>
      let l := {| ob_id := ob_id l; ob_renewable := renewed_renewable renewed;
                  ob_expires_at := ob_expires_at l;
                  ob_renew_increment := ob_renew_increment l |} in
      expiry ← attempt (lease_expiry (renewed_duration renewed));
      mret match expiry with
           | Err e => (Err e, l)
           | Ok expiry =>
               (Ok (), {| ob_id := ob_id l; ob_renewable := ob_renewable l;
                          ob_expires_at := expiry;
                          ob_renew_increment := ob_renew_increment l |})
           end
  end.

Definition openbao_revoke (c : OpenBaoConnector) (l : OpenBaoLease) : IO unit :=
  token ← openbao_authenticate c;
  response ← send env (openbao_request c token POST &"sys/leases/revoke"
    (Some (Object [(&"lease_id", Text (ob_id l)); (&"sync", Bool true)])));
  ensure (bail_if (negb (is_success response) && negb (is_not_found response))
            "OpenBao lease revocation failed with status {}").

(** ** Infisical (src/infisical.rs) *)

Definition bearer (token : bytes) : list (bytes * bytes) :=
  [(&"authorization", &"Bearer " ++ token)].

Definition infisical_authenticate (c : InfisicalConnector) : IO bytes :=
  fresh ← fresh_token (inf_cell c);
  let login path fields : IO bytes :=
    response ← context_of (send env {|
        rq_method := POST; rq_url := base_of (inf_base_url c) ++ path;
        rq_headers := []; rq_query := []; rq_body := json_str fields |})
      "authenticate to Infisical";
    _ ← ensure (bail_if (negb (is_success response))
                  "Infisical authentication failed with status {}");
    auth ← ensure (ok_or (decode_infisical_auth (body response))
                     "decode Infisical auth response");
    _ ← remember_token (inf_cell c) (access_token auth)
          (Z.max (Z.max 0 (expires_in auth - 60)) 1);
    mret (access_token auth) in
  match fresh with
  | Some token => mret token
  | None =>
      match inf_auth c with
      | InfKubernetes identity_id token_file =>
          jwt ← read_secret_file env token_file;
          login &"/api/v1/auth/kubernetes-auth/login"
            [(&"identityId", identity_id); (&"jwt", jwt)]
      | InfUniversal client_id_file client_secret_file =>
          client_id ← read_secret_file env client_id_file;
          client_secret ← read_secret_file env client_secret_file;
          login &"/api/v1/auth/universal-auth/login"
            [(&"clientId", client_id); (&"clientSecret", client_secret)]
      | InfToken token_file => read_secret_file env token_file
      end
  end.

Definition validate_dynamic_lease_id (id : bytes) : result unit :=
  bail_if (is_empty id || (128 <? len id)%Z
           || negb (forallb (fun byte => is_ascii_alphanumeric byte
                                         || bool_decide (byte = "-"%char)) id))
    "Infisical returned an invalid dynamic lease ID".

Definition parse_dynamic_expiry (text : bytes) : IO Z :=
  seconds ← ensure (ok_or (rfc3339_timestamp text)
                      "Infisical returned an invalid dynamic lease expiry");
  _ ← ensure (bail_if (seconds <? 0)%Z "Infisical dynamic lease expiry predates the Unix epoch");
  expiry ← ensure (ok_or (checked_add 0 (from_secs seconds))
                     "Infisical dynamic lease expiry is outside the system clock range");
  now ← system_now env;
  _ ← ensure (bail_if (expiry <? now)%Z "Infisical returned an already expired dynamic lease");
  _ ← ensure (bail_if (from_secs (ONE_DAY + 60) <? expiry - now)%Z
                "Infisical returned a dynamic lease expiry outside AV's safe bounds");
  mret expiry.

Definition decode_dynamic_data (v : Value) : result (BTreeMap bytes) :=
  fields ← ok_or (as_object v) "Infisical dynamic lease data is not an object";
  collect_scalars (fun _ => true) "Infisical dynamic lease field {key} is not scalar" fields.

(** [format!("{}s", seconds)] *)
Definition ttl_text (seconds : Z) : bytes := list_ascii_of_string (pretty seconds) ++ &"s".

Definition acquire_dynamic (c : InfisicalConnector) (profile : ProfileConfig)
    : IO SecretAcquisition :=
  dynamic ← ensure (ok_or (dynamic_secret profile)
                      "dynamic Infisical profile lost its configuration");
  token ← infisical_authenticate c;
  response ← send env {|
    rq_method := POST; rq_url := base_of (inf_base_url c) ++ &"/api/v1/dynamic-secrets/leases";
    rq_headers := bearer token; rq_query := [];
    rq_body := json_str [(&"dynamicSecretName", dyn_name dynamic);
      (&"projectSlug", dyn_project_slug dynamic); (&"environmentSlug", environment profile);
      (&"ttl", ttl_text (ttl_seconds dynamic)); (&"path", secret_path profile)] |};
  _ ← ensure (bail_if (negb (is_success response))
                "Infisical dynamic lease creation failed with status {}");
  '(dl, fields) ← ensure (ok_or (decode_dynamic_lease (body response))
                            "decode Infisical dynamic lease");
  _ ← ensure (validate_dynamic_lease_id (dl_id dl));
  expiry ← parse_dynamic_expiry (expire_at dl);
  decoded ← ensure (decode_dynamic_data fields);
  mret {| values := decoded;
          lease := Some (Infisical {|
            inf_id := dl_id dl; inf_project_slug := dyn_project_slug dynamic;
            inf_environment := environment profile; inf_path := secret_path profile;
            inf_expires_at := expiry;
            inf_renew_increment := from_secs (ttl_seconds dynamic) |}) |}.

Definition infisical_acquire (c : InfisicalConnector) (profile : ProfileConfig)
    : IO SecretAcquisition :=
  if bool_decide (is_Some (dynamic_secret profile)) then acquire_dynamic c profile else
  token ← infisical_authenticate c;
  url ← ensure (ok_or (url_push (base_of (inf_base_url c) ++ &"/api/v3/secrets/raw") [])
                  "invalid URL");
  response ← send env {|
    rq_method := GET; rq_url := url;
    rq_headers := bearer token;
    rq_query := [(&"workspaceId", project_id profile); (&"environment", environment profile);
                 (&"secretPath", secret_path profile); (&"include_imports", &"true")];
    rq_body := None |};
  if is_not_found response then mret {| values := []; lease := None |} else
  _ ← ensure (bail_if (negb (is_success response)) "Infisical secret read failed with status {}");
  secrets ← ensure (ok_or (decode_secrets (body response)) "decode Infisical response");
  mret {| values := foldl (fun acc '(key, value) =>
                     if key_allowed (allowed_keys profile) key then bt_insert acc key value
                     else acc) [] secrets;
          lease := None |}.

Definition dynamic_lease_url (c : InfisicalConnector) (id : bytes) (suffix : option bytes)
    : result bytes :=
  _ ← validate_dynamic_lease_id id;
  ok_or (url_push (base_of (inf_base_url c) ++ &"/api/v1/dynamic-secrets/leases/")
           (id :: match suffix with Some s => [s] | None => [] end))
    "Infisical base URL cannot contain lease paths".

Definition infisical_renew (c : InfisicalConnector) (l : InfisicalLease)
    : IO (result unit * InfisicalLease) :=
  expiry ← attempt (
    token ← infisical_authenticate c;
    url ← ensure (dynamic_lease_url c (inf_id l) (Some &"renew"));
    response ← send env {|
      rq_method := POST; rq_url := url; rq_headers := bearer token; rq_query := [];
      rq_body := json_str [(&"projectSlug", inf_project_slug l);
        (&"environmentSlug", inf_environment l);
        (&"ttl", ttl_text (inf_renew_increment l / NANOS)); (&"path", inf_path l)] |};
    _ ← ensure (bail_if (negb (is_success response))
                  "Infisical dynamic lease renewal failed with status {}");
    dl ← ensure (ok_or (decode_dynamic_lease_only (body response))
                   "decode Infisical dynamic lease renewal");
    _ ← ensure (validate_dynamic_lease_id (dl_id dl));
    _ ← ensure (bail_if (negb (bool_decide (dl_id dl = inf_id l)))
                  "Infisical lease renewal returned a different lease ID");
    parse_dynamic_expiry (expire_at dl));
  mret match expiry with
       | Err e => (Err e, l)
       | Ok expiry =>
           (Ok (), {| inf_id := inf_id l; inf_project_slug := inf_project_slug l;
                      inf_environment := inf_environment l; inf_path := inf_path l;
                      inf_expires_at := expiry; inf_renew_increment := inf_renew_increment l |})
       end.

Definition infisical_revoke (c : InfisicalConnector) (l : InfisicalLease) : IO unit :=
  token ← infisical_authenticate c;
  url ← ensure (dynamic_lease_url c (inf_id l) None);
  response ← send env {|
    rq_method := DELETE; rq_url := url; rq_headers := bearer token; rq_query := [];
    rq_body := Some (Object [(&"projectSlug", Text (inf_project_slug l));
      (&"environmentSlug", Text (inf_environment l)); (&"path", Text (inf_path l));
      (&"isForced", Bool false)]) |};
  ensure (bail_if (negb (is_success response) && negb (is_not_found response))
            "Infisical dynamic lease revocation failed with status {}").

(** ** Google Secret Manager (src/google_secret_manager.rs) *)

Definition MAX_SECRET_BYTES : Z := 64 * 1024.

(** One iteration of the inner loop of [crc32c], on [u32] values. *)
Definition crc_bit (crc : Z) : Z :=
  Z.lxor (Z.shiftr crc 1) (Z.land 0x82f63b78 ((0 - Z.land crc 1) mod 2 ^ 32)).
Definition crc_byte (crc : Z) (b : byte) : Z :=
  Nat.iter 8 crc_bit (Z.lxor crc (Z.of_N (code b))).
Definition crc32c (data : bytes) : Z :=
  Z.lxor (foldl crc_byte 0xffffffff%Z data) 0xffffffff.

(** The checks of [access] on the response's payload. *)
Definition check_payload (payload : option SecretPayload) : result bytes :=
  payload ← ok_or payload "Google Secret Manager response has no payload";
  _ ← bail_if (is_empty (data payload)) "Google Secret Manager payload is empty";
  _ ← bail_if (MAX_SECRET_BYTES <? len (data payload))%Z
        "Google Secret Manager payload exceeds 64 KiB";
  expected ← ok_or (data_crc32c payload) "Google Secret Manager payload has no CRC32C checksum";
  _ ← bail_if (negb ((0 <=? expected)%Z && (expected <? 2 ^ 32)%Z))
        "Google Secret Manager payload has an invalid CRC32C checksum";
  _ ← bail_if (negb (crc32c (data payload) =? expected)%Z)
        "Google Secret Manager payload failed CRC32C verification";
  _ ← bail_if (negb (utf8_valid (data payload)))
        "Google Secret Manager payload is not UTF-8 text";
  Ok (data payload).

Definition google_access_secret (name : bytes) : IO bytes :=
  response ← outside (fun n => google_access env n name);
  payload ← ensure (ok_or response "access Google Secret Manager resource {resource}");
  ensure (check_payload payload).

Fixpoint google_values (exports : BTreeMap ProfileExportConfig) (acc : BTreeMap bytes)
    : IO (BTreeMap bytes) :=
  match exports with
  | [] => mret acc
  | (local_name, export) :: exports =>
      value ← google_access_secret (resource export);
      google_values exports (bt_insert acc local_name value)
  end.

Definition google_acquire (profile : ProfileConfig) : IO SecretAcquisition :=
  acquired ← google_values (exports profile) [];
  mret {| values := acquired; lease := None |}.

(** ** Dispatch (src/connector.rs) *)

(** The backend field an export selects. *)
Definition export_field (e : bytes * ProfileExportConfig) : bytes :=
  if is_empty (field e.2) then e.1 else field e.2.

(** One export: the value moves from the remaining ones to the exported ones. *)
Definition export_one (s : BTreeMap bytes * BTreeMap bytes) (e : bytes * ProfileExportConfig)
    : result (BTreeMap bytes * BTreeMap bytes) :=
  value ← ok_or (bt_get s.1 (export_field e))
            "configured profile export field {field} was not returned by the backend";
  Ok (bt_remove s.1 (export_field e), bt_insert s.2 e.1 value).

Definition apply_exports (backend : BTreeMap bytes) (profile : ProfileConfig)
    : result (BTreeMap bytes) :=
  if is_empty (exports profile) then Ok backend else
  snd <$> try_fold export_one (backend, []) (exports profile).

Definition backend_acquire (c : Connector) (profile : ProfileConfig) : IO SecretAcquisition :=
  match c with
  | ConnInfisical c => infisical_acquire c profile
  | ConnOpenBao c => openbao_acquire c profile
  | ConnGoogle => google_acquire profile
  end.

Definition connector_acquire (c : Connector) (profile : ProfileConfig) : IO SecretAcquisition :=
  acquisition ← backend_acquire c profile;
  exported ← ensure (apply_exports (values acquisition) profile);
  mret {| values := exported; lease := lease acquisition |}.

(** The lease afterwards is returned also when the renewal fails. *)
Definition connector_renew (c : Connector) (l : BackendLease) : IO (result unit * BackendLease) :=
  match c, l with
  | ConnOpenBao c, OpenBao l => '(r, l) ← openbao_renew c l; mret (r, OpenBao l)
  | ConnInfisical c, Infisical l => '(r, l) ← infisical_renew c l; mret (r, Infisical l)
  | _, _ => mret (Err "lease backend does not match its connector", l)
  end.

Definition connector_revoke (c : Connector) (l : BackendLease) : IO unit :=
  match c, l with
  | ConnOpenBao c, OpenBao l => openbao_revoke c l
  | ConnInfisical c, Infisical l => infisical_revoke c l
  | _, _ => ensure (Err "lease backend does not match its connector")
  end.
End Operations.
