(* ===== verification/ConnectorFacts.v ===== *)
(** ConnectorFacts: what the backends guarantee to the lease registry, and the
    checksum of Google Secret Manager payloads. *)

From Stdlib Require Import Ascii String.
From stdpp Require Import base list strings gmap.
From S2P Require Import Prelude Str BTree External Connector.

(** ** Computations that only talk to the outside *)

Section Quiet.
Context {X : Type} (env : Outside).

(** One world comes after another: the outside has been asked no fewer times, and the
    log of exchanges has only grown. *)
Definition later (w w' : world X) : Prop :=
  calls w <= calls w' /\ exists log, exchanges w' = exchanges w ++ log.

#[global] Instance later_preorder : PreOrder later.
Proof.
  split.
  - intros w. split; [done|]. exists []. by rewrite app_nil_r.
  - intros u v w [Hc [l Hl]] [Hc' [l' Hl']]. split; [lia|].
    exists (l ++ l'). by rewrite Hl', Hl, app_assoc.
Qed.
Lemma later_same w w' : calls w <= calls w' -> exchanges w' = exchanges w -> later w w'.
Proof. intros Hc He. split; [done|]. exists []. by rewrite app_nil_r. Qed.

#[local] Ltac solve_later := apply later_same; simpl; [lia|done].

(** The server state is left alone and time goes on. *)
Definition quiet {A} (m : io X A) : Prop := forall w,
  server (m w).2 = server w /\ later w (m w).2.

(** The computation does not stop its caller with an error. *)
Definition total {A} (m : io X A) : Prop := forall w, exists a, (m w).1 = Ok a.

Lemma quiet_ret {A} (a : A) : quiet (mret a).
Proof. intros w. split; [done|]. solve_later. Qed.
Lemma quiet_ensure {A} (r : result A) : quiet (ensure r).
Proof. intros w. split; [done|]. solve_later. Qed.
Lemma quiet_outside {A} (f : nat -> A) : quiet (outside f).
Proof. intros w. split; [done|]. solve_later. Qed.
Lemma quiet_cached_token cell : quiet (cached_token cell).
Proof. intros w. split; [done|]. solve_later. Qed.
Lemma quiet_cache_token cell t : quiet (cache_token cell t).
Proof. intros w. split; [done|]. solve_later. Qed.
Lemma quiet_send rq : quiet (send env rq).
Proof. intros w. split; [done|]. split; [simpl; lia|by eexists]. Qed.
Lemma quiet_system_now : quiet (system_now env).
Proof. apply quiet_outside. Qed.
Lemma quiet_instant_now : quiet (instant_now env).
Proof. apply quiet_outside. Qed.
Lemma quiet_attempt {A} (m : io X A) : quiet m -> quiet (attempt m).
Proof. intros Hm w. specialize (Hm w). unfold attempt. by destruct (m w). Qed.
Lemma quiet_context {A} (m : io X A) msg : quiet m -> quiet (context_of m msg).
Proof. intros Hm w. specialize (Hm w). unfold context_of. by destruct (m w). Qed.
Lemma quiet_bind {A B} (m : io X A) (f : A -> io X B) :
  quiet m -> (forall a, quiet (f a)) -> quiet (m ≫= f).
Proof.
  intros Hm Hf w. specialize (Hm w). unfold mbind, io_bind.
  destruct (m w) as [[a|e] w1]; simpl in *; [|done].
  destruct Hm as [Hs Hl]. destruct (Hf a w1) as [Hs2 Hl2].
  split; [congruence|]. by transitivity w1.
Qed.

Lemma total_attempt {A} (m : io X A) : total (attempt m).
Proof. intros w. unfold attempt. destruct (m w). by eexists. Qed.
Lemma total_ret {A} (a : A) : total (mret a).
Proof. intros w. by exists a. Qed.
Lemma total_bind {A B} (m : io X A) (f : A -> io X B) :
  total m -> (forall a, total (f a)) -> total (m ≫= f).
Proof.
  intros Hm Hf w. destruct (Hm w) as [a Ha]. unfold mbind, io_bind.
  destruct (m w) as [r w1]. simpl in Ha. subst. apply Hf.
Qed.

Lemma io_bind_ok {A B} (m : io X A) (f : A -> io X B) w b w' :
  (m ≫= f) w = (Ok b, w') <-> exists a w1, m w = (Ok a, w1) /\ f a w1 = (Ok b, w').
Proof.
  unfold mbind, io_bind. destruct (m w) as [[a|e] w1]; split.
  - intros H. by exists a, w1.
  - by intros (a' & w1' & [= <- <-] & H).
  - done.
  - by intros (? & ? & [=] & _).
Qed.
Lemma io_bind_run {A B} (m : io X A) (f : A -> io X B) w a w1 :
  m w = (Ok a, w1) -> (m ≫= f) w = f a w1.
Proof. unfold mbind, io_bind. by intros ->. Qed.
Lemma io_bind_err {A B} (m : io X A) (f : A -> io X B) w e w1 :
  m w = (Err e, w1) -> (m ≫= f) w = (Err e, w1).
Proof. unfold mbind, io_bind. by intros ->. Qed.
Lemma io_ensure_ok {A} (r : result A) (w : world X) a w' :
  ensure r w = (Ok a, w') <-> r = Ok a /\ w' = w.
Proof. unfold ensure. naive_solver. Qed.
Lemma attempt_ok {A} (m : io X A) (w : world X) r w1 : attempt m w = (Ok r, w1) -> m w = (r, w1).
Proof. unfold attempt. destruct (m w) as [r' w2]. intros H. by injection H as -> ->. Qed.
Lemma or_return_ok {A B} (m : io X A) (e : B) k (w : world X) b w' :
  or_return m e k w = (Ok b, w') ->
  (exists a w1, m w = (Ok a, w1) /\ k a w1 = (Ok b, w'))
  \/ (b = e /\ exists err, m w = (Err err, w')).
Proof.
  unfold or_return, mbind, io_bind, attempt. destruct (m w) as [[a|err] w1]; [naive_solver|].
  intros H. unfold mret, io_ret in H. right. apply pair_equal_spec in H as [[= ->] ->]. eauto.
Qed.
End Quiet.

#[export] Hint Resolve quiet_ret quiet_ensure quiet_outside quiet_cached_token
  quiet_cache_token quiet_send quiet_system_now quiet_instant_now total_attempt total_ret : av.

Ltac solve_later := apply later_same; simpl; [lia|done].

Ltac solve_quiet :=
  repeat first
    [ solve [auto with av] | apply quiet_bind; [|intros ?] | apply quiet_attempt
    | apply quiet_context | case_match ].

(** Peel a successful computation into its steps. *)
Ltac inv_io :=
  repeat match goal with
  | H : mbind _ _ _ = (Ok _, _) |- _ => apply io_bind_ok in H as (? & ? & ? & H)
  | H : ensure _ _ = (Ok _, _) |- _ => apply io_ensure_ok in H as [H ->]
  | H : mret _ _ = (Ok _, _) |- _ => unfold mret, io_ret in H; simplify_eq
  | H : (let '(_, _) := ?x in _) _ = (Ok _, _) |- _ =>
      is_var x; destruct x as [? ?]; cbv beta iota in H
  end.

(** ** Renewal and revocation *)

(** The same lease at the backend: everything but validity and renewability. *)
Definition same_lease (l l' : BackendLease) : Prop :=
  match l, l' with
  | OpenBao a, OpenBao b =>
      ob_id a = ob_id b /\ ob_renew_increment a = ob_renew_increment b
  | Infisical a, Infisical b =>
      inf_id a = inf_id b /\ inf_project_slug a = inf_project_slug b
      /\ inf_environment a = inf_environment b /\ inf_path a = inf_path b
      /\ inf_renew_increment a = inf_renew_increment b
  | _, _ => False
  end.

#[global] Instance same_lease_equiv : Equivalence same_lease.
Proof.
  split.
  - intros []; simpl; auto.
  - intros [] []; simpl; intuition.
  - intros [] [] []; simpl; intuition congruence.
Qed.

Section Facts.
Context {X : Type} {BL : BackendLib} (env : Outside).

(** The request that asks the backend to revoke a lease. *)
Definition revocation_request (c : Connector) (l : BackendLease) (rq : HttpRequest) : Prop :=
  match c, l with
  | ConnOpenBao c, OpenBao l => exists token,
      rq = openbao_request c token POST &"sys/leases/revoke"
             (Some (Object [(&"lease_id", Text (ob_id l)); (&"sync", Bool true)]))
  | ConnInfisical c, Infisical l =>
      rq_method rq = DELETE /\ dynamic_lease_url c (inf_id l) None = Ok (rq_url rq)
  | _, _ => False
  end.

(** The backend has confirmed that the lease is gone. *)
Definition revocation_confirmed (c : Connector) (l : BackendLease)
    (log : list (HttpRequest * option HttpResponse)) : Prop :=
  exists rq r, (rq, Some r) ∈ log /\ revocation_request c l rq
               /\ is_success r || is_not_found r = true.

Lemma revocation_confirmed_app c l log log' :
  revocation_confirmed c l log -> revocation_confirmed c l (log ++ log').
Proof. intros (rq & r & Hin & ?). exists rq, r. split; [set_solver|done]. Qed.

Lemma revocation_confirmed_same c l l' log :
  same_lease l l' -> revocation_confirmed c l' log -> revocation_confirmed c l log.
Proof.
  intros Hl (rq & r & Hin & Hrq & Hr). exists rq, r. split_and!; [done| |done].
  destruct c, l, l'; simpl in *; try done; destruct Hl as [-> _]; done.
Qed.

Lemma quiet_fresh_token cell : quiet (fresh_token (X := X) env cell).
Proof. unfold fresh_token. solve_quiet. Qed.
Lemma quiet_read_secret_file path : quiet (read_secret_file (X := X) env path).
Proof. unfold read_secret_file. solve_quiet. Qed.
Lemma quiet_remember_token cell v n : quiet (remember_token (X := X) env cell v n).
Proof. unfold remember_token. solve_quiet. Qed.
#[local] Hint Resolve quiet_fresh_token quiet_read_secret_file quiet_remember_token : av.

Lemma quiet_openbao_authenticate c : quiet (openbao_authenticate (X := X) env c).
Proof. unfold openbao_authenticate, openbao_login. solve_quiet. Qed.
Lemma quiet_infisical_authenticate c : quiet (infisical_authenticate (X := X) env c).
Proof. unfold infisical_authenticate. solve_quiet. Qed.
Lemma quiet_lease_expiry n : quiet (lease_expiry (X := X) env n).
Proof. unfold lease_expiry. solve_quiet. Qed.
Lemma quiet_parse_dynamic_expiry t : quiet (parse_dynamic_expiry (X := X) env t).
Proof. unfold parse_dynamic_expiry. solve_quiet. Qed.
#[local] Hint Resolve quiet_openbao_authenticate quiet_infisical_authenticate
  quiet_lease_expiry quiet_parse_dynamic_expiry : av.

Lemma quiet_google_values es acc : quiet (google_values (X := X) env es acc).
Proof.
  revert acc. induction es as [|[name e] es IH]; intros acc; simpl; [apply quiet_ret|].
  apply quiet_bind; [unfold google_access_secret; solve_quiet|done].
Qed.

Lemma quiet_connector_acquire c p : quiet (connector_acquire (X := X) env c p).
Proof.
  unfold connector_acquire. apply quiet_bind; [|intros; solve_quiet].
  destruct c; simpl.
  - unfold infisical_acquire, acquire_dynamic. solve_quiet.
  - unfold openbao_acquire, decode_secret_response. solve_quiet.
  - unfold google_acquire. apply quiet_bind; [apply quiet_google_values|solve_quiet].
Qed.

Lemma quiet_connector_renew c l : quiet (connector_renew (X := X) env c l).
Proof. destruct c, l; simpl; unfold openbao_renew, infisical_renew; solve_quiet. Qed.

Lemma quiet_connector_revoke c l : quiet (connector_revoke (X := X) env c l).
Proof. destruct c, l; simpl; unfold openbao_revoke, infisical_revoke; solve_quiet. Qed.

Lemma total_connector_renew c l : total (connector_renew (X := X) env c l).
Proof.
  destruct c, l; simpl; unfold openbao_renew, infisical_renew;
    repeat (apply total_bind; [auto with av|intros ?]);
    repeat (case_match || (apply total_bind; [auto with av|intros ?]) || auto with av).
Qed.

Lemma connector_renew_same c l w r l' w' :
  connector_renew (X := X) env c l w = (Ok (r, l'), w') -> same_lease l l'.
Proof.
  destruct c, l; simpl; unfold openbao_renew, infisical_renew; intros H;
    repeat (inv_io; repeat case_match; simplify_eq/=); simpl; intuition.
Qed.

Lemma send_ok rq (w : world X) r w' :
  send env rq w = (Ok r, w') -> exchanges w' = exchanges w ++ [(rq, Some r)].
Proof.
  unfold send. destruct (respond env (calls w) rq); [|done]. intros H.
  by apply pair_equal_spec in H as [[= ->] <-].
Qed.

Lemma quiet_ok {A} (m : io X A) w a w' : quiet m -> m w = (Ok a, w') -> later w w'.
Proof. intros Hm Hr. destruct (Hm w) as [_ Hl]. by rewrite Hr in Hl. Qed.

(** A lease only changes when its backend has been asked. *)
Lemma connector_renew_asks c l w r l' w' :
  connector_renew (X := X) env c l w = (Ok (r, l'), w') ->
  l' = l \/ length (exchanges w) < length (exchanges w').
Proof.
  assert (forall A (m : io X A) v a v', quiet m -> m v = (Ok a, v') ->
            length (exchanges v) <= length (exchanges v')) as Hq.
  { intros A m v a v' Hm [_ [log ->]]%quiet_ok; [rewrite length_app; lia|done]. }
  destruct c, l; simpl; unfold openbao_renew, infisical_renew; intros H;
    repeat (inv_io; repeat case_match; simplify_eq/=); try (by left); right;
    match goal with Ha : attempt (mbind _ _) _ = _ |- _ => apply attempt_ok in Ha; inv_io end;
    repeat match goal with
    | Hs : send _ _ _ = _ |- _ => apply send_ok in Hs; apply (f_equal length) in Hs;
        rewrite length_app in Hs; simpl in Hs
    | Ha : _ ?v = (Ok _, ?v') |- _ => apply Hq in Ha; [|solve_quiet]
    end; lia.
Qed.

(** A revocation that reports success has sent the request and had it confirmed. *)
Lemma connector_revoke_ok c l w w' :
  connector_revoke (X := X) env c l w = (Ok (), w') ->
  exists log, exchanges w' = exchanges w ++ log /\ revocation_confirmed c l log.
Proof.
  destruct c, l; simpl; unfold openbao_revoke, infisical_revoke; intros H; inv_io; try done;
    match goal with Ha : _ w = (Ok _, ?w1), Hs : send _ ?rq ?w1 = _ |- _ =>
      apply quiet_ok in Ha as [_ [log Hlog]]; [|auto with av];
      apply send_ok in Hs as ->; rewrite Hlog, <- app_assoc; eexists; split; [done|];
      exists rq; eexists; split; [apply elem_of_app; right; left|] end;
    (split; [simpl; by eauto|]); apply bail_if_ok in H; apply andb_false_iff in H;
    rewrite !negb_false_iff in H; by apply orb_true_iff.
Qed.
End Facts.

(** ** CRC32C *)

Section Crc.
Local Open Scope Z_scope.

Definition CASTAGNOLI : Z := 0x82f63b78.

Lemma crc_bit_alt crc :
  crc_bit crc = Z.lxor (Z.shiftr crc 1) (if Z.odd crc then CASTAGNOLI else 0).
Proof.
  unfold crc_bit. f_equal. change 1 with (Z.ones 1) at 1. rewrite Z.land_ones by done.
  change (2 ^ 1) with 2. rewrite Zmod_odd. by destruct (Z.odd crc).
Qed.

Lemma crc_bit_lxor a b : crc_bit (Z.lxor a b) = Z.lxor (crc_bit a) (crc_bit b).
Proof.
  rewrite !crc_bit_alt, Z.shiftr_lxor.
  rewrite <- !Z.bit0_odd, Z.lxor_spec.
  set (x := Z.shiftr a 1). set (y := Z.shiftr b 1).
  destruct (Z.testbit a 0), (Z.testbit b 0); cbn [xorb];
    apply Z.bits_inj'; intros n Hn; rewrite ?Z.lxor_spec, ?Z.bits_0;
    by destruct (Z.testbit x n), (Z.testbit y n), (Z.testbit CASTAGNOLI n).
Qed.

Lemma crc_bit_double x : crc_bit (Z.shiftl x 1) = x.
Proof.
  rewrite crc_bit_alt, Z.shiftr_shiftl_l, Z.sub_diag, Z.shiftl_0_r by done.
  rewrite <- Z.bit0_odd, Z.shiftl_spec_low by done. apply Z.lxor_0_r.
Qed.

(** The state is a [u32]: no bit above 31. *)
Definition u32 (x : Z) : Prop := 0 <= x < 2 ^ 32.

Lemma u32_bits x : u32 x <-> 0 <= x /\ forall n, 32 <= n -> Z.testbit x n = false.
Proof.
  unfold u32. split.
  - intros [H0 H]. split; [done|]. intros n Hn.
    destruct (Z.eq_dec x 0) as [->|]; [apply Z.bits_0|].
    apply Z.bits_above_log2; [done|].
    assert (Z.log2 x < 32) by (apply Z.log2_lt_pow2; lia). lia.
  - intros [H0 H]. split; [done|].
    destruct (Z.lt_ge_cases x (2 ^ 32)) as [|Hge]; [done|].
    assert (0 < x) as Hpos by lia. pose proof (Z.bit_log2 x Hpos) as Hb.
    apply (Z.log2_le_pow2 x 32 Hpos) in Hge. by rewrite H in Hb.
Qed.

Lemma u32_lxor x y : u32 x -> u32 y -> u32 (Z.lxor x y).
Proof.
  rewrite !u32_bits. intros [? Hx] [? Hy]. split; [by apply Z.lxor_nonneg|].
  intros n Hn. by rewrite Z.lxor_spec, Hx, Hy.
Qed.

Lemma u32_half x : u32 x -> 0 <= Z.shiftr x 1 < 2 ^ 31.
Proof.
  unfold u32. rewrite Z.shiftr_div_pow2 by done. change (2 ^ 1) with 2. intros.
  split; [apply Z.div_pos; lia|apply Z.div_lt_upper_bound; lia].
Qed.

Lemma crc_bit_u32 x : u32 x -> u32 (crc_bit x).
Proof.
  intros Hx. rewrite crc_bit_alt. apply u32_lxor.
  - apply u32_half in Hx. unfold u32. lia.
  - by destruct (Z.odd x).
Qed.

(** The step only forgets to zero: bit 31 of the result tells the bit shifted
    out, since the polynomial has bit 31 and the shifted state does not. *)
Lemma crc_bit_zero x : u32 x -> crc_bit x = 0 -> x = 0.
Proof.
  intros Hx. rewrite crc_bit_alt. destruct (Z.odd x) eqn:Eo; intros H.
  - apply Z.lxor_eq in H. apply u32_half in Hx. rewrite H in Hx.
    unfold CASTAGNOLI in Hx. lia.
  - rewrite Z.lxor_0_r in H. rewrite Z.shiftr_div_pow2 in H by done.
    pose proof (Z.div_mod x 2 ltac:(done)) as Hd. rewrite Zmod_odd, Eo in Hd.
    change (2 ^ 1) with 2 in H. lia.
Qed.

Lemma iter_crc_bit_lxor n a b :
  Nat.iter n crc_bit (Z.lxor a b) = Z.lxor (Nat.iter n crc_bit a) (Nat.iter n crc_bit b).
Proof. induction n as [|n IH]; simpl; [done|]. by rewrite IH, crc_bit_lxor. Qed.

Lemma iter_crc_bit_u32 n x : u32 x -> u32 (Nat.iter n crc_bit x).
Proof. intros Hx. induction n; simpl; auto using crc_bit_u32. Qed.

Lemma iter_crc_bit_inj n a b :
  u32 a -> u32 b -> Nat.iter n crc_bit a = Nat.iter n crc_bit b -> a = b.
Proof.
  intros Ha Hb H. apply Z.lxor_eq. apply (Z.lxor_eq_0_iff) in H.
  rewrite <- iter_crc_bit_lxor in H. pose proof (u32_lxor _ _ Ha Hb) as Hx.
  revert H. generalize dependent (Z.lxor a b). clear. intros x Hx.
  induction n as [|n IH]; simpl; [done|].
  intros H. apply IH, crc_bit_zero; auto using iter_crc_bit_u32.
Qed.

Lemma iter_crc_bit_shiftl n x : Nat.iter n crc_bit (Z.shiftl x (Z.of_nat n)) = x.
Proof.
  revert x. induction n as [|n IH]; intros x; [apply Z.shiftl_0_r|].
  rewrite Nat2Z.inj_succ, <- Z.add_1_l, <- Z.shiftl_shiftl by lia.
  change (crc_bit (Nat.iter n crc_bit (Z.shiftl (Z.shiftl x 1) (Z.of_nat n))) = x).
  by rewrite IH, crc_bit_double.
Qed.

(** *** A few bytes as one little-endian word *)

Fixpoint le_word (w : bytes) : Z :=
  match w with
  | [] => 0
  | b :: w => Z.lxor (Z.of_N (code b)) (Z.shiftl (le_word w) 8)
  end.

Lemma code_small b : 0 <= Z.of_N (code b) < 256.
Proof. unfold code. pose proof (N_ascii_bounded b). lia. Qed.

Lemma lxor_low_high b x : 0 <= b < 256 -> Z.lxor b (Z.shiftl x 8) = b + 256 * x.
Proof.
  intros Hb. rewrite <- Z.add_nocarry_lxor; [rewrite Z.shiftl_mul_pow2 by done; lia|].
  apply Z.bits_inj'. intros n Hn. rewrite Z.land_spec, Z.bits_0.
  destruct (Z.lt_ge_cases n 8).
  - by rewrite Z.shiftl_spec_low, andb_false_r.
  - destruct (Z.eq_dec b 0) as [->|]; [by rewrite Z.bits_0|].
    rewrite Z.bits_above_log2; [done|lia|].
    assert (Z.log2 b < 8) by (apply Z.log2_lt_pow2; lia). lia.
Qed.

Lemma le_word_cons b w : le_word (b :: w) = Z.of_N (code b) + 256 * le_word w.
Proof. apply lxor_low_high, code_small. Qed.

Lemma le_word_bound w : 0 <= le_word w < 256 ^ Z.of_nat (length w).
Proof.
  induction w as [|b w IH]; [done|]. rewrite le_word_cons. cbn [length].
  rewrite Nat2Z.inj_succ, Z.pow_succ_r by lia. pose proof (code_small b). lia.
Qed.

Lemma le_word_u32 w : (length w <= 4)%nat -> u32 (le_word w).
Proof.
  intros Hl. pose proof (le_word_bound w) as [? H]. split; [done|].
  eapply Z.lt_le_trans; [exact H|]. change (2 ^ 32) with (256 ^ 4).
  apply Z.pow_le_mono_r; lia.
Qed.

Lemma le_word_inj w w' : length w = length w' -> le_word w = le_word w' -> w = w'.
Proof.
  revert w'. induction w as [|b w IH]; intros [|b' w']; try done. intros [= Hl].
  rewrite !le_word_cons. pose proof (code_small b). pose proof (code_small b'). intros H1.
  f_equal; [apply code_inj; lia|]. apply IH; [done|]. lia.
Qed.

(** Feeding the bytes one by one is feeding the word at once. *)
Lemma foldl_crc_byte s w :
  foldl crc_byte s w = Nat.iter (8 * length w) crc_bit (Z.lxor s (le_word w)).
Proof.
  revert s. induction w as [|b w IH]; intros s; [simpl; by rewrite Z.lxor_0_r|].
  cbn [foldl length]. rewrite IH. unfold crc_byte.
  rewrite <- (iter_crc_bit_shiftl 8 (le_word w)), <- iter_crc_bit_lxor, Z.lxor_assoc.
  replace (8 * S (length w))%nat with (8 * length w + 8)%nat by lia.
  by rewrite Nat.iter_add.
Qed.

Lemma u32_code b : u32 (Z.of_N (code b)).
Proof. pose proof (code_small b). unfold u32. lia. Qed.

Lemma crc_byte_u32 s b : u32 s -> u32 (crc_byte s b).
Proof. intros Hs. apply iter_crc_bit_u32, u32_lxor; [done|apply u32_code]. Qed.

Lemma lxor_cancel a x y : Z.lxor a x = Z.lxor a y -> x = y.
Proof.
  intros H%(f_equal (Z.lxor a)).
  by rewrite <- !Z.lxor_assoc, Z.lxor_nilpotent, !Z.lxor_0_l in H.
Qed.

Lemma crc_byte_inj s s' b : u32 s -> u32 s' -> crc_byte s b = crc_byte s' b -> s = s'.
Proof.
  unfold crc_byte. intros Hs Hs' H.
  apply iter_crc_bit_inj in H; [|apply u32_lxor; auto using u32_code..].
  rewrite !(Z.lxor_comm _ (Z.of_N (code b))) in H. by apply lxor_cancel in H.
Qed.

Lemma crc_state_u32 s w : u32 s -> u32 (foldl crc_byte s w).
Proof.
  revert s. induction w as [|b w IH]; intros s Hs; cbn [foldl]; [done|].
  by apply IH, crc_byte_u32.
Qed.

Lemma crc_state_inj s s' w :
  u32 s -> u32 s' -> foldl crc_byte s w = foldl crc_byte s' w -> s = s'.
Proof.
  revert s s'. induction w as [|b w IH]; intros s s' Hs Hs'; cbn [foldl]; [done|].
  intros H%IH; [|by apply crc_byte_u32..]. by apply crc_byte_inj in H.
Qed.

Lemma crc32c_burst pre w w' post :
  length w = length w' -> (length w <= 4)%nat ->
  crc32c (pre ++ w ++ post) = crc32c (pre ++ w' ++ post) -> w = w'.
Proof.
  intros Hl Hw. unfold crc32c. rewrite !foldl_app.
  rewrite !(Z.lxor_comm _ 0xffffffff). intros H%lxor_cancel.
  assert (u32 (foldl crc_byte 0xffffffff pre)) as Hs by (by apply crc_state_u32).
  revert H Hs. generalize (foldl crc_byte 0xffffffff pre). intros s H Hs.
  apply crc_state_inj in H; [|by apply crc_state_u32..].
  rewrite !foldl_crc_byte, <- Hl in H.
  apply iter_crc_bit_inj in H; [|apply u32_lxor; [done|apply le_word_u32; lia]..].
  apply lxor_cancel in H. by apply le_word_inj.
Qed.
End Crc.

(** ** Acquisition *)

Lemma apply_exports_keys backend p exported :
  apply_exports backend p = Ok exported -> exports p <> [] ->
  forall name, is_Some (bt_get exported name) <-> name ∈ (exports p).*1.
Proof.
  unfold apply_exports. destruct (is_empty (exports p)) eqn:Ee.
  { by destruct (exports p). }
  intros H _. inv_ok. destruct x as [remaining exported']. simpl in H. subst.
  apply (try_fold_inv (fun done s => forall name,
    is_Some (bt_get s.2 name) <-> name ∈ done.*1) _ _ _ _ H0).
  - intros name. simpl. rewrite is_Some_alt. set_solver.
  - intros done [name e] [r1 e1] [r2 e2] IH Hs name'. unfold export_one in Hs. inv_ok.
    simplify_eq. simpl in *.
    rewrite bt_get_insert, fmap_app, elem_of_app, <- IH. simpl.
    case_decide; [subst; naive_solver set_solver|]. set_solver.
Qed.

Lemma collect_scalars_keys keep msg fields decoded :
  collect_scalars keep msg fields = Ok decoded ->
  forall name, is_Some (bt_get decoded name) -> keep name = true.
Proof.
  unfold collect_scalars. intros H.
  apply (try_fold_inv (fun _ s => forall name, is_Some (bt_get s name) -> keep name = true)
    _ _ _ _ H); [by intros name [? ?]|].
  intros done [name v] s s' IH Hs name'. destruct (keep name) eqn:Ek; simpl in Hs; inv_ok; subst;
    [|by apply IH].
  destruct x; [|by apply IH]. rewrite bt_get_insert. case_decide; [by subst|by apply IH].
Qed.

Lemma collect_scalars_wf keep msg fields decoded :
  collect_scalars keep msg fields = Ok decoded -> bt_wf decoded.
Proof.
  unfold collect_scalars. intros H.
  apply (try_fold_inv (fun _ s => bt_wf s) _ _ _ _ H); [apply bt_wf_nil|].
  intros done [name v] s s' IH Hs. destruct (keep name); simpl in Hs; inv_ok; subst; [|done].
  destruct x; auto with av.
Qed.

Lemma foldl_wf allowed (secrets : list (bytes * bytes)) acc :
  bt_wf acc ->
  bt_wf (foldl (fun acc '(key, value) =>
    if key_allowed allowed key then bt_insert acc key value else acc) acc secrets).
Proof.
  revert acc. induction secrets as [|[k v] secrets IH]; intros acc Hacc; simpl; [done|].
  apply IH. case_match; auto with av.
Qed.

(** Exports succeed only when they select different fields. *)
Lemma apply_exports_NoDup backend p exported :
  bt_wf backend -> exports p <> [] -> apply_exports backend p = Ok exported ->
  NoDup (export_field <$> exports p).
Proof.
  unfold apply_exports. intros Hwf He. destruct (is_empty (exports p)) eqn:Ee.
  { by destruct (exports p). }
  intros H. inv_ok.
  apply (try_fold_inv (fun done s => bt_wf s.1 /\ NoDup (export_field <$> done)
    /\ forall f, f ∈ export_field <$> done -> bt_get s.1 f = None) _ _ _ _ H0).
  - split_and!; [done|constructor|set_solver].
  - intros done e s s' (Hs & Hd & Hn) Hstep. unfold export_one in Hstep. inv_ok. subst s'.
    cbn [fst]. split_and!; [auto with av| |].
    + rewrite fmap_app. apply NoDup_app. split_and!; [done| |apply NoDup_singleton].
      intros f Hf Hf'. apply list_elem_of_singleton in Hf' as ->. apply Hn in Hf. congruence.
    + intros f. rewrite fmap_app, elem_of_app. intros [Hf| ->%list_elem_of_singleton].
      * destruct (decide (f = export_field e)) as [->|]; [by apply bt_get_remove|].
        rewrite bt_get_remove_ne by done. by apply Hn.
      * by apply bt_get_remove.
Qed.

Lemma key_allowed_spec allowed key :
  allowed <> [] -> key_allowed allowed key = true -> key ∈ allowed.
Proof.
  unfold key_allowed. destruct allowed; [done|]. intros _ H.
  apply orb_true_iff in H as [?|H]; [done|]. by apply bool_decide_eq_true in H.
Qed.

Section Acquire.
Context {X : Type} {BL : BackendLib} (env : Outside).

(** What a backend gives for a profile, before the exports. *)
Definition well_acquired (p : ProfileConfig) (a : SecretAcquisition) : Prop :=
  (dynamic_secret p = None -> lease a = None)
  /\ (forall l, lease a = Some l ->
        exists n, (expires_at l <= system_time env n + from_secs (ONE_DAY + 60))%Z).

Lemma lease_expiry_ok d (w : world X) t w' :
  lease_expiry env d w = (Ok t, w') -> (t <= system_time env (calls w) + from_secs ONE_DAY)%Z.
Proof.
  unfold lease_expiry. intros H. inv_io. apply bail_if_ok in H0.
  apply negb_false_iff, andb_true_iff in H0 as [_ Hd%Z.leb_le].
  unfold system_now, outside in H1. apply pair_equal_spec in H1 as [[= <-] <-].
  unfold checked_add in H. case_match; [|done]. simpl in H. inv_ok. unfold from_secs, NANOS in *. lia.
Qed.

Lemma parse_dynamic_expiry_ok text (w : world X) t w' :
  parse_dynamic_expiry env text w = (Ok t, w') ->
  (t <= system_time env (calls w) + from_secs (ONE_DAY + 60))%Z.
Proof.
  unfold parse_dynamic_expiry. intros H. inv_io.
  match goal with H : system_now _ _ = _ |- _ => unfold system_now, outside in H;
    apply pair_equal_spec in H as [[= <-] <-] end.
  inv_ok. breflect in *. lia.
Qed.

Lemma decode_secret_response_ok r p (w : world X) a w' :
  decode_secret_response env r p w = (Ok a, w') ->
  well_acquired p a
  /\ forall name, is_Some (bt_get (values a) name) -> key_allowed (allowed_keys p) name = true.
Proof.
  unfold decode_secret_response. intros H.
  apply io_bind_ok in H as (decoded & w1 & Hd & H). apply io_ensure_ok in Hd as [Hd ->].
  unfold decode_secret_data in Hd. inv_ok.
  assert (forall name, is_Some (bt_get decoded name) ->
            key_allowed (allowed_keys p) name = true) by (by eapply collect_scalars_keys).
  destruct (dynamic_secret p) as [dyn|] eqn:Edyn; inv_io; (split; [|done]).
  - split; [by rewrite Edyn|]. intros l [= <-]. simpl.
    match goal with H : lease_expiry _ _ ?v = _ |- _ =>
      exists (calls v); apply lease_expiry_ok in H end.
    unfold from_secs, NANOS in *. lia.
  - by split.
Qed.

Lemma foldl_keys allowed secrets acc name :
  is_Some (bt_get (foldl (fun acc '(key, value) =>
    if key_allowed allowed key then bt_insert acc key value else acc) acc secrets) name) ->
  key_allowed allowed name = true \/ is_Some (bt_get acc (V := bytes) name).
Proof.
  revert acc. induction secrets as [|[k v] secrets IH]; intros acc; simpl; [by right|].
  intros [?|H]%IH; [by left|]. destruct (key_allowed allowed k) eqn:E; [|by right].
  rewrite bt_get_insert in H. case_decide; [subst; by left|by right].
Qed.

Lemma well_acquired_none p vs : well_acquired p {| values := vs; lease := None |}.
Proof. by split. Qed.

Lemma backend_acquire_ok c p (w : world X) a w' :
  backend_acquire env c p w = (Ok a, w') ->
  well_acquired p a
  /\ (c <> ConnGoogle -> dynamic_secret p = None -> forall name,
        is_Some (bt_get (values a) name) -> key_allowed (allowed_keys p) name = true).
Proof.
  destruct c as [c|c|]; simpl; intros H.
  - unfold infisical_acquire in H. case_bool_decide as Ed.
    + unfold acquire_dynamic in H. inv_io.
      split; [split; [by intros Hn; rewrite Hn in Ed; destruct Ed|]|].
      * simpl. intros l Hl. simplify_eq. eexists. by eapply parse_dynamic_expiry_ok.
      * intros _ Hn. rewrite Hn in Ed. by destruct Ed.
    + inv_io. case_match; inv_io; (split; [apply well_acquired_none|]); simpl.
      * by intros _ _ name [? ?].
      * intros _ _ name [?|[? ?]]%foldl_keys; done.
  - unfold openbao_acquire in H. inv_io. case_match; inv_io.
    + split; [apply well_acquired_none|]. by intros _ _ name [? ?].
    + apply decode_secret_response_ok in H as [? ?]. by split.
  - unfold google_acquire in H. inv_io. split; [apply well_acquired_none|done].
Qed.

(** C37: what a profile hands out is confined to its configuration: with exports
    exactly the exported names are delivered; without them, from a path backend,
    only allowed keys; and a lease comes only with a profile configured as
    dynamic, and lasts at most a day and a minute from a clock reading. *)
Theorem acquisition_confined c p (w : world X) a w' :
  connector_acquire env c p w = (Ok a, w') ->
  (exports p <> [] -> forall name,
     is_Some (bt_get (values a) name) <-> name ∈ (exports p).*1)
  /\ (exports p = [] -> dynamic_secret p = None -> c <> ConnGoogle -> allowed_keys p <> [] ->
      forall name, is_Some (bt_get (values a) name) -> name ∈ allowed_keys p)
  /\ (forall l, lease a = Some l -> is_Some (dynamic_secret p) /\ exists n,
        (expires_at l <= system_time env n + from_secs (ONE_DAY + 60))%Z).
Proof.
  unfold connector_acquire. intros H. inv_io.
  apply backend_acquire_ok in H0 as [[Hd Hl] Hk]. simpl. split_and!.
  - by eapply apply_exports_keys.
  - unfold apply_exports in H1. intros He Hn Hc Ha name Hs. rewrite He in H1. simpl in H1. inv_ok.
    subst. apply key_allowed_spec; [done|]. by apply Hk.
  - intros l Hlease. split; [|by apply Hl].
    destruct (dynamic_secret p); [by eexists|]. by rewrite Hd in Hlease.
Qed.

Lemma google_values_wf es acc (w : world X) vs w' :
  bt_wf acc -> google_values env es acc w = (Ok vs, w') -> bt_wf vs.
Proof.
  revert acc w. induction es as [|[name e] es IH]; simpl; intros acc w Hacc H; inv_io; [done|].
  eapply IH; [|exact H]. auto with av.
Qed.

Lemma backend_acquire_wf c p (w : world X) a w' :
  backend_acquire env c p w = (Ok a, w') -> bt_wf (values a).
Proof.
  destruct c as [c|c|]; simpl; intros H.
  - unfold infisical_acquire, acquire_dynamic in H. repeat (case_match || inv_io); simpl.
    + match goal with H : decode_dynamic_data _ = _ |- _ => unfold decode_dynamic_data in H end.
      inv_ok. by eapply collect_scalars_wf.
    + apply bt_wf_nil.
    + apply foldl_wf, bt_wf_nil.
  - unfold openbao_acquire, decode_secret_response in H. repeat (case_match || inv_io); simpl;
      try (apply bt_wf_nil);
      match goal with H : decode_secret_data _ _ = _ |- _ => unfold decode_secret_data in H end;
      inv_ok; by eapply collect_scalars_wf.
  - unfold google_acquire in H. inv_io. simpl. by eapply google_values_wf; [apply bt_wf_nil|].
Qed.

(** A profile that exports one backend field under two names passes
    validation but can never be acquired: the first export takes the value away
    and the second fails.  A lease the backend has issued by then is dropped: no
    request follows the acquisition, so it stays live until it expires. *)
Theorem shared_export_drops_lease c p (w : world X) a w' :
  backend_acquire env c p w = (Ok a, w') ->
  exports p <> [] -> ~ NoDup (export_field <$> exports p) ->
  exists e, connector_acquire env c p w = (Err e, w').
Proof.
  intros Ha He Hd. unfold connector_acquire, mbind, io_bind. rewrite Ha. unfold ensure.
  destruct (apply_exports (values a) p) as [vs|e] eqn:Ex; [|by exists e].
  destruct Hd. eapply apply_exports_NoDup; [by eapply backend_acquire_wf|done|done].
Qed.
End Acquire.

(** A Google payload that was damaged within four adjacent bytes after its
    checksum was computed is refused. *)
Theorem corrupted_payload_rejected p pre sent received post :
  length sent = length received -> (length sent <= 4)%nat -> sent <> received ->
  data p = pre ++ received ++ post ->
  data_crc32c p = Some (crc32c (pre ++ sent ++ post)) ->
  is_ok (check_payload (Some p)) = false.
Proof.
  intros Hl H4 Hne Hd Hc. destruct (check_payload (Some p)) as [v|] eqn:E; [|done].
  exfalso. unfold check_payload in E. inv_ok. simplify_eq. breflect in *.
  match goal with H : data_crc32c _ = Some ?y, H' : crc32c _ = ?y |- _ =>
    rewrite Hc in H; rewrite Hd in H'; simplify_eq end.
  match goal with H : crc32c _ = crc32c _ |- _ => apply crc32c_burst in H end; [congruence|congruence|lia].
Qed.

(** ** Witnesses: an OpenBao server that issues and renews one lease *)

Module ConnectorModels.

(** A body is the lease identifier; every secret has one field. *)
#[export] Instance bodies : BackendLib := {
  decode_openbao_auth b := Some {| client_token := b; auth_lease_duration := 60 |};
  decode_secret b := Some {| response_data := Object [(&"username", Text &"u1")];
    lease_id := b; response_renewable := true; lease_duration := 3600 |};
  decode_lease b := Some {| renewed_id := b; renewed_renewable := true;
    renewed_duration := 3600 |};
  decode_infisical_auth b := Some {| access_token := b; expires_in := 60 |};
  decode_secrets b := Some [(&"TOKEN", b)];
  decode_dynamic_lease b := Some ({| dl_id := b; expire_at := b |}, Object []);
  decode_dynamic_lease_only b := Some {| dl_id := b; expire_at := b |};
  rfc3339_timestamp _ := Some 4000%Z;
  url_push base segments := Some (base ++ join "/" segments);
}.

Definition outside_world (code : Z) : Outside := {|
  system_time _ := from_secs 100;
  instant_time _ := from_secs 100;
  read_to_string _ _ := Some &"backend-token";
  respond _ _ := Some {| status := code; body := &"lease-1" |};
  google_access _ _ := None;
  random_bytes n := repeat "r"%char 32;
  wait_permit _ := true |}.

Definition bao : Connector := ConnOpenBao {|
  ob_base_url := &"https://bao.example.test/"; ob_namespace := [];
  ob_auth := OBToken &"/token"; ob_cell := &"bao" |}.

Definition dynamic_profile (es : BTreeMap ProfileExportConfig) : ProfileConfig := {|
  profile_connector := &"bao"; project_id := []; environment := [];
  secret_path := &"database/creds/app"; allowed_keys := []; exports := es;
  dynamic_secret := Some {| dyn_name := []; dyn_project_slug := []; ttl_seconds := 60 |} |}.
Definition field_of (f : bytes) : ProfileExportConfig := {| resource := []; field := f |}.
Definition fresh : world unit := {| calls := 0; exchanges := []; tokens := ∅; server := () |}.

Definition one_export : ProfileConfig := dynamic_profile [(&"DB_USER", field_of &"username")].
Definition twice : ProfileConfig :=
  dynamic_profile [(&"DB_LOGIN", field_of &"username"); (&"DB_USER", field_of &"username")].

Definition acquired : SecretAcquisition := {|
  values := [(&"DB_USER", &"u1")];
  lease := Some (OpenBao {| ob_id := &"lease-1"; ob_renewable := true;
    ob_expires_at := from_secs 3700; ob_renew_increment := from_secs 60 |}) |}.

Lemma acquisition_confined_witness :
  (forall name, is_Some (bt_get (values acquired) name) <-> name ∈ [&"DB_USER"])
  /\ exists n, (from_secs 3700 <= system_time (outside_world 200) n + from_secs (ONE_DAY + 60))%Z.
Proof.
  destruct (acquisition_confined (outside_world 200) bao one_export fresh acquired
    (connector_acquire (outside_world 200) bao one_export fresh).2) as (He & _ & Hl);
    [reflexivity|].
  split; [by apply He|]. by destruct (Hl _ eq_refl) as [_ ?].
Defined.

Lemma shared_export_drops_lease_witness :
  exists e, connector_acquire (outside_world 200) bao twice fresh
            = (Err e, (backend_acquire (outside_world 200) bao twice fresh).2).
Proof.
  eapply (shared_export_drops_lease (outside_world 200) bao twice fresh).
  - reflexivity.
  - done.
  - intros Hd. by apply NoDup_cons in Hd as [Hn _]; destruct Hn; left.
Defined.

Lemma corrupted_payload_rejected_witness :
  is_ok (check_payload (Some {| data := &"s3cr3t-value";
                                data_crc32c := Some (crc32c &"secret-value") |})) = false
  /\ is_ok (check_payload (Some {| data := &"secret-value";
                                   data_crc32c := Some (crc32c &"secret-value") |})) = true.
Proof.
  split; [|reflexivity].
  apply (corrupted_payload_rejected {| data := &"s3cr3t-value";
    data_crc32c := Some (crc32c &"secret-value") |} &"s" &"ecre" &"3cr3" &"t-value"); done || (simpl; lia).
Defined.
End ConnectorModels.
