(* ===== verification/Config.v ===== *)
(** Config: the server configuration and its validation (src/config.rs).

    A configuration is the value [serde_json] deserialises; [BTreeMap] fields
    are sorted association lists.  The process environment is the function
    [env_var].  [validate] is one definition per group of checks, run in the
    order of the source. *)

From Stdlib Require Import Ascii String.
From stdpp Require Import base list strings gmap.
From S2P Require Import Prelude Str BTree External Models Host Policy Request Ip Catalog Net Auth Connector.

(** ** Data *)

Inductive ConfigMode := Static | Managed.
#[global] Instance ConfigMode_eq_dec : EqDecision ConfigMode.
Proof. solve_decision. Defined.

Inductive ManagedPostgresSslMode := Require | VerifyCa | VerifyFull.

Record ManagedPostgresConfig := {
  pg_host : bytes;
  pg_port : Z;
  pg_database : bytes;
  pg_ssl_mode : ManagedPostgresSslMode;
  pg_role : bytes;
}.

Record ManagedConfig := {
  database_url_file : bytes;
  database_credentials_file : bytes;
  postgres : option ManagedPostgresConfig;
  database_reload_interval_seconds : Z;
  initial_owner_oidc_subject : bytes;
}.

Record OpenBaoConfig := {
  openbao_base_url : bytes; openbao_namespace : bytes; openbao_auth : OpenBaoAuth }.
Record InfisicalConfig := { infisical_base_url : bytes; infisical_auth : InfisicalAuth }.
Inductive GoogleSecretManagerAuth := Adc.
Record GoogleSecretManagerConfig := { google_auth : GoogleSecretManagerAuth }.

Inductive ConnectorConfig :=
| OpenBaoBackend (config : OpenBaoConfig)
| InfisicalBackend (config : InfisicalConfig)
| GoogleSecretManager (config : GoogleSecretManagerConfig).

Inductive ProviderOperationConfig :=
| CloudflareAccountTokenVerify (profile account_id secret_key : bytes).

Record TransparentProxyConfig := {
  proxy_listen : bytes;
  proxy_url : bytes;
  transport_tls_certificate_file : bytes;
  transport_tls_private_key_file : bytes;
  ca_certificate_file : bytes;
  ca_private_key_file : bytes;
  session_ttl_seconds : Z;
  session_max_lifetime_seconds : Z;
}.

Record Config := {
  cfg_listen : bytes;
  cfg_public_url : bytes;
  cfg_mode : ConfigMode;
  cfg_managed : option ManagedConfig;
  cfg_auth : AuthConfig;
  cfg_connectors : BTreeMap ConnectorConfig;
  cfg_profiles : BTreeMap ProfileConfig;
  cfg_provider_operations : BTreeMap ProviderOperationConfig;
  cfg_proxy_routes : BTreeMap ProxyRouteConfig;
  cfg_proxy_tunnels : BTreeMap ProxyTunnelConfig;
  cfg_transparent_proxy : option TransparentProxyConfig;
  cfg_max_connector_concurrency : Z;
  cfg_api_rate_limit_per_second : Z;
  cfg_api_rate_limit_burst : Z;
}.

Definition default_postgres_port : Z := 5432.
Definition default_dynamic_secret_ttl_seconds : Z := 300.
Definition default_postgres_ssl_mode : ManagedPostgresSslMode := Require.
Definition default_listen : bytes := &"127.0.0.1:14322".
Definition default_public_url : bytes := &"http://127.0.0.1:14322".
Definition default_secret_path : bytes := &"/".
Definition default_service_account_token_file : bytes :=
  &"/var/run/secrets/kubernetes.io/serviceaccount/token".
Definition default_approle_mount_path : bytes := &"approle".
Definition default_kubernetes_mount_path : bytes := &"kubernetes".
Definition default_group_claim : bytes := &"groups".
Definition default_oidc_signing_algorithms : list OidcSigningAlgorithm := [Rs256].
Definition default_max_connector_concurrency : Z := 16.
Definition default_api_rate_limit_per_second : Z := 50.
Definition default_api_rate_limit_burst : Z := 100.
Definition default_proxy_session_ttl_seconds : Z := 5 * 60.
Definition default_proxy_session_max_lifetime_seconds : Z := 8 * 60 * 60.

Definition connector_base_url (c : ConnectorConfig) : option bytes :=
  match c with
  | OpenBaoBackend config => Some (openbao_base_url config)
  | InfisicalBackend config => Some (infisical_base_url config)
  | GoogleSecretManager _ => None
  end.

Definition connector_kind (c : ConnectorConfig) : bytes :=
  match c with
  | OpenBaoBackend _ => &"openbao"
  | InfisicalBackend _ => &"infisical"
  | GoogleSecretManager _ => &"google_secret_manager"
  end.

(** ** Text predicates *)

Definition is_loopback_host (host : bytes) : bool :=
  eq_ignore_ascii_case host &"localhost"
  || match parse_ip_addr host with Some address => is_loopback address | None => false end.

Definition validate_name (kind : string) (name : bytes) : result unit :=
  bail_if (is_empty name
           || negb (forallb (fun byte => is_ascii_lowercase byte || is_ascii_digit byte
                                         || bool_decide (byte = "-"%char)) name))
    "{kind} name {name:?} must use lowercase letters, digits, and hyphens".

(** The characters the closures accept are ASCII, so bytes decide them. *)
Definition valid_postgres_identifier (value : bytes) : bool :=
  match value with
  | first :: rest =>
      (is_ascii_lowercase first || bool_decide (first = "_"%char))
      && (len value <=? 63)%Z
      && forallb (fun c => is_ascii_lowercase c || is_ascii_digit c
                           || bool_decide (c = "_"%char)) rest
  | [] => false
  end.

Definition validate_managed_postgres (config : ManagedPostgresConfig) : result unit :=
  _ ← bail_if (is_empty (trim (pg_host config)) || any_control (pg_host config)
               || is_empty (trim (pg_database config)) || any_control (pg_database config))
        "managed.postgres host and database must be non-empty safe text";
  bail_if (negb (valid_postgres_identifier (pg_role config)))
    "managed.postgres.role must be a lowercase PostgreSQL identifier up to 63 characters".

Definition validate_environment_name (value : bytes) : result unit :=
  match value with
  | [] => Err "environment name is empty"
  | first :: rest =>
      bail_if (negb (bool_decide (first = "_"%char) || is_ascii_alphabetic first)
               || negb (forallb (fun byte => bool_decide (byte = "_"%char)
                                             || is_ascii_alphanumeric byte) rest))
        "environment name must match [A-Za-z_][A-Za-z0-9_]*"
  end.

Definition validate_backend_field_name (value : bytes) : result unit :=
  bail_if (is_empty value || (256 <? len value)%Z
           || negb (forallb (fun byte => is_ascii_alphanumeric byte || one_of "_-." byte) value))
    "backend field must use 1-256 ASCII letters, digits, underscores, hyphens, or dots".

Definition valid_segment (segment : bytes) : bool :=
  negb (is_empty segment)
  && forallb (fun byte => is_ascii_alphanumeric byte || one_of "-_." byte) segment.

Definition valid_google_secret_resource (value : bytes) : bool :=
  match split "/" value with
  | [projects; project; secrets; secret; versions; version] =>
      bool_decide (projects = &"projects") && bool_decide (secrets = &"secrets")
      && bool_decide (versions = &"versions")
      && (valid_segment project && valid_segment secret && valid_segment version)
  | [projects; project; locations; location; secrets; secret; versions; version] =>
      bool_decide (projects = &"projects") && bool_decide (locations = &"locations")
      && bool_decide (secrets = &"secrets") && bool_decide (versions = &"versions")
      && (valid_segment project && valid_segment location && valid_segment secret
          && valid_segment version)
  | _ => false
  end.

Definition validate_openbao_mount_path (mount_path : bytes) : result unit :=
  let normalized := trim_matches "/" mount_path in
  bail_if (is_empty normalized
           || existsb (fun segment =>
                is_empty segment
                || negb (forallb (fun byte => is_ascii_alphanumeric byte || one_of "-_" byte)
                           segment)) (split "/" normalized))
    "OpenBao connector {name} has an invalid auth mount_path".

Definition validate_openbao_secret_path (secret_path : bytes) : result unit :=
  let normalized := trim_matches "/" secret_path in
  let lower := to_ascii_lowercase normalized in
  bail_if (is_empty normalized || contains_any "?#\" secret_path
           || contains_str &"%2e" lower || contains_str &"%2f" lower || contains_str &"%5c" lower
           || existsb (fun segment => bool_decide (segment ∈ [[]; &"."; &".."]))
                (split "/" normalized))
    "OpenBao profile {name} has an unsafe secret_path".

Definition valid_github_organization (organization : bytes) : bool :=
  match organization, last organization with
  | first :: _, Some final =>
      range_contains 1 39 (len organization) && is_ascii_alphanumeric first
      && is_ascii_alphanumeric final
      && forallb (fun byte => is_ascii_alphanumeric byte || bool_decide (byte = "-"%char))
           organization
  | _, _ => false
  end.

(** ** [expand_provider_operations] *)

Definition valid_account_id (account_id : bytes) : bool :=
  (len account_id =? 32)%Z
  && forallb (fun byte => is_ascii_digit byte || in_range 97 102 byte) account_id.

Definition cloudflare_route (profile account_id secret_key : bytes) : ProxyRouteConfig := {|
  route_profile := profile;
  base_url := &"https://api.cloudflare.com";
  legacy_secret_key := [];
  legacy_header := [];
  legacy_header_prefix := [];
  injection := Some (Bearer secret_key);
  body_substitutions := [];
  allowed_methods := [&"GET"];
  allowed_exact_paths := [&"/client/v4/accounts/" ++ account_id ++ &"/tokens/verify"];
  allowed_path_prefixes := [];
  allowed_request_headers := [&"accept"];
  allowed_response_headers := [&"content-type"];
  allowed_query_parameters := [];
  allowed_content_types := [];
  max_body_bytes := 1024;
  response_mode := Buffered;
  max_response_bytes := 1024 * 1024;
  websocket := None;
|}.

Definition expand_operation (routes : BTreeMap ProxyRouteConfig)
    (entry : bytes * ProviderOperationConfig) : result (BTreeMap ProxyRouteConfig) :=
  let '(name, operation) := entry in
  _ ← bail_if (bt_contains routes name)
        "provider operation {name} conflicts with a custom proxy route";
  match operation with
  | CloudflareAccountTokenVerify profile account_id secret_key =>
      _ ← bail_if (negb (valid_account_id account_id))
            "provider operation {name} Cloudflare account_id must be 32 lowercase hexadecimal characters";
      Ok (bt_insert routes name (cloudflare_route profile account_id secret_key))
  end.

Definition with_routes (c : Config) (routes : BTreeMap ProxyRouteConfig) : Config := {|
  cfg_listen := cfg_listen c; cfg_public_url := cfg_public_url c; cfg_mode := cfg_mode c;
  cfg_managed := cfg_managed c; cfg_auth := cfg_auth c; cfg_connectors := cfg_connectors c;
  cfg_profiles := cfg_profiles c; cfg_provider_operations := []; cfg_proxy_routes := routes;
  cfg_proxy_tunnels := cfg_proxy_tunnels c; cfg_transparent_proxy := cfg_transparent_proxy c;
  cfg_max_connector_concurrency := cfg_max_connector_concurrency c;
  cfg_api_rate_limit_per_second := cfg_api_rate_limit_per_second c;
  cfg_api_rate_limit_burst := cfg_api_rate_limit_burst c |}.

Definition expand_provider_operations (c : Config) : result Config :=
  routes ← try_fold expand_operation (cfg_proxy_routes c) (cfg_provider_operations c);
  Ok (with_routes c routes).

(** ** [validate] *)

Section Validate.
Context {HL : HeaderLib} {UL : UrlLib} (env_var : bytes -> option bytes).

Definition loopback_url (url : Url) : bool :=
  match url_host_str url with Some host => is_loopback_host host | None => false end.

Definition origin_path (url : Url) : bool :=
  bool_decide (url_path url ∈ [[]; &"/"]).

Definition validate_public_url (c : Config) : result Url :=
  public_url ← ok_or (url_parse (cfg_public_url c)) "public_url must be a URL";
  _ ← bail_if (negb (bool_decide (url_scheme public_url = &"https"))
               && negb (loopback_url public_url))
        "public_url must use HTTPS unless it is loopback";
  _ ← bail_if (is_none (url_host_str public_url) || has_url_credentials public_url
               || is_some (url_query public_url)
               || is_some (url_fragment public_url)
               || negb (origin_path public_url))
        "public_url must be an origin without credentials, query, fragment, or path";
  Ok public_url.

Definition validate_managed (c : Config) : result unit :=
  match cfg_mode c, cfg_managed c with
  | Static, None => Ok ()
  | Static, Some _ => Err "managed configuration is only valid when mode is managed"
  | Managed, Some managed =>
      let has_url := negb (is_empty (database_url_file managed)) in
      let has_credentials := negb (is_empty (database_credentials_file managed)) in
      _ ← bail_if (eqb has_url has_credentials)
            "managed mode requires exactly one of database_url_file or database_credentials_file";
      _ ← bail_if (has_url && negb (is_absolute (database_url_file managed)))
            "managed.database_url_file must be an absolute path";
      _ ← bail_if (has_credentials && negb (is_absolute (database_credentials_file managed)))
            "managed.database_credentials_file must be an absolute path";
      _ ← (if has_credentials then
             postgres ← ok_or (postgres managed)
                          "managed.postgres is required with database_credentials_file";
             validate_managed_postgres postgres
           else bail_if (is_some (postgres managed))
                  "managed.postgres requires database_credentials_file");
      _ ← bail_if (negb (database_reload_interval_seconds managed =? 0)%Z
                   && negb (range_contains 1 3600 (database_reload_interval_seconds managed)))
            "managed.database_reload_interval_seconds must be zero or between 1 and 3600";
      _ ← bail_if ((0 <? database_reload_interval_seconds managed)%Z && negb has_credentials)
            "managed database hot reload requires database_credentials_file";
      bail_if (is_empty (trim (initial_owner_oidc_subject managed)))
        "managed.initial_owner_oidc_subject must be non-empty"
  | Managed, None => Err "managed mode requires a managed configuration"
  end.

Definition validate_issuer (a : AuthConfig) : result unit :=
  _ ← bail_if (is_empty (issuer a) || is_empty (client_id a)) "OIDC requires issuer and client_id";
  _ ← bail_if (is_empty (allowed_groups a)) "OIDC requires at least one allowed_group";
  issuer ← ok_or (url_parse (issuer a)) "auth.issuer must be a URL";
  bail_if ((negb (bool_decide (url_scheme issuer = &"https"))
            && negb (bool_decide (url_scheme issuer = &"http") && loopback_url issuer))
           || is_none (url_host_str issuer) || has_url_credentials issuer
           || is_some (url_query issuer) || is_some (url_fragment issuer))
    "auth.issuer must be a trusted HTTPS URL".

Definition validate_github (c : Config) (public_url : Url) : result unit :=
  github ← ok_or (github (cfg_auth c)) "github_or_basic requires auth.github";
  _ ← bail_if (negb (bool_decide (cfg_mode c = Managed)) || negb (loopback_url public_url))
        "github_or_basic is only allowed for a loopback managed instance";
  _ ← bail_if (is_empty (trim (github_client_id github))
               || (is_empty (allowed_user_ids github) && is_empty (allowed_organizations github))
               || negb (is_absolute (github_client_secret_file github)))
        "github_or_basic requires a client_id, at least one allowed_user_id or allowed_organization, and an absolute client_secret_file";
  for_each (fun organization => bail_if (negb (valid_github_organization organization))
      "github allowed_organizations must contain valid GitHub organization slugs")
    (allowed_organizations github).

(** [trim_matches(['[', ']'])] *)
Definition trim_brackets (s : bytes) : bytes :=
  rev (drop_while (one_of "[]") (rev (drop_while (one_of "[]") s))).

Definition listen_host (listen : bytes) : bytes :=
  match rsplit_once ":" listen with Some (host, _) => trim_brackets host | None => listen end.

Definition validate_auth_mode (c : Config) (public_url : Url) : result unit :=
  match auth_mode (cfg_auth c) with
  | ModeOidc | ModeOidcOrBasic => validate_issuer (cfg_auth c)
  | ModeGithubOrBasic => validate_github c public_url
  | ModeBasic => Ok ()
  | ModeDisabled =>
      bail_if (negb (is_loopback_host (listen_host (cfg_listen c)))
               || is_none (env_var &"AV_ALLOW_INSECURE_AUTH"))
        "disabled auth requires a loopback listener and AV_ALLOW_INSECURE_AUTH=1"
  end.

(** The loop over [basic_users], with the set of names seen. *)
Definition validate_basic_user (seen : list bytes) (user : BasicUserConfig) : result (list bytes) :=
  _ ← bail_if (is_empty (bu_username user) || contains ":" (bu_username user)
               || any_control (bu_username user))
        "basic auth usernames must be non-empty and may not contain ':' or controls";
  _ ← bail_if (bool_decide (bu_username user ∈ seen)) "basic auth usernames must be unique";
  _ ← bail_if (negb (is_absolute (password_hash_file user)))
        "basic auth password hash files must use absolute paths";
  Ok (bu_username user :: seen).

Definition validate_basic_users (c : Config) : result unit :=
  let a := cfg_auth c in
  _ ← bail_if (negb (bool_decide (auth_mode a = ModeGithubOrBasic))
               && is_some (github a))
        "auth.github is only valid with github_or_basic";
  _ ← bail_if (basic_mode (auth_mode a) && is_empty (basic_users a)
               && bool_decide (cfg_mode c = Static))
        "basic auth mode requires basic_users";
  _ ← try_fold validate_basic_user [] (basic_users a);
  Ok ().

Definition validate_limits (c : Config) : result unit :=
  _ ← bail_if (oidc_mode (auth_mode (cfg_auth c)) && is_empty (signing_algorithms (cfg_auth c)))
        "OIDC requires at least one asymmetric signing_algorithm";
  _ ← bail_if (negb (range_contains 1 256 (cfg_max_connector_concurrency c)))
        "max_connector_concurrency must be between 1 and 256";
  _ ← bail_if (negb (range_contains 1 10000 (cfg_api_rate_limit_per_second c)))
        "api_rate_limit_per_second must be between 1 and 10000";
  bail_if (negb (range_contains 1 50000 (cfg_api_rate_limit_burst c)))
    "api_rate_limit_burst must be between 1 and 50000".

Definition allow_insecure_connector_http (c : Config) : bool :=
  let public_host_is_loopback :=
    match url_parse (cfg_public_url c) with Some url => loopback_url url | None => false end in
  public_host_is_loopback
  && bool_decide (env_var &"AV_ALLOW_INSECURE_CONNECTORS" = Some &"integration-tests-only").

Definition validate_connector_auth (connector : ConnectorConfig) : result unit :=
  credential_files ← (match connector with
  | InfisicalBackend config =>
      match infisical_auth config with
      | InfKubernetes identity_id token_file =>
          _ ← bail_if (is_empty identity_id) "Infisical connector {name} identity_id may not be empty";
          Ok [token_file]
      | InfUniversal client_id_file client_secret_file => Ok [client_id_file; client_secret_file]
      | InfToken token_file => Ok [token_file]
      end
  | OpenBaoBackend config =>
      _ ← bail_if (negb (is_empty (openbao_namespace config))
                   && is_none (value_from_bytes (openbao_namespace config)))
            "OpenBao connector {name} namespace is not a valid HTTP header value";
      match openbao_auth config with
      | OBAppRole role_id_file secret_id_file mount_path =>
          _ ← validate_openbao_mount_path mount_path;
          Ok [role_id_file; secret_id_file]
      | OBKubernetes role token_file mount_path =>
          _ ← bail_if (is_empty role) "OpenBao connector {name} Kubernetes role may not be empty";
          _ ← validate_openbao_mount_path mount_path;
          Ok [token_file]
      | OBToken token_file => Ok [token_file]
      end
  | GoogleSecretManager config => match google_auth config with Adc => Ok [] end
  end : result (list bytes));
  bail_if (existsb (fun path => negb (is_absolute path)) credential_files)
    "connector {name} credential files must use absolute paths".

Definition validate_connector (insecure : bool) (entry : bytes * ConnectorConfig) : result unit :=
  let '(name, connector) := entry in
  _ ← validate_name "connector" name;
  _ ← (match connector_base_url connector with
       | Some base_url =>
           base ← ok_or (url_parse base_url) "connector {name} base_url must be a URL";
           _ ← bail_if (is_none (url_host_str base) || has_url_credentials base
                        || is_some (url_query base)
                        || is_some (url_fragment base))
                 "connector {name} base_url may not contain credentials, query, or fragment";
           bail_if (negb (bool_decide (url_scheme base = &"https"))
                    && negb (bool_decide (url_scheme base = &"http") && insecure))
             "connector {name} base_url must use HTTPS"
       | None => Ok ()
       end);
  validate_connector_auth connector.

(** *** Profiles *)

Definition validate_profile_shape (connector : ConnectorConfig) (profile : ProfileConfig)
    : result unit :=
  match connector with
  | InfisicalBackend _ =>
      _ ← bail_if (is_empty (environment profile)) "Infisical profile {name} requires environment";
      _ ← bail_if (negb (is_some (dynamic_secret profile))
                   && is_empty (project_id profile))
            "static Infisical profile {name} requires project_id";
      bail_if (negb (starts_with &"/" (secret_path profile)))
        "Infisical profile {name} secret_path must start with /"
  | OpenBaoBackend _ => validate_openbao_secret_path (secret_path profile)
  | GoogleSecretManager _ =>
      _ ← bail_if (is_some (dynamic_secret profile))
            "Google Secret Manager profile {name} does not support dynamic leases";
      _ ← bail_if (is_empty (exports profile))
            "Google Secret Manager profile {name} requires explicit exports";
      bail_if (negb (is_empty (project_id profile)) || negb (is_empty (environment profile))
               || negb (bool_decide (secret_path profile = &"/"))
               || negb (is_empty (allowed_keys profile)))
        "Google Secret Manager profile {name} uses exports, not project_id, environment, secret_path, or allowed_keys"
  end.

(** The text of [unreachable!]. *)
Definition google_dynamic_panic : string :=
  "panic: Google Secret Manager dynamic leases were rejected above".

Definition validate_dynamic_secret (connector : ConnectorConfig) (profile : ProfileConfig)
    : result unit :=
  match dynamic_secret profile with
  | None => Ok ()
  | Some dynamic =>
      _ ← bail_if (negb (range_contains 30 (24 * 60 * 60) (ttl_seconds dynamic)))
            "profile {name} dynamic_secret ttl_seconds must be between 30 and 86400";
      _ ← bail_if (is_empty (exports profile)) "dynamic profile {name} requires explicit exports";
      match connector with
      | InfisicalBackend _ =>
          _ ← bail_if (is_empty (dyn_name dynamic) || is_empty (dyn_project_slug dynamic)
                       || negb (is_empty (project_id profile)))
                "dynamic Infisical profile {name} requires name and project_slug and may not set project_id";
          _ ← validate_name "Infisical dynamic secret" (dyn_name dynamic);
          validate_name "Infisical project slug" (dyn_project_slug dynamic)
      | OpenBaoBackend _ =>
          bail_if (negb (is_empty (dyn_name dynamic)) || negb (is_empty (dyn_project_slug dynamic)))
            "dynamic OpenBao profile {name} uses secret_path and may not set name or project_slug"
      | GoogleSecretManager _ => Err google_dynamic_panic
      end
  end.

Definition validate_export (connector : ConnectorConfig) (profile : ProfileConfig)
    (entry : bytes * ProfileExportConfig) : result unit :=
  let '(local_name, export) := entry in
  _ ← with_context (validate_environment_name local_name)
        "profile {name} export {local_name} is not a portable environment name";
  match connector with
  | GoogleSecretManager _ =>
      bail_if (negb (is_empty (field export))
               || negb (valid_google_secret_resource (resource export)))
        "Google Secret Manager profile {name} export {local_name} requires a canonical secret version resource and no field"
  | InfisicalBackend _ | OpenBaoBackend _ =>
      _ ← bail_if (negb (is_empty (resource export)))
            "path-oriented profile {name} export {local_name} may not set resource";
      _ ← bail_if (negb (is_empty (allowed_keys profile)))
            "path-oriented profile {name} may use allowed_keys or exports, but not both";
      let field := if is_empty (field export) then local_name else field export in
      with_context (validate_backend_field_name field)
        "profile {name} export {local_name} has an invalid field"
  end.

Definition validate_profile (connectors : BTreeMap ConnectorConfig)
    (entry : bytes * ProfileConfig) : result unit :=
  let '(name, profile) := entry in
  _ ← validate_name "profile" name;
  connector ← ok_or (bt_get connectors (profile_connector profile))
                "profile {name} references unknown connector {}";
  _ ← validate_profile_shape connector profile;
  _ ← validate_dynamic_secret connector profile;
  for_each (validate_export connector profile) (exports profile).

(** *** Routes, tunnels and the transparent proxy *)

Definition validate_config_route (c : Config) (insecure : bool)
    (entry : bytes * ProxyRouteConfig) : result unit :=
  let '(name, route) := entry in
  _ ← bail_if (negb (bt_contains (cfg_profiles c) (route_profile route)))
        "proxy route {name} references unknown profile {}";
  validate_proxy_route name route insecure (is_some (cfg_transparent_proxy c)).

Definition validate_config_tunnel (c : Config) (entry : bytes * ProxyTunnelConfig) : result unit :=
  let '(name, tunnel) := entry in
  _ ← bail_if (negb (bt_contains (cfg_profiles c) (tunnel_profile tunnel)))
        "proxy tunnel {name} references unknown profile {}";
  validate_proxy_tunnel name tunnel.

(** [paths.iter().enumerate().any(|(i, p)| paths[i + 1..].contains(p))] *)
Fixpoint repeated_path (paths : list bytes) : bool :=
  match paths with
  | [] => false
  | path :: rest => existsb (path_eqb path) rest || repeated_path rest
  end.

Definition validate_transparent_proxy (c : Config) (proxy : TransparentProxyConfig)
    : result unit :=
  _ ← bail_if (negb (bool_decide (cfg_mode c = Managed)))
        "transparent_proxy requires managed mode for session revocation";
  listener ← ok_or (parse_socket_addr (proxy_listen proxy))
               "transparent_proxy.listen must be an IP socket address";
  api_listener ← ok_or (parse_socket_addr (cfg_listen c))
               "listen must be an IP socket address when transparent_proxy is configured";
  _ ← bail_if ((socket_port listener =? 0)%Z || bool_decide (listener = api_listener))
        "transparent_proxy.listen must be a distinct non-zero listener";
  url ← ok_or (url_parse (proxy_url proxy)) "transparent_proxy.proxy_url must be a URL";
  _ ← bail_if (negb (bool_decide (url_scheme url = &"https"))
               || is_none (url_host_str url)
               || match url_host_str url with
                  | Some host => is_some (parse_ip_addr host)
                  | None => false
                  end
               || is_none (url_port url) || has_url_credentials url
               || is_some (url_query url) || is_some (url_fragment url)
               || negb (origin_path url))
        "transparent_proxy.proxy_url must be a credential-free HTTPS DNS origin with an explicit port";
  let paths := [ca_certificate_file proxy; ca_private_key_file proxy;
                transport_tls_certificate_file proxy; transport_tls_private_key_file proxy] in
  _ ← bail_if (existsb (fun path => negb (is_absolute path)) paths || repeated_path paths)
        "transparent proxy CA and transport TLS files must use four distinct absolute paths";
  _ ← bail_if (negb (range_contains 5 3600 (session_ttl_seconds proxy)))
        "transparent proxy session_ttl_seconds must be between 5 and 3600";
  _ ← bail_if ((session_max_lifetime_seconds proxy <? session_ttl_seconds proxy)%Z
               || (24 * 60 * 60 <? session_max_lifetime_seconds proxy)%Z)
        "transparent proxy session_max_lifetime_seconds must be at least the session TTL and at most 86400";
  _ ← bail_if (is_empty (cfg_proxy_routes c) && is_empty (cfg_proxy_tunnels c))
        "transparent_proxy requires at least one immutable proxy route or tunnel";
  catalog ← from_config (cfg_proxy_routes c) (cfg_proxy_tunnels c);
  bail_if (catalog_is_empty catalog)
    "transparent_proxy has no eligible HTTPS route or credentialless tunnel".

(** [validate] once no provider operation is left. *)
Definition validate_expanded (c : Config) : result unit :=
  public_url ← validate_public_url c;
  _ ← validate_managed c;
  _ ← validate_auth_mode c public_url;
  _ ← validate_basic_users c;
  _ ← validate_limits c;
  let insecure := allow_insecure_connector_http c in
  _ ← for_each (validate_connector insecure) (cfg_connectors c);
  _ ← for_each (validate_profile (cfg_connectors c)) (cfg_profiles c);
  _ ← for_each (validate_config_route c insecure) (cfg_proxy_routes c);
  _ ← for_each (validate_config_tunnel c) (cfg_proxy_tunnels c);
  match cfg_transparent_proxy c with
  | Some transparent_proxy => validate_transparent_proxy c transparent_proxy
  | None => Ok ()
  end.

Definition validate (c : Config) : result unit :=
  if negb (is_empty (cfg_provider_operations c)) then
    expanded ← expand_provider_operations c;
    validate_expanded expanded
  else validate_expanded c.

(** [read_to_string] and [serde_json::from_str] are parameters. *)
Definition load (read_to_string : bytes -> option bytes) (from_str : bytes -> option Config)
    (path : bytes) : result Config :=
  raw ← ok_or (read_to_string path) "read configuration {}";
  config ← ok_or (from_str raw) "parse JSON configuration {}";
  config ← expand_provider_operations config;
  _ ← validate config;
  Ok config.
End Validate.
