(* ===== verification/ConfigFacts.v ===== *)
(** ConfigFacts: what a configuration that passed validation guarantees, and
    how provider operations compile to routes. *)

From Stdlib Require Import Ascii String.
From stdpp Require Import base list strings gmap.
From S2P Require Import Prelude Str BTree External Models Host Policy Request Ip Catalog Net Auth Connector Config.

(** ** Names and paths as propositions *)

(** [[A-Za-z_][A-Za-z0-9_]*]: neither an [=] nor a NUL byte can occur. *)
Definition portable_name (s : bytes) : Prop :=
  exists first rest, s = first :: rest
    /\ (first = "_"%char \/ is_ascii_alphabetic first = true)
    /\ Forall (fun b => b = "_"%char \/ is_ascii_alphanumeric b = true) rest.

(** A path below the mount that no server-side normalisation can move. *)
Definition confined_path (path : bytes) : Prop :=
  trim_matches "/" path <> []
  /\ Forall (fun b => one_of "?#\" b = false) path
  /\ Forall (fun s => s <> [] /\ s <> &"." /\ s <> &"..") (split "/" (trim_matches "/" path)).

(** The exports a profile may have on a backend. *)
Definition export_fits (connector : ConnectorConfig) (profile : ProfileConfig)
    (entry : bytes * ProfileExportConfig) : Prop :=
  portable_name entry.1 /\
  match connector with
  | GoogleSecretManager _ =>
      field entry.2 = [] /\ valid_google_secret_resource (resource entry.2) = true
  | _ => resource entry.2 = [] /\ allowed_keys profile = []
  end.

Definition dynamic_fits (connector : ConnectorConfig) (profile : ProfileConfig) : Prop :=
  forall d, dynamic_secret profile = Some d ->
    (30 <= ttl_seconds d <= 86400)%Z /\ exports profile <> [] /\
    match connector with
    | InfisicalBackend _ =>
        dyn_name d <> [] /\ dyn_project_slug d <> [] /\ project_id profile = []
    | OpenBaoBackend _ => dyn_name d = [] /\ dyn_project_slug d = []
    | GoogleSecretManager _ => False
    end.

Definition shape_fits (connector : ConnectorConfig) (profile : ProfileConfig) : Prop :=
  match connector with
  | InfisicalBackend _ =>
      environment profile <> [] /\ starts_with &"/" (secret_path profile) = true
      /\ (dynamic_secret profile = None -> project_id profile <> [])
  | OpenBaoBackend _ => confined_path (secret_path profile)
  | GoogleSecretManager _ => exports profile <> [] /\ dynamic_secret profile = None
  end.

Section Facts.
Context {HL : HeaderLib} {UL : UrlLib} (env_var : bytes -> option bytes).
#[local] Abbreviation insecure := (allow_insecure_connector_http env_var).

Definition profile_fits (c : Config) (profile : ProfileConfig) : Prop :=
  exists connector, bt_get (cfg_connectors c) (profile_connector profile) = Some connector
    /\ shape_fits connector profile /\ dynamic_fits connector profile
    /\ Forall (export_fits connector profile) (exports profile).

Definition route_fits (c : Config) (route : ProxyRouteConfig) : Prop :=
  is_Some (bt_get (cfg_profiles c) (route_profile route))
  /\ exists base header keys,
       valid_route route (insecure c) (is_some (cfg_transparent_proxy c)) base header keys.

Definition tunnel_fits (c : Config) (tunnel : ProxyTunnelConfig) : Prop :=
  is_Some (bt_get (cfg_profiles c) (tunnel_profile tunnel))
  /\ exists host, canonical_tunnel_host (tunnel_host tunnel) = Ok host.

Definition connector_fits (c : Config) (connector : ConnectorConfig) : Prop :=
  forall text, connector_base_url connector = Some text ->
    exists base, url_parse text = Some base /\ is_Some (url_host_str base)
      /\ url_username base = [] /\ url_password base = None
      /\ url_query base = None /\ url_fragment base = None
      /\ (url_scheme base = &"https" \/ url_scheme base = &"http" /\ insecure c = true).

(** Who may be let in without a token: nobody, except on a loopback listener. *)
Definition auth_fits (c : Config) : Prop :=
  match auth_mode (cfg_auth c) with
  | ModeOidc | ModeOidcOrBasic =>
      allowed_groups (cfg_auth c) <> [] /\ signing_algorithms (cfg_auth c) <> []
      /\ exists issuer_url, url_parse (issuer (cfg_auth c)) = Some issuer_url
           /\ (url_scheme issuer_url = &"https"
               \/ url_scheme issuer_url = &"http" /\ loopback_url issuer_url = true)
  | ModeGithubOrBasic =>
      cfg_mode c = Managed
      /\ exists url, url_parse (cfg_public_url c) = Some url /\ loopback_url url = true
  | ModeBasic => True
  | ModeDisabled =>
      is_loopback_host (listen_host (cfg_listen c)) = true
      /\ is_Some (env_var &"AV_ALLOW_INSECURE_AUTH")
  end.

Definition transparent_fits (c : Config) (proxy : TransparentProxyConfig) : Prop :=
  cfg_mode c = Managed
  /\ (exists listener, parse_socket_addr (proxy_listen proxy) = Some listener
        /\ socket_port listener <> 0%Z /\ parse_socket_addr (cfg_listen c) <> Some listener)
  /\ (5 <= session_ttl_seconds proxy <= session_max_lifetime_seconds proxy)%Z
  /\ (session_ttl_seconds proxy <= 3600)%Z /\ (session_max_lifetime_seconds proxy <= 86400)%Z
  /\ exists catalog, from_config (cfg_proxy_routes c) (cfg_proxy_tunnels c) = Ok catalog
       /\ destinations_by_host catalog <> [].

Record well_formed (c : Config) : Prop := {
  wf_connectors : Forall (fun e => connector_fits c e.2) (cfg_connectors c);
  wf_profiles : Forall (fun e => profile_fits c e.2) (cfg_profiles c);
  wf_routes : Forall (fun e => route_fits c e.2) (cfg_proxy_routes c);
  wf_tunnels : Forall (fun e => tunnel_fits c e.2) (cfg_proxy_tunnels c);
  wf_auth : auth_fits c;
  wf_users : NoDup (bu_username <$> basic_users (cfg_auth c));
  wf_limits : (1 <= cfg_max_connector_concurrency c <= 256)%Z;
  wf_rate : (1 <= cfg_api_rate_limit_per_second c <= 10000)%Z
            /\ (1 <= cfg_api_rate_limit_burst c <= 50000)%Z;
  wf_managed : cfg_mode c = Managed <-> is_Some (cfg_managed c);
  wf_transparent : forall proxy, cfg_transparent_proxy c = Some proxy -> transparent_fits c proxy;
}.

(** ** Lemmas, one per group of checks *)

Lemma is_empty_false {A} (s : list A) : is_empty s = false <-> s <> [].
Proof. by destruct s. Qed.
Lemma is_empty_true {A} (s : list A) : is_empty s = true <-> s = [].
Proof. by destruct s. Qed.
Create Rewrite HintDb cfg.
#[local] Hint Rewrite @is_empty_false @is_empty_true range_contains_spec
  has_url_credentials_false @existsb_false : cfg.
#[local] Ltac reflect_all := autorewrite with av_bool cfg in *; split_hyps.

Lemma validate_environment_name_ok name u :
  validate_environment_name name = Ok u -> portable_name name.
Proof.
  unfold validate_environment_name. destruct name as [|first rest]; [done|].
  intros H. inv_ok. autorewrite with av_bool in H. destruct H as [H1 H2].
  apply forallb_true in H2. exists first, rest. split; [done|]. split; [done|].
  eapply Forall_impl; [exact H2|]. intros b Hb. by breflect in Hb.
Qed.

Lemma validate_openbao_secret_path_ok path u :
  validate_openbao_secret_path path = Ok u -> confined_path path.
Proof.
  unfold validate_openbao_secret_path, confined_path, contains_any. intros H. inv_ok.
  reflect_all. split_and!; [done|done|].
  eapply Forall_impl; [eassumption|]. intros s Hs. breflect in Hs. set_solver.
Qed.

Lemma validate_export_ok connector profile entry u :
  validate_export connector profile entry = Ok u -> export_fits connector profile entry.
Proof.
  unfold validate_export, export_fits. destruct entry as [n e]; simpl. intros H. inv_ok.
  split; [by eapply validate_environment_name_ok|].
  destruct connector; inv_ok; reflect_all; done.
Qed.

Lemma validate_dynamic_secret_ok connector profile u :
  validate_dynamic_secret connector profile = Ok u -> dynamic_fits connector profile.
Proof.
  unfold validate_dynamic_secret, dynamic_fits. intros H d Hd. rewrite Hd in H.
  destruct connector; inv_ok; reflect_all; split_and!; done || lia.
Qed.

Lemma validate_profile_shape_ok connector profile u :
  validate_profile_shape connector profile = Ok u -> shape_fits connector profile.
Proof.
  unfold validate_profile_shape, shape_fits. intros H. destruct connector.
  - by eapply validate_openbao_secret_path_ok.
  - inv_ok. reflect_all. split_and!; [done|done|]. intros Hd. rewrite Hd in *. naive_solver.
  - inv_ok. reflect_all. done.
Qed.

Lemma validate_profile_ok c entry u :
  validate_profile (cfg_connectors c) entry = Ok u -> profile_fits c entry.2.
Proof.
  unfold validate_profile, profile_fits. destruct entry as [n p]; simpl. intros H. inv_ok.
  eexists. split_and!; [done|by eapply validate_profile_shape_ok
    |by eapply validate_dynamic_secret_ok|].
  eapply Forall_impl; [exact H|]. intros e. apply validate_export_ok.
Qed.

Lemma bt_contains_true {V} (m : BTreeMap V) k : bt_contains m k = true <-> is_Some (bt_get m k).
Proof. unfold bt_contains. by breflect. Qed.

Lemma validate_config_route_ok c entry u :
  validate_config_route c (insecure c) entry = Ok u -> route_fits c entry.2.
Proof.
  unfold validate_config_route, route_fits. destruct entry as [n r], u; simpl. intros H. inv_ok.
  apply negb_false_iff, bt_contains_true in H0. split; [done|].
  by eapply validate_proxy_route_valid.
Qed.

Lemma validate_config_tunnel_ok c entry u :
  validate_config_tunnel c entry = Ok u -> tunnel_fits c entry.2.
Proof.
  unfold validate_config_tunnel, tunnel_fits, validate_proxy_tunnel.
  destruct entry as [n t], u; simpl. intros H. inv_ok.
  apply negb_false_iff, bt_contains_true in H0. split; [done|].
  by destruct (canonical_tunnel_host (tunnel_host t)); [eexists|].
Qed.

Lemma validate_connector_ok c entry u :
  validate_connector (insecure c) entry = Ok u -> connector_fits c entry.2.
Proof.
  unfold validate_connector, connector_fits. destruct entry as [n cc]; simpl.
  intros H text Ht. rewrite Ht in H. inv_ok. exists x1.
  reflect_all. split_and!; try done; tauto.
Qed.

Lemma validate_basic_users_nodup users seen :
  try_fold validate_basic_user [] users = Ok seen -> NoDup (bu_username <$> users).
Proof.
  intros H.
  enough (NoDup (bu_username <$> users) /\ forall n, n ∈ seen <-> n ∈ bu_username <$> users)
    by tauto.
  eapply (try_fold_inv (fun done seen => NoDup (bu_username <$> done)
            /\ forall n, n ∈ seen <-> n ∈ bu_username <$> done)); [exact H| |].
  - simpl. split; [constructor|set_solver].
  - intros done user s s' [Hnd Hs] Hstep. unfold validate_basic_user in Hstep. inv_ok.
    subst s'. breflect in *. rewrite fmap_app. simpl. split.
    + apply NoDup_app. split_and!; [done| |apply NoDup_singleton].
      intros n Hn ->%list_elem_of_singleton. set_solver.
    + intros n. rewrite elem_of_cons, elem_of_app, Hs. set_solver.
Qed.

Lemma validate_managed_ok c u :
  validate_managed c = Ok u -> cfg_mode c = Managed <-> is_Some (cfg_managed c).
Proof.
  unfold validate_managed. destruct (cfg_mode c), (cfg_managed c); naive_solver.
Qed.

Lemma validate_auth_mode_ok c url u v :
  url_parse (cfg_public_url c) = Some url ->
  validate_auth_mode env_var c url = Ok u -> validate_limits c = Ok v -> auth_fits c.
Proof.
  intros Hurl. unfold validate_auth_mode, validate_limits, auth_fits, oidc_mode.
  destruct (auth_mode (cfg_auth c)); intros H Hl; try done.
  1, 2: unfold validate_issuer in H; inv_ok; reflect_all;
    split_and!; try done; [naive_solver|eexists; split; [done|naive_solver]].
  - unfold validate_github in H. inv_ok. reflect_all. split; [done|by eexists].
  - clear Hl. inv_ok. by reflect_all.
Qed.

Lemma validate_transparent_proxy_ok c proxy u :
  validate_transparent_proxy c proxy = Ok u -> transparent_fits c proxy.
Proof.
  unfold validate_transparent_proxy, transparent_fits. intros H. inv_ok. reflect_all.
  split_and!; try done; try lia.
  - eexists. split_and!; [done|done|congruence].
  - eexists. split; [done|]. unfold catalog_is_empty in *. by destruct (destinations_by_host _).
Qed.

Lemma Forall_entries {A B} (f : A -> result B) (P : A -> Prop) xs b :
  (forall x u, f x = Ok u -> P x) -> Forall (fun x => f x = Ok b) xs -> Forall P xs.
Proof. intros Hf H. eapply Forall_impl; [exact H|]. intros x. apply Hf. Qed.

Lemma validate_expanded_ok c : validate_expanded env_var c = Ok () -> well_formed c.
Proof.
  unfold validate_expanded. intros H. inv_ok.
  pose proof H0 as Hurl. unfold validate_public_url in Hurl. inv_ok. subst.
  pose proof H4 as Hlim. unfold validate_limits in Hlim. inv_ok.
  unfold validate_basic_users in H3. inv_ok. reflect_all.
  split; try (eapply Forall_entries; [|eassumption]; cbv beta).
  - apply validate_connector_ok.
  - apply validate_profile_ok.
  - apply validate_config_route_ok.
  - apply validate_config_tunnel_ok.
  - by eapply validate_auth_mode_ok.
  - by eapply validate_basic_users_nodup.
  - done.
  - done.
  - by eapply validate_managed_ok.
  - intros proxy Hp. rewrite Hp in H. by eapply validate_transparent_proxy_ok.
Qed.

(** ** Provider operations *)

Lemma with_routes_self c :
  cfg_provider_operations c = [] -> with_routes c (cfg_proxy_routes c) = c.
Proof. destruct c; simpl. by intros ->. Qed.

Lemma validate_expand c :
  validate env_var c = (e ← expand_provider_operations c; validate_expanded env_var e).
Proof.
  unfold validate. destruct (cfg_provider_operations c) as [|op ops] eqn:E; [|done].
  unfold expand_provider_operations. rewrite E. simpl. by rewrite with_routes_self.
Qed.

Definition operation_route (op : ProviderOperationConfig) : ProxyRouteConfig :=
  match op with CloudflareAccountTokenVerify p a k => cloudflare_route p a k end.
Definition operation_account (op : ProviderOperationConfig) : bytes :=
  match op with CloudflareAccountTokenVerify _ a _ => a end.

Lemma expand_operation_ok routes name op routes' :
  expand_operation routes (name, op) = Ok routes' ->
  bt_get routes name = None /\ valid_account_id (operation_account op) = true
  /\ forall n, bt_get routes' n = if decide (name = n) then Some (operation_route op)
                                  else bt_get routes n.
Proof.
  unfold expand_operation. destruct op as [p a k]. intros H. inv_ok. subst routes'.
  split_and!.
  - apply eq_None_not_Some. rewrite <- bt_contains_true. by rewrite H0.
  - by apply negb_false_iff.
  - intros n. by rewrite bt_get_insert.
Qed.

(** Exactly the operations are added, under names no route had. *)
Lemma expand_operations_ok routes ops routes' :
  try_fold expand_operation routes ops = Ok routes' ->
  (forall name op, (name, op) ∈ ops ->
     bt_get routes name = None /\ valid_account_id (operation_account op) = true
     /\ bt_get routes' name = Some (operation_route op))
  /\ (forall name, name ∉ ops.*1 -> bt_get routes' name = bt_get routes name).
Proof.
  clear env_var. intros H. eapply (try_fold_inv (fun done m =>
    (forall name op, (name, op) ∈ done ->
       bt_get routes name = None /\ valid_account_id (operation_account op) = true
       /\ bt_get m name = Some (operation_route op))
    /\ (forall name, name ∉ done.*1 -> bt_get m name = bt_get routes name))); [exact H| |].
  - split; [intros ? ? []%not_elem_of_nil|done].
  - intros done [name op] m m' [Hin Hout] (Hnone & Hid & Hget)%expand_operation_ok.
    assert (name ∉ done.*1) as Hfresh.
    { intros ([n o] & -> & Ho)%list_elem_of_fmap. apply Hin in Ho as (_ & _ & Ho).
      simpl in Hnone. congruence. }
    split.
    + intros n o [Ho|[= -> ->]%list_elem_of_singleton]%elem_of_app.
      * destruct (Hin n o Ho) as (? & ? & ?). rewrite Hget.
        case_decide; [subst; congruence|done].
      * rewrite Hget, decide_True by done. by rewrite <- Hout.
    + intros n. rewrite fmap_app, not_elem_of_app. simpl. intros [Hn Hne].
      rewrite Hget, decide_False; [by apply Hout|set_solver].
Qed.

(** Only lower-case hexadecimal digits. *)
Definition hex_byte (b : byte) : bool := is_ascii_digit b || in_range 97 102 b.

Lemma valid_account_id_spec id :
  valid_account_id id = true -> id <> [] /\ Forall (fun b => hex_byte b = true) id.
Proof.
  unfold valid_account_id. rewrite andb_true_iff, forallb_true. intros [Hl Hf].
  split; [|done]. intros ->. done.
Qed.

Lemma contains_slashes_skip (id rest : bytes) :
  "/"%char ∉ id -> contains_str &"//" (id ++ rest) = contains_str &"//" rest.
Proof.
  induction id as [|b id IH]; intros Hid; [done|].
  apply not_elem_of_cons in Hid as [Hb Hid].
  change (starts_with &"//" (b :: id ++ rest) || contains_str &"//" (id ++ rest)
          = contains_str &"//" rest).
  rewrite IH by done. cbn [list_ascii_of_string starts_with].
  by rewrite bool_decide_eq_false_2.
Qed.

(** A byte a path may contain without any reader of it acting on it. *)
Definition plain_byte (b : byte) : bool := is_ascii_alphanumeric b || bool_decide (b = "/"%char).

Lemma plain_path_no_control p : Forall (fun b => plain_byte b = true) p -> any_control p = false.
Proof.
  intros Hp. unfold any_control, chars. rewrite char_chunks_ascii_text.
  - rewrite <- list_fmap_compose. apply existsb_false, Forall_fmap.
    eapply Forall_impl; [exact Hp|]. intros b Hb. simpl.
    apply negb_true_iff. revert Hb.
    by apply (byte_impl plain_byte (fun b => negb (is_control (code b)))).
  - eapply Forall_impl; [exact Hp|]. intros b Hb. apply N.ltb_lt. revert Hb.
    by apply (byte_impl plain_byte (fun b => code b <? 128)%N).
Qed.

Lemma plain_path_no_delimiter p :
  Forall (fun b => plain_byte b = true) p -> contains_any "?#\%" p = false.
Proof.
  intros Hp. apply existsb_false. eapply Forall_impl; [exact Hp|]. intros b Hb.
  apply negb_true_iff. revert Hb. by apply (byte_impl plain_byte (fun b => negb (one_of "?#\%" b))).
Qed.

Definition segment_byte (b : byte) : bool :=
  negb (bool_decide (b = "/"%char)) && negb (bool_decide (b = "."%char)).

Lemma hex_byte_facts b : hex_byte b = true -> plain_byte b = true /\ b <> "/"%char /\ b <> "."%char.
Proof.
  intros Hb. split; [revert Hb; by apply (byte_impl hex_byte plain_byte)|].
  assert (segment_byte b = true) as H by (revert Hb; by apply (byte_impl hex_byte segment_byte)).
  unfold segment_byte in H. by breflect in H.
Qed.

Lemma cloudflare_path_safe id :
  valid_account_id id = true ->
  safe_policy_path (&"/client/v4/accounts/" ++ id ++ &"/tokens/verify") = true.
Proof.
  intros (Hne & Hid)%valid_account_id_spec.
  assert ("/"%char ∉ id) as Hs.
  { intros Hin. apply (proj1 (Forall_forall _ _) Hid), hex_byte_facts in Hin as (_ & Hb & _). done. }
  assert (Forall (fun b => plain_byte b = true) (&"/client/v4/accounts/" ++ id ++ &"/tokens/verify"))
    as Hp.
  { apply Forall_app. split; [by apply forallb_true|]. apply Forall_app.
    split; [|by apply forallb_true]. eapply Forall_impl; [exact Hid|].
    intros b Hb. apply (hex_byte_facts b Hb). }
  unfold safe_policy_path.
  rewrite (plain_path_no_control _ Hp), (plain_path_no_delimiter _ Hp).
  rewrite !andb_true_iff. split_and!; [done|done| |done|]; apply negb_true_iff.
  - destruct id as [|b id]; [done|].
    change (contains_str &"//" (&"/client/v4/accounts/" ++ (b :: id) ++ &"/tokens/verify"))
      with (starts_with &"//" (&"/" ++ (b :: id) ++ &"/tokens/verify")
            || contains_str &"//" ((b :: id) ++ &"/tokens/verify")).
    rewrite contains_slashes_skip by done. apply orb_false_iff. split; [|done].
    apply not_elem_of_cons in Hs as [Hb _]. apply starts_with_false. intros [t [=]]. by subst.
  - change (&"/client/v4/accounts/" ++ id ++ &"/tokens/verify")
      with (&"/client/v4/accounts" ++ "/"%char :: (id ++ "/"%char :: &"tokens/verify")).
    rewrite !split_app, (split_sep_free _ id) by done.
    rewrite !existsb_app. apply orb_false_iff. split; [done|]. apply orb_false_iff. split; [|done].
    destruct id as [|b id]; [done|]. inversion Hid as [|? ? Hb _]; subst.
    apply hex_byte_facts in Hb as (_ & _ & Hb). simpl.
    rewrite !bool_decide_eq_false_2; [done| |]; congruence.
Qed.

Lemma no_query_parameters (route : ProxyRouteConfig) pairs out :
  allowed_query_parameters route = [] -> validate_query_pairs route [] [] pairs = Ok out -> out = [].
Proof.
  intros Hnil H. destruct pairs as [|[k v] pairs]; simpl in H; inv_ok; [done|].
  by rewrite Hnil in H1.
Qed.

Lemma cloudflare_request_single {EL : EncodingLib} profile id key path q method headers n v :
  validate_proxy_request (cloudflare_route profile id key) path q method headers n = Ok v ->
  eq_ignore_ascii_case &"GET" method = true /\ n = 0%Z /\ query v = []
  /\ normalized_path v = &"/client/v4/accounts/" ++ id ++ &"/tokens/verify".
Proof.
  unfold validate_proxy_request. intros H. inv_ok. subst v. cbn [query normalized_path].
  unfold enforce_proxy_content_type in H4.
  cbn [allowed_methods allowed_exact_paths allowed_path_prefixes allowed_content_types
       cloudflare_route existsb] in *.
  rewrite orb_false_r in *. breflect in *. split_and!; [done| | |].
  - destruct (n =? 0)%Z eqn:En; [by apply Z.eqb_eq|].
    destruct (hm_get_all _ _) as [|? [|]]; [done| |done]. inv_ok. done.
  - unfold validate_proxy_query in H5.
    destruct q as [[|b q]|]; inv_ok; [done| |done].
    by eapply no_query_parameters; [|eassumption].
  - destruct H2 as [H2|H2]; [|done]. by apply list_elem_of_singleton in H2.
Qed.

(** ** Claims *)

(** C24: a configuration that passes validation is well formed once its provider
    operations are expanded: every profile names a configured connector and fits
    its kind, every route and tunnel names a configured profile and is itself
    valid, connector URLs carry no credentials, authentication can be off only
    on a loopback listener with the override set, and a transparent proxy has a
    loadable, non-empty catalog, its own listener and bounded session times. *)
Theorem validated_config_well_formed c :
  validate env_var c = Ok () ->
  exists e, expand_provider_operations c = Ok e /\ well_formed e.
Proof.
  rewrite validate_expand. intros H. inv_ok. eexists. split; [done|].
  by apply validate_expanded_ok.
Qed.

(** Unless the integration-test override is set, every connector and every
    route, compiled ones included, of a validated configuration uses HTTPS; and
    even with it, plain HTTP needs a loopback public URL. *)
Theorem validated_config_https c e text base :
  validate env_var c = Ok () -> expand_provider_operations c = Ok e ->
  env_var &"AV_ALLOW_INSECURE_CONNECTORS" <> Some &"integration-tests-only"
  \/ (forall url, url_parse (cfg_public_url c) = Some url -> loopback_url url = false) ->
  (exists name connector, (name, connector) ∈ cfg_connectors e
     /\ connector_base_url connector = Some text)
  \/ (exists name route, (name, route) ∈ cfg_proxy_routes e /\ base_url route = text) ->
  url_parse text = Some base -> url_scheme base = &"https".
Proof.
  rewrite validate_expand. intros H He Hsafe Huse Hbase. rewrite He in H. simpl in H.
  pose proof (validate_expanded_ok _ H) as Hwf.
  assert (insecure e = false) as Hno.
  { unfold expand_provider_operations in He. inv_ok. subst e.
    unfold allow_insecure_connector_http. cbn [cfg_public_url with_routes].
    apply andb_false_iff. destruct Hsafe as [Hs|Hs]; [right; by breflect|left].
    by destruct (url_parse (cfg_public_url c)); [apply Hs|]. }
  destruct Huse as [(n & cc & Hin & Ht)|(n & r & Hin & Ht)].
  - pose proof (proj1 (Forall_forall _ _) (wf_connectors _ Hwf) _ Hin _ Ht) as
      (b & Hb & _ & _ & _ & _ & _ & Hs).
    rewrite Hno in Hs. assert (b = base) as -> by congruence. naive_solver.
  - pose proof (proj1 (Forall_forall _ _) (wf_routes _ Hwf) _ Hin) as (_ & b & h & k & Hv).
    pose proof (vr_base _ _ _ _ _ _ Hv) as Hb. pose proof (vr_scheme _ _ _ _ _ _ Hv) as Hs.
    simpl in *. rewrite Hno in Hs. assert (b = base) as -> by congruence. naive_solver.
Qed.

(** A provider operation compiles, under a name no custom route uses, to a
    route that lets exactly one request through: a GET of the fixed path on the
    provider's own origin, without query or body; custom routes are unchanged. *)
Theorem provider_operation_confined {EL : EncodingLib} c e name profile id key :
  expand_provider_operations c = Ok e ->
  (name, CloudflareAccountTokenVerify profile id key) ∈ cfg_provider_operations c ->
  bt_get (cfg_proxy_routes c) name = None
  /\ (exists route, bt_get (cfg_proxy_routes e) name = Some route
        /\ route_profile route = profile /\ base_url route = &"https://api.cloudflare.com"
        /\ injection route = Some (Bearer key) /\ websocket route = None
        /\ forall path q method headers n v,
             validate_proxy_request route path q method headers n = Ok v ->
             eq_ignore_ascii_case &"GET" method = true /\ n = 0%Z /\ query v = []
             /\ normalized_path v = &"/client/v4/accounts/" ++ id ++ &"/tokens/verify")
  /\ (forall other, other ∉ (cfg_provider_operations c).*1 ->
        bt_get (cfg_proxy_routes e) other = bt_get (cfg_proxy_routes c) other).
Proof.
  unfold expand_provider_operations. intros H Hin. inv_ok. subst e. cbn [cfg_proxy_routes with_routes].
  apply expand_operations_ok in H0 as [Hops Hothers].
  apply Hops in Hin as (Hnone & _ & Hget). split_and!; [done| |done].
  eexists. split_and!; [done..|]. intros path q method headers n v Hv.
  by apply cloudflare_request_single in Hv.
Qed.

(** ** No panic *)

Lemma validate_headers_no_panic injection unique headers :
  ~ panics (validate_headers injection unique headers).
Proof. revert unique. induction headers; intros unique; cbn [validate_headers]; no_panic. done. Qed.
Lemma validate_strings_no_panic valid unique values :
  ~ panics (validate_strings valid unique values).
Proof. revert unique. induction values; intros unique; cbn [validate_strings]; no_panic. done. Qed.
#[local] Hint Resolve validate_headers_no_panic validate_strings_no_panic : no_panic.

Lemma validate_proxy_route_no_panic name route a b : ~ panics (validate_proxy_route name route a b).
Proof.
  unfold validate_proxy_route, validate_route_origin, validate_policy_name,
    validate_proxy_header_allowlist, validate_route_injection,
    reject_mixed_legacy_injection, validate_route_websocket, validate_string_allowlist.
  no_panic; auto with no_panic.
Qed.

Lemma canonical_tunnel_host_no_panic host : ~ panics (canonical_tunnel_host host).
Proof. unfold canonical_tunnel_host, canonical_dns_host. no_panic. Qed.

Lemma from_config_no_panic routes tunnels : ~ panics (from_config routes tunnels).
Proof.
  unfold from_config. no_panic.
  - unfold add_route, add_destination, canonical_dns_host. no_panic.
  - unfold add_tunnel, add_destination. no_panic. apply canonical_tunnel_host_no_panic.
Qed.
#[local] Hint Resolve validate_proxy_route_no_panic canonical_tunnel_host_no_panic
  from_config_no_panic : no_panic.

(** The only [unreachable!]: a dynamic Google profile was refused just before. *)
Lemma validate_profile_no_panic connectors entry : ~ panics (validate_profile connectors entry).
Proof.
  unfold validate_profile, validate_name. destruct entry as [name profile]. no_panic.
  - unfold validate_profile_shape, validate_openbao_secret_path. no_panic.
  - rename H1 into Hshape. unfold validate_dynamic_secret, validate_name. no_panic.
    exfalso. simpl in Hshape. inv_ok. rewrite Heqo in *. done.
  - unfold validate_export, validate_backend_field_name. no_panic.
Qed.

Lemma validate_transparent_proxy_no_panic c proxy : ~ panics (validate_transparent_proxy c proxy).
Proof. unfold validate_transparent_proxy. no_panic; auto with no_panic. Qed.

Lemma validate_connector_no_panic b entry : ~ panics (validate_connector b entry).
Proof.
  unfold validate_connector, validate_name, validate_connector_auth, validate_openbao_mount_path.
  no_panic.
Qed.

Lemma validate_expanded_no_panic c : ~ panics (validate_expanded env_var c).
Proof.
  unfold validate_expanded. no_panic; auto using validate_profile_no_panic,
    validate_transparent_proxy_no_panic, validate_connector_no_panic.
  - unfold validate_public_url. no_panic.
  - unfold validate_managed, validate_managed_postgres. no_panic.
  - unfold validate_auth_mode, validate_issuer, validate_github. no_panic.
  - unfold validate_basic_users, validate_basic_user. no_panic.
  - unfold validate_limits. no_panic.
  - unfold validate_config_route. no_panic. auto with no_panic.
  - unfold validate_config_tunnel, validate_proxy_tunnel, validate_policy_name. no_panic.
Qed.

(** C38: loading a configuration never reaches the [unreachable!] of the profile
    checks, nor any other panic: every input ends in a configuration or an error. *)
Theorem load_never_panics read_to_string from_str path :
  ~ panics (load env_var read_to_string from_str path).
Proof.
  unfold load. no_panic.
  - unfold expand_provider_operations. no_panic. unfold expand_operation. no_panic.
  - rewrite validate_expand. no_panic; [|apply validate_expanded_no_panic].
    unfold expand_provider_operations. no_panic. unfold expand_operation. no_panic.
Qed.

(** The configuration [load] returns has no provider operation left, is
    well formed, and every destination its catalog offers belongs to a
    configured profile whose connector is configured. *)
Theorem loaded_config_closed read_to_string from_str path c catalog host d :
  load env_var read_to_string from_str path = Ok c ->
  from_config (cfg_proxy_routes c) (cfg_proxy_tunnels c) = Ok catalog ->
  bt_get (destinations_by_host catalog) host = Some d ->
  cfg_provider_operations c = [] /\
  exists profile connector,
    bt_get (cfg_profiles c) (destination_profile d) = Some profile
    /\ bt_get (cfg_connectors c) (profile_connector profile) = Some connector
    /\ shape_fits connector profile /\ dynamic_fits connector profile.
Proof.
  unfold load. intros Hl Hcat Hd. inv_ok. subst c.
  unfold expand_provider_operations in H1. inv_ok. subst x1. split; [done|].
  unfold validate in H2. cbn [cfg_provider_operations with_routes is_empty negb] in H2.
  destruct x2. apply validate_expanded_ok in H2 as Hwf.
  apply (from_config_ok _ _ _ Hcat) in Hd.
  assert (is_Some (bt_get (cfg_profiles (with_routes x0 x3)) (destination_profile d))) as [p Hp].
  { destruct Hd as [([n r] & Hin & u & h & _ & _ & _ & _ & _ & ->)|([n t] & Hin & _ & ->)].
    - by apply (proj1 (Forall_forall _ _) (wf_routes _ Hwf)) in Hin as [? _].
    - by apply (proj1 (Forall_forall _ _) (wf_tunnels _ Hwf)) in Hin as [? _]. }
  exists p. pose proof (bt_get_elem _ _ _ Hp) as Hin.
  apply (proj1 (Forall_forall _ _) (wf_profiles _ Hwf)) in Hin as (cc & Hcc & Hs & Hdy & _).
  by exists cc.
Qed.
End Facts.

(** [Url::host_str] writes an IPv6 address in brackets, which the address parser
    refuses: a bracketed literal is neither loopback nor an IP address here. *)
Lemma bracketed_host_not_an_address s :
  parse_ip_addr ("["%char :: s) = None /\ is_loopback_host ("["%char :: s) = false.
Proof. split; reflexivity. Qed.

(** ** A configuration for the witnesses *)

Module ConfigModels.
Import Models.

Definition no_env : bytes -> option bytes := fun _ => None.

Definition auth : AuthConfig := {|
  auth_mode := ModeOidcOrBasic; issuer := &"https://id.example.test"; client_id := &"av";
  audiences := []; scopes := [&"openid"]; signing_algorithms := default_oidc_signing_algorithms;
  group_claim := default_group_claim; allowed_groups := [&"ops"];
  basic_users := [{| bu_username := &"ann"; password_hash_file := &"/etc/av/ann" |}];
  github := None |}.

Definition account : bytes := &"0123456789abcdef0123456789abcdef".
Definition operation : ProviderOperationConfig :=
  CloudflareAccountTokenVerify &"deploy" account &"CF_TOKEN".

Definition bao : ConnectorConfig := OpenBaoBackend {|
  openbao_base_url := &"https://bao.example.test"; openbao_namespace := [];
  openbao_auth := OBKubernetes &"av" default_service_account_token_file
                    default_kubernetes_mount_path |}.

Definition deploy : ProfileConfig := {|
  profile_connector := &"bao"; project_id := []; environment := [];
  secret_path := &"kv/data/deploy"; allowed_keys := [];
  exports := [(&"API_TOKEN", {| resource := []; field := &"token" |})];
  dynamic_secret := None |}.

Definition config : Config := {|
  cfg_listen := default_listen; cfg_public_url := &"https://av.example.test";
  cfg_mode := Managed;
  cfg_managed := Some {|
    database_url_file := &"/etc/av/database-url"; database_credentials_file := [];
    postgres := None; database_reload_interval_seconds := 0;
    initial_owner_oidc_subject := &"owner" |};
  cfg_auth := auth; cfg_connectors := [(&"bao", bao)]; cfg_profiles := [(&"deploy", deploy)];
  cfg_provider_operations := [(&"verify", operation)];
  cfg_proxy_routes := [(&"items", Sample.route)];
  cfg_proxy_tunnels := [(&"registry", Sample.tunnel)];
  cfg_transparent_proxy := Some {|
    proxy_listen := &"10.0.0.1:14323"; proxy_url := &"https://proxy.example.test:14323";
    transport_tls_certificate_file := &"/tls/cert"; transport_tls_private_key_file := &"/tls/key";
    ca_certificate_file := &"/ca/cert"; ca_private_key_file := &"/ca/key";
    session_ttl_seconds := default_proxy_session_ttl_seconds;
    session_max_lifetime_seconds := default_proxy_session_max_lifetime_seconds |};
  cfg_max_connector_concurrency := default_max_connector_concurrency;
  cfg_api_rate_limit_per_second := default_api_rate_limit_per_second;
  cfg_api_rate_limit_burst := default_api_rate_limit_burst |}.

Definition expanded : Config :=
  with_routes config [(&"items", Sample.route);
                      (&"verify", cloudflare_route &"deploy" account &"CF_TOKEN")].

Lemma config_valid : validate no_env config = Ok ().
Proof. reflexivity. Qed.
Lemma config_expands : expand_provider_operations config = Ok expanded.
Proof. reflexivity. Qed.

Lemma validated_config_well_formed_witness :
  validate no_env config = Ok ()
  /\ exists e, expand_provider_operations config = Ok e /\ well_formed no_env e.
Proof. split; [reflexivity|]. by apply (validated_config_well_formed no_env config). Defined.

Lemma validated_config_https_witness :
  exists base, url_parse &"https://api.cloudflare.com" = Some base /\ url_scheme base = &"https".
Proof.
  eexists. split; [reflexivity|].
  apply (validated_config_https no_env config expanded &"https://api.cloudflare.com").
  - reflexivity.
  - reflexivity.
  - left. discriminate.
  - right. exists &"verify", (cloudflare_route &"deploy" account &"CF_TOKEN").
    split; [|reflexivity]. right. left.
  - reflexivity.
Defined.

Lemma provider_operation_confined_witness :
  exists route, bt_get (cfg_proxy_routes expanded) &"verify" = Some route
    /\ base_url route = &"https://api.cloudflare.com"
    /\ is_ok (validate_proxy_request route (&"/client/v4/accounts/" ++ account ++ &"/tokens/verify")
                None &"GET" [] 0) = true.
Proof.
  destruct (provider_operation_confined config expanded &"verify" &"deploy" account &"CF_TOKEN")
    as (_ & (route & Hget & _ & Hbase & _) & _); [reflexivity|left|].
  exists route. split; [exact Hget|]. split; [exact Hbase|].
  injection Hget as <-. reflexivity.
Defined.

Definition read_config (path : bytes) : option bytes := Some path.
Definition parse_config (raw : bytes) : option Config := Some config.

Lemma loaded_config_closed_witness :
  exists catalog d, from_config (cfg_proxy_routes expanded) (cfg_proxy_tunnels expanded) = Ok catalog
    /\ bt_get (destinations_by_host catalog) &"api.cloudflare.com" = Some d
    /\ exists profile, bt_get (cfg_profiles expanded) (destination_profile d) = Some profile.
Proof.
  destruct (from_config (cfg_proxy_routes expanded) (cfg_proxy_tunnels expanded))
    as [catalog|] eqn:E; [|discriminate E].
  exists catalog, (Injecting &"verify" &"deploy"). split; [reflexivity|].
  assert (bt_get (destinations_by_host catalog) &"api.cloudflare.com"
          = Some (Injecting &"verify" &"deploy")) as Hd
    by (injection E as <-; reflexivity).
  split; [exact Hd|].
  destruct (loaded_config_closed no_env read_config parse_config &"/etc/av.json" expanded
              catalog &"api.cloudflare.com" (Injecting &"verify" &"deploy"))
    as (_ & p & cc & Hp & _); [reflexivity|exact E|exact Hd|].
  exists p. exact Hp.
Defined.
End ConfigModels.
