(* ===== verification/Leases.v ===== *)
(** Leases: the dynamic-lease registry of src/server.rs and the handlers that
    acquire, renew and revoke leases through it.

    A handler is a computation of Connector.v over the server's own state: the
    registry, the store and the signing-key cache.  Requests run one at a time;
    the outside world may answer every call differently. *)

From Stdlib Require Import Ascii String.
From stdpp Require Import base list strings gmap.
From S2P Require Import Prelude Str BTree External Models Database Store Auth Connector.

(** ** State *)

Definition MAX_ACTIVE_DYNAMIC_LEASES : nat := 1024.

Record ActiveDynamicLease := {
  lease_subject : bytes;
  lease_profile : bytes;
  lease_connector : bytes;
  backend_lease : BackendLease;
}.

Section Leases.
Context {HL : HeaderLib} {EL : EncodingLib} {JL : JwtLib} {PL : PasswordLib} {BL : BackendLib}.

(** The mutable parts of [AppState] that the handlers use... *)
Record ServerData := {
  active : gmap bytes ActiveDynamicLease;
  database : Database.world Tables;
  keys : JwksState;
}.
(** ... and the fixed ones; [auth] tells whether a store is attached. *)
Record AppState := {
  profiles : BTreeMap ProfileConfig;
  connectors : BTreeMap Connector;
  auth : Authenticator;
}.

Context (env : Outside).
#[local] Abbreviation IO := (io ServerData).

Definition with_active (d : ServerData) (m : gmap bytes ActiveDynamicLease) : ServerData :=
  {| active := m; database := database d; keys := keys d |}.
Definition get_active : IO (gmap bytes ActiveDynamicLease) :=
  d ← get_server; mret (active d).
Definition set_active (m : gmap bytes ActiveDynamicLease) : IO unit :=
  d ← get_server; set_server (with_active d m).

(** A store call. *)
Definition with_store {A} (m : DB A) : IO A := fun w =>
  let '(r, db) := m (database (server w)) in
  (r, {| calls := calls w; exchanges := exchanges w; tokens := tokens w;
         server := {| active := active (server w); database := db; keys := keys (server w) |} |}).

(** ** [DynamicLeaseRegistry] *)

(** The loop that looks for an unused handle. *)
Fixpoint select_handle (tries : nat) (m : gmap bytes ActiveDynamicLease) : IO (option bytes) :=
  match tries with
  | O => mret None
  | S tries =>
      random ← outside (random_bytes env);
      let handle := &"av_lease_" ++ base64_url_safe_no_pad random in
      if bool_decide (is_Some (m !! handle)) then select_handle tries m else mret (Some handle)
  end.

(** [Err(item)] is [inr]. *)
Definition registry_insert (item : ActiveDynamicLease) : IO (bytes + ActiveDynamicLease) :=
  m ← get_active;
  now ← system_now env;
  let m := filter (fun kv => (now < expires_at (backend_lease kv.2))%Z) m in
  _ ← set_active m;
  if (MAX_ACTIVE_DYNAMIC_LEASES <=? size m)%nat then mret (inr item) else
  selected ← select_handle 8 m;
  match selected with
  | None => mret (inr item)
  | Some handle => _ ← set_active (<[handle := item]> m); mret (inl handle)
  end.

Definition take_for_subject (handle subject : bytes) : IO (option ActiveDynamicLease) :=
  m ← get_active;
  match m !! handle with
  | None => mret None
  | Some item =>
      if negb (bool_decide (lease_subject item = subject)) then mret None else
      now ← system_now env;
      if (expires_at (backend_lease item) <=? now)%Z then mret None else
      _ ← set_active (delete handle m); mret (Some item)
  end.

(** [false] when the handle is taken and the lease is handed back. *)
Definition restore (handle : bytes) (item : ActiveDynamicLease) : IO bool :=
  m ← get_active;
  if bool_decide (is_Some (m !! handle)) then mret false else
  _ ← set_active (<[handle := item]> m); mret true.

Definition drain : IO (list ActiveDynamicLease) :=
  m ← get_active;
  _ ← set_active ∅;
  mret (map_to_list m).*2.

(** ** Lease helpers *)

Section Handlers.
Context (state : AppState).

Definition revoke_dynamic_lease (item : ActiveDynamicLease) : IO unit :=
  connector ← ensure (ok_or (bt_get (connectors state) (lease_connector item))
                        "dynamic lease connector disappeared");
  connector_revoke env connector (backend_lease item).

Fixpoint revoke_each (items : list ActiveDynamicLease) : IO unit :=
  match items with
  | [] => mret ()
  | item :: items => _ ← attempt (revoke_dynamic_lease item); revoke_each items
  end.
(** Shutdown; [schedule] gives the revocations that run before the deadline, in
    the order in which they run. *)
Definition revoke_all_dynamic_leases
    (schedule : list ActiveDynamicLease -> list ActiveDynamicLease) : IO unit :=
  items ← drain;
  revoke_each (schedule items).

Definition dynamic_lease_expiry (l : BackendLease) : result Z :=
  _ ← bail_if (expires_at l <? 0)%Z "dynamic lease expiry predates the Unix epoch";
  let seconds := (expires_at l / NANOS)%Z in
  _ ← bail_if (2 ^ 63 <=? seconds)%Z "dynamic lease expiry is outside supported range";
  Ok seconds.

Definition validate_dynamic_lease_handle (handle : bytes) : result unit :=
  bail_if (negb (starts_with &"av_lease_" handle) || negb (len handle =? 9 + 43)%Z
           || negb (forallb (fun byte => is_ascii_alphanumeric byte || one_of "-_" byte)
                      (drop 9 handle)))
    "dynamic lease handle is invalid".

Definition dynamic_proxy_renewal_delay (expires : Z) : IO Z :=
  now ← system_now env;
  _ ← ensure (bail_if (expires <? now)%Z "dynamic proxy lease expired before renewal");
  mret (from_secs (Z.max ((expires - now) / NANOS / 2) 1)).

Definition authorize_connect (headers : HeaderMap) : IO Identity := fun w =>
  let now := instant_time env (calls w) in
  let slot := if wait_permit env (S (calls w)) then Ok ()
              else Err "Basic authentication queue timed out" in
  let '(m, k) := authorize (auth state) now slot headers (keys (server w)) in
  let '(r, db) := m (database (server w)) in
  (with_context r "unauthenticated: authentication required",
   {| calls := S (S (calls w)); exchanges := exchanges w; tokens := tokens w;
      server := {| active := active (server w); database := db; keys := k |} |}).

Definition profile_permitted (subject profile : bytes) (mode : GrantMode) : IO bool :=
  if managed (auth state) then with_store (profile_allowed_for subject profile mode)
  else mret true.

Definition audit_event (actor action : bytes) (profile route executable : option bytes)
    : IO unit :=
  if managed (auth state) then with_store (record_audit actor action profile route executable)
  else mret ().

Definition valid_executable_basename (value : bytes) : bool :=
  negb (is_empty value) && (len value <=? 255)%Z && negb (contains_any "/\" value)
  && negb (any_control value).

Definition acquire_secrets (profile : ProfileConfig) : IO SecretAcquisition :=
  permit ← outside (wait_permit env);
  _ ← ensure (bail_if (negb permit) "connector concurrency queue timed out");
  connector ← ensure (ok_or (bt_get (connectors state) (profile_connector profile))
                        "profile connector disappeared");
  connector_acquire env connector profile.

Definition fetch_secrets (profile : ProfileConfig) : IO (BTreeMap bytes) :=
  acquisition ← acquire_secrets profile;
  connector ← ensure (ok_or (bt_get (connectors state) (profile_connector profile))
                        "profile connector disappeared");
  match lease acquisition with
  | Some l =>
      _ ← attempt (connector_revoke env connector l);
      ensure (Err "dynamic lease delivery is not available through this path yet")
  | None => mret (values acquisition)
  end.

(** [acquire_owned_proxy_secrets]: the registration that [get_profile_environment]
    and the proxy path share, with the messages of the caller.  An acquired lease
    is registered, or revoked when it cannot be. *)
Definition register_lease (subject profile_name : bytes) (profile : ProfileConfig)
    (l : BackendLease) (invalid full : string) : IO (bytes * Z) :=
  let item := {| lease_subject := subject; lease_profile := profile_name;
                 lease_connector := profile_connector profile; backend_lease := l |} in
  match dynamic_lease_expiry l with
  | Err _ => _ ← attempt (revoke_dynamic_lease item); ensure (Err invalid)
  | Ok expires =>
      inserted ← registry_insert item;
      match inserted with
      | inl handle => mret (handle, expires)
      | inr item => _ ← attempt (revoke_dynamic_lease item); ensure (Err full)
      end
  end.

(** [DynamicLeaseOwner], without its handle on the server state. *)
Record DynamicLeaseOwner := {
  owner_handle : bytes; owner_subject : bytes; owner_expires_at : Z }.

Definition acquire_owned_proxy_secrets (profile_name : bytes) (profile : ProfileConfig)
    (subject : bytes) : IO (BTreeMap bytes * option DynamicLeaseOwner) :=
  acquisition ← acquire_secrets profile;
  match lease acquisition with
  | None => mret (values acquisition, None)
  | Some l =>
      '(handle, _) ← register_lease subject profile_name profile l
        "dynamic proxy lease expiry is invalid" "active dynamic lease limit reached";
      mret (values acquisition,
            Some {| owner_handle := handle; owner_subject := subject;
                    owner_expires_at := expires_at l |})
  end.

Record ProfileEnvironment := {
  env_values : BTreeMap bytes; env_lease_id : bytes; env_expires_unix_seconds : Z }.
Record ProfileEnvironmentLease := {
  pel_lease_id : bytes; pel_expires_unix_seconds : Z; pel_revoked : bool }.

Definition get_profile_environment (headers : HeaderMap) (profile_name executable : bytes)
    : IO ProfileEnvironment :=
  identity ← authorize_connect headers;
  profile ← ensure (ok_or (bt_get (profiles state) profile_name)
                      "not_found: profile not found");
  permitted ← context_of (profile_permitted (subject identity) profile_name Environment)
                "internal: managed store unavailable";
  _ ← ensure (bail_if (negb permitted) "permission_denied: profile access is not granted");
  _ ← ensure (bail_if (negb (valid_executable_basename executable))
        "invalid_argument: executable_basename must be a basename without control characters");
  acquisition ← context_of (acquire_secrets profile)
                  "internal: profile environment unavailable";
  '(lease_id, expires) ←
    match lease acquisition with
    | Some l => register_lease (subject identity) profile_name profile l
                  "internal: profile environment unavailable"
                  "resource_exhausted: active dynamic lease limit reached"
    | None => mret ([], 0%Z)
    end;
  audited ← attempt (audit_event (subject identity) &"profile_lease" (Some profile_name) None
                       (Some executable));
  match audited with
  | Err _ =>
      _ ← (if is_empty lease_id then mret () else
           item ← take_for_subject lease_id (subject identity);
           match item with
           | Some item => _ ← attempt (revoke_dynamic_lease item); mret ()
           | None => mret ()
           end);
      ensure (Err "internal: audit persistence unavailable")
  | Ok _ =>
      mret {| env_values := values acquisition; env_lease_id := lease_id;
              env_expires_unix_seconds := expires |}
  end.

(** [if let Err(error) = revoke(..) { restore }], the reaction to a failure. *)
Definition revoke_or_restore (revocation : IO unit) (handle : bytes)
    (item : ActiveDynamicLease) : IO (result unit) :=
  revoked ← attempt revocation;
  match revoked with
  | Ok _ => mret (Ok ())
  | Err e => _ ← restore handle item; mret (Err e)
  end.

Definition with_lease (item : ActiveDynamicLease) (l : BackendLease) : ActiveDynamicLease :=
  {| lease_subject := lease_subject item; lease_profile := lease_profile item;
     lease_connector := lease_connector item; backend_lease := l |}.

Definition renew_profile_environment_lease (headers : HeaderMap) (handle : bytes)
    : IO ProfileEnvironmentLease :=
  identity ← authorize_connect headers;
  _ ← ensure (validate_dynamic_lease_handle handle);
  item ← take_for_subject handle (subject identity);
  item ← ensure (ok_or item "not_found: active dynamic lease not found");
  permitted ← context_of (profile_permitted (subject identity) (lease_profile item) Environment)
                "internal: managed store unavailable";
  if negb permitted then
    _ ← attempt (revoke_dynamic_lease item);
    ensure (Err "permission_denied: profile access is not granted")
  else
  match bt_get (connectors state) (lease_connector item) with
  | None =>
      _ ← restore handle item;
      ensure (Err "internal: profile connector unavailable")
  | Some connector =>
      if negb (lease_renewable (backend_lease item)) then
        _ ← attempt (connector_revoke env connector (backend_lease item));
        ensure (Err "failed_precondition: dynamic lease is not renewable")
      else
      '(renewed, l) ← connector_renew env connector (backend_lease item);
      let item := with_lease item l in
      match renewed with
      | Err _ =>
          _ ← revoke_or_restore (connector_revoke env connector (backend_lease item)) handle item;
          ensure (Err "internal: dynamic lease renewal failed")
      | Ok _ =>
          match dynamic_lease_expiry l with
          | Err _ =>
              _ ← revoke_or_restore (revoke_dynamic_lease item) handle item;
              ensure (Err "internal: dynamic lease expiry is invalid")
          | Ok expires =>
              audited ← attempt (audit_event (subject identity) &"profile_lease_renewed"
                                   (Some (lease_profile item)) None None);
              match audited with
              | Err _ =>
                  _ ← attempt (revoke_dynamic_lease item);
                  ensure (Err "internal: audit persistence unavailable")
              | Ok _ =>
                  restored ← restore handle item;
                  if (restored : bool) then
                    mret {| pel_lease_id := handle; pel_expires_unix_seconds := expires;
                            pel_revoked := false |}
                  else
                    _ ← attempt (revoke_dynamic_lease item);
                    ensure (Err "internal: dynamic lease registry unavailable")
              end
          end
      end
  end.

Definition revoke_profile_environment_lease (headers : HeaderMap) (handle : bytes)
    : IO ProfileEnvironmentLease :=
  identity ← authorize_connect headers;
  _ ← ensure (validate_dynamic_lease_handle handle);
  item ← take_for_subject handle (subject identity);
  item ← ensure (ok_or item "not_found: active dynamic lease not found");
  revoked ← revoke_or_restore (revoke_dynamic_lease item) handle item;
  match revoked with
  | Err _ => ensure (Err "internal: dynamic lease revocation failed")
  | Ok _ =>
      _ ← context_of (audit_event (subject identity) &"profile_lease_revoked"
                        (Some (lease_profile item)) None None)
            "internal: audit persistence unavailable";
      mret {| pel_lease_id := handle; pel_expires_unix_seconds := 0; pel_revoked := true |}
  end.

Definition renew_registered_dynamic_lease (handle subject : bytes) : IO Z :=
  item ← take_for_subject handle subject;
  item ← ensure (ok_or item "active dynamic lease not found");
  match bt_get (connectors state) (lease_connector item) with
  | None =>
      _ ← restore handle item;
      ensure (Err "dynamic lease connector disappeared")
  | Some connector =>
      if negb (lease_renewable (backend_lease item)) then
        revoked ← revoke_or_restore (connector_revoke env connector (backend_lease item))
                    handle item;
        ensure (Err (if is_ok revoked then "dynamic lease is not renewable"
                     else "revoke non-renewable dynamic lease"))
      else
      '(renewed, l) ← connector_renew env connector (backend_lease item);
      let item := with_lease item l in
      match renewed with
      | Err _ =>
          _ ← revoke_or_restore (connector_revoke env connector (backend_lease item)) handle item;
          ensure (Err "renew dynamic proxy lease")
      | Ok _ =>
          match dynamic_lease_expiry l with
          | Err _ =>
              _ ← revoke_or_restore (revoke_dynamic_lease item) handle item;
              ensure (Err "renewed dynamic proxy lease expiry is invalid")
          | Ok _ =>
              restored ← restore handle item;
              if (restored : bool) then mret (expires_at l) else
              _ ← attempt (revoke_dynamic_lease item);
              ensure (Err "dynamic lease registry unavailable")
          end
      end
  end.

Definition revoke_registered_dynamic_lease (handle subject : bytes) : IO unit :=
  item ← take_for_subject handle subject;
  match item with
  | None => mret ()
  | Some item =>
      revoked ← revoke_or_restore (revoke_dynamic_lease item) handle item;
      ensure revoked
  end.

(** [DynamicLeaseOwner::renew], [::revoke] and [Drop]: a revoked owner forgets
    its handle, and dropping one that has a handle revokes it. *)
Definition owner_renew (o : DynamicLeaseOwner) : IO DynamicLeaseOwner :=
  expires ← renew_registered_dynamic_lease (owner_handle o) (owner_subject o);
  mret {| owner_handle := owner_handle o; owner_subject := owner_subject o;
          owner_expires_at := expires |}.
Definition owner_drop (o : DynamicLeaseOwner) : IO unit :=
  if is_empty (owner_handle o) then mret () else
  _ ← attempt (revoke_registered_dynamic_lease (owner_handle o) (owner_subject o)); mret ().
Definition owner_revoke (o : DynamicLeaseOwner) : IO unit :=
  revoked ← attempt (revoke_registered_dynamic_lease (owner_handle o) (owner_subject o));
  match revoked with
  | Ok _ => owner_drop {| owner_handle := []; owner_subject := owner_subject o;
                          owner_expires_at := owner_expires_at o |}
  | Err e => _ ← owner_drop o; ensure (Err e)
  end.
End Handlers.
End Leases.
