(* ===== verification/LeaseProps.v ===== *)
(** LeaseProps: what happens to a registered dynamic lease.

    A lease that the registry holds stays there, is confirmed revoked by its
    backend, or expires, whatever the outside world answers; the one exception is
    the renewal handler for environment leases. *)

From Stdlib Require Import Ascii String.
From stdpp Require Import base list strings gmap.
From S2P Require Import Prelude Str BTree External Models Database Store Auth Connector ConnectorFacts Leases.

Section Facts.
Context {HL : HeaderLib} {EL : EncodingLib} {JL : JwtLib} {PL : PasswordLib} {BL : BackendLib}.
Context (env : Outside) (state : AppState).
#[local] Abbreviation IO := (io ServerData).
#[local] Abbreviation W := (world ServerData).
Implicit Types (w : W) (h handle : bytes) (item : ActiveDynamicLease).

Definition leases w : gmap bytes ActiveDynamicLease := active (server w).

(** ** Which handles a computation may touch *)

(** Only the entries in [P] change. *)
Definition affects {A} (P : bytes -> Prop) (m : IO A) : Prop := forall w,
  (forall h, ~ P h -> leases (m w).2 !! h = leases w !! h) /\ later w (m w).2.

(** No entry changes. *)
Definition idle {A} (m : IO A) : Prop := forall w,
  leases (m w).2 = leases w /\ later w (m w).2.

Lemma idle_quiet {A} (m : IO A) : quiet m -> idle m.
Proof. intros Hm w. destruct (Hm w) as [Hs Hl]. unfold leases. by rewrite Hs. Qed.
Lemma idle_affects {A} P (m : IO A) : idle m -> affects P m.
Proof. intros Hm w. destruct (Hm w) as [-> Hl]. done. Qed.
Lemma idle_bind {A B} (m : IO A) (f : A -> IO B) :
  idle m -> (forall a, idle (f a)) -> idle (m ≫= f).
Proof.
  intros Hm Hf w. destruct (Hm w) as [Ha Hl]. unfold mbind, io_bind.
  destruct (m w) as [[a|e] w1]; simpl in *; [|done].
  destruct (Hf a w1) as [Ha' Hl']. split; [congruence|]. by transitivity w1.
Qed.
Lemma idle_attempt {A} (m : IO A) : idle m -> idle (attempt m).
Proof. intros Hm w. specialize (Hm w). unfold attempt. by destruct (m w). Qed.
Lemma idle_context {A} (m : IO A) msg : idle m -> idle (context_of m msg).
Proof. intros Hm w. specialize (Hm w). unfold context_of. by destruct (m w). Qed.
Lemma idle_with_store {A} (m : DB A) : idle (with_store m).
Proof.
  intros w. unfold with_store. destruct (m (database (server w))). split; [done|].
  solve_later.
Qed.
Lemma idle_authorize_connect headers : idle (authorize_connect env state headers).
Proof.
  intros w. unfold authorize_connect. destruct (authorize _ _ _ _ _) as [m k].
  destruct (m (database (server w))) as [r db]. split; [done|]. solve_later.
Qed.
Lemma idle_get_active : idle get_active.
Proof. intros w. split; [done|]. solve_later. Qed.

Lemma affects_bind {A B} P (m : IO A) (f : A -> IO B) :
  affects P m -> (forall a, affects P (f a)) -> affects P (m ≫= f).
Proof.
  intros Hm Hf w. destruct (Hm w) as [Ha Hl]. unfold mbind, io_bind.
  destruct (m w) as [[a|e] w1]; simpl in *; [|done].
  destruct (Hf a w1) as [Ha' Hl']. split; [|by transitivity w1].
  intros h Hh. by rewrite Ha', Ha.
Qed.
Lemma affects_attempt {A} P (m : IO A) : affects P m -> affects P (attempt m).
Proof. intros Hm w. specialize (Hm w). unfold attempt. by destruct (m w). Qed.

Lemma idle_revoke item : idle (revoke_dynamic_lease env state item).
Proof.
  apply idle_quiet. unfold revoke_dynamic_lease.
  apply quiet_bind; [auto with av|intros; apply quiet_connector_revoke].
Qed.
Lemma idle_connector_revoke c l : idle (connector_revoke env c l).
Proof. apply idle_quiet, quiet_connector_revoke. Qed.
Lemma idle_connector_renew c l : idle (connector_renew env c l).
Proof. apply idle_quiet, quiet_connector_renew. Qed.
Lemma idle_audit actor action p r e : idle (audit_event state actor action p r e).
Proof. unfold audit_event. case_match; [apply idle_with_store|apply idle_quiet; auto with av]. Qed.
Lemma idle_permitted s p m : idle (profile_permitted state s p m).
Proof.
  unfold profile_permitted. case_match; [apply idle_with_store|apply idle_quiet; auto with av].
Qed.
Lemma idle_acquire_secrets p : idle (acquire_secrets env state p).
Proof.
  apply idle_quiet. unfold acquire_secrets.
  do 3 (apply quiet_bind; [auto with av|intros ?]). apply quiet_connector_acquire.
Qed.
Lemma idle_ensure {A} (r : result A) : idle (ensure r).
Proof. apply idle_quiet; auto with av. Qed.
Lemma idle_ret {A} (a : A) : idle (mret a).
Proof. apply idle_quiet; auto with av. Qed.
End Facts.

#[export] Hint Resolve idle_revoke idle_connector_revoke idle_connector_renew idle_audit
  idle_permitted idle_acquire_secrets idle_ensure idle_ret idle_with_store
  idle_authorize_connect idle_get_active : av.

Ltac solve_idle :=
  repeat first
    [ solve [auto with av] | apply idle_bind; [|intros ?] | apply idle_attempt
    | apply idle_context | case_match ].

Section Fates.
Context {HL : HeaderLib} {EL : EncodingLib} {JL : JwtLib} {PL : PasswordLib} {BL : BackendLib}.
Context (env : Outside) (state : AppState).
#[local] Abbreviation IO := (io ServerData).
#[local] Abbreviation W := (world ServerData).
Implicit Types (w start now : W) (h handle : bytes) (item : ActiveDynamicLease).

(** ** The registry's own operations *)

Lemma get_active_run w : get_active w = (Ok (leases w), w).
Proof. done. Qed.
Lemma set_active_run m w :
  exists w', set_active m w = (Ok (), w') /\ leases w' = m /\ exchanges w' = exchanges w
             /\ calls w' = calls w.
Proof. by eexists. Qed.

(** Taking a lease: nothing happens, or the caller's live lease leaves the
    registry. *)
Lemma take_spec handle subject w :
  exists o w', take_for_subject env handle subject w = (Ok o, w')
    /\ later w w'
    /\ match o with
       | None => leases w' = leases w
       | Some item =>
           leases w !! handle = Some item /\ lease_subject item = subject
           /\ leases w' = delete handle (leases w)
       end.
Proof.
  unfold take_for_subject, get_active, get_server, mbind, io_bind, mret, io_ret.
  fold (leases w). destruct (leases w !! handle) as [item|] eqn:E; [|by eexists None, _].
  case_bool_decide as Hs; [|by eexists None, _]. unfold system_now, outside. simpl.
  assert (later w (tick w)) as Ht by solve_later.
  destruct (expires_at (backend_lease item) <=? _)%Z; [by eexists None, _|].
  eexists (Some item), _. by split_and!.
Qed.

Lemma take_run handle subject item w :
  leases w !! handle = Some item -> lease_subject item = subject ->
  (system_time env (calls w) < expires_at (backend_lease item))%Z ->
  exists w', take_for_subject env handle subject w = (Ok (Some item), w')
    /\ leases w' = delete handle (leases w) /\ exchanges w' = exchanges w
    /\ database (server w') = database (server w).
Proof.
  intros Hh Hs He. unfold take_for_subject. rewrite (io_bind_run _ _ _ _ _ (get_active_run w)).
  rewrite Hh, bool_decide_eq_true_2 by done. cbn [negb].
  erewrite io_bind_run by reflexivity. rewrite (proj2 (Z.leb_gt _ _)) by done. by eexists.
Qed.

(** Looking for a handle only draws random values. *)
Lemma select_handle_spec n m w :
  exists o w', select_handle env n m w = (Ok o, w')
    /\ server w' = server w /\ later w w'
    /\ forall handle, o = Some handle -> m !! handle = None.
Proof.
  revert w. induction n as [|n IH]; intros w; [by eexists None, _|].
  cbn [select_handle]. unfold mbind at 1, io_bind at 1. unfold outside at 1.
  assert (later w (tick w)) as Ht by solve_later.
  set (handle := _ ++ _). case_bool_decide as Hs.
  - destruct (IH (tick w)) as (o & w' & -> & ? & ? & ?). exists o, w'. split_and!; [done..| |done].
    by transitivity (tick w).
  - eexists (Some handle), _. split_and!; [done..|]. intros h [= <-].
    by apply eq_None_not_Some.
Qed.

(** Inserting: expired leases leave, the others stay, and the new one gets a
    handle that was free; the bound holds afterwards. *)
Lemma insert_spec item w :
  exists o w', registry_insert env item w = (Ok o, w')
    /\ later w w' /\ calls w < calls w'
    /\ let kept := filter (fun kv =>
                     (system_time env (calls w) < expires_at (backend_lease kv.2))%Z) (leases w) in
       match o with
       | inr item' => item' = item /\ leases w' = kept
       | inl handle => kept !! handle = None /\ leases w' = <[handle := item]> kept
                       /\ size kept < MAX_ACTIVE_DYNAMIC_LEASES
       end.
Proof.
  unfold registry_insert. rewrite (io_bind_run _ _ _ _ _ (get_active_run w)).
  erewrite io_bind_run by reflexivity. cbv zeta. set (kept := filter _ _).
  destruct (set_active_run kept (tick w)) as (w1 & Hr1 & Hw1 & He1 & Hc1).
  rewrite (io_bind_run _ _ _ _ _ Hr1). simpl in Hc1.
  assert (later w w1) as H1 by (apply later_same; [lia|done]).
  destruct (Nat.leb_spec MAX_ACTIVE_DYNAMIC_LEASES (size kept)) as [|Hlt].
  { exists (inr item), w1. split_and!; [done..|lia|done|done]. }
  destruct (select_handle_spec 8 kept w1) as (o & w2 & Hr2 & Hs2 & H2 & Hfree).
  rewrite (io_bind_run _ _ _ _ _ Hr2). pose proof (proj1 H2). destruct o as [handle|].
  - destruct (set_active_run (<[handle := item]> kept) w2) as (w3 & Hr3 & Hw3 & He3 & Hc3).
    rewrite (io_bind_run _ _ _ _ _ Hr3).
    assert (later w2 w3) as H3 by (apply later_same; [lia|done]).
    exists (inl handle), w3. split_and!; [done| |lia|by auto..].
    transitivity w1; [done|]. by transitivity w2.
  - exists (inr item), w2. split_and!; [done|by transitivity w1|lia|done|].
    unfold leases. by rewrite Hs2.
Qed.

(** ** What becomes of a lease *)

Definition same_item (a b : ActiveDynamicLease) : Prop :=
  lease_subject a = lease_subject b /\ lease_profile a = lease_profile b
  /\ lease_connector a = lease_connector b /\ same_lease (backend_lease a) (backend_lease b).

#[global] Instance same_item_equiv : Equivalence same_item.
Proof.
  split; unfold same_item.
  - intros a. by split_and!.
  - intros a b (? & ? & ? & ?). by split_and!.
  - intros a b c (? & ? & ? & Hab) (? & ? & ? & Hbc). split_and!; try congruence.
    by rewrite Hab.
Qed.

(** Between [start] and [now] the backend has confirmed the revocation of the lease. *)
Definition confirmed_revoked start item now : Prop :=
  exists c log, bt_get (connectors state) (lease_connector item) = Some c
    /\ exchanges now = exchanges start ++ log
    /\ revocation_confirmed c (backend_lease item) log.

(** What renewals at the lease's own connector, made between [start] and [now], have
    turned it into. *)
Inductive renewed start item now : ActiveDynamicLease -> Prop :=
| renewed_never : renewed start item now item
| renewed_again item' c r l w w' : renewed start item now item' ->
    bt_get (connectors state) (lease_connector item') = Some c ->
    later start w -> connector_renew env c (backend_lease item') w = (Ok (r, l), w') ->
    later w' now -> renewed start item now (with_lease item' l).

(** A clock reading between [start] and [now] was past the lease's expiry. *)
Definition expired start item now : Prop := exists n,
  calls start <= n < calls now /\ (expires_at (backend_lease item) <= system_time env n)%Z.

(** What has become of a lease that the registry held at [start]. *)
Inductive fate start handle item now : Prop :=
| Kept item' : leases now !! handle = Some item' -> renewed start item now item' ->
    fate start handle item now
| Revoked : confirmed_revoked start item now -> fate start handle item now
| Expired item' : renewed start item now item' -> expired start item' now ->
    fate start handle item now.

Lemma renewed_once item c r l w w' :
  bt_get (connectors state) (lease_connector item) = Some c ->
  connector_renew env c (backend_lease item) w = (Ok (r, l), w') ->
  renewed w item w' (with_lease item l).
Proof. intros Hc Hr. by apply (renewed_again w item w' item c r l w w' (renewed_never w item w')). Qed.
Lemma renewed_same start item now item' : renewed start item now item' -> same_item item item'.
Proof.
  induction 1 as [|item' c r l w w' _ IH _ _ Hr _]; [done|]. rewrite IH.
  split_and!; [done..|]. by eapply connector_renew_same.
Qed.
Lemma renewed_later start start' item now now' item' :
  renewed start item now item' -> later start' start -> later now now' ->
  renewed start' item now' item'.
Proof.
  intros H Hs Hn. induction H as [|item' c r l w w' _ IH Hc Hw Hr Hw']; [constructor|].
  eapply renewed_again; [done..| |done|]; [by transitivity start|by transitivity now].
Qed.
Lemma renewed_trans start item mid item' now item'' :
  later start mid -> later mid now ->
  renewed start item mid item' -> renewed mid item' now item'' -> renewed start item now item''.
Proof.
  intros Hs Hn H1. induction 1 as [|item'' c r l w w' _ IH Hc Hw Hr Hw'].
  - by eapply renewed_later.
  - eapply renewed_again; [done..| |done|done]. by transitivity mid.
Qed.
Lemma expired_later start start' item now now' :
  expired start item now -> later start' start -> later now now' -> expired start' item now'.
Proof. intros (n & Hr & He) [Hs _] [Hn _]. exists n. split; [lia|done]. Qed.

Lemma confirmed_revoked_later start start' item now now' :
  confirmed_revoked start item now -> later start' start -> later now now' ->
  confirmed_revoked start' item now'.
Proof.
  intros (c & log & Hc & Hlog & Hr) [_ [l Hl]] [_ [l' Hl']]. exists c, (l ++ log ++ l').
  split; [done|]. split; [by rewrite Hl', Hlog, Hl, !app_assoc|].
  destruct Hr as (rq & r & Hin & ?). exists rq, r. split; [set_solver|done].
Qed.
Lemma confirmed_revoked_same start item item' now :
  same_item item item' -> confirmed_revoked start item' now -> confirmed_revoked start item now.
Proof.
  intros (_ & _ & Hc & Hl) (c & log & Hg & Hlog & Hr). exists c, log. rewrite Hc.
  split_and!; [done..|]. by eapply revocation_confirmed_same.
Qed.

(** What a renewed lease meets later is what becomes of the lease. *)
Lemma fate_renewed start mid now handle item item' :
  later start mid -> later mid now ->
  renewed start item mid item' -> fate mid handle item' now -> fate start handle item now.
Proof.
  intros Hs Hn Hr [i Hi Hr'|Hv|i Hr' He].
  - eapply Kept; [done|]. by eapply renewed_trans.
  - apply Revoked. eapply confirmed_revoked_same; [by eapply renewed_same|].
    by eapply confirmed_revoked_later.
  - eapply Expired; [by eapply renewed_trans|]. by eapply expired_later.
Qed.

(** A lease that has left the registry without a word to its backend, and before its
    expiry, has none of these fates. *)
Lemma silent_loss_no_fate start now handle item :
  leases now !! handle = None -> exchanges now = exchanges start ->
  (forall n, calls start <= n < calls now ->
     (system_time env n < expires_at (backend_lease item))%Z) ->
  ~ fate start handle item now.
Proof.
  intros Hn He Hc.
  assert (forall item', renewed start item now item' -> backend_lease item' = backend_lease item) as Hr.
  { induction 1 as [|item' c r l w w' _ IH _ [_ [l1 H1]] Hr [_ [l2 H2]]]; [done|].
    destruct (connector_renew_asks _ _ _ _ _ _ _ Hr) as [-> |Hlt]; [done|].
    apply (f_equal length) in He. rewrite H2, length_app in He. rewrite H1, length_app in Hlt. lia. }
  intros [i Hi _|(c & log & _ & Hlog & rq & r & Hin & _)|i Hi (n & Hb & Hx)]; [congruence|..].
  - rewrite He in Hlog. apply (f_equal length) in Hlog. rewrite length_app in Hlog.
    destruct log; [by apply elem_of_nil in Hin|simpl in Hlog; lia].
  - rewrite (Hr i Hi) in Hx. specialize (Hc n Hb). lia.
Qed.

(** A computation that answers for a lease it has taken out of the registry: it
    puts the lease back or has its revocation confirmed. *)
Definition settled handle item w w' : Prop :=
  (leases w' = leases w /\ confirmed_revoked w item w')
  \/ exists item', renewed w item w' item' /\ leases w' = <[handle := item']> (leases w).

Definition settles {A} handle item (m : IO A) : Prop := forall w,
  leases w !! handle = None -> settled handle item w (m w).2 /\ later w (m w).2.

Lemma settled_after handle item w w1 w2 : leases w1 = leases w -> later w w1 -> later w1 w2 ->
  settled handle item w1 w2 -> settled handle item w w2.
Proof.
  intros Hl H1 H2 [[Hl' Hr]|(i & Hi & Hl')]; [left|right].
  - split; [congruence|]. by eapply confirmed_revoked_later.
  - exists i. split; [by eapply renewed_later|congruence].
Qed.

(** Nothing after it changes the outcome. *)
Lemma settles_then {A B} handle item (m : IO A) (f : A -> IO B) :
  settles handle item m -> (forall a, idle (f a)) -> settles handle item (m ≫= f).
Proof.
  intros Hm Hf w Hw. destruct (Hm w Hw) as [Hs Hlog]. unfold mbind, io_bind.
  destruct (m w) as [[a|e] w1]; simpl in *; [|done].
  destruct (Hf a w1) as [Hl Hlog']. split; [|by transitivity w1].
  unfold settled in *. rewrite Hl. destruct Hs as [[? ?]|(i & ? & ?)]; [left|right].
  - split; [done|]. by eapply confirmed_revoked_later.
  - exists i. split; [by eapply renewed_later|done].
Qed.

Lemma restore_run handle item w :
  leases w !! handle = None ->
  exists w', restore handle item w = (Ok true, w')
    /\ leases w' = <[handle := item]> (leases w) /\ later w w'.
Proof.
  intros Hn. unfold restore. rewrite (io_bind_run _ _ _ _ _ (get_active_run w)).
  rewrite bool_decide_eq_false_2 by (rewrite Hn; by intros [? [=]]).
  destruct (set_active_run (<[handle := item]> (leases w)) w) as (w' & Hr & ? & ? & Hc).
  rewrite (io_bind_run _ _ _ _ _ Hr). exists w'. split_and!; [done..|].
  apply later_same; [lia|done].
Qed.

Lemma settles_restore {B} handle item (f : bool -> IO B) :
  idle (f true) -> settles handle item (restore handle item ≫= f).
Proof.
  intros Hf w Hw. destruct (restore_run handle item w Hw) as (w1 & Hr & Hl & He).
  rewrite (io_bind_run _ _ _ _ _ Hr). destruct (Hf w1) as [Hl' Hlog].
  split; [|by transitivity w1]. right. exists item. split; [constructor|congruence].
Qed.

(** A revocation that reports success has been confirmed by the backend. *)
Definition revokes item (m : IO unit) : Prop :=
  idle m /\ forall w w', m w = (Ok (), w') -> confirmed_revoked w item w'.

Lemma revokes_dynamic item : revokes item (revoke_dynamic_lease env state item).
Proof.
  split; [apply idle_revoke|]. intros w w' H. unfold revoke_dynamic_lease in H. inv_io. inv_ok.
  destruct (connector_revoke_ok _ _ _ _ _ H) as (log & ? & ?). by eexists _, log.
Qed.
Lemma revokes_connector item c :
  bt_get (connectors state) (lease_connector item) = Some c ->
  revokes item (connector_revoke env c (backend_lease item)).
Proof.
  intros Hc. split; [apply idle_connector_revoke|]. intros w w' H.
  destruct (connector_revoke_ok _ _ _ _ _ H) as (log & ? & ?). by exists c, log.
Qed.

Lemma settles_revoke_or_restore handle item m :
  revokes item m -> settles handle item (revoke_or_restore m handle item).
Proof.
  intros [Hi Hr] w Hw. destruct (Hi w) as [Hl Hlog]. unfold revoke_or_restore.
  destruct (m w) as [r w1] eqn:E. simpl in *.
  rewrite (io_bind_run _ _ w r w1) by (unfold attempt; by rewrite E).
  destruct r as [[]|e].
  - split; [left|done]. split; [done|]. by eapply Hr.
  - destruct (settles_restore (B := result unit) handle item (fun _ => mret (Err e))
      (idle_ret _) w1) as [Hs Hlog']; [by rewrite Hl|].
    split; [by eapply settled_after|by transitivity w1].
Qed.

(** The part after the lease has been renewed or refused, shared by both
    renewals. *)
Lemma settles_renewal {A} handle item c (f : result unit * BackendLease -> IO A) :
  bt_get (connectors state) (lease_connector item) = Some c ->
  (forall r l, settles handle (with_lease item l) (f (r, l))) ->
  settles handle item (connector_renew env c (backend_lease item) ≫= f).
Proof.
  intros Hc Hf w Hw. destruct (idle_connector_renew env c (backend_lease item) w) as [Hl Hlog].
  destruct (total_connector_renew env c (backend_lease item) w) as [[r l] Ha].
  destruct (connector_renew env c (backend_lease item) w) as [o w1] eqn:E. simpl in *. subst.
  rewrite (io_bind_run _ _ _ _ _ E).
  destruct (Hf r l w1) as [Hs Hlog']; [by rewrite Hl|]. split; [|by transitivity w1].
  pose proof (renewed_once _ _ _ _ _ _ Hc E) as Hr.
  destruct Hs as [[Hl' Hv]|(i & Hi & Hl')]; [left|right].
  - split; [congruence|]. eapply confirmed_revoked_same; [by eapply renewed_same|].
    by eapply confirmed_revoked_later.
  - exists i. split; [|congruence]. by eapply renewed_trans; [exact Hlog|..].
Qed.

(** ** Operations keep every lease they do not settle *)

Definition keeps {A} (m : IO A) : Prop := forall w,
  (forall h item, leases w !! h = Some item -> fate w h item (m w).2) /\ later w (m w).2.

Lemma keeps_idle {A} (m : IO A) : idle m -> keeps m.
Proof.
  intros Hm w. destruct (Hm w) as [Hl He]. split; [|done]. intros h item Hh.
  eapply Kept; [by rewrite Hl|constructor].
Qed.

Lemma fate_mono h item w0 w w' :
  (forall i, leases w !! h = Some i -> fate w h i w') -> later w0 w -> later w w' ->
  fate w0 h item w -> fate w0 h item w'.
Proof.
  intros Hf H0 H1 [i Hi Hr|Hr|i Hr Hn].
  - eapply fate_renewed; [exact H0|exact H1|done|]. by apply Hf.
  - apply Revoked. by eapply confirmed_revoked_later.
  - eapply Expired; [by eapply renewed_later|by eapply expired_later].
Qed.

Lemma keeps_bind {A B} (m : IO A) (f : A -> IO B) :
  keeps m -> (forall a, keeps (f a)) -> keeps (m ≫= f).
Proof.
  intros Hm Hf w. destruct (Hm w) as [Hk Hlog]. unfold mbind, io_bind.
  destruct (m w) as [[a|e] w1]; simpl in *; [|done].
  destruct (Hf a w1) as [Hk' Hlog']. split; [|by transitivity w1].
  intros h item Hh. eapply (fate_mono h item w w1); [apply Hk'|done|done|by apply Hk].
Qed.

Lemma keeps_attempt {A} (m : IO A) : keeps m -> keeps (attempt m).
Proof. intros Hm w. specialize (Hm w). unfold attempt. by destruct (m w). Qed.

Lemma keeps_take {A} handle subject (f : option ActiveDynamicLease -> IO A) :
  idle (f None) -> (forall item, settles handle item (f (Some item))) ->
  keeps (take_for_subject env handle subject ≫= f).
Proof.
  intros Hn Hs w. destruct (take_spec handle subject w) as (o & w1 & Hr & He & Ho).
  rewrite (io_bind_run _ _ _ _ _ Hr). destruct o as [item|].
  - destruct Ho as (Hh & _ & Hl).
    destruct (Hs item w1) as [Hset Hlog]; [by rewrite Hl, lookup_delete_eq|].
    split; [|by transitivity w1]. intros h i Hi.
    destruct (decide (h = handle)) as [->|Hne].
    + simplify_eq. destruct Hset as [[_ Hrev]|(i' & Hi' & Hl')].
      * apply Revoked. by eapply confirmed_revoked_later.
      * eapply Kept; [|by eapply renewed_later]. by rewrite Hl', lookup_insert_eq.
    + eapply Kept; [|constructor]. destruct Hset as [[-> _]|(i' & _ & ->)];
        rewrite ?lookup_insert_ne, Hl, lookup_delete_ne by done; done.
  - destruct (Hn w1) as [Hl Hlog]. split; [|by transitivity w1].
    intros h i Hi. eapply Kept; [by rewrite Hl, Ho|constructor].
Qed.

Lemma keeps_take_or_fail {A} handle subject msg (g : ActiveDynamicLease -> IO A) :
  (forall item, settles handle item (g item)) ->
  keeps (o ← take_for_subject env handle subject; item ← ensure (ok_or o msg); g item).
Proof.
  intros Hg. apply keeps_take; [|exact Hg]. intros w. split; [done|]. solve_later.
Qed.

(** The common failure path of registration. *)
Lemma revoke_and_fail_run {A} item msg w :
  exists w', (_ ← attempt (revoke_dynamic_lease env state item); ensure (Err msg) : IO A) w
                   = (Err msg, w')
    /\ leases w' = leases w /\ later w w'.
Proof.
  destruct (idle_attempt _ (idle_revoke env state item) w) as [Hl Hlog].
  destruct (total_attempt (revoke_dynamic_lease env state item) w) as [r Hr].
  destruct (attempt (revoke_dynamic_lease env state item) w) as [r' w'] eqn:E. simpl in *. subst.
  rewrite (io_bind_run _ _ _ _ _ E). by exists w'.
Qed.

(** The entry stays as it is, or has expired. *)
Definition spared start h item w : Prop := leases w !! h = Some item \/ expired start item w.

Lemma spared_later start h item w w' : later w w' ->
  leases w' !! h = leases w !! h -> spared start h item w -> spared start h item w'.
Proof. intros Hl He [Hk|Hx]; [left; congruence|right]. by eapply expired_later. Qed.

(** A registered lease outlives another registration, or has expired. *)
Lemma insert_outlives item w :
  exists o w', registry_insert env item w = (Ok o, w') /\ later w w'
    /\ (forall h i, leases w !! h = Some i -> spared w h i w')
    /\ match o with
       | inr item' => item' = item
       | inl handle => forall i, leases w !! handle = Some i -> expired w i w'
       end.
Proof.
  destruct (insert_spec item w) as (o & w1 & Hr & He & Hlt & Ho). exists o, w1.
  split; [done|]. split; [done|]. cbv zeta in Ho. set (kept := filter _ _) in Ho.
  assert (forall h i, leases w !! h = Some i -> kept !! h = Some i \/ expired w i w1) as Hk.
  { intros h i Hi.
    destruct (Z.lt_ge_cases (system_time env (calls w)) (expires_at (backend_lease i)));
      [left; by apply map_lookup_filter_Some|right]. exists (calls w). split; [lia|done]. }
  destruct o as [handle|item'].
  - destruct Ho as (Hfree & Hl & _). split.
    + intros h i Hi. destruct (Hk h i Hi) as [Hin|]; [left|by right].
      rewrite Hl, lookup_insert_ne by congruence. done.
    + intros i Hi. destruct (Hk handle i Hi) as [Hin|]; [congruence|done].
  - destruct Ho as [-> Hl]. split; [|done]. intros h i Hi. unfold spared. rewrite Hl. by apply Hk.
Qed.

Lemma register_run subject name profile l invalid full w :
  exists r w', register_lease env state subject name profile l invalid full w = (r, w')
    /\ later w w' /\ (forall h i, leases w !! h = Some i -> spared w h i w')
    /\ forall handle e, r = Ok (handle, e) -> forall i, leases w !! handle = Some i ->
         expired w i w'.
Proof.
  unfold register_lease. set (item := Build_ActiveDynamicLease _ _ _ _).
  destruct (dynamic_lease_expiry l) as [expires|].
  - destruct (insert_outlives item w) as (o & w1 & Hr & He & Ho & Hfree).
    rewrite (io_bind_run _ _ _ _ _ Hr). destruct o as [handle|item'].
    + exists (Ok (handle, expires)), w1. split_and!; [done..|].
      by intros handle' e [= <- _].
    + destruct (revoke_and_fail_run (A := bytes * Z) item' full w1) as (w2 & -> & Hl & Hlog).
      exists (Err full), w2. split_and!; [done|by transitivity w1| |done].
      intros h i Hi. apply (spared_later w h i w1); [done|by rewrite Hl|by apply Ho].
  - destruct (revoke_and_fail_run (A := bytes * Z) item invalid w) as (w2 & -> & Hl & Hlog).
    exists (Err invalid), w2. split_and!; [done..| |done].
    intros h i Hi. left. by rewrite Hl.
Qed.

Lemma affects_take handle subject : affects (eq handle) (take_for_subject env handle subject).
Proof.
  intros w. destruct (take_spec handle subject w) as (o & w1 & -> & He & Ho). simpl. split.
  - intros h Hh. destruct o as [item|]; [|by rewrite Ho].
    destruct Ho as (_ & _ & ->). by rewrite lookup_delete_ne.
  - done.
Qed.

Lemma affects_restore handle item : affects (eq handle) (restore handle item).
Proof.
  intros w. unfold restore. rewrite (io_bind_run _ _ _ _ _ (get_active_run w)).
  case_bool_decide.
  - split; [done|]. solve_later.
  - destruct (set_active_run (<[handle := item]> (leases w)) w) as (w' & Hr & Hl & He & Hc).
    rewrite (io_bind_run _ _ _ _ _ Hr). simpl. split.
    + intros h Hh. by rewrite Hl, lookup_insert_ne.
    + apply later_same; [lia|done].
Qed.

Lemma register_spares {A} subject name profile l invalid full (f : bytes * Z -> IO A) w :
  (forall handle e, affects (eq handle) (f (handle, e))) ->
  let w' := ((register_lease env state subject name profile l invalid full ≫= f) w).2 in
  (forall h item, leases w !! h = Some item -> spared w h item w') /\ later w w'.
Proof.
  intros Hf. cbv zeta.
  destruct (register_run subject name profile l invalid full w)
    as (r & w1 & Hr & Hlog & Ho & Hfree).
  unfold mbind, io_bind. rewrite Hr. destruct r as [[handle e]|msg]; simpl; [|done].
  destruct (Hf handle e w1) as [Ha Hlog']. split; [|by transitivity w1].
  intros h item Hh. destruct (decide (handle = h)) as [->|Hne].
  - right. eapply expired_later; [by eapply Hfree|done..].
  - apply (spared_later w h item w1); [done|by apply Ha|by apply Ho].
Qed.

Lemma keeps_register {A} subject name profile l invalid full (f : bytes * Z -> IO A) :
  (forall handle e, affects (eq handle) (f (handle, e))) ->
  keeps (register_lease env state subject name profile l invalid full ≫= f).
Proof.
  intros Hf w. destruct (register_spares subject name profile l invalid full f w Hf) as [Hs He].
  split; [|done]. intros h item Hh.
  destruct (Hs h item Hh) as [Hk|Hn]; [eapply Kept|eapply Expired]; try done; constructor.
Qed.

(** ** The operations on leases *)

Inductive lease_op :=
| GetEnvironment (headers : HeaderMap) (profile executable : bytes)
| RenewEnvironment (headers : HeaderMap) (handle : bytes)
| RevokeEnvironment (headers : HeaderMap) (handle : bytes)
| AcquireOwned (name : bytes) (profile : ProfileConfig) (subject : bytes)
| FetchSecrets (profile : ProfileConfig)
| RenewOwned (handle subject : bytes)
| RevokeOwned (handle subject : bytes)
| DropOwner (owner : DynamicLeaseOwner)
(** anything else that happens to the store in between *)
| StoreMoves (db : Database.world Tables).

Definition run_lease_op (o : lease_op) : IO unit :=
  match o with
  | GetEnvironment headers p e => _ ← get_profile_environment env state headers p e; mret ()
  | RenewEnvironment headers h => _ ← renew_profile_environment_lease env state headers h; mret ()
  | RevokeEnvironment headers h =>
      _ ← revoke_profile_environment_lease env state headers h; mret ()
  | AcquireOwned name p s => _ ← acquire_owned_proxy_secrets env state name p s; mret ()
  | FetchSecrets p => _ ← fetch_secrets env state p; mret ()
  | RenewOwned h s => _ ← renew_registered_dynamic_lease env state h s; mret ()
  | RevokeOwned h s => revoke_registered_dynamic_lease env state h s
  | DropOwner owner => owner_drop env state owner
  | StoreMoves db => with_store (fun _ => (Ok (), db))
  end.
Definition run_lease_ops (ops : list lease_op) (w : W) : W :=
  foldl (fun w o => (run_lease_op o w).2) w ops.

Lemma keeps_then_ret {A B} (m : IO A) (b : B) : keeps m -> keeps (_ ← m; mret b).
Proof. intros Hm. apply keeps_bind; [done|]. intros. apply keeps_idle. auto with av. Qed.

Lemma keeps_after {A B} (m : IO A) (f : A -> IO B) :
  idle m -> (forall a, keeps (f a)) -> keeps (m ≫= f).
Proof. intros Hm. apply keeps_bind. by apply keeps_idle. Qed.

Lemma keeps_ret_bind {A B} (a : A) (f : A -> IO B) : keeps (f a) -> keeps (mret a ≫= f).
Proof. exact id. Qed.

Lemma settles_failure {A} handle item m msg :
  revokes item m ->
  settles handle item (_ ← revoke_or_restore m handle item; ensure (Err msg) : IO A).
Proof.
  intros Hm. apply settles_then; [by apply settles_revoke_or_restore|]. intros. auto with av.
Qed.

Lemma renew_registered_keeps h s : keeps (renew_registered_dynamic_lease env state h s).
Proof.
  unfold renew_registered_dynamic_lease. apply keeps_take_or_fail. intros item.
  destruct (bt_get (connectors state) (lease_connector item)) as [c|] eqn:Ec.
  - destruct (negb _).
    + apply settles_then; [by apply settles_revoke_or_restore, revokes_connector|].
      intros. auto with av.
    + apply settles_renewal; [done|]. intros [[]|e] l.
      * destruct (dynamic_lease_expiry l).
        -- apply settles_restore. auto with av.
        -- apply settles_failure, revokes_dynamic.
      * by apply settles_failure, revokes_connector.
  - apply settles_restore. auto with av.
Qed.

Lemma revoke_registered_keeps h s : keeps (revoke_registered_dynamic_lease env state h s).
Proof.
  unfold revoke_registered_dynamic_lease. apply keeps_take; [auto with av|]. intros item.
  apply settles_then; [apply settles_revoke_or_restore, revokes_dynamic|]. intros. auto with av.
Qed.

Lemma revoke_environment_keeps headers h :
  keeps (revoke_profile_environment_lease env state headers h).
Proof.
  unfold revoke_profile_environment_lease. apply keeps_after; [auto with av|intros identity].
  apply keeps_after; [auto with av|intros _]. apply keeps_take_or_fail. intros item.
  apply settles_then; [apply settles_revoke_or_restore, revokes_dynamic|].
  intros [[]|e]; solve_idle.
Qed.

Lemma affects_after_registration (identity : Identity) name exe lease_id expires vs :
  affects (eq lease_id) (
    audited ← attempt (audit_event state (subject identity) &"profile_lease" (Some name) None
                         (Some exe));
    match audited with
    | Err _ =>
        _ ← (if is_empty lease_id then mret () else
             item ← take_for_subject env lease_id (subject identity);
             match item with
             | Some item => _ ← attempt (revoke_dynamic_lease env state item); mret ()
             | None => mret ()
             end);
        ensure (Err "internal: audit persistence unavailable")
    | Ok _ =>
        mret {| env_values := vs; env_lease_id := lease_id;
                env_expires_unix_seconds := expires |}
    end).
Proof.
  apply affects_bind; [apply idle_affects; solve_idle|]. intros [[]|e];
    [apply idle_affects; solve_idle|].
  apply affects_bind; [|intros; apply idle_affects; solve_idle].
  destruct (is_empty lease_id); [apply idle_affects; solve_idle|].
  apply affects_bind; [apply affects_take|]. intros o. apply idle_affects. solve_idle.
Qed.

Lemma get_environment_keeps headers p e :
  keeps (get_profile_environment env state headers p e).
Proof.
  unfold get_profile_environment.
  do 5 (apply keeps_after; [solve_idle|intros ?]).
  apply keeps_after; [solve_idle|intros acquisition].
  destruct (lease acquisition) as [l|].
  - apply keeps_register. intros handle ex. apply affects_after_registration.
  - apply keeps_ret_bind, keeps_idle. cbn [is_empty]. solve_idle.
Qed.

Lemma acquire_owned_keeps name p s : keeps (acquire_owned_proxy_secrets env state name p s).
Proof.
  unfold acquire_owned_proxy_secrets. apply keeps_after; [auto with av|intros acquisition].
  destruct (lease acquisition) as [l|]; [|apply keeps_idle; auto with av].
  apply keeps_register. intros handle e. apply idle_affects. auto with av.
Qed.

Lemma fetch_secrets_idle p : idle (fetch_secrets env state p).
Proof. unfold fetch_secrets. solve_idle. Qed.

(** The renewal of environment leases is the one operation that can drop the
    lease it was called for. *)
Definition renews_environment (h : bytes) (o : lease_op) : Prop :=
  match o with RenewEnvironment _ h' => h' = h | _ => False end.

Lemma affects_revoke_or_restore handle item m :
  idle m -> affects (eq handle) (revoke_or_restore m handle item).
Proof.
  intros Hm. unfold revoke_or_restore. apply affects_bind; [apply idle_affects; solve_idle|].
  intros [|]; [apply idle_affects; solve_idle|].
  apply affects_bind; [apply affects_restore|intros; apply idle_affects; solve_idle].
Qed.

(** The structure of a handler gives the handle it touches. *)
#[local] Ltac solve_affects :=
  repeat first
    [ apply affects_revoke_or_restore; solve [auto with av]
    | apply affects_restore | apply affects_take | apply idle_affects; solve [solve_idle]
    | apply affects_bind; [|intros ?] | apply affects_attempt | case_match ].

Lemma renew_environment_affects headers h :
  affects (eq h) (renew_profile_environment_lease env state headers h).
Proof. unfold renew_profile_environment_lease. solve_affects. Qed.

Lemma lease_op_moves o :
  keeps (run_lease_op o)
  \/ exists h, renews_environment h o /\ affects (eq h) (run_lease_op o).
Proof.
  destruct o; simpl.
  - left. apply keeps_then_ret, get_environment_keeps.
  - right. exists handle. split; [done|].
    apply affects_bind; [apply renew_environment_affects|intros; apply idle_affects; auto with av].
  - left. apply keeps_then_ret, revoke_environment_keeps.
  - left. apply keeps_then_ret, acquire_owned_keeps.
  - left. apply keeps_then_ret, keeps_idle, fetch_secrets_idle.
  - left. apply keeps_then_ret, renew_registered_keeps.
  - left. apply revoke_registered_keeps.
  - left. unfold owner_drop. destruct (is_empty _); [apply keeps_idle; auto with av|].
    apply keeps_then_ret, keeps_attempt, revoke_registered_keeps.
  - left. apply keeps_idle. auto with av.
Qed.

Lemma lease_op_fate o w h item :
  ~ renews_environment h o -> leases w !! h = Some item -> fate w h item (run_lease_op o w).2.
Proof.
  intros Ho Hh. destruct (lease_op_moves o) as [Hk|(h' & Hr & Ha)]; [by apply Hk|].
  eapply Kept; [|constructor]. rewrite (proj1 (Ha w)); [done|]. by intros ->.
Qed.

Lemma lease_op_later o w : later w (run_lease_op o w).2.
Proof. destruct (lease_op_moves o) as [Hk|(h' & _ & Ha)]; [apply Hk|apply Ha]. Qed.
Lemma run_lease_ops_later ops w : later w (run_lease_ops ops w).
Proof.
  revert w. induction ops as [|o ops IH]; intros w; simpl; [done|].
  transitivity (run_lease_op o w).2; [apply lease_op_later|apply IH].
Qed.

(** ** Other subjects' leases *)

(** Who the operation acts for. *)
Definition actor (o : lease_op) (w : W) : option bytes :=
  match o with
  | GetEnvironment headers _ _ | RenewEnvironment headers _ | RevokeEnvironment headers _ =>
      match (authorize_connect env state headers w).1 with
      | Ok identity => Some (subject identity) | Err _ => None end
  | AcquireOwned _ _ s | RenewOwned _ s | RevokeOwned _ s => Some s
  | DropOwner owner => Some (owner_subject owner)
  | FetchSecrets _ | StoreMoves _ => None
  end.

Lemma take_spares {A} handle subject (f : option ActiveDynamicLease -> IO A) w h item :
  lease_subject item <> subject -> leases w !! h = Some item ->
  idle (f None) -> (forall i, affects (eq handle) (f (Some i))) ->
  leases ((take_for_subject env handle subject ≫= f) w).2 !! h = Some item.
Proof.
  intros Hs Hh Hn Hf. destruct (take_spec handle subject w) as (o & w1 & Hr & _ & Ho).
  rewrite (io_bind_run _ _ _ _ _ Hr). destruct o as [i|].
  - destruct Ho as (Hi & Hi' & Hl). assert (handle <> h) by congruence.
    rewrite (proj1 (Hf i w1)), Hl, lookup_delete_ne by done. done.
  - by rewrite (proj1 (Hn w1)), Ho.
Qed.

(** An authenticated handler that starts by taking a lease. *)
Lemma handler_spares {A} headers handle msg (g : Identity -> ActiveDynamicLease -> IO A) w h item :
  (forall identity, (authorize_connect env state headers w).1 = Ok identity ->
     lease_subject item <> subject identity) ->
  leases w !! h = Some item ->
  (forall identity i, affects (eq handle) (g identity i)) ->
  leases ((identity ← authorize_connect env state headers;
           _ ← ensure (validate_dynamic_lease_handle handle);
           o ← take_for_subject env handle (subject identity);
           i ← ensure (ok_or o msg);
           g identity i) w).2 !! h = Some item.
Proof.
  intros Hs Hh Hg. destruct (idle_authorize_connect env state headers w) as [Hl _].
  unfold mbind at 1, io_bind at 1.
  destruct (authorize_connect env state headers w) as [[identity|e] w1]; simpl in Hs, Hl;
    [|cbn [snd]; by rewrite Hl].
  unfold mbind at 1, io_bind at 1. unfold ensure at 1.
  destruct (validate_dynamic_lease_handle handle); [|cbn [snd]; by rewrite Hl].
  apply take_spares; [by apply Hs|by rewrite Hl| |exact (Hg identity)].
  intros w'. split; [done|]. solve_later.
Qed.

Lemma revoke_registered_spares handle s w h item :
  lease_subject item <> s -> leases w !! h = Some item ->
  leases (revoke_registered_dynamic_lease env state handle s w).2 !! h = Some item.
Proof.
  intros Hs Hh. unfold revoke_registered_dynamic_lease.
  apply take_spares; [done|done|auto with av|intros i; solve_affects].
Qed.

Lemma then_ret_world {A B} (m : IO A) (b : B) w : ((_ ← m; mret b) w).2 = (m w).2.
Proof. unfold mbind, io_bind. by destruct (m w) as [[]]. Qed.

Definition spares {A} (m : IO A) : Prop := forall w h item,
  leases w !! h = Some item -> spared w h item (m w).2.

Lemma spares_idle {A} (m : IO A) : idle m -> spares m.
Proof. intros Hm w h item Hh. left. by rewrite (proj1 (Hm w)). Qed.

Lemma spares_after {A B} (m : IO A) (f : A -> IO B) :
  idle m -> (forall a, spares (f a)) -> spares (m ≫= f).
Proof.
  intros Hm Hf w h item Hh. destruct (Hm w) as [Hl Ht]. unfold mbind, io_bind.
  destruct (m w) as [[a|e] w1]; simpl in *; [|left; by rewrite Hl].
  destruct (Hf a w1 h item) as [Hk|Hx]; [by rewrite Hl|by left|right].
  by eapply expired_later.
Qed.

Lemma spares_ret_bind {A B} (a : A) (f : A -> IO B) : spares (f a) -> spares (mret a ≫= f).
Proof. exact id. Qed.

Lemma get_environment_spares headers p e : spares (get_profile_environment env state headers p e).
Proof.
  unfold get_profile_environment. do 5 (apply spares_after; [solve_idle|intros ?]).
  apply spares_after; [solve_idle|intros acquisition].
  destruct (lease acquisition) as [l|].
  - intros w h item. apply register_spares. intros handle ex. apply affects_after_registration.
  - apply spares_ret_bind, spares_idle. cbn [is_empty]. solve_idle.
Qed.

Lemma acquire_owned_spares name p s : spares (acquire_owned_proxy_secrets env state name p s).
Proof.
  unfold acquire_owned_proxy_secrets. apply spares_after; [auto with av|intros acquisition].
  destruct (lease acquisition) as [l|]; [|apply spares_idle; auto with av].
  intros w h item. apply register_spares. intros handle e. apply idle_affects. auto with av.
Qed.

(** A subject cannot touch another subject's lease: an operation that does
    not act for the holder, also one that names the holder's handle, leaves the
    registry entry exactly as it was, unless the lease has expired. *)
Theorem lease_isolated o w h item :
  leases w !! h = Some item -> actor o w <> Some (lease_subject item) ->
  spared w h item (run_lease_op o w).2.
Proof.
  intros Hh Ha. destruct o; cbn [run_lease_op]; rewrite ?then_ret_world.
  - by apply get_environment_spares.
  - left. apply handler_spares; [|done|intros; solve_affects].
    intros identity Hid. simpl in Ha. rewrite Hid in Ha. congruence.
  - left. apply handler_spares; [|done|intros; solve_affects].
    intros identity Hid. simpl in Ha. rewrite Hid in Ha. congruence.
  - by apply acquire_owned_spares.
  - by apply (spares_idle _ (fetch_secrets_idle profile)).
  - left. unfold renew_registered_dynamic_lease.
    apply take_spares; [simpl in Ha; congruence|done| |intros i].
    + intros w'. split; [done|]. solve_later.
    + solve_affects.
  - left. apply revoke_registered_spares; [simpl in Ha; congruence|done].
  - left. unfold owner_drop. destruct (is_empty _); [done|]. rewrite then_ret_world.
    unfold attempt.
    pose proof (revoke_registered_spares (owner_handle owner) (owner_subject owner) w h item) as Hr.
    destruct (revoke_registered_dynamic_lease _ _ _ _ w). apply Hr; [simpl in Ha; congruence|done].
  - by left.
Qed.

(** No registered lease is lost: through any sequence of acquisitions,
    renewals, revocations and dropped owners, and whatever the clock, the store
    and the backends answer, a lease stays registered under its handle, or its
    backend has confirmed its revocation, or it has expired.  Left out is the
    renewal handler for environment leases on the lease itself. *)
Theorem leases_conserved ops w h item :
  Forall (fun o => ~ renews_environment h o) ops ->
  leases w !! h = Some item ->
  fate w h item (run_lease_ops ops w).
Proof.
  revert w item. induction ops as [|o ops IH]; intros w item Hops Hh; simpl.
  { eapply Kept; [done|constructor]. }
  apply Forall_cons in Hops as [Ho Hops].
  apply (fate_mono h item w (run_lease_op o w).2);
    [|apply lease_op_later|apply run_lease_ops_later|].
  - intros i. by apply IH.
  - by apply lease_op_fate.
Qed.

(** The renewal handler for environment leases loses the lease when the
    store cannot answer its permission query: the lease is no longer in the
    registry, so neither its holder nor the shutdown can revoke it, and no request
    has been sent to its backend. *)
Theorem environment_renewal_loses_lease headers handle w identity w1 item e db :
  authorize_connect env state headers w = (Ok identity, w1) ->
  validate_dynamic_lease_handle handle = Ok () ->
  leases w1 !! handle = Some item ->
  lease_subject item = subject identity ->
  (system_time env (calls w1) < expires_at (backend_lease item))%Z ->
  managed (auth state) = true ->
  profile_allowed_for (subject identity) (lease_profile item) Environment (database (server w1))
    = (Err e, db) ->
  let w' := (renew_profile_environment_lease env state headers handle w).2 in
  leases w' !! handle = None /\ exchanges w' = exchanges w.
Proof.
  intros Ha Hv Hh Hs Hexp Hm Hp. cbv zeta. unfold renew_profile_environment_lease.
  assert (exchanges w1 = exchanges w) as Hew.
  { revert Ha. unfold authorize_connect. destruct (authorize _ _ _ _ _) as [m k].
    destruct (m _) as [r d]. by intros [_ <-]%pair_equal_spec. }
  destruct (take_run handle (subject identity) item w1) as (w2 & Ht & Hl & Het & Hdb); try done.
  rewrite (io_bind_run _ _ _ _ _ Ha), Hv. erewrite io_bind_run by reflexivity.
  rewrite (io_bind_run _ _ _ _ _ Ht). erewrite io_bind_run by reflexivity.
  erewrite io_bind_err by (unfold context_of, profile_permitted, with_store; rewrite Hm, Hdb, Hp;
    reflexivity).
  cbn [snd]. unfold leases in *. cbn [server active exchanges]. rewrite Hl, Het, Hew.
  split; [apply lookup_delete_eq|done].
Qed.

(** ** The size of the registry *)

Definition within w : Prop := size (leases w) <= MAX_ACTIVE_DYNAMIC_LEASES.
Definition bounded {A} (m : IO A) : Prop := forall w, within w -> within (m w).2.

Lemma within_subset w w' : dom (leases w') ⊆ dom (leases w) -> within w -> within w'.
Proof. unfold within. intros Hd%subseteq_size. rewrite !size_dom in Hd. lia. Qed.

(** Where only [handle] is touched, no other handle can appear. *)
Lemma affects_dom {A} handle (m : IO A) w :
  affects (eq handle) m -> dom (leases (m w).2) ⊆ {[handle]} ∪ dom (leases w).
Proof.
  intros Hm h. rewrite !elem_of_union, elem_of_singleton, !elem_of_dom.
  destruct (decide (handle = h)) as [->|Hne]; [by left|]. rewrite (proj1 (Hm w)) by done. by right.
Qed.

Lemma bounded_idle {A} (m : IO A) : idle m -> bounded m.
Proof. intros Hm w Hw. unfold within. by rewrite (proj1 (Hm w)). Qed.
Lemma bounded_bind {A B} (m : IO A) (f : A -> IO B) :
  bounded m -> (forall a, bounded (f a)) -> bounded (m ≫= f).
Proof.
  intros Hm Hf w Hw. specialize (Hm w Hw). unfold mbind, io_bind.
  destruct (m w) as [[a|e] w1]; simpl in *; [by apply Hf|done].
Qed.
Lemma bounded_after {A B} (m : IO A) (f : A -> IO B) :
  idle m -> (forall a, bounded (f a)) -> bounded (m ≫= f).
Proof. intros Hm. apply bounded_bind. by apply bounded_idle. Qed.
Lemma bounded_ret_bind {A B} (a : A) (f : A -> IO B) : bounded (f a) -> bounded (mret a ≫= f).
Proof. exact id. Qed.

Lemma bounded_take {A} handle subject (f : option ActiveDynamicLease -> IO A) :
  idle (f None) -> (forall i, affects (eq handle) (f (Some i))) ->
  bounded (take_for_subject env handle subject ≫= f).
Proof.
  intros Hn Hf w Hw. destruct (take_spec handle subject w) as (o & w1 & Hr & _ & Ho).
  rewrite (io_bind_run _ _ _ _ _ Hr). destruct o as [i|].
  - destruct Ho as (Hi & _ & Hl). apply (within_subset w); [|done].
    rewrite (affects_dom _ _ w1 (Hf i)), Hl, dom_delete_L.
    assert (handle ∈ dom (leases w)) by (by apply elem_of_dom_2 in Hi). set_solver.
  - unfold within. by rewrite (proj1 (Hn w1)), Ho.
Qed.
Lemma bounded_take_or_fail {A} handle subject msg (g : ActiveDynamicLease -> IO A) :
  (forall i, affects (eq handle) (g i)) ->
  bounded (o ← take_for_subject env handle subject; item ← ensure (ok_or o msg); g item).
Proof.
  intros Hg. apply bounded_take; [|exact Hg]. intros w. split; [done|]. solve_later.
Qed.

Lemma insert_bounded item w :
  within w -> exists o w', registry_insert env item w = (Ok o, w') /\ within w'
    /\ match o with inl handle => handle ∈ dom (leases w') | inr _ => True end.
Proof.
  intros Hw. destruct (insert_spec item w) as (o & w' & Hr & _ & _ & Ho). exists o, w'.
  split; [done|]. cbv zeta in Ho. unfold within in *. destruct o as [handle|item'].
  - destruct Ho as (Hfree & -> & Hsize). rewrite map_size_insert_None by done.
    split; [lia|]. apply elem_of_dom. by rewrite lookup_insert_eq.
  - destruct Ho as [_ ->]. split; [|done].
    match goal with |- size ?m <= _ => assert (size m <= size (leases w)); [|lia] end.
    rewrite <- !size_dom. apply subseteq_size, dom_filter_subseteq.
Qed.

Lemma bounded_register {A} subject name profile l invalid full (f : bytes * Z -> IO A) :
  (forall handle e, affects (eq handle) (f (handle, e))) ->
  bounded (register_lease env state subject name profile l invalid full ≫= f).
Proof.
  intros Hf w Hw. unfold register_lease. set (item := Build_ActiveDynamicLease _ _ _ _).
  destruct (dynamic_lease_expiry l) as [expires|].
  - destruct (insert_bounded item w Hw) as (o & w1 & Hr & Hw1 & Hin).
    unfold mbind at 1, io_bind at 1. rewrite (io_bind_run _ _ _ _ _ Hr).
    destruct o as [handle|item'].
    + apply (within_subset w1); [|done]. unfold mret, io_ret.
      rewrite (affects_dom _ _ w1 (Hf handle expires)). set_solver.
    + destruct (revoke_and_fail_run (A := bytes * Z) item' full w1) as (w2 & -> & Hl & _).
      unfold within. simpl. by rewrite Hl.
  - unfold mbind at 1, io_bind at 1.
    destruct (revoke_and_fail_run (A := bytes * Z) item invalid w) as (w2 & -> & Hl & _).
    unfold within. simpl. by rewrite Hl.
Qed.

Lemma revoke_registered_bounded h s : bounded (revoke_registered_dynamic_lease env state h s).
Proof.
  unfold revoke_registered_dynamic_lease. apply bounded_take; [auto with av|intros i; solve_affects].
Qed.

Lemma bounded_then_ret {A B} (m : IO A) (b : B) : bounded m -> bounded (_ ← m; mret b).
Proof. intros Hm. apply bounded_bind; [done|]. intros. apply bounded_idle. auto with av. Qed.
Lemma bounded_attempt {A} (m : IO A) : bounded m -> bounded (attempt m).
Proof. intros Hm w Hw. specialize (Hm w Hw). unfold attempt. by destruct (m w). Qed.

Lemma lease_op_bounded o : bounded (run_lease_op o).
Proof.
  destruct o; cbn [run_lease_op].
  - apply bounded_then_ret. unfold get_profile_environment.
    do 5 (apply bounded_after; [solve_idle|intros ?]).
    apply bounded_after; [solve_idle|intros acquisition]. destruct (lease acquisition) as [l|].
    + apply bounded_register. intros. apply affects_after_registration.
    + apply bounded_ret_bind, bounded_idle. cbn [is_empty]. solve_idle.
  - apply bounded_then_ret. do 2 (apply bounded_after; [auto with av|intros ?]).
    apply bounded_take_or_fail. intros i. solve_affects.
  - apply bounded_then_ret. do 2 (apply bounded_after; [auto with av|intros ?]).
    apply bounded_take_or_fail. intros i. solve_affects.
  - apply bounded_then_ret, bounded_after; [auto with av|intros acquisition].
    destruct (lease acquisition); [|apply bounded_idle; auto with av].
    apply bounded_register. intros. apply idle_affects. auto with av.
  - apply bounded_then_ret, bounded_idle, fetch_secrets_idle.
  - apply bounded_then_ret, bounded_take_or_fail. intros i. solve_affects.
  - apply revoke_registered_bounded.
  - unfold owner_drop. destruct (is_empty _); [apply bounded_idle; auto with av|].
    apply bounded_then_ret, bounded_attempt, revoke_registered_bounded.
  - apply bounded_idle. auto with av.
Qed.

(** With requests served one at a time the registry never holds more than
    1024 leases. *)
Theorem registry_bounded ops w :
  size (leases w) <= MAX_ACTIVE_DYNAMIC_LEASES ->
  size (leases (run_lease_ops ops w)) <= MAX_ACTIVE_DYNAMIC_LEASES.
Proof.
  revert w. induction ops as [|o ops IH]; intros w Hw; simpl; [done|].
  apply IH. by apply lease_op_bounded.
Qed.
End Fates.

(** ** Witnesses: one registered OpenBao lease of an agent *)

Module LeaseModels.
Import Models AuthModels ConnectorModels.

Definition app : AppState := {|
  profiles := [(&"deploy", one_export)]; connectors := [(&"bao", bao)]; auth := authenticator |}.

Definition handle : bytes := &"av_lease_" ++ repeat "h"%char 43.
Definition item : ActiveDynamicLease := {|
  lease_subject := &"agent:bot"; lease_profile := &"deploy"; lease_connector := &"bao";
  backend_lease := OpenBao {| ob_id := &"lease-1"; ob_renewable := true;
    ob_expires_at := from_secs 3700; ob_renew_increment := from_secs 60 |} |}.
Definition holding (os : list outcome) : world ServerData := {|
  calls := 0; exchanges := []; tokens := ∅;
  server := {| active := {[handle := item]};
               database := {| tables := agent_tables; clock := Some 10%Z; outcomes := os |};
               keys := cold |} |}.
Definition as_agent : HeaderMap := [(&"authorization", &"Agent " ++ agent_token)].

(** Renewed, asked for by a stranger, then revoked. *)
Definition session : list lease_op :=
  [RenewOwned handle &"agent:bot"; RevokeOwned handle &"agent:eve";
   RevokeOwned handle &"agent:bot"].

Lemma leases_conserved_witness :
  fate (outside_world 200) app (holding []) handle item
    (run_lease_ops (outside_world 200) app session (holding []))
  /\ leases (run_lease_ops (outside_world 200) app session (holding [])) !! handle = None.
Proof.
  split; [|vm_compute; reflexivity].
  apply (leases_conserved (outside_world 200) app session (holding []) handle item).
  - repeat constructor; by intros ?.
  - reflexivity.
Defined.

Lemma lease_isolated_witness :
  spared (outside_world 200) (holding []) handle item
    (run_lease_op (outside_world 200) app (RevokeOwned handle &"agent:eve") (holding [])).2.
Proof. by apply lease_isolated. Defined.

Lemma environment_renewal_loses_lease_witness :
  let w' := (renew_profile_environment_lease (outside_world 200) app as_agent handle
               (holding [Succeeds; FailsBefore])).2 in
  leases w' !! handle = None /\ exchanges w' = [].
Proof.
  eapply (environment_renewal_loses_lease (outside_world 200) app as_agent handle
    (holding [Succeeds; FailsBefore]) {| subject := &"agent:bot" |} _ item);
    try reflexivity.
Defined.

Example lost_lease_has_no_fate :
  ~ fate (outside_world 200) app (holding [Succeeds; FailsBefore]) handle item
      (renew_profile_environment_lease (outside_world 200) app as_agent handle
         (holding [Succeeds; FailsBefore])).2.
Proof. apply silent_loss_no_fate; [vm_compute; reflexivity..|]. intros n _. reflexivity. Qed.

Lemma registry_bounded_witness :
  size (leases (run_lease_ops (outside_world 200) app session (holding [])))
  <= MAX_ACTIVE_DYNAMIC_LEASES.
Proof.
  apply registry_bounded. apply Nat.leb_le. reflexivity.
Defined.
End LeaseModels.
