(* ===== verification/Control.v ===== *)
(** Control: the control service (src/server.rs, [ConnectControlService]).

    Every RPC is a computation of Leases.v over the server's state: it
    authenticates the caller, checks the caller's role, validates the request,
    calls one store method and appends an audit event.  Errors carry the RPC
    status code as a prefix. *)

From Stdlib Require Import Ascii String.
From stdpp Require Import base list strings gmap.
From S2P Require Import Prelude Str BTree External Models Database Store StoreFacts Auth Connector Leases.

(** ** Request checks *)

Definition valid_basic_username (value : bytes) : bool :=
  negb (is_empty value) && (len value <=? 128)%Z && negb (contains ":" value)
  && negb (any_control value).

Definition valid_agent_name (value : bytes) : bool :=
  negb (is_empty value) && (len value <=? 128)%Z
  && forallb (fun byte => is_ascii_alphanumeric byte || one_of "-_" byte) value.

Definition valid_policy_subject (value : bytes) : bool :=
  negb (is_empty (trim value)) && (len value <=? 255)%Z && negb (any_control value).

Definition parse_grant_mode (value : bytes) : result GrantMode :=
  if bool_decide (value = []) || bool_decide (value = &"both") then Ok Both
  else if bool_decide (value = &"proxy") then Ok Proxy
  else if bool_decide (value = &"environment") then Ok Environment
  else Err "invalid_argument: profile grant mode must be both, proxy, or environment".

(** The [argon2] crate: the encoded hash of a password under the salt drawn at
    the given call. *)
Class Argon2Lib := { argon2_hash : nat -> bytes -> option bytes }.

(** ** Responses *)

Record RpcBasicUser := { rpc_username : bytes; rpc_user_enabled : bool }.
Record RpcAgent := { rpc_agent_name : bytes; rpc_agent_enabled : bool }.
Record AgentCredential := {
  credential_name : bytes; credential_token : bytes; credential_enabled : bool }.
Record RpcPrincipalRole := { rpc_role_subject : bytes; rpc_role : bytes }.
Record RpcAuditEvent := {
  rpc_created_unix_seconds : Z; rpc_actor : bytes; rpc_action : bytes;
  rpc_audit_profile : bytes; rpc_audit_route : bytes; rpc_executable_basename : bytes }.
Record RpcProfileGrant := {
  rpc_profile : bytes; rpc_grant_subject : bytes; rpc_mode : bytes; rpc_grant_expires : Z }.

(** ** Handlers *)

Section Control.
Context {HL : HeaderLib} {EL : EncodingLib} {JL : JwtLib} {PL : PasswordLib} {BL : BackendLib}
  {AL : Argon2Lib}.
Context (env : Outside) (state : AppState).
#[local] Abbreviation IO := (io ServerData).

(** [.map_err(f)?] *)
Definition map_err {A} (m : IO A) (f : string -> string) : IO A := fun w =>
  let '(r, w) := m w in
  (match r with Ok a => Ok a | Err e => Err (f e) end, w).
Definition error_contains (text e : string) : bool := is_some (String.index 0 text e).

Definition managed_store : result unit :=
  bail_if (negb (managed (auth state))) "failed_precondition: managed control plane is disabled".

(** [managed_store(state)?.method(..).await.map_err(..)?] *)
Definition store_call {A} (m : DB A) : IO A :=
  _ ← ensure managed_store;
  context_of (with_store m) "internal: managed store unavailable".

Definition require_owner (headers : HeaderMap) : IO Identity :=
  identity ← authorize_connect env state headers;
  owner ← store_call (is_owner (subject identity));
  _ ← ensure (bail_if (negb owner) "permission_denied: owner access required");
  mret identity.

Definition require_operator (headers : HeaderMap) : IO Identity :=
  identity ← authorize_connect env state headers;
  role ← store_call (principal_role (subject identity));
  _ ← ensure (bail_if (negb (can_operate role)) "permission_denied: operator access required");
  mret identity.

Definition require_auditor (headers : HeaderMap) : IO Identity :=
  identity ← authorize_connect env state headers;
  role ← store_call (principal_role (subject identity));
  _ ← ensure (bail_if (negb (can_audit role)) "permission_denied: auditor access required");
  mret identity.

Definition require_known_profile (profile : bytes) : result unit :=
  if bt_contains (profiles state) profile then Ok () else Err "not_found: profile not found".

(** The audit call every change ends with. *)
Definition audit_change (identity : Identity) (action : bytes) (profile : option bytes) : IO unit :=
  context_of (audit_event state (subject identity) action profile None None)
    "internal: audit persistence unavailable".

(** The token, and the digest the store keeps. *)
Definition mint_agent_token : IO (bytes * bytes) :=
  random ← outside (random_bytes env);
  let token := &"av_agent_" ++ base64_url_safe_no_pad random in
  mret (token, sha256_digest token).

Definition hash_basic_password (password : bytes) : IO bytes :=
  hash ← outside (fun n => argon2_hash n password);
  ensure (ok_or hash "internal: password hashing failed").

(** *** Basic users *)

Definition control_list_basic_users (headers : HeaderMap) : IO (list RpcBasicUser) :=
  _ ← require_operator headers;
  users ← store_call list_basic_users;
  mret ((fun '(u, e) => {| rpc_username := u; rpc_user_enabled := e |}) <$> users).

Definition control_upsert_basic_user (headers : HeaderMap) (username password : bytes)
    : IO RpcBasicUser :=
  identity ← require_operator headers;
  _ ← ensure (bail_if (negb (valid_basic_username username)) "invalid_argument: invalid Basic username");
  _ ← ensure (bail_if ((len password <? 12)%Z || (1024 <? len password)%Z)
        "invalid_argument: Basic passwords must be between 12 and 1024 characters");
  hash ← hash_basic_password password;
  _ ← store_call (upsert_basic_user username hash);
  _ ← audit_change identity &"basic_user_upsert" None;
  mret {| rpc_username := username; rpc_user_enabled := true |}.

Definition control_set_basic_user_enabled (headers : HeaderMap) (username : bytes) (enabled : bool)
    : IO RpcBasicUser :=
  identity ← require_operator headers;
  _ ← ensure (bail_if (negb (valid_basic_username username)) "invalid_argument: invalid Basic username");
  found ← store_call (set_basic_user_enabled username enabled);
  _ ← ensure (bail_if (negb found) "not_found: Basic user not found");
  _ ← audit_change identity (if enabled then &"basic_user_enabled" else &"basic_user_disabled") None;
  mret {| rpc_username := username; rpc_user_enabled := enabled |}.

(** *** Agents *)

Definition control_list_agents (headers : HeaderMap) : IO (list RpcAgent) :=
  _ ← require_operator headers;
  agents ← store_call list_agents;
  mret ((fun '(n, e) => {| rpc_agent_name := n; rpc_agent_enabled := e |}) <$> agents).

Definition control_create_agent (headers : HeaderMap) (name : bytes) : IO AgentCredential :=
  identity ← require_operator headers;
  _ ← ensure (bail_if (negb (valid_agent_name name)) "invalid_argument: invalid agent name");
  '(token, token_hash) ← mint_agent_token;
  _ ← ensure managed_store;
  _ ← map_err (with_store (create_agent name token_hash)) (fun e =>
        if String.prefix "duplicate key" e then "already_exists: agent already exists"
        else "internal: managed store unavailable")%string;
  _ ← audit_change identity &"agent_created" None;
  mret {| credential_name := name; credential_token := token; credential_enabled := true |}.

Definition control_rotate_agent (headers : HeaderMap) (name : bytes) : IO AgentCredential :=
  identity ← require_operator headers;
  _ ← ensure (bail_if (negb (valid_agent_name name)) "invalid_argument: invalid agent name");
  '(token, token_hash) ← mint_agent_token;
  found ← store_call (rotate_agent_token name token_hash);
  _ ← ensure (bail_if (negb found) "not_found: agent not found");
  _ ← audit_change identity &"agent_token_rotated" None;
  mret {| credential_name := name; credential_token := token; credential_enabled := true |}.

Definition control_set_agent_enabled (headers : HeaderMap) (name : bytes) (enabled : bool)
    : IO RpcAgent :=
  identity ← require_operator headers;
  _ ← ensure (bail_if (negb (valid_agent_name name)) "invalid_argument: invalid agent name");
  found ← store_call (set_agent_enabled name enabled);
  _ ← ensure (bail_if (negb found) "not_found: agent not found");
  _ ← audit_change identity (if enabled then &"agent_enabled" else &"agent_disabled") None;
  mret {| rpc_agent_name := name; rpc_agent_enabled := enabled |}.

Definition control_delete_agent (headers : HeaderMap) (name : bytes) : IO RpcAgent :=
  identity ← require_operator headers;
  _ ← ensure (bail_if (negb (valid_agent_name name)) "invalid_argument: invalid agent name");
  found ← store_call (delete_agent name);
  _ ← ensure (bail_if (negb found) "not_found: agent not found");
  _ ← audit_change identity &"agent_deleted" None;
  mret {| rpc_agent_name := name; rpc_agent_enabled := false |}.

(** *** Roles *)

Definition control_list_principal_roles (headers : HeaderMap) : IO (list RpcPrincipalRole) :=
  _ ← require_owner headers;
  roles ← store_call list_principal_roles;
  mret ((fun '(s, r) => {| rpc_role_subject := s; rpc_role := role_as_str r |}) <$> roles).

Definition control_set_principal_role (headers : HeaderMap) (principal role : bytes)
    : IO RpcPrincipalRole :=
  identity ← require_owner headers;
  _ ← ensure (bail_if (negb (valid_policy_subject principal)) "invalid_argument: invalid policy subject");
  role ← ensure (with_context (role_parse role)
           "invalid_argument: principal role must be owner, operator, auditor, or user");
  _ ← ensure managed_store;
  _ ← map_err (with_store (set_principal_role principal role)) (fun e =>
        if error_contains "last owner" e then "failed_precondition: cannot remove the last owner"
        else "internal: managed store unavailable")%string;
  _ ← audit_change identity &"principal_role_changed" None;
  mret {| rpc_role_subject := principal; rpc_role := role_as_str role |}.

(** *** Audit and grants *)

Definition control_list_audit_events (headers : HeaderMap) (limit : Z) : IO (list RpcAuditEvent) :=
  _ ← require_auditor headers;
  let limit := if (limit =? 0)%Z then 100%Z else limit in
  events ← store_call (list_audit_events limit);
  mret ((fun e => {| rpc_created_unix_seconds := created_unix_seconds e; rpc_actor := actor e;
                     rpc_action := action e; rpc_audit_profile := default [] (audit_profile e);
                     rpc_audit_route := default [] (audit_route e);
                     rpc_executable_basename := default [] (executable_basename e) |}) <$> events).

Definition control_list_profile_grants (headers : HeaderMap) (profile : bytes)
    : IO (list RpcProfileGrant) :=
  _ ← require_operator headers;
  _ ← ensure (require_known_profile profile);
  grants ← store_call (list_profile_grants profile);
  mret ((fun g => {| rpc_profile := pg_profile g; rpc_grant_subject := pg_subject g;
                     rpc_mode := mode_as_str (pg_mode g);
                     rpc_grant_expires := default 0%Z (pg_expires g) |}) <$> grants).

Definition control_grant_profile (headers : HeaderMap) (profile principal mode : bytes)
    (expires_unix_seconds : Z) : IO RpcProfileGrant :=
  identity ← require_operator headers;
  _ ← ensure (require_known_profile profile);
  _ ← ensure (bail_if (negb (valid_policy_subject principal)) "invalid_argument: invalid policy subject");
  mode ← ensure (parse_grant_mode mode);
  let expires := if negb (expires_unix_seconds =? 0)%Z then Some expires_unix_seconds else None in
  _ ← ensure managed_store;
  _ ← map_err (with_store (grant_profile_mode principal profile mode expires)) (fun e =>
        if error_contains "expiry must be in the future" e
        then "invalid_argument: profile grant expiry must be in the future"
        else "internal: managed store unavailable")%string;
  _ ← audit_change identity &"profile_grant" (Some profile);
  mret {| rpc_profile := profile; rpc_grant_subject := principal; rpc_mode := mode_as_str mode;
          rpc_grant_expires := default 0%Z expires |}.

Definition control_revoke_profile (headers : HeaderMap) (profile principal : bytes)
    : IO RpcProfileGrant :=
  identity ← require_operator headers;
  _ ← ensure (require_known_profile profile);
  _ ← ensure (bail_if (negb (valid_policy_subject principal)) "invalid_argument: invalid policy subject");
  found ← store_call (revoke_profile principal profile);
  _ ← ensure (bail_if (negb found) "not_found: profile grant not found");
  _ ← audit_change identity &"profile_grant_revoked" (Some profile);
  mret {| rpc_profile := profile; rpc_grant_subject := principal; rpc_mode := [];
          rpc_grant_expires := 0 |}.
End Control.
