(* ===== verification/ServiceFacts.v ===== *)
(** ServiceFacts: how a handler of the server acts on the store.

    A handler reads, then changes the tables through store methods.  [reads]
    computations leave them alone; [ends] is a postcondition on the tables,
    stated for success and failure alike, with one rule per kind of step. *)

From Stdlib Require Import Ascii String.
From stdpp Require Import base list strings gmap relations.
From S2P Require Import Prelude Str BTree External Models Database Store StoreFacts Auth Connector ConnectorFacts Leases Control.

(** ** Authentication only reads *)

Section Auth.
Context {HL : HeaderLib} {EL : EncodingLib} {JL : JwtLib} {PL : PasswordLib}.

Lemma agent_for_token_hash_readonly h : readonly (agent_for_token_hash h).
Proof. unfold agent_for_token_hash. case_match; [apply readonly_ret|apply readonly_query]. Qed.

Lemma authorize_agent_readonly a token : readonly (authorize_agent a token).
Proof.
  unfold authorize_agent. do 2 (apply readonly_bind; [apply readonly_lift|intros ?]).
  apply readonly_bind; [apply agent_for_token_hash_readonly|intros ?].
  apply readonly_bind; [apply readonly_lift|intros ?]. apply readonly_ret.
Qed.

Lemma authorize_basic_readonly a slot encoded : readonly (authorize_basic a slot encoded).
Proof.
  unfold authorize_basic. apply readonly_bind; [apply readonly_lift|intros [u p]].
  apply readonly_bind; [|intros ?; apply readonly_lift].
  destruct (managed a); [apply readonly_query|apply readonly_ret].
Qed.

Lemma authorize_readonly a now slot headers st : readonly (authorize a now slot headers st).1.
Proof.
  unfold authorize. case_match; [apply readonly_ret|].
  destruct (_ ≫= value_to_str) as [b|]; [|apply readonly_lift].
  assert (readonly (match strip_prefix &"Basic " b with
            | Some encoded => if basic_mode (auth_mode (config a)) then authorize_basic a slot encoded
                              else lift (Err "unsupported authentication scheme")
            | None => lift (Err "unsupported authentication scheme") end)) as Hb.
  { repeat case_match; (apply authorize_basic_readonly || apply readonly_lift). }
  destruct (strip_prefix &"Agent " b); [apply authorize_agent_readonly|].
  destruct (strip_prefix &"Bearer " b); [|done]. destruct (oidc_mode _); [|done].
  destruct (authorize_oidc _ _ _ _). apply readonly_lift.
Qed.
End Auth.

Lemma principal_role_readonly s : readonly (principal_role s).
Proof.
  unfold principal_role. apply readonly_bind; [apply readonly_query|intros [r|]];
    [apply readonly_lift|apply readonly_ret].
Qed.
Lemma is_owner_readonly s : readonly (is_owner s).
Proof.
  unfold is_owner. apply readonly_bind; [apply principal_role_readonly|intros ?].
  apply readonly_ret.
Qed.

(** ** The store through a handler *)

Section Service.
Context {HL : HeaderLib} {EL : EncodingLib} {JL : JwtLib} {PL : PasswordLib} {BL : BackendLib}.
Context (env : Outside) (state : AppState).
#[local] Abbreviation IO := (io ServerData).
#[local] Abbreviation W := (Connector.world ServerData).
Implicit Types w : W.

Definition store w : Database.world Tables := database (server w).
Definition tbl w : Tables := tables (store w).
Definition clk w : option Z := clock (store w).

Definition reads {A} (m : IO A) : Prop := forall w, tbl (m w).2 = tbl w /\ clk (m w).2 = clk w.

Lemma reads_bind {A B} (m : IO A) (f : A -> IO B) :
  reads m -> (forall a, reads (f a)) -> reads (m ≫= f).
Proof.
  intros Hm Hf w. destruct (Hm w) as [Ht Hc]. unfold mbind, io_bind.
  destruct (m w) as [[a|e] w1]; simpl in *; [|done]. destruct (Hf a w1). split; congruence.
Qed.
Lemma reads_quiet {A} (m : IO A) : quiet m -> reads m.
Proof. intros Hm w. destruct (Hm w) as [Hs _]. unfold tbl, clk, store. by rewrite Hs. Qed.
Lemma reads_ensure {A} (r : result A) : reads (ensure r).
Proof. done. Qed.
Lemma reads_ret {A} (a : A) : reads (mret a).
Proof. done. Qed.
Lemma reads_outside {A} (f : nat -> A) : reads (outside f).
Proof. done. Qed.
Lemma reads_context {A} (m : IO A) msg : reads m -> reads (context_of m msg).
Proof. intros Hm w. specialize (Hm w). unfold context_of. by destruct (m w). Qed.
Lemma reads_attempt {A} (m : IO A) : reads m -> reads (attempt m).
Proof. intros Hm w. specialize (Hm w). unfold attempt. by destruct (m w). Qed.
Lemma reads_map_err {A} (m : IO A) f : reads m -> reads (map_err m f).
Proof. intros Hm w. specialize (Hm w). unfold map_err. by destruct (m w). Qed.
Lemma reads_with_store {A} (m : DB A) : readonly m -> reads (with_store m).
Proof.
  intros Hm w. pose proof (readonly_effect m Hm (store w)) as Ht.
  pose proof (honest_clock m (readonly_honest m Hm) (store w)) as Hc.
  unfold with_store, tbl, clk in *. fold (store w). by destruct (m (store w)).
Qed.
Lemma reads_store_call {A} (m : DB A) : readonly m -> reads (store_call state m).
Proof.
  intros Hm. apply reads_bind; [apply reads_ensure|intros _].
  by apply reads_context, reads_with_store.
Qed.
Lemma reads_authorize_connect headers : reads (authorize_connect env state headers).
Proof.
  intros w. unfold authorize_connect.
  pose proof (authorize_readonly (auth state) (instant_time env (calls w))
    (if wait_permit env (S (calls w)) then Ok () else Err "Basic authentication queue timed out")
    headers (keys (server w))) as Hr.
  destruct (authorize _ _ _ _ _) as [m k]. simpl in Hr.
  pose proof (readonly_effect m Hr (store w)) as Ht.
  pose proof (honest_clock m (readonly_honest m Hr) (store w)) as Hc.
  unfold tbl, clk in *. fold (store w). by destruct (m (store w)).
Qed.

(** *** Running a store call *)

Lemma with_store_run {A} (m : DB A) w r db :
  m (store w) = (r, db) ->
  exists w', with_store m w = (r, w') /\ store w' = db /\ calls w' = calls w
             /\ exchanges w' = exchanges w /\ active (server w') = active (server w).
Proof. intros H. unfold with_store. fold (store w). rewrite H. by eexists. Qed.

(** [m] runs as the operation [o] does. *)
Definition runs {A} (m : DB A) (o : op) : Prop := forall db,
  (m db).2 = (run_op o db).2 /\ is_ok (m db).1 = is_ok (run_op o db).1.

Lemma runs_discard {A} (m : DB A) o : run_op o = discard m -> runs m o.
Proof.
  intros H db. rewrite H. unfold discard, mbind, db_bind. by destruct (m db) as [[]].
Qed.
Lemma runs_self (m : DB unit) o : run_op o = m -> runs m o.
Proof. intros H db. by rewrite H. Qed.

Lemma runs_effect {A} (m : DB A) o db :
  runs m o ->
  clock (m db).2 = clock db
  /\ (tables (m db).2 = tables db \/ effect o (clock db) (tables db) (tables (m db).2))
  /\ (is_ok (m db).1 = true -> effect o (clock db) (tables db) (tables (m db).2)).
Proof.
  intros Hm. destruct (Hm db) as [-> ->]. pose proof (run_op_atomic o) as Ha.
  split; [apply (honest_clock _ (atomic_honest _ Ha))|]. split.
  - destruct (atomic_effect _ Ha db) as [?|[[] He]]; [by left|right]. by apply run_op_effect.
  - intros Hok. destruct (run_op o db) as [[[]|] db'] eqn:E; [|done]. simpl.
    apply run_op_effect. pose proof (honest_result _ (atomic_honest _ Ha) db ()) as Hr.
    rewrite E in Hr. simpl in Hr. by apply Hr.
Qed.

(** ** Postconditions on the tables *)

Definition ends {A} (Q : result A -> Tables -> Prop) (m : IO A) w : Prop :=
  Q (m w).1 (tbl (m w).2).

Lemma ends_reads {A B} (Q : result B -> Tables -> Prop) (m : IO A) (f : A -> IO B) w :
  reads m -> (forall e, Q (Err e) (tbl w)) ->
  (forall a w1, m w = (Ok a, w1) -> tbl w1 = tbl w -> clk w1 = clk w -> ends Q (f a) w1) ->
  ends Q (m ≫= f) w.
Proof.
  intros Hm HQ Hf. destruct (Hm w) as [Ht Hc]. unfold ends, mbind, io_bind.
  destruct (m w) as [[a|e] w1]; simpl in *; [by apply Hf|by rewrite Ht].
Qed.

Lemma ends_with_store {A B} (Q : result B -> Tables -> Prop) (m : DB A) o (g : IO A -> IO A)
    (f : A -> IO B) w :
  runs m o ->
  (forall n w, (g n w).2 = (n w).2 /\ forall a, (g n w).1 = Ok a -> (n w).1 = Ok a) ->
  (forall e, Q (Err e) (tbl w)) ->
  (forall e t1, effect o (clk w) (tbl w) t1 -> Q (Err e) t1) ->
  (forall a w1, m (store w) = (Ok a, store w1) -> effect o (clk w) (tbl w) (tbl w1) ->
     clk w1 = clk w -> ends Q (f a) w1) ->
  ends Q (g (with_store m) ≫= f) w.
Proof.
  intros Hm Hg HQ Hfail Hf. destruct (Hg (with_store m) w) as [Hg2 Hg1].
  destruct (runs_effect m o (store w) Hm) as (Hc & Ht & Hok).
  destruct (m (store w)) as [r db] eqn:E.
  destruct (with_store_run m w r db E) as (w' & Hw & Hs & _).
  rewrite Hw in *. unfold ends, mbind, io_bind.
  destruct (g (with_store m) w) as [[a|e] w1]; simpl in *; subst w1.
  - specialize (Hg1 a eq_refl) as ->. apply Hf; unfold tbl, clk; rewrite ?Hs; auto.
  - unfold tbl in *. rewrite Hs. destruct Ht as [->|Ht]; auto.
Qed.

Lemma context_same msg {A} (n : IO A) w :
  (context_of n msg w).2 = (n w).2
  /\ forall a, (context_of n msg w).1 = Ok a -> (n w).1 = Ok a.
Proof. unfold context_of. by destruct (n w) as [[] ?]. Qed.
Lemma map_err_same f {A} (n : IO A) w :
  (map_err n f w).2 = (n w).2 /\ forall a, (map_err n f w).1 = Ok a -> (n w).1 = Ok a.
Proof. unfold map_err. by destruct (n w) as [[] ?]. Qed.

Lemma io_bind_assoc {A B C} (m : IO A) (f : A -> IO B) (g : B -> IO C) w :
  ((m ≫= f) ≫= g) w = (m ≫= fun a => f a ≫= g) w.
Proof. unfold mbind, io_bind. by destruct (m w) as [[] ?]. Qed.

Lemma ends_assoc {A B C} Q (m : IO A) (f : A -> IO B) (g : B -> IO C) w :
  ends Q (m ≫= fun a => f a ≫= g) w -> ends Q ((m ≫= f) ≫= g) w.
Proof. unfold ends. by rewrite io_bind_assoc. Qed.

Lemma ends_store_call {A B} (Q : result B -> Tables -> Prop) (m : DB A) o (f : A -> IO B) w :
  runs m o -> (forall e, Q (Err e) (tbl w)) ->
  (forall e t1, effect o (clk w) (tbl w) t1 -> Q (Err e) t1) ->
  (forall a w0 w1, m (store w0) = (Ok a, store w1) -> tbl w0 = tbl w ->
     effect o (clk w) (tbl w) (tbl w1) -> clk w1 = clk w -> ends Q (f a) w1) ->
  ends Q (store_call state m ≫= f) w.
Proof.
  intros Hm HQ Hfail Hf. unfold ends, store_call. rewrite io_bind_assoc.
  apply (ends_reads Q); [apply reads_ensure|done|]. intros [] w1 _ Ht Hc.
  apply (ends_with_store Q m o (fun n => context_of n _)); [done|apply context_same|..].
  all: rewrite ?Ht, ?Hc; eauto.
Qed.


(** The tables with one more audit event. *)
Definition audited (now : Z) (who act : bytes) (p r x : option bytes) (t : Tables) : Tables :=
  set_audit (fun events => events ++
    [{| created_unix_seconds := now; actor := who; action := act; audit_profile := p;
        audit_route := r; executable_basename := x |}]) t.

Lemma ends_audit {B} (Q : result B -> Tables -> Prop) id act p (b : B) w :
  managed (auth state) = true -> (forall e, Q (Err e) (tbl w)) ->
  (forall now r, clk w = Some now -> (forall b', r = Ok b' -> b' = b) ->
     Q r (audited now (subject id) act p None None (tbl w))) ->
  ends Q (_ ← audit_change state id act p; mret b) w.
Proof.
  intros Hm HQ Ha. unfold audit_change, audit_event. rewrite Hm.
  apply (ends_with_store Q _ (RecordAudit (subject id) act p None None)
           (fun n => context_of n _)).
  - by apply runs_self.
  - apply context_same.
  - done.
  - intros e t1 (now & Hc & ->). by apply (Ha now (Err e)).
  - intros [] w1 _ (now & Hc & Ht) _. unfold ends, mret, io_ret. cbn [fst snd]. rewrite Ht.
    apply (Ha now (Ok b)); [done|]. by intros b' [= ->].
Qed.

(** ** Who is asking *)

(** The caller proves an identity, or authentication is off. *)
Definition credential_for (headers : HeaderMap) w (id : Identity) : Prop :=
  (auth_mode (config (auth state)) = ModeDisabled /\ subject id = &"local-insecure")
  \/ exists text, hm_get headers (from_static &"authorization") ≫= value_to_str = Some text
       /\ proves (auth state) (tbl w) (keys (server w)) text (subject id).

Lemma authorize_connect_ok headers w id w1 :
  authorize_connect env state headers w = (Ok id, w1) -> credential_for headers w id.
Proof.
  unfold authorize_connect. set (slot := if wait_permit _ _ then _ else _).
  destruct (authorize _ _ _ _ _) as [m k] eqn:Em.
  destruct (m (store w)) as [r db] eqn:Er. fold (store w). rewrite Er. intros H.
  apply pair_equal_spec in H as [H _]. apply with_context_ok in H as ->.
  assert (((authorize (auth state) (instant_time env (calls w)) slot headers
              (keys (server w))).1 (store w)).1 = Ok id) as Hok by (rewrite Em; simpl; by rewrite Er).
  destruct (decide (auth_mode (config (auth state)) = ModeDisabled)) as [Hd|Hd].
  - left. split; [done|]. unfold authorize in Hok. rewrite bool_decide_eq_true_2 in Hok by done.
    unfold mret, db_ret in Hok. simpl in Hok. by injection Hok as <-.
  - right. by apply authorize_ok in Hok.
Qed.

(** The stored role of a principal; without a row it is a plain user. *)
Definition stored_role (t : Tables) (s : bytes) : result PrincipalRole :=
  match av_principal_roles t !! s with Some r => role_parse r | None => Ok User end.

Lemma principal_role_ok s db r db' :
  principal_role s db = (Ok r, db') -> stored_role (tables db) s = Ok r.
Proof.
  unfold principal_role, stored_role, query, statement, mbind, db_bind, lift, mret, db_ret. simpl.
  destruct (default Succeeds (head (outcomes db))); simpl;
    destruct (av_principal_roles (tables db) !! s); simpl; naive_solver.
Qed.

Definition authorised (allowed : PrincipalRole -> bool) (headers : HeaderMap) w (id : Identity)
    : Prop :=
  credential_for headers w id
  /\ exists role, stored_role (tbl w) (subject id) = Ok role /\ allowed role = true.

Lemma store_call_ok {A} (m : DB A) w a w1 :
  store_call state m w = (Ok a, w1) ->
  managed (auth state) = true /\ m (store w) = (Ok a, store w1).
Proof.
  unfold store_call, managed_store. intros H. inv_io. inv_ok. apply negb_false_iff in H0.
  split; [done|]. unfold context_of, with_store in H. fold (store w) in H.
  destruct (m (store w)) as [r db]. apply pair_equal_spec in H as [H <-].
  by apply with_context_ok in H as ->.
Qed.

Definition is_owner_role (r : PrincipalRole) : bool := bool_decide (r = Owner).

Lemma require_role_ok (allowed : PrincipalRole -> bool)
    (msg : string) headers w id w1 :
  (id ← authorize_connect env state headers;
   role ← store_call state (principal_role (subject id));
   _ ← ensure (bail_if (negb (allowed role)) msg);
   mret id) w = (Ok id, w1) ->
  managed (auth state) = true /\ authorised allowed headers w id.
Proof.
  intros H. inv_io. apply store_call_ok in H1 as [Hm Hr]. inv_ok.
  apply negb_false_iff in H2. split; [done|]. split.
  - by eapply authorize_connect_ok.
  - destruct (reads_authorize_connect headers w) as [Ht _]. rewrite H0 in Ht. simpl in Ht.
    apply principal_role_ok in Hr. unfold tbl in *. rewrite Ht in Hr. eauto.
Qed.
End Service.
