(* ===== verification/ControlFacts.v ===== *)
(** ControlFacts: the control service refines a role-gated, audited store. *)

From Stdlib Require Import Ascii String.
From stdpp Require Import base list strings gmap relations sorting.
From S2P Require Import Prelude Str BTree External Models Database Store StoreFacts StoreProps Auth Connector ConnectorFacts Leases LeaseProps Control ServiceFacts.

(** ** The specification *)

(** The RPCs of the service, with the fields of their requests. *)
Inductive ControlRequest :=
| ListBasicUsersRequest
| UpsertBasicUserRequest (username password : bytes)
| SetBasicUserEnabledRequest (username : bytes) (enabled : bool)
| ListAgentsRequest
| CreateAgentRequest (name : bytes)
| RotateAgentRequest (name : bytes)
| SetAgentEnabledRequest (name : bytes) (enabled : bool)
| DeleteAgentRequest (name : bytes)
| ListPrincipalRolesRequest
| SetPrincipalRoleRequest (principal role : bytes)
| ListAuditEventsRequest (limit : Z)
| ListProfileGrantsRequest (profile : bytes)
| GrantProfileRequest (profile principal mode : bytes) (expires : Z)
| RevokeProfileRequest (profile principal : bytes).

Inductive ControlResponse :=
| UsersListed (users : list RpcBasicUser)
| UserChanged (user : RpcBasicUser)
| AgentsListed (agents : list RpcAgent)
| CredentialIssued (credential : AgentCredential)
| AgentChanged (agent : RpcAgent)
| RolesListed (roles : list RpcPrincipalRole)
| RoleChanged (role : RpcPrincipalRole)
| EventsListed (events : list RpcAuditEvent)
| GrantsListed (grants : list RpcProfileGrant)
| GrantChanged (grant : RpcProfileGrant).

(** Roles are for owners, the audit log also for auditors, everything else for owners and
    operators. *)
Definition needs (rq : ControlRequest) : PrincipalRole -> bool :=
  match rq with
  | ListPrincipalRolesRequest | SetPrincipalRoleRequest _ _ => is_owner_role
  | ListAuditEventsRequest _ => can_audit
  | _ => can_operate
  end.

(** The audit event a request leaves. *)
Definition event_of (rq : ControlRequest) : bytes * option bytes :=
  match rq with
  | UpsertBasicUserRequest _ _ => (&"basic_user_upsert", None)
  | SetBasicUserEnabledRequest _ e =>
      (if e then &"basic_user_enabled" else &"basic_user_disabled", None)
  | CreateAgentRequest _ => (&"agent_created", None)
  | RotateAgentRequest _ => (&"agent_token_rotated", None)
  | SetAgentEnabledRequest _ e => (if e then &"agent_enabled" else &"agent_disabled", None)
  | DeleteAgentRequest _ => (&"agent_deleted", None)
  | SetPrincipalRoleRequest _ _ => (&"principal_role_changed", None)
  | GrantProfileRequest p _ _ _ => (&"profile_grant", Some p)
  | RevokeProfileRequest p _ => (&"profile_grant_revoked", Some p)
  | _ => ([], None)
  end.

Section Facts.
Context {HL : HeaderLib} {EL : EncodingLib} {JL : JwtLib} {PL : PasswordLib} {BL : BackendLib}
  {AL : Argon2Lib}.
Context (env : Outside) (state : AppState).
#[local] Abbreviation IO := (io ServerData).
#[local] Abbreviation W := (Connector.world ServerData).
Implicit Types (w : W) (rq : ControlRequest).

(** The token that the n-th answer of the outside makes. *)
Definition agent_token (n : nat) : bytes :=
  &"av_agent_" ++ base64_url_safe_no_pad (random_bytes env n).

(** The store operation that a well-formed request asks for, and what the caller is told
    when it has been made.  The hash of a password is that of the password given, and the
    digest stored for an agent is that of the token the caller receives. *)
Inductive performs : ControlRequest -> op -> ControlResponse -> Prop :=
| performs_upsert u p n h : valid_basic_username u = true -> (12 <= len p <= 1024)%Z ->
    argon2_hash n p = Some h ->
    performs (UpsertBasicUserRequest u p) (UpsertBasicUser u h)
      (UserChanged {| rpc_username := u; rpc_user_enabled := true |})
| performs_enable_user u e : valid_basic_username u = true ->
    performs (SetBasicUserEnabledRequest u e) (SetBasicUserEnabled u e)
      (UserChanged {| rpc_username := u; rpc_user_enabled := e |})
| performs_create name n : valid_agent_name name = true ->
    performs (CreateAgentRequest name) (CreateAgent name (sha256_digest (agent_token n)))
      (CredentialIssued {| credential_name := name; credential_token := agent_token n;
                           credential_enabled := true |})
| performs_rotate name n : valid_agent_name name = true ->
    performs (RotateAgentRequest name) (RotateAgentToken name (sha256_digest (agent_token n)))
      (CredentialIssued {| credential_name := name; credential_token := agent_token n;
                           credential_enabled := true |})
| performs_enable_agent name e : valid_agent_name name = true ->
    performs (SetAgentEnabledRequest name e) (SetAgentEnabled name e)
      (AgentChanged {| rpc_agent_name := name; rpc_agent_enabled := e |})
| performs_delete name : valid_agent_name name = true ->
    performs (DeleteAgentRequest name) (DeleteAgent name)
      (AgentChanged {| rpc_agent_name := name; rpc_agent_enabled := false |})
| performs_role s r role : valid_policy_subject s = true -> role_parse r = Ok role ->
    performs (SetPrincipalRoleRequest s r) (SetPrincipalRole s role)
      (RoleChanged {| rpc_role_subject := s; rpc_role := role_as_str role |})
| performs_grant p s m mode x : bt_contains (profiles state) p = true ->
    valid_policy_subject s = true -> parse_grant_mode m = Ok mode ->
    performs (GrantProfileRequest p s m x)
      (GrantProfileMode s p mode (if (x =? 0)%Z then None else Some x))
      (GrantChanged {| rpc_profile := p; rpc_grant_subject := s; rpc_mode := mode_as_str mode;
                       rpc_grant_expires := x |})
| performs_revoke p s : bt_contains (profiles state) p = true -> valid_policy_subject s = true ->
    performs (RevokeProfileRequest p s) (RevokeProfile s p)
      (GrantChanged {| rpc_profile := p; rpc_grant_subject := s; rpc_mode := [];
                       rpc_grant_expires := 0 |}).

(** What a listing shows of the tables. *)
Inductive lists (t : Tables) : ControlRequest -> ControlResponse -> Prop :=
| lists_users : lists t ListBasicUsersRequest (UsersListed
    ((fun '(u, row) => {| rpc_username := u; rpc_user_enabled := user_enabled row |})
       <$> order_by fst (map_to_list (av_basic_users t))))
| lists_agents : lists t ListAgentsRequest (AgentsListed
    ((fun '(n, row) => {| rpc_agent_name := n; rpc_agent_enabled := agent_enabled row |})
       <$> order_by fst (map_to_list (av_agents t))))
| lists_roles roles :
    Forall2 (fun row r => r.1 = row.1 /\ role_parse row.2 = Ok r.2)
      (order_by fst (map_to_list (av_principal_roles t))) roles ->
    lists t ListPrincipalRolesRequest (RolesListed
      ((fun '(s, r) => {| rpc_role_subject := s; rpc_role := role_as_str r |}) <$> roles))
| lists_events limit :
    lists t (ListAuditEventsRequest limit) (EventsListed
      ((fun e => {| rpc_created_unix_seconds := created_unix_seconds e; rpc_actor := Store.actor e;
                    rpc_action := action e; rpc_audit_profile := default [] (audit_profile e);
                    rpc_audit_route := default [] (audit_route e);
                    rpc_executable_basename := default [] (executable_basename e) |})
         <$> take (Z.to_nat (clamp 1 500 (if (limit =? 0)%Z then 100 else limit)))
               (merge_sort newest_first (av_audit_events t))))
| lists_grants p grants : bt_contains (profiles state) p = true ->
    Forall2 (fun row g => profile_grant_of row.1.1 p row.2 = Ok g)
      (order_by (fun r => r.1.1)
        (map_to_list (filter (fun kv => kv.1.2 = p) (av_capability_grants t)))) grants ->
    lists t (ListProfileGrantsRequest p) (GrantsListed
      ((fun g => {| rpc_profile := pg_profile g; rpc_grant_subject := pg_subject g;
                    rpc_mode := mode_as_str (pg_mode g);
                    rpc_grant_expires := default 0%Z (pg_expires g) |}) <$> grants)).

(** The handler of a request. *)
Definition handle rq (headers : HeaderMap) : IO ControlResponse :=
  match rq with
  | ListBasicUsersRequest => r ← control_list_basic_users env state headers; mret (UsersListed r)
  | UpsertBasicUserRequest u p =>
      r ← control_upsert_basic_user env state headers u p; mret (UserChanged r)
  | SetBasicUserEnabledRequest u e =>
      r ← control_set_basic_user_enabled env state headers u e; mret (UserChanged r)
  | ListAgentsRequest => r ← control_list_agents env state headers; mret (AgentsListed r)
  | CreateAgentRequest n => r ← control_create_agent env state headers n; mret (CredentialIssued r)
  | RotateAgentRequest n => r ← control_rotate_agent env state headers n; mret (CredentialIssued r)
  | SetAgentEnabledRequest n e =>
      r ← control_set_agent_enabled env state headers n e; mret (AgentChanged r)
  | DeleteAgentRequest n => r ← control_delete_agent env state headers n; mret (AgentChanged r)
  | ListPrincipalRolesRequest =>
      r ← control_list_principal_roles env state headers; mret (RolesListed r)
  | SetPrincipalRoleRequest s r =>
      r ← control_set_principal_role env state headers s r; mret (RoleChanged r)
  | ListAuditEventsRequest limit =>
      r ← control_list_audit_events env state headers limit; mret (EventsListed r)
  | ListProfileGrantsRequest p =>
      r ← control_list_profile_grants env state headers p; mret (GrantsListed r)
  | GrantProfileRequest p s m x =>
      r ← control_grant_profile env state headers p s m x; mret (GrantChanged r)
  | RevokeProfileRequest p s => r ← control_revoke_profile env state headers p s; mret (GrantChanged r)
  end.

(** The row that a change is about is there. *)
Definition found (t : Tables) (o : op) : Prop :=
  match o with
  | SetBasicUserEnabled u _ => is_Some (av_basic_users t !! u)
  | RotateAgentToken n _ | SetAgentEnabled n _ | DeleteAgent n => is_Some (av_agents t !! n)
  | RevokeProfile s p => is_Some (av_capability_grants t !! (s, p))
  | _ => True
  end.

(** What one request may do: nothing, and then it fails or lists what there is; or, for an
    authorised caller, its operation, followed by its audit event when it succeeds. *)
Inductive control_step rq (headers : HeaderMap) w : result ControlResponse -> Tables -> Prop :=
| ControlRefused e : control_step rq headers w (Err e) (tbl w)
| ControlListed id answer :
    authorised state (needs rq) headers w id -> lists (tbl w) rq answer ->
    control_step rq headers w (Ok answer) (tbl w)
| ControlUnaudited e id o answer t1 :
    authorised state (needs rq) headers w id -> performs rq o answer ->
    effect o (clk w) (tbl w) t1 -> control_step rq headers w (Err e) t1
| ControlDone r id o answer t1 now :
    authorised state (needs rq) headers w id -> performs rq o answer ->
    found (tbl w) o -> effect o (clk w) (tbl w) t1 -> clk w = Some now ->
    (forall answer', r = Ok answer' -> answer' = answer) ->
    control_step rq headers w r
      (audited now (subject id) (event_of rq).1 (event_of rq).2 None None t1).

(** ** The role gates *)

Lemma reads_role_gate (allowed : PrincipalRole -> bool) (msg : string) headers :
  reads (id ← authorize_connect env state headers;
         role ← store_call state (principal_role (subject id));
         _ ← ensure (bail_if (negb (allowed role)) msg);
         mret id).
Proof.
  apply reads_bind; [apply reads_authorize_connect|intros ?].
  apply reads_bind; [apply reads_store_call, principal_role_readonly|intros ?].
  apply reads_bind; [apply reads_ensure|intros ?]. apply reads_ret.
Qed.

Lemma ends_operator {B} Q (f : Identity -> IO B) headers w :
  (forall e, Q (Err e) (tbl w)) ->
  (forall id w1, managed (auth state) = true -> authorised state can_operate headers w id ->
     tbl w1 = tbl w -> clk w1 = clk w -> ends Q (f id) w1) ->
  ends Q (require_operator env state headers ≫= f) w.
Proof.
  intros HQ Hf. apply ends_reads; [apply reads_role_gate|done|].
  intros id w1 H Ht Hc. apply require_role_ok in H as [Hm Ha]. by apply Hf.
Qed.

Lemma ends_auditor {B} Q (f : Identity -> IO B) headers w :
  (forall e, Q (Err e) (tbl w)) ->
  (forall id w1, managed (auth state) = true -> authorised state can_audit headers w id ->
     tbl w1 = tbl w -> clk w1 = clk w -> ends Q (f id) w1) ->
  ends Q (require_auditor env state headers ≫= f) w.
Proof.
  intros HQ Hf. apply ends_reads; [apply reads_role_gate|done|].
  intros id w1 H Ht Hc. apply require_role_ok in H as [Hm Ha]. by apply Hf.
Qed.

Lemma ends_owner {B} Q (f : Identity -> IO B) headers w :
  (forall e, Q (Err e) (tbl w)) ->
  (forall id w1, managed (auth state) = true -> authorised state is_owner_role headers w id ->
     tbl w1 = tbl w -> clk w1 = clk w -> ends Q (f id) w1) ->
  ends Q (require_owner env state headers ≫= f) w.
Proof.
  intros HQ Hf. apply ends_reads; [|done|].
  - unfold require_owner. apply reads_bind; [apply reads_authorize_connect|intros ?].
    apply reads_bind; [apply reads_store_call, is_owner_readonly|intros ?].
    apply reads_bind; [apply reads_ensure|intros ?]. apply reads_ret.
  - intros id w1 H Ht Hc. unfold require_owner in H. inv_io.
    apply store_call_ok in H1 as [Hm Ho]. inv_ok. apply negb_false_iff in H2 as ->.
    apply Hf; [done| |done|done]. split; [by eapply authorize_connect_ok|].
    unfold is_owner, mbind, db_bind in Ho.
    destruct (principal_role (subject id) (store x0)) as [[r|] db] eqn:Er; [|done].
    apply principal_role_ok in Er. unfold mret, db_ret in Ho.
    apply pair_equal_spec in Ho as [Ho _]. apply Ok_inj in Ho.
    destruct (reads_authorize_connect env state headers w) as [Hr _]. rewrite H0 in Hr. simpl in Hr.
    exists r. unfold tbl in *. rewrite Hr in Er. split; [done|]. by unfold is_owner_role.
Qed.

(** ** The tails the handlers share *)

(** A change is followed by the check that something was changed, when there is one. *)
Lemma ends_change {A B} rq headers w w1 (m : DB A) o (check : A -> result unit) id
    (g : B -> ControlResponse) (b : B) :
  runs m o -> managed (auth state) = true ->
  authorised state (needs rq) headers w id -> performs rq o (g b) ->
  (forall db a db', m db = (Ok a, db') -> check a = Ok () -> found (tables db) o) ->
  tbl w1 = tbl w -> clk w1 = clk w ->
  ends (control_step rq headers w)
    (r ← (a ← store_call state m; _ ← ensure (check a);
          _ ← audit_change state id (event_of rq).1 (event_of rq).2; mret b); mret (g r)) w1.
Proof.
  intros Hruns Hm Ha Hp Hfound Ht Hc. apply ends_assoc.
  apply (ends_store_call _ _ _ o); [done|rewrite Ht; constructor|..]; rewrite Ht, Hc.
  { intros e t1 He. by eapply ControlUnaudited. }
  intros a w0 w2 Hrun Ht0 He Hc2.
  apply ends_assoc, ends_reads; [apply reads_ensure|intros e; by eapply ControlUnaudited|].
  intros [] w3 Hcheck Ht3 Hc3. apply pair_equal_spec in Hcheck as [Hcheck _].
  apply Hfound in Hrun; [|done]. fold (tbl w0) in Hrun. rewrite Ht0 in Hrun.
  apply ends_assoc, (ends_audit _ _ _ _ _ (g b)); [done|intros e; rewrite Ht3; by eapply ControlUnaudited|].
  intros now r Hnow Hr. rewrite Ht3. eapply ControlDone; try done. congruence.
Qed.

(** The same when the store's error is translated. *)
Lemma ends_change_map {B} rq headers w w1 (m : DB unit) o (f : string -> string) id
    (g : B -> ControlResponse) (b : B) :
  runs m o -> managed (auth state) = true ->
  authorised state (needs rq) headers w id -> performs rq o (g b) -> found (tbl w) o ->
  tbl w1 = tbl w -> clk w1 = clk w ->
  ends (control_step rq headers w)
    (r ← (_ ← ensure (managed_store state); _ ← map_err (with_store m) f;
          _ ← audit_change state id (event_of rq).1 (event_of rq).2; mret b); mret (g r)) w1.
Proof.
  intros Hruns Hm Ha Hp Hfound Ht Hc.
  apply ends_assoc, ends_reads; [apply reads_ensure|rewrite Ht; constructor|]. intros [] w2 _ Ht2 Hc2.
  rewrite <- Ht2 in Ht. rewrite <- Hc2 in Hc.
  apply ends_assoc, (ends_with_store _ _ o (fun n => map_err n f)); [done|intros; apply map_err_same
    |rewrite Ht; constructor|..]; rewrite Ht, Hc.
  { intros e t1 He. by eapply ControlUnaudited. }
  intros [] w3 _ He Hc3. apply ends_assoc, (ends_audit _ _ _ _ _ (g b)); [done|intros e; by eapply ControlUnaudited|].
  intros now r Hnow Hr. eapply ControlDone; try done. congruence.
Qed.

(** A listing is one query. *)
Lemma ends_listing {A B} rq headers w w1 (m : DB A) id (h : A -> B) (g : B -> ControlResponse) :
  readonly m -> authorised state (needs rq) headers w id ->
  (forall a, ideal m (clk w) (tbl w) = (Ok a, tbl w) -> lists (tbl w) rq (g (h a))) ->
  tbl w1 = tbl w -> clk w1 = clk w ->
  ends (control_step rq headers w)
    (r ← (a ← store_call state m; mret (h a)); mret (g r)) w1.
Proof.
  intros Hm Ha Hl Ht Hc. apply ends_assoc, ends_reads; [by apply reads_store_call|rewrite Ht; constructor|].
  intros a w2 Hrun Ht2 Hc2. change (control_step rq headers w (Ok (g (h a))) (tbl w2)). rewrite Ht2, Ht.
  eapply ControlListed; [done|]. apply Hl. apply store_call_ok in Hrun as [_ Hrun].
  pose proof (honest_result _ (readonly_honest _ Hm) (store w1) a) as Hr. rewrite Hrun in Hr.
  unfold tbl, clk in *. specialize (Hr eq_refl). cbn [snd] in Hr.
  by rewrite Ht2, Ht, Hc in Hr.
Qed.

(** One check before the change. *)
Lemma ends_check {A B} Q (r : result A) (f : A -> IO B) w :
  (forall e, Q (Err e) (tbl w)) -> (forall a, r = Ok a -> ends Q (f a) w) ->
  ends Q (ensure r ≫= f) w.
Proof.
  intros HQ Hf. unfold ends, mbind, io_bind, ensure. destruct r; simpl; [by apply Hf|done].
Qed.

(** *** Changes that report whether there was something to change *)

Lemma affected_found `{Countable K} {V} (k : K) (m : gmap K V) :
  (count_where (fun k' (_ : V) => bool_decide (k' = k)) m =? 1) = true -> is_Some (m !! k).
Proof.
  intros Hn. apply Nat.eqb_eq in Hn.
  destruct (proj1 (count_where_pos (fun k' (_ : V) => bool_decide (k' = k)) m)) as (k' & v & Hk & E);
    [lia|]. breflect in E. subst k'. by exists v.
Qed.

Lemma run_found {A} (m : DB A) o db a db' (ok : A -> bool) :
  honest m -> m db = (Ok a, db') ->
  (forall c t t', ideal m c t = (Ok a, t') -> ok a = true -> found t o) ->
  ok a = true -> found (tables db) o.
Proof.
  intros Hm Hrun Hf. pose proof (honest_result _ Hm db a) as Hr. rewrite Hrun in Hr. eauto.
Qed.

#[local] Ltac solve_found :=
  let Hrun := fresh "Hrun" in let Hcheck := fresh "Hcheck" in
  intros ? ? ? Hrun Hcheck; apply bail_if_ok, negb_false_iff in Hcheck;
  eapply (run_found _ _ _ _ _ id); [|exact Hrun| |exact Hcheck];
  unfold set_basic_user_enabled, rotate_agent_token, set_agent_enabled, delete_agent,
    revoke_profile, revoke_subject_sessions, revoke_sessions_where; [solve_honest|];
  let t := fresh "t" in intros ? t ? ? ?; inv_ideal; inv_ok; simplify_eq; apply affected_found;
  solve [done | by destruct t].

(** *** Listings *)

Lemma collect_results_Forall2 {A B} (f : A -> result B) rows xs :
  collect_results f rows = Ok xs -> Forall2 (fun row x => f row = Ok x) rows xs.
Proof.
  revert xs. induction rows as [|row rows IH]; intros xs H; cbn [collect_results] in H; inv_ok; subst;
    constructor; eauto.
Qed.

Lemma list_basic_users_readonly : readonly list_basic_users.
Proof. unfold list_basic_users. eauto with av. Qed.
Lemma list_agents_readonly : readonly list_agents.
Proof. unfold list_agents. eauto with av. Qed.
Lemma list_principal_roles_readonly : readonly list_principal_roles.
Proof. unfold list_principal_roles. eauto with av. Qed.
Lemma list_profile_grants_readonly p : readonly (list_profile_grants p).
Proof. unfold list_profile_grants. eauto with av. Qed.

Lemma list_basic_users_shows c t users t' :
  ideal list_basic_users c t = (Ok users, t') ->
  lists t ListBasicUsersRequest (UsersListed
    ((fun '(u, e) => {| rpc_username := u; rpc_user_enabled := e |}) <$> users)).
Proof.
  intros Hi. unfold list_basic_users in Hi. inv_ideal. rewrite <- list_fmap_compose.
  erewrite (list_fmap_ext (_ ∘ _)); [apply lists_users|]. by intros ? [].
Qed.

Lemma list_agents_shows c t agents t' :
  ideal list_agents c t = (Ok agents, t') ->
  lists t ListAgentsRequest (AgentsListed
    ((fun '(n, e) => {| rpc_agent_name := n; rpc_agent_enabled := e |}) <$> agents)).
Proof.
  intros Hi. unfold list_agents in Hi. inv_ideal. rewrite <- list_fmap_compose.
  erewrite (list_fmap_ext (_ ∘ _)); [apply lists_agents|]. by intros ? [].
Qed.

Lemma list_principal_roles_shows c t roles t' :
  ideal list_principal_roles c t = (Ok roles, t') ->
  lists t ListPrincipalRolesRequest (RolesListed
    ((fun '(s, r) => {| rpc_role_subject := s; rpc_role := role_as_str r |}) <$> roles)).
Proof.
  intros Hi. unfold list_principal_roles in Hi. inv_ideal. constructor.
  eapply Forall2_impl; [by apply collect_results_Forall2|].
  intros [s r] [s' r'] H; simpl in *. inv_ok. by simplify_eq.
Qed.

Lemma list_profile_grants_shows c t p grants t' :
  bt_contains (profiles state) p = true ->
  ideal (list_profile_grants p) c t = (Ok grants, t') ->
  lists t (ListProfileGrantsRequest p) (GrantsListed
    ((fun g => {| rpc_profile := pg_profile g; rpc_grant_subject := pg_subject g;
                  rpc_mode := mode_as_str (pg_mode g);
                  rpc_grant_expires := default 0%Z (pg_expires g) |}) <$> grants)).
Proof.
  intros Hp Hi. unfold list_profile_grants in Hi. inv_ideal. constructor; [done|].
  eapply Forall2_impl; [by apply collect_results_Forall2|]. by intros [[s q] row] g H.
Qed.

#[local] Ltac refused := intros ?; repeat match goal with H : tbl _ = _ |- _ => rewrite H end;
  constructor.
#[local] Ltac enter := apply ends_assoc;
  first [apply ends_operator | apply ends_owner | apply ends_auditor]; [refused|];
  intros id w1 Hm Ha Ht Hc.
#[local] Ltac check := apply ends_assoc, ends_check; [refused|]; intros ? ?.

Lemma known_profile p u : require_known_profile state p = Ok u -> bt_contains (profiles state) p = true.
Proof. unfold require_known_profile. by destruct (bt_contains _ _). Qed.

Lemma listing_refines rq headers w :
  match rq with
  | ListBasicUsersRequest | ListAgentsRequest | ListPrincipalRolesRequest
  | ListAuditEventsRequest _ | ListProfileGrantsRequest _ => True
  | _ => False
  end -> ends (control_step rq headers w) (handle rq headers) w.
Proof.
  destruct rq; try done; intros _; cbn [handle]; enter.
  - eapply ends_listing; [apply list_basic_users_readonly|done| |done|done].
    intros a Hi. by apply list_basic_users_shows in Hi.
  - eapply ends_listing; [apply list_agents_readonly|done| |done|done].
    intros a Hi. by apply list_agents_shows in Hi.
  - eapply ends_listing; [apply list_principal_roles_readonly|done| |done|done].
    intros a Hi. by apply list_principal_roles_shows in Hi.
  - eapply ends_listing; [apply readonly_query|done| |done|done].
    intros a Hi. apply ideal_query_ok in Hi as [Hi _]. subst a. constructor.
  - check. eapply ends_listing; [apply list_profile_grants_readonly|done| |done|done].
    intros g Hi. apply list_profile_grants_shows in Hi; [done|]. by eapply known_profile.
Qed.

Lemma ends_draw {A B} Q (f : nat -> A) (k : A -> IO B) w :
  (forall e, Q (Err e) (tbl w)) ->
  (forall n w1, tbl w1 = tbl w -> clk w1 = clk w -> ends Q (k (f n)) w1) ->
  ends Q (outside f ≫= k) w.
Proof.
  intros HQ Hk. apply ends_reads; [apply reads_outside|done|]. intros a w1 H Ht Hc.
  apply pair_equal_spec in H as [H _]. apply Ok_inj in H as <-. by apply Hk.
Qed.

#[local] Ltac draw n w2 Ht2 Hc2 := apply ends_assoc, ends_draw; [refused|]; intros n w2 Ht2 Hc2.

Lemma user_change_refines headers w :
  (forall u p, ends (control_step (UpsertBasicUserRequest u p) headers w)
     (handle (UpsertBasicUserRequest u p) headers) w)
  /\ forall u e, ends (control_step (SetBasicUserEnabledRequest u e) headers w)
     (handle (SetBasicUserEnabledRequest u e) headers) w.
Proof.
  split; intros; cbn [handle]; enter.
  - check. check. apply ends_assoc. unfold hash_basic_password. draw n w2 Ht2 Hc2.
    apply ends_check; [refused|]. intros hash Hhash.
    apply (ends_change (UpsertBasicUserRequest u p) headers w w2
      (upsert_basic_user u hash) (UpsertBasicUser u hash) (fun _ => Ok ()) id UserChanged);
      [by apply runs_self|done|done| |done|congruence|congruence].
    inv_ok. breflect in *. by apply (performs_upsert _ _ n).
  - check. apply (ends_change (SetBasicUserEnabledRequest u e) headers w w1 _ (SetBasicUserEnabled u e));
      [by apply runs_discard|done|done| |solve_found|done|done].
    inv_ok. constructor. by apply negb_false_iff.
Qed.

Lemma agent_change_refines headers w :
  (forall n, ends (control_step (CreateAgentRequest n) headers w)
     (handle (CreateAgentRequest n) headers) w)
  /\ (forall n, ends (control_step (RotateAgentRequest n) headers w)
     (handle (RotateAgentRequest n) headers) w)
  /\ (forall n e, ends (control_step (SetAgentEnabledRequest n e) headers w)
     (handle (SetAgentEnabledRequest n e) headers) w)
  /\ forall n, ends (control_step (DeleteAgentRequest n) headers w)
     (handle (DeleteAgentRequest n) headers) w.
Proof.
  split_and!; intros; cbn [handle]; enter; check; inv_ok;
    match goal with H : negb _ = false |- _ => apply negb_false_iff in H end.
  - apply ends_assoc. unfold mint_agent_token. draw i w2 Ht2 Hc2.
    apply (ends_change_map (CreateAgentRequest n) headers w w2 _ (CreateAgent n (sha256_digest (agent_token i))));
      [by apply runs_self|done|done|by constructor|done|congruence|congruence].
  - apply ends_assoc. unfold mint_agent_token. draw i w2 Ht2 Hc2.
    apply (ends_change (RotateAgentRequest n) headers w w2 _ (RotateAgentToken n (sha256_digest (agent_token i))));
      [by apply runs_discard|done|done|by constructor|solve_found|congruence|congruence].
  - apply (ends_change (SetAgentEnabledRequest n e) headers w w1 _ (SetAgentEnabled n e));
      [by apply runs_discard|done|done|by constructor|solve_found|done|done].
  - apply (ends_change (DeleteAgentRequest n) headers w w1 _ (DeleteAgent n));
      [by apply runs_discard|done|done|by apply performs_delete|solve_found|done|done].
Qed.

Lemma policy_change_refines headers w :
  (forall s r, ends (control_step (SetPrincipalRoleRequest s r) headers w)
     (handle (SetPrincipalRoleRequest s r) headers) w)
  /\ (forall p s m x, ends (control_step (GrantProfileRequest p s m x) headers w)
     (handle (GrantProfileRequest p s m x) headers) w)
  /\ forall p s, ends (control_step (RevokeProfileRequest p s) headers w)
     (handle (RevokeProfileRequest p s) headers) w.
Proof.
  split_and!; intros; cbn [handle]; enter; check; check.
  - inv_ok. apply (ends_change_map (SetPrincipalRoleRequest s r) headers w w1 _ (SetPrincipalRole s a0));
      [by apply runs_self|done|done| |done|done|done]. constructor; [by apply negb_false_iff|done].
  - check. inv_ok. apply (ends_change_map (GrantProfileRequest p s m x) headers w w1 _
      (GrantProfileMode s p a1 (if (x =? 0)%Z then None else Some x)));
      [|done|done| |done|done|done].
    + apply runs_self. cbn [run_op]. by destruct (x =? 0)%Z.
    + assert (default 0%Z (if negb (x =? 0)%Z then Some x else None) = x) as ->.
      { destruct (Z.eqb_spec x 0); by subst. }
      constructor; [by eapply known_profile|by apply negb_false_iff|done].
  - inv_ok. apply (ends_change (RevokeProfileRequest p s) headers w w1 _ (RevokeProfile s p));
      [by apply runs_discard|done|done| |solve_found|done|done].
    constructor; [by eapply known_profile|by apply negb_false_iff].
Qed.

Lemma handle_refines rq headers w : ends (control_step rq headers w) (handle rq headers) w.
Proof.
  destruct rq; try (by apply listing_refines); try apply user_change_refines;
    try apply agent_change_refines; apply policy_change_refines.
Qed.

(** ** Sequences of requests *)

Definition serve (requests : list (ControlRequest * HeaderMap)) (w : W) : W :=
  fold_left (fun w '(rq, headers) => (handle rq headers w).2) requests w.

Lemma control_step_effects rq headers w r t :
  control_step rq headers w r t ->
  t = tbl w \/ (exists o, effect o (clk w) (tbl w) t)
  \/ exists o o' t1, effect o (clk w) (tbl w) t1 /\ effect o' (clk w) t1 t.
Proof.
  intros [| |e id o answer t1 _ _ He|r' id o answer t1 now _ _ _ He Hc]; [by left|by left|
    right; left; by exists o|].
  right; right. exists o, (RecordAudit (subject id) (event_of rq).1 (event_of rq).2 None None), t1.
  split; [done|]. exists now. done.
Qed.

Lemma serve_invariant (P : Tables -> Prop) requests w :
  (forall o c t t', effect o c t t' -> P t -> P t') -> P (tbl w) -> P (tbl (serve requests w)).
Proof.
  intros Hstep. revert w. induction requests as [|[rq headers] requests IH]; intros w Hw; [done|].
  cbn [serve fold_left]. apply IH.
  destruct (control_step_effects _ _ _ _ _ (handle_refines rq headers w))
    as [->|[[o He]|(o & o' & t1 & He & He')]]; eauto.
Qed.

(** ** The credential an agent is given *)

Lemma create_agent_ok name h db db' :
  create_agent name h db = (Ok (), db') ->
  effect (CreateAgent name h) (clock db) (tables db) (tables db').
Proof.
  intros H. pose proof (run_op_atomic (CreateAgent name h)) as Ha.
  pose proof (honest_result _ (atomic_honest _ Ha) db ()) as Hr. cbn [run_op] in Hr.
  rewrite H in Hr. apply run_op_effect. by apply Hr.
Qed.

Lemma audit_change_ok id act p w u w' :
  audit_change state id act p w = (Ok u, w') -> av_agents (tbl w') = av_agents (tbl w).
Proof.
  unfold audit_change, audit_event, context_of. destruct (managed (auth state)) eqn:Hm; [|by intros [= _ <-]].
  intros H. unfold tbl, store. unfold with_store in H.
  destruct (record_audit _ _ _ _ _ _) as [r db] eqn:E. apply pair_equal_spec in H as [_ <-].
  simpl. revert E. unfold record_audit, execute, statement, mbind, db_bind, now_unix_seconds. simpl.
  destruct (clock _); simpl; [|by intros [= _ <-]].
  destruct (default Succeeds _); intros [= _ <-]; simpl; by destruct (tables _).
Qed.

(** Exactly one agent has the digest of the new token. *)
Lemma control_create_agent_ok headers name w cred w' :
  control_create_agent env state headers name w = (Ok cred, w') ->
  managed (auth state) = true /\
  exists n h row, let token := &"av_agent_" ++ base64_url_safe_no_pad (random_bytes env n) in
    credential_name cred = name /\ credential_token cred = token
    /\ h = sha256_digest token /\ len h = 32%Z
    /\ row = {| agent_token_hash := h; agent_enabled := true |}
    /\ av_agents (tbl w') !! name = Some row
    /\ forall k r, av_agents (tbl w') !! k = Some r -> agent_token_hash r = h -> k = name.
Proof.
  unfold control_create_agent, mint_agent_token. intros H. inv_io.
  apply require_role_ok in H0 as [Hm _]. split; [done|].
  match goal with H : outside _ _ = _ |- _ => injection H as <- <- end. inv_io.
  match goal with H : map_err _ _ ?v = (Ok ?u, ?v') |- _ =>
    unfold map_err, with_store in H;
    destruct (create_agent _ _ (database (server v))) as [[[]|] db] eqn:E; [|done];
    injection H as ? <- end.
  match goal with H : audit_change _ _ _ _ _ = _ |- _ => apply audit_change_ok in H as Hag end.
  apply create_agent_ok in E as (Hv & Hnone & Hfree & Ht). rewrite Hag.
  unfold tbl, store. cbn [server database]. rewrite Ht.
  do 3 eexists. cbv zeta. split_and!; [done|done|done| |done| |].
  - by apply validate_agent_token_len in Hv.
  - destruct (tables _). simpl. by rewrite lookup_insert_eq.
  - intros k r Hk Hr. destruct (decide (k = name)) as [|Hne]; [done|]. exfalso.
    destruct (tables _) eqn:Et. simpl in *. rewrite lookup_insert_ne in Hk by done.
    unfold agent_hash_taken in Hfree. apply negb_false_iff, Nat.eqb_eq in Hfree.
    rewrite count_where_zero in Hfree. specialize (Hfree k r Hk). simpl in Hfree.
    apply andb_false_iff in Hfree as [Hf|Hf]; breflect in Hf; done.
Qed.

Lemma agent_lookup_unique (t : Tables) name row h :
  av_agents t !! name = Some row -> agent_token_hash row = h -> agent_enabled row = true ->
  (forall k r, av_agents t !! k = Some r -> agent_token_hash r = h -> k = name) ->
  head (map_to_list (filter (fun kv => agent_token_hash kv.2 = h /\ agent_enabled kv.2 = true)
          (av_agents t))).*1 = Some name.
Proof.
  intros Hrow Hh He Hu.
  assert (filter (fun kv : bytes * AgentRow => agent_token_hash kv.2 = h /\ agent_enabled kv.2 = true)
            (av_agents t) = {[name := row]}) as ->; [|by rewrite map_to_list_singleton].
  apply map_eq. intros k. destruct (decide (k = name)) as [->|Hne].
  - rewrite lookup_singleton_eq. by apply map_lookup_filter_Some.
  - rewrite lookup_singleton_ne by done. apply map_lookup_filter_None. right.
    intros r Hr [Hrh _]. simpl in Hrh. apply Hne. by eapply Hu.
Qed.

Lemma authorize_agent_run token h name db :
  managed (auth state) = true -> h = sha256_digest token -> len h = 32%Z ->
  len token = 52%Z -> starts_with &"av_agent_" token = true ->
  forallb (fun byte => is_ascii_alphanumeric byte || one_of "-_" byte) (drop 9 token) = true ->
  head (map_to_list (filter (fun kv => agent_token_hash kv.2 = h /\ agent_enabled kv.2 = true)
          (av_agents (tables db)))).*1 = Some name ->
  outcomes db = [] ->
  (authorize_agent (auth state) token db).1 = Ok {| subject := &"agent:" ++ name |}.
Proof.
  intros Hm Hh Hl Ht Hs Hb Hq Ho. unfold authorize_agent.
  rewrite Ht, Hs, Hb, Hm. unfold mbind, db_bind, lift. simpl. unfold agent_for_token_hash.
  rewrite <- Hh, Hl. simpl. unfold query, statement. simpl. rewrite Ho. simpl. by rewrite Hq.
Qed.

(** ** Claims *)


(** C25: whatever requests the control service receives, from whatever callers and
    with whatever database failures, the tables stay well formed and an owner
    remains. *)
Theorem control_service_keeps_owner requests w :
  wf_tables (tbl w) -> has_owner (tbl w) ->
  wf_tables (tbl (serve requests w)) /\ has_owner (tbl (serve requests w)).
Proof.
  intros Hwf Ho. split; apply serve_invariant; try done.
  - intros o c t t'. apply effect_wf_tables.
  - intros o c t t'. apply effect_has_owner.
Qed.

(** C40: the token [create_agent] returns is accepted afterwards and identifies
    exactly that agent. *)
Theorem created_agent_authenticates {TL : TokenLaws} headers name w cred w' headers' now slot st :
  (forall n, length (random_bytes env n) = 32) ->
  control_create_agent env state headers name w = (Ok cred, w') ->
  auth_mode (config (auth state)) <> ModeDisabled ->
  outcomes (store w') = [] ->
  hm_get headers' (from_static &"authorization") ≫= value_to_str
    = Some (&"Agent " ++ credential_token cred) ->
  ((authorize (auth state) now slot headers' st).1 (store w')).1
    = Ok {| subject := &"agent:" ++ name |}.
Proof.
  intros Hrand Hc Hmode Ho Hh.
  apply control_create_agent_ok in Hc as (Hm & n & h & row & _ & Htok & Hhash & Hlen & -> & Hrow & Hu).
  destruct (base64_url_safe_token (random_bytes env n) (Hrand n)) as [Hl Hs].
  unfold authorize. rewrite bool_decide_eq_false_2, Hh, strip_prefix_app by done. simpl.
  apply (authorize_agent_run _ h); try done.
  - by rewrite Hhash, Htok.
  - rewrite Htok. unfold len. rewrite length_app, Hl. done.
  - rewrite Htok. apply starts_with_app.
  - rewrite Htok. by apply forallb_true.
  - by eapply agent_lookup_unique.
Qed.
End Facts.

(** ** Witnesses *)

Module ControlModels.
Import Models AuthModels ConnectorModels LeaseModels.

#[export] Instance argon2 : Argon2Lib := {| argon2_hash _ password := Some (&"$argon2id$" ++ password) |}.

(** [agent:bot] is an operator; [basic:root] is an owner with a password. *)
Definition staffed : Tables :=
  StoreProps.Sample.after (SetPrincipalRole &"basic:root" Owner)
    (StoreProps.Sample.after (UpsertBasicUser &"root" &"$argon2id$forgotten-secret")
      (StoreProps.Sample.after (SetPrincipalRole &"agent:bot" Operator) agent_tables)).

Definition serving (t : Tables) : Connector.world ServerData := {|
  calls := 0; exchanges := []; tokens := ∅;
  server := {| active := ∅; database := {| tables := t; clock := Some 10%Z; outcomes := [] |};
               keys := cold |} |}.

Definition as_root (password : bytes) : HeaderMap :=
  [(&"authorization", &"Basic " ++ base64_standard (&"root:" ++ password))].

Definition create_run := control_create_agent (outside_world 200) app as_agent &"ci" (serving staffed).

Definition delete_run :=
  ControlFacts.handle (outside_world 200) app (DeleteAgentRequest &"bot") as_agent (serving staffed).


Lemma staffed_wf : wf_tables staffed.
Proof.
  do 4 (eapply step_wf_tables; [apply StoreProps.Sample.after_step|]).
  apply connected_wf, StoreProps.Sample.startable_empty.
Qed.

Lemma control_service_keeps_owner_witness :
  has_owner (tbl (serve (outside_world 200) app
    [(SetPrincipalRoleRequest &"admin" &"user", as_agent); (DeleteAgentRequest &"bot", as_agent)]
    (serving staffed))).
Proof.
  apply (control_service_keeps_owner (outside_world 200) app); [apply staffed_wf|].
  exists &"admin". reflexivity.
Defined.

Definition ci_token : bytes := &"av_agent_" ++ base64_url_safe_no_pad (repeat "r"%char 32).

Lemma created_agent_authenticates_witness :
  ((authorize authenticator 0 (Ok ()) [(&"authorization", &"Agent " ++ ci_token)] cold).1
     (store create_run.2)).1 = Ok {| subject := &"agent:ci" |}.
Proof.
  apply (created_agent_authenticates (HL := headers) (outside_world 200) app as_agent &"ci"
    (serving staffed)
    {| credential_name := &"ci"; credential_token := ci_token; credential_enabled := true |}).
  - intros n. reflexivity.
  - vm_compute. reflexivity.
  - discriminate.
  - vm_compute. reflexivity.
  - vm_compute. reflexivity.
Defined.

(** An operator may set the password of any Basic user.  When that user is an
    owner, two requests turn the operator into an owner, although only owners may
    change roles. *)
Lemma operator_becomes_owner :
  stored_role (tbl (serving staffed)) &"agent:bot" = Ok Operator
  /\ stored_role (tbl (serve (outside_world 200) app
       [(UpsertBasicUserRequest &"root" &"chosen-by-operator", as_agent);
        (SetPrincipalRoleRequest &"agent:bot" &"owner", as_root &"chosen-by-operator")]
       (serving staffed))) &"agent:bot" = Ok Owner.
Proof. split; vm_compute; reflexivity. Qed.
End ControlModels.
