(* ===== verification/Sessions.v ===== *)
(** Sessions: the session service of src/server.rs: listing what a caller may
    use, and creating, renewing and revoking transparent-proxy sessions.

    [Service] is [AppState] with the configuration it was built from; its
    [backend] tells which database the store uses. *)

From Stdlib Require Import Ascii String.
From stdpp Require Import base list strings gmap sorting.
From S2P Require Import Prelude Str BTree External Models Database Store Auth Catalog Policy Connector Config Leases Control.

(** [TransparentProxyRuntime], without its TLS acceptor; the certificate
    authority is the PEM text it hands out. *)
Record TransparentProxyRuntime := {
  runtime_proxy_url : bytes;
  session_ttl : Z;
  session_max_lifetime : Z;
  catalog : TransparentRouteCatalog;
  certificate_pem : bytes;
}.

Record RpcConnector := { connector_name : bytes; rpc_connector_kind : bytes }.
Record PublicStatus := {
  oidc_enabled : bool; github_enabled : bool; basic_enabled : bool; persistence_enabled : bool;
  registration_enabled : bool; status_connectors : list RpcConnector; profile_count : Z;
  proxy_routes : list bytes; status_rate : Z; status_burst : Z }.
Record RpcStatus := {
  rpc_oidc_enabled : bool; rpc_basic_enabled : bool; rpc_persistence_enabled : bool;
  rpc_registration_enabled : bool; rpc_connectors : list RpcConnector; rpc_profile_count : Z;
  rpc_proxy_routes : list bytes; rpc_rate : Z; rpc_burst : Z }.
Record RpcProfile := {
  rpc_profile_name : bytes; rpc_profile_environment : bytes; rpc_profile_path : bytes }.
Record RpcProxyDestination := {
  rpc_destination : bytes; rpc_destination_profile : bytes; rpc_host : bytes; rpc_mode_name : bytes }.
Record ProxySessionLease := {
  lease_session_id : bytes; lease_token : bytes; lease_proxy_url : bytes; lease_ca_pem : bytes;
  lease_expires : Z; lease_revoked : bool }.

Definition public_status (c : Config) : PublicStatus := {|
  oidc_enabled := oidc_mode (auth_mode (cfg_auth c));
  github_enabled := bool_decide (auth_mode (cfg_auth c) = ModeGithubOrBasic);
  basic_enabled := basic_mode (auth_mode (cfg_auth c));
  persistence_enabled := bool_decide (cfg_mode c = Managed);
  registration_enabled := false;
  status_connectors := (fun '(name, connector) =>
    {| connector_name := name; rpc_connector_kind := connector_kind connector |}) <$> cfg_connectors c;
  profile_count := len (cfg_profiles c);
  proxy_routes := (cfg_proxy_routes c).*1;
  status_rate := cfg_api_rate_limit_per_second c;
  status_burst := cfg_api_rate_limit_burst c |}.

Definition validate_proxy_session_id (session_id : bytes) : result unit :=
  bail_if (is_empty session_id || (256 <? len session_id)%Z || any_control session_id)
    "invalid_argument: session_id is invalid".

(** [now.checked_add(lifetime)], then whole seconds since the epoch as [i64] *)
Definition expiration (now lifetime : Z) : result Z :=
  time ← ok_or (checked_add now lifetime) "proxy session expiry overflow";
  _ ← bail_if (time <? 0)%Z "system clock is before Unix epoch";
  let seconds := (time / NANOS)%Z in
  _ ← bail_if (2 ^ 63 <=? seconds)%Z "proxy session expiry is outside supported range";
  Ok seconds.

Section Sessions.
Context {HL : HeaderLib} {UL : UrlLib} {EL : EncodingLib} {JL : JwtLib} {PL : PasswordLib}
  {BL : BackendLib}.

Record Service := {
  service_config : Config;
  service_connectors : BTreeMap Connector;
  service_auth : Authenticator;
  transparent_proxy : option TransparentProxyRuntime;
  backend : Backend;
}.
Definition app_state (s : Service) : AppState := {|
  profiles := cfg_profiles (service_config s); connectors := service_connectors s;
  auth := service_auth s |}.

(** The part of [run] that builds the proxy runtime; [load_ca] and [load_tls] load the
    certificate authority and the listener's certificate. *)
Definition start_transparent_proxy (load_ca : bytes -> bytes -> result bytes)
    (load_tls : bytes -> bytes -> result unit) (c : Config)
    : result (option TransparentProxyRuntime) :=
  match cfg_transparent_proxy c with
  | None => Ok None
  | Some proxy =>
      catalog ← from_config (cfg_proxy_routes c) (cfg_proxy_tunnels c);
      pem ← load_ca (ca_certificate_file proxy) (ca_private_key_file proxy);
      _ ← load_tls (transport_tls_certificate_file proxy) (transport_tls_private_key_file proxy);
      Ok (Some {| runtime_proxy_url := proxy_url proxy;
                  session_ttl := from_secs (session_ttl_seconds proxy);
                  session_max_lifetime := from_secs (session_max_lifetime_seconds proxy);
                  catalog := catalog; certificate_pem := pem |})
  end.

Context (env : Outside) (service : Service).
#[local] Abbreviation IO := (io ServerData).
#[local] Abbreviation state := (app_state service).

(** ** Listings *)

Definition get_status (headers : HeaderMap) : IO RpcStatus :=
  _ ← authorize_connect env state headers;
  let status := public_status (service_config service) in
  mret {| rpc_oidc_enabled := oidc_enabled status; rpc_basic_enabled := basic_enabled status;
          rpc_persistence_enabled := persistence_enabled status;
          rpc_registration_enabled := registration_enabled status;
          rpc_connectors := status_connectors status;
          rpc_profile_count := profile_count status mod 2 ^ 32;
          rpc_proxy_routes := proxy_routes status; rpc_rate := status_rate status;
          rpc_burst := status_burst status |}.

(** The set as a sorted list; only membership is used. *)
Definition permitted_profile_names (subject : bytes) : IO (list bytes) :=
  if managed (auth state) then
    names ← with_store (list_allowed_profiles subject);
    mret (filter (fun name => bt_contains (profiles state) name = true) names)
  else mret (profiles state).*1.

Definition list_profiles (headers : HeaderMap) : IO (list RpcProfile) :=
  identity ← authorize_connect env state headers;
  allowed ← context_of (permitted_profile_names (subject identity))
              "internal: managed store unavailable";
  mret ((fun '(name, profile) =>
           {| rpc_profile_name := name; rpc_profile_environment := environment profile;
              rpc_profile_path := secret_path profile |})
        <$> filter (fun e => e.1 ∈ allowed) (profiles state)).

(** The loop over one kind of destination. *)
Fixpoint collect_destinations {A} (profile_of : A -> bytes)
    (describe : bytes -> A -> result RpcProxyDestination) (subject : bytes)
    (entries : BTreeMap A) : IO (list RpcProxyDestination) :=
  match entries with
  | [] => mret []
  | (name, entry) :: entries =>
      permitted ← context_of (profile_permitted state subject (profile_of entry) Proxy)
                    "internal: managed store unavailable";
      if (permitted : bool) then
        d ← ensure (describe name entry);
        ds ← collect_destinations profile_of describe subject entries;
        mret (d :: ds)
      else collect_destinations profile_of describe subject entries
  end.

Definition describe_route (name : bytes) (route : ProxyRouteConfig) : result RpcProxyDestination :=
  host ← ok_or (url_parse (base_url route) ≫= url_host_str)
           "internal: proxy route configuration unavailable";
  Ok {| rpc_destination := name; rpc_destination_profile := route_profile route;
        rpc_host := host; rpc_mode_name := &"injecting" |}.
Definition describe_tunnel (name : bytes) (tunnel : ProxyTunnelConfig)
    : result RpcProxyDestination :=
  Ok {| rpc_destination := name; rpc_destination_profile := tunnel_profile tunnel;
        rpc_host := tunnel_host tunnel; rpc_mode_name := &"tunnel" |}.

Definition list_proxy_destinations (headers : HeaderMap) : IO (list RpcProxyDestination) :=
  identity ← authorize_connect env state headers;
  routes ← collect_destinations route_profile describe_route (subject identity)
             (cfg_proxy_routes (service_config service));
  tunnels ← collect_destinations tunnel_profile describe_tunnel (subject identity)
              (cfg_proxy_tunnels (service_config service));
  mret (order_by rpc_destination (routes ++ tunnels)).

(** ** Proxy sessions *)

Definition proxy_runtime : result TransparentProxyRuntime :=
  ok_or (transparent_proxy service)
    "failed_precondition: transparent proxy is not configured".
Definition sessions_managed : result unit :=
  bail_if (negb (managed (auth state)))
    "failed_precondition: managed proxy sessions are required".

Definition session_audit (subject action : bytes) (profile : option bytes) (session_id : bytes)
    : IO unit :=
  context_of (audit_event state subject action profile (Some session_id) None)
    "internal: audit persistence unavailable".

Definition mint_session : IO ProxySessionCredential :=
  id_bytes ← outside (random_bytes env);
  token_bytes ← outside (random_bytes env);
  mret (mint_proxy_session_credential (take 16 id_bytes) token_bytes).

Definition rpc_create_proxy_session (headers : HeaderMap) (profile : bytes) : IO ProxySessionLease :=
  identity ← authorize_connect env state headers;
  runtime ← ensure proxy_runtime;
  _ ← ensure sessions_managed;
  _ ← ensure (bail_if (negb (bt_contains (profiles state) profile)) "not_found: profile not found");
  permitted ← context_of (profile_permitted state (subject identity) profile Proxy)
                "internal: managed store unavailable";
  _ ← ensure (bail_if (negb permitted) "permission_denied: profile access is not granted");
  credential ← mint_session;
  now ← system_now env;
  expires ← ensure (with_context (expiration now (session_ttl runtime))
                      "internal: proxy session clock is unavailable");
  maximum ← ensure (with_context (expiration now (session_max_lifetime runtime))
                      "internal: proxy session clock is unavailable");
  _ ← context_of (with_store (create_proxy_session (session_id credential)
        (credential_token_hash credential) (subject identity) profile expires maximum))
        "internal: proxy session is unavailable";
  _ ← session_audit (subject identity) &"transparent_proxy_session_created" (Some profile)
        (session_id credential);
  mret {| lease_session_id := session_id credential; lease_token := token credential;
          lease_proxy_url := runtime_proxy_url runtime; lease_ca_pem := certificate_pem runtime;
          lease_expires := expires; lease_revoked := false |}.

Definition rpc_renew_proxy_session (headers : HeaderMap) (session_id : bytes) : IO ProxySessionLease :=
  identity ← authorize_connect env state headers;
  _ ← ensure (validate_proxy_session_id session_id);
  runtime ← ensure proxy_runtime;
  _ ← ensure sessions_managed;
  now ← system_now env;
  expires ← ensure (with_context (expiration now (session_ttl runtime))
                      "internal: proxy session clock is unavailable");
  renewed ← context_of (with_store (renew_proxy_session_for_subject (backend service) session_id
                (subject identity) expires)) "internal: proxy session is unavailable";
  session ← ensure (ok_or renewed "not_found: active proxy session not found");
  permitted ← attempt (profile_permitted state (subject identity) (ps_profile session) Proxy);
  match permitted with
  | Err _ => ensure (Err "internal: managed store unavailable")
  | Ok false =>
      _ ← attempt (with_store (revoke_proxy_session session_id));
      ensure (Err "permission_denied: profile access is not granted")
  | Ok true =>
      _ ← session_audit (subject identity) &"transparent_proxy_session_renewed"
            (Some (ps_profile session)) session_id;
      mret {| lease_session_id := ps_session_id session; lease_token := []; lease_proxy_url := [];
              lease_ca_pem := []; lease_expires := ps_expires session; lease_revoked := false |}
  end.

Definition rpc_revoke_proxy_session (headers : HeaderMap) (session_id : bytes) : IO ProxySessionLease :=
  identity ← authorize_connect env state headers;
  _ ← ensure (validate_proxy_session_id session_id);
  _ ← ensure sessions_managed;
  revoked ← context_of (with_store (revoke_proxy_session_for_subject session_id (subject identity)))
              "internal: proxy session is unavailable";
  _ ← session_audit (subject identity) &"transparent_proxy_session_revoked" None session_id;
  mret {| lease_session_id := session_id; lease_token := []; lease_proxy_url := [];
          lease_ca_pem := []; lease_expires := 0; lease_revoked := revoked |}.
End Sessions.
