(* ===== verification/SessionFacts.v ===== *)
(** SessionFacts: who may open, extend and end a transparent-proxy session. *)

From Stdlib Require Import Ascii String.
From stdpp Require Import base list strings gmap relations.
From S2P Require Import Prelude Str BTree External Models Database Store StoreFacts StoreProps Auth Catalog Policy Connector ConnectorFacts Config Leases LeaseProps Control ServiceFacts Sessions ConfigFacts.

Lemma sessions_set f t : av_proxy_sessions (set_sessions f t) = f (av_proxy_sessions t).
Proof. by destruct t. Qed.

Lemma grants_set_sessions f t : av_capability_grants (set_sessions f t) = av_capability_grants t.
Proof. by destruct t. Qed.

(** ** Changes confined to one subject's sessions *)

(** The same session later on: only its expiry moves, and a revocation is final. *)
Definition succeeds (row row' : SessionRow) : Prop :=
  session_token_hash row' = session_token_hash row /\ session_subject row' = session_subject row
  /\ session_profile row' = session_profile row
  /\ (session_revoked row = true -> session_revoked row' = true).

#[global] Instance succeeds_preorder : PreOrder succeeds.
Proof.
  split; [by intros row|]. intros a b c (? & ? & ? & ?) (? & ? & ? & ?).
  split_and!; try congruence. auto.
Qed.

(** Everything but the audit log and the sessions of [s] is as it was: the sessions of
    others are unchanged, and none of theirs appears; no session disappears, changes
    hands or comes back after its revocation; no bound changes, and a new one belongs to
    a session of [s]; the audit log keeps its entries, and the new ones name [s]. *)
Record own_sessions_only (s : bytes) (t t' : Tables) : Prop := {
  oso_roles : av_principal_roles t' = av_principal_roles t;
  oso_owners : av_owners t' = av_owners t;
  oso_bootstrap : av_owner_bootstrap t' = av_owner_bootstrap t;
  oso_users : av_basic_users t' = av_basic_users t;
  oso_agents : av_agents t' = av_agents t;
  oso_profile_grants : av_profile_grants t' = av_profile_grants t;
  oso_grants : av_capability_grants t' = av_capability_grants t;
  oso_audit : exists new, av_audit_events t' = av_audit_events t ++ new
    /\ Forall (fun e => Store.actor e = s) new;
  oso_others id row : av_proxy_sessions t !! id = Some row -> session_subject row <> s ->
    av_proxy_sessions t' !! id = Some row;
  oso_new id row : av_proxy_sessions t' !! id = Some row -> session_subject row <> s ->
    av_proxy_sessions t !! id = Some row;
  oso_stays id row : av_proxy_sessions t !! id = Some row ->
    exists row', av_proxy_sessions t' !! id = Some row' /\ succeeds row row';
  oso_bounds id bound : av_proxy_session_bounds t !! id = Some bound ->
    av_proxy_session_bounds t' !! id = Some bound;
  oso_new_bounds id bound : av_proxy_session_bounds t' !! id = Some bound ->
    av_proxy_session_bounds t !! id = Some bound
    \/ exists row, av_proxy_sessions t' !! id = Some row /\ session_subject row = s;
}.

#[global] Instance own_sessions_only_preorder s : PreOrder (own_sessions_only s).
Proof.
  split.
  - intros t. split; eauto; [exists []; by rewrite app_nil_r|]. intros id row. by exists row.
  - intros a b c [] []. split; try congruence; eauto.
    + destruct oso_audit0 as (n & Hn & ?), oso_audit1 as (n' & Hn' & ?). exists (n ++ n').
      rewrite Hn', Hn, app_assoc. split; [done|]. by apply Forall_app.
    + intros id row (r & Hr & ?)%oso_stays0. apply oso_stays1 in Hr as (r' & ? & ?).
      exists r'. split; [done|by transitivity r].
    + intros id bound [Hb|]%oso_new_bounds1; [|by right].
      apply oso_new_bounds0 in Hb as [|(row & Hr & Hs)]; [by left|right].
      apply oso_stays1 in Hr as (r & ? & _ & Hr & _). exists r. split; congruence.
Qed.

(** The operations that only touch the sessions of [s]. *)
Definition own_op (s : bytes) (t : Tables) (o : op) : Prop :=
  match o with
  | RecordAudit a _ _ _ _ => a = s
  | CreateProxySession _ _ s' _ _ _ | RenewProxySession _ _ s' _
  | RevokeProxySessionForSubject _ s' => s' = s
  | RevokeProxySession id =>
      forall row, av_proxy_sessions t !! id = Some row -> session_subject row = s
  | _ => False
  end.

Lemma own_revoke s t cond :
  (forall id row, av_proxy_sessions t !! id = Some row -> cond id row = true ->
     session_subject row = s) ->
  own_sessions_only s t (revoke_where cond t).
Proof.
  intros Hcond. destruct t as [? ? ? ? ? ? ? ? sessions ?]. split; try done; simpl in *; try (by left);
    [by exists []; rewrite app_nil_r|..]; intros id row; rewrite lookup_update_where.
  - intros Hrow Hs. rewrite Hrow. simpl. destruct (cond id row) eqn:E; [|done].
    by apply Hcond in Hrow.
  - destruct (sessions !! id) as [r|] eqn:Hrow; simpl; [|done]. intros [= <-].
    destruct (cond id r) eqn:E; simpl; [|done].
    destruct (session_revoked r); simpl; [done|]. intros Hs.
    by apply Hcond in Hrow.
  - intros ->. simpl. eexists. split; [done|]. by destruct (cond id row), (session_revoked row).
Qed.

Lemma own_put s t id row :
  (forall r, av_proxy_sessions t !! id = Some r -> session_subject r = s /\ succeeds r row) ->
  session_subject row = s ->
  own_sessions_only s t (set_sessions (<[id := row]>) t).
Proof.
  intros Hold Hrow. destruct t as [? ? ? ? ? ? ? ? sessions ?]. split; try done; simpl in *; try (by left);
    [by exists []; rewrite app_nil_r|..];
    intros i r; destruct (decide (id = i)) as [<-|Hne];
    rewrite ?lookup_insert_eq, ?lookup_insert_ne by done; try done.
  - intros Hr Hs. by apply Hold in Hr as [? _].
  - by intros [= ->].
  - intros [_ Hr]%Hold. by exists row.
  - intros Hr. by exists r.
Qed.

Lemma own_bound s t id row bound :
  av_proxy_sessions t !! id = Some row -> session_subject row = s ->
  av_proxy_session_bounds t !! id = None ->
  own_sessions_only s t (set_bounds (<[id := bound]>) t).
Proof.
  intros Hrow Hs Hn. destruct t as [? ? ? ? ? ? ? ? sessions bounds]. split; try done; simpl in *;
    [by exists []; rewrite app_nil_r|intros i r Hr; by exists r|..]; intros i b.
  - intros Hb. rewrite lookup_insert_ne by congruence. done.
  - intros [[-> _]|[_ Hb]]%lookup_insert_Some; [right; by exists row|by left].
Qed.

Lemma own_effect s o c t t' : effect o c t t' -> own_op s t o -> own_sessions_only s t t'.
Proof.
  destruct o; cbn [own_op]; try done; intros He Ho.
  - destruct He as (now & _ & ->). subst. destruct t. split; simpl; eauto.
    eexists. split; [done|]. by repeat constructor.
  - destruct He as (_ & _ & _ & Hn & _ & Hb & ->). subst.
    transitivity (set_sessions (<[session_id := {| session_token_hash := token_hash;
        session_subject := s; session_profile := profile; session_expires := expires;
        session_revoked := false |}]>) t).
    + apply own_put; [|done]. intros r Hr. congruence.
    + eapply own_bound; [destruct t; apply lookup_insert_eq|done|by destruct t].
  - destruct He as (now & _ & _ & ->). subst. unfold renew_postgres.
    destruct (renewable _ _ _ _) as [row|] eqn:Er; [|done].
    destruct (av_proxy_session_bounds t !! _); [|done]. destruct (now <? z)%Z; [|done].
    apply renewable_spec in Er as (Hrow & <- & _). apply own_put; [|done]. simpl.
    intros r Hr. rewrite Hrow in Hr. by injection Hr as <-.
  - cbn [effect] in He. subst t'. apply own_revoke. intros id row Hrow Hid. breflect in Hid.
    subst. by apply Ho.
  - cbn [effect] in He. subst. apply own_revoke. intros id row _ Hid. breflect in Hid. tauto.
Qed.

Section Facts.
Context {HL : HeaderLib} {UL : UrlLib} {EL : EncodingLib} {JL : JwtLib} {PL : PasswordLib}
  {BL : BackendLib}.
Context (env : Outside) (service : Service).
#[local] Abbreviation IO := (io ServerData).
#[local] Abbreviation W := (Connector.world ServerData).
#[local] Abbreviation state := (app_state service).
Implicit Types w : W.

Inductive SessionRequest :=
| CreateProxySessionRequest (profile : bytes)
| RenewProxySessionRequest (session_id : bytes)
| RevokeProxySessionRequest (session_id : bytes).

Definition handle_session (rq : SessionRequest) (headers : HeaderMap) : IO ProxySessionLease :=
  match rq with
  | CreateProxySessionRequest p => rpc_create_proxy_session env service headers p
  | RenewProxySessionRequest i => rpc_renew_proxy_session env service headers i
  | RevokeProxySessionRequest i => rpc_revoke_proxy_session env service headers i
  end.

(** Nothing happened, or a caller with a credential changed sessions of its own. *)
Definition session_change {A} (headers : HeaderMap) w (_ : result A) (t : Tables) : Prop :=
  t = tbl w \/ exists id, credential_for state headers w id
                 /\ own_sessions_only (subject id) (tbl w) t.

(** The grant check, when it answers. *)
Lemma profile_permitted_reads s p m : reads (profile_permitted state s p m).
Proof.
  unfold profile_permitted. destruct (managed _); [|apply reads_ret].
  apply reads_with_store. unfold profile_allowed_for.
  apply readonly_bind; [apply readonly_now|intros ?].
  apply readonly_bind; [apply readonly_query|intros ?]. apply readonly_ret.
Qed.

Definition granted w (s p : bytes) (m : GrantMode) : Prop :=
  exists now g, clk w = Some now /\ av_capability_grants (tbl w) !! (s, p) = Some g
    /\ grant_permits now m g.

Lemma profile_permitted_ok s p m w b w1 :
  managed (service_auth service) = true ->
  profile_permitted state s p m w = (Ok b, w1) -> b = true <-> granted w s p m.
Proof.
  intros Hm. unfold profile_permitted. cbn [auth app_state]. rewrite Hm. unfold with_store.
  destruct (profile_allowed_for s p m (database (server w))) as [r db] eqn:E.
  intros H. apply pair_equal_spec in H as [-> _].
  apply (profile_allowed_spec s p m (store w)). unfold store. by rewrite E.
Qed.

Lemma ends_start {B} (f : Identity -> IO B) headers w :
  (forall id w1, credential_for state headers w id -> tbl w1 = tbl w -> clk w1 = clk w ->
     ends (session_change headers w) (f id) w1) ->
  ends (session_change headers w) (authorize_connect env state headers ≫= f) w.
Proof.
  intros Hf. apply ends_reads; [apply reads_authorize_connect|by left|].
  intros id w1 H Ht Hc. apply Hf; [|done|done]. by eapply authorize_connect_ok.
Qed.

(** A store call, then anything that stays within the caller's sessions. *)
Lemma ends_own {A B} headers w id (m : DB A) o msg (f : A -> IO B) w1 :
  credential_for state headers w id -> runs m o ->
  own_sessions_only (subject id) (tbl w) (tbl w1) -> own_op (subject id) (tbl w1) o ->
  (forall a w2, own_sessions_only (subject id) (tbl w) (tbl w2) ->
     with_store m w1 = (Ok a, w2) -> ends (session_change headers w) (f a) w2) ->
  ends (session_change headers w) (context_of (with_store m) msg ≫= f) w1.
Proof.
  intros Hid Hm H1 Ho Hf. destruct (runs_effect m o (store w1) Hm) as (_ & Ht & _).
  destruct (m (store w1)) as [r db] eqn:E.
  destruct (with_store_run m w1 r db E) as (w2 & Hw & Hs & _).
  assert (own_sessions_only (subject id) (tbl w) (tbl w2)) as Hown.
  { transitivity (tbl w1); [done|]. unfold tbl. rewrite Hs. simpl in Ht.
    destruct Ht as [Ht|Ht]; [by rewrite Ht|]. by eapply own_effect. }
  unfold ends, mbind, io_bind, context_of. rewrite Hw.
  destruct r as [a|e]; simpl; [by apply Hf|]. right. by exists id.
Qed.

Lemma ends_session_audit {B} headers w id act p i (f : unit -> IO B) w1 :
  credential_for state headers w id ->
  own_sessions_only (subject id) (tbl w) (tbl w1) ->
  (forall u, reads (f u)) ->
  ends (session_change headers w) (session_audit service (subject id) act p i ≫= f) w1.
Proof.
  intros Hid H1 Hf. unfold session_audit, audit_event.
  assert (forall w2, own_sessions_only (subject id) (tbl w) (tbl w2) ->
            ends (session_change headers w) (f ()) w2) as Hend.
  { intros w2 H2. unfold ends. destruct (Hf () w2) as [-> _]. right. by exists id. }
  destruct (managed _); [|by apply Hend].
  eapply (ends_own _ _ _ _ (RecordAudit (subject id) act p (Some i) None));
    [done|by apply runs_self|done|done|]. intros [] w2 H2 _. by apply Hend.
Qed.

Lemma ends_own_read {A B} headers w id (m : IO A) (f : A -> IO B) w1 :
  credential_for state headers w id ->
  own_sessions_only (subject id) (tbl w) (tbl w1) -> reads m ->
  (forall a w2, m w1 = (Ok a, w2) -> tbl w2 = tbl w1 ->
     ends (session_change headers w) (f a) w2) ->
  ends (session_change headers w) (m ≫= f) w1.
Proof.
  intros Hid H1 Hm Hf. apply ends_reads; [done|right; by exists id|].
  intros a w2 Ha Ht _. by apply Hf.
Qed.

Lemma session_of_renewed i s r b w1 ps w2 :
  with_store (renew_proxy_session_for_subject b i s r) w1 = (Ok (Some ps), w2) ->
  exists row, av_proxy_sessions (tbl w2) !! i = Some row /\ session_subject row = s.
Proof.
  unfold with_store.
  destruct (renew_proxy_session_for_subject b i s r (store w1)) as [res db] eqn:E.
  fold (store w1). rewrite E. intros H. apply pair_equal_spec in H as [-> <-].
  destruct (renew_own_live b i s r (store w1) ps) as
    (now & row & bound & _ & _ & _ & _ & Hs & _ & _ & _ & _ & Ht); [by rewrite E|].
  rewrite E in Ht. simpl in Ht. unfold tbl, store. cbn [server database]. rewrite Ht.
  exists (with_expiry (Z.min r bound) row). split; [|done].
  rewrite sessions_set. by rewrite lookup_insert_eq.
Qed.

(** The decision a renewal ends with. *)
Lemma ends_renewal_decision headers w id i row ps w2 :
  credential_for state headers w id ->
  own_sessions_only (subject id) (tbl w) (tbl w2) ->
  av_proxy_sessions (tbl w2) !! i = Some row -> session_subject row = subject id ->
  ends (session_change headers w)
    (permitted ← attempt (profile_permitted state (subject id) (ps_profile ps) Proxy);
     match permitted with
     | Err _ => ensure (Err "internal: managed store unavailable")
     | Ok false =>
         _ ← attempt (with_store (revoke_proxy_session i));
         ensure (Err "permission_denied: profile access is not granted")
     | Ok true =>
         _ ← session_audit service (subject id) &"transparent_proxy_session_renewed"
               (Some (ps_profile ps)) i;
         mret {| lease_session_id := ps_session_id ps; lease_token := []; lease_proxy_url := [];
                 lease_ca_pem := []; lease_expires := ps_expires ps; lease_revoked := false |}
     end) w2.
Proof.
  intros Hid H2 Hrow Hs.
  eapply ends_own_read; [done|done|apply reads_attempt, profile_permitted_reads|].
  intros permitted w3 _ Ht3. rewrite <- Ht3 in H2, Hrow.
  destruct permitted as [[|]|]; [by apply ends_session_audit| |right; by exists id].
  destruct (runs_effect (revoke_proxy_session i) (RevokeProxySession i) (store w3))
    as (_ & Ht & _); [by apply runs_discard|].
  destruct (revoke_proxy_session i (store w3)) as [r db] eqn:E.
  destruct (with_store_run _ w3 r db E) as (w4 & Hw & Hs4 & _).
  unfold ends, mbind, io_bind, attempt. rewrite Hw. right. exists id. split; [done|].
  transitivity (tbl w3); [done|]. cbn [ensure snd]. unfold tbl. rewrite Hs4.
  cbn [snd] in Ht. destruct Ht as [Ht|Ht]; [by rewrite Ht|]. apply (own_effect _ _ _ _ _ Ht).
  intros row' Hrow'. fold (tbl w3) in Hrow'. congruence.
Qed.

#[local] Ltac pass :=
  eapply ends_own_read;
    [eassumption|eassumption
    |first [apply reads_ensure|apply reads_outside
           |apply reads_context; apply profile_permitted_reads]|];
  let Ht := fresh in let w2 := fresh "v" in let H2 := fresh "Hown" in
  intros ? w2 _ Ht;
  match goal with H : own_sessions_only _ _ ?t |- _ =>
    assert (own_sessions_only _ _ (tbl w2)) as H2 by (rewrite Ht; exact H); clear H Ht end.

Lemma handle_session_own rq headers w :
  ends (session_change headers w) (handle_session rq headers) w.
Proof.
  destruct rq; cbn [handle_session]; apply ends_start; intros id w1 Hid Ht Hc;
    assert (own_sessions_only (subject id) (tbl w) (tbl w1)) as H1 by (by rewrite Ht).
  - pass. pass. pass. pass. pass. unfold mint_session. apply ends_assoc. pass.
    apply ends_assoc. pass. pass. pass. pass. pass.
    eapply (ends_own headers w id _ (CreateProxySession _ _ (subject id) _ _ _));
      [done|by apply runs_self|done|done|]. intros [] w2 H2 _.
    by apply ends_session_audit.
  - pass. pass. pass. pass. pass.
    eapply (ends_own headers w id _ (RenewProxySession _ _ (subject id) _));
      [done|by apply runs_discard|done|done|]. intros renewed w2 H2 Hren.
    destruct renewed as [ps|]; [|right; by exists id].
    apply session_of_renewed in Hren as (row & Hrow & Hs).
    by eapply ends_renewal_decision.
  - pass. pass.
    eapply (ends_own headers w id _ (RevokeProxySessionForSubject _ (subject id)));
      [done|by apply runs_discard|done|done|]. intros revoked w2 H2 _.
    by apply ends_session_audit.
Qed.

(** ** What a successful call has done *)

Lemma granted_eq w w1 s p m :
  tbl w1 = tbl w -> clk w1 = clk w -> granted w1 s p m -> granted w s p m.
Proof. unfold granted. by intros -> ->. Qed.

Lemma context_ok {A} (m : IO A) msg w a w1 : context_of m msg w = (Ok a, w1) -> m w = (Ok a, w1).
Proof.
  unfold context_of. destruct (m w) as [r w2]. intros H.
  apply pair_equal_spec in H as [H <-]. by apply with_context_ok in H as ->.
Qed.

Lemma with_store_ok {A} (m : DB A) w a w1 :
  with_store m w = (Ok a, w1) -> m (store w) = (Ok a, store w1).
Proof.
  unfold with_store. fold (store w). destruct (m (store w)) as [r db]. intros H.
  by apply pair_equal_spec in H as [-> <-].
Qed.

Lemma run_effect (m : DB unit) o db db' :
  run_op o = m -> m db = (Ok (), db') -> effect o (clock db) (tables db) (tables db').
Proof. intros <-. apply run_op_ok_effect. Qed.

Lemma reads_run {A} (m : IO A) w r w1 :
  reads m -> m w = (r, w1) -> tbl w1 = tbl w /\ clk w1 = clk w.
Proof. intros Hm H. destruct (Hm w) as [Ht Hc]. by rewrite H in *. Qed.

Lemma session_audit_ok s act p i w u w1 :
  session_audit service s act p i w = (Ok u, w1) ->
  av_proxy_sessions (tbl w1) = av_proxy_sessions (tbl w)
  /\ av_proxy_session_bounds (tbl w1) = av_proxy_session_bounds (tbl w).
Proof.
  unfold session_audit, audit_event. intros H%context_ok.
  destruct (managed _); [|by injection H as _ <-].
  apply with_store_ok in H. destruct u.
  apply (run_effect _ (RecordAudit s act p (Some i) None)) in H as (now & _ & Ht); [|done].
  unfold tbl. rewrite Ht. by destruct (tables (store w)).
Qed.

Lemma system_now_ok w n w1 :
  system_now env w = (Ok n, w1) -> n = system_time env (calls w) /\ w1 = tick w.
Proof. by intros [= <- <-]. Qed.

Record session_opened w (id : Identity) (profile : bytes) (lease : ProxySessionLease) w' : Prop := {
  so_profile : is_Some (bt_get (cfg_profiles (service_config service)) profile);
  so_grant : granted w (subject id) profile Proxy;
  so_row : av_proxy_sessions (tbl w') !! lease_session_id lease = Some
    {| session_token_hash := sha256_digest (lease_token lease); session_subject := subject id;
       session_profile := profile; session_expires := lease_expires lease;
       session_revoked := false |};
  so_bound : exists bound, av_proxy_session_bounds (tbl w') !! lease_session_id lease = Some bound
    /\ (lease_expires lease <= bound)%Z;
  so_unique i r : av_proxy_sessions (tbl w') !! i = Some r ->
    session_token_hash r = sha256_digest (lease_token lease) -> i = lease_session_id lease;
}.

Lemma create_session_ok headers profile w lease w' :
  rpc_create_proxy_session env service headers profile w = (Ok lease, w') ->
  exists id, credential_for state headers w id /\ session_opened w id profile lease w'.
Proof.
  unfold rpc_create_proxy_session, mint_session, sessions_managed. intros H. inv_io. inv_ok.
  apply negb_false_iff in H2. apply negb_false_iff in H3.
  match goal with H : authorize_connect _ _ _ _ = (Ok ?i, _) |- _ => exists i;
    pose proof (authorize_connect_ok _ _ _ _ _ _ H) as Hid;
    apply (reads_run _ _ _ _ (reads_authorize_connect env state headers)) in H as [Ht0 Hc0] end.
  split; [done|].
  apply context_ok in H4. apply negb_false_iff in H5 as ->.
  apply (profile_permitted_ok _ _ _ _ _ _ H2) in H4 as [H4 _].
  apply context_ok, with_store_ok in H10. destruct x19.
  pose proof (run_effect _ (CreateProxySession _ _ (subject x) profile x15 x17) _ _ eq_refl H10)
    as (_ & Hle & _ & Hnone & Hfree & _ & Ht).
  apply session_audit_ok in H11 as [Hs Hb].
  set (credential := mint_proxy_session_credential (take 16 x23) x25) in *.
  assert (av_proxy_sessions (tbl w') = <[session_id credential :=
    {| session_token_hash := credential_token_hash credential; session_subject := subject x;
       session_profile := profile; session_expires := x15; session_revoked := false |}]>
    (av_proxy_sessions (tbl x14))) as Hsess.
  { rewrite Hs. unfold tbl. rewrite Ht. by destruct (tables (store x14)). }
  split; cbn [lease_session_id lease_token lease_expires].
  - by apply bt_contains_true in H3.
  - apply (granted_eq _ x0); auto.
  - rewrite Hsess, lookup_insert_eq. done.
  - exists x17. split; [|done]. rewrite Hb. unfold tbl. rewrite Ht.
    destruct (tables (store x14)). simpl. by rewrite lookup_insert_eq.
  - intros i r. rewrite Hsess. destruct (decide (i = session_id credential)) as [|Hne]; [done|].
    rewrite lookup_insert_ne by done. intros Hr Hh. exfalso.
    by apply (proj1 (session_hash_taken_false _ _) Hfree i r) in Hr.
Qed.

Lemma active_unique h now t id row :
  len h = 32%Z -> av_proxy_sessions t !! id = Some row -> session_token_hash row = h ->
  session_revoked row = false -> (now < session_expires row)%Z ->
  (forall i r, av_proxy_sessions t !! i = Some r -> session_token_hash r = h -> i = id) ->
  (active_proxy_session h {| tables := t; clock := Some now; outcomes := [] |}).1
    = Ok (Some (session_of id row)).
Proof.
  intros Hl Hrow Hh Hrev Hexp Hu. unfold active_proxy_session. rewrite Hl. simpl.
  assert (filter (fun kv : bytes * SessionRow => session_live h now kv.2 = true)
            (av_proxy_sessions t) = {[id := row]}) as ->; [|by rewrite map_to_list_singleton].
  apply map_eq. intros k. destruct (decide (k = id)) as [->|Hne].
  - rewrite lookup_singleton_eq. apply map_lookup_filter_Some. split; [done|].
    unfold session_live. simpl. rewrite bool_decide_eq_true_2, Hrev by done.
    simpl. by apply Z.ltb_lt.
  - rewrite lookup_singleton_ne by done. apply map_lookup_filter_None. right.
    intros r Hr Hlive. unfold session_live in Hlive. simpl in Hlive. breflect in Hlive.
    apply Hne. naive_solver.
Qed.

Lemma active_expired h now t id row :
  len h = 32%Z -> av_proxy_sessions t !! id = Some row -> session_token_hash row = h ->
  (session_expires row <= now)%Z ->
  (forall i r, av_proxy_sessions t !! i = Some r -> session_token_hash r = h -> i = id) ->
  (active_proxy_session h {| tables := t; clock := Some now; outcomes := [] |}).1 = Ok None.
Proof.
  intros Hl Hrow Hh Hexp Hu. unfold active_proxy_session. rewrite Hl. simpl.
  assert (filter (fun kv : bytes * SessionRow => session_live h now kv.2 = true)
            (av_proxy_sessions t) = ∅) as ->; [|by rewrite map_to_list_empty].
  apply map_empty. intros k. apply map_lookup_filter_None. right. intros r Hr Hlive.
  unfold session_live in Hlive. simpl in Hlive. breflect in Hlive.
  destruct Hlive as [[Hh' _] Hl']. pose proof (Hu _ _ Hr Hh') as ->.
  rewrite Hrow in Hr. injection Hr as <-. lia.
Qed.


Lemma renew_session_ok headers i w lease w' :
  rpc_renew_proxy_session env service headers i w = (Ok lease, w') ->
  exists id row bound now runtime,
    credential_for state headers w id
    /\ av_proxy_sessions (tbl w) !! i = Some row /\ session_subject row = subject id
    /\ session_revoked row = false /\ clk w = Some now /\ (now < session_expires row)%Z
    /\ av_proxy_session_bounds (tbl w) !! i = Some bound
    /\ transparent_proxy service = Some runtime
    /\ granted w (subject id) (session_profile row) Proxy
    /\ lease_session_id lease = i /\ lease_token lease = []
    /\ exists n requested, expiration (system_time env n) (session_ttl runtime) = Ok requested
         /\ lease_expires lease = Z.min requested bound
         /\ av_proxy_sessions (tbl w') = <[i := with_expiry (lease_expires lease) row]>
                                           (av_proxy_sessions (tbl w)).
Proof.
  unfold rpc_renew_proxy_session, sessions_managed, proxy_runtime. intros H. inv_io. inv_ok.
  match goal with H : negb (managed _) = false |- _ => apply negb_false_iff in H as Hm end.
  match goal with H : authorize_connect _ _ _ _ = (Ok ?i, _) |- _ => rename i into id;
    pose proof (authorize_connect_ok _ _ _ _ _ _ H) as Hid;
    apply (reads_run _ _ _ _ (reads_authorize_connect env state headers)) in H as [Ht0 Hc0] end.
  match goal with H : system_now _ _ = _ |- _ => apply system_now_ok in H as [Hn ->] end.
  match goal with H : context_of (with_store (renew_proxy_session_for_subject _ _ _ _)) _ _ = _ |- _ =>
    apply context_ok, with_store_ok in H as Hr end.
  match goal with H : attempt _ _ = (Ok ?p, _) |- _ => rename H into Hperm; destruct p as [[|]|];
    [|inv_io; done|inv_io; done] end.
  match goal with H : expiration ?n (session_ttl ?rt) = Ok ?r |- _ =>
    assert (exists k, expiration (system_time env k) (session_ttl rt) = Ok r) as Hexp
      by (eexists; rewrite <- Hn; exact H); clear H Hn end.
  inv_io. inv_ok.
  apply attempt_ok in Hperm.
  pose proof (reads_run _ _ _ _ (profile_permitted_reads _ _ _) Hperm) as [Ht1 _].
  match goal with H : session_audit _ _ _ _ _ _ = _ |- _ => apply session_audit_ok in H as [Hs1 _] end.
  destruct (renew_own_live _ _ _ _ _ _ (f_equal fst Hr)) as
    (now & row & bound & Hc & _ & Hrow & Hbound & Hs & Hrev & Hlive & _ & -> & Ht).
  rewrite Hr in Ht. cbn [snd] in Ht. destruct Hexp as [k Hk].
  pose proof (honest_clock (renew_proxy_session_for_subject (backend service) i (subject id) x9)
    ltac:(unfold renew_proxy_session_for_subject; solve_honest) (store (tick x0))) as Hclk.
  rewrite Hr in Hclk. cbn [snd] in Hclk.
  exists id, row, bound, now, x3.
  apply (profile_permitted_ok _ _ _ _ _ _ Hm) in Hperm as [Hg _].
  destruct (Hg eq_refl) as (now' & g & Hn' & Hgr & Hpm).
  unfold tbl, clk in *. change (store (tick x0)) with (store x0) in *.
  rewrite Hclk, Hc0 in Hn'. rewrite Ht, grants_set_sessions, Ht0 in Hgr.
  rewrite Ht0 in *. rewrite Hc0 in *.
  do 8 (split; [done|]). split; [by exists now', g|]. do 2 (split; [done|]).
  exists k, x9. do 2 (split; [done|]). by rewrite Hs1, Ht1, Ht, sessions_set.
Qed.

(** ** Listing destinations *)

Lemma collect_destinations_ok {A} (profile_of : A -> bytes) describe s entries w ds w1 x :
  managed (service_auth service) = true ->
  collect_destinations service profile_of describe s entries w = (Ok ds, w1) ->
  (tbl w1 = tbl w /\ clk w1 = clk w)
  /\ (x ∈ ds <-> exists name entry, (name, entry) ∈ entries
        /\ granted w s (profile_of entry) Proxy /\ describe name entry = Ok x).
Proof.
  intros Hm. revert w ds w1. induction entries as [|[name entry] entries IH]; intros w ds w1.
  { intros H. injection H as <- <-. split; [done|]. split; [by intros ?%elem_of_nil|].
    by intros (? & ? & ?%elem_of_nil & _). }
  cbn [collect_destinations]. intros H. inv_io.
  match goal with H : context_of _ _ _ = _ |- _ => apply context_ok in H; rename H into Hp end.
  pose proof (reads_run _ _ _ _ (profile_permitted_reads _ _ _) Hp) as [Ht Hc].
  apply (profile_permitted_ok _ _ _ _ _ _ Hm) in Hp.
  assert (forall v, tbl v = tbl w -> clk v = clk w -> forall p,
            granted v s p Proxy <-> granted w s p Proxy) as Hg.
  { intros v Hv Hv' p. split; apply granted_eq; congruence. }
  destruct x0; inv_io; inv_ok.
  - match goal with H : collect_destinations _ _ _ _ _ _ = _ |- _ => apply IH in H as [[Ht' Hc'] IHx] end.
    split; [split; congruence|]. rewrite elem_of_cons, IHx. setoid_rewrite (Hg _ Ht Hc).
    setoid_rewrite elem_of_cons. split.
    + intros [->|(n & e & ? & ? & ?)]; [|naive_solver]. exists name, entry. naive_solver.
    + intros (n & e & [[= -> ->]|?] & ? & ?); [left; congruence|naive_solver].
  - apply IH in H as [[Ht' Hc'] IHx]. split; [split; congruence|].
    rewrite IHx. setoid_rewrite (Hg _ Ht Hc). setoid_rewrite elem_of_cons. split.
    + naive_solver.
    + intros (n & e & [[= -> ->]|?] & Hgr & ?); [|naive_solver]. by apply Hp in Hgr.
Qed.

(** ** Claims *)

(** C23: a request to the session service never changes anything but sessions of
    the caller's own subject, the bounds of sessions it opens for it, and the audit log,
    to which it only adds entries that name the caller, whatever it answers; a session
    keeps its token, subject and profile, and a revoked one stays revoked.  Without a
    valid credential the request changes nothing. *)
Theorem session_service_isolated rq headers w :
  tbl (handle_session rq headers w).2 = tbl w
  \/ exists id, credential_for state headers w id
       /\ own_sessions_only (subject id) (tbl w) (tbl (handle_session rq headers w).2).
Proof. apply handle_session_own. Qed.

(** C22: a session is opened only for an authenticated subject with a current
    proxy grant on a configured profile, and the token handed out, whose digest
    alone is stored, identifies exactly that session until it expires. *)
Theorem opened_session_authorised {LAWS : EncodingLaws} headers profile w lease w' now :
  rpc_create_proxy_session env service headers profile w = (Ok lease, w') ->
  exists id, credential_for state headers w id
    /\ is_Some (bt_get (cfg_profiles (service_config service)) profile)
    /\ granted w (subject id) profile Proxy
    /\ (active_proxy_session (proxy_session_token_hash (lease_token lease))
          {| tables := tbl w'; clock := Some now; outcomes := [] |}).1
       = Ok (if (now <? lease_expires lease)%Z then Some
               {| ps_session_id := lease_session_id lease; ps_subject := subject id;
                  ps_profile := profile; ps_expires := lease_expires lease |}
             else None).
Proof.
  intros H. apply create_session_ok in H as (id & Hid & [Hp Hg Hrow _ Hu]).
  exists id. split_and!; [done..|]. unfold proxy_session_token_hash.
  assert (len (sha256_digest (lease_token lease)) = 32%Z) as Hl
    by (unfold len; by rewrite sha256_digest_length).
  destruct (now <? lease_expires lease)%Z eqn:E; breflect in E.
  - by apply (active_unique _ _ _ _ _ Hl Hrow).
  - by apply (active_expired _ _ _ _ _ Hl Hrow).
Qed.

(** A renewal succeeds only for the session's own authenticated subject,
    while the session is live, unrevoked and its profile still granted; it moves
    that one expiry, never past the bound fixed at creation, and returns no
    credential. *)
Theorem renewal_requires_grant headers i w lease w' :
  rpc_renew_proxy_session env service headers i w = (Ok lease, w') ->
  exists id row bound now,
    credential_for state headers w id /\ session_subject row = subject id
    /\ av_proxy_sessions (tbl w) !! i = Some row /\ session_revoked row = false
    /\ clk w = Some now /\ (now < session_expires row)%Z
    /\ av_proxy_session_bounds (tbl w) !! i = Some bound
    /\ granted w (subject id) (session_profile row) Proxy
    /\ lease_token lease = [] /\ (lease_expires lease <= bound)%Z
    /\ av_proxy_sessions (tbl w') = <[i := with_expiry (lease_expires lease) row]>
                                      (av_proxy_sessions (tbl w)).
Proof.
  intros H. apply renew_session_ok in H as
    (id & row & bound & now & rt & Hid & Hrow & Hs & Hrev & Hc & Hlive & Hb & _ & Hg & _ & Ht
      & n & requested & _ & He & Hw).
  exists id, row, bound, now. split_and!; try done. rewrite He. apply Z.le_min_r.
Qed.

(** The destination listing is exact: the caller sees precisely the configured
    routes and tunnels whose profile is granted to it for proxying. *)
Theorem listed_destinations_exact headers w ds w' x :
  managed (service_auth service) = true ->
  list_proxy_destinations env service headers w = (Ok ds, w') ->
  exists id, credential_for state headers w id
    /\ (x ∈ ds <->
         (exists name route, (name, route) ∈ cfg_proxy_routes (service_config service)
            /\ granted w (subject id) (route_profile route) Proxy
            /\ describe_route name route = Ok x)
         \/ (exists name tunnel, (name, tunnel) ∈ cfg_proxy_tunnels (service_config service)
            /\ granted w (subject id) (tunnel_profile tunnel) Proxy
            /\ describe_tunnel name tunnel = Ok x)).
Proof.
  intros Hm. unfold list_proxy_destinations. intros H. inv_io.
  match goal with H : authorize_connect _ _ _ _ = (Ok ?i, _) |- _ => exists i;
    pose proof (authorize_connect_ok _ _ _ _ _ _ H) as Hid;
    apply (reads_run _ _ _ _ (reads_authorize_connect env state headers)) in H as [Ht0 Hc0] end.
  split; [done|]. inv_ok. rewrite elem_of_order_by, elem_of_app.
  repeat match goal with H : collect_destinations _ _ _ _ _ _ = _ |- _ =>
    apply (collect_destinations_ok _ _ _ _ _ _ _ x Hm) in H as [[? ?] ->] end.
  assert (forall v, tbl v = tbl w -> clk v = clk w -> forall s p,
            granted v s p Proxy <-> granted w s p Proxy) as Hg.
  { intros v Hv Hv' s p. split; apply granted_eq; congruence. }
  setoid_rewrite (Hg x1 Ht0 Hc0). by setoid_rewrite (Hg x3 ltac:(congruence) ltac:(congruence)).
Qed.
End Facts.

(** ** Witnesses *)

Module SessionModels.
Import Models AuthModels ConnectorModels LeaseModels ConfigModels.

Definition service : Service := {|
  service_config := expanded; service_connectors := []; service_auth := authenticator;
  transparent_proxy := Some {|
    runtime_proxy_url := &"https://proxy.example.test:14323";
    session_ttl := from_secs 300; session_max_lifetime := from_secs 600;
    catalog := sample_catalog; certificate_pem := &"PEM" |};
  backend := Postgres |}.

Definition granted_tables : Tables :=
  StoreProps.Sample.after (GrantProfileMode &"agent:bot" &"deploy" Proxy (Some 500%Z)) agent_tables.
Definition quiet_world : Connector.world ServerData := {|
  calls := 0; exchanges := []; tokens := ∅;
  server := {| active := ∅;
    database := {| tables := granted_tables; clock := Some 10%Z; outcomes := [] |};
    keys := cold |} |}.

Definition opened := rpc_create_proxy_session (outside_world 200) service as_agent &"deploy" quiet_world.
Definition opened_lease : ProxySessionLease := {|
  lease_session_id := base64_url_safe_no_pad (repeat "r"%char 16);
  lease_token := base64_url_safe_no_pad (repeat "r"%char 32);
  lease_proxy_url := &"https://proxy.example.test:14323"; lease_ca_pem := &"PEM";
  lease_expires := 400; lease_revoked := false |}.
Example opened_ok : opened.1 = Ok opened_lease.
Proof. vm_compute. reflexivity. Qed.

Lemma opened_session_authorised_witness :
  (active_proxy_session (proxy_session_token_hash (lease_token opened_lease))
     {| tables := tbl opened.2; clock := Some 399%Z; outcomes := [] |}).1
  = Ok (Some {| ps_session_id := lease_session_id opened_lease; ps_subject := &"agent:bot";
                ps_profile := &"deploy"; ps_expires := 400 |})
  /\ exists id, granted quiet_world (subject id) &"deploy" Proxy.
Proof.
  split; [vm_compute; reflexivity|].
  destruct (opened_session_authorised (outside_world 200) service as_agent &"deploy" quiet_world
    opened_lease opened.2 399) as (id & _ & _ & Hg & _).
  - vm_compute. reflexivity.
  - exists id. exact Hg.
Defined.

Definition renewed :=
  rpc_renew_proxy_session (outside_world 200) service as_agent (lease_session_id opened_lease) opened.2.
Definition renewed_lease : ProxySessionLease := {|
  lease_session_id := lease_session_id opened_lease; lease_token := []; lease_proxy_url := [];
  lease_ca_pem := []; lease_expires := 400; lease_revoked := false |}.

Lemma renewal_requires_grant_witness :
  exists id row, av_proxy_sessions (tbl opened.2) !! lease_session_id opened_lease = Some row
    /\ session_subject row = subject id.
Proof.
  destruct (renewal_requires_grant (outside_world 200) service as_agent
    (lease_session_id opened_lease) opened.2 renewed_lease renewed.2)
    as (id & row & _ & _ & _ & Hs & Hrow & _).
  - vm_compute. reflexivity.
  - exists id, row. split; [exact Hrow|exact Hs].
Defined.

Definition listing := list_proxy_destinations (outside_world 200) service as_agent quiet_world.
Definition listed : list RpcProxyDestination := [
  {| rpc_destination := &"items"; rpc_destination_profile := &"deploy";
     rpc_host := &"api.example.test"; rpc_mode_name := &"injecting" |};
  {| rpc_destination := &"registry"; rpc_destination_profile := &"deploy";
     rpc_host := &"Registry.Example.test."; rpc_mode_name := &"tunnel" |};
  {| rpc_destination := &"verify"; rpc_destination_profile := &"deploy";
     rpc_host := &"api.cloudflare.com"; rpc_mode_name := &"injecting" |}].
Example listing_ok : listing.1 = Ok listed.
Proof. vm_compute. reflexivity. Qed.

Definition verify_destination : RpcProxyDestination := {|
  rpc_destination := &"verify"; rpc_destination_profile := &"deploy";
  rpc_host := &"api.cloudflare.com"; rpc_mode_name := &"injecting" |}.

Lemma listed_destinations_exact_witness :
  exists id, (exists name route, (name, route) ∈ cfg_proxy_routes expanded
      /\ granted quiet_world (subject id) (route_profile route) Proxy
      /\ describe_route name route = Ok verify_destination)
    \/ (exists name tunnel, (name, tunnel) ∈ cfg_proxy_tunnels expanded
      /\ granted quiet_world (subject id) (tunnel_profile tunnel) Proxy
      /\ describe_tunnel name tunnel = Ok verify_destination).
Proof.
  destruct (listed_destinations_exact (outside_world 200) service as_agent quiet_world listed
    listing.2 verify_destination) as (id & _ & Hiff).
  - reflexivity.
  - vm_compute. reflexivity.
  - exists id. apply Hiff. right. right. left.
Defined.
End SessionModels.
