(* ===== verification/Proxy.v ===== *)
(** Proxy: the request path of src/server.rs, from an authenticated or tunnelled
    HTTP request to the upstream and back ([proxy], [proxy_request],
    [proxy_websocket_request], [profile_secrets], [transparent_connect_response],
    [transparent_tunnel_response] and their helpers).

    The computations of Leases.v are run inside a world that also logs every
    contact with an upstream.  [Network] is what lies outside the process on
    this path: the upstream servers, the resolver, TCP and the rate limiter's
    verdict.  A streamed body is a value that [stream_next] advances, as
    [try_unfold] does. *)

From Stdlib Require Import Ascii String.
From stdpp Require Import base list strings gmap sorting.
From S2P Require Import Prelude Str BTree External Models Redaction Database Store Auth Ip Net Policy Request Injection WebSocket Catalog Connector Config Leases Control Sessions.

(** [tungstenite::handshake::derive_accept_key] *)
Class WebSocketLib := derive_accept_key : bytes -> bytes.

(** A message and its newline. *)
Definition line (message : bytes) : bytes := message ++ [ascii_of_nat 10].

Definition status_ok : Z := 200.
Definition status_switching_protocols : Z := 101.
Definition status_forbidden : Z := 403.
Definition status_proxy_auth_required : Z := 407.
Definition status_too_large : Z := 413.
Definition status_too_many_requests : Z := 429.
Definition status_bad_gateway : Z := 502.
Definition status_unavailable : Z := 503.

Section Proxy.
Context {HL : HeaderLib} {UL : UrlLib} {EL : EncodingLib} {JL : JwtLib} {PL : PasswordLib}
  {BL : BackendLib} {WL : WebSocketLib}.

(** ** Contacts with upstreams *)

Record UpstreamRequest := {
  ur_method : bytes; ur_target : Url; ur_headers : HeaderMap; ur_body : bytes }.
(** A chunk is [None] where reading it fails; [us_upgrade] tells whether the
    connection can be taken over after a 101. *)
Record UpstreamResponse := {
  us_status : Z; us_content_length : option Z; us_headers : HeaderMap;
  us_chunks : list (option bytes); us_upgrade : bool }.
Inductive Contact := Requested (rq : UpstreamRequest) | Dialed (address : IpAddr).

Record Network := {
  (** [api_rate_limiter.try_acquire] *)
  rate_permits : nat -> bool;
  (** [proxy_client] and [websocket_client] *)
  upstream_send : nat -> UpstreamRequest -> option UpstreamResponse;
  (** [lookup_host((host, 443))] *)
  lookup_host : nat -> bytes -> option (list IpAddr);
  (** [TcpStream::connect] to port 443 within its time-out, and [set_nodelay] *)
  tcp_connect : nat -> IpAddr -> bool;
  set_nodelay : nat -> bool;
}.

Record ProxyData := { server_data : ServerData; contacts : list Contact }.
Context (env : Outside) (net : Network) (service : Service).
#[local] Abbreviation PX := (io ProxyData).
#[local] Abbreviation state := (app_state service).

Definition inner (w : world ProxyData) : world ServerData :=
  {| calls := calls w; exchanges := exchanges w; tokens := tokens w;
     server := server_data (server w) |}.
Definition outer (w : world ServerData) (log : list Contact) : world ProxyData :=
  {| calls := calls w; exchanges := exchanges w; tokens := tokens w;
     server := {| server_data := server w; contacts := log |} |}.
Definition zoom {A} (m : io ServerData A) : PX A := fun w =>
  let '(r, w') := m (inner w) in (r, outer w' (contacts (server w))).

Definition contact (c : Contact) : PX unit :=
  d ← get_server;
  set_server {| server_data := server_data d; contacts := contacts d ++ [c] |}.
Definition send_upstream (rq : UpstreamRequest) : PX UpstreamResponse :=
  _ ← contact (Requested rq);
  answer ← outside (fun n => upstream_send net n rq);
  ensure (ok_or answer "error sending request").

(** ** Responses *)

Record BodyStream := {
  bs_chunks : list (option bytes); bs_redactor : StreamingRedactor; bs_total : Z;
  bs_maximum : Z; bs_finished : bool; bs_lease : option DynamicLeaseOwner }.
Inductive Body := Full (content : bytes) | Streamed (stream : BodyStream).
Record Response := {
  response_status : Z; response_headers : list (bytes * bytes); response_body : Body }.

(** [headers_mut().insert] *)
Definition header_insert (name value : bytes) (headers : list (bytes * bytes)) :=
  filter (fun h => h.1 <> name) headers ++ [(name, value)].
Definition plain (code : Z) (message : bytes) : Response :=
  {| response_status := code; response_headers := [(&"content-type", &"text/plain; charset=utf-8")];
     response_body := Full message |}.
Definition no_store (r : Response) : Response :=
  {| response_status := response_status r;
     response_headers := header_insert &"x-content-type-options" &"nosniff"
                           (header_insert &"cache-control" &"no-store" (response_headers r));
     response_body := response_body r |}.
Definition unauthorized : Response :=
  let r := plain 401 (line &"authentication required") in
  no_store {| response_status := response_status r;
    response_headers := header_insert &"www-authenticate"
      (&"Bearer, Basic realm=" ++ [ascii_of_nat 34] ++ &"av" ++ [ascii_of_nat 34])
      (response_headers r);
    response_body := response_body r |}.
Definition internal_error : Response := no_store (plain status_bad_gateway (line &"connector request failed")).

(** [transparent_response] drops its message. *)
Definition transparent_response (code : Z) : Response :=
  {| response_status := code; response_headers := []; response_body := Full [] |}.
Definition transparent_proxy_auth_required : Response :=
  {| response_status := status_proxy_auth_required;
     response_headers := [(&"proxy-authenticate", &"Bearer")]; response_body := Full [] |}.
Definition transparent_full_response (code : Z) (message : bytes) : Response :=
  {| response_status := code; response_headers := []; response_body := Full message |}.

(** ** Dynamic leases held by a request *)

Definition drop_lease (lease : option DynamicLeaseOwner) : PX unit :=
  match lease with Some owner => zoom (owner_drop env state owner) | None => mret () end.
(** An error between acquiring a lease and handing it on drops its owner. *)
Definition guarded {A} (lease : option DynamicLeaseOwner) (m : PX A) : PX A :=
  r ← attempt m;
  match r with
  | Ok a => mret a
  | Err e => _ ← drop_lease lease; ensure (Err e)
  end.

(** ** [proxy_request] *)

Record ProxyRequestContext := {
  context_subject : bytes; context_validated : ValidatedProxyRequest;
  context_method : bytes; context_headers : HeaderMap }.

(** The loop over [allowed_response_headers]. *)
Fixpoint copy_response_headers (set : RedactionSet) (upstream : HeaderMap) (configured : list bytes)
    : result (list (bytes * bytes)) :=
  match configured with
  | [] => Ok []
  | h :: configured =>
      name ← ok_or (name_from_bytes h) "invalid HTTP header name";
      rest ← copy_response_headers set upstream configured;
      Ok (match hm_get upstream name ≫= redact_header set with
          | Some value => (name_as_str name, value_as_bytes value) :: rest
          | None => rest
          end)
  end.

Fixpoint read_buffered (maximum : Z) (acc : bytes) (chunks : list (option bytes))
    : result bytes :=
  match chunks with
  | [] => Ok acc
  | None :: _ => Err "error reading a body from connection"
  | Some chunk :: chunks =>
      if (maximum <? saturating_add (len acc) (len chunk))%Z
      then Err "upstream response is too large"
      else read_buffered maximum (acc ++ chunk) chunks
  end.

Definition proxy_request (route : ProxyRouteConfig) (request : ProxyRequestContext) (body : bytes)
    : PX Response :=
  profile ← ensure (ok_or (bt_get (profiles state) (route_profile route))
                      "proxy profile disappeared");
  '(values, lease) ← zoom (acquire_owned_proxy_secrets env state (route_profile route) profile
                             (context_subject request));
  '(prepared, upstream, headers) ← guarded lease (
    prepared ← ensure (prepare_credentials route values body);
    target ← ensure (build_target_url route (context_validated request));
    outbound_headers ← ensure (prepare_outbound_headers route (context_headers request) prepared);
    upstream ← send_upstream {| ur_method := context_method request; ur_target := target;
                                ur_headers := outbound_headers; ur_body := Injection.body prepared |};
    _ ← ensure (bail_if (match us_content_length upstream with
                         | Some length => (max_response_bytes route <? length)%Z
                         | None => false end) "upstream response is too large");
    headers ← ensure (copy_response_headers (redaction prepared) (us_headers upstream)
                        (allowed_response_headers route));
    mret (prepared, upstream, headers));
  match response_mode route with
  | Buffered =>
      bytes ← guarded lease (
        bytes ← ensure (read_buffered (max_response_bytes route) [] (us_chunks upstream));
        ensure (ok_or (redact_bytes (redaction prepared) bytes) "redaction did not finish"));
      _ ← match lease with
          | Some owner => context_of (zoom (owner_revoke env state owner))
                            "revoke dynamic buffered proxy lease"
          | None => mret ()
          end;
      mret {| response_status := us_status upstream; response_headers := headers;
              response_body := Full bytes |}
  | Streaming =>
      mret {| response_status := us_status upstream; response_headers := headers;
              response_body := Streamed {|
                bs_chunks := us_chunks upstream; bs_redactor := into_streaming (redaction prepared);
                bs_total := 0; bs_maximum := max_response_bytes route; bs_finished := false;
                bs_lease := lease |} |}
  end.

(** The loop inside the closure of [try_unfold]; an error drops the state and
    with it the lease. *)
Fixpoint read_stream (maximum : Z) (redactor : StreamingRedactor) (total : Z)
    (lease : option DynamicLeaseOwner) (chunks : list (option bytes))
    : PX (option (bytes * BodyStream)) :=
  match chunks with
  | None :: _ => _ ← drop_lease lease; ensure (Err "error reading a body from connection")
  | Some chunk :: chunks =>
      let total := saturating_add total (len chunk) in
      if (maximum <? total)%Z
      then _ ← drop_lease lease; ensure (Err "upstream streaming response is too large")
      else
        '(output, redactor) ← ensure (ok_or (push redactor chunk) "redaction did not finish");
        if is_empty output then read_stream maximum redactor total lease chunks
        else mret (Some (output, {| bs_chunks := chunks; bs_redactor := redactor;
               bs_total := total; bs_maximum := maximum; bs_finished := false; bs_lease := lease |}))
  | [] =>
      '(output, redactor) ← ensure (ok_or (finish redactor) "redaction did not finish");
      _ ← match lease with
          | Some owner => zoom (owner_revoke env state owner)
          | None => mret ()
          end;
      if is_empty output then mret None
      else mret (Some (output, {| bs_chunks := []; bs_redactor := redactor; bs_total := total;
             bs_maximum := maximum; bs_finished := true; bs_lease := None |}))
  end.
Definition stream_next (s : BodyStream) : PX (option (bytes * BodyStream)) :=
  if bs_finished s then mret None
  else read_stream (bs_maximum s) (bs_redactor s) (bs_total s) (bs_lease s) (bs_chunks s).

(** A response that is not sent after all drops its body and the lease in it. *)
Definition drop_body (r : Response) : PX unit :=
  match response_body r with Streamed s => drop_lease (bs_lease s) | Full _ => mret () end.

(** ** The HTTP handlers *)

Definition is_trusted_browser_origin (headers : HeaderMap) (public_url : bytes) : bool :=
  let origin_allowed :=
    match hm_get headers (from_static &"origin") ≫= value_to_str with
    | Some origin => bool_decide (origin = public_url)
    | None => true
    end in
  let fetch_site_allowed :=
    match hm_get headers (from_static &"sec-fetch-site") ≫= value_to_str with
    | Some value => bool_decide (value ∈ [&"same-origin"; &"none"])
    | None => true
    end in
  origin_allowed && fetch_site_allowed.

Definition forbidden : Response := plain status_forbidden (line &"proxy request forbidden").

(** [uri] is its query; [path] the captured rest of the path. *)
Definition proxy (route_name path : bytes) (uri_query : option bytes) (method : bytes)
    (headers : HeaderMap) (body : bytes) : PX Response :=
  or_return (zoom (authorize_connect env state headers)) unauthorized (fun identity =>
  match bt_get (cfg_proxy_routes (service_config service)) route_name with
  | None => mret (plain 404 (line &"proxy route not found"))
  | Some route =>
  if is_websocket_attempt headers
  then mret (plain status_forbidden (line &"WebSockets require a transparent proxy session")) else
  or_return (zoom (profile_permitted state (subject identity) (route_profile route) Proxy))
    internal_error (fun permitted : bool =>
  if negb permitted then mret forbidden else
  if negb (is_trusted_browser_origin headers (cfg_public_url (service_config service)))
  then mret forbidden else
  if (max_body_bytes route <? len body)%Z
  then mret (plain status_too_large (line &"proxy request is too large")) else
  match validate_proxy_request route path uri_query method headers (len body) with
  | Err _ => mret forbidden
  | Ok validated =>
  or_return (zoom (audit_event state (subject identity) &"proxy_request_started"
                     (Some (route_profile route)) (Some route_name) None)) internal_error (fun _ =>
  or_return (proxy_request route {| context_subject := subject identity;
               context_validated := validated; context_method := method;
               context_headers := headers |} body)
    (plain status_bad_gateway (line &"proxy request failed")) (fun response => mret (no_store response)))
  end)
  end).

(** The JSON text of the profile's values is left to [serde_json]. *)
Definition profile_secrets (headers : HeaderMap) (profile : bytes)
    : PX (Response + BTreeMap bytes) :=
  or_return (zoom (authorize_connect env state headers)) (inl unauthorized) (fun identity =>
  match bt_get (profiles state) profile with
  | None => mret (inl (plain 404 (line &"profile not found")))
  | Some profile_config =>
  or_return (zoom (profile_permitted state (subject identity) profile Environment))
    (inl internal_error) (fun permitted : bool =>
  if negb permitted then mret (inl (plain status_forbidden (line &"profile access is not granted"))) else
  or_return (zoom (fetch_secrets env state profile_config)) (inl internal_error) (fun secrets =>
  or_return (zoom (audit_event state (subject identity) &"profile_lease" (Some profile) None
                     (Some &"legacy-api"))) (inl internal_error) (fun _ =>
  mret (inr secrets))))
  end).

(** ** CONNECT *)

(** What the connection becomes once it has been upgraded. *)
Inductive OpenTunnel :=
| TlsTunnel (route_name host token_hash session_id : bytes)
| RawTunnel (address : IpAddr).

Definition address_key (a : IpAddr) : list Z :=
  match a with
  | V4 a => [4; octet0 a; octet1 a; octet2 a; octet3 a]%Z
  | V6 a => [6; seg0 a; seg1 a; seg2 a; seg3 a; seg4 a; seg5 a; seg6 a; seg7 a]%Z
  end.
Fixpoint lex_le (xs ys : list Z) : bool :=
  match xs, ys with
  | [], _ => true
  | _, [] => false
  | x :: xs, y :: ys => (x <? y)%Z || ((x =? y)%Z && lex_le xs ys)
  end.
(** [collect::<BTreeSet<_>>()]: sorted, without repetitions; the port is 443 throughout. *)
Definition address_set (addresses : list IpAddr) : list IpAddr :=
  merge_sort (fun a b => Is_true (lex_le (address_key a) (address_key b)))
    (remove_dups addresses).

Fixpoint dial (addresses : list IpAddr) : PX IpAddr :=
  match addresses with
  | [] => ensure (Err "tunnel upstream is unavailable")
  | address :: addresses =>
      _ ← contact (Dialed address);
      connected ← outside (fun n => tcp_connect net n address);
      if (connected : bool) then
        configured ← outside (set_nodelay net);
        _ ← ensure (bail_if (negb configured) "configure credentialless tunnel socket");
        mret address
      else dial addresses
  end.
Definition connect_credentialless_upstream (host : bytes) (allow_private_ips : bool) : PX IpAddr :=
  addresses ← outside (fun n => lookup_host net n host);
  addresses ← ensure (ok_or addresses "resolve configured tunnel host {host}");
  let addresses := address_set addresses in
  _ ← ensure (bail_if (is_empty addresses || (16 <? len addresses)%Z)
        "configured tunnel host resolved to an invalid number of addresses");
  _ ← ensure (bail_if (existsb (fun a => negb (tunnel_ip_allowed a allow_private_ips)) addresses)
        "configured tunnel host resolved to a denied address");
  dial addresses.

Definition transparent_connect_response (catalog : TransparentRouteCatalog) (method : bytes)
    (uri : Uri) (headers : HeaderMap) : PX (Response * option OpenTunnel) :=
  let reject code := mret (transparent_response code, None) in
  permit ← outside (rate_permits net);
  if negb permit then reject status_too_many_requests else
  if match hm_get headers (from_static &"content-length") with
     | Some value => negb (bool_decide (value_as_bytes value = &"0"))
     | None => false end
  then reject 400%Z else
  match authorize_connect_request method uri headers catalog with
  | Err _ => reject status_forbidden
  | Ok authorized =>
  if negb (managed (auth state)) then mret (transparent_proxy_auth_required, None) else
  or_return (zoom (with_store (active_proxy_session (connect_token_hash authorized))))
    (transparent_response status_unavailable, None) (fun session =>
  match session with
  | None => mret (transparent_proxy_auth_required, None)
  | Some session =>
  if negb (bool_decide (ps_profile session = destination_profile (destination authorized)))
  then reject status_forbidden else
  or_return (zoom (profile_permitted state (ps_subject session) (ps_profile session) Proxy))
    (transparent_response status_unavailable, None) (fun permitted : bool =>
  if negb permitted then reject status_forbidden else
  or_return (match destination authorized with
             | Injecting name _ => mret (TlsTunnel name (connect_host authorized)
                                           (connect_token_hash authorized) (ps_session_id session))
             | Tunnel _ _ host allow_private_ips =>
                 address ← connect_credentialless_upstream host allow_private_ips;
                 mret (RawTunnel address)
             end)
    (transparent_response status_bad_gateway, None) (fun tunnel =>
  (* the task that serves [tunnel] is spawned here; it starts when a 2xx response
     has been sent *)
  or_return (zoom (audit_event state (ps_subject session) &"transparent_proxy_connect"
                     (Some (ps_profile session)) (Some (destination_name (destination authorized)))
                     None))
    (transparent_response status_unavailable, Some tunnel) (fun _ =>
  mret (transparent_response status_ok, Some tunnel))))
  end)
  end.

(** ** WebSockets *)

Record WebSocketSessionContext := {
  wss_token_hash : bytes; wss_session_id : bytes; wss_profile : bytes;
  wss_policy : ProxyWebSocketConfig; wss_redaction : RedactionSet;
  wss_lease : option DynamicLeaseOwner }.

Definition copy_handshake_header (inbound outbound : HeaderMap) (name : bytes) : HeaderMap :=
  match hm_get inbound (from_static name) with
  | Some value => hm_insert outbound (from_static name) value
  | None => outbound
  end.
Definition handshake_headers (inbound outbound : HeaderMap) : result HeaderMap :=
  let outbound := fold_left (copy_handshake_header inbound)
    [&"origin"; &"sec-websocket-key"; &"sec-websocket-version"; &"sec-websocket-protocol"] outbound in
  upgrade ← ok_or (value_from_bytes &"Upgrade") "constant header value";
  websocket ← ok_or (value_from_bytes &"websocket") "constant header value";
  Ok (hm_insert (hm_insert outbound (from_static &"connection") upgrade)
        (from_static &"upgrade") websocket).

(** The checks on the upstream's answer: the accept value and the subprotocol. *)
Definition check_upgrade (headers : HeaderMap) (policy : ProxyWebSocketConfig)
    (upstream : UpstreamResponse) : result (bytes * option bytes) :=
  _ ← bail_if (negb (us_status upstream =? status_switching_protocols)%Z
               || negb (header_contains_token (us_headers upstream) (from_static &"connection")
                          &"upgrade")
               || negb (single_header_equals (us_headers upstream) (from_static &"upgrade")
                          &"websocket")
               || hm_contains_key (us_headers upstream) (from_static &"sec-websocket-extensions"))
        "upstream rejected or returned an unsafe WebSocket upgrade";
  request_key ← single_header_text headers (from_static &"sec-websocket-key");
  let expected_accept := derive_accept_key request_key in
  accept ← single_header_text (us_headers upstream) (from_static &"sec-websocket-accept");
  _ ← bail_if (negb (bool_decide (accept = expected_accept)))
        "upstream returned an invalid WebSocket accept value";
  requested_protocols ← websocket_subprotocols headers;
  selected ← single_optional_header_text (us_headers upstream) (from_static &"sec-websocket-protocol");
  _ ← bail_if (match selected with
               | Some selected => negb (bool_decide (selected ∈ requested_protocols))
                                  || negb (bool_decide (selected ∈ allowed_subprotocols policy))
               | None => false end)
        "upstream selected an unrequested WebSocket subprotocol";
  _ ← bail_if (negb (us_upgrade upstream)) "upgrade upstream connection";
  Ok (expected_accept, selected).

Definition proxy_websocket_request (route : ProxyRouteConfig) (request : ProxyRequestContext)
    (token_hash session_id : bytes) : PX (Response * WebSocketSessionContext) :=
  policy ← ensure (ok_or (websocket route) "WebSockets are not enabled for this route");
  _ ← ensure (bail_if (negb (bool_decide (context_method request = &"GET")))
        "WebSocket upgrade requires GET");
  _ ← ensure (validate_websocket_handshake (context_headers request) policy);
  profile ← ensure (ok_or (bt_get (profiles state) (route_profile route))
                      "proxy profile disappeared");
  '(values, lease) ← zoom (acquire_owned_proxy_secrets env state (route_profile route) profile
                             (context_subject request));
  '(prepared, accept, selected) ← guarded lease (
    prepared ← ensure (prepare_websocket_credentials route values);
    target ← ensure (build_target_url route (context_validated request));
    outbound_headers ← ensure (prepare_outbound_headers route (context_headers request) prepared);
    outbound_headers ← ensure (handshake_headers (context_headers request) outbound_headers);
    upstream ← send_upstream {| ur_method := context_method request; ur_target := target;
                                ur_headers := outbound_headers; ur_body := [] |};
    '(accept, selected) ← ensure (check_upgrade (context_headers request) policy upstream);
    mret (prepared, accept, selected));
  let session := {| wss_token_hash := token_hash; wss_session_id := session_id;
    wss_profile := route_profile route; wss_policy := policy;
    wss_redaction := redaction prepared; wss_lease := lease |} in
  mret ({| response_status := status_switching_protocols;
           response_headers := [(&"connection", &"Upgrade"); (&"upgrade", &"websocket");
                                (&"sec-websocket-accept", accept)]
             ++ match selected with Some p => [(&"sec-websocket-protocol", p)] | None => [] end;
           response_body := Full [] |}, session).

(** ** A request inside an intercepted tunnel *)

Inductive Frame := DataFrame (data : bytes) | TrailersFrame.
(** A frame is [None] where reading it fails. *)
Fixpoint collect_transparent_body (maximum : Z) (acc : bytes) (frames : list (option Frame))
    : result bytes :=
  match frames with
  | [] => Ok acc
  | None :: _ => Err "read transparent proxy request body"
  | Some TrailersFrame :: frames => collect_transparent_body maximum acc frames
  | Some (DataFrame data) :: frames =>
      if (maximum <? saturating_add (len acc) (len data))%Z
      then Err "transparent proxy request body is too large"
      else collect_transparent_body maximum (acc ++ data) frames
  end.

Record TunnelRequest := {
  tr_method : bytes; tr_uri : Uri; tr_headers : HeaderMap; tr_frames : list (option Frame) }.

(** With the WebSocket session it starts, if any. *)
Definition transparent_tunnel_response (request : TunnelRequest)
    (route_name token_hash session_id : bytes)
    : PX (Response * option WebSocketSessionContext) :=
  let reject code message := (transparent_full_response code message, None) in
  let auth_required := reject status_proxy_auth_required (line &"proxy authentication required") in
  let unavailable := reject status_unavailable (line &"proxy unavailable") in
  let denied := reject status_forbidden (line &"proxy request forbidden") in
  permit ← outside (rate_permits net);
  if negb permit
  then mret (reject status_too_many_requests (line &"proxy rate limit exceeded")) else
  if negb (managed (auth state)) then mret auth_required else
  or_return (zoom (with_store (active_proxy_session token_hash))) unavailable (fun session =>
  match session with
  | None => mret auth_required
  | Some session =>
  match bt_get (cfg_proxy_routes (service_config service)) route_name with
  | None => mret denied
  | Some route =>
  if negb (bool_decide (ps_session_id session = session_id))
     || negb (bool_decide (ps_profile session = route_profile route))
  then mret denied else
  or_return (zoom (profile_permitted state (ps_subject session) (ps_profile session) Proxy))
    unavailable (fun permitted : bool =>
  if negb permitted then mret denied else
  let websocket_attempt := is_websocket_attempt (tr_headers request) in
  if websocket_attempt && match websocket route with
     | None => true
     | Some policy => negb (is_ok (validate_websocket_handshake (tr_headers request) policy))
     end
  then mret denied else
  match enforce_transparent_tunnel_target route (tr_uri request) (tr_headers request) with
  | Err _ => mret denied
  | Ok _ =>
  match collect_transparent_body (max_body_bytes route) [] (tr_frames request) with
  | Err _ => mret (reject status_too_large (line &"proxy request is too large"))
  | Ok body =>
  if websocket_attempt && negb (is_empty body)
  then mret (reject status_forbidden (line &"WebSocket upgrade body is forbidden")) else
  match validate_proxy_request route (uri_path (tr_uri request)) (uri_query (tr_uri request))
          (tr_method request) (tr_headers request) (len body) with
  | Err _ => mret denied
  | Ok validated =>
  let context := {| context_subject := ps_subject session; context_validated := validated;
                    context_method := tr_method request; context_headers := tr_headers request |} in
  or_return (if websocket_attempt
             then '(response, relay) ← proxy_websocket_request route context token_hash
                                         (ps_session_id session);
                  mret (response, Some relay)
             else response ← proxy_request route context body; mret (response, None))
    (reject status_bad_gateway (line &"proxy request failed")) (fun '(response, relay) =>
  audited ← attempt (zoom (audit_event state (ps_subject session) &"transparent_proxy_request"
                              (Some (ps_profile session)) (Some route_name) None));
  match audited with
  | Err _ =>
      _ ← drop_body response;
      mret (transparent_full_response status_unavailable (line &"proxy unavailable"), relay)
  | Ok _ => mret (response, relay)
  end)
  end
  end
  end)
  end
  end).
End Proxy.
