(* ===== verification/ProxyFacts.v ===== *)
(** ProxyFacts: what a proxied request sends upstream, on whose behalf, and what
    comes back.

    [logs] is a postcondition on the contacts a computation makes, with one rule
    per kind of step; silent computations make none. *)

From Stdlib Require Import Ascii String.
From stdpp Require Import base list strings gmap relations.
From S2P Require Import Prelude Str BTree External Models Redaction Database Store StoreFacts StoreProps Auth Ip Net Policy Request Injection WebSocket Catalog Connector ConnectorFacts Config ConfigFacts Leases LeaseProps Control ServiceFacts Sessions SessionFacts Proxy.

Section Facts.
Context {HL : HeaderLib} {UL : UrlLib} {EL : EncodingLib} {JL : JwtLib} {PL : PasswordLib}
  {BL : BackendLib} {WL : WebSocketLib}.
Context (env : Outside) (net : Network) (service : Service).
#[local] Abbreviation PX := (io ProxyData).
#[local] Abbreviation W := (Connector.world ProxyData).
#[local] Abbreviation state := (app_state service).
Implicit Types w : W.

Definition log w : list Contact := contacts (server w).

(** ** Contacts *)

Definition silent {A} (m : PX A) : Prop := forall w, log (m w).2 = log w.

Lemma silent_ret {A} (a : A) : silent (mret a).
Proof. done. Qed.
Lemma silent_ensure {A} (r : result A) : silent (ensure r).
Proof. done. Qed.
Lemma silent_outside {A} (f : nat -> A) : silent (outside f).
Proof. done. Qed.
Lemma silent_zoom {A} (m : io ServerData A) : silent (zoom m).
Proof. intros w. unfold zoom. by destruct (m (inner w)). Qed.
Lemma silent_attempt {A} (m : PX A) : silent m -> silent (attempt m).
Proof. intros Hm w. specialize (Hm w). unfold attempt. by destruct (m w). Qed.
Lemma silent_context {A} (m : PX A) msg : silent m -> silent (context_of m msg).
Proof. intros Hm w. specialize (Hm w). unfold context_of. by destruct (m w). Qed.
Lemma silent_bind {A B} (m : PX A) (f : A -> PX B) :
  silent m -> (forall a, silent (f a)) -> silent (m ≫= f).
Proof.
  intros Hm Hf w. specialize (Hm w). unfold mbind, io_bind.
  destruct (m w) as [[a|e] w1]; simpl in *; [|done]. by rewrite Hf.
Qed.
Lemma silent_or_return {A B} (m : PX A) (e : B) k :
  silent m -> (forall a, silent (k a)) -> silent (or_return m e k).
Proof.
  intros Hm Hk. apply silent_bind; [by apply silent_attempt|]. by intros [a|].
Qed.
Lemma silent_drop lease : silent (drop_lease env service lease).
Proof. destruct lease; [apply silent_zoom|done]. Qed.
Lemma silent_drop_body r : silent (drop_body env service r).
Proof. unfold drop_body. case_match; [done|apply silent_drop]. Qed.
#[local] Hint Resolve silent_ret silent_ensure silent_outside silent_zoom silent_attempt
  silent_context silent_bind silent_or_return silent_drop silent_drop_body : silence.

(** The contacts made satisfy [P]. *)
Definition logs {A} (P : list Contact -> Prop) (base : list Contact) (m : PX A) w : Prop :=
  exists new, log (m w).2 = base ++ new /\ P new.

Lemma logs_silent {A} (P : list Contact -> Prop) (m : PX A) w :
  silent m -> P [] -> logs P (log w) m w.
Proof. intros Hm HP. exists []. by rewrite Hm, app_nil_r. Qed.
Lemma logs_impl {A} (P Q : list Contact -> Prop) base (m : PX A) w :
  logs P base m w -> (forall new, P new -> Q new) -> logs Q base m w.
Proof. intros (new & ? & ?) HPQ. exists new. auto. Qed.
Lemma logs_bind {A B} P (m : PX A) (f : A -> PX B) w :
  silent m -> P [] ->
  (forall a w1, m w = (Ok a, w1) -> logs P (log w1) (f a) w1) -> logs P (log w) (m ≫= f) w.
Proof.
  intros Hm HP Hf. specialize (Hm w). unfold logs, mbind, io_bind.
  destruct (m w) as [[a|e] w1]; simpl in *; rewrite <- Hm; [by apply Hf|].
  exists []. by rewrite app_nil_r.
Qed.
Lemma logs_or_return {A B} P (m : PX A) (e : B) k w :
  silent m -> P [] ->
  (forall a w1, m w = (Ok a, w1) -> logs P (log w1) (k a) w1) ->
  logs P (log w) (or_return m e k) w.
Proof.
  intros Hm HP Hk. apply logs_bind; [by apply silent_attempt|done|]. intros r w1 H.
  unfold attempt in H. destruct (m w) as [r' w2] eqn:E. injection H as -> ->.
  destruct r as [a|]; [by apply Hk|]. by apply logs_silent.
Qed.
Lemma logs_then {A B} P base (m : PX A) (f : A -> PX B) w :
  logs P base m w -> (forall a, silent (f a)) -> logs P base (m ≫= f) w.
Proof.
  intros (new & Hl & HP) Hf. exists new. split; [|done]. unfold mbind, io_bind.
  destruct (m w) as [[a|e] w1]; simpl in *; [|done]. by rewrite Hf.
Qed.
Lemma logs_attempt {A} P base (m : PX A) w : logs P base m w -> logs P base (attempt m) w.
Proof. unfold logs, attempt. by destruct (m w). Qed.
Lemma logs_or_return_last {A B} P base (m : PX A) (e : B) k w :
  logs P base m w -> (forall a, silent (k a)) -> logs P base (or_return m e k) w.
Proof.
  intros Hm Hk. apply logs_then; [by apply logs_attempt|]. by intros [a|].
Qed.
Lemma logs_guarded {A} P base lease (m : PX A) w :
  logs P base m w -> logs P base (guarded env service lease m) w.
Proof.
  intros Hm. apply logs_then; [by apply logs_attempt|]. intros [a|]; auto with silence.
Qed.
Lemma logs_send {A} (P : list Contact -> Prop) rq (f : UpstreamResponse -> PX A) w :
  P [Requested rq] -> (forall a, silent (f a)) ->
  logs P (log w) (send_upstream net rq ≫= f) w.
Proof.
  intros HP Hf. apply logs_then; [|done]. exists [Requested rq]. split; [|done].
  unfold send_upstream, contact, mbind, io_bind, get_server, set_server, outside. simpl.
  by destruct (upstream_send net (calls w) rq).
Qed.

Lemma zoom_ok {A} (m : io ServerData A) w a w1 :
  zoom m w = (Ok a, w1) -> m (inner w) = (Ok a, inner w1).
Proof.
  unfold zoom. destruct (m (inner w)) as [r v] eqn:E. intros H.
  apply pair_equal_spec in H as [-> <-]. f_equal. by destruct v.
Qed.

(** ** One upstream request *)

(** What the connector of the route's profile supplied for [s], some time after [w]. *)
Definition supplied w (s : bytes) (route : ProxyRouteConfig) (values : BTreeMap bytes) : Prop :=
  exists profile lease v v', bt_get (profiles state) (route_profile route) = Some profile
    /\ later (inner w) v
    /\ acquire_owned_proxy_secrets env state (route_profile route) profile s v
       = (Ok (values, lease), v').

(** A request that [route] admits, carrying the route's own credentials. *)
Definition plain_request w (s : bytes) (route : ProxyRouteConfig) (validated : ValidatedProxyRequest)
    (method : bytes) (headers : HeaderMap) (body : bytes) (rq : UpstreamRequest) : Prop :=
  exists (values : BTreeMap bytes) prepared,
    supplied w s route values /\ prepare_credentials route values body = Ok prepared
    /\ ur_body rq = Injection.body prepared
    /\ prepare_outbound_headers route headers prepared = Ok (ur_headers rq)
    /\ build_target_url route validated = Ok (ur_target rq) /\ ur_method rq = method.
Definition upgrade_request (route : ProxyRouteConfig) (validated : ValidatedProxyRequest)
    (method : bytes) (headers : HeaderMap) (rq : UpstreamRequest) : Prop :=
  exists (values : BTreeMap bytes) prepared policy outbound,
    websocket route = Some policy /\ validate_websocket_handshake headers policy = Ok ()
    /\ prepare_websocket_credentials route values = Ok prepared
    /\ prepare_outbound_headers route headers prepared = Ok outbound
    /\ handshake_headers headers outbound = Ok (ur_headers rq)
    /\ build_target_url route validated = Ok (ur_target rq)
    /\ ur_method rq = method /\ method = &"GET" /\ ur_body rq = [].

(** Nothing is sent, or one such request. *)
Definition at_most_one (Q : UpstreamRequest -> Prop) (new : list Contact) : Prop :=
  new = [] \/ exists rq, new = [Requested rq] /\ Q rq.

Lemma at_most_one_impl (P Q : UpstreamRequest -> Prop) new :
  (forall rq, P rq -> Q rq) -> at_most_one P new -> at_most_one Q new.
Proof. intros HPQ [->|(rq & -> & H)]; [by left|right]. exists rq. auto. Qed.

Lemma proxy_request_logs route context body w :
  logs (at_most_one (plain_request w (context_subject context) route (context_validated context)
                       (context_method context) (context_headers context) body))
    (log w) (proxy_request env net service route context body) w.
Proof.
  set (Q := plain_request _ _ _ _ _ _ _). assert (at_most_one Q []) as Hn by (by left).
  apply logs_bind; [done..|]. intros profile w1 [Hpr ->]%io_ensure_ok.
  apply ok_or_ok in Hpr. apply logs_bind; [apply silent_zoom|done|].
  intros [values lease] w2 Hv%zoom_ok. apply logs_then.
  - apply logs_guarded. apply logs_bind; [done..|]. intros prepared w3 [Hp ->]%io_ensure_ok.
    apply logs_bind; [done..|]. intros target w4 [Ht ->]%io_ensure_ok.
    apply logs_bind; [done..|]. intros outbound w5 [Ho ->]%io_ensure_ok.
    apply logs_send; [|intros; auto with silence]. right. eexists. split; [done|].
    exists values, prepared. split_and!; [|done..]. by eexists profile, lease, _, _.
  - intros [[prepared upstream] headers]. case_match; [|done].
    apply silent_bind; [|intros ?; apply silent_bind; [|done]; destruct lease; auto with silence].
    unfold guarded. apply silent_bind; [apply silent_attempt; auto with silence|].
    intros []; auto with silence.
Qed.

Lemma proxy_websocket_request_logs route context h i w :
  logs (at_most_one (upgrade_request route (context_validated context)
                       (context_method context) (context_headers context)))
    (log w) (proxy_websocket_request env net service route context h i) w.
Proof.
  assert (at_most_one (upgrade_request route (context_validated context)
    (context_method context) (context_headers context)) []) as Hn by (by left).
  apply logs_bind; [done..|]. intros policy w0 [Hpol ->]%io_ensure_ok.
  apply logs_bind; [done..|]. intros [] w1 [Hget ->]%io_ensure_ok.
  apply logs_bind; [done..|]. intros [] w2 [Hhand ->]%io_ensure_ok.
  apply logs_bind; [done..|]. intros profile w3 _. apply logs_bind; [apply silent_zoom|done|].
  intros [values lease] w4 _. inv_ok. breflect in Hget. apply logs_then; [|by intros [[? ?] ?]].
  apply logs_guarded. apply logs_bind; [done..|]. intros prepared w5 [Hp ->]%io_ensure_ok.
  apply logs_bind; [done..|]. intros target w6 [Ht ->]%io_ensure_ok.
  apply logs_bind; [done..|]. intros outbound w7 [Ho ->]%io_ensure_ok.
  apply logs_bind; [done..|]. intros outbound' w8 [Ho' ->]%io_ensure_ok.
  apply logs_send; [|intros; apply silent_bind; [done|by intros []]].
  right. eexists. split; [done|].
  by exists values, prepared, policy, outbound.
Qed.

(** ** The checks before it *)

Lemma zoom_later {A} (m : io ServerData A) w a w1 :
  idle m -> zoom m w = (Ok a, w1) -> later (inner w) (inner w1).
Proof. intros Hm H%zoom_ok. destruct (Hm (inner w)) as [_ Hl]. by rewrite H in Hl. Qed.
Lemma plain_request_later w w1 s route validated method headers body rq :
  later (inner w) (inner w1) -> plain_request w1 s route validated method headers body rq ->
  plain_request w s route validated method headers body rq.
Proof.
  intros Hl (values & prepared & (profile & lease & v & v' & Hp & Hv & Ha) & H).
  exists values, prepared. split; [|done]. exists profile, lease, v, v'. split_and!; [done| |done].
  by transitivity (inner w1).
Qed.

Definition may_proxy w (s p : bytes) : Prop :=
  managed (service_auth service) = true -> granted (inner w) s p Proxy.

Lemma zoom_reads {A} (m : io ServerData A) w a w1 :
  reads m -> zoom m w = (Ok a, w1) ->
  tbl (inner w1) = tbl (inner w) /\ clk (inner w1) = clk (inner w).
Proof. intros Hm H%zoom_ok. by apply (reads_run _ _ _ _ Hm) in H. Qed.

Lemma zoom_permitted w s p w1 :
  zoom (profile_permitted state s p Proxy) w = (Ok true, w1) -> may_proxy w s p.
Proof. intros H%zoom_ok Hm. by apply (profile_permitted_ok _ _ _ _ _ _ _ Hm) in H as [H _]; auto. Qed.

Lemma may_proxy_eq w w1 s p :
  tbl (inner w1) = tbl (inner w) -> clk (inner w1) = clk (inner w) ->
  may_proxy w1 s p -> may_proxy w s p.
Proof. unfold may_proxy. intros Ht Hc H Hm. by apply (granted_eq _ _ _ _ _ Ht Hc), H. Qed.

Lemma build_target_url_origin `{!UrlLaws} route request target :
  build_target_url route request = Ok target ->
  exists base, url_parse (base_url route) = Some base /\ url_origin target = url_origin base
    /\ url_username target = [] /\ url_password target = None.
Proof.
  unfold build_target_url. intros Hb. inv_ok. subst.
  match goal with H : url_parse _ = Some ?b |- _ => exists b; split; [done|] end.
  match goal with |- url_origin ?t = url_origin ?b /\ _ =>
    assert (url_origin t = url_origin b) as Ho end.
  { case_match; by rewrite ?origin_extend_pairs, ?origin_clear_query, ?origin_set_path. }
  split; [done|]. pose proof Ho as Hp. unfold url_origin in Hp. injection Hp as _ _ _ -> ->.
  apply has_url_credentials_false. rewrite !orb_false_iff in *. naive_solver.
Qed.

Lemma proxy_logs route_name path q method headers body w :
  logs (at_most_one (fun rq => exists id route validated,
      credential_for state headers (inner w) id
      /\ bt_get (cfg_proxy_routes (service_config service)) route_name = Some route
      /\ may_proxy w (subject id) (route_profile route)
      /\ is_trusted_browser_origin headers (cfg_public_url (service_config service)) = true
      /\ request_allowed route path q method headers (len body) validated
      /\ plain_request w (subject id) route validated method headers body rq))
    (log w) (proxy env net service route_name path q method headers body) w.
Proof.
  set (Q := fun rq : UpstreamRequest => _). assert (at_most_one Q []) as Hn by (by left).
  apply logs_or_return; [apply silent_zoom|done|]. intros id w1 Hid.
  pose proof (zoom_reads _ _ _ _ (reads_authorize_connect env state headers) Hid) as [Ht Hc].
  pose proof (zoom_later _ _ _ _ (idle_authorize_connect env state headers) Hid) as L1.
  apply zoom_ok, authorize_connect_ok in Hid.
  destruct (bt_get _ route_name) as [route|] eqn:Er; [|by apply logs_silent].
  destruct (is_websocket_attempt headers); [by apply logs_silent|].
  apply logs_or_return; [apply silent_zoom|done|]. intros permitted w2 Hp.
  pose proof (zoom_later _ _ _ _ (idle_permitted state _ _ _) Hp) as L2.
  destruct permitted; [|by apply logs_silent]. simpl.
  apply zoom_permitted, (may_proxy_eq w) in Hp; [|done..].
  destruct (is_trusted_browser_origin _ _) eqn:Eo; [|by apply logs_silent]. simpl.
  destruct (_ <? _)%Z; [by apply logs_silent|].
  destruct (validate_proxy_request _ _ _ _ _ _) as [validated|] eqn:Ev; [|by apply logs_silent].
  apply validate_proxy_request_spec in Ev.
  apply logs_or_return; [apply silent_zoom|done|]. intros [] w3 Hau.
  pose proof (zoom_later _ _ _ _ (idle_audit state _ _ _ _ _) Hau) as L3.
  apply logs_or_return_last; [|done].
  destruct (proxy_request_logs route {| context_subject := subject id;
    context_validated := validated; context_method := method; context_headers := headers |} body w3)
    as (new & Hl & Hnew).
  exists new. split; [done|]. revert Hnew. apply at_most_one_impl. intros rq Hrq.
  exists id, route, validated. split_and!; try done. eapply plain_request_later; [|exact Hrq].
  transitivity (inner w1); [done|]. by transitivity (inner w2).
Qed.

(** ** CONNECT *)

(** A live session of the store, seen through its digest. *)
Definition live_at (v : Connector.world ServerData) (h : bytes) (ps : ProxySession) : Prop :=
  exists now row, clk v = Some now
    /\ av_proxy_sessions (tbl v) !! ps_session_id ps = Some row
    /\ session_token_hash row = h /\ session_revoked row = false
    /\ (now < session_expires row)%Z /\ ps = session_of (ps_session_id ps) row.
Definition live_session w : bytes -> ProxySession -> Prop := live_at (inner w).

Lemma active_readonly h : readonly (active_proxy_session h).
Proof.
  unfold active_proxy_session. case_match; [apply readonly_ret|].
  apply readonly_bind; [apply readonly_now|intros ?].
  apply readonly_bind; [apply readonly_query|intros ?]. apply readonly_ret.
Qed.

Lemma active_session_ok h (v : Connector.world ServerData) ps v1 :
  with_store (active_proxy_session h) v = (Ok (Some ps), v1) -> live_at v h ps.
Proof.
  intros H%with_store_ok.
  destruct (active_proxy_session_ok h (store v) ps) as
    (now & id & row & Hc & Hr & Hh & Hv & He & ->); [by rewrite H|].
  by exists now, row.
Qed.

Lemma zoom_session h w ps w1 :
  zoom (with_store (active_proxy_session h)) w = (Ok (Some ps), w1) ->
  live_session w h ps /\ tbl (inner w1) = tbl (inner w) /\ clk (inner w1) = clk (inner w).
Proof.
  intros H. split; [|by eapply zoom_reads, H; apply reads_with_store, active_readonly].
  by apply zoom_ok, active_session_ok in H.
Qed.

Lemma live_session_eq w w1 h ps :
  tbl (inner w1) = tbl (inner w) -> clk (inner w1) = clk (inner w) ->
  live_session w1 h ps -> live_session w h ps.
Proof. unfold live_session, live_at. by intros -> ->. Qed.

Lemma dial_ok addresses w a w1 : dial net addresses w = (Ok a, w1) -> a ∈ addresses.
Proof.
  revert w. induction addresses as [|x addresses IH]; intros w; [done|].
  cbn [dial]. intros H. inv_io. destruct x2; inv_io; [left|right; by eapply IH].
Qed.

Lemma dial_logs addresses w :
  logs (Forall (fun c => exists a, c = Dialed a /\ a ∈ addresses)) (log w) (dial net addresses) w.
Proof.
  revert w. induction addresses as [|x addresses IH]; intros w; [by apply logs_silent|].
  set (v := outer (inner w) (log w ++ [Dialed x])).
  assert (logs (Forall (fun c => exists a, c = Dialed a /\ a ∈ addresses)) (log w ++ [Dialed x])
    (connected ← outside (fun n => tcp_connect net n x);
     if (connected : bool) then
       configured ← outside (set_nodelay net);
       _ ← ensure (bail_if (negb configured) "configure credentialless tunnel socket");
       mret x
     else dial net addresses) v) as (new & Hl & Hn).
  { change (log w ++ [Dialed x]) with (log v). apply logs_bind; [done|done|].
    intros [] w1 _; [|apply IH]. apply logs_silent; [|done]. auto with silence. }
  exists (Dialed x :: new). split; [exact (eq_trans Hl (eq_sym (app_assoc _ [Dialed x] new)))|].
  constructor; [exists x; split; [done|left]|]. eapply Forall_impl; [exact Hn|].
  intros c (a & -> & Ha). exists a. split; [done|by right].
Qed.

Lemma connect_upstream_ok host allow w a w1 :
  connect_credentialless_upstream net host allow w = (Ok a, w1) ->
  tunnel_ip_allowed a allow = true.
Proof.
  unfold connect_credentialless_upstream. intros H. inv_io. inv_ok.
  apply dial_ok in H as Ha.
  match goal with H : existsb _ _ = false |- _ => rewrite existsb_false, Forall_forall in H;
    by apply H in Ha; apply negb_false_iff in Ha end.
Qed.

Lemma connect_upstream_logs host allow w :
  logs (Forall (fun c => exists a, c = Dialed a /\ tunnel_ip_allowed a allow = true)) (log w)
    (connect_credentialless_upstream net host allow) w.
Proof.
  unfold connect_credentialless_upstream. do 4 (apply logs_bind; [done..|]; intros ? ? ?).
  inv_io. inv_ok.
  match goal with |- logs _ _ (dial net ?l) ?v => destruct (dial_logs l v) as (new & Hl & Hn) end.
  exists new. split; [done|]. eapply Forall_impl; [exact Hn|]. intros c (addr & -> & Ha).
  exists addr. split; [done|].
  match goal with H : existsb _ _ = false |- _ => rewrite existsb_false, Forall_forall in H;
    by apply H in Ha; apply negb_false_iff in Ha end.
Qed.


Lemma zoom_audit s act p r x w u w1 :
  managed (service_auth service) = true ->
  zoom (audit_event state s act p r x) w = (Ok u, w1) ->
  exists now, clk (inner w) = Some now /\ tbl (inner w1) = audited now s act p r x (tbl (inner w)).
Proof.
  unfold audit_event. cbn [auth app_state]. intros -> H. apply zoom_ok, with_store_ok in H.
  destruct u. by apply (run_effect _ (RecordAudit s act p r x)) in H.
Qed.

(** What a CONNECT that leads to a tunnel has established. *)
Definition tunnel_authorised w (ac : AuthorizedConnect) (session : ProxySession)
    (tunnel : OpenTunnel) : Prop :=
  live_session w (connect_token_hash ac) session
  /\ granted (inner w) (ps_subject session) (ps_profile session) Proxy
  /\ destination_profile (destination ac) = ps_profile session
  /\ match tunnel with
     | TlsTunnel name host h i =>
         destination ac = Injecting name (ps_profile session)
         /\ host = connect_host ac /\ h = connect_token_hash ac /\ i = ps_session_id session
     | RawTunnel address => exists name host allow,
         destination ac = Tunnel name (ps_profile session) host allow
         /\ tunnel_ip_allowed address allow = true
     end.

(** Talking to the network leaves the server's own state alone. *)
Definition calm {A} (m : PX A) : Prop :=
  forall w, server_data (server (m w).2) = server_data (server w).

Lemma calm_bind {A B} (m : PX A) (f : A -> PX B) :
  calm m -> (forall a, calm (f a)) -> calm (m ≫= f).
Proof.
  intros Hm Hf w. specialize (Hm w). unfold mbind, io_bind.
  destruct (m w) as [[a|e] w1]; simpl in *; [|done]. by rewrite Hf.
Qed.
Lemma calm_dial addresses : calm (dial net addresses).
Proof.
  induction addresses as [|x addresses IH]; [done|]. cbn [dial].
  apply calm_bind; [done|intros _]. apply calm_bind; [done|intros []]; [|done].
  by repeat (apply calm_bind; [done|intros ?]).
Qed.
Lemma calm_connect host allow : calm (connect_credentialless_upstream net host allow).
Proof.
  unfold connect_credentialless_upstream. do 4 (apply calm_bind; [done|intros ?]).
  apply calm_dial.
Qed.
Lemma calm_tables {A} (m : PX A) w r w1 :
  calm m -> m w = (r, w1) ->
  tbl (inner w1) = tbl (inner w) /\ clk (inner w1) = clk (inner w).
Proof.
  intros Hm H. specialize (Hm w). rewrite H in Hm. simpl in Hm.
  unfold tbl, clk, store. simpl. by rewrite Hm.
Qed.

#[local] Ltac stop := by (inv_io; vm_compute; discriminate).

Lemma connect_ok catalog method uri headers w r t w' :
  transparent_connect_response net service catalog method uri headers w = (Ok (r, t), w') ->
  match t with
  | None => response_status r <> status_ok
  | Some tunnel => exists ac session,
      authorize_connect_request method uri headers catalog = Ok ac
      /\ tunnel_authorised w ac session tunnel
      /\ (response_status r = status_ok -> exists now, clk (inner w) = Some now /\
           tbl (inner w') = audited now (ps_subject session) &"transparent_proxy_connect"
             (Some (ps_profile session)) (Some (destination_name (destination ac))) None
             (tbl (inner w)))
  end.
Proof.
  unfold transparent_connect_response. intros H. apply io_bind_ok in H as (permit & w1 & Hp & H).
  injection Hp as _ <-. cbv zeta in H. destruct permit; cbn [negb] in H; [|stop].
  destruct (match hm_get headers _ with Some _ => _ | None => _ end); [stop|].
  destruct (authorize_connect_request _ _ _ _) as [ac|] eqn:Eac; [|stop].
  destruct (managed _) eqn:Hm; cbn [negb] in H; [|stop].
  apply or_return_ok in H as [(session & w2 & Hs & H)|[[= -> ->] _]]; [|done].
  destruct session as [session|]; [|stop]. apply zoom_session in Hs as (Hlive & Ht & Hc).
  destruct (bool_decide _) eqn:Epr; cbn [negb] in H; [|stop]. breflect in Epr.
  apply or_return_ok in H as [(permitted & w3 & Hg & H)|[[= -> ->] _]]; [|done].
  destruct permitted; cbn [negb] in H; [|stop].
  pose proof (zoom_reads _ _ _ _ (profile_permitted_reads _ _ _ _) Hg) as [Ht3 Hc3].
  apply zoom_permitted, (may_proxy_eq (tick w)) in Hg; [|done..]. specialize (Hg Hm).
  apply or_return_ok in H as [(tunnel & w4 & Htun & H)|[[= -> ->] _]]; [|done].
  assert (tunnel_authorised w ac session tunnel
          /\ tbl (inner w4) = tbl (inner w) /\ clk (inner w4) = clk (inner w)) as (Ha & Ht4 & Hc4).
  { unfold tunnel_authorised. destruct (destination ac) as [name profile|name profile host allow] eqn:Ed.
    - inv_io. simpl in Epr. subst profile. split_and!; try done; etrans; done.
    - apply io_bind_ok in Htun as (a & w5 & Hcon & Hr). injection Hr as <- ->.
      pose proof (calm_tables _ _ _ _ (calm_connect host allow) Hcon) as [Ht5 Hc5].
      apply connect_upstream_ok in Hcon. simpl in Epr. subst profile.
      split_and!; try done; [by exists name, host, allow|etrans; [done|]..]; etrans; done. }
  apply or_return_ok in H as [(u & w5 & Hau & H)|[[= -> ->] _]].
  - apply (zoom_audit _ _ _ _ _ _ _ _ Hm) in Hau as (now & Hnow & Htab). inv_io.
    exists ac, session. split_and!; [done..|]. intros _. exists now. rewrite <- Hc4, <- Ht4. done.
  - exists ac, session. split_and!; [done..|]. intros Hst. vm_compute in Hst. discriminate.
Qed.

(** ** Requests inside an intercepted tunnel *)

(** What a tunnelled request that reaches an upstream has established. *)
Definition tunnelled_admitted w (request : TunnelRequest) (route_name h i : bytes)
    (rq : UpstreamRequest) : Prop :=
  exists session route body validated,
    live_session w h session /\ ps_session_id session = i
    /\ bt_get (cfg_proxy_routes (service_config service)) route_name = Some route
    /\ ps_profile session = route_profile route
    /\ granted (inner w) (ps_subject session) (route_profile route) Proxy
    /\ enforce_transparent_tunnel_target route (tr_uri request) (tr_headers request) = Ok ()
    /\ collect_transparent_body (max_body_bytes route) [] (tr_frames request) = Ok body
    /\ request_allowed route (uri_path (tr_uri request)) (uri_query (tr_uri request))
         (tr_method request) (tr_headers request) (len body) validated
    /\ (plain_request w (ps_subject session) route validated (tr_method request) (tr_headers request)
          body rq
        \/ upgrade_request route validated (tr_method request) (tr_headers request) rq /\ body = []).

(** The end of a tunnelled request: the audit event, and the response. *)
Lemma finish_silent session route_name (a : Response * option WebSocketSessionContext) :
  silent (let '(response, relay) := a in
    audited ← attempt (zoom (audit_event state (ps_subject session)
                 &"transparent_proxy_request" (Some (ps_profile session)) (Some route_name) None));
    match audited with
    | Err _ =>
        _ ← drop_body env service response;
        mret (transparent_full_response status_unavailable (line &"proxy unavailable"), relay)
    | Ok _ => mret (response, relay)
    end).
Proof. destruct a. apply silent_bind; [auto with silence|]. intros []; auto with silence. Qed.

Lemma tunnelled_logs request route_name h i w :
  logs (at_most_one (tunnelled_admitted w request route_name h i)) (log w)
    (transparent_tunnel_response env net service request route_name h i) w.
Proof.
  set (Q := tunnelled_admitted _ _ _ _ _). assert (at_most_one Q []) as Hn by (by left).
  apply logs_bind; [done..|]. intros permit w1 Hp. injection Hp as _ <-.
  destruct permit; cbn [negb]; [|by apply logs_silent].
  destruct (managed _) eqn:Hm; cbn [negb]; [|by apply logs_silent].
  apply logs_or_return; [apply silent_zoom|done|]. intros [session|] w2 Hs; [|by apply logs_silent].
  pose proof (zoom_later _ _ _ _ (idle_with_store _) Hs) as L2.
  apply zoom_session in Hs as (Hlive & Ht & Hc).
  destruct (bt_get _ route_name) as [route|] eqn:Er; [|by apply logs_silent].
  destruct (_ || _) eqn:Ei; [by apply logs_silent|]. breflect in Ei. destruct Ei as [Hi Hprof].
  apply logs_or_return; [apply silent_zoom|done|]. intros permitted w3 Hg.
  pose proof (zoom_later _ _ _ _ (idle_permitted state _ _ _) Hg) as L3.
  destruct permitted; cbn [negb]; [|by apply logs_silent].
  apply zoom_permitted, (may_proxy_eq (tick w)) in Hg; [|done..]. specialize (Hg Hm).
  destruct (_ && _); [by apply logs_silent|].
  destruct (enforce_transparent_tunnel_target _ _ _) as [[]|] eqn:Et; [|by apply logs_silent].
  destruct (collect_transparent_body _ _ _) as [body|] eqn:Eb; [|by apply logs_silent].
  destruct (is_websocket_attempt _) eqn:Ews; cbn [andb].
  - destruct (is_empty body) eqn:Ee; cbn [negb]; [|by apply logs_silent].
    destruct (validate_proxy_request _ _ _ _ _ _) as [v|] eqn:Ev; [|by apply logs_silent].
    apply validate_proxy_request_spec in Ev. apply logs_or_return_last; [|apply finish_silent].
    apply logs_then; [|by intros []].
    eapply logs_impl; [apply proxy_websocket_request_logs|].
    intros new. apply at_most_one_impl. intros rq Hrq. exists session, route, body, v.
    rewrite <- Hprof. split_and!; try done. right. split; [done|]. by destruct body.
  - destruct (validate_proxy_request _ _ _ _ _ _) as [v|] eqn:Ev; [|by apply logs_silent].
    apply validate_proxy_request_spec in Ev. apply logs_or_return_last; [|apply finish_silent].
    apply logs_then; [|done]. eapply logs_impl; [apply proxy_request_logs|].
    intros new. apply at_most_one_impl. intros rq Hrq. exists session, route, body, v.
    rewrite <- Hprof. split_and!; try done. left. eapply plain_request_later; [|exact Hrq].
    transitivity (inner (tick w)); [solve_later|]. by transitivity (inner w2).
Qed.

(** ** Responses *)

Lemma guarded_ok {A} lease (m : PX A) w a w1 :
  guarded env service lease m w = (Ok a, w1) -> m w = (Ok a, w1).
Proof.
  unfold guarded, attempt, mbind, io_bind. destruct (m w) as [[b|e] v]; [done|].
  destruct (drop_lease env service lease v) as [[] v']; done.
Qed.

Lemma proxy_request_ok route context body w r w' :
  proxy_request env net service route context body w = (Ok r, w') ->
  exists profile values lease v prepared upstream,
    bt_get (profiles state) (route_profile route) = Some profile
    /\ acquire_owned_proxy_secrets env state (route_profile route) profile
         (context_subject context) (inner w) = (Ok (values, lease), v)
    /\ prepare_credentials route values body = Ok prepared
    /\ response_status r = us_status upstream
    /\ copy_response_headers (redaction prepared) (us_headers upstream)
         (allowed_response_headers route) = Ok (response_headers r)
    /\ match response_mode route with
       | Buffered => exists raw b,
           read_buffered (max_response_bytes route) [] (us_chunks upstream) = Ok raw
           /\ redact_bytes (redaction prepared) raw = Some b /\ response_body r = Full b
       | Streaming => response_body r = Streamed {|
           bs_chunks := us_chunks upstream; bs_redactor := into_streaming (redaction prepared);
           bs_total := 0; bs_maximum := max_response_bytes route; bs_finished := false;
           bs_lease := lease |}
       end.
Proof.
  unfold proxy_request. intros H. apply io_bind_ok in H as (profile & w1 & Hp & H).
  apply io_ensure_ok in Hp as [Hp ->]. apply io_bind_ok in H as ([values lease] & w2 & Ha & H).
  apply zoom_ok in Ha. apply io_bind_ok in H as ([[prepared upstream] headers] & w3 & Hg & H).
  apply guarded_ok in Hg. inv_io. inv_ok. exists profile, values, lease, (inner w2), prepared, upstream.
  destruct (response_mode route).
  - apply io_bind_ok in H as (b & w4 & Hb & H). apply guarded_ok in Hb.
    apply io_bind_ok in H as (u & w5 & _ & H). inv_io. inv_ok. split_and!; try done. by do 2 eexists.
  - inv_io. by split_and!.
Qed.

Lemma read_buffered_ok maximum acc chunks raw :
  (0 <= maximum < usize_max)%Z -> (len acc <= maximum)%Z ->
  read_buffered maximum acc chunks = Ok raw ->
  exists data, chunks = Some <$> data /\ raw = acc ++ concat data /\ (len raw <= maximum)%Z.
Proof.
  intros Hmax. revert acc. induction chunks as [|[chunk|] chunks IH]; intros acc Hacc; simpl; [|..|done].
  - intros [= <-]. exists []. by rewrite app_nil_r.
  - destruct (maximum <? _)%Z eqn:E; [done|]. intros Hr. breflect in E.
    unfold saturating_add in E. apply IH in Hr as (data & -> & -> & Hl).
    + exists (chunk :: data). simpl. by rewrite app_assoc.
    + unfold len in *. rewrite length_app. lia.
Qed.

Lemma copy_response_headers_ok `{!HeaderLaws} set upstream configured headers name value :
  copy_response_headers set upstream configured = Ok headers -> (name, value) ∈ headers ->
  exists v, redact_bytes set (value_as_bytes v) = Some value
    /\ exists h n, h ∈ configured /\ name_from_bytes h = Some n /\ name_as_str n = name
       /\ hm_get upstream n = Some v.
Proof.
  revert headers. induction configured as [|h configured IH]; intros headers; simpl.
  { intros [= <-] ?%elem_of_nil. done. }
  intros Hc Hin. inv_ok. subst headers.
  match goal with H : copy_response_headers _ _ _ = Ok ?rest |- _ =>
    assert ((name, value) ∈ rest -> exists v, redact_bytes set (value_as_bytes v) = Some value
      /\ exists h' n, h' ∈ h :: configured /\ name_from_bytes h' = Some n /\ name_as_str n = name
         /\ hm_get upstream n = Some v) as Hrest
      by (intros Hr; destruct (IH _ H Hr) as (v & Hv & h' & n & ? & ?);
          exists v; split; [done|]; exists h', n; split; [by right|done]) end.
  destruct (hm_get upstream x ≫= redact_header set) as [rv|] eqn:E.
  - apply elem_of_cons in Hin as [[= -> ->]|Hin]; [|auto].
    apply bind_Some in E as (v & Hv & E). unfold redact_header in E.
    apply bind_Some in E as (red & Hred & Hf). apply value_from_bytes_as in Hf as Hb. rewrite Hb.
    exists v. split; [done|]. exists h, x. split_and!; try done. left.
  - auto.
Qed.

(** ** Streamed bodies *)

(** The body as the connection delivers it: what was emitted, how it ended
    ([None] when the fuel ran out), and the world afterwards. *)
Fixpoint deliver (fuel : nat) (s : BodyStream) w : bytes * option (result unit) * W :=
  match fuel with
  | O => ([], None, w)
  | S fuel =>
      match stream_next env service s w with
      | (Ok None, w) => ([], Some (Ok ()), w)
      | (Err e, w) => ([], Some (Err e), w)
      | (Ok (Some (output, s)), w) =>
          let '(rest, ending, w) := deliver fuel s w in (output ++ rest, ending, w)
      end
  end.

(** The polls a stream can still answer with data. *)
Definition polls_left (s : BodyStream) : nat :=
  if bs_finished s then 0 else S (length (bs_chunks s)).

Lemma read_stream_polls maximum redactor total lease chunks w o s w' :
  read_stream env service maximum redactor total lease chunks w = (Ok (Some (o, s)), w') ->
  polls_left s < S (length chunks).
Proof.
  revert redactor total w. induction chunks as [|[chunk|] chunks IH];
    intros redactor total w; cbn [read_stream]; intros H.
  - apply io_bind_ok in H as ([output r'] & w1 & _ & H).
    apply io_bind_ok in H as (u & w2 & _ & H). destruct (is_empty output); inv_io.
    simplify_eq. unfold polls_left. simpl. lia.
  - destruct (_ <? _)%Z; [by apply io_bind_ok in H as (u & w1 & _ & H)|].
    apply io_bind_ok in H as ([output r'] & w1 & _ & H). destruct (is_empty output).
    + apply IH in H. simpl. lia.
    + inv_io. simplify_eq. unfold polls_left. simpl. lia.
  - by apply io_bind_ok in H as (u & w1 & _ & H).
Qed.

Lemma deliver_ends fuel s w : polls_left s < fuel -> is_Some (deliver fuel s w).1.2.
Proof.
  revert s w. induction fuel as [|fuel IH]; intros s w Hf; [lia|]. cbn [deliver].
  destruct (stream_next env service s w) as [[[[o s']|]|e] w1] eqn:E; [|done|done].
  assert (polls_left s' < polls_left s) as Hlt.
  { unfold stream_next in E. unfold polls_left at 2. destruct (bs_finished s); [done|].
    by apply read_stream_polls in E. }
  specialize (IH s' w1 ltac:(lia)). by destruct (deliver fuel s' w1) as [[? ?] ?].
Qed.

Lemma push_scan r chunk o r' :
  wf_redactor r -> push r chunk = Some (o, r') ->
  wf_redactor r' /\ stream_patterns r' = stream_patterns r
  /\ forall later, scan (stream_patterns r) (pending r ++ chunk ++ later)
                   = o ++ scan (stream_patterns r) (pending r' ++ later).
Proof.
  intros Hwf Hp. set (r0 := {| pending := pending r ++ chunk;
    stream_patterns := stream_patterns r; stream_maximum := stream_maximum r |}).
  assert (forall later, wf_redactor r' /\ stream_patterns r' = stream_patterns r
    /\ scan (stream_patterns r) (pending r ++ chunk ++ later)
       = o ++ scan (stream_patterns r) (pending r' ++ later)) as Hall.
  2: { split_and!; [apply (Hall [])..|intros later; apply Hall]. }
  intros later. destruct (emit_scan r0 false later) as (o1 & r1 & He & Hps & Hm & _ & Hs); [done..|].
  change (emit r0 false = Some (o, r')) in Hp. rewrite He in Hp. injection Hp as -> ->.
  unfold wf_redactor in *. rewrite Hps, Hm. split_and!; [done..|].
  simpl in Hs. by rewrite <- app_assoc in Hs.
Qed.

Lemma finish_scan r o r' :
  wf_redactor r -> finish r = Some (o, r') ->
  wf_redactor r' /\ stream_patterns r' = stream_patterns r /\ scan (stream_patterns r) (pending r) = o.
Proof.
  intros Hwf Hp. destruct (emit_scan r true []) as (o1 & r1 & He & Hps & Hm & Hl & Hs); [done..|].
  change (emit r true = Some (o, r')) in Hp. rewrite He in Hp. injection Hp as -> ->.
  unfold wf_redactor in *. rewrite Hps, Hm. split_and!; [done..|]. rewrite !app_nil_r in Hs.
  rewrite Hs. destruct (pending r'); simpl in Hl; [|lia]. by rewrite app_nil_r.
Qed.

(** What one poll reads and emits. *)
Definition polled (redactor : StreamingRedactor) (total : Z) (data : list bytes)
    (rest : list (option bytes)) (res : option (bytes * BodyStream)) : Prop :=
  match res with
  | None => rest = [] /\ scan (stream_patterns redactor) (pending redactor ++ concat data) = []
  | Some (o, s) =>
      wf_redactor (bs_redactor s) /\ stream_patterns (bs_redactor s) = stream_patterns redactor
      /\ bs_total s = (total + len (concat data))%Z
      /\ if bs_finished s
         then rest = [] /\ scan (stream_patterns redactor) (pending redactor ++ concat data) = o
         else bs_chunks s = rest
              /\ forall later, scan (stream_patterns redactor) (pending redactor ++ concat data ++ later)
                   = o ++ scan (stream_patterns redactor) (pending (bs_redactor s) ++ later)
  end.

Lemma read_stream_ok maximum redactor total lease chunks w res w' :
  (0 <= maximum < usize_max)%Z -> (0 <= total <= maximum)%Z -> wf_redactor redactor ->
  read_stream env service maximum redactor total lease chunks w = (Ok res, w') ->
  exists data rest, chunks = (Some <$> data) ++ rest
    /\ (total + len (concat data) <= maximum)%Z
    /\ (forall o s, res = Some (o, s) -> bs_maximum s = maximum)
    /\ polled redactor total data rest res.
Proof.
  intros Hmax. revert redactor total w.
  induction chunks as [|[chunk|] chunks IH]; intros redactor total w Htot Hwf;
    cbn [read_stream]; intros H.
  - apply io_bind_ok in H as ([output r'] & w1 & Hf & H). apply io_ensure_ok in Hf as [Hf ->].
    apply io_bind_ok in H as (u & w2 & _ & H). inv_ok.
    apply finish_scan in Hf as (Hwf' & Hps & Hs); [|done]. exists [], [].
    split_and!; [done|unfold len; simpl; lia| |].
    + intros o s ->. destruct (is_empty output); inv_io. by simplify_eq.
    + destruct output as [|c output]; cbn [is_empty] in H; inv_io; simplify_eq; cbn [polled concat bs_redactor bs_total bs_finished];
        rewrite app_nil_r; [done|].
      do 2 (split; [done|]). split; [unfold len; simpl; lia|done].
  - cbv zeta in H. destruct (maximum <? _)%Z eqn:E; [by apply io_bind_ok in H as (u & w1 & _ & H)|].
    assert (saturating_add total (len chunk) = total + len chunk)%Z as Hsat.
    { breflect in E. unfold saturating_add in *. lia. }
    rewrite Hsat in *. breflect in E.
    apply io_bind_ok in H as ([output r'] & w1 & Hf & H). apply io_ensure_ok in Hf as [Hf ->]. inv_ok.
    apply push_scan in Hf as (Hwf' & Hps & Hs); [|done].
    destruct (is_empty output) eqn:Eo.
    + destruct output; [|done]. apply IH in H as (data & rest & -> & Hl & Hm & Hpol); [|unfold len in *; lia|done].
      exists (chunk :: data), rest. simpl. split_and!; [done|unfold len in *; rewrite length_app; lia|done|].
      unfold polled in *. rewrite Hps in Hpol. destruct res as [[o s]|].
      * destruct Hpol as (Hw & Hp & Ht & Hfin). split_and!; [done|done| |].
        { rewrite Ht. unfold len. simpl. rewrite length_app. lia. }
        destruct (bs_finished s); destruct Hfin as [? Hfin]; (split; [done|]).
        -- simpl. rewrite Hs. done.
        -- intros later. simpl. rewrite <- app_assoc, Hs. apply Hfin.
      * destruct Hpol as [-> Hpol]. split; [done|]. simpl. by rewrite Hs.
    + inv_io. simplify_eq. exists [chunk], chunks.
      assert (concat [chunk] = chunk) as Hc by apply app_nil_r. unfold polled. rewrite Hc. simpl.
      split_and!; try done; by intros ? ? [= <- <-].
  - by apply io_bind_ok in H as (u & w1 & _ & H).
Qed.

Lemma deliver_ok fuel s w :
  (0 <= bs_maximum s < usize_max)%Z -> (0 <= bs_total s <= bs_maximum s)%Z ->
  wf_redactor (bs_redactor s) -> bs_finished s = false ->
  exists data rest, bs_chunks s = (Some <$> data) ++ rest
    /\ (bs_total s + len (concat data) <= bs_maximum s)%Z
    /\ let whole := scan (stream_patterns (bs_redactor s)) (pending (bs_redactor s) ++ concat data) in
       (deliver fuel s w).1.1 `prefix_of` whole
       /\ ((deliver fuel s w).1.2 = Some (Ok ()) -> rest = [] /\ (deliver fuel s w).1.1 = whole).
Proof.
  revert s w. induction fuel as [|fuel IH]; intros s w Hmax Htot Hwf Hfin.
  { exists [], (bs_chunks s). split; [done|]. split; [unfold len; simpl; lia|].
    split; [apply prefix_nil|done]. }
  cbn [deliver]. destruct (stream_next env service s w) as [[res|e] w1] eqn:E.
  2: { exists [], (bs_chunks s). split; [done|]. split; [unfold len; simpl; lia|].
    split; [apply prefix_nil|done]. }
  unfold stream_next in E. rewrite Hfin in E.
  apply read_stream_ok in E as (data & rest & Hch & Hl & Hm & Hpol); [|done..].
  destruct res as [[o s']|].
  2: { destruct Hpol as [-> Hs]. exists data, []. rewrite Hs. by split_and!. }
  destruct Hpol as (Hwf' & Hps & Ht & Hpol). specialize (Hm _ _ eq_refl).
  destruct (bs_finished s') eqn:Ef.
  - destruct Hpol as [-> Hs]. exists data, []. rewrite Hs, Hch. split; [done|]. split; [done|].
    destruct fuel as [|fuel]; cbn [deliver].
    + cbn [fst snd]. rewrite app_nil_r. by split_and!.
    + unfold stream_next. rewrite Ef. simpl. rewrite !app_nil_r. by split_and!.
  - destruct Hpol as [Hrest Hs].
    assert (0 <= len (concat data))%Z by (unfold len; lia).
    destruct (IH s' w1) as (data' & rest' & Hch' & Hl' & Hout & Hok); [rewrite ?Hm; lia..|done|done|].
    exists (data ++ data'), rest'. rewrite Hch, <- Hrest, Hch', fmap_app, concat_app, <- app_assoc.
    split; [done|]. split; [unfold len in *; rewrite length_app; lia|].
    rewrite Hs. destruct (deliver fuel s' w1) as [[out ending] w2]. rewrite Hps in *. simpl in *.
    split; [by apply prefix_app|]. intros Hend. destruct (Hok Hend) as [-> ->]. done.
Qed.
End Facts.
