(* ===== verification/ProxyProps.v ===== *)
(** ProxyProps: the claims about the request path, with their witnesses. *)

From Stdlib Require Import Ascii String.
From stdpp Require Import base list strings gmap relations.
From S2P Require Import Prelude Str BTree External Models Redaction Database Store StoreFacts StoreProps Auth Ip Net Policy Request Injection WebSocket Catalog Connector ConnectorFacts Config ConfigFacts Leases LeaseProps Control ServiceFacts Sessions SessionFacts Proxy ProxyFacts.

Section Props.
Context {HL : HeaderLib} {UL : UrlLib} {EL : EncodingLib} {JL : JwtLib} {PL : PasswordLib}
  {BL : BackendLib} {WL : WebSocketLib}.
Context (env : Outside) (net : Network) (service : Service).
#[local] Abbreviation PX := (io ProxyData).
#[local] Abbreviation W := (Connector.world ProxyData).
#[local] Abbreviation state := (app_state service).
Implicit Types w : W.

(** An address is dialled only for a CONNECT with a live and granted session. *)
Lemma connect_logs catalog method uri headers w :
  logs (Forall (fun c => exists a ac session, c = Dialed a
          /\ authorize_connect_request method uri headers catalog = Ok ac
          /\ tunnel_authorised w ac session (RawTunnel a)))
    (log w) (transparent_connect_response net service catalog method uri headers) w.
Proof.
  set (P := Forall _). assert (P []) as Hn by constructor.
  apply logs_bind; [done..|]. intros permit w1 Hp. injection Hp as _ <-. cbv zeta.
  destruct permit; cbn [negb]; [|by apply logs_silent].
  destruct (match hm_get headers _ with Some _ => _ | None => _ end); [by apply logs_silent|].
  destruct (authorize_connect_request _ _ _ _) as [ac|] eqn:Eac; [|by apply logs_silent].
  destruct (managed _) eqn:Hm; cbn [negb]; [|by apply logs_silent].
  apply logs_or_return; [apply silent_zoom|done|]. intros [session|] w2 Hs; [|by apply logs_silent].
  apply zoom_session in Hs as (Hlive & Ht & Hc).
  destruct (bool_decide _) eqn:Epr; cbn [negb]; [|by apply logs_silent]. breflect in Epr.
  apply logs_or_return; [apply silent_zoom|done|]. intros [] w3 Hg; [|by apply logs_silent].
  apply zoom_permitted, (may_proxy_eq service (tick w)) in Hg; [|done..]. specialize (Hg Hm).
  cbn [negb]. apply logs_or_return_last.
  - destruct (destination ac) as [name profile|name profile host allow] eqn:Ed.
    + by apply logs_silent.
    + apply logs_then; [|done]. eapply logs_impl; [apply connect_upstream_logs|].
      intros new Hnew. eapply Forall_impl; [exact Hnew|]. intros c (a & -> & Ha).
      exists a, ac, session. simpl in Epr. subst profile. unfold tunnel_authorised. rewrite Ed.
      split_and!; try done. by exists name, host, allow.
  - intros tunnel. apply silent_or_return; [apply silent_zoom|done].
Qed.

(** ** Claims *)

(** C1: the authenticated proxy endpoint sends at most one request upstream, and
    only for a caller with a credential, a configured route, a current grant for
    its profile, a trusted browser origin and a request the route's policy
    admits; the request goes to the route's own origin without URL credentials,
    and carries, in the header that the route's injection names, exactly the value it
    makes of the credential supplied for the route's profile, plus allowlisted caller
    headers only.  The grant is what managed mode checks. *)
Theorem proxied_request_confined {HW : HeaderLaws} {UW : UrlLaws}
    route_name path query method headers body w :
  exists new,
    log (proxy env net service route_name path query method headers body w).2 = log w ++ new
    /\ (new = [] \/ exists rq id route validated base values prepared name value,
      new = [Requested rq]
      /\ credential_for state headers (inner w) id
      /\ bt_get (cfg_proxy_routes (service_config service)) route_name = Some route
      /\ (managed (service_auth service) = true ->
          granted (inner w) (subject id) (route_profile route) Proxy)
      /\ is_trusted_browser_origin headers (cfg_public_url (service_config service)) = true
      /\ request_allowed route path query method headers (len body) validated
      /\ url_parse (base_url route) = Some base /\ url_origin (ur_target rq) = url_origin base
      /\ url_username (ur_target rq) = [] /\ url_password (ur_target rq) = None
      /\ ur_method rq = method
      /\ supplied env service w (subject id) route values
      /\ prepare_credentials route values body = Ok prepared
      /\ ur_body rq = Injection.body prepared
      /\ injected route values name value
      /\ forall n, hm_get_all (ur_headers rq) n =
           if decide (n = name) then [value]
           else if decide (name_as_str n ∈ allowed_request_headers route)
           then option_list (hm_get headers n) else []).
Proof.
  destruct (proxy_logs env net service route_name path query method headers body w)
    as (new & Hl & Hnew).
  exists new. split; [done|]. destruct Hnew as [->|(rq & -> & id & route & v & Hid & Hr & Hg & Ho & Ha
    & values & prepared & Hv & Hp & Hb & Hh & Ht & Hm)]; [by left|right].
  apply build_target_url_origin in Ht as (base & Hbase & Hori & Hu & Hpw).
  exists rq, id, route, v, base, values, prepared, (injection_name prepared), (injection_value prepared).
  split_and!; try done; [by eapply prepare_credentials_injected|by apply outbound_headers_get].
Qed.

(** C2: a credential of the route that is not empty and that the marker [[REDACTED]]
    cannot complete (it has no bracket and is not part of the marker's word) never comes
    back to the caller: neither the response headers nor the body contain it as the
    backend supplied it, whether the body is buffered or streamed and however far the
    stream is read. *)
Theorem response_carries_no_credential {HW : HeaderLaws} route context body w r w' key secret :
  proxy_request env net service route context body w = (Ok r, w') ->
  (max_body_bytes route < usize_max)%Z -> (0 <= max_response_bytes route < usize_max)%Z ->
  exists profile values lease v,
    bt_get (profiles state) (route_profile route) = Some profile
    /\ acquire_owned_proxy_secrets env state (route_profile route) profile
         (context_subject context) (inner w) = (Ok (values, lease), v)
    /\ (key ∈ credential_keys route -> bt_get values key = Some secret ->
        secret <> [] -> marker_proof secret = true ->
        (forall name value, (name, value) ∈ response_headers r -> ~ infix_of secret value)
        /\ match response_body r with
           | Full b => ~ infix_of secret b
           | Streamed s => forall fuel w0, ~ infix_of secret (deliver env service fuel s w0).1.1
           end).
Proof.
  intros H Hmax Hmax'. apply proxy_request_ok in H as
    (profile & values & lease & v & prepared & upstream & Hp & Ha & Hprep & _ & Hh & Hbody).
  exists profile, values, lease, v. split_and!; [done..|]. intros Hkey Hsec Hne Hmp.
  pose proof (prepared_secret_pattern _ _ _ _ _ _ Hprep Hmax Hkey Hsec Hne) as Hin.
  destruct (prepare_credentials_ok _ _ _ _ Hprep Hmax) as (sens & secrets & _ & _ & _ & Hr).
  rewrite Hr in *.
  assert (forall raw out, redact_bytes (redaction_new (sens ++ secrets)) raw = Some out ->
            ~ infix_of secret out) as Hred.
  { intros raw out Hout. destruct (redact_bytes_absent _ raw secret Hin Hmp) as (o & Ho & Hno).
    congruence. }
  split.
  - intros name value Hv. apply (copy_response_headers_ok _ _ _ _ _ _ Hh) in Hv as (u & Hu & _).
    by eapply Hred.
  - destruct (response_mode route).
    + destruct Hbody as (raw & b & _ & Hb & ->). by eapply Hred.
    + rewrite Hbody. intros fuel w0 (pre & post & Hinf).
      match type of Hinf with context [deliver _ _ _ ?s _] => set (st := s) in * end.
      destruct (deliver_ok env service fuel st w0) as (data & rest & _ & _ & [more Hpre] & _);
        [done|simpl; lia|apply redaction_new_wf|done|].
      apply (scan_removes _ (patterns (redaction_new (sens ++ secrets))) secret (concat data)
               (redaction_new_wf _) Hin Hmp).
      exists pre, (post ++ more). cbn [st bs_redactor into_streaming stream_patterns pending app] in Hpre.
      rewrite Hinf in Hpre. etrans; [exact Hpre|]. by rewrite <- !app_assoc.
Qed.

(** C14: a streamed response ends after at most two polls more than the upstream
    sent chunks.  It never takes in more than [max_response_bytes]; what has been
    delivered at any point is a prefix of the single-pass redaction of the bytes
    read, and when the stream ends without error it is the redaction of the
    whole upstream body. *)
Theorem streamed_body_terminates route context body w r w' s fuel w0 :
  proxy_request env net service route context body w = (Ok r, w') ->
  response_body r = Streamed s ->
  (max_body_bytes route < usize_max)%Z -> (0 <= max_response_bytes route < usize_max)%Z ->
  (length (bs_chunks s) + 2 <= fuel -> is_Some (deliver env service fuel s w0).1.2)
  /\ exists data rest, bs_chunks s = (Some <$> data) ++ rest
      /\ (len (concat data) <= max_response_bytes route)%Z
      /\ let whole := scan (stream_patterns (bs_redactor s)) (concat data) in
         (deliver env service fuel s w0).1.1 `prefix_of` whole
         /\ ((deliver env service fuel s w0).1.2 = Some (Ok ()) ->
             rest = [] /\ (deliver env service fuel s w0).1.1 = whole).
Proof.
  intros H Hs Hmax Hmax'. apply proxy_request_ok in H as
    (profile & values & lease & v & prepared & upstream & _ & _ & Hprep & _ & _ & Hbody).
  destruct (prepare_credentials_ok _ _ _ _ Hprep Hmax) as (sens & secrets & _ & _ & _ & Hr).
  destruct (response_mode route); [destruct Hbody as (? & ? & _ & _ & Hb); congruence|].
  assert (s = {| bs_chunks := us_chunks upstream; bs_redactor := into_streaming (redaction prepared);
    bs_total := 0; bs_maximum := max_response_bytes route; bs_finished := false;
    bs_lease := lease |}) as -> by congruence.
  split; [intros Hf; apply deliver_ends; simpl in *; unfold polls_left; simpl; lia|].
  rewrite Hr. match goal with |- context [deliver _ _ _ ?s _] => set (st := s) in * end.
  destruct (deliver_ok env service fuel st w0) as (data & rest & Hd & Hl & Hpre & Hok);
    [done|simpl; lia|apply redaction_new_wf|done|].
  exists data, rest. split; [done|]. split; [done|]. by split.
Qed.

(** C4: a CONNECT leads to a tunnel only with the digest of a live, unrevoked
    session whose profile is the destination's and still granted; an intercepted
    tunnel is bound to that route, host, digest and session, and a raw one to an
    address the destination's address policy allows; a 200 answer has left its
    audit event.  Whatever the answer, only addresses that policy allows were
    dialled, and only for a configured tunnel. *)
Theorem connect_opens_only_authorised catalog method uri headers w r t w' :
  transparent_connect_response net service catalog method uri headers w = (Ok (r, t), w') ->
  (response_status r = status_ok -> is_Some t)
  /\ (forall tunnel, t = Some tunnel -> exists ac session,
        authorize_connect_request method uri headers catalog = Ok ac
        /\ tunnel_authorised w ac session tunnel
        /\ (response_status r = status_ok -> exists now, clk (inner w) = Some now /\
             tbl (inner w') = audited now (ps_subject session) &"transparent_proxy_connect"
               (Some (ps_profile session)) (Some (destination_name (destination ac))) None
               (tbl (inner w))))
  /\ exists new, log w' = log w ++ new /\
      Forall (fun c => exists a ac name profile host allow, c = Dialed a
        /\ authorize_connect_request method uri headers catalog = Ok ac
        /\ destination ac = Tunnel name profile host allow
        /\ tunnel_ip_allowed a allow = true) new.
Proof.
  intros H. pose proof (connect_logs catalog method uri headers w) as Hl. unfold logs in Hl.
  rewrite H in Hl. apply connect_ok in H. split_and!; [|intros tunnel ->; done|].
  - intros Hst. by destruct t.
  - destruct Hl as (new & Hl & Hnew). exists new. split; [done|]. eapply Forall_impl; [exact Hnew|].
    intros c (a & ac & session & -> & Hac & _ & _ & _ & name & host & allow & Hd & Ha).
    by exists a, ac, name, (ps_profile session), host, allow.
Qed.

(** A request inside an intercepted tunnel reaches an upstream at most once,
    and only while the session it was opened with is live under the same
    identifier, its profile is the route's and still granted, the request's
    authority is the route's, its body is within bounds and the route's policy
    admits it; it goes to the route's own origin. *)
Theorem tunnelled_request_confined {UW : UrlLaws} request route_name h i w :
  exists new,
    log (transparent_tunnel_response env net service request route_name h i w).2 = log w ++ new
    /\ (new = [] \/ exists rq session route base (body : bytes) validated,
      new = [Requested rq]
      /\ live_session w h session /\ ps_session_id session = i
      /\ bt_get (cfg_proxy_routes (service_config service)) route_name = Some route
      /\ ps_profile session = route_profile route
      /\ granted (inner w) (ps_subject session) (route_profile route) Proxy
      /\ enforce_transparent_tunnel_target route (tr_uri request) (tr_headers request) = Ok ()
      /\ collect_transparent_body (max_body_bytes route) [] (tr_frames request) = Ok body
      /\ request_allowed route (uri_path (tr_uri request)) (uri_query (tr_uri request))
           (tr_method request) (tr_headers request) (len body) validated
      /\ url_parse (base_url route) = Some base /\ url_origin (ur_target rq) = url_origin base).
Proof.
  destruct (tunnelled_logs env net service request route_name h i w) as (new & Hl & Hnew).
  exists new. split; [done|]. destruct Hnew as [->|(rq & -> & session & route & body & v & Hlive & Hi
    & Hr & Hp & Hg & Ht & Hb0 & Ha & Hrq)]; [by left|right].
  assert (build_target_url route v = Ok (ur_target rq)) as Hb.
  { by destruct Hrq as [(? & ? & ? & ? & ? & ? & ? & ?)|[(? & ? & ? & ? & ? & ? & ? & ? & ? & ? & _) _]]. }
  apply build_target_url_origin in Hb as (base & Hbase & Ho & _).
  by exists rq, session, route, base, body, v.
Qed.
End Props.

(** ** Witnesses *)

Module ProxyModels.
Import Models AuthModels ConnectorModels LeaseModels ConfigModels SessionModels.

#[export] Instance accept_keys : WebSocketLib := fun key => key ++ &"-accept".

Definition api_route (mode : ProxyResponseMode) : ProxyRouteConfig := {|
  route_profile := &"deploy"; base_url := &"https://api.example.test/base/";
  legacy_secret_key := []; legacy_header := []; legacy_header_prefix := [];
  injection := Some (Bearer &"API_TOKEN"); body_substitutions := [];
  allowed_methods := [&"GET"; &"POST"]; allowed_exact_paths := [&"/health"];
  allowed_path_prefixes := []; allowed_request_headers := default_allowed_request_headers;
  allowed_response_headers := default_allowed_response_headers; allowed_query_parameters := [];
  allowed_content_types := []; max_body_bytes := default_proxy_max_body_bytes;
  response_mode := mode; max_response_bytes := default_proxy_max_response_bytes;
  websocket := Some Sample.ws |}.

(** The backend issues a dynamic credential [u1] for the profile. *)
Definition leased_config : Config := {|
  cfg_listen := default_listen; cfg_public_url := &"https://av.example.test";
  cfg_mode := Managed; cfg_managed := None; cfg_auth := ConfigModels.auth;
  cfg_connectors := []; cfg_provider_operations := [];
  cfg_profiles := [(&"deploy", dynamic_profile [(&"API_TOKEN", field_of &"username")])];
  cfg_proxy_routes := [(&"feed", api_route Streaming); (&"items", api_route Buffered)];
  cfg_proxy_tunnels := [(&"registry", Sample.tunnel)]; cfg_transparent_proxy := None;
  cfg_max_connector_concurrency := 1; cfg_api_rate_limit_per_second := 1;
  cfg_api_rate_limit_burst := 1 |}.
Definition proxying : Service := {|
  service_config := leased_config; service_connectors := [(&"bao", ConnectorModels.bao)];
  service_auth := authenticator; transparent_proxy := None; backend := Postgres |}.

(** An upstream that echoes the credential in a header and, cut in two, in its body. *)
Definition network : Network := {|
  rate_permits _ := true;
  upstream_send _ _ := Some {| us_status := 200; us_content_length := None;
    us_headers := [(&"content-type", &"text/u1")];
    us_chunks := [Some &"hello u"; Some &"1 bye"]; us_upgrade := false |};
  lookup_host _ _ := Some [V4 {| octet0 := 93; octet1 := 184; octet2 := 216; octet3 := 34 |}];
  tcp_connect _ _ := true; set_nodelay _ := true |}.

Definition session_tables : Tables :=
  StoreProps.Sample.after
    (CreateProxySession &"s1" (sha256_digest &"abc") &"agent:bot" &"deploy" 100 200) granted_tables.
Definition proxy_world (t : Tables) : Connector.world ProxyData := {|
  calls := 0; exchanges := []; tokens := ∅;
  server := {| contacts := []; server_data := {| active := ∅;
    database := {| tables := t; clock := Some 10%Z; outcomes := [] |}; keys := cold |} |} |}.

Definition proxied := proxy (outside_world 200) network proxying &"items" &"/health" None &"GET"
  as_agent [] (proxy_world granted_tables).

Example proxied_body : proxied.1 = Ok (no_store {| response_status := 200;
  response_headers := [(&"content-type", &"text/[REDACTED]")];
  response_body := Full &"hello [REDACTED] bye" |}) /\ length (log proxied.2) = 1.
Proof. vm_compute. done. Qed.

Lemma proxied_request_confined_witness :
  exists new, log proxied.2 = [] ++ new
    /\ (new = [] \/ exists rq (base : Url), new = [Requested rq]
          /\ url_origin (ur_target rq) = url_origin base).
Proof.
  destruct (proxied_request_confined (HL := headers) (outside_world 200) network proxying &"items"
    &"/health" None &"GET" as_agent [] (proxy_world granted_tables)) as (new & Hl & Hnew).
  exists new. split; [exact Hl|].
  destruct Hnew as [->|(rq & _ & _ & _ & base & _ & _ & _ & _ & -> & _ & _ & _ & _ & _ & _ & Ho & _)].
  - left. reflexivity.
  - right. exists rq, base. split; [reflexivity|exact Ho].
Defined.

Definition health : ProxyRequestContext := {|
  context_subject := &"agent:bot"; context_validated := {| normalized_path := &"/health"; query := [] |};
  context_method := &"GET"; context_headers := [] |}.
Definition requested (mode : ProxyResponseMode) :=
  proxy_request (outside_world 200) network proxying (api_route mode) health []
    (proxy_world granted_tables).
Definition buffered_response : Response := {|
  response_status := 200; response_headers := [(&"content-type", &"text/[REDACTED]")];
  response_body := Full &"hello [REDACTED] bye" |}.

(** A run split into its answer and its final world. *)
Lemma answered {A} (run : A * Connector.world ProxyData) a : run.1 = a -> run = (a, run.2).
Proof. by destruct run; simpl; intros ->. Qed.

Lemma requested_buffered : (requested Buffered).1 = Ok buffered_response.
Proof. vm_compute. reflexivity. Qed.

Lemma leased_values :
  (acquire_owned_proxy_secrets (outside_world 200) (app_state proxying) &"deploy"
     (dynamic_profile [(&"API_TOKEN", field_of &"username")]) &"agent:bot"
     (inner (proxy_world granted_tables))).1
  = Ok ([(&"API_TOKEN", &"u1")],
        Some {| owner_handle := &"av_lease_" ++ base64_url_safe_no_pad (repeat "r"%char 32);
                owner_subject := &"agent:bot"; owner_expires_at := from_secs 3700 |}).
Proof. vm_compute. reflexivity. Qed.

Lemma response_carries_no_credential_witness :
  (requested Buffered).1 = Ok buffered_response
  /\ exists values, bt_get values &"API_TOKEN" = Some &"u1"
     /\ ~ infix_of &"u1" &"hello [REDACTED] bye".
Proof.
  split; [exact requested_buffered|].
  destruct (response_carries_no_credential (HL := headers) (outside_world 200) network proxying
    (api_route Buffered) health [] (proxy_world granted_tables) buffered_response
    (requested Buffered).2 &"API_TOKEN" &"u1") as (profile & values & lease & v & Hp & Ha & Hno).
  - exact (answered _ _ requested_buffered).
  - reflexivity.
  - vm_compute. split; [discriminate|reflexivity].
  - exists values. assert (bt_get values &"API_TOKEN" = Some &"u1") as Hv.
    { injection Hp as <-. pose proof (eq_trans (eq_sym leased_values) (f_equal fst Ha)) as He.
      injection He as <- _. reflexivity. }
    split; [exact Hv|]. apply Hno; [left|exact Hv|discriminate|reflexivity].
Defined.

Definition feed : BodyStream := {|
  bs_chunks := [Some &"hello u"; Some &"1 bye"];
  bs_redactor := into_streaming (redaction_new [&"u1"; &"Bearer u1"]);
  bs_total := 0; bs_maximum := default_proxy_max_response_bytes; bs_finished := false;
  bs_lease := Some {| owner_handle := &"av_lease_" ++ base64_url_safe_no_pad (repeat "r"%char 32);
    owner_subject := &"agent:bot"; owner_expires_at := from_secs 3700 |} |}.
Definition streaming_response : Response := {|
  response_status := 200; response_headers := [(&"content-type", &"text/[REDACTED]")];
  response_body := Streamed feed |}.
Lemma requested_streaming : (requested Streaming).1 = Ok streaming_response.
Proof. vm_compute. reflexivity. Qed.

Lemma streamed_body_terminates_witness :
  is_Some (deliver (outside_world 200) proxying 4 feed (requested Streaming).2).1.2
  /\ (deliver (outside_world 200) proxying 4 feed (requested Streaming).2).1.1
     = &"hello [REDACTED] bye".
Proof.
  split; [|vm_compute; reflexivity].
  apply (streamed_body_terminates (outside_world 200) network proxying (api_route Streaming) health []
    (proxy_world granted_tables) streaming_response (requested Streaming).2 feed 4).
  - exact (answered _ _ requested_streaming).
  - reflexivity.
  - reflexivity.
  - vm_compute. split; [discriminate|reflexivity].
  - apply Nat.le_refl.
Defined.

Definition registry_uri : Uri :=
  {| uri_scheme := None; uri_authority := Some &"registry.example.test:443";
     uri_path := []; uri_query := None |}.
Definition registry_headers : HeaderMap :=
  [(&"host", &"registry.example.test:443"); (&"proxy-authorization", &"Bearer abc")].
Definition connected := transparent_connect_response network proxying sample_catalog &"CONNECT"
  registry_uri registry_headers (proxy_world session_tables).
Definition registry_address : IpAddr := V4 {| octet0 := 93; octet1 := 184; octet2 := 216; octet3 := 34 |}.
Lemma connected_raw :
  connected.1 = Ok (transparent_response status_ok, Some (RawTunnel registry_address)).
Proof. vm_compute. reflexivity. Qed.

Lemma connect_opens_only_authorised_witness :
  exists ac session,
    authorize_connect_request &"CONNECT" registry_uri registry_headers sample_catalog = Ok ac
    /\ tunnel_authorised (proxy_world session_tables) ac session (RawTunnel registry_address).
Proof.
  destruct (connect_opens_only_authorised network proxying sample_catalog &"CONNECT" registry_uri
    registry_headers (proxy_world session_tables) (transparent_response status_ok)
    (Some (RawTunnel registry_address)) connected.2) as (_ & Ht & _).
  - exact (answered _ _ connected_raw).
  - destruct (Ht _ eq_refl) as (ac & session & Hac & Hauth & _).
    exists ac, session. split; [exact Hac|exact Hauth].
Defined.

Definition inner_request : TunnelRequest := {|
  tr_method := &"GET";
  tr_uri := {| uri_scheme := None; uri_authority := None; uri_path := &"/health"; uri_query := None |};
  tr_headers := [(&"host", &"api.example.test")]; tr_frames := [] |}.
Definition tunnelled := transparent_tunnel_response (outside_world 200) network proxying inner_request
  &"items" (sha256_digest &"abc") &"s1" (proxy_world session_tables).
Example tunnelled_ok : tunnelled.1 = Ok (buffered_response, None) /\ length (log tunnelled.2) = 1.
Proof. vm_compute. done. Qed.

Lemma tunnelled_request_confined_witness :
  exists new, log tunnelled.2 = [] ++ new
    /\ (new = [] \/ exists rq session, new = [Requested rq]
          /\ live_session (proxy_world session_tables) (sha256_digest &"abc") session).
Proof.
  destruct (tunnelled_request_confined (outside_world 200) network proxying inner_request
    &"items" (sha256_digest &"abc") &"s1" (proxy_world session_tables)) as (new & Hl & Hnew).
  exists new. split; [exact Hl|].
  destruct Hnew as [->|(rq & session & _ & _ & _ & _ & -> & Hs & _)].
  - left. reflexivity.
  - right. exists rq, session. split; [reflexivity|exact Hs].
Defined.
End ProxyModels.
