(* ===== verification/Relay.v ===== *)
(** Relay: the WebSocket relay of src/server.rs ([relay_websocket_streams],
    [websocket_session_is_active], [redact_websocket_message]).

    [tokio::select!] picks any branch that is ready, so the loop is a machine
    driven by an arbitrary list of events, each one a branch taken.  Whether a
    write completes in time is asked of the outside.  A list that ends before
    the loop does is a prefix of a longer run. *)

From Stdlib Require Import Ascii String.
From stdpp Require Import base list strings gmap.
From S2P Require Import Prelude Str BTree External Models Redaction Database Store Auth Policy Injection Connector Leases Sessions Proxy.

(** ** [tungstenite::Message] *)

Record CloseFrame := { close_code : Z; close_reason : bytes }.
Inductive Message :=
| TextMessage (value : bytes)
| BinaryMessage (value : bytes)
| PingMessage (value : bytes)
| PongMessage (value : bytes)
| CloseMessage (frame : option CloseFrame)
| FrameMessage (header payload : bytes).

(** [Message::len] *)
Class MessageLib := message_len : Message -> Z.
Class MessageLaws `{!MessageLib} : Prop := message_len_nonneg m : (0 <= message_len m)%Z.

Definition is_close (m : Message) : bool :=
  match m with CloseMessage _ => true | _ => false end.

Definition u64_max : Z := 2 ^ 64 - 1.
Definition u64_saturating_add (a b : Z) : Z := Z.min u64_max (a + b).

Definition redact_text (set : RedactionSet) (value : bytes) : result bytes :=
  redacted ← ok_or (redact_bytes set value) "redaction did not finish";
  _ ← bail_if (negb (utf8_valid redacted)) "invalid utf-8 sequence";
  Ok redacted.
Definition redact_binary (set : RedactionSet) (value : bytes) : result bytes :=
  ok_or (redact_bytes set value) "redaction did not finish".

Definition redact_websocket_message (message : Message) (set : RedactionSet) : result Message :=
  match message with
  | TextMessage value => value ← redact_text set value; Ok (TextMessage value)
  | BinaryMessage value => value ← redact_binary set value; Ok (BinaryMessage value)
  | PingMessage value => value ← redact_binary set value; Ok (PingMessage value)
  | PongMessage value => value ← redact_binary set value; Ok (PongMessage value)
  | CloseMessage None => Ok (CloseMessage None)
  | CloseMessage (Some frame) =>
      reason ← redact_text set (close_reason frame);
      Ok (CloseMessage (Some {| close_code := close_code frame; close_reason := reason |}))
  | FrameMessage _ _ => Err "raw WebSocket frames are not supported"
  end.

(** ** The loop *)

Inductive Side := Client | Upstream.
(** What [next()] gives: the end of the stream, an error, or a message. *)
Inductive Incoming := Closed | ReadError | Received (message : Message).
Inductive RelayEvent :=
| DeadlineReached
| RenewalDue
| SessionCheck
| Arrives (from : Side) (incoming : Incoming).

(** [forwarded] lists what was handed to each side's sink. *)
Record Relay := {
  total_bytes : Z;
  relay_lease : option DynamicLeaseOwner;
  forwarded : list (Side * Message);
}.
Inductive Flow := Going (r : Relay) | Ended (outcome : result unit) (r : Relay).

Section Relay.
Context {HL : HeaderLib} {UL : UrlLib} {EL : EncodingLib} {JL : JwtLib} {PL : PasswordLib}
  {BL : BackendLib} {ML : MessageLib}.
Context (env : Outside) (write_completes : nat -> bool) (state : AppState).
#[local] Abbreviation IO := (io ServerData).

Definition websocket_session_is_active (token_hash session_id profile : bytes) : IO bool :=
  _ ← ensure (bail_if (negb (managed (auth state))) "managed proxy sessions are required");
  session ← with_store (active_proxy_session token_hash);
  match session with
  | None => mret false
  | Some session =>
      if negb (bool_decide (ps_session_id session = session_id))
         || negb (bool_decide (ps_profile session = profile))
      then mret false
      else profile_permitted state (ps_subject session) profile Proxy
  end.

Context (session : WebSocketSessionContext).
#[local] Abbreviation policy := (wss_policy session).

Definition other (side : Side) : Side :=
  match side with Client => Upstream | Upstream => Client end.

(** The two message branches, which differ in the sink only. *)
Definition forward (from : Side) (message : Message) (r : Relay) : IO Flow :=
  let total := u64_saturating_add (total_bytes r) (message_len message) in
  let counted := {| total_bytes := total; relay_lease := relay_lease r; forwarded := forwarded r |} in
  if (max_total_bytes policy <? total)%Z
  then mret (Ended (Err "WebSocket byte limit reached") counted)
  else match redact_websocket_message message (wss_redaction session) with
  | Err e => mret (Ended (Err e) counted)
  | Ok redacted =>
      let sent := {| total_bytes := total; relay_lease := relay_lease r;
                     forwarded := forwarded r ++ [(other from, redacted)] |} in
      written ← outside write_completes;
      mret (if negb written then Ended (Err "WebSocket write timed out") sent
            else if is_close message then Ended (Ok ()) sent
            else Going sent)
  end.

Definition session_check : IO unit :=
  active ← websocket_session_is_active (wss_token_hash session) (wss_session_id session)
             (wss_profile session);
  ensure (bail_if (negb active) "WebSocket session was revoked, expired, or lost its grant").

(** The renewal branch; [None] when it is not enabled. *)
Definition renew_lease (r : Relay) : IO (option DynamicLeaseOwner) :=
  match relay_lease r with
  | None => mret None
  | Some owner =>
      _ ← session_check;
      renewed ← owner_renew env state owner;
      _ ← dynamic_proxy_renewal_delay env (owner_expires_at renewed);
      mret (Some renewed)
  end.

(** A branch of [select!]; an error of the branch ends the loop.  The lease that
    is being renewed keeps its owner on every error. *)
Definition relay_step (event : RelayEvent) (r : Relay) : IO Flow :=
  match event with
  | DeadlineReached => mret (Ended (Err "WebSocket lifetime limit reached") r)
  | RenewalDue =>
      renewed ← attempt (renew_lease r);
      mret (match renewed with
            | Err e => Ended (Err e) r
            | Ok None => Going r
            | Ok (Some owner) => Going {| total_bytes := total_bytes r; relay_lease := Some owner;
                                          forwarded := forwarded r |}
            end)
  | SessionCheck =>
      checked ← attempt session_check;
      mret (match checked with Err e => Ended (Err e) r | Ok _ => Going r end)
  | Arrives from Closed => mret (Ended (Ok ()) r)
  | Arrives from ReadError => mret (Ended (Err "read WebSocket message") r)
  | Arrives from (Received message) => forward from message r
  end.

Fixpoint relay_loop (events : list RelayEvent) (r : Relay) : IO Flow :=
  match events with
  | [] => mret (Going r)
  | event :: events =>
      flow ← relay_step event r;
      match flow with
      | Going r => relay_loop events r
      | Ended _ _ => mret flow
      end
  end.

Definition relay_websocket_streams (events : list RelayEvent) : IO Flow :=
  let start := {| total_bytes := 0; relay_lease := wss_lease session; forwarded := [] |} in
  ready ← attempt (match wss_lease session with
                   | Some owner => dynamic_proxy_renewal_delay env (owner_expires_at owner)
                   | None => mret (from_secs (u64_saturating_add (max_duration_seconds policy) 1))
                   end);
  match ready with
  | Err e =>
      _ ← match wss_lease session with
          | Some owner => owner_drop env state owner
          | None => mret ()
          end;
      mret (Ended (Err e) start)
  | Ok _ =>
      flow ← relay_loop events start;
      match flow with
      | Going r => mret (Going r)
      | Ended result r =>
          revoke ← attempt (match relay_lease r with
                            | Some owner => owner_revoke env state owner
                            | None => mret ()
                            end);
          mret (Ended (match result, revoke with
                       | Ok _, Ok _ => Ok ()
                       | Err e, _ => Err e
                       | Ok _, Err _ => Err "revoke dynamic WebSocket lease"
                       end) r)
      end
  end.
End Relay.
