(* ===== verification/RelayProps.v ===== *)
(** RelayProps: what the WebSocket relay lets through and when it must stop, and
    what becomes of dynamic leases along the whole request path. *)

From Stdlib Require Import Ascii String.
From stdpp Require Import base list strings gmap relations.
From S2P Require Import Prelude Str BTree External Models Redaction Database Store StoreFacts StoreProps Auth Ip Net Policy Request Injection WebSocket Catalog Connector ConnectorFacts Config ConfigFacts Leases LeaseProps Control ServiceFacts Sessions SessionFacts Proxy ProxyFacts ProxyProps Relay.

Definition relay_of (f : Flow) : Relay := match f with Going r | Ended _ r => r end.

(** The bytes a message shows to its receiver. *)
Definition message_payload (m : Message) : bytes :=
  match m with
  | TextMessage v | BinaryMessage v | PingMessage v | PongMessage v => v
  | CloseMessage None => []
  | CloseMessage (Some frame) => close_reason frame
  | FrameMessage header payload => header ++ payload
  end.

(** The messages among some events. *)
Fixpoint arrivals (events : list RelayEvent) : list (Side * Message) :=
  match events with
  | [] => []
  | Arrives from (Received m) :: events => (from, m) :: arrivals events
  | _ :: events => arrivals events
  end.

Definition total_length `{!MessageLib} (ms : list (Side * Message)) : Z :=
  foldr (fun m total => message_len m.2 + total)%Z 0%Z ms.

Lemma redact_message_payload set m m' :
  redact_websocket_message m set = Ok m' ->
  message_payload m' = [] \/ exists raw, redact_bytes set raw = Some (message_payload m').
Proof.
  destruct m as [v|v|v|v|[f|]|]; simpl; unfold redact_text, redact_binary; intros H; inv_ok;
    simpl; subst; first [by left|right; by eexists|done].
Qed.

Section Relay.
Context {HL : HeaderLib} {UL : UrlLib} {EL : EncodingLib} {JL : JwtLib} {PL : PasswordLib}
  {BL : BackendLib} {WL : WebSocketLib} {ML : MessageLib} {MW : MessageLaws}.
Context (env : Outside) (write_completes : nat -> bool) (service : Service).
#[local] Abbreviation IO := (io ServerData).
#[local] Abbreviation state := (app_state service).

Section Session.
Context (session : WebSocketSessionContext).
#[local] Abbreviation policy := (wss_policy session).
#[local] Abbreviation loop := (relay_loop env write_completes state session).
#[local] Abbreviation step := (relay_step env write_completes state session).

(** ** What goes through *)

(** [out] is [m] redacted, on its way to the other side. *)
Definition relayed (m out : Side * Message) : Prop :=
  out.1 = other m.1 /\ redact_websocket_message m.2 (wss_redaction session) = Ok out.2.

(** [r'] has forwarded [accepted] since [r]. *)
Definition forwards (r r' : Relay) (accepted : list (Side * Message)) : Prop :=
  exists outs, forwarded r' = forwarded r ++ outs /\ Forall2 relayed accepted outs
    /\ (accepted = [] \/ (total_bytes r + total_length accepted <= max_total_bytes policy)%Z).

Lemma step_forwards event r v flow v' :
  (max_total_bytes policy < u64_max)%Z ->
  step event r v = (Ok flow, v') ->
  exists accepted, forwards r (relay_of flow) accepted /\ accepted `prefix_of` arrivals [event]
    /\ (forall r', flow = Going r' -> accepted = arrivals [event]
          /\ total_bytes r' = (total_bytes r + total_length accepted)%Z).
Proof.
  intros Hmax H.
  assert (forwarded (relay_of flow) = forwarded r ->
          (forall r', flow = Going r' -> arrivals [event] = [] /\ total_bytes r' = total_bytes r) ->
          exists accepted, forwards r (relay_of flow) accepted
            /\ accepted `prefix_of` arrivals [event]
            /\ (forall r', flow = Going r' -> accepted = arrivals [event]
                  /\ total_bytes r' = (total_bytes r + total_length accepted)%Z)) as Hnone.
  { intros Hf Hg. exists []. split; [|split; [apply prefix_nil|]].
    - exists []. rewrite Hf, app_nil_r. split_and!; [done|constructor|by left].
    - intros r' Hr'. destruct (Hg r' Hr') as [-> ->]. simpl. split; [done|lia]. }
  destruct event as [| | |from [| |m]]; cbn [relay_step] in H.
  - inv_io. by apply Hnone.
  - apply io_bind_ok in H as (renewed & v1 & _ & H). inv_io.
    apply Hnone; destruct renewed as [[o|]|]; simpl; naive_solver.
  - apply io_bind_ok in H as (checked & v1 & _ & H). inv_io.
    apply Hnone; destruct checked; simpl; naive_solver.
  - inv_io. by apply Hnone.
  - inv_io. by apply Hnone.
  - unfold forward in H. cbv zeta in H. destruct (_ <? _)%Z eqn:E.
    { inv_io. by apply Hnone. }
    assert (u64_saturating_add (total_bytes r) (message_len m)
            = total_bytes r + message_len m)%Z as Hsat.
    { breflect in E. unfold u64_saturating_add in *. lia. }
    rewrite Hsat in *. breflect in E.
    destruct (redact_websocket_message m _) as [out|e] eqn:Em.
    2: { inv_io. by apply Hnone. }
    apply io_bind_ok in H as (written & v1 & _ & H). inv_io.
    exists [(from, m)]. split; [|split; [done|]].
    + exists [(other from, out)]. split; [by destruct written, (is_close m)|].
      split; [by repeat constructor|right; simpl; lia].
    + intros r' Hr'. destruct written, (is_close m); simpl in Hr'; simplify_eq. simpl. split; [done|lia].
Qed.

Lemma loop_forwards events r v flow v' :
  (max_total_bytes policy < u64_max)%Z ->
  loop events r v = (Ok flow, v') ->
  exists accepted, forwards r (relay_of flow) accepted /\ accepted `prefix_of` arrivals events.
Proof.
  intros Hmax. revert r v. induction events as [|event events IH]; intros r v; cbn [relay_loop].
  { intros H. inv_io. exists []. split; [|done]. exists []. rewrite app_nil_r.
    split_and!; [done|constructor|by left]. }
  intros H. apply io_bind_ok in H as (f & v1 & Hs & H).
  apply step_forwards in Hs as (acc & Hf & Hpre & Hgo); [|done].
  assert (arrivals (event :: events) = arrivals [event] ++ arrivals events) as Harr.
  { by destruct event as [| | |from [| |]]. }
  rewrite Harr. destruct f as [r1|res r1].
  - destruct (Hgo r1 eq_refl) as [-> Ht]. apply IH in H as (acc' & Hf' & Hpre').
    exists (arrivals [event] ++ acc'). split; [|by apply prefix_app].
    destruct Hf as (outs & Ho & H2 & Hb), Hf' as (outs' & Ho' & H2' & Hb').
    exists (outs ++ outs'). simpl in Ho. rewrite Ho', Ho, app_assoc. split_and!; [done|by apply Forall2_app|].
    assert (total_length (arrivals [event] ++ acc')
            = total_length (arrivals [event]) + total_length acc')%Z as Hsum.
    { generalize (arrivals [event]). intros l. induction l as [|x l IHl]; simpl; lia. }
    destruct Hb' as [->|Hb']; [rewrite app_nil_r; exact Hb|right]. rewrite Hsum. lia.
  - inv_io. exists acc. split; [done|]. by apply prefix_app_r.
Qed.

Lemma relay_streams_forwards events v flow v' :
  (0 <= max_total_bytes policy < u64_max)%Z ->
  relay_websocket_streams env write_completes state session events v = (Ok flow, v') ->
  exists accepted outs, accepted `prefix_of` arrivals events
    /\ forwarded (relay_of flow) = outs /\ Forall2 relayed accepted outs
    /\ (total_length accepted <= max_total_bytes policy)%Z.
Proof.
  unfold relay_websocket_streams. intros Hmax H. apply io_bind_ok in H as (ready & v1 & _ & H).
  destruct ready as [d|e].
  - apply io_bind_ok in H as (f & v2 & Hl & H).
    apply loop_forwards in Hl as (acc & (outs & Ho & H2 & Hb) & Hpre); [|lia].
    exists acc, outs. simpl in Ho.
    assert (total_length acc <= max_total_bytes policy)%Z
      by (destruct Hb as [->|Hb]; simpl in *; lia).
    destruct f as [r|res r]; [by inv_io|].
    apply io_bind_ok in H as (u & v3 & _ & H). by inv_io.
  - apply io_bind_ok in H as (u & v2 & _ & H). inv_io. exists [], [].
    split; [apply prefix_nil|]. split; [done|]. split; [constructor|]. simpl. lia.
Qed.

(** ** When it must stop *)

Lemma session_check_ok v u v' :
  session_check state session v = (Ok u, v') ->
  exists ps, live_at v (wss_token_hash session) ps /\ ps_session_id ps = wss_session_id session
    /\ ps_profile ps = wss_profile session
    /\ granted v (ps_subject ps) (wss_profile session) Proxy.
Proof.
  unfold session_check, websocket_session_is_active. intros H.
  apply io_bind_ok in H as (active & v1 & Ha & H). inv_io. inv_ok.
  match goal with H : negb active = false |- _ => apply negb_false_iff in H; subst active end.
  match goal with H : negb (managed _) = false |- _ => apply negb_false_iff in H; rename H into Hm end.
  match goal with H : with_store _ _ = (Ok ?o, _) |- _ => destruct o as [ps|]; [|by inv_io];
    pose proof (active_session_ok _ _ _ _ H) as Hlive;
    pose proof (reads_run _ _ _ _ (reads_with_store _ (active_readonly _)) H) as [Ht Hc] end.
  destruct (_ || _) eqn:E; [by inv_io|]. breflect in E. destruct E as [Hi Hp].
  apply (profile_permitted_ok _ _ _ _ _ _ _ Hm) in Ha as [Hg _].
  exists ps. split_and!; [done..|]. by apply (granted_eq _ _ _ _ _ Ht Hc), Hg.
Qed.
End Session.

(** ** Leases *)

Lemma owner_drop_keeps o : keeps env state (owner_drop env state o).
Proof.
  unfold owner_drop. destruct (is_empty _); [apply keeps_idle; auto with av|].
  apply keeps_then_ret, keeps_attempt, revoke_registered_keeps.
Qed.
Lemma owner_revoke_keeps o : keeps env state (owner_revoke env state o).
Proof.
  apply keeps_bind; [apply keeps_attempt, revoke_registered_keeps|intros []].
  - apply owner_drop_keeps.
  - apply keeps_bind; [apply owner_drop_keeps|intros _]. apply keeps_idle. auto with av.
Qed.
Lemma owner_renew_keeps o : keeps env state (owner_renew env state o).
Proof.
  apply keeps_bind; [apply renew_registered_keeps|intros ?]. apply keeps_idle. auto with av.
Qed.

Lemma keeps_then_idle {A B} (m : IO A) (f : A -> IO B) :
  keeps env state m -> (forall a, idle (f a)) -> keeps env state (m ≫= f).
Proof. intros Hm Hf. apply keeps_bind; [done|]. intros a. by apply keeps_idle. Qed.

Lemma outside_idle {A} (f : nat -> A) : idle (outside f).
Proof. apply idle_quiet; auto with av. Qed.
#[local] Hint Resolve outside_idle : av.

Lemma session_check_idle session : idle (session_check state session).
Proof. unfold session_check, websocket_session_is_active. solve_idle. Qed.
Lemma renewal_delay_idle expires : idle (dynamic_proxy_renewal_delay env expires).
Proof. unfold dynamic_proxy_renewal_delay, system_now. solve_idle. Qed.
Lemma forward_idle session from m r : idle (forward write_completes session from m r).
Proof. unfold forward. solve_idle. Qed.

Lemma relay_step_keeps session event r :
  keeps env state (relay_step env write_completes state session event r).
Proof.
  destruct event as [| | |from [| |m]]; cbn [relay_step];
    try (apply keeps_idle; solve [auto with av | apply forward_idle]).
  - apply keeps_then_idle; [|intros; auto with av]. apply keeps_attempt. unfold renew_lease.
    destruct (relay_lease r); [|apply keeps_idle; auto with av].
    apply keeps_bind; [apply keeps_idle, session_check_idle|intros _].
    apply keeps_bind; [apply owner_renew_keeps|intros o]. apply keeps_idle.
    apply idle_bind; [apply renewal_delay_idle|auto with av].
  - apply keeps_idle, idle_bind; [apply idle_attempt, session_check_idle|auto with av].
Qed.

Lemma relay_loop_keeps session events r :
  keeps env state (relay_loop env write_completes state session events r).
Proof.
  revert r. induction events as [|event events IH]; intros r; cbn [relay_loop].
  { apply keeps_idle. auto with av. }
  apply keeps_bind; [apply relay_step_keeps|]. intros []; [done|]. apply keeps_idle. auto with av.
Qed.

Lemma relay_keeps session events :
  keeps env state (relay_websocket_streams env write_completes state session events).
Proof.
  unfold relay_websocket_streams. apply keeps_bind.
  { apply keeps_idle, idle_attempt. case_match; [apply renewal_delay_idle|auto with av]. }
  intros [d|e].
  - apply keeps_bind; [apply relay_loop_keeps|]. intros [r|res r]; [apply keeps_idle; auto with av|].
    apply keeps_then_idle; [|intros; auto with av]. apply keeps_attempt.
    destruct (relay_lease r); [apply owner_revoke_keeps|apply keeps_idle; auto with av].
  - apply keeps_then_idle; [|intros; auto with av].
    destruct (wss_lease session); [apply owner_drop_keeps|apply keeps_idle; auto with av].
Qed.
End Relay.

(** ** The request path *)

Section Path.
Context {HL : HeaderLib} {UL : UrlLib} {EL : EncodingLib} {JL : JwtLib} {PL : PasswordLib}
  {BL : BackendLib} {WL : WebSocketLib} {ML : MessageLib}.
Context (env : Outside) (net : Network) (write_completes : nat -> bool) (service : Service).
#[local] Abbreviation PX := (io ProxyData).
#[local] Abbreviation W := (Connector.world ProxyData).
#[local] Abbreviation state := (app_state service).
Implicit Types w : W.

Definition keeps_px {A} (m : PX A) : Prop := forall w,
  (forall h item, leases (inner w) !! h = Some item ->
     fate env state (inner w) h item (inner (m w).2))
  /\ later (inner w) (inner (m w).2).

Lemma keeps_px_bind {A B} (m : PX A) (f : A -> PX B) :
  keeps_px m -> (forall a, keeps_px (f a)) -> keeps_px (m ≫= f).
Proof.
  intros Hm Hf w. destruct (Hm w) as [Hk Hlog]. unfold mbind, io_bind.
  destruct (m w) as [[a|e] w1]; cbn [snd] in *; [|done].
  destruct (Hf a w1) as [Hk' Hlog']. split; [|by transitivity (inner w1)].
  intros h item Hh. eapply (fate_mono env state h item (inner w) (inner w1));
    [apply Hk'|done|done|by apply Hk].
Qed.
Lemma keeps_px_attempt {A} (m : PX A) : keeps_px m -> keeps_px (attempt m).
Proof. intros Hm w. specialize (Hm w). unfold attempt. by destruct (m w). Qed.
Lemma keeps_px_context {A} (m : PX A) msg : keeps_px m -> keeps_px (context_of m msg).
Proof. intros Hm w. specialize (Hm w). unfold context_of. by destruct (m w). Qed.
Lemma keeps_px_or_return {A B} (m : PX A) (e : B) k :
  keeps_px m -> (forall a, keeps_px (k a)) -> keeps_px (or_return m e k).
Proof.
  intros Hm Hk. apply keeps_px_bind; [by apply keeps_px_attempt|]. intros [a|]; [done|].
  intros w. split; [intros; by eapply Kept; [|constructor]|done].
Qed.
Lemma keeps_zoom {A} (m : io ServerData A) : keeps env state m -> keeps_px (zoom m).
Proof.
  intros Hm w. specialize (Hm (inner w)). unfold zoom. destruct (m (inner w)) as [r v].
  cbn [snd] in *. by destruct v.
Qed.
Lemma keeps_zoom_idle {A} (m : io ServerData A) : idle m -> keeps_px (zoom m).
Proof. intros Hm. by apply keeps_zoom, keeps_idle. Qed.
Lemma keeps_px_local {A} (m : PX A) :
  (forall w, server_data (server (m w).2) = server_data (server w)
             /\ later w (m w).2) -> keeps_px m.
Proof.
  intros Hm w. destruct (Hm w) as [Hs He]. split; [|exact He].
  intros h item Hh. eapply Kept; [|constructor]. unfold leases in *. simpl in *. by rewrite Hs.
Qed.
Lemma keeps_px_ret {A} (a : A) : keeps_px (mret a).
Proof. apply keeps_px_local. intros w. split; [done|solve_later]. Qed.
Lemma keeps_px_ensure {A} (r : result A) : keeps_px (ensure r).
Proof. apply keeps_px_local. intros w. split; [done|solve_later]. Qed.
Lemma keeps_px_outside {A} (f : nat -> A) : keeps_px (outside f).
Proof. apply keeps_px_local. intros w. split; [done|solve_later]. Qed.
Lemma keeps_px_contact c : keeps_px (contact c).
Proof. apply keeps_px_local. intros w. split; [done|solve_later]. Qed.
Lemma keeps_px_drop lease : keeps_px (drop_lease env service lease).
Proof. destruct lease; [apply keeps_zoom, owner_drop_keeps|apply keeps_px_ret]. Qed.
Lemma keeps_px_revoke o : keeps_px (zoom (owner_revoke env state o)).
Proof. apply keeps_zoom, owner_revoke_keeps. Qed.
Lemma keeps_px_acquire name p s : keeps_px (zoom (acquire_owned_proxy_secrets env state name p s)).
Proof. apply keeps_zoom, acquire_owned_keeps. Qed.
Lemma keeps_px_fetch p : keeps_px (zoom (fetch_secrets env state p)).
Proof. apply keeps_zoom_idle, fetch_secrets_idle. Qed.
Lemma keeps_px_send rq : keeps_px (send_upstream net rq).
Proof.
  apply keeps_px_bind; [apply keeps_px_contact|intros _].
  apply keeps_px_bind; [apply keeps_px_outside|intros ?]. apply keeps_px_ensure.
Qed.
Lemma keeps_px_guarded {A} lease (m : PX A) : keeps_px m -> keeps_px (guarded env service lease m).
Proof.
  intros Hm. apply keeps_px_bind; [by apply keeps_px_attempt|]. intros []; [apply keeps_px_ret|].
  apply keeps_px_bind; [apply keeps_px_drop|intros _; apply keeps_px_ensure].
Qed.
#[local] Hint Resolve keeps_px_ret keeps_px_ensure keeps_px_outside keeps_px_contact keeps_px_drop
  keeps_px_revoke keeps_px_acquire keeps_px_fetch keeps_px_send : keep.
#[local] Hint Extern 1 (keeps_px (zoom _)) => apply keeps_zoom_idle; solve [auto with av] : keep.

#[local] Ltac solve_keeps :=
  repeat first
    [ solve [auto with keep]
    | apply keeps_px_or_return; [|intros ?]
    | apply keeps_px_guarded
    | apply keeps_px_context
    | apply keeps_px_bind; [|intros ?]
    | apply keeps_px_attempt
    | case_match ].

Lemma proxy_request_keeps route context body :
  keeps_px (proxy_request env net service route context body).
Proof. unfold proxy_request. solve_keeps. Qed.
Lemma proxy_websocket_request_keeps route context h i :
  keeps_px (proxy_websocket_request env net service route context h i).
Proof. unfold proxy_websocket_request. solve_keeps. Qed.
Lemma read_stream_keeps maximum redactor total lease chunks :
  keeps_px (read_stream env service maximum redactor total lease chunks).
Proof.
  revert redactor total. induction chunks as [|[chunk|] chunks IH]; intros redactor total;
    cbn [read_stream]; cbv zeta.
  - solve_keeps.
  - case_match; [solve_keeps|]. apply keeps_px_bind; [auto with keep|]. intros [output r].
    case_match; [apply IH|auto with keep].
  - solve_keeps.
Qed.
#[local] Hint Resolve proxy_request_keeps proxy_websocket_request_keeps : keep.

Lemma proxy_keeps route_name path q method headers body :
  keeps_px (proxy env net service route_name path q method headers body).
Proof. unfold proxy. solve_keeps. Qed.
Lemma tunnel_response_keeps request route_name h i :
  keeps_px (transparent_tunnel_response env net service request route_name h i).
Proof. unfold transparent_tunnel_response, drop_body. cbv zeta. solve_keeps. Qed.

Inductive path_op :=
| Proxied (route_name path : bytes) (query : option bytes) (method : bytes) (headers : HeaderMap)
    (body : bytes)
| Tunnelled (request : TunnelRequest) (route_name token_hash session_id : bytes)
| Polled (stream : BodyStream)
| Abandoned (response : Response)
| RelayRun (session : WebSocketSessionContext) (events : list RelayEvent).

Definition run_path_op (o : path_op) : PX unit :=
  match o with
  | Proxied n p q m h b => _ ← proxy env net service n p q m h b; mret ()
  | Tunnelled rq n h i => _ ← transparent_tunnel_response env net service rq n h i; mret ()
  | Polled s => _ ← stream_next env service s; mret ()
  | Abandoned r => drop_body env service r
  | RelayRun s es => _ ← zoom (relay_websocket_streams env write_completes state s es); mret ()
  end.
Definition run_path (ops : list path_op) w : W := foldl (fun w o => (run_path_op o w).2) w ops.

Lemma path_op_keeps o : keeps_px (run_path_op o).
Proof.
  destruct o; cbn [run_path_op]; unfold drop_body;
    try (apply keeps_px_bind; [|intros ?; auto with keep]).
  - apply proxy_keeps.
  - apply tunnel_response_keeps.
  - unfold stream_next. case_match; [auto with keep|apply read_stream_keeps].
  - case_match; auto with keep.
  - apply keeps_zoom, relay_keeps.
Qed.

Lemma run_path_later ops w : later (inner w) (inner (run_path ops w)).
Proof.
  revert w. induction ops as [|o ops IH]; intros w; [done|].
  change (run_path (o :: ops) w) with (run_path ops (run_path_op o w).2).
  transitivity (inner (run_path_op o w).2); [apply path_op_keeps|apply IH].
Qed.

(** The relay's redaction knows the credential the upgrade carried. *)
Lemma proxy_websocket_request_ok route context h i w r session w' :
  proxy_websocket_request env net service route context h i w = (Ok (r, session), w') ->
  exists profile values lease v prepared,
    bt_get (profiles state) (route_profile route) = Some profile
    /\ acquire_owned_proxy_secrets env state (route_profile route) profile
         (context_subject context) (inner w) = (Ok (values, lease), v)
    /\ prepare_websocket_credentials route values = Ok prepared
    /\ websocket route = Some (wss_policy session)
    /\ wss_redaction session = redaction prepared /\ wss_lease session = lease
    /\ wss_token_hash session = h /\ wss_session_id session = i
    /\ wss_profile session = route_profile route.
Proof.
  unfold proxy_websocket_request. intros H.
  apply io_bind_ok in H as (policy & w1 & Hpol & H). apply io_ensure_ok in Hpol as [Hpol ->].
  apply io_bind_ok in H as (u1 & w2 & Hu & H). apply io_ensure_ok in Hu as [_ ->].
  apply io_bind_ok in H as (u2 & w3 & Hu & H). apply io_ensure_ok in Hu as [_ ->].
  apply io_bind_ok in H as (profile & w4 & Hp & H). apply io_ensure_ok in Hp as [Hp ->].
  apply io_bind_ok in H as ([values lease] & w5 & Ha & H). apply zoom_ok in Ha.
  apply io_bind_ok in H as ([[prepared accept] selected] & w6 & Hg & H).
  apply guarded_ok in Hg. apply io_bind_ok in Hg as (prepared' & w7 & Hprep & Hg).
  apply io_ensure_ok in Hprep as [Hprep ->].
  do 4 (apply io_bind_ok in Hg as (? & ? & _ & Hg)).
  apply io_bind_ok in Hg as ([? ?] & ? & _ & Hg). inv_io. inv_ok.
  by exists profile, values, lease, (inner w5), prepared.
Qed.

Lemma websocket_secret_pattern route (values : BTreeMap bytes) prepared secret :
  prepare_websocket_credentials route values = Ok prepared ->
  bt_get values (injection_key route) = Some secret -> secret <> [] ->
  exists secrets, redaction prepared = redaction_new secrets
    /\ secret ∈ patterns (redaction_new secrets).
Proof.
  unfold prepare_websocket_credentials. intros Hp Hs Hne. inv_ok. subst prepared. simpl.
  eexists. split; [done|]. apply elem_of_patterns. split; [done|]. exists secret.
  split; [|apply elem_of_encodings; set_solver].
  match goal with H : build_proxy_injection _ _ = Ok _ |- _ =>
    apply build_proxy_injection_ok in H as (n & v & s0 & Hm & _ & _ & _ & ->) end.
  apply injection_material_ok in Hm as [(x & Hx & Hin) _].
  change (bt_get values (injection_key route) = Some x) in Hx. set_solver.
Qed.

(** ** Claims *)

(** C13: no message that a WebSocket relay forwards, in either direction, contains the
    route's credential, if that is not empty and the marker [[REDACTED]] cannot complete
    it (it has no bracket and is not part of the marker's word), whatever the two sides
    send and whichever branch the relay takes when: every message forwarded is the redaction of one that arrived, in
    order and to the other side, and together they stay within [max_total_bytes]. *)
Theorem websocket_relay_confined {MW : MessageLaws} route context h i w r session w' events v flow v' :
  proxy_websocket_request env net service route context h i w = (Ok (r, session), w') ->
  relay_websocket_streams env write_completes state session events v = (Ok flow, v') ->
  (0 <= max_total_bytes (wss_policy session) < u64_max)%Z ->
  (exists profile values lease v0,
     bt_get (profiles state) (route_profile route) = Some profile
     /\ acquire_owned_proxy_secrets env state (route_profile route) profile
          (context_subject context) (inner w) = (Ok (values, lease), v0)
     /\ forall secret side m, bt_get values (injection_key route) = Some secret ->
          secret <> [] -> marker_proof secret = true ->
          (side, m) ∈ forwarded (relay_of flow) -> ~ infix_of secret (message_payload m))
  /\ exists accepted, accepted `prefix_of` arrivals events
      /\ Forall2 (relayed session) accepted (forwarded (relay_of flow))
      /\ (total_length accepted <= max_total_bytes (wss_policy session))%Z.
Proof.
  intros Hup Hrel Hmax. apply proxy_websocket_request_ok in Hup as
    (profile & values & lease & v0 & prepared & Hp & Ha & Hprep & Hpol & Hred & _).
  apply relay_streams_forwards in Hrel as (accepted & outs & Hpre & Hout & H2 & Hb); [|done..].
  split.
  - exists profile, values, lease, v0. split_and!; [done..|]. intros secret side m Hsec Hne Hmp Hin.
    rewrite Hout in Hin. apply list_elem_of_lookup in Hin as [k Hk].
    destruct (Forall2_lookup_r _ _ _ _ _ H2 Hk) as (m0 & _ & _ & Hm). simpl in Hm.
    destruct (websocket_secret_pattern _ _ _ _ Hprep Hsec Hne) as (secrets & Hr & Hpat).
    rewrite Hred, Hr in Hm. apply redact_message_payload in Hm as [Hm|[raw Hm]].
    + rewrite Hm. intros (a & b & Hab). by destruct a, secret.
    + destruct (redact_bytes_absent _ raw secret Hpat Hmp) as (o & Ho & Hno). congruence.
  - exists accepted. rewrite Hout. done.
Qed.

(** The relay goes on past a session check, and renews its lease, only while
    the store holds the session it was opened with: live, unrevoked, under the
    same identifier and profile, and the profile still granted to its subject. *)
Theorem relay_requires_live_session session event relay v relay' v' :
  event = SessionCheck \/ (event = RenewalDue /\ relay_lease relay <> None) ->
  relay_step env write_completes state session event relay v = (Ok (Going relay'), v') ->
  exists ps, live_at v (wss_token_hash session) ps /\ ps_session_id ps = wss_session_id session
    /\ ps_profile ps = wss_profile session
    /\ granted v (ps_subject ps) (wss_profile session) Proxy.
Proof.
  intros [->|[-> Hl]] H; cbn [relay_step] in H;
    apply io_bind_ok in H as (x & v1 & Hx & H); inv_io; apply attempt_ok in Hx.
  - destruct x as [u|]; [|done]. by eapply session_check_ok.
  - destruct x as [o|]; [|done]. unfold renew_lease in Hx.
    destruct (relay_lease relay) as [owner|]; [|done].
    apply io_bind_ok in Hx as (u & v2 & Hc & _). by eapply session_check_ok.
Qed.

(** No registered lease is lost along the request path: through any sequence of
    proxied and tunnelled requests, polls of streamed bodies, abandoned responses
    and WebSocket relays, and whatever the upstreams, the clock, the store and
    the backends answer, a lease stays registered, or its backend has confirmed
    its revocation, or it has expired. *)
Theorem request_path_conserves_leases ops w h item :
  leases (inner w) !! h = Some item -> fate env state (inner w) h item (inner (run_path ops w)).
Proof.
  revert w item. induction ops as [|o ops IH]; intros w item Hh;
    [eapply Kept; [done|constructor]|].
  change (run_path (o :: ops) w) with (run_path ops (run_path_op o w).2).
  apply (fate_mono env state h item (inner w) (inner (run_path_op o w).2));
    [|apply path_op_keeps|apply run_path_later|].
  - intros i. by apply IH.
  - by apply path_op_keeps.
Qed.
End Path.

(** ** Witnesses *)

Module RelayModels.
Import Models AuthModels ConnectorModels LeaseModels SessionModels ProxyModels.

#[export] Instance lengths : MessageLib := fun m => len (message_payload m).
#[export] Instance lengths_laws : MessageLaws.
Proof. intros m. unfold message_len, lengths, len. lia. Qed.

Definition ws_network : Network := {|
  rate_permits _ := true;
  upstream_send _ _ := Some {| us_status := 101; us_content_length := None;
    us_headers := [(&"connection", &"upgrade"); (&"upgrade", &"websocket");
                   (&"sec-websocket-accept", &"dGhlIHNhbXBsZSBub25jZQ==-accept");
                   (&"sec-websocket-protocol", &"chat")];
    us_chunks := []; us_upgrade := true |};
  lookup_host _ _ := None; tcp_connect _ _ := false; set_nodelay _ := false |}.
Definition ws_context : ProxyRequestContext := {|
  context_subject := &"agent:bot"; context_validated := {| normalized_path := &"/health"; query := [] |};
  context_method := &"GET"; context_headers := sample_handshake |}.
Definition upgraded := proxy_websocket_request (outside_world 200) ws_network proxying
  (api_route Buffered) ws_context (sha256_digest &"abc") &"s1" (proxy_world session_tables).

Definition ws_session : WebSocketSessionContext := {|
  wss_token_hash := sha256_digest &"abc"; wss_session_id := &"s1"; wss_profile := &"deploy";
  wss_policy := Sample.ws; wss_redaction := redaction_new [&"u1"; &"Bearer u1"];
  wss_lease := Some {| owner_handle := &"av_lease_" ++ base64_url_safe_no_pad (repeat "r"%char 32);
    owner_subject := &"agent:bot"; owner_expires_at := from_secs 3700 |} |}.
Definition ws_response : Response := {|
  response_status := 101;
  response_headers := [(&"connection", &"Upgrade"); (&"upgrade", &"websocket");
    (&"sec-websocket-accept", &"dGhlIHNhbXBsZSBub25jZQ==-accept");
    (&"sec-websocket-protocol", &"chat")];
  response_body := Full [] |}.
Lemma upgraded_ok : upgraded.1 = Ok (ws_response, ws_session).
Proof. vm_compute. reflexivity. Qed.

(** The upstream reveals the credential and the session is checked, before the
    lifetime ends. *)
Definition events : list RelayEvent :=
  [SessionCheck; Arrives Client (Received (TextMessage &"hi"));
   Arrives Upstream (Received (BinaryMessage &"key=u1")); RenewalDue; DeadlineReached].
Definition ran := relay_websocket_streams (outside_world 200) (fun _ => true) (app_state proxying)
  ws_session events (inner upgraded.2).
Definition relayed_flow : Flow :=
  Ended (Err "WebSocket lifetime limit reached") {|
    total_bytes := 8; relay_lease := wss_lease ws_session;
    forwarded := [(Upstream, TextMessage &"hi"); (Client, BinaryMessage &"key=[REDACTED]")] |}.
Lemma ran_ok : ran.1 = Ok relayed_flow.
Proof. vm_compute. reflexivity. Qed.

Lemma answered_inner {A} (run : A * Connector.world ServerData) a : run.1 = a -> run = (a, run.2).
Proof. by destruct run; simpl; intros ->. Qed.

Lemma websocket_relay_confined_witness :
  exists accepted, accepted `prefix_of` arrivals events
    /\ Forall2 (relayed ws_session) accepted
         [(Upstream, TextMessage &"hi"); (Client, BinaryMessage &"key=[REDACTED]")]
    /\ (total_length accepted <= max_total_bytes Sample.ws)%Z.
Proof.
  apply (websocket_relay_confined (outside_world 200) ws_network (fun _ => true) proxying
    (api_route Buffered) ws_context (sha256_digest &"abc") &"s1" (proxy_world session_tables)
    ws_response ws_session upgraded.2 events (inner upgraded.2) relayed_flow ran.2).
  - exact (answered _ _ upgraded_ok).
  - exact (answered_inner _ _ ran_ok).
  - vm_compute. split; [discriminate|reflexivity].
Defined.

Definition resting : Relay := {| total_bytes := 0; relay_lease := None; forwarded := [] |}.
Definition checked := relay_step (outside_world 200) (fun _ => true) (app_state proxying) ws_session
  SessionCheck resting (inner (proxy_world session_tables)).
Lemma checked_ok : checked.1 = Ok (Going resting).
Proof. vm_compute. reflexivity. Qed.

Lemma relay_requires_live_session_witness :
  exists ps, live_at (inner (proxy_world session_tables)) (sha256_digest &"abc") ps
    /\ ps_session_id ps = &"s1".
Proof.
  destruct (relay_requires_live_session (outside_world 200) (fun _ => true) proxying ws_session
    SessionCheck resting (inner (proxy_world session_tables)) resting checked.2)
    as (ps & Hlive & Hi & _).
  - left. reflexivity.
  - exact (answered_inner _ _ checked_ok).
  - exists ps. split; [exact Hlive|exact Hi].
Defined.

Definition holding_px : Connector.world ProxyData := outer (holding []) [].
Definition path : list path_op :=
  [Proxied &"items" &"/health" None &"GET" as_agent []; RelayRun ws_session events].
Lemma request_path_conserves_leases_witness :
  fate (outside_world 200) (app_state proxying) (inner holding_px) handle item
    (inner (run_path (outside_world 200) network (fun _ => true) proxying path holding_px)).
Proof.
  apply (request_path_conserves_leases (outside_world 200) network (fun _ => true) proxying path
    holding_px handle item). reflexivity.
Defined.
End RelayModels.
