(* ===== verification/Interleave.v ===== *)
(** Interleave: the handlers, requests and relays of src/server.rs that hold dynamic
    leases, as tasks that run side by side and may be dropped.

    A handler gives way to others wherever it awaits.  Between two awaits it takes
    the registry's lock at most once, so it is a sequence of stages that are atomic
    for the registry; a call to a backend, the store, the clock or an upstream is one
    stage, with what it does inside left to Connector.v, Store.v and Proxy.v.  A stage
    records the lease whose owner is alive while the task waits: when the client goes
    away the server drops the task, and with it the owner, which then spawns the
    revocation.  A schedule starts tasks, advances them by a stage in any order, and
    drops them.  [alone] runs a task without interruptions, which is the handler of
    Leases.v, Proxy.v or Relay.v. *)

From Stdlib Require Import Ascii String.
From stdpp Require Import base list strings gmap.
From S2P Require Import Prelude Str BTree External Models Redaction Database Store Auth Policy Request Injection WebSocket Connector Config Leases LeaseProps Control Sessions Proxy Relay.

Section Interleave.
Context {HL : HeaderLib} {UL : UrlLib} {EL : EncodingLib} {JL : JwtLib} {PL : PasswordLib}
  {BL : BackendLib} {WL : WebSocketLib} {ML : MessageLib}.
Context (env : Outside) (net : Network) (service : Service) (write_completes : nat -> bool).
#[local] Abbreviation IO := (io ServerData).
#[local] Abbreviation PX := (io ProxyData).
#[local] Abbreviation W := (world ProxyData).
#[local] Abbreviation state := (app_state service).

(** What a task starts with [tokio::spawn] *)
Inductive spawned := Cleanup (owner : DynamicLeaseOwner) | RelaySession (session : WebSocketSessionContext).

(** [held] is the lease owner that is dropped with the task at this await. *)
Inductive task (A : Type) : Type :=
| Finished (r : result A)
| Stage {B : Type} (held : option DynamicLeaseOwner) (m : PX B) (k : result B -> task A)
| Spawn (s : spawned) (k : task A).
Arguments Finished {A} r.
Arguments Stage {A B} held m k.
Arguments Spawn {A} s k.

Definition await {A} (m : PX A) : task A := Stage None m Finished.
Definition stage {A} (m : IO A) : task A := await (zoom m).
(** An await that changes nothing *)
Definition pause : task unit := await (mret ()).
#[global] Instance task_ret : MRet task := fun A a => Finished (Ok a).
#[global] Instance task_bind : MBind task := fun A B f =>
  fix bind t := match t with
                | Finished (Ok a) => f a
                | Finished (Err e) => Finished (Err e)
                | Stage held m k => Stage held m (fun r => bind (k r))
                | Spawn s k => Spawn s (bind k)
                end.
(** The result as a value *)
Fixpoint caught {A} (t : task A) : task (result A) :=
  match t with
  | Finished r => Finished (Ok r)
  | Stage held m k => Stage held m (fun r => caught (k r))
  | Spawn s k => Spawn s (caught k)
  end.
(** With the owner of a lease alive all along *)
Fixpoint owning {A} (lease : option DynamicLeaseOwner) (t : task A) : task A :=
  match t with
  | Finished r => Finished r
  | Stage _ m k => Stage lease m (fun r => owning lease (k r))
  | Spawn s k => Spawn s (owning lease k)
  end.
Definition spawn (s : spawned) : task unit := Spawn s (mret ()).
Definition or_answer {A B} (t : task A) (e : B) (k : A -> task B) : task B :=
  r ← caught t;
  match r with Ok a => k a | Err _ => mret e end.

Definition context_task {A} (t : task A) (msg : string) : task A :=
  r ← caught t; Finished (with_context r msg).

Fixpoint alone {A} (t : task A) : PX A :=
  match t with
  | Finished r => ensure r
  | Stage _ m k => fun w => let '(r, w) := m w in alone (k r) w
  | Spawn (Cleanup owner) k => _ ← zoom (owner_drop env state owner); alone k
  | Spawn (RelaySession _) k => alone k
  end.

(** ** The lease handlers *)

Definition revoke_or_restore_task (revocation : IO unit) (handle : bytes) (item : ActiveDynamicLease)
    : task (result unit) :=
  revoked ← stage (attempt revocation);
  match revoked with
  | Ok _ => mret (Ok ())
  | Err e => _ ← stage (restore handle item); mret (Err e)
  end.

Definition register_lease_task (subject profile_name : bytes) (profile : ProfileConfig)
    (l : BackendLease) (invalid full : string) : task (bytes * Z) :=
  let item := {| lease_subject := subject; lease_profile := profile_name;
                 lease_connector := profile_connector profile; backend_lease := l |} in
  match dynamic_lease_expiry l with
  | Err _ => _ ← stage (attempt (revoke_dynamic_lease env state item)); Finished (Err invalid)
  | Ok expires =>
      inserted ← stage (registry_insert env item);
      match inserted with
      | inl handle => mret (handle, expires)
      | inr item => _ ← stage (attempt (revoke_dynamic_lease env state item)); Finished (Err full)
      end
  end.

Definition get_profile_environment_task (headers : HeaderMap) (profile_name executable : bytes)
    : task ProfileEnvironment :=
  identity ← stage (authorize_connect env state headers);
  profile ← Finished (ok_or (bt_get (profiles state) profile_name) "not_found: profile not found");
  permitted ← stage (context_of (profile_permitted state (subject identity) profile_name Environment)
                       "internal: managed store unavailable");
  _ ← Finished (bail_if (negb permitted) "permission_denied: profile access is not granted");
  _ ← Finished (bail_if (negb (valid_executable_basename executable))
        "invalid_argument: executable_basename must be a basename without control characters");
  acquisition ← stage (context_of (acquire_secrets env state profile)
                         "internal: profile environment unavailable");
  '(lease_id, expires) ←
    match lease acquisition with
    | Some l => register_lease_task (subject identity) profile_name profile l
                  "internal: profile environment unavailable"
                  "resource_exhausted: active dynamic lease limit reached"
    | None => mret ([], 0%Z)
    end;
  audited ← stage (attempt (audit_event state (subject identity) &"profile_lease" (Some profile_name)
                              None (Some executable)));
  match audited with
  | Err _ =>
      _ ← (if is_empty lease_id then mret () else
           item ← stage (take_for_subject env lease_id (subject identity));
           match item with
           | Some item => _ ← stage (attempt (revoke_dynamic_lease env state item)); mret ()
           | None => mret ()
           end);
      Finished (Err "internal: audit persistence unavailable")
  | Ok _ =>
      mret {| env_values := values acquisition; env_lease_id := lease_id;
              env_expires_unix_seconds := expires |}
  end.

Definition renew_profile_environment_lease_task (headers : HeaderMap) (handle : bytes)
    : task ProfileEnvironmentLease :=
  identity ← stage (authorize_connect env state headers);
  _ ← Finished (validate_dynamic_lease_handle handle);
  item ← stage (take_for_subject env handle (subject identity));
  item ← Finished (ok_or item "not_found: active dynamic lease not found");
  permitted ← stage (context_of (profile_permitted state (subject identity) (lease_profile item) Environment)
                       "internal: managed store unavailable");
  if negb permitted then
    _ ← stage (attempt (revoke_dynamic_lease env state item));
    Finished (Err "permission_denied: profile access is not granted")
  else
  match bt_get (connectors state) (lease_connector item) with
  | None =>
      _ ← stage (restore handle item);
      Finished (Err "internal: profile connector unavailable")
  | Some connector =>
      if negb (lease_renewable (backend_lease item)) then
        _ ← stage (attempt (connector_revoke env connector (backend_lease item)));
        Finished (Err "failed_precondition: dynamic lease is not renewable")
      else
      '(renewed, l) ← stage (connector_renew env connector (backend_lease item));
      let item := with_lease item l in
      match renewed with
      | Err _ =>
          _ ← revoke_or_restore_task (connector_revoke env connector (backend_lease item)) handle item;
          Finished (Err "internal: dynamic lease renewal failed")
      | Ok _ =>
          match dynamic_lease_expiry l with
          | Err _ =>
              _ ← revoke_or_restore_task (revoke_dynamic_lease env state item) handle item;
              Finished (Err "internal: dynamic lease expiry is invalid")
          | Ok expires =>
              audited ← stage (attempt (audit_event state (subject identity) &"profile_lease_renewed"
                                          (Some (lease_profile item)) None None));
              match audited with
              | Err _ =>
                  _ ← stage (attempt (revoke_dynamic_lease env state item));
                  Finished (Err "internal: audit persistence unavailable")
              | Ok _ =>
                  restored ← stage (restore handle item);
                  if (restored : bool) then
                    mret {| pel_lease_id := handle; pel_expires_unix_seconds := expires;
                            pel_revoked := false |}
                  else
                    _ ← stage (attempt (revoke_dynamic_lease env state item));
                    Finished (Err "internal: dynamic lease registry unavailable")
              end
          end
      end
  end.

Definition revoke_profile_environment_lease_task (headers : HeaderMap) (handle : bytes)
    : task ProfileEnvironmentLease :=
  identity ← stage (authorize_connect env state headers);
  _ ← Finished (validate_dynamic_lease_handle handle);
  item ← stage (take_for_subject env handle (subject identity));
  item ← Finished (ok_or item "not_found: active dynamic lease not found");
  revoked ← revoke_or_restore_task (revoke_dynamic_lease env state item) handle item;
  match revoked with
  | Err _ => Finished (Err "internal: dynamic lease revocation failed")
  | Ok _ =>
      _ ← stage (context_of (audit_event state (subject identity) &"profile_lease_revoked"
                               (Some (lease_profile item)) None None)
                   "internal: audit persistence unavailable");
      mret {| pel_lease_id := handle; pel_expires_unix_seconds := 0; pel_revoked := true |}
  end.

Definition acquire_owned_proxy_secrets_task (profile_name : bytes) (profile : ProfileConfig)
    (subject : bytes) : task (BTreeMap bytes * option DynamicLeaseOwner) :=
  acquisition ← stage (acquire_secrets env state profile);
  match lease acquisition with
  | None => mret (values acquisition, None)
  | Some l =>
      '(handle, _) ← register_lease_task subject profile_name profile l
        "dynamic proxy lease expiry is invalid" "active dynamic lease limit reached";
      mret (values acquisition,
            Some {| owner_handle := handle; owner_subject := subject;
                    owner_expires_at := expires_at l |})
  end.

Definition fetch_secrets_task (profile : ProfileConfig) : task (BTreeMap bytes) :=
  acquisition ← stage (acquire_secrets env state profile);
  connector ← Finished (ok_or (bt_get (connectors state) (profile_connector profile))
                          "profile connector disappeared");
  match lease acquisition with
  | Some l =>
      _ ← stage (attempt (connector_revoke env connector l));
      Finished (Err "dynamic lease delivery is not available through this path yet")
  | None => mret (values acquisition)
  end.

Definition renew_registered_dynamic_lease_task (handle subject : bytes) : task Z :=
  item ← stage (take_for_subject env handle subject);
  item ← Finished (ok_or item "active dynamic lease not found");
  match bt_get (connectors state) (lease_connector item) with
  | None =>
      _ ← stage (restore handle item);
      Finished (Err "dynamic lease connector disappeared")
  | Some connector =>
      if negb (lease_renewable (backend_lease item)) then
        revoked ← revoke_or_restore_task (connector_revoke env connector (backend_lease item)) handle item;
        Finished (Err (if is_ok revoked then "dynamic lease is not renewable"
                       else "revoke non-renewable dynamic lease"))
      else
      '(renewed, l) ← stage (connector_renew env connector (backend_lease item));
      let item := with_lease item l in
      match renewed with
      | Err _ =>
          _ ← revoke_or_restore_task (connector_revoke env connector (backend_lease item)) handle item;
          Finished (Err "renew dynamic proxy lease")
      | Ok _ =>
          match dynamic_lease_expiry l with
          | Err _ =>
              _ ← revoke_or_restore_task (revoke_dynamic_lease env state item) handle item;
              Finished (Err "renewed dynamic proxy lease expiry is invalid")
          | Ok _ =>
              restored ← stage (restore handle item);
              if (restored : bool) then mret (expires_at l) else
              _ ← stage (attempt (revoke_dynamic_lease env state item));
              Finished (Err "dynamic lease registry unavailable")
          end
      end
  end.

Definition revoke_registered_dynamic_lease_task (handle subject : bytes) : task unit :=
  item ← stage (take_for_subject env handle subject);
  match item with
  | None => mret ()
  | Some item =>
      revoked ← revoke_or_restore_task (revoke_dynamic_lease env state item) handle item;
      Finished revoked
  end.
Definition owner_drop_task (o : DynamicLeaseOwner) : task unit :=
  if is_empty (owner_handle o) then mret () else
  _ ← caught (revoke_registered_dynamic_lease_task (owner_handle o) (owner_subject o)); mret ().


(** ** Requests *)

Definition drop_lease_task (lease : option DynamicLeaseOwner) : task unit :=
  match lease with Some owner => spawn (Cleanup owner) | None => mret () end.
(** The handle leaves the owner before the first await. *)
Definition owner_revoke_task (o : DynamicLeaseOwner) : task unit :=
  revoked ← caught (revoke_registered_dynamic_lease_task (owner_handle o) (owner_subject o));
  match revoked with
  | Ok _ => mret ()
  | Err e => _ ← spawn (Cleanup o); Finished (Err e)
  end.
Definition revoke_lease_task (lease : option DynamicLeaseOwner) : task unit :=
  match lease with Some owner => owner_revoke_task owner | None => mret () end.
Definition guarded_task {A} (lease : option DynamicLeaseOwner) (t : task A) : task A :=
  r ← owning lease (caught t);
  match r with
  | Ok a => mret a
  | Err e => _ ← drop_lease_task lease; Finished (Err e)
  end.

Fixpoint read_buffered_task (maximum : Z) (acc : bytes) (chunks : list (option bytes)) : task bytes :=
  _ ← pause;
  match chunks with
  | [] => mret acc
  | None :: _ => Finished (Err "error reading a body from connection")
  | Some chunk :: chunks =>
      if (maximum <? saturating_add (len acc) (len chunk))%Z
      then Finished (Err "upstream response is too large")
      else read_buffered_task maximum (acc ++ chunk) chunks
  end.

Definition proxy_request_task (route : ProxyRouteConfig) (request : ProxyRequestContext) (body : bytes)
    : task Response :=
  profile ← Finished (ok_or (bt_get (profiles state) (route_profile route))
                        "proxy profile disappeared");
  '(values, lease) ← acquire_owned_proxy_secrets_task (route_profile route) profile
                       (context_subject request);
  '(prepared, upstream, headers) ← guarded_task lease (
    prepared ← Finished (prepare_credentials route values body);
    target ← Finished (build_target_url route (context_validated request));
    outbound_headers ← Finished (prepare_outbound_headers route (context_headers request) prepared);
    upstream ← await (send_upstream net {| ur_method := context_method request; ur_target := target;
                                ur_headers := outbound_headers; ur_body := Injection.body prepared |});
    _ ← Finished (bail_if (match us_content_length upstream with
                         | Some length => (max_response_bytes route <? length)%Z
                         | None => false end) "upstream response is too large");
    headers ← Finished (copy_response_headers (redaction prepared) (us_headers upstream)
                        (allowed_response_headers route));
    mret (prepared, upstream, headers));
  match response_mode route with
  | Buffered =>
      bytes ← guarded_task lease (
        bytes ← read_buffered_task (max_response_bytes route) [] (us_chunks upstream);
        Finished (ok_or (redact_bytes (redaction prepared) bytes) "redaction did not finish"));
      _ ← context_task (revoke_lease_task lease) "revoke dynamic buffered proxy lease";
      mret {| response_status := us_status upstream; response_headers := headers;
              response_body := Full bytes |}
  | Streaming =>
      mret {| response_status := us_status upstream; response_headers := headers;
              response_body := Streamed {|
                bs_chunks := us_chunks upstream; bs_redactor := into_streaming (redaction prepared);
                bs_total := 0; bs_maximum := max_response_bytes route; bs_finished := false;
                bs_lease := lease |} |}
  end.

Fixpoint read_stream_task (maximum : Z) (redactor : StreamingRedactor) (total : Z)
    (lease : option DynamicLeaseOwner) (chunks : list (option bytes))
    : task (option (bytes * BodyStream)) :=
  _ ← owning lease pause;
  match chunks with
  | None :: _ => _ ← drop_lease_task lease; Finished (Err "error reading a body from connection")
  | Some chunk :: chunks =>
      let total := saturating_add total (len chunk) in
      if (maximum <? total)%Z
      then _ ← drop_lease_task lease; Finished (Err "upstream streaming response is too large")
      else
        '(output, redactor) ← Finished (ok_or (push redactor chunk) "redaction did not finish");
        if is_empty output then read_stream_task maximum redactor total lease chunks
        else mret (Some (output, {| bs_chunks := chunks; bs_redactor := redactor;
               bs_total := total; bs_maximum := maximum; bs_finished := false; bs_lease := lease |}))
  | [] =>
      '(output, redactor) ← Finished (ok_or (finish redactor) "redaction did not finish");
      _ ← revoke_lease_task lease;
      if is_empty output then mret None
      else mret (Some (output, {| bs_chunks := []; bs_redactor := redactor; bs_total := total;
             bs_maximum := maximum; bs_finished := true; bs_lease := None |}))
  end.
Definition stream_next_task (s : BodyStream) : task (option (bytes * BodyStream)) :=
  if bs_finished s then mret None
  else read_stream_task (bs_maximum s) (bs_redactor s) (bs_total s) (bs_lease s) (bs_chunks s).
(** The server polls a body for as long as the client reads on, and waits for the
    client in between; a client that has read [polls] times goes away. *)
Fixpoint serve_body_task (polls : nat) (s : BodyStream) : task unit :=
  match polls with
  | 0 => drop_lease_task (bs_lease s)
  | S polls =>
      _ ← owning (bs_lease s) pause;
      next ← stream_next_task s;
      match next with None => mret () | Some (_, s) => serve_body_task polls s end
  end.
Definition serve_response_task (polls : nat) (r : Response) : task unit :=
  match response_body r with Streamed s => serve_body_task polls s | Full _ => mret () end.

(** The relay takes the lease's owner along. *)
Definition proxy_websocket_request_task (route : ProxyRouteConfig) (request : ProxyRequestContext)
    (token_hash session_id : bytes) : task (Response * WebSocketSessionContext) :=
  policy ← Finished (ok_or (websocket route) "WebSockets are not enabled for this route");
  _ ← Finished (bail_if (negb (bool_decide (context_method request = &"GET")))
        "WebSocket upgrade requires GET");
  _ ← Finished (validate_websocket_handshake (context_headers request) policy);
  profile ← Finished (ok_or (bt_get (profiles state) (route_profile route))
                      "proxy profile disappeared");
  '(values, lease) ← acquire_owned_proxy_secrets_task (route_profile route) profile
                       (context_subject request);
  '(prepared, accept, selected) ← guarded_task lease (
    prepared ← Finished (prepare_websocket_credentials route values);
    target ← Finished (build_target_url route (context_validated request));
    outbound_headers ← Finished (prepare_outbound_headers route (context_headers request) prepared);
    outbound_headers ← Finished (handshake_headers (context_headers request) outbound_headers);
    upstream ← await (send_upstream net {| ur_method := context_method request; ur_target := target;
                                ur_headers := outbound_headers; ur_body := [] |});
    '(accept, selected) ← Finished (check_upgrade (context_headers request) policy upstream);
    mret (prepared, accept, selected));
  let session := {| wss_token_hash := token_hash; wss_session_id := session_id;
    wss_profile := route_profile route; wss_policy := policy;
    wss_redaction := redaction prepared; wss_lease := lease |} in
  _ ← spawn (RelaySession session);
  mret ({| response_status := status_switching_protocols;
           response_headers := [(&"connection", &"Upgrade"); (&"upgrade", &"websocket");
                                (&"sec-websocket-accept", accept)]
             ++ match selected with Some p => [(&"sec-websocket-protocol", p)] | None => [] end;
           response_body := Full [] |}, session).

Definition proxy_task (route_name path : bytes) (uri_query : option bytes) (method : bytes)
    (headers : HeaderMap) (body : bytes) : task Response :=
  or_answer (stage (authorize_connect env state headers)) unauthorized (fun identity =>
  match bt_get (cfg_proxy_routes (service_config service)) route_name with
  | None => mret (plain 404 (line &"proxy route not found"))
  | Some route =>
  if is_websocket_attempt headers
  then mret (plain status_forbidden (line &"WebSockets require a transparent proxy session")) else
  or_answer (stage (profile_permitted state (subject identity) (route_profile route) Proxy))
    internal_error (fun permitted : bool =>
  if negb permitted then mret forbidden else
  if negb (is_trusted_browser_origin headers (cfg_public_url (service_config service)))
  then mret forbidden else
  if (max_body_bytes route <? len body)%Z
  then mret (plain status_too_large (line &"proxy request is too large")) else
  match validate_proxy_request route path uri_query method headers (len body) with
  | Err _ => mret forbidden
  | Ok validated =>
  or_answer (stage (audit_event state (subject identity) &"proxy_request_started"
                      (Some (route_profile route)) (Some route_name) None)) internal_error (fun _ =>
  or_answer (proxy_request_task route {| context_subject := subject identity;
               context_validated := validated; context_method := method;
               context_headers := headers |} body)
    (plain status_bad_gateway (line &"proxy request failed")) (fun response => mret (no_store response)))
  end)
  end).

Definition body_lease (r : Response) : option DynamicLeaseOwner :=
  match response_body r with Streamed s => bs_lease s | Full _ => None end.

Definition transparent_tunnel_response_task (request : TunnelRequest)
    (route_name token_hash session_id : bytes)
    : task (Response * option WebSocketSessionContext) :=
  let reject code message := (transparent_full_response code message, None) in
  let auth_required := reject status_proxy_auth_required (line &"proxy authentication required") in
  let unavailable := reject status_unavailable (line &"proxy unavailable") in
  let denied := reject status_forbidden (line &"proxy request forbidden") in
  permit ← await (outside (rate_permits net));
  if negb permit
  then mret (reject status_too_many_requests (line &"proxy rate limit exceeded")) else
  if negb (managed (auth state)) then mret auth_required else
  or_answer (stage (with_store (active_proxy_session token_hash))) unavailable (fun session =>
  match session with
  | None => mret auth_required
  | Some session =>
  match bt_get (cfg_proxy_routes (service_config service)) route_name with
  | None => mret denied
  | Some route =>
  if negb (bool_decide (ps_session_id session = session_id))
     || negb (bool_decide (ps_profile session = route_profile route))
  then mret denied else
  or_answer (stage (profile_permitted state (ps_subject session) (ps_profile session) Proxy))
    unavailable (fun permitted : bool =>
  if negb permitted then mret denied else
  let websocket_attempt := is_websocket_attempt (tr_headers request) in
  if websocket_attempt && match websocket route with
     | None => true
     | Some policy => negb (is_ok (validate_websocket_handshake (tr_headers request) policy))
     end
  then mret denied else
  match enforce_transparent_tunnel_target route (tr_uri request) (tr_headers request) with
  | Err _ => mret denied
  | Ok _ =>
  _ ← pause;
  match collect_transparent_body (max_body_bytes route) [] (tr_frames request) with
  | Err _ => mret (reject status_too_large (line &"proxy request is too large"))
  | Ok body =>
  if websocket_attempt && negb (is_empty body)
  then mret (reject status_forbidden (line &"WebSocket upgrade body is forbidden")) else
  match validate_proxy_request route (uri_path (tr_uri request)) (uri_query (tr_uri request))
          (tr_method request) (tr_headers request) (len body) with
  | Err _ => mret denied
  | Ok validated =>
  let context := {| context_subject := ps_subject session; context_validated := validated;
                    context_method := tr_method request; context_headers := tr_headers request |} in
  or_answer (if websocket_attempt
             then '(response, relay) ← proxy_websocket_request_task route context token_hash
                                         (ps_session_id session);
                  mret (response, Some relay)
             else response ← proxy_request_task route context body; mret (response, None))
    (reject status_bad_gateway (line &"proxy request failed")) (fun '(response, relay) =>
  audited ← owning (body_lease response)
              (caught (stage (audit_event state (ps_subject session) &"transparent_proxy_request"
                                (Some (ps_profile session)) (Some route_name) None)));
  match audited with
  | Err _ =>
      _ ← drop_lease_task (body_lease response);
      mret (transparent_full_response status_unavailable (line &"proxy unavailable"), relay)
  | Ok _ => mret (response, relay)
  end)
  end
  end
  end)
  end
  end).

(** ** The relay *)

Definition websocket_session_is_active_task (token_hash session_id profile : bytes) : task bool :=
  _ ← Finished (bail_if (negb (managed (auth state))) "managed proxy sessions are required");
  session ← stage (with_store (active_proxy_session token_hash));
  match session with
  | None => mret false
  | Some session =>
      if negb (bool_decide (ps_session_id session = session_id))
         || negb (bool_decide (ps_profile session = profile))
      then mret false
      else stage (profile_permitted state (ps_subject session) profile Proxy)
  end.
Definition session_check_task (session : WebSocketSessionContext) : task unit :=
  active ← websocket_session_is_active_task (wss_token_hash session) (wss_session_id session)
             (wss_profile session);
  Finished (bail_if (negb active) "WebSocket session was revoked, expired, or lost its grant").

Definition owner_renew_task (o : DynamicLeaseOwner) : task DynamicLeaseOwner :=
  expires ← renew_registered_dynamic_lease_task (owner_handle o) (owner_subject o);
  mret {| owner_handle := owner_handle o; owner_subject := owner_subject o;
          owner_expires_at := expires |}.
Definition renew_lease_task (session : WebSocketSessionContext) (r : Relay) : task (option DynamicLeaseOwner) :=
  match relay_lease r with
  | None => mret None
  | Some owner =>
      _ ← session_check_task session;
      renewed ← owner_renew_task owner;
      _ ← stage (dynamic_proxy_renewal_delay env (owner_expires_at renewed));
      mret (Some renewed)
  end.

Definition relay_step_task (session : WebSocketSessionContext) (event : RelayEvent) (r : Relay) : task Flow :=
  match event with
  | DeadlineReached => mret (Ended (Err "WebSocket lifetime limit reached") r)
  | RenewalDue =>
      renewed ← caught (renew_lease_task session r);
      mret (match renewed with
            | Err e => Ended (Err e) r
            | Ok None => Going r
            | Ok (Some owner) => Going {| total_bytes := total_bytes r; relay_lease := Some owner;
                                          forwarded := forwarded r |}
            end)
  | SessionCheck =>
      checked ← caught (session_check_task session);
      mret (match checked with Err e => Ended (Err e) r | Ok _ => Going r end)
  | Arrives from Closed => mret (Ended (Ok ()) r)
  | Arrives from ReadError => mret (Ended (Err "read WebSocket message") r)
  | Arrives from (Received message) => stage (forward write_completes session from message r)
  end.

(** [select!] waits for the next event. *)
Fixpoint relay_loop_task (session : WebSocketSessionContext) (events : list RelayEvent) (r : Relay) : task Flow :=
  match events with
  | [] => mret (Going r)
  | event :: events =>
      flow ← owning (relay_lease r) (_ ← pause; relay_step_task session event r);
      match flow with
      | Going r => relay_loop_task session events r
      | Ended _ _ => mret flow
      end
  end.

Definition relay_websocket_streams_task (session : WebSocketSessionContext) (events : list RelayEvent) : task Flow :=
  let start := {| total_bytes := 0; relay_lease := wss_lease session; forwarded := [] |} in
  ready ← owning (wss_lease session) (caught
    match wss_lease session with
    | Some owner => stage (dynamic_proxy_renewal_delay env (owner_expires_at owner))
    | None => mret (from_secs (u64_saturating_add (max_duration_seconds (wss_policy session)) 1))
    end);
  match ready with
  | Err e => _ ← drop_lease_task (wss_lease session); mret (Ended (Err e) start)
  | Ok _ =>
      flow ← relay_loop_task session events start;
      match flow with
      | Going r => mret (Going r)
      | Ended result r =>
          revoke ← caught (revoke_lease_task (relay_lease r));
          mret (Ended (match result, revoke with
                       | Ok _, Ok _ => Ok ()
                       | Err e, _ => Err e
                       | Ok _, Err _ => Err "revoke dynamic WebSocket lease"
                       end) r)
      end
  end.

(** ** Schedules *)

Definition lease_task (o : lease_op) : task unit :=
  match o with
  | GetEnvironment headers p e => _ ← get_profile_environment_task headers p e; mret ()
  | RenewEnvironment headers h => _ ← renew_profile_environment_lease_task headers h; mret ()
  | RevokeEnvironment headers h => _ ← revoke_profile_environment_lease_task headers h; mret ()
  | AcquireOwned name p s => _ ← acquire_owned_proxy_secrets_task name p s; mret ()
  | FetchSecrets p => _ ← fetch_secrets_task p; mret ()
  | RenewOwned h s => _ ← renew_registered_dynamic_lease_task h s; mret ()
  | RevokeOwned h s => revoke_registered_dynamic_lease_task h s
  | DropOwner owner => owner_drop_task owner
  | StoreMoves db => stage (with_store (fun _ => (Ok (), db)))
  end.

(** What the server does: a lease handler or a part of one, a request through a route,
    with the number of times its client reads from a streamed body, or a relay, with
    what happens to it *)
Inductive job :=
| LeaseJob (o : lease_op)
| ProxyJob (route_name path : bytes) (uri_query : option bytes) (method : bytes) (headers : HeaderMap)
    (body : bytes) (polls : nat)
| TunnelJob (request : TunnelRequest) (route_name token_hash session_id : bytes) (polls : nat)
| RelayJob (session : WebSocketSessionContext) (events : list RelayEvent).
Definition job_task (j : job) : task unit :=
  match j with
  | LeaseJob o => lease_task o
  | ProxyJob name path q method headers body polls =>
      response ← proxy_task name path q method headers body; serve_response_task polls response
  | TunnelJob request name h i polls =>
      '(response, _) ← transparent_tunnel_response_task request name h i;
      serve_response_task polls response
  | RelayJob session events => _ ← relay_websocket_streams_task session events; mret ()
  end.

Inductive event := Start (j : job) | Advance (i : nat) | Drop (i : nat).

(** [pool_relays] are the sessions handed to a relay, which a schedule may start. *)
Record pool := {
  pool_world : W; pool_tasks : list (task unit); pool_relays : list WebSocketSessionContext }.

(** A task rests at an await or at its end; what it spawns on the way there is started. *)
Fixpoint settle (t : task unit) : task unit * list spawned :=
  match t with
  | Spawn s k => let '(t, started) := settle k in (t, s :: started)
  | _ => (t, [])
  end.
Definition advance (t : task unit) (w : W) : task unit * W :=
  match t with
  | Stage _ m k => let '(r, w) := m w in (k r, w)
  | _ => (t, w)
  end.
Definition finished (t : task unit) : bool :=
  match t with Finished _ => true | _ => false end.
Definition cleanups (started : list spawned) : list (task unit) :=
  omap (fun s => match s with Cleanup owner => Some (owner_drop_task owner) | RelaySession _ => None end) started.
Definition relays (started : list spawned) : list WebSocketSessionContext :=
  omap (fun s => match s with Cleanup _ => None | RelaySession session => Some session end) started.

(** Task [i] goes on as [t], in the world [w]. *)
Definition rest_at (i : nat) (t : task unit) (w : W) (p : pool) : pool :=
  let '(t, started) := settle t in
  {| pool_world := w;
     pool_tasks := <[i := t]> (pool_tasks p) ++ cleanups started;
     pool_relays := pool_relays p ++ relays started |}.

Definition pool_step (p : pool) (e : event) : pool :=
  match e with
  | Start j =>
      let '(t, started) := settle (job_task j) in
      {| pool_world := pool_world p; pool_tasks := pool_tasks p ++ t :: cleanups started;
         pool_relays := pool_relays p ++ relays started |}
  | Advance i =>
      match pool_tasks p !! i with
      | None => p
      | Some t => let '(t, w) := advance t (pool_world p) in rest_at i t w p
      end
  | Drop i =>
      match pool_tasks p !! i with
      | Some (Stage held _ _) =>
          rest_at i (_ ← drop_lease_task held; Finished (Err "dropped")) (pool_world p) p
      | _ => p
      end
  end.
Definition run_schedule (es : list event) (p : pool) : pool := foldl pool_step p es.
End Interleave.
Arguments Finished {_ _ _ A} r.
Arguments Stage {_ _ _ A B} held m k.
Arguments Spawn {_ _ _ A} s k.
