(* ===== verification/InterleaveFacts.v ===== *)
(** InterleaveFacts: a task on its own is the handler it was made from, and a task that
    gets its turns ends. *)

From Stdlib Require Import Ascii String.
From stdpp Require Import base list strings gmap.
From S2P Require Import Prelude Str BTree External Models Redaction Database Store Auth Policy Request Injection WebSocket Connector ConnectorFacts Config Leases LeaseProps Control Sessions Proxy ProxyFacts Relay Interleave.

(** ** A task on its own *)

Section Alone.
Context {HL : HeaderLib} {UL : UrlLib} {EL : EncodingLib} {JL : JwtLib} {PL : PasswordLib}
  {BL : BackendLib} {WL : WebSocketLib} {ML : MessageLib}.
Context (env : Outside) (net : Network) (service : Service) (write_completes : nat -> bool).
#[local] Abbreviation IO := (io ServerData).
#[local] Abbreviation PX := (io ProxyData).
#[local] Abbreviation W := (Connector.world ProxyData).
#[local] Abbreviation state := (app_state service).
#[local] Abbreviation alone := (alone env service).
Implicit Types w : W.

(** Computations that do the same, whatever they are run in *)
Definition same_run {A} (m n : PX A) : Prop := forall w, m w = n w.
#[local] Infix "≃" := same_run (at level 70).
#[global] Instance same_run_equiv {A} : Equivalence (same_run (A := A)).
Proof. split; [by intros m w|by intros m n H w|by intros m n o H1 H2 w; rewrite H1]. Qed.

Lemma same_bind {A B} (m n : PX A) (f g : A -> PX B) :
  m ≃ n -> (forall a, f a ≃ g a) -> (m ≫= f) ≃ (n ≫= g).
Proof.
  intros Hm Hf w. unfold mbind, io_bind. rewrite Hm. destruct (n w) as [[a|e] w1]; [apply Hf|done].
Qed.
Lemma same_attempt {A} (m n : PX A) : m ≃ n -> attempt m ≃ attempt n.
Proof. intros Hm w. unfold attempt. by rewrite Hm. Qed.
Lemma bind_assoc {A B C} (m : PX A) (f : A -> PX B) (g : B -> PX C) :
  ((m ≫= f) ≫= g) ≃ (m ≫= fun a => f a ≫= g).
Proof. intros w. unfold mbind, io_bind. by destruct (m w) as [[a|e] w1]. Qed.

Lemma alone_bind {A B} (t : task A) (f : A -> task B) : alone (t ≫= f) ≃ (alone t ≫= fun a => alone (f a)).
Proof.
  induction t as [[a|e]|C held m k IH|s k IH]; intros w; [done..| |].
  - change (alone (Stage held m k ≫= f) w) with (let '(r, w1) := m w in alone (k r ≫= f) w1).
    destruct (m w) as [r w1] eqn:E. rewrite (IH r w1). unfold mbind, io_bind. simpl. by rewrite E.
  - destruct s as [owner|session]; [|exact (IH w)].
    change (alone (Spawn (Cleanup owner) k ≫= f) w)
      with ((zoom (owner_drop env state owner) ≫= fun _ => alone (k ≫= f)) w).
    rewrite (same_bind _ _ _ (fun _ => alone k ≫= fun a => alone (f a)) (reflexivity _) (fun _ => IH)).
    by rewrite <- (bind_assoc _ (fun _ => alone k)).
Qed.
Lemma alone_await {A} (m : PX A) : alone (await m) ≃ m.
Proof. intros w. simpl. destruct (m w) as [r w1]. done. Qed.
Lemma alone_stage {A} (m : IO A) : alone (stage m) ≃ zoom m.
Proof. apply alone_await. Qed.
Lemma drop_never_fails owner w w' e : zoom (owner_drop env state owner) w = (Err e, w') -> False.
Proof.
  unfold zoom, owner_drop. destruct (is_empty _); [done|]. unfold mbind, io_bind, attempt.
  by destruct (revoke_registered_dynamic_lease _ _ _ _ _).
Qed.
Lemma alone_caught {A} (t : task A) : alone (caught t) ≃ attempt (alone t).
Proof.
  induction t as [r|C held m k IH|s k IH]; intros w; [done| |].
  - simpl. unfold attempt. destruct (m w) as [r w1] eqn:E. by rewrite (IH r w1).
  - destruct s as [owner|session]; [|exact (IH w)]. simpl. unfold mbind, io_bind, attempt.
    destruct (zoom (owner_drop env state owner) w) as [[u|e] w1] eqn:E; [by rewrite (IH w1)|].
    by destruct (drop_never_fails owner w w1 e).
Qed.
Lemma alone_owning {A} lease (t : task A) : alone (owning lease t) ≃ alone t.
Proof.
  induction t as [r|C held m k IH|s k IH]; intros w; [done| |].
  - simpl. destruct (m w) as [r w1]. apply IH.
  - destruct s as [owner|session]; [|exact (IH w)]. apply same_bind; [done|]. intros _. exact IH.
Qed.

(** ** The lease handlers *)

Lemma inner_outer (v : Connector.world ServerData) log : inner (outer v log) = v.
Proof. by destruct v. Qed.
Lemma zoom_bind {A B} (m : IO A) (f : A -> IO B) : (zoom m ≫= fun a => zoom (f a)) ≃ zoom (m ≫= f).
Proof.
  intros w. unfold zoom, mbind, io_bind. destruct (m (inner w)) as [[a|e] v]; [|done].
  rewrite inner_outer. simpl. by destruct (f a v).
Qed.
Lemma outer_inner w : outer (inner w) (contacts (server w)) = w.
Proof. by destruct w as [? ? ? []]. Qed.
Lemma zoom_ensure {A} (r : result A) : ensure r ≃ zoom (ensure r).
Proof. intros w. unfold zoom, ensure. by rewrite outer_inner. Qed.
Lemma zoom_attempt {A} (m : IO A) : attempt (zoom m) ≃ zoom (attempt m).
Proof. intros w. unfold zoom, attempt. by destruct (m (inner w)). Qed.

(** A part of a lease handler, and what follows it *)
Lemma handler_then {A B} (t : task A) (m : IO A) (f : A -> task B) (g : A -> IO B) :
  alone t ≃ zoom m -> (forall a, alone (f a) ≃ zoom (g a)) -> alone (t ≫= f) ≃ zoom (m ≫= g).
Proof.
  intros Ht Hf w. rewrite alone_bind, (same_bind _ (zoom m) _ (fun a => zoom (g a))) by done.
  apply zoom_bind.
Qed.
Lemma handler_end {A} (r : result A) : alone (Finished r) ≃ zoom (ensure r).
Proof. apply zoom_ensure. Qed.
Lemma handler_ret {A} (a : A) : alone (mret (M := task) a) ≃ zoom (mret a).
Proof. apply (zoom_ensure (Ok a)). Qed.
Create HintDb tasks.
#[local] Hint Resolve handler_end handler_ret alone_stage : tasks.

Ltac walk_handler := repeat first
  [ solve [auto with tasks] | apply handler_then; [|intros ?] | progress cbv beta zeta | case_match ].

Lemma revoke_or_restore_alone m h item :
  alone (revoke_or_restore_task m h item) ≃ zoom (revoke_or_restore m h item).
Proof. unfold revoke_or_restore_task, revoke_or_restore. walk_handler. Qed.
#[local] Hint Resolve revoke_or_restore_alone : tasks.
Lemma register_alone s n p l i f :
  alone (register_lease_task env service s n p l i f) ≃ zoom (register_lease env state s n p l i f).
Proof. unfold register_lease_task, register_lease. walk_handler. Qed.
#[local] Hint Resolve register_alone : tasks.
Lemma acquire_alone name p s :
  alone (acquire_owned_proxy_secrets_task env service name p s)
  ≃ zoom (acquire_owned_proxy_secrets env state name p s).
Proof. unfold acquire_owned_proxy_secrets_task, acquire_owned_proxy_secrets. walk_handler. Qed.
Lemma revoke_registered_alone h s :
  alone (revoke_registered_dynamic_lease_task env service h s)
  ≃ zoom (revoke_registered_dynamic_lease env state h s).
Proof. unfold revoke_registered_dynamic_lease_task, revoke_registered_dynamic_lease. walk_handler. Qed.
#[local] Hint Resolve acquire_alone revoke_registered_alone : tasks.
Lemma handler_caught {A} (t : task A) (m : IO A) : alone t ≃ zoom m -> alone (caught t) ≃ zoom (attempt m).
Proof.
  intros Ht. etransitivity; [apply alone_caught|]. etransitivity; [by apply same_attempt|apply zoom_attempt].
Qed.
#[local] Hint Resolve handler_caught : tasks.
Lemma owner_drop_alone o : alone (owner_drop_task env service o) ≃ zoom (owner_drop env state o).
Proof. unfold owner_drop_task, owner_drop. walk_handler. Qed.
#[local] Hint Resolve owner_drop_alone : tasks.

Lemma lease_task_alone o : alone (lease_task env service o) ≃ zoom (run_lease_op env state o).
Proof.
  destruct o; cbn [lease_task run_lease_op]; try solve [auto with tasks].
  all: apply handler_then; [|auto with tasks].
  - unfold get_profile_environment_task, get_profile_environment. walk_handler.
  - unfold renew_profile_environment_lease_task, renew_profile_environment_lease. walk_handler.
  - unfold revoke_profile_environment_lease_task, revoke_profile_environment_lease. walk_handler.
  - auto with tasks.
  - unfold fetch_secrets_task, fetch_secrets. walk_handler.
  - unfold renew_registered_dynamic_lease_task, renew_registered_dynamic_lease. walk_handler.
Qed.

(** ** The request path *)

Lemma alone_then {A B} (t : task A) (m : PX A) (f : A -> task B) (g : A -> PX B) :
  alone t ≃ m -> (forall a, alone (f a) ≃ g a) -> alone (t ≫= f) ≃ (m ≫= g).
Proof. intros Ht Hf w. rewrite alone_bind. by apply same_bind. Qed.
Lemma alone_end {A} (r : result A) : alone (Finished r) ≃ ensure r.
Proof. done. Qed.
Lemma alone_ret {A} (a : A) : alone (mret (M := task) a) ≃ mret a.
Proof. done. Qed.
Lemma alone_caught_then {A} (t : task A) (m : PX A) : alone t ≃ m -> alone (caught t) ≃ attempt m.
Proof. intros Ht. etransitivity; [apply alone_caught|by apply same_attempt]. Qed.
Lemma alone_owning_then {A} lease (t : task A) (m : PX A) : alone t ≃ m -> alone (owning lease t) ≃ m.
Proof. intros Ht. etransitivity; [apply alone_owning|done]. Qed.
Lemma alone_or_answer {A B} (t : task A) (m : PX A) (e : B) f g :
  alone t ≃ m -> (forall a, alone (f a) ≃ g a) -> alone (or_answer t e f) ≃ or_return m e g.
Proof. intros Ht Hf. apply alone_then; [by apply alone_caught_then|]. by intros [a|]. Qed.
(** A wait on its own is nothing. *)
Lemma alone_pause {A} lease (t : task A) m : alone t ≃ m -> alone (_ ← owning lease pause; t) ≃ m.
Proof. intros Ht w. exact (Ht w). Qed.
Lemma alone_wait {A} (t : task A) m : alone t ≃ m -> alone (_ ← pause; t) ≃ m.
Proof. apply (alone_pause None). Qed.

Create HintDb requests.
#[local] Hint Resolve alone_end alone_ret alone_await alone_stage alone_caught_then : requests.
Ltac walk := repeat first
  [ solve [auto with requests] | apply alone_or_answer; [|intros ?] 
  | match goal with |- same_run (Interleave.alone _ _ (mbind _ pause)) _ => apply alone_wait end | apply alone_then; [|intros ?]
  | apply alone_owning_then | progress cbv beta zeta | case_match ].

Lemma drop_lease_alone lease : alone (drop_lease_task lease) ≃ drop_lease env service lease.
Proof.
  destruct lease as [owner|]; [|done]. intros w. unfold drop_lease_task, spawn, drop_lease. simpl.
  unfold mbind, io_bind. destruct (zoom (owner_drop env state owner) w) as [[[]|e] w1] eqn:E; [done|].
  by destruct (drop_never_fails owner w w1 e).
Qed.
Lemma owner_revoke_alone o : alone (owner_revoke_task env service o) ≃ zoom (owner_revoke env state o).
Proof.
  unfold owner_revoke_task, owner_revoke. apply handler_then; [auto with tasks|].
  intros [[]|e]; [apply handler_ret|]. apply handler_then; [|intros _; apply handler_end].
  apply (drop_lease_alone (Some o)).
Qed.
#[local] Hint Resolve drop_lease_alone owner_revoke_alone acquire_alone : requests.
Lemma guarded_alone {A} lease (t : task A) m :
  alone t ≃ m -> alone (guarded_task lease t) ≃ guarded env service lease m.
Proof. intros Ht. unfold guarded_task, guarded. walk. Qed.

Lemma read_buffered_alone maximum acc chunks :
  alone (read_buffered_task maximum acc chunks) ≃ ensure (read_buffered maximum acc chunks).
Proof.
  revert acc. induction chunks as [|[chunk|] chunks IH]; intros acc; [done| |done].
  intros w. cbn [read_buffered_task read_buffered]. rewrite alone_bind. unfold mbind at 1, io_bind.
  simpl. case_match; [done|]. apply IH.
Qed.
#[local] Hint Resolve read_buffered_alone : requests.
Lemma context_alone {A} (t : task A) m msg : alone t ≃ m -> alone (context_task t msg) ≃ context_of m msg.
Proof.
  intros Ht w. unfold context_task. rewrite alone_bind. unfold mbind, io_bind. rewrite alone_caught.
  unfold attempt, context_of. rewrite Ht. by destruct (m w).
Qed.
Lemma buffered_lease_alone lease msg :
  alone (context_task (revoke_lease_task env service lease) msg)
  ≃ match lease with
    | Some owner => context_of (zoom (owner_revoke env state owner)) msg
    | None => mret ()
    end.
Proof. destruct lease; [|done]. apply context_alone, owner_revoke_alone. Qed.
#[local] Hint Resolve buffered_lease_alone : requests.

Lemma proxy_request_alone route context body :
  alone (proxy_request_task env net service route context body)
  ≃ proxy_request env net service route context body.
Proof.
  unfold proxy_request_task, proxy_request. do 2 (apply alone_then; [auto with requests|intros ?]).
  case_match. apply alone_then; [apply guarded_alone; walk|]. intros [[prepared upstream] headers].
  case_match; [|apply alone_ret]. apply alone_then; [apply guarded_alone; walk|intros ?]. walk.
Qed.
Lemma proxy_websocket_request_alone route context h i :
  alone (proxy_websocket_request_task env net service route context h i)
  ≃ proxy_websocket_request env net service route context h i.
Proof.
  unfold proxy_websocket_request_task, proxy_websocket_request.
  do 5 (apply alone_then; [auto with requests|intros ?]). case_match.
  apply alone_then; [apply guarded_alone; walk|]. by intros [[prepared accept] selected].
Qed.
#[local] Hint Resolve proxy_request_alone proxy_websocket_request_alone : requests.
Lemma proxy_alone route_name path q method headers body :
  alone (proxy_task env net service route_name path q method headers body)
  ≃ proxy env net service route_name path q method headers body.
Proof. unfold proxy_task, proxy. walk. Qed.
Lemma read_stream_alone maximum redactor total lease chunks :
  alone (read_stream_task env service maximum redactor total lease chunks)
  ≃ read_stream env service maximum redactor total lease chunks.
Proof.
  revert redactor total. induction chunks as [|[chunk|] chunks IH]; intros redactor total;
    cbn [read_stream_task read_stream]; apply alone_pause; cbv zeta.
  - destruct lease; cbn [revoke_lease_task]; walk.
  - case_match; [walk|]. apply alone_then; [done|]. intros [output r]. case_match; [apply IH|done].
  - walk.
Qed.
Lemma stream_next_alone s : alone (stream_next_task env service s) ≃ stream_next env service s.
Proof. unfold stream_next_task, stream_next. case_match; [done|apply read_stream_alone]. Qed.
Lemma drop_body_alone r : alone (drop_lease_task (body_lease r)) ≃ drop_body env service r.
Proof. unfold body_lease, drop_body. case_match; auto with requests. Qed.
#[local] Hint Resolve drop_body_alone : requests.
Lemma tunnel_response_alone request route_name h i :
  alone (transparent_tunnel_response_task env net service request route_name h i)
  ≃ transparent_tunnel_response env net service request route_name h i.
Proof. unfold transparent_tunnel_response_task, transparent_tunnel_response. cbv zeta. walk. Qed.

(** ** The relay *)

Lemma renew_registered_alone h s :
  alone (renew_registered_dynamic_lease_task env service h s)
  ≃ zoom (renew_registered_dynamic_lease env state h s).
Proof. unfold renew_registered_dynamic_lease_task, renew_registered_dynamic_lease. walk_handler. Qed.
#[local] Hint Resolve renew_registered_alone owner_revoke_alone : tasks.
Lemma session_check_alone session : alone (session_check_task service session) ≃ zoom (session_check state session).
Proof.
  unfold session_check_task, session_check. apply handler_then; [|auto with tasks].
  unfold websocket_session_is_active_task, websocket_session_is_active. walk_handler.
Qed.
#[local] Hint Resolve session_check_alone : tasks.
Lemma renew_lease_alone session r :
  alone (renew_lease_task env service session r) ≃ zoom (renew_lease env state session r).
Proof. unfold renew_lease_task, renew_lease, owner_renew_task, owner_renew. walk_handler. Qed.
#[local] Hint Resolve renew_lease_alone : tasks.
Lemma relay_step_alone session event r :
  alone (relay_step_task env service write_completes session event r)
  ≃ zoom (relay_step env write_completes state session event r).
Proof. destruct event; cbn [relay_step_task relay_step]; walk_handler. Qed.
Lemma relay_loop_alone session events r :
  alone (relay_loop_task env service write_completes session events r)
  ≃ zoom (relay_loop env write_completes state session events r).
Proof.
  revert r. induction events as [|event events IH]; intros r; cbn [relay_loop_task relay_loop]; [apply handler_ret|].
  apply handler_then; [apply alone_owning_then, alone_wait, relay_step_alone|].
  intros [r'|outcome r']; [apply IH|apply handler_ret].
Qed.
Lemma handler_owning {A} lease (t : task A) (m : IO A) : alone t ≃ zoom m -> alone (owning lease t) ≃ zoom m.
Proof. apply alone_owning_then. Qed.
Lemma relay_alone session events :
  alone (relay_websocket_streams_task env service write_completes session events)
  ≃ zoom (relay_websocket_streams env write_completes state session events).
Proof.
  unfold relay_websocket_streams_task, relay_websocket_streams. cbv zeta.
  apply handler_then; [apply handler_owning, handler_caught; walk_handler|]. intros [ready|e].
  - apply handler_then; [apply relay_loop_alone|]. intros [r|result r]; [apply handler_ret|].
    apply handler_then; [|intros revoke; apply handler_ret]. apply handler_caught.
    destruct (relay_lease r); [apply owner_revoke_alone|apply handler_ret].
  - apply handler_then; [|intros _; apply handler_ret].
    etransitivity; [apply drop_lease_alone|]. destruct (wss_lease session); [done|]. apply (zoom_ensure (Ok ())).
Qed.
End Alone.

(** ** How long a task takes *)

Section Finishing.
Context {HL : HeaderLib} {UL : UrlLib} {EL : EncodingLib} {JL : JwtLib} {PL : PasswordLib}
  {BL : BackendLib} {WL : WebSocketLib} {ML : MessageLib}.
Context (env : Outside) (net : Network) (service : Service) (write_completes : nat -> bool).
#[local] Abbreviation IO := (io ServerData).
#[local] Abbreviation PX := (io ProxyData).
#[local] Abbreviation state := (app_state service).
#[local] Abbreviation W := (Connector.world ProxyData).
Implicit Types w : W.

(** At most [n] stages are left, and the result satisfies [P]. *)
Fixpoint lasts {A} (n : nat) (P : result A -> Prop) (t : task A) : Prop :=
  match t with
  | Finished r => P r
  | Stage _ m k => match n with 0 => False | S n => forall w, lasts n P (k (m w).1) end
  | Spawn _ k => lasts n P k
  end.
Definition any {A} (_ : result A) : Prop := True.

Lemma lasts_more {A} (t : task A) n n' (P Q : result A -> Prop) :
  n <= n' -> (forall r, P r -> Q r) -> lasts n P t -> lasts n' Q t.
Proof.
  intros Hle HPQ. revert n n' Hle. induction t as [r|B held m k IH|s k IH]; intros n n' Hle Hn.
  - destruct n, n'; by apply HPQ.
  - destruct n; [done|]. destruct n'; [lia|]. intros w. by apply (IH _ n); [lia|].
  - destruct n, n'; by eapply IH; [..|exact Hn].
Qed.
Lemma lasts_end {A} n (P : result A -> Prop) r : P r -> lasts n P (Finished r).
Proof. by destruct n. Qed.
Lemma lasts_ret {A} n (P : result A -> Prop) a : P (Ok a) -> lasts n P (mret (M := task) a).
Proof. by destruct n. Qed.
Lemma lasts_spawn {A} n (P : result A -> Prop) s t : lasts n P t -> lasts n P (Spawn s t).
Proof. by destruct n. Qed.
Lemma lasts_bind {A B} n n' P Q (t : task A) (f : A -> task B) :
  lasts n P t -> (forall a, P (Ok a) -> lasts n' Q (f a)) -> (forall e, P (Err e) -> Q (Err e)) ->
  lasts (n + n') Q (t ≫= f).
Proof.
  intros Ht Hf He. revert n Ht. induction t as [[a|e]|C held m k IH|s k IH]; intros n Ht.
  - apply (lasts_more _ n' _ Q); [lia|done|]. apply Hf. by destruct n.
  - apply lasts_end, He. by destruct n.
  - destruct n; [done|]. intros w. apply IH, Ht.
  - apply lasts_spawn, IH. by destruct n.
Qed.
Lemma lasts_caught {A} n (P : result (result A) -> Prop) (t : task A) :
  lasts n (fun r => P (Ok r)) t -> lasts n P (caught t).
Proof.
  revert n. induction t as [r|B held m k IH|s k IH]; intros n Ht; [by destruct n| |].
  - destruct n; [done|]. intros w. apply IH, Ht.
  - apply lasts_spawn, IH. by destruct n.
Qed.
Lemma lasts_owning {A} n P lease (t : task A) : lasts n P t -> lasts n P (owning lease t).
Proof.
  revert n. induction t as [r|B held m k IH|s k IH]; intros n Ht; [done| |].
  - destruct n; [done|]. intros w. apply IH, Ht.
  - apply lasts_spawn, IH. by destruct n.
Qed.

(** Where the result does not matter *)
Lemma lasts_then {A B} n n' (t : task A) (f : A -> task B) :
  lasts n any t -> (forall a, lasts n' any (f a)) -> lasts (n + n') any (t ≫= f).
Proof. intros Ht Hf. by eapply lasts_bind; [exact Ht|..]. Qed.
Lemma lasts_await {A} n (m : PX A) : lasts (S n) any (await m).
Proof. intros w. by apply lasts_end. Qed.
Lemma lasts_stage {A B} n (m : PX A) (f : A -> task B) :
  (forall a, lasts n any (f a)) -> lasts (S n) any (await m ≫= f).
Proof. intros Hf. apply (lasts_then 1 n); [|done]. apply lasts_await. Qed.
Lemma lasts_now {A B} n (r : result A) (f : A -> task B) :
  (forall a, lasts n any (f a)) -> lasts n any (Finished r ≫= f).
Proof. intros Hf. apply (lasts_then 0 n); [by apply lasts_end|done]. Qed.
Lemma lasts_any_end {A} n (r : result A) : lasts n any (Finished r).
Proof. by apply lasts_end. Qed.
Lemma lasts_any_ret {A} n (a : A) : lasts n any (mret (M := task) a).
Proof. by apply lasts_end. Qed.
Lemma lasts_any_caught {A} n (t : task A) : lasts n any t -> lasts n any (caught t).
Proof. exact (lasts_caught n any t). Qed.
Lemma lasts_any_more {A} n n' (t : task A) : n <= n' -> lasts n any t -> lasts n' any t.
Proof. intros Hle. by apply lasts_more. Qed.
Lemma lasts_answer {A B} n n' P Q (t : task A) (e : B) k :
  lasts n P t -> Q (Ok e) -> (forall a, P (Ok a) -> lasts n' Q (k a)) -> lasts (n + n') Q (or_answer t e k).
Proof.
  intros Ht He Hk. eapply (lasts_bind n n' (fun r => exists r', r = Ok r' /\ P r')); [| |by intros ? (? & [=] & _)].
  - apply lasts_caught. eapply lasts_more; [reflexivity| |exact Ht]. by intros r Hr; exists r.
  - intros [a|msg] (r' & [= <-] & Ha); [by apply Hk|by apply lasts_ret].
Qed.

Create HintDb lasts.
#[local] Hint Resolve lasts_any_end lasts_any_ret lasts_await : lasts.
Ltac go_lasts := repeat first
  [ solve [auto with lasts] | apply lasts_now; intros ? | apply lasts_stage; intros ?
  | progress cbv beta zeta | case_match ].

Lemma revoke_or_restore_lasts {A} n m handle item (f : result unit -> task A) :
  (forall r, lasts n any (f r)) -> lasts (S (S n)) any (revoke_or_restore_task m handle item ≫= f).
Proof. intros Hf. apply (lasts_then 2 n); [|done]. unfold revoke_or_restore_task. go_lasts. Qed.
Lemma register_lasts {A} n s name p l invalid full (f : bytes * Z -> task A) :
  (forall r, lasts n any (f r)) ->
  lasts (S (S n)) any (register_lease_task env service s name p l invalid full ≫= f).
Proof. intros Hf. apply (lasts_then 2 n); [|done]. unfold register_lease_task. go_lasts. Qed.
Ltac last_all := repeat first
  [ apply revoke_or_restore_lasts; intros ? | apply register_lasts; intros ? | progress go_lasts ].

Lemma get_environment_lasts headers p e : lasts 8 any (get_profile_environment_task env service headers p e).
Proof.
  unfold get_profile_environment_task. do 6 (first [apply lasts_now; intros ? | apply lasts_stage; intros ?]).
  destruct (lease _); [apply register_lasts; intros [lease_id expires]
                      |apply (lasts_now 5); intros [lease_id expires]].
  all: apply lasts_stage; intros [[]|msg]; [apply lasts_any_ret|].
  all: apply (lasts_any_more 2); [lia|]. all: apply (lasts_then 2 0); [go_lasts|auto with lasts].
Qed.
Lemma renew_registered_lasts h s : lasts 5 any (renew_registered_dynamic_lease_task env service h s).
Proof. unfold renew_registered_dynamic_lease_task. last_all. Qed.
Lemma renew_environment_lasts headers h :
  lasts 8 any (renew_profile_environment_lease_task env service headers h).
Proof. unfold renew_profile_environment_lease_task. last_all. Qed.
Lemma revoke_environment_lasts headers h :
  lasts 5 any (revoke_profile_environment_lease_task env service headers h).
Proof. unfold revoke_profile_environment_lease_task. last_all. Qed.
Lemma revoke_registered_lasts h s : lasts 3 any (revoke_registered_dynamic_lease_task env service h s).
Proof. unfold revoke_registered_dynamic_lease_task. last_all. Qed.
Lemma acquire_owned_lasts name p s : lasts 3 any (acquire_owned_proxy_secrets_task env service name p s).
Proof. unfold acquire_owned_proxy_secrets_task. last_all. Qed.
Lemma fetch_secrets_lasts p : lasts 2 any (fetch_secrets_task env service p).
Proof. unfold fetch_secrets_task. last_all. Qed.
Lemma owner_drop_lasts o : lasts 3 any (owner_drop_task env service o).
Proof.
  unfold owner_drop_task. case_match; [apply lasts_any_ret|].
  apply (lasts_then 3 0); [apply lasts_any_caught, revoke_registered_lasts|intros _; apply lasts_any_ret].
Qed.
Lemma then_ret_lasts {A B} n (t : task A) (b : B) : lasts n any t -> lasts n any (_ ← t; mret b).
Proof.
  intros Ht. apply (lasts_any_more (n + 0)); [lia|]. apply lasts_then; [done|]. intros _. apply lasts_any_ret.
Qed.
Lemma lease_task_lasts o : lasts 8 any (lease_task env service o).
Proof.
  destruct o; cbn [lease_task]; try apply then_ret_lasts.
  - apply get_environment_lasts.
  - apply renew_environment_lasts.
  - apply (lasts_any_more 5); [lia|apply revoke_environment_lasts].
  - apply (lasts_any_more 3); [lia|apply acquire_owned_lasts].
  - apply (lasts_any_more 2); [lia|apply fetch_secrets_lasts].
  - apply (lasts_any_more 5); [lia|apply renew_registered_lasts].
  - apply (lasts_any_more 3); [lia|apply revoke_registered_lasts].
  - apply (lasts_any_more 3); [lia|apply owner_drop_lasts].
  - apply lasts_await.
Qed.

(** ** Requests, against upstreams that send at most [N] chunks *)

Context (N : nat) (chunked : forall n rq r, upstream_send net n rq = Some r -> length (us_chunks r) <= N).

Definition short_body (r : result Response) : Prop :=
  forall a s, r = Ok a -> response_body a = Streamed s -> length (bs_chunks s) <= N.

Lemma send_lasts rq : lasts 1 (fun r => forall u, r = Ok u -> length (us_chunks u) <= N) (await (send_upstream net rq)).
Proof.
  intros w. apply lasts_end. unfold send_upstream, contact, mbind, io_bind, get_server, set_server, outside.
  simpl. destruct (upstream_send net _ rq) as [u|] eqn:E; [|done]. intros u' [= <-]. by eapply chunked.
Qed.
Lemma drop_lease_lasts lease : lasts 0 any (drop_lease_task lease).
Proof. by destruct lease. Qed.
Lemma owner_revoke_lasts o : lasts 3 any (owner_revoke_task env service o).
Proof.
  apply (lasts_then 3 0); [apply lasts_any_caught, revoke_registered_lasts|]. by intros [[]|e].
Qed.
Lemma revoke_lease_lasts lease : lasts 3 any (revoke_lease_task env service lease).
Proof. destruct lease; [apply owner_revoke_lasts|by apply lasts_end]. Qed.
Lemma guarded_lasts {A} n (P : result A -> Prop) lease t :
  (forall e, P (Err e)) -> lasts n P t -> lasts n P (guarded_task lease t).
Proof.
  intros He Ht. unfold guarded_task. apply (lasts_more _ (n + 0) _ P); [lia|done|].
  eapply (lasts_bind n 0 (fun r => forall r', r = Ok r' -> P r')).
  - apply lasts_owning, lasts_caught. eapply lasts_more; [reflexivity| |exact Ht]. by intros r Hr r' [= <-].
  - intros [a|e] Ha; [by apply (Ha (Ok a))|]. apply (lasts_bind 0 0 any); [apply drop_lease_lasts|..]; intros; apply He.
  - intros e _. apply He.
Qed.
Lemma read_buffered_lasts maximum acc chunks :
  lasts (S (length chunks)) any (read_buffered_task maximum acc chunks).
Proof.
  revert acc. induction chunks as [|[chunk|] chunks IH]; intros acc; apply lasts_stage; intros _; [done| |done].
  case_match; [apply lasts_any_end|apply IH].
Qed.
Lemma lasts_now_P {A B} n P (r : result A) (f : A -> task B) :
  (forall e, P (Err e)) -> (forall a, lasts n P (f a)) -> lasts n P (Finished r ≫= f).
Proof. intros He Hf. apply (lasts_bind 0 n any); [by apply lasts_end|intros a _; apply Hf|intros; apply He]. Qed.
Lemma context_lasts {A} n (t : task A) msg : lasts n any t -> lasts n any (context_task t msg).
Proof.
  intros Ht. apply (lasts_any_more (n + 0)); [lia|]. apply lasts_then; [by apply lasts_any_caught|].
  intros r. apply lasts_any_end.
Qed.

Lemma proxy_request_lasts route context body :
  lasts (N + 8) short_body (proxy_request_task env net service route context body).
Proof.
  unfold proxy_request_task. apply lasts_now_P; [done|intros profile].
  replace (N + 8) with (3 + (1 + (N + 4))) by lia.
  apply (lasts_bind 3 _ any); [apply acquire_owned_lasts|intros [values lease] _|done].
  apply (lasts_bind 1 _ (fun r => forall p u hs, r = Ok (p, u, hs) -> length (us_chunks u) <= N)).
  - apply guarded_lasts; [done|]. do 3 (apply lasts_now_P; [done|intros ?]).
    apply (lasts_bind 1 0 _ _ _ _ (send_lasts _)); [intros u Hu|done].
    do 2 (apply lasts_now_P; [done|intros ?]). apply lasts_ret. intros ? ? ? [= _ <- _]. by apply Hu.
  - intros [[prepared upstream] headers] Hu. specialize (Hu _ _ _ eq_refl). case_match.
    + replace (N + 4) with (N + 1 + (3 + 0)) by lia. apply (lasts_bind _ _ any); [|intros bytes _|done].
      * apply guarded_lasts; [done|]. apply (lasts_any_more (S (length (us_chunks upstream)) + 0)); [lia|].
        apply lasts_then; [apply read_buffered_lasts|]. intros ?. apply lasts_any_end.
      * apply (lasts_bind 3 0 any); [apply context_lasts, revoke_lease_lasts|intros _ _|done].
        apply lasts_ret. by intros a s [= <-].
    + apply lasts_ret. by intros a s [= <-] [= <-].
  - done.
Qed.
Lemma websocket_request_lasts route context h i :
  lasts 4 (fun r => forall a b, r = Ok (a, b) -> body_lease a = None /\ response_body a = Full [])
    (proxy_websocket_request_task env net service route context h i).
Proof.
  unfold proxy_websocket_request_task. do 4 (apply lasts_now_P; [done|intros ?]).
  apply (lasts_bind 3 1 any); [apply acquire_owned_lasts|intros [values lease] _|done].
  apply (lasts_bind 1 0 any).
  - apply guarded_lasts; [done|]. do 4 (apply lasts_now; intros ?). apply lasts_stage. intros u.
    apply lasts_now. by intros [].
  - intros [[prepared accept] selected] _. apply lasts_spawn, lasts_ret. by intros r session [= <- _].
  - done.
Qed.

Lemma pause_lasts {A B} n lease (t : task A) (f : A -> task B) :
  lasts n any (t ≫= f) -> lasts (S n) any ((_ ← owning lease pause; t) ≫= f).
Proof. intros H w. exact H. Qed.
Lemma now_lasts {A B C} n (r : result A) (g : A -> task B) (f : B -> task C) :
  (forall a, lasts n any (g a ≫= f)) -> lasts n any ((Finished r ≫= g) ≫= f).
Proof. intros H. destruct r as [a|e]; [exact (H a)|by apply lasts_end]. Qed.
Lemma fails_lasts {B C} n lease e (f : B -> task C) :
  lasts n any ((_ ← drop_lease_task lease; Finished (A := B) (Err e)) ≫= f).
Proof. destruct lease; by destruct n. Qed.

(** Reading a stream to the next output, and what follows *)
Lemma read_stream_lasts {A} maximum lease (f : option (bytes * BodyStream) -> task A) chunks :
  (forall o s, bs_finished s = true -> lasts 1 any (f (Some (o, s)))) -> lasts 1 any (f None) ->
  (forall o s, length (bs_chunks s) < length chunks -> lasts (2 * length (bs_chunks s) + 6) any (f (Some (o, s)))) ->
  forall redactor total,
  lasts (2 * length chunks + 5) any (read_stream_task env service maximum redactor total lease chunks ≫= f).
Proof.
  intros Hfin Hnone. induction chunks as [|[chunk|] chunks IH]; intros Hmore redactor total;
    cbn [read_stream_task length]; [apply (pause_lasts 4)|..|].
  - apply now_lasts. intros [output r].
    apply (lasts_bind 3 1 (fun x => forall y, x = Ok y -> y = None \/ exists o s, y = Some (o, s) /\ bs_finished s = true));
      [|intros y Hy|done].
    + apply (lasts_bind 3 0 any); [apply revoke_lease_lasts|intros _ _|done].
      case_match; apply lasts_ret; intros y [= <-]; [by left|right]. by eexists _, _.
    + destruct (Hy y eq_refl) as [->|(o & s & -> & Hs)]; [done|by apply Hfin].
  - apply (lasts_any_more (S (S (2 * length chunks + 5)))); [lia|]. apply pause_lasts. cbv zeta.
    case_match; [apply fails_lasts|]. apply now_lasts. intros [output r]. case_match.
    + apply (lasts_any_more (2 * length chunks + 5)); [lia|]. apply IH. intros o s Hs. apply Hmore. simpl. lia.
    + apply (lasts_any_more (2 * length chunks + 6)); [lia|]. apply (Hmore output {| bs_chunks := chunks |}). simpl. lia.
  - apply (lasts_any_more 1); [lia|]. apply pause_lasts, fails_lasts.
Qed.
Lemma serve_finished_lasts polls s : bs_finished s = true -> lasts 1 any (serve_body_task env service polls s).
Proof.
  intros Hs. destruct polls; cbn [serve_body_task]; [apply (lasts_any_more 0); [lia|apply drop_lease_lasts]|].
  apply (lasts_then 1 0); [by apply lasts_owning, lasts_await|]. intros _. unfold stream_next_task. by rewrite Hs.
Qed.
Lemma serve_body_lasts polls s : lasts (2 * length (bs_chunks s) + 6) any (serve_body_task env service polls s).
Proof.
  revert s. induction polls as [|polls IH]; intros s; cbn [serve_body_task].
  { apply (lasts_any_more 0); [lia|apply drop_lease_lasts]. }
  apply (lasts_any_more (1 + (2 * length (bs_chunks s) + 5))); [lia|].
  apply lasts_then; [by apply lasts_owning, lasts_await|intros _]. unfold stream_next_task.
  case_match; [apply lasts_any_ret|].
  apply read_stream_lasts; [intros o s' Hs; by apply serve_finished_lasts|apply lasts_any_ret|intros o s' _; apply IH].
Qed.
Lemma serve_response_lasts polls r : short_body (Ok r) ->
  lasts (2 * N + 6) any (serve_response_task env service polls r).
Proof.
  intros Hr. unfold serve_response_task. case_match; [apply lasts_any_ret|].
  eapply lasts_any_more; [|apply serve_body_lasts]. pose proof (Hr _ _ eq_refl ltac:(eassumption)). lia.
Qed.

Lemma short_full r content : response_body r = Full content -> short_body (Ok r).
Proof. intros Hr r' s [= <-]. by rewrite Hr. Qed.
Lemma short_plain code message : short_body (Ok (plain code message)).
Proof. by eapply short_full. Qed.
Lemma stage_lasts {A} (m : IO A) : lasts 1 any (stage m).
Proof. apply lasts_await. Qed.
Lemma proxy_lasts route_name path q method headers body :
  lasts (N + 11) short_body (proxy_task env net service route_name path q method headers body).
Proof.
  replace (N + 11) with (1 + (1 + (1 + (N + 8 + 0)))) by lia. unfold proxy_task.
  apply (lasts_answer _ _ any); [apply stage_lasts|by eapply short_full|intros identity _].
  case_match; [|apply lasts_ret, short_plain]. case_match; [apply lasts_ret, short_plain|].
  apply (lasts_answer _ _ any); [apply stage_lasts|by eapply short_full|intros permitted _].
  do 4 (case_match; [|apply lasts_ret, short_plain] || (case_match; [apply lasts_ret, short_plain|])).
  apply (lasts_answer _ _ any); [apply stage_lasts|by eapply short_full|intros _ _].
  apply (lasts_answer _ _ short_body); [apply proxy_request_lasts|apply short_plain|].
  intros response Hr. apply lasts_ret. intros r' s [= <-] Hs. by apply (Hr response s).
Qed.

Definition short_answer {B} (r : result (Response * B)) : Prop :=
  forall a b, r = Ok (a, b) -> short_body (Ok a).
Lemma answer_full {B} r content (b : B) : response_body r = Full content -> short_answer (Ok (r, b)).
Proof. intros Hr r' b' [= <- <-]. by eapply short_full. Qed.
Lemma lasts_full {B} n r content (b : B) : response_body r = Full content ->
  lasts n short_answer (mret (M := task) (r, b)).
Proof. intros Hr. by eapply lasts_ret, answer_full. Qed.
Lemma tunnel_lasts request route_name h i :
  lasts (N + 13) short_answer (transparent_tunnel_response_task env net service request route_name h i).
Proof.
  replace (N + 13) with (1 + (1 + (1 + (1 + (N + 8 + 1))))) by lia. unfold transparent_tunnel_response_task. cbv zeta.
  apply (lasts_bind _ _ any); [apply lasts_await|intros permit _|done].
  do 2 (case_match; [by eapply lasts_full|]).
  apply (lasts_answer _ _ any); [apply stage_lasts|by eapply answer_full|intros session _].
  do 2 (case_match; [|by eapply lasts_full]). case_match; [by eapply lasts_full|].
  apply (lasts_answer _ _ any); [apply stage_lasts|by eapply answer_full|intros permitted _].
  case_match; [by eapply lasts_full|]. destruct (is_websocket_attempt _ && _); [by eapply lasts_full|].
  destruct (enforce_transparent_tunnel_target _ _ _); [|by eapply lasts_full].
  apply (lasts_bind _ _ any); [apply lasts_await|intros _ _|done].
  destruct (collect_transparent_body _ _ _) as [body|]; [|by eapply lasts_full].
  destruct (is_websocket_attempt _ && _); [by eapply lasts_full|].
  destruct (validate_proxy_request _ _ _ _ _ _); [|by eapply lasts_full].
  apply (lasts_answer _ _ short_answer); [|by eapply answer_full|].
  - case_match.
    + apply (lasts_more _ (4 + 0) (N + 8) short_answer); [lia|done|].
      eapply lasts_bind; [apply websocket_request_lasts| |done]. intros [r relay] Hr.
      by eapply lasts_full, Hr.
    + apply (lasts_more _ (N + 8 + 0) _ short_answer); [lia|done|].
      apply (lasts_bind _ _ short_body); [apply proxy_request_lasts| |done].
      intros r Hr. apply lasts_ret. by intros r' relay [= <- _].
  - intros [response relay] Hr. specialize (Hr _ _ eq_refl).
    apply (lasts_bind 1 0 any); [apply lasts_owning, lasts_any_caught, stage_lasts|intros audited _|done].
    case_match; [by apply lasts_ret; intros r' b [= <- _]|].
    apply (lasts_bind 0 0 any); [apply drop_lease_lasts|intros _ _|done]. by eapply lasts_full.
Qed.

(** ** Relays *)

Lemma session_check_lasts session : lasts 2 any (session_check_task service session).
Proof.
  apply (lasts_then 2 0); [|intros ?; apply lasts_any_end]. unfold websocket_session_is_active_task, stage. go_lasts.
Qed.
Lemma renew_lease_lasts session r : lasts 8 any (renew_lease_task env service session r).
Proof.
  unfold renew_lease_task, owner_renew_task. case_match; [|apply lasts_any_ret].
  apply (lasts_then 2 6); [apply session_check_lasts|intros _].
  apply (lasts_then 5 1); [|intros renewed].
  { apply (lasts_then 5 0); [apply renew_registered_lasts|]. intros ?. apply lasts_any_ret. }
  apply lasts_stage. intros ?. apply lasts_any_ret.
Qed.
Lemma relay_step_lasts session event r : lasts 8 any (relay_step_task env service write_completes session event r).
Proof.
  destruct event as [| | |from [| |message]]; cbn [relay_step_task]; try apply lasts_any_ret.
  - apply (lasts_then 8 0); [apply lasts_any_caught, renew_lease_lasts|]. intros ?. apply lasts_any_ret.
  - apply (lasts_then 8 0); [|intros ?; apply lasts_any_ret].
    apply lasts_any_caught, (lasts_any_more 2); [lia|apply session_check_lasts].
  - apply lasts_await.
Qed.
Lemma relay_loop_lasts session events r :
  lasts (9 * length events) any (relay_loop_task env service write_completes session events r).
Proof.
  revert r. induction events as [|event events IH]; intros r; cbn [relay_loop_task length]; [apply lasts_any_ret|].
  replace (9 * S (length events)) with (9 + 9 * length events) by lia. apply lasts_then.
  - apply lasts_owning, lasts_stage. intros _. apply relay_step_lasts.
  - intros [r'|outcome r']; [apply IH|apply lasts_any_ret].
Qed.
Lemma relay_lasts session events :
  lasts (9 * length events + 4) any (relay_websocket_streams_task env service write_completes session events).
Proof.
  unfold relay_websocket_streams_task. cbv zeta. replace (9 * length events + 4) with (1 + (9 * length events + 3)) by lia.
  apply lasts_then; [apply lasts_owning, lasts_any_caught; case_match; [apply lasts_await|apply lasts_any_ret]|].
  intros [ready|e].
  - apply lasts_then; [apply relay_loop_lasts|]. intros [r|result r]; [apply lasts_any_ret|].
    apply (lasts_then 3 0); [apply lasts_any_caught, revoke_lease_lasts|]. intros ?. apply lasts_any_ret.
  - apply (lasts_any_more (0 + 0)); [lia|]. apply lasts_then; [apply drop_lease_lasts|]. intros _. apply lasts_any_ret.
Qed.

(** The stages of the longest job: a tunnelled request whose body is streamed, or a
    relay to which at most [N] things happen *)
Definition JOB_STAGES : nat := 9 * N + 19.
Definition brief (e : event) : Prop :=
  match e with Start (RelayJob _ events) => length events <= N | _ => True end.
Lemma job_lasts j : brief (Start j) -> lasts JOB_STAGES any (job_task env net service write_completes j).
Proof.
  unfold JOB_STAGES. destruct j as [o|name path q method headers body polls|request name h i polls|session events];
    cbn [job_task brief]; intros Hj.
  - apply (lasts_any_more 8); [lia|apply lease_task_lasts].
  - apply (lasts_any_more (N + 11 + (2 * N + 6))); [lia|].
    apply (lasts_bind _ _ short_body); [apply proxy_lasts| |done]. intros r Hr. by apply serve_response_lasts.
  - apply (lasts_any_more (N + 13 + (2 * N + 6))); [lia|].
    apply (lasts_bind _ _ short_answer); [apply tunnel_lasts| |done]. intros [r relay] Hr.
    by eapply serve_response_lasts, Hr.
  - apply then_ret_lasts, (lasts_any_more (9 * length events + 4)); [lia|apply relay_lasts].
Qed.

(** ** The tasks of a pool *)

#[local] Abbreviation pool_step := (pool_step env net service write_completes).
#[local] Abbreviation run_schedule := (run_schedule env net service write_completes).
Implicit Types (p : pool) (t : task unit).

(** Not in the middle of a spawn *)
Definition rests t : Prop := match t with Spawn _ _ => False | _ => True end.
Lemma settle_rests t : rests (settle t).1.
Proof. induction t as [r|B held m k IH|s k IH]; simpl; [done..|]. by destruct (settle k). Qed.
Lemma settle_lasts n t : lasts n any t -> lasts n any (settle t).1.
Proof.
  induction t as [r|B held m k IH|s k IH]; intros Ht; [done..|]. simpl.
  destruct (settle k) as [t' l]. apply IH. by destruct n.
Qed.
Lemma cleanups_elem started t : t ∈ cleanups env service started -> exists owner, t = owner_drop_task env service owner.
Proof. intros ([owner|session] & _ & [= <-])%list_elem_of_omap. by exists owner. Qed.

Lemma rest_at_lookup i t w p j t0 : pool_tasks p !! j = Some t0 ->
  pool_tasks (rest_at env service i t w p) !! j = Some (if decide (i = j) then (settle t).1 else t0).
Proof.
  intros Hj. unfold rest_at. destruct (settle t) as [t' l]. simpl.
  rewrite lookup_app_l by (rewrite length_insert; by eapply lookup_lt_Some).
  case_decide as Hd; [subst; apply list_lookup_insert_eq; by eapply lookup_lt_Some|by rewrite list_lookup_insert_ne].
Qed.
Lemma rest_at_elem i t w p t' : t' ∈ pool_tasks (rest_at env service i t w p) ->
  t' ∈ pool_tasks p \/ t' = (settle t).1 \/ exists owner, t' = owner_drop_task env service owner.
Proof.
  unfold rest_at. destruct (settle t) as [t0 l]. simpl.
  intros [(j & Hj)%list_elem_of_lookup|Hc]%elem_of_app; [|right; right; by eapply cleanups_elem].
  apply list_lookup_insert_Some in Hj as [(_ & -> & _)|[_ Hj]]; [by right; left|left].
  by eapply list_elem_of_lookup_2.
Qed.

(** What becomes of a task in one step *)
Definition next_task e i t w : task unit :=
  match e with
  | Advance j => if decide (j = i) then (settle (advance t w).1).1 else t
  | Drop j => match t with
              | Stage _ _ _ => if decide (j = i) then Finished (Err "dropped") else t
              | _ => t
              end
  | Start _ => t
  end.
Lemma dropped_settles held :
  (settle (_ ← drop_lease_task held; Finished (A := unit) (Err "dropped"))).1 = Finished (Err "dropped").
Proof. by destruct held. Qed.
Lemma step_task p e i t : pool_tasks p !! i = Some t -> rests t ->
  pool_tasks (pool_step p e) !! i = Some (next_task e i t (pool_world p)).
Proof.
  intros Hi Ht. destruct e as [j|j|j]; cbn [pool_step Interleave.pool_step next_task].
  - destruct (settle _) as [t' l]. by apply lookup_app_l_Some.
  - destruct (decide (j = i)) as [->|Hne].
    + rewrite Hi. destruct (advance t _) as [t' w']. rewrite (rest_at_lookup _ _ _ _ _ t) by done.
      by rewrite decide_True.
    + destruct (pool_tasks p !! j); [|done]. destruct (advance _ _) as [t' w'].
      rewrite (rest_at_lookup _ _ _ _ _ t) by done. by rewrite decide_False.
  - destruct (decide (j = i)) as [->|Hne].
    + rewrite Hi. destruct t; [done| |done]. rewrite (rest_at_lookup _ _ _ _ _ _ Hi), decide_True by done.
      by rewrite dropped_settles.
    + transitivity (Some t); [|destruct t; by rewrite ?decide_False].
      destruct (pool_tasks p !! j) as [[| |]|]; [done| |done..].
      rewrite (rest_at_lookup _ _ _ _ _ t) by done. by rewrite decide_False.
Qed.

(** Every task of a pool rests, and has a bounded number of stages left. *)
Definition orderly p : Prop := Forall (fun t => rests t /\ lasts JOB_STAGES any t) (pool_tasks p).
Lemma owner_drop_rests o : rests (owner_drop_task env service o).
Proof. unfold owner_drop_task. by case_match. Qed.
Lemma cleanup_orderly t owner : t = owner_drop_task env service owner -> rests t /\ lasts JOB_STAGES any t.
Proof.
  intros ->. split; [apply owner_drop_rests|]. eapply lasts_any_more; [|apply owner_drop_lasts].
  unfold JOB_STAGES. lia.
Qed.
Lemma advance_lasts n t w : lasts (S n) any t -> lasts n any (advance t w).1 \/ ~ rests t.
Proof.
  destruct t as [r|B held m k|s k]; simpl; intros Ht; [left; by apply lasts_end| |by right; intros []].
  left. specialize (Ht w). by destruct (m w).
Qed.
Lemma step_orderly p e : brief e -> orderly p -> orderly (pool_step p e).
Proof.
  intros Hb Hp. apply Forall_forall. intros t Ht. pose proof (proj1 (Forall_forall _ _) Hp) as Hold.
  assert (forall i t0 w', (rests (settle t0).1 /\ lasts JOB_STAGES any (settle t0).1) ->
    t ∈ pool_tasks (rest_at env service i t0 w' p) -> rests t /\ lasts JOB_STAGES any t) as Hrest.
  { intros i t0 w' H0 [H|[->|[owner H]]]%rest_at_elem; [by apply Hold|done|by eapply cleanup_orderly]. }
  destruct e as [j|i|i]; cbn [pool_step Interleave.pool_step] in Ht.
  - destruct (settle _) as [t' l] eqn:Es. apply elem_of_app in Ht as [Ht|[->|Ht]%elem_of_cons]; [by apply Hold| |].
    + replace t' with (settle (job_task env net service write_completes j)).1 by (by rewrite Es).
      split; [apply settle_rests|by apply settle_lasts, job_lasts].
    + apply cleanups_elem in Ht as [owner Ht]. by eapply cleanup_orderly.
  - destruct (pool_tasks p !! i) as [t0|] eqn:Hi; [|by apply Hold].
    destruct (Hold t0) as [Hr Hl]; [by eapply list_elem_of_lookup_2|].
    destruct (advance t0 _) as [t' w'] eqn:Ha. apply (Hrest i t' w'); [|done]. split; [apply settle_rests|].
    apply settle_lasts. destruct (advance_lasts JOB_STAGES t0 (pool_world p)) as [H|H]; [|by rewrite Ha in H|done].
    eapply lasts_any_more; [|exact Hl]. lia.
  - destruct (pool_tasks p !! i) as [[| |]|] eqn:Hi; [by apply Hold| |by apply Hold..].
    apply (Hrest _ _ _) in Ht; [done|]. rewrite dropped_settles. split; [done|by apply lasts_end].
Qed.
Lemma schedule_orderly es p : Forall brief es -> orderly p -> orderly (run_schedule es p).
Proof. intros Hes. revert p. induction Hes; intros p Hp; [done|]. by apply IHHes, step_orderly. Qed.

(** The turns that task [i] gets *)
Fixpoint turns (i : nat) (es : list event) : nat :=
  match es with
  | [] => 0
  | Advance j :: es => if decide (j = i) then S (turns i es) else turns i es
  | _ :: es => turns i es
  end.

Lemma next_lasts n e i t w : rests t ->
  lasts (match e with Advance j => if decide (j = i) then S n else n | _ => n end) any t ->
  lasts n any (next_task e i t w).
Proof.
  intros Hr. destruct e as [j|j|j]; cbn [next_task]; [done| |].
  - case_decide; [|done]. intros Ht. apply settle_lasts. by destruct (advance_lasts n t w Ht).
  - destruct t; [done| |done]. case_decide; [|done]. intros _. by apply lasts_end.
Qed.
Lemma next_rests e i t w : rests t -> rests (next_task e i t w).
Proof.
  intros Hr. destruct e as [j|j|j]; cbn [next_task]; [done| |].
  - case_decide; [apply settle_rests|done].
  - destruct t; [done| |done]. by case_decide.
Qed.
Lemma turns_finish es p i t n : pool_tasks p !! i = Some t -> rests t -> lasts n any t -> n <= turns i es ->
  exists r, pool_tasks (run_schedule es p) !! i = Some (Finished r).
Proof.
  revert p t n. induction es as [|e es IH]; intros p t n Hi Hr Hl Hn.
  - assert (n = 0) as -> by (cbn [turns] in Hn; lia). destruct t as [r| |]; [by exists r|done..].
  - apply (IH (pool_step p e) (next_task e i t (pool_world p))
             (match e with Advance j => if decide (j = i) then pred n else n | _ => n end)).
    + by apply step_task.
    + by apply next_rests.
    + apply next_lasts; [done|]. destruct e as [j|j|j]; [done| |done]. case_decide; [|done].
      eapply lasts_any_more; [|exact Hl]. lia.
    + destruct e as [j|j|j]; [done| |done]. cbn [turns] in Hn. case_decide; [lia|done].
Qed.
End Finishing.
