(* ===== verification/InterleaveProps.v ===== *)
(** InterleaveProps: handlers and requests side by side.  Interleaved in any way, and
    dropped wherever the lease is not in their hands, they lose no lease; and a request
    looks after the lease it registers, wherever it is dropped, until it revokes it. *)

From Stdlib Require Import Ascii String.
From stdpp Require Import base list strings gmap.
From S2P Require Import Prelude Str BTree External Models Redaction Database Store Auth Policy Request Injection WebSocket Connector ConnectorFacts Config Leases LeaseProps Control Sessions SessionFacts Proxy ProxyFacts ProxyProps Relay RelayProps Interleave InterleaveFacts.

(** ** Who holds a lease *)

Section Holding.
Context {HL : HeaderLib} {UL : UrlLib} {EL : EncodingLib} {JL : JwtLib} {PL : PasswordLib}
  {BL : BackendLib} {WL : WebSocketLib} {ML : MessageLib}.
Context (env : Outside) (net : Network) (service : Service) (write_completes : nat -> bool).
#[local] Abbreviation IO := (io ServerData).
#[local] Abbreviation PX := (io ProxyData).
#[local] Abbreviation W := (Connector.world ProxyData).
#[local] Abbreviation state := (app_state service).
Context (h : bytes).
Implicit Types (w : W) (v : Connector.world ServerData) (item : ActiveDynamicLease).

Lemma zoom_fst {A} (m : IO A) w : (zoom m w).1 = (m (inner w)).1.
Proof. unfold zoom. by destruct (m (inner w)). Qed.
Lemma zoom_inner {A} (m : IO A) w : inner (zoom m w).2 = (m (inner w)).2.
Proof. unfold zoom. destruct (m (inner w)). apply inner_outer. Qed.

(** The entry of [h] stays as it is unless it has expired, and none appears. *)
Definition passes {A} (m : PX A) : Prop := forall w,
  later (inner w) (inner (m w).2)
  /\ match leases (inner w) !! h with
     | Some item => leases (inner (m w).2) !! h = Some item
         \/ leases (inner (m w).2) !! h = None /\ expired env (inner w) item (inner (m w).2)
     | None => leases (inner (m w).2) !! h = None
     end.

(** What a task does with the lease [h]: it holds nothing, or the given lease, and
    [Q] says what it holds when it ends. *)
Inductive carries {A} (Q : option ActiveDynamicLease -> result A -> Prop)
    : option ActiveDynamicLease -> task A -> Prop :=
| carries_finished st r : Q st r -> carries Q st (Finished r)
| carries_pass {B} held st (m : PX B) k :
    passes m -> (forall w, carries Q st (k (m w).1)) -> carries Q st (Stage held m k)
| carries_take held subject k :
    (forall taken, carries Q taken (k (Ok taken))) ->
    carries Q None (Stage held (zoom (take_for_subject env h subject)) k)
| carries_restore held item k :
    carries Q None (k (Ok true)) -> carries Q (Some item) (Stage held (zoom (restore h item)) k)
| carries_backend {B} held item (m : IO B) k (next : Connector.world ServerData -> option ActiveDynamicLease) :
    idle m ->
    (forall v, match next v with
               | None => confirmed_revoked state v item (m v).2
               | Some item' => renewed env state v item (m v).2 item'
               end) ->
    (forall v, carries Q (next v) (k (m v).1)) -> carries Q (Some item) (Stage held (zoom m) k)
| carries_spawn st s k : carries Q st k -> carries Q st (Spawn s k).

(** It ends with empty hands. *)
Definition empty_handed {A} (st : option ActiveDynamicLease) (_ : result A) : Prop := st = None.

(** The lease that was registered at [start] is in the registry and nobody holds it, or
    one task holds it, or since then its revocation was confirmed or it expired. *)
Definition at_rest start item v : Prop :=
  exists item', leases v !! h = Some item' /\ renewed env state start item v item'.
Definition over start item v : Prop :=
  confirmed_revoked state start item v
  \/ exists item', renewed env state start item v item' /\ expired env start item' v.
Definition whereabouts start item v (holders : list (option ActiveDynamicLease)) : Prop :=
  later start v
  /\ ((at_rest start item v /\ Forall (fun st => st = None) holders)
      \/ leases v !! h = None
         /\ ((exists i item', holders !! i = Some (Some item') /\ renewed env state start item v item'
               /\ forall j st, holders !! j = Some st -> j <> i -> st = None)
             \/ over start item v /\ Forall (fun st => st = None) holders)).

Lemma over_later start item v v' : later v v' -> over start item v -> over start item v'.
Proof.
  intros He [Hr|(item' & Hr & Hx)]; [left; by eapply confirmed_revoked_later|right].
  exists item'. split; [by eapply renewed_later|by eapply expired_later].
Qed.
Lemma over_expired start item v item' v' : later start v -> later v v' ->
  renewed env state start item v item' -> expired env v item' v' -> over start item v'.
Proof.
  intros H1 H2 Hr Hx. right. exists item'. split; [by eapply renewed_later|by eapply expired_later].
Qed.
Lemma over_revoked start item v item' v' : later start v -> later v v' ->
  renewed env state start item v item' -> confirmed_revoked state v item' v' -> over start item v'.
Proof.
  intros H1 H2 Hr Hv. left. eapply confirmed_revoked_same; [by eapply renewed_same|].
  by eapply confirmed_revoked_later.
Qed.

(** Holders other than the one that moves *)
Lemma none_insert i (holders : list (option ActiveDynamicLease)) :
  (forall j st, holders !! j = Some st -> j <> i -> st = None) -> Forall (fun st => st = None) (<[i := None]> holders).
Proof.
  intros H. apply Forall_lookup. intros j st Hj. apply list_lookup_insert_Some in Hj as [(-> & <- & _)|[Hne Hj]];
    [done|]. by eapply H.
Qed.
Lemma none_others holders i j st :
  Forall (fun st : option ActiveDynamicLease => st = None) holders -> holders !! j = Some st -> j <> i -> st = None.
Proof. intros H Hj _. exact (Forall_lookup_1 _ _ _ _ H Hj). Qed.
Lemma now_held start item item' v i holders st : later start v -> holders !! i = Some st ->
  leases v !! h = None -> renewed env state start item v item' ->
  (forall j st, holders !! j = Some st -> j <> i -> st = None) ->
  whereabouts start item v (<[i := Some item']> holders).
Proof.
  intros Hv Hi Hn Hs Ho. split; [done|]. right. split; [done|]. left. exists i, item'.
  rewrite list_lookup_insert_eq by (by eapply lookup_lt_Some). split_and!; [done..|].
  intros j st' Hj Hne. rewrite list_lookup_insert_ne in Hj by done. by eapply Ho.
Qed.
(** The task that holds the lease is the only one. *)
Lemma holder_known start item v i item1 holders :
  whereabouts start item v holders -> holders !! i = Some (Some item1) ->
  leases v !! h = None /\ renewed env state start item v item1
  /\ forall j st, holders !! j = Some st -> j <> i -> st = None.
Proof.
  intros [_ [[_ Hn]|[Hl [(i' & item' & Hi' & Hs & Ho)|[_ Hn]]]]] Hi.
  - by pose proof (Forall_lookup_1 _ _ _ _ Hn Hi).
  - destruct (decide (i = i')) as [->|Hne]; [|by specialize (Ho i _ Hi Hne)].
    rewrite Hi in Hi'. injection Hi' as <-. done.
  - by pose proof (Forall_lookup_1 _ _ _ _ Hn Hi).
Qed.

(** What a step leaves alone stays as it was. *)
Lemma untouched_whereabouts start item v v' holders : later v v' -> leases v' !! h = leases v !! h ->
  whereabouts start item v holders -> whereabouts start item v' holders.
Proof.
  intros Hv Hl [Hs H]. split; [by transitivity v|]. unfold at_rest. rewrite Hl.
  destruct H as [[(item' & Hi & Hr) Hn]|[Hn [(i & item' & Hi & Hr & Ho)|[Hd Ho]]]].
  - left. split; [|done]. exists item'. split; [done|by eapply renewed_later].
  - right. split; [done|]. left. exists i, item'. split_and!; [done|by eapply renewed_later|done].
  - right. split; [done|]. right. split; [by eapply over_later|done].
Qed.
Lemma pass_whereabouts {A} start item w holders (m : PX A) : passes m ->
  whereabouts start item (inner w) holders -> whereabouts start item (inner (m w).2) holders.
Proof.
  intros Hm Hw. destruct (Hm w) as [Hv Hk].
  destruct (leases (inner w) !! h) as [i|] eqn:Hi.
  - destruct Hk as [Hk|[Hk Hx]]; [by eapply untouched_whereabouts; [done|congruence|]|].
    destruct Hw as [Hs [[(item' & Hi' & Hr) Hn]|[Hn _]]]; [|congruence].
    split; [by transitivity (inner w)|]. right. split; [done|]. right. split; [|done].
    eapply over_expired; [exact Hs|done|done|congruence].
  - by eapply untouched_whereabouts; [done|congruence|].
Qed.
Lemma idle_passes {A} (m : IO A) : idle m -> passes (zoom m).
Proof.
  intros Hm w. rewrite zoom_inner. destruct (Hm (inner w)) as [-> He]. split; [done|].
  destruct (leases (inner w) !! h); auto.
Qed.
(** A stage that has nothing to do with the server's own state *)
Lemma local_passes {A} (m : PX A) :
  (forall w, server_data (server (m w).2) = server_data (server w) /\ later w (m w).2) ->
  passes m.
Proof.
  intros Hm w. destruct (Hm w) as [Hs He]. split.
  - exact He.
  - assert (leases (inner (m w).2) = leases (inner w)) as -> by (unfold leases; simpl; by rewrite Hs).
    destruct (leases (inner w) !! h); auto.
Qed.

Lemma take_moves start item v holders i subject :
  whereabouts start item v holders -> holders !! i = Some None ->
  exists taken v', take_for_subject env h subject v = (Ok taken, v')
    /\ whereabouts start item v' (<[i := taken]> holders).
Proof.
  intros Hw Hi. destruct (take_spec env h subject v) as (o & v' & Hr & He & Ho). exists o, v'. split; [done|].
  destruct o as [item1|].
  - destruct Ho as (Hh & _ & Hl). destruct Hw as [Hs [[(item' & Hi' & Hr') Hn]|[Hn _]]]; [|congruence].
    rewrite Hh in Hi'. injection Hi' as <-. eapply now_held; [by transitivity v|done| |by eapply renewed_later|].
    + by rewrite Hl, lookup_delete_eq.
    + intros j st. by apply none_others.
  - rewrite list_insert_id by done. eapply untouched_whereabouts; [done|by rewrite Ho|done].
Qed.

(** One stage of one task *)
Lemma zoom_advance {A} held (m : IO A) k w :
  advance (Stage held (zoom m) k) w
  = (k (m (inner w)).1, outer (m (inner w)).2 (contacts (server w))).
Proof. simpl. unfold zoom. by destruct (m (inner w)). Qed.
Lemma advance_whereabouts start item w holders i st t :
  whereabouts start item (inner w) holders -> holders !! i = Some st -> carries empty_handed st t ->
  exists st', carries empty_handed st' (advance t w).1
    /\ whereabouts start item (inner (advance t w).2) (<[i := st']> holders).
Proof.
  intros Hw Hi Hc.
  destruct Hc as [st r HQ|B held st m k Hp Hk|held subject k Hk|held item1 k Hk|B held item1 m k next Hm Hn' Hk|st s k Hk].
  - exists st. rewrite list_insert_id by done. split; [by constructor|done].
  - specialize (Hk w). pose proof (pass_whereabouts start item w holders m Hp Hw) as Hw'. simpl.
    destruct (m w) as [r w']. exists st. by rewrite list_insert_id.
  - rewrite zoom_advance. cbn [fst snd]. rewrite inner_outer.
    destruct (take_moves start item (inner w) holders i subject Hw Hi) as (taken & w' & -> & Hw'). by exists taken.
  - destruct (holder_known _ _ _ _ _ _ Hw Hi) as (Hn & Hs & Ho). rewrite zoom_advance. cbn [fst snd].
    rewrite inner_outer. destruct (restore_run h item1 (inner w) Hn) as (w' & -> & Hl & He). cbn [fst snd].
    exists None. split; [done|]. split; [transitivity (inner w); [apply Hw|done]|]. left.
    split; [|by apply none_insert]. exists item1. rewrite Hl, lookup_insert_eq.
    split; [done|by eapply renewed_later].
  - destruct (holder_known _ _ _ _ _ _ Hw Hi) as (Hn & Hs & Ho). rewrite zoom_advance. cbn [fst snd].
    rewrite inner_outer. specialize (Hk (inner w)). specialize (Hn' (inner w)).
    destruct (Hm (inner w)) as [Hl He]. exists (next (inner w)). split; [done|].
    destruct Hw as [Hst _].
    destruct (next (inner w)) as [item'|].
    + eapply now_held; [by transitivity (inner w)|done|by rewrite Hl| |done].
      by eapply (renewed_trans _ _ _ _ (inner w)).
    + split; [by transitivity (inner w)|]. right. split; [by rewrite Hl|]. right.
      split; [by eapply over_revoked|by apply none_insert].
  - exists st. rewrite list_insert_id by done. split; [by constructor|done].
Qed.
Lemma settle_carries {st t} : carries empty_handed st t -> carries empty_handed st (settle t).1.
Proof.
  revert st. induction t as [r|B held m k IH|s k IH]; intros st Hc; [done..|]. simpl.
  destruct (settle k) as [t l]. apply IH. by inversion Hc; subst.
Qed.

(** ** Building tasks *)

Lemma carries_bind {A B} Q R st (t : task A) (f : A -> task B) : carries Q st t ->
  (forall st a, Q st (Ok a) -> carries R st (f a)) -> (forall st e, Q st (Err e) -> R st (Err e)) ->
  carries R st (t ≫= f).
Proof.
  intros Ht Hf He. induction Ht as [st [a|e] HQ|C held st m k Hp Hk IH|held subject k Hk IH|held item k Hk IH
    |C held item m k next Hm Hn Hk IH|st s k Hk IH].
  - by apply Hf.
  - constructor. by apply He.
  - by apply carries_pass.
  - by apply carries_take.
  - by apply carries_restore.
  - by apply (carries_backend _ _ _ _ _ next).
  - by apply carries_spawn.
Qed.
Lemma carries_caught {A} st (t : task A) : carries empty_handed st t -> carries empty_handed st (caught t).
Proof.
  induction 1; simpl; [by constructor|by apply carries_pass|by apply carries_take
    |by apply carries_restore|by eapply carries_backend|by apply carries_spawn].
Qed.
Lemma carries_owning {A} st lease (t : task A) : carries empty_handed st t -> carries empty_handed st (owning lease t).
Proof.
  induction 1; simpl; [by constructor|by apply carries_pass|by apply carries_take
    |by apply carries_restore|by eapply carries_backend|by apply carries_spawn].
Qed.

(** Where nothing is held, an error may end the task at any stage. *)
#[local] Abbreviation free := (carries empty_handed None).
#[local] Abbreviation holds item := (carries empty_handed (Some item)).

Lemma free_end {A} (r : result A) : free (Finished r).
Proof. by constructor. Qed.
Lemma free_ret {A} (a : A) : free (mret (M := task) a).
Proof. by constructor. Qed.
Lemma free_bind {A B} (t : task A) (f : A -> task B) : free t -> (forall a, free (f a)) -> free (t ≫= f).
Proof. intros Ht Hf. eapply carries_bind; [exact Ht| |done]. intros st a ->. apply Hf. Qed.
Lemma free_await {A} (m : PX A) : passes m -> free (await m).
Proof. intros Hm. apply carries_pass; [done|]. intros w. by constructor. Qed.
Lemma free_take {A} subject (f : option ActiveDynamicLease -> task A) :
  (forall item, holds item (f (Some item))) -> free (f None) ->
  free (stage (take_for_subject env h subject) ≫= f).
Proof. intros Hs Hn. apply carries_take. intros [item|]; [apply Hs|apply Hn]. Qed.
Lemma free_take_or_fail {A} subject msg (g : ActiveDynamicLease -> task A) :
  (forall item, holds item (g item)) ->
  free (item ← stage (take_for_subject env h subject); item ← Finished (ok_or item msg); g item).
Proof. intros Hg. apply free_take; [exact Hg|apply free_end]. Qed.

Lemma holds_restore {A} item (f : bool -> task A) : free (f true) -> holds item (stage (restore h item) ≫= f).
Proof. intros Hf. by apply carries_restore. Qed.
Lemma holds_revoke {A} item (m : IO unit) (f : result unit -> task A) : revokes state item m ->
  free (f (Ok ())) -> (forall e, holds item (f (Err e))) -> holds item (stage (attempt m) ≫= f).
Proof.
  intros [Hi Hr] Hok Herr.
  apply (carries_backend _ _ _ _ _ (fun v => match (m v).1 with Ok _ => None | Err _ => Some item end)).
  - by apply idle_attempt.
  - intros v. specialize (Hr v). unfold attempt. destruct (m v) as [[[]|e] v']; [by apply Hr|constructor].
  - intros v. unfold attempt. destruct (m v) as [[[]|e] v']; [apply Hok|apply Herr].
Qed.
Lemma holds_revoke_or_restore {A} item (m : IO unit) (f : result unit -> task A) : revokes state item m ->
  (forall r, free (f r)) -> holds item (revoke_or_restore_task m h item ≫= f).
Proof.
  intros Hm Hf. eapply (carries_bind empty_handed); [|intros st a ->; apply Hf|done].
  apply holds_revoke; [done|apply free_ret|intros e]. apply holds_restore, free_ret.
Qed.
Lemma holds_renew {A} item c (f : result unit * BackendLease -> task A) :
  bt_get (connectors state) (lease_connector item) = Some c ->
  (forall r l, holds (with_lease item l) (f (r, l))) ->
  holds item (stage (connector_renew env c (backend_lease item)) ≫= f).
Proof.
  intros Hc Hf.
  apply (carries_backend _ _ _ _ _ (fun v =>
    match (connector_renew env c (backend_lease item) v).1 with
    | Ok (_, l) => Some (with_lease item l) | Err _ => Some item end)); [apply idle_connector_renew|..];
    intros v; destruct (total_connector_renew env c (backend_lease item) v) as [[r l] Ha];
    destruct (connector_renew env c (backend_lease item) v) as [x v'] eqn:E; cbn [fst] in *; subst.
  - by eapply renewed_once.
  - apply Hf.
Qed.

(** ** Stages that leave [h] alone *)

Lemma affects_passes {A} handle (m : IO A) : handle <> h -> affects (eq handle) m -> passes (zoom m).
Proof.
  intros Hne Hm w. rewrite zoom_inner. destruct (Hm (inner w)) as [Ha He]. split; [done|].
  rewrite (Ha h) by done. destruct (leases (inner w) !! h); auto.
Qed.

(** A new handle is random, and [h] is not drawn again. *)
Context (fresh : forall n, &"av_lease_" ++ base64_url_safe_no_pad (random_bytes env n) <> h).

Lemma selected_fresh n m v v' : select_handle env n m v = (Ok (Some h), v') -> False.
Proof.
  revert v. induction n as [|n IH]; intros v H; [done|]. cbn [select_handle] in H.
  apply io_bind_ok in H as (random & w1 & Ho & H). injection Ho as <- <-. cbv zeta in H.
  case_bool_decide; [by eapply IH|]. injection H as H _. by apply fresh in H.
Qed.
Lemma insert_fresh item v v' : registry_insert env item v = (Ok (inl h), v') -> False.
Proof.
  unfold registry_insert. intros H. do 3 apply io_bind_ok in H as (? & ? & _ & H).
  case_match; [done|]. apply io_bind_ok in H as ([handle|] & w2 & Hs & H); [|done].
  apply io_bind_ok in H as ([] & w3 & _ & H). injection H as -> _. by eapply selected_fresh.
Qed.
Lemma insert_passes item : passes (zoom (registry_insert env item)).
Proof.
  intros w. rewrite zoom_inner. set (v := inner w). destruct (insert_spec env item v) as (o & v1 & Hr & He & Hlt & Ho).
  rewrite Hr. cbn [snd]. split; [done|]. cbv zeta in Ho. set (kept := filter _ _) in Ho.
  assert (leases v1 !! h = kept !! h) as ->.
  { destruct o as [handle|item']; [|by destruct Ho as [_ ->]]. destruct Ho as (_ & -> & _).
    rewrite lookup_insert_ne; [done|]. intros ->. by eapply insert_fresh. }
  subst kept. destruct (leases v !! h) as [i|] eqn:Hi.
  - destruct (Z.lt_ge_cases (system_time env (calls v)) (expires_at (backend_lease i))).
    + left. by apply map_lookup_filter_Some.
    + right. split; [|exists (calls v); split; [split; [done|exact Hlt]|done]].
      apply map_lookup_filter_None. right. intros i' Hi'. rewrite Hi in Hi'. injection Hi' as <-.
      by apply Z.le_ngt.
  - apply map_lookup_filter_None. by left.
Qed.

(** ** The handlers *)

Create HintDb free.
#[local] Hint Resolve free_end free_ret : free.
Lemma free_idle {A} (m : IO A) : idle m -> free (stage m).
Proof. intros Hm. by apply free_await, idle_passes. Qed.
#[local] Hint Resolve free_idle idle_attempt idle_context idle_authorize_connect idle_revoke
  idle_connector_revoke idle_connector_renew idle_audit idle_permitted idle_acquire_secrets
  idle_with_store : free.

Ltac go_free := repeat first
  [ solve [auto with free] | apply free_bind; [|intros ?] | progress cbv beta zeta | case_match ].

(** Registration ends with a handle other than [h]. *)
Lemma register_other subject name profile l invalid full :
  carries (fun st r => st = None /\ forall handle e, r = Ok (handle, e) -> handle <> h) None
    (register_lease_task env service subject name profile l invalid full).
Proof.
  unfold register_lease_task. cbv zeta. case_match.
  - apply carries_pass; [apply insert_passes|]. intros w. rewrite zoom_fst.
    destruct (registry_insert env _ (inner w)) as [[[handle|item]|e] w'] eqn:E; cbn [fst].
    + constructor. split; [done|]. intros handle' e' [= <- _] ->. by eapply insert_fresh.
    + apply carries_pass; [apply idle_passes; auto with free|]. intros w2. rewrite zoom_fst.
      by destruct (attempt _ (inner w2)) as [[]]; constructor.
    + by constructor.
  - apply carries_pass; [apply idle_passes; auto with free|]. intros w. rewrite zoom_fst.
    by destruct (attempt _ (inner w)) as [[]]; constructor.
Qed.
Lemma register_free {A} subject name profile l invalid full (f : bytes * Z -> task A) :
  (forall handle e, handle <> h -> free (f (handle, e))) ->
  free (register_lease_task env service subject name profile l invalid full ≫= f).
Proof.
  intros Hf. eapply carries_bind; [apply register_other| |by intros st e [-> _]].
  intros st [handle e] [-> Hne]. apply Hf. by eapply Hne.
Qed.

Lemma take_other_free handle subject : handle <> h -> free (stage (take_for_subject env handle subject)).
Proof. intros Hne. by apply free_await, (affects_passes handle), affects_take. Qed.
Lemma restore_other_free handle item : handle <> h -> free (stage (restore handle item)).
Proof. intros Hne. by apply free_await, (affects_passes handle), affects_restore. Qed.
#[local] Hint Resolve take_other_free restore_other_free : free.
Lemma revoke_or_restore_free m handle item : idle m -> handle <> h -> free (revoke_or_restore_task m handle item).
Proof. intros Hm Hne. unfold revoke_or_restore_task. go_free. Qed.
#[local] Hint Resolve revoke_or_restore_free : free.

Lemma get_environment_free headers p e : free (get_profile_environment_task env service headers p e).
Proof.
  unfold get_profile_environment_task. do 6 (apply free_bind; [auto with free|intros ?]).
  destruct (lease _) as [l|]; [apply register_free; intros handle expires Hne; go_free|].
  apply (free_bind (stage (attempt _))); [auto with free|]. intros [[]|msg]; cbn [is_empty]; go_free.
Qed.
Lemma acquire_owned_free name p s : free (acquire_owned_proxy_secrets_task env service name p s).
Proof.
  unfold acquire_owned_proxy_secrets_task. apply free_bind; [auto with free|intros a].
  destruct (lease a); [apply register_free; intros|]; go_free.
Qed.
Lemma fetch_secrets_free p : free (fetch_secrets_task env service p).
Proof. unfold fetch_secrets_task. go_free. Qed.
Lemma renew_environment_other_free headers handle : handle <> h ->
  free (renew_profile_environment_lease_task env service headers handle).
Proof. intros Hne. unfold renew_profile_environment_lease_task. go_free. Qed.

(** The renewal and the revocations take any lease, [h] among them. *)
Lemma renew_registered_free handle s : free (renew_registered_dynamic_lease_task env service handle s).
Proof.
  unfold renew_registered_dynamic_lease_task. destruct (decide (handle = h)) as [->|Hne]; [|go_free].
  apply free_take_or_fail. intros item.
  destruct (bt_get _ _) as [c|] eqn:Hc; [|apply holds_restore, free_end].
  destruct (lease_renewable _); cbn [negb]; [|apply holds_revoke_or_restore; [by apply revokes_connector|auto with free]].
  apply holds_renew; [done|]. intros r l. cbv zeta. destruct r as [|e].
  2: apply holds_revoke_or_restore; [by apply revokes_connector|auto with free].
  destruct (dynamic_lease_expiry l); [|apply holds_revoke_or_restore; [apply revokes_dynamic|auto with free]].
  apply holds_restore, free_ret.
Qed.
Lemma revoke_registered_free handle s : free (revoke_registered_dynamic_lease_task env service handle s).
Proof.
  unfold revoke_registered_dynamic_lease_task. destruct (decide (handle = h)) as [->|Hne]; [|go_free].
  apply free_take; [intros item|auto with free].
  apply holds_revoke_or_restore; [apply revokes_dynamic|auto with free].
Qed.
Lemma revoke_environment_free headers handle :
  free (revoke_profile_environment_lease_task env service headers handle).
Proof.
  unfold revoke_profile_environment_lease_task.
  destruct (decide (handle = h)) as [->|Hne]; [|go_free].
  do 2 (apply free_bind; [auto with free|intros ?]).
  apply free_take_or_fail. intros item.
  apply holds_revoke_or_restore; [apply revokes_dynamic|]. intros [[]|e]; go_free.
Qed.
#[local] Hint Resolve get_environment_free acquire_owned_free fetch_secrets_free
  renew_registered_free revoke_registered_free revoke_environment_free
  renew_environment_other_free : free.

Lemma caught_free {A} (t : task A) : free t -> free (caught t).
Proof. apply carries_caught. Qed.
#[local] Hint Resolve caught_free : free.
Lemma owner_drop_free owner : free (owner_drop_task env service owner).
Proof. unfold owner_drop_task. go_free. Qed.
#[local] Hint Resolve owner_drop_free : free.
Lemma lease_task_free o : ~ renews_environment h o -> free (lease_task env service o).
Proof. destruct o; cbn [lease_task renews_environment]; intros Hne; go_free. Qed.

(** ** Requests *)

Lemma send_free rq : free (await (send_upstream net rq)).
Proof.
  apply free_await, local_passes. intros w.
  unfold send_upstream, contact, mbind, io_bind, get_server, set_server, outside. simpl.
  by destruct (upstream_send net (calls w) rq); (split; [done|solve_later]).
Qed.
Lemma outside_free {A} (f : nat -> A) : free (await (outside f)).
Proof. apply free_await, local_passes. intros w. split; [done|solve_later]. Qed.
Lemma pause_free : free pause.
Proof. apply free_await, local_passes. intros w. split; [done|solve_later]. Qed.
Lemma spawn_free s : free (spawn s).
Proof. by apply carries_spawn, free_ret. Qed.
Lemma owning_free {A} lease (t : task A) : free t -> free (owning lease t).
Proof. apply carries_owning. Qed.
Lemma drop_lease_free lease : free (drop_lease_task lease).
Proof. destruct lease; [apply spawn_free|apply free_ret]. Qed.
#[local] Hint Resolve send_free outside_free pause_free spawn_free owning_free drop_lease_free : free.
Lemma owner_revoke_free o : free (owner_revoke_task env service o).
Proof. unfold owner_revoke_task. go_free. Qed.
#[local] Hint Resolve owner_revoke_free : free.
Lemma revoke_lease_free lease : free (revoke_lease_task env service lease).
Proof. unfold revoke_lease_task. go_free. Qed.
Lemma guarded_free {A} lease (t : task A) : free t -> free (guarded_task lease t).
Proof. intros Ht. unfold guarded_task. go_free. Qed.
Lemma read_buffered_free maximum acc chunks : free (read_buffered_task maximum acc chunks).
Proof.
  revert acc. induction chunks as [|[chunk|] chunks IH]; intros acc; (apply free_bind; [auto with free|intros _]); go_free.
Qed.
#[local] Hint Resolve revoke_lease_free read_buffered_free : free.
Lemma context_free {A} (t : task A) msg : free t -> free (context_task t msg).
Proof. intros Ht. unfold context_task. go_free. Qed.
#[local] Hint Resolve context_free : free.
Lemma or_answer_free {A B} (t : task A) (e : B) k : free t -> (forall a, free (k a)) -> free (or_answer t e k).
Proof. intros Ht Hk. apply free_bind; [auto with free|]. intros []; auto with free. Qed.
Ltac go_request := repeat first
  [ solve [auto with free] | apply or_answer_free; [|intros ?] | apply guarded_free
  | apply free_bind; [|intros ?] | progress cbv beta zeta | case_match ].

Lemma proxy_request_free route context body : free (proxy_request_task env net service route context body).
Proof. unfold proxy_request_task. go_request. Qed.
Lemma websocket_request_free route context token_hash i :
  free (proxy_websocket_request_task env net service route context token_hash i).
Proof. unfold proxy_websocket_request_task. go_request. Qed.
#[local] Hint Resolve proxy_request_free websocket_request_free : free.
Lemma proxy_free route_name path q method headers body :
  free (proxy_task env net service route_name path q method headers body).
Proof. unfold proxy_task. go_request. Qed.
Lemma tunnel_free request route_name token_hash i :
  free (transparent_tunnel_response_task env net service request route_name token_hash i).
Proof. unfold transparent_tunnel_response_task. cbv zeta. go_request. Qed.
Lemma read_stream_free maximum redactor total lease chunks :
  free (read_stream_task env service maximum redactor total lease chunks).
Proof.
  revert redactor total. induction chunks as [|[chunk|] chunks IH]; intros redactor total;
    (apply free_bind; [auto with free|intros _]); cbv zeta; go_request.
Qed.
Lemma stream_next_free s : free (stream_next_task env service s).
Proof. unfold stream_next_task. case_match; [apply free_ret|apply read_stream_free]. Qed.
#[local] Hint Resolve stream_next_free : free.
Lemma serve_body_free polls s : free (serve_body_task env service polls s).
Proof. revert s. induction polls as [|polls IH]; intros s; cbn [serve_body_task]; go_free. Qed.

(** ** Relays *)

Lemma session_check_free session : free (session_check_task service session).
Proof.
  apply free_bind; [|intros ?; apply free_end]. unfold websocket_session_is_active_task. go_free.
Qed.
Lemma idle_renewal_delay expires : idle (dynamic_proxy_renewal_delay env expires).
Proof. apply idle_quiet. do 2 (apply quiet_bind; [auto with av|intros ?]). auto with av. Qed.
Lemma idle_forward session from message r : idle (forward write_completes session from message r).
Proof.
  apply idle_quiet. unfold forward. cbv zeta. case_match; [auto with av|]. case_match; [|auto with av].
  apply quiet_bind; auto with av.
Qed.
#[local] Hint Resolve session_check_free idle_renewal_delay idle_forward : free.
Lemma renew_lease_free session r : free (renew_lease_task env service session r).
Proof. unfold renew_lease_task, owner_renew_task. go_free. Qed.
#[local] Hint Resolve renew_lease_free : free.
Lemma relay_step_free session event r : free (relay_step_task env service write_completes session event r).
Proof. destruct event as [| | |from [| |message]]; cbn [relay_step_task]; go_free. Qed.
Lemma relay_loop_free session events r : free (relay_loop_task env service write_completes session events r).
Proof.
  revert r. induction events as [|event events IH]; intros r; cbn [relay_loop_task]; [apply free_ret|].
  apply free_bind; [apply owning_free, free_bind; [apply pause_free|intros _; apply relay_step_free]|].
  intros [r'|outcome r']; auto with free.
Qed.
#[local] Hint Resolve relay_loop_free : free.
Lemma relay_free session events : free (relay_websocket_streams_task env service write_completes session events).
Proof. unfold relay_websocket_streams_task. cbv zeta. go_free. Qed.

Definition renews_lease (j : job) : Prop := match j with LeaseJob o => renews_environment h o | _ => False end.
Lemma job_free j : ~ renews_lease j -> free (job_task env net service write_completes j).
Proof.
  destruct j as [o|name path q method headers body polls|request name token i polls|session events];
    cbn [job_task renews_lease]; intros Hj.
  - by apply lease_task_free.
  - apply free_bind; [apply proxy_free|]. intros r. unfold serve_response_task. case_match; auto using serve_body_free with free.
  - apply free_bind; [apply tunnel_free|]. intros [r ?]. unfold serve_response_task. case_match; auto using serve_body_free with free.
  - apply free_bind; [apply relay_free|auto with free].
Qed.

(** ** Schedules *)

#[local] Abbreviation pool_step := (pool_step env net service write_completes).
#[local] Abbreviation run_schedule := (run_schedule env net service write_completes).
Implicit Types p : pool.

(** Nothing renews [h] as an environment lease, and tasks are dropped only while [h] is
    in the registry. *)
Definition allowed p (e : event) : Prop :=
  match e with
  | Start j => ~ renews_lease j
  | Advance _ => True
  | Drop _ => is_Some (leases (inner (pool_world p)) !! h)
  end.
Fixpoint undisturbed (es : list event) p : Prop :=
  match es with [] => True | e :: es => allowed p e /\ undisturbed es (pool_step p e) end.

(** One holder for every task *)
Definition accounted start item p : Prop := exists holders,
  Forall2 (carries empty_handed) holders (pool_tasks p) /\ whereabouts start item (inner (pool_world p)) holders.

Lemma whereabouts_app start item v holders n :
  whereabouts start item v holders -> whereabouts start item v (holders ++ replicate n None).
Proof.
  assert (Forall (fun st : option ActiveDynamicLease => st = None) holders ->
          Forall (fun st => st = None) (holders ++ replicate n None)) as Happ
    by (intros H; apply Forall_app; split; [done|by apply Forall_replicate]).
  intros [Hv H]. split; [done|]. revert H.
  intros [[Ha Hn]|[Hl [(i & item' & Hi & Hs & Ho)|[Hd Hn]]]]; [left|right..]; split; auto.
  left. exists i, item'. rewrite lookup_app_l by (by eapply lookup_lt_Some). split_and!; [done..|].
  intros j st Hj Hne. apply lookup_app_Some in Hj as [Hj|[_ Hj]]; [by eapply Ho|].
  by apply lookup_replicate in Hj as [-> _].
Qed.
Lemma cleanups_free started :
  Forall2 (carries empty_handed) (replicate (length (cleanups env service started)) None) (cleanups env service started).
Proof.
  apply Forall2_replicate_l; [done|]. apply Forall_forall. intros t Ht.
  apply cleanups_elem in Ht as [owner ->]. apply owner_drop_free.
Qed.
Lemma rest_accounted start item holders i st t w p : Forall2 (carries empty_handed) holders (pool_tasks p) ->
  carries empty_handed st t -> whereabouts start item (inner w) (<[i := st]> holders) ->
  accounted start item (rest_at env service i t w p).
Proof.
  intros Ht Hc Hw. unfold rest_at. pose proof (settle_carries Hc) as Hs. destruct (settle t) as [t' started].
  eexists. split; [|by eapply whereabouts_app, Hw]. apply Forall2_app; [by apply Forall2_insert|apply cleanups_free].
Qed.

Lemma advance_accounted start item p i : accounted start item p -> accounted start item (pool_step p (Advance i)).
Proof.
  intros (holders & Ht & Hw). simpl. destruct (pool_tasks p !! i) as [t|] eqn:Hi; [|by exists holders].
  destruct (Forall2_lookup_r _ _ _ _ _ Ht Hi) as (st & Hst & Hc).
  destruct (advance_whereabouts _ _ _ _ _ _ _ Hw Hst Hc) as (st' & Hc' & Hw').
  destruct (advance t (pool_world p)) as [t' w']. by eapply rest_accounted.
Qed.
Lemma drop_accounted start item p i : is_Some (leases (inner (pool_world p)) !! h) ->
  accounted start item p -> accounted start item (pool_step p (Drop i)).
Proof.
  intros Hin (holders & Ht & Hw). simpl.
  destruct (pool_tasks p !! i) as [[r|B held m k|s k]|] eqn:Hi; [by exists holders| |by exists holders..].
  eapply (rest_accounted _ _ _ _ None); [done|apply free_bind; [apply drop_lease_free|intros _; apply free_end]|].
  destruct Hw as [Hv [[Ha Hn]|[Hn _]]]; [|by rewrite Hn in Hin; destruct Hin].
  split; [done|]. left. split; [done|]. apply none_insert. intros j st Hj _. exact (Forall_lookup_1 _ _ _ _ Hn Hj).
Qed.
Lemma start_accounted start item p j : ~ renews_lease j -> accounted start item p -> accounted start item (pool_step p (Start j)).
Proof.
  intros Hj (holders & Ht & Hw). simpl. pose proof (settle_carries (job_free j Hj)) as Hs.
  destruct (settle _) as [t started]. exists (holders ++ replicate (S (length (cleanups env service started))) None).
  split; [|by apply whereabouts_app]. apply Forall2_app; [done|]. constructor; [done|apply cleanups_free].
Qed.
Lemma schedule_accounted start item es p : undisturbed es p -> accounted start item p -> accounted start item (run_schedule es p).
Proof.
  revert p. induction es as [|e es IH]; intros p He Hp; [done|]. destruct He as [He Hes].
  apply (IH (pool_step p e) Hes). destruct e as [j|i|i]; [by apply start_accounted|by apply advance_accounted|].
  by apply drop_accounted.
Qed.

Lemma at_rest_fate start item v : at_rest start item v -> fate env state start h item v.
Proof. intros (item' & Hi & Hs). by eapply Kept. Qed.
Lemma over_fate start item v : over start item v -> fate env state start h item v.
Proof. intros [Hr|(item' & Hs & Hx)]; [by apply Revoked|by eapply Expired]. Qed.
Lemma nobody_settled start item v holders : whereabouts start item v holders ->
  Forall (fun st => st = None) holders -> fate env state start h item v.
Proof.
  intros [_ [[Ha _]|[_ [(i & item' & Hi & _)|[Hd _]]]]] Hn; [by apply at_rest_fate| |by apply over_fate].
  by pose proof (Forall_lookup_1 _ _ _ _ Hn Hi).
Qed.

(** Task [i] is the only one that may hold the lease. *)
Definition accounted_by start i item p : Prop := exists holders,
  Forall2 (carries empty_handed) holders (pool_tasks p) /\ whereabouts start item (inner (pool_world p)) holders
  /\ forall j st, holders !! j = Some st -> j <> i -> st = None.
Lemma advance_accounted_by start i item p : accounted_by start i item p -> accounted_by start i item (pool_step p (Advance i)).
Proof.
  intros (holders & Ht & Hw & Ho). simpl. destruct (pool_tasks p !! i) as [t|] eqn:Hi; [|by exists holders].
  destruct (Forall2_lookup_r _ _ _ _ _ Ht Hi) as (st & Hst & Hc).
  destruct (advance_whereabouts _ _ _ _ _ _ _ Hw Hst Hc) as (st' & Hc' & Hw').
  destruct (advance t (pool_world p)) as [t' w']. unfold rest_at.
  pose proof (settle_carries Hc') as Hs. cbn [fst snd] in *. destruct (settle t') as [t1 started].
  eexists. split_and!; [apply Forall2_app; [by apply Forall2_insert|apply cleanups_free]|by apply whereabouts_app|].
  intros j st1 [Hj|[_ [-> _]%lookup_replicate]]%lookup_app_Some Hne; [|done].
  rewrite list_lookup_insert_ne in Hj by done. by eapply Ho.
Qed.
Lemma turns_accounted_by n start i item p : accounted_by start i item p ->
  accounted_by start i item (run_schedule (replicate n (Advance i)) p).
Proof. revert p. induction n as [|n IH]; intros p Hp; [done|]. by apply IH, advance_accounted_by. Qed.
Lemma finished_fate start i item p r : accounted_by start i item p -> pool_tasks p !! i = Some (Finished r) ->
  fate env state start h item (inner (pool_world p)).
Proof.
  intros (holders & Ht & Hw & Ho) Hi. eapply nobody_settled; [done|]. apply Forall_lookup. intros j st Hj.
  destruct (decide (j = i)) as [->|]; [|by eapply Ho].
  destruct (Forall2_lookup_l _ _ _ _ _ Ht Hj) as (t & Htj & Hc). rewrite Hi in Htj. injection Htj as <-.
  by inversion Hc.
Qed.
Lemma turns_replicate i n : turns i (replicate n (Advance i)) = n.
Proof. induction n as [|n IH]; simpl; [done|]. rewrite decide_True by done. by f_equal. Qed.

Definition idle_pool w : pool := {| pool_world := w; pool_tasks := []; pool_relays := [] |}.
Context (N : nat) (chunked : forall n rq r, upstream_send net n rq = Some r -> length (us_chunks r) <= N).

(** C11: however requests, relays and lease handlers are interleaved, and wherever they
    are dropped while the lease is in the registry, no registered lease is lost.  At
    every moment the lease is registered under its handle, or its backend has confirmed
    its revocation, or it has expired, or it is in the hands of one unfinished task,
    which settles it in one of these ways with the turns it still needs.  Every task
    ends within [JOB_STAGES] turns of its own, whatever else happens in between, against
    upstreams that send at most [N] chunks and with at most [N] events for a relay.  The
    handle is not drawn again at random, and the renewal handler for environment leases
    on this lease is left out. *)
Theorem interleaved_leases_conserved es w item :
  undisturbed es (idle_pool w) -> Forall (brief N) es -> leases (inner w) !! h = Some item ->
  let p := run_schedule es (idle_pool w) in
  (fate env state (inner w) h item (inner (pool_world p))
   \/ leases (inner (pool_world p)) !! h = None
      /\ exists i t, pool_tasks p !! i = Some t /\ finished t = false
           /\ fate env state (inner w) h item
                (inner (pool_world (run_schedule (replicate (JOB_STAGES N) (Advance i)) p))))
  /\ forall i es', i < length (pool_tasks p) -> JOB_STAGES N <= turns i es' ->
       exists r, pool_tasks (run_schedule es' p) !! i = Some (Finished r).
Proof.
  intros He Hb Hh p.
  assert (accounted (inner w) item p) as (holders & Ht & Hw).
  { apply schedule_accounted; [done|]. exists []. split; [constructor|]. split; [done|]. left.
    split; [|constructor]. exists item. split; [done|constructor]. }
  assert (forall i es', i < length (pool_tasks p) -> JOB_STAGES N <= turns i es' ->
       exists r, pool_tasks (run_schedule es' p) !! i = Some (Finished r)) as Hend.
  { intros i es' [t Hi]%lookup_lt_is_Some Hn. pose proof (schedule_orderly env net service write_completes N chunked es (idle_pool w)
      Hb ltac:(constructor)) as Hp. destruct (Forall_lookup_1 _ _ _ _ Hp Hi) as [Hr Hl]. by eapply turns_finish. }
  split; [|done]. pose proof Hw as [_ [[Ha _]|[Hl [(i & item' & Hi & _ & Ho)|[Hd _]]]]];
    [left; by apply at_rest_fate|right|left; by apply over_fate].
  split; [done|]. destruct (Forall2_lookup_l _ _ _ _ _ Ht Hi) as (t & Hti & Hc). exists i, t.
  split; [done|]. split; [by inversion Hc|].
  destruct (Hend i (replicate (JOB_STAGES N) (Advance i))) as [r Hr];
    [by eapply lookup_lt_Some|by rewrite turns_replicate|].
  eapply finished_fate; [|exact Hr]. apply turns_accounted_by. by exists holders.
Qed.
End Holding.

(** ** Schedules of concrete handlers *)

Module InterleaveModels.
Import Models AuthModels ConnectorModels LeaseModels SessionModels ProxyModels RelayModels.

#[local] Abbreviation outside := (outside_world 200).
#[local] Abbreviation run := (run_schedule outside network proxying (fun _ => true)).
Definition quiet_pool : pool := idle_pool holding_px.
Definition granted_pool : pool := idle_pool {|
  calls := 0; exchanges := []; tokens := ∅;
  server := {| contacts := []; server_data := {| active := {[handle := item]};
    database := {| tables := granted_tables; clock := Some 10%Z; outcomes := [] |}; keys := cold |} |} |}.

(** A request is dropped while its upstream answers, and then a renewal takes the
    lease of another. *)
Definition proxied_job : job := ProxyJob &"items" &"/health" None &"GET" as_agent [] 0.
Definition busy : list event :=
  Start proxied_job :: replicate 5 (Advance 0)
  ++ [Drop 0; Start (LeaseJob (RenewOwned handle &"agent:bot")); Advance 2].

Lemma interleaved_leases_conserved_witness :
  let p := run busy granted_pool in
  leases (inner (pool_world p)) !! handle = None
  /\ (fate outside (app_state proxying) (inner (pool_world granted_pool)) handle item (inner (pool_world p))
      \/ exists i t, pool_tasks p !! i = Some t /\ finished t = false
           /\ fate outside (app_state proxying) (inner (pool_world granted_pool)) handle item
                (inner (pool_world (run (replicate (JOB_STAGES 2) (Advance i)) p)))).
Proof.
  split; [vm_compute; reflexivity|].
  destruct (interleaved_leases_conserved outside network proxying (fun _ => true) handle) with (N := 2) (es := busy)
    (w := pool_world granted_pool) (item := item) as [[Hf|[_ Hh]] _].
  - intros n H. vm_compute in H. discriminate H.
  - intros n rq r [= <-]. apply Nat.le_refl.
  - vm_compute. repeat split; try (by intros ?); by eexists.
  - repeat constructor.
  - reflexivity.
  - left. exact Hf.
  - right. exact Hh.
Defined.

(** A renewal has taken the lease when a revocation looks for it: the revocation reports
    success, and the lease lives on. *)
Example raced_revocation_reports_success :
  let p := run [Start (LeaseJob (RenewOwned handle &"agent:bot")); Start (LeaseJob (RevokeOwned handle &"agent:bot"));
                Advance 0; Advance 1; Advance 0; Advance 0] quiet_pool in
  (t ← pool_tasks p !! 1; match t with Finished r => Some r | _ => None end) = Some (Ok ())
  /\ size (leases (inner (pool_world p))) = 1.
Proof. cbv zeta. split; vm_compute; reflexivity. Qed.

(** A handler that is dropped between taking a lease and giving it back loses it: it
    has left the registry, and no request has been sent to its backend. *)
Example dropped_handler_loses_lease :
  let p := run [Start (LeaseJob (RevokeEnvironment as_agent handle)); Advance 0; Advance 0; Drop 0] quiet_pool in
  size (leases (inner (pool_world p))) = 0 /\ exchanges (pool_world p) = []
  /\ finished <$> pool_tasks p = [true].
Proof. cbv zeta. split_and!; vm_compute; reflexivity. Qed.

(** The limit of the registry is checked when a lease is inserted, not when one is put
    back: while a renewal holds a lease of a full registry another is registered in its
    place, and then there is one too many. *)
Definition digits (n : nat) : bytes :=
  (fun i => if Nat.testbit n i then "1"%char else "0"%char) <$> seq 0 10.
Definition full_house : pool := idle_pool (outer {|
  calls := 0; exchanges := []; tokens := ∅;
  server := {|
    active := <[handle := item]> (list_to_map ((fun n => (digits n, item)) <$> seq 1 1023));
    database := database (server (holding [])); keys := keys (server (holding [])) |} |} []).
Example restored_lease_exceeds_limit :
  size (leases (inner (pool_world full_house))) = MAX_ACTIVE_DYNAMIC_LEASES
  /\ size (leases (inner (pool_world (run
       [Start (LeaseJob (RenewOwned handle &"agent:bot")); Advance 0;
        Start (LeaseJob (AcquireOwned &"deploy" one_export &"agent:bot")); Advance 1; Advance 1;
        Advance 0; Advance 0] full_house)))) = S MAX_ACTIVE_DYNAMIC_LEASES.
Proof. split; vm_compute; reflexivity. Qed.
End InterleaveModels.
