(* ===== verification/OwnershipProps.v ===== *)
(** OwnershipProps: who looks after the lease of a request.  From its registration on, a
    request owns its lease at every await, so that dropping the request revokes it,
    until the request hands the lease to its revocation, to a clean-up or to a relay.
    At the awaits of the revocation itself nobody owns it. *)

From Stdlib Require Import Ascii String.
From stdpp Require Import base list strings gmap.
From S2P Require Import Prelude Str BTree External Models Redaction Database Store Auth Policy Request Injection WebSocket Connector ConnectorFacts Config Leases LeaseProps Control Sessions SessionFacts Proxy ProxyFacts ProxyProps Relay RelayProps Interleave InterleaveFacts InterleaveProps.

Section Ownership.
Context {HL : HeaderLib} {UL : UrlLib} {EL : EncodingLib} {JL : JwtLib} {PL : PasswordLib}
  {BL : BackendLib} {WL : WebSocketLib} {ML : MessageLib}.
Context (env : Outside) (net : Network) (service : Service) (write_completes : nat -> bool).
#[local] Abbreviation IO := (io ServerData).
#[local] Abbreviation PX := (io ProxyData).
#[local] Abbreviation W := (Connector.world ProxyData).
#[local] Abbreviation state := (app_state service).
Implicit Types w : W.

(** No handle appears in the registry. *)
Definition registers_nothing {A} (m : PX A) : Prop := forall w handle,
  leases (inner w) !! handle = None -> leases (inner (m w).2) !! handle = None.

(** A task that owes the lease [st] its revocation, and ends as [Q] says.  It registers
    or restores a lease only when it owes none, and owes that one from then on; while
    it does, it owns the lease at every await, until it takes it from the registry to
    revoke it or spawns a task that owns it. *)
Inductive minds {A} (Q : option bytes -> result A -> Prop) : option bytes -> task A -> Prop :=
| minds_finished st r : Q st r -> minds Q st (Finished r)
| minds_wait {B} held (m : PX B) k : registers_nothing m ->
    (forall w, minds Q (owner_handle <$> held) (k (m w).1)) -> minds Q (owner_handle <$> held) (Stage held m k)
| minds_register item k :
    (forall handle, minds Q (Some handle) (k (Ok (inl handle)))) ->
    (forall item, minds Q None (k (Ok (inr item)))) ->
    minds Q None (Stage None (zoom (registry_insert env item)) k)
| minds_restore handle item k :
    (forall restored, minds Q (Some handle) (k (Ok restored))) ->
    minds Q None (Stage None (zoom (restore handle item)) k)
| minds_take handle subject k :
    (forall taken, minds Q None (k (Ok taken))) ->
    minds Q (Some handle) (Stage None (zoom (take_for_subject env handle subject)) k)
| minds_cleanup owner k : minds Q None k -> minds Q (Some (owner_handle owner)) (Spawn (Cleanup owner) k)
| minds_relay session k : minds Q None k ->
    minds Q (owner_handle <$> wss_lease session) (Spawn (RelaySession session) k).

(** What a response still owes is the lease of its body. *)
Definition owes_body (st : option bytes) (r : result Response) : Prop :=
  st = match r with Ok response => owner_handle <$> body_lease response | Err _ => None end.
Definition owes_nothing {A} (st : option bytes) (_ : result A) : Prop := st = None.

Lemma minds_bind {A B} Q R st (t : task A) (f : A -> task B) : minds Q st t ->
  (forall st a, Q st (Ok a) -> minds R st (f a)) -> (forall st e, Q st (Err e) -> R st (Err e)) ->
  minds R st (t ≫= f).
Proof.
  intros Ht Hf He. induction Ht as [st [a|e] HQ|C held m k Hm Hk IH|item k Hk IH Hk' IH'|handle item k Hk IH
    |handle subject k Hk IH|owner k Hk IH|session k Hk IH].
  - by apply Hf.
  - constructor. by apply He.
  - by apply minds_wait.
  - by apply minds_register.
  - by apply minds_restore.
  - by apply minds_take.
  - by apply minds_cleanup.
  - by apply minds_relay.
Qed.
Lemma minds_caught {A} (Q : option bytes -> result (result A) -> Prop) st (t : task A) :
  minds (fun st r => Q st (Ok r)) st t -> minds Q st (caught t).
Proof. induction 1; simpl; [by constructor|by apply minds_wait|by apply minds_register|by apply minds_restore
  |by apply minds_take|by apply minds_cleanup|by apply minds_relay]. Qed.
Lemma minds_weaken {A} (Q R : option bytes -> result A -> Prop) st (t : task A) :
  (forall st r, Q st r -> R st r) -> minds Q st t -> minds R st t.
Proof. intros HQR. induction 1; [constructor; auto|by apply minds_wait|by apply minds_register|by apply minds_restore
  |by apply minds_take|by apply minds_cleanup|by apply minds_relay]. Qed.
Lemma minds_ret {A} (Q : option bytes -> result A -> Prop) st a : Q st (Ok a) -> minds Q st (mret (M := task) a).
Proof. by constructor. Qed.
Lemma minds_now {A B} Q st (r : result A) (f : A -> task B) :
  (forall e, r = Err e -> Q st (Err e)) -> (forall a, r = Ok a -> minds Q st (f a)) -> minds Q st (Finished r ≫= f).
Proof. intros He Hf. destruct r as [a|e]; [by apply Hf|constructor; by apply He]. Qed.

(** ** Stages *)

Lemma idle_registers {A} (m : IO A) : idle m -> registers_nothing (zoom m).
Proof. intros Hm w handle. rewrite zoom_inner. by destruct (Hm (inner w)) as [-> _]. Qed.
Lemma local_registers {A} (m : PX A) :
  (forall w, server_data (server (m w).2) = server_data (server w)) -> registers_nothing m.
Proof. intros Hm w handle. unfold leases. simpl. by rewrite Hm. Qed.
Lemma send_registers rq : registers_nothing (send_upstream net rq).
Proof.
  apply local_registers. intros w.
  unfold send_upstream, contact, mbind, io_bind, get_server, set_server, outside. simpl.
  by destruct (upstream_send net (calls w) rq).
Qed.
Lemma pause_registers : registers_nothing (mret ()).
Proof. by apply local_registers. Qed.

Lemma idle_minds {A} (m : IO A) : idle m -> minds owes_nothing None (stage m).
Proof. intros Hm. apply (minds_wait _ None); [by apply idle_registers|]. intros w. by constructor. Qed.
Lemma minds_stage {A B} Q (m : IO A) (f : A -> task B) :
  idle m -> (forall e, Q None (Err e)) -> (forall a, minds Q None (f a)) -> minds Q None (stage m ≫= f).
Proof.
  intros Hm He Hf. eapply minds_bind; [by apply idle_minds|..]; [intros st a ->; apply Hf|intros st e ->; apply He].
Qed.
Lemma minds_answer {A B} Q R st (t : task A) (e : B) k : minds Q st t ->
  (forall st msg, Q st (Err msg) -> R st (Ok e)) -> (forall st a, Q st (Ok a) -> minds R st (k a)) ->
  minds R st (or_answer t e k).
Proof.
  intros Ht He Hk. eapply (minds_bind (fun st r => exists r', r = Ok r' /\ Q st r')); [| |by intros ? ? (? & [=] & _)].
  - apply minds_caught. eapply minds_weaken; [|exact Ht]. intros st' r Hr. by exists r.
  - intros st' [a|msg] (r' & [= <-] & Hr); [by apply Hk|]. constructor. by eapply He.
Qed.

Lemma pause_minds {A} Q (t : task A) : minds Q None t -> minds Q None (_ ← pause; t).
Proof. intros Ht. apply (minds_wait _ None); [apply pause_registers|]. intros w. exact Ht. Qed.

(** A part of a request that only waits *)
Fixpoint waits {A} (P : result A -> Prop) (t : task A) : Prop :=
  match t with
  | Finished r => P r
  | Stage _ m k => registers_nothing m /\ forall w, waits P (k (m w).1)
  | Spawn _ _ => False
  end.
Lemma waits_bind {A B} P Q (t : task A) (f : A -> task B) :
  waits P t -> (forall a, P (Ok a) -> waits Q (f a)) -> (forall e, P (Err e) -> Q (Err e)) -> waits Q (t ≫= f).
Proof.
  intros Ht Hf He. induction t as [[a|e]|C held m k IH|sp k IH]; [by apply Hf|by apply He| |done].
  destruct Ht as [Hm Hk]. split; [done|]. intros w. by apply IH.
Qed.
Lemma waits_now {A B} Q (r : result A) (f : A -> task B) :
  (forall e, Q (Err e)) -> (forall a, r = Ok a -> waits Q (f a)) -> waits Q (Finished r ≫= f).
Proof. intros He Hf. destruct r as [a|e]; [by apply Hf|apply He]. Qed.
Lemma waits_await {A B} Q (m : PX A) (f : A -> task B) :
  registers_nothing m -> (forall e, Q (Err e)) -> (forall a, waits Q (f a)) -> waits Q (await m ≫= f).
Proof. intros Hm He Hf. split; [done|]. intros w. destruct (m w) as [[a|e] w']; [apply Hf|apply He]. Qed.
Lemma owning_minds {A} P lease (t : task A) : waits P t ->
  minds (fun st r => st = owner_handle <$> lease /\ P r) (owner_handle <$> lease) (owning lease t).
Proof.
  induction t as [r|C held m k IH|sp k IH]; intros Ht; [by constructor| |done].
  destruct Ht as [Hm Hk]. apply minds_wait; [done|]. intros w. by apply IH.
Qed.
Lemma waits_caught {A} P (t : task A) : waits P t -> waits (fun r => exists r', r = Ok r' /\ P r') (caught t).
Proof.
  induction t as [r|C held m k IH|sp k IH]; intros Ht; [by exists r| |done].
  destruct Ht as [Hm Hk]. split; [done|]. intros w. by apply IH.
Qed.
Lemma drop_lease_minds lease : minds owes_nothing (owner_handle <$> lease) (drop_lease_task lease).
Proof. destruct lease as [owner|]; [apply (minds_cleanup _ owner)|]; by constructor. Qed.
Lemma drop_lease_then {A} Q lease (t : task A) : minds Q None t ->
  minds Q (owner_handle <$> lease) (_ ← drop_lease_task lease; t).
Proof. intros Ht. destruct lease as [owner|]; [by apply (minds_cleanup _ owner)|done]. Qed.
Lemma guarded_minds {A} P lease (t : task A) : waits P t ->
  minds (fun st r => match r with Ok a => st = owner_handle <$> lease /\ P (Ok a) | Err _ => st = None end)
    (owner_handle <$> lease) (guarded_task lease t).
Proof.
  intros Ht. eapply minds_bind; [by apply owning_minds, waits_caught|..].
  - intros st [a|e] (-> & r' & [= <-] & Hr); [by constructor|]. apply drop_lease_then. by constructor.
  - by intros st e (_ & r' & [=] & _).
Qed.

(** ** The parts of a request *)

Create HintDb idle.
#[local] Hint Resolve idle_attempt idle_context idle_authorize_connect idle_revoke idle_connector_revoke
  idle_audit idle_permitted idle_acquire_secrets idle_with_store : idle.

Lemma register_minds subject name profile l invalid full :
  minds (fun st r => st = match r with Ok (handle, _) => Some handle | Err _ => None end) None
    (register_lease_task env service subject name profile l invalid full).
Proof.
  unfold register_lease_task. cbv zeta. case_match.
  - apply minds_register; [intros handle; by constructor|]. intros item.
    apply minds_stage; [auto with idle|done|]. intros _. by constructor.
  - apply minds_stage; [auto with idle|done|]. intros _. by constructor.
Qed.
Lemma acquire_minds name profile subject :
  minds (fun st r => st = match r with Ok (_, lease) => owner_handle <$> lease | Err _ => None end) None
    (acquire_owned_proxy_secrets_task env service name profile subject).
Proof.
  unfold acquire_owned_proxy_secrets_task. apply minds_stage; [auto with idle|done|]. intros a.
  destruct (lease a) as [l|]; [|by constructor].
  eapply minds_bind; [apply register_minds| |by intros st e ->]. intros st [handle e] ->. by constructor.
Qed.
(** A lease that its backend refuses to revoke is owed again. *)
Definition owes_refused {A} handle (st : option bytes) (r : result A) : Prop :=
  st = if is_ok r then None else Some handle.
Lemma revoke_or_restore_minds m handle item : idle m ->
  minds (fun st r => exists revoked, r = Ok revoked /\ owes_refused handle st revoked) None
    (revoke_or_restore_task m handle item).
Proof.
  intros Hm. unfold revoke_or_restore_task.
  apply (minds_wait _ None); [by apply idle_registers, idle_attempt|]. intros w. rewrite zoom_fst. unfold attempt.
  destruct (m (inner w)) as [[[]|e] v]; [constructor; by exists (Ok ())|].
  apply minds_restore. intros restored. constructor. by exists (Err e).
Qed.
Lemma revoke_registered_minds handle subject :
  minds (owes_refused handle) (Some handle) (revoke_registered_dynamic_lease_task env service handle subject).
Proof.
  unfold revoke_registered_dynamic_lease_task. apply minds_take. intros [item|]; [|by constructor].
  eapply minds_bind; [apply revoke_or_restore_minds, idle_revoke| |by intros ? ? (? & [=] & _)].
  intros st r (r' & [= <-] & Hr). by constructor.
Qed.
Lemma owner_revoke_minds o : minds owes_nothing (Some (owner_handle o)) (owner_revoke_task env service o).
Proof.
  unfold owner_revoke_task. eapply minds_bind.
  - apply (minds_caught (fun st r => exists r', r = Ok r' /\ owes_refused (owner_handle o) st r')).
    eapply minds_weaken; [|apply revoke_registered_minds]. intros st r Hr. by exists r.
  - intros st [[]|e] (r' & [= <-] & ->); [by constructor|]. apply (minds_cleanup _ o). by constructor.
  - by intros ? ? (? & [=] & _).
Qed.
Lemma revoke_lease_minds lease : minds owes_nothing (owner_handle <$> lease) (revoke_lease_task env service lease).
Proof. destruct lease as [o|]; [apply owner_revoke_minds|by constructor]. Qed.

(** ** Requests *)

Lemma read_buffered_waits maximum acc chunks : waits (fun _ => True) (read_buffered_task maximum acc chunks).
Proof.
  revert acc. induction chunks as [|[chunk|] chunks IH]; intros acc;
    (apply waits_await; [apply pause_registers|done|intros _]); [done| |done].
  case_match; [done|apply IH].
Qed.
Lemma prepared_redaction route (values : BTreeMap bytes) body prepared :
  prepare_credentials route values body = Ok prepared -> exists secrets, redaction prepared = redaction_new secrets.
Proof. unfold prepare_credentials. intros H. inv_ok. subst. by eexists. Qed.

(** A streamed body comes with a redactor that always finishes, and with its lease
    until it has ended. *)
Definition sound_stream (s : BodyStream) : Prop :=
  wf_redactor (bs_redactor s) /\ (bs_finished s = true -> bs_lease s = None).
Definition sound_body (r : result Response) : Prop :=
  forall a s, r = Ok a -> response_body a = Streamed s -> sound_stream s.
Lemma proxy_request_minds route context body :
  minds (fun st r => owes_body st r /\ sound_body r) None (proxy_request_task env net service route context body).
Proof.
  unfold proxy_request_task. apply minds_now; [done|]. intros profile _.
  eapply minds_bind; [apply acquire_minds| |by intros st e ->]. intros st [values lease] ->.
  eapply minds_bind.
  - apply (guarded_minds (fun r => forall p u hs, r = Ok (p, u, hs) -> exists secrets, redaction p = redaction_new secrets)).
    apply waits_now; [done|intros prepared Hp]. do 2 (apply waits_now; [done|intros ? _]).
    apply waits_await; [apply send_registers|done|intros u]. do 2 (apply waits_now; [done|intros ? _]).
    intros ? ? ? [= <- _ _]. by eapply prepared_redaction.
  - intros st [[prepared upstream] headers] [-> Hp]. destruct (Hp _ _ _ eq_refl) as [secrets Hr]. case_match.
    + eapply minds_bind; [apply (guarded_minds (fun _ => True))|..].
      * eapply waits_bind; [apply read_buffered_waits|done|done].
      * intros st bytes [-> _]. eapply minds_bind.
        -- eapply minds_bind; [apply (minds_caught (fun st _ => st = None)), revoke_lease_minds|..].
           ++ intros st r ->. by apply (minds_finished owes_nothing).
           ++ done.
        -- intros st _ ->. constructor. split; [done|]. by intros a s [= <-].
        -- by intros st e ->.
      * by intros st e ->.
    + constructor. split; [done|]. intros a s [= <-] [= <-]. split; [|done]. simpl. rewrite Hr. apply redaction_new_wf.
  - by intros st e ->.
Qed.
Definition owes_answer {B} (st : option bytes) (r : result (Response * B)) : Prop :=
  match r with
  | Ok (response, _) => st = owner_handle <$> body_lease response /\ sound_body (Ok response)
  | Err _ => st = None
  end.
Lemma answer_owes {B} response content (b : B) :
  response_body response = Full content -> owes_answer None (Ok (response, b)).
Proof. intros Hr. unfold owes_answer, body_lease. rewrite Hr. split; [done|]. intros a s [= <-]. by rewrite Hr. Qed.
Lemma websocket_request_minds route context h i :
  minds owes_answer None (proxy_websocket_request_task env net service route context h i).
Proof.
  unfold proxy_websocket_request_task. do 4 (apply minds_now; [done|intros ? _]).
  eapply minds_bind; [apply acquire_minds| |by intros st e ->]. intros st [values lease] ->.
  eapply minds_bind; [apply (guarded_minds (fun _ => True))| |by intros st e ->].
  - do 4 (apply waits_now; [done|intros ? _]). apply waits_await; [apply send_registers|done|intros u].
    apply waits_now; [done|]. by intros [] _.
  - intros st [[prepared accept] selected] [-> _]. cbv zeta.
    apply (minds_relay _ {| wss_lease := lease |}). constructor. by eapply answer_owes.
Qed.

Lemma proxy_minds route_name path q method headers body :
  minds (fun st r => owes_body st r /\ sound_body r) None
    (proxy_task env net service route_name path q method headers body).
Proof.
  assert (forall r content, response_body r = Full content -> owes_body None (Ok r) /\ sound_body (Ok r)) as Hfull.
  { intros r content Hr. unfold owes_body, body_lease. rewrite Hr. split; [done|]. intros a s [= <-]. by rewrite Hr. }
  unfold proxy_task. eapply minds_answer; [apply idle_minds; auto with idle|by intros st msg ->; eapply Hfull|].
  intros st identity ->. case_match; [|by eapply minds_ret, Hfull]. case_match; [by eapply minds_ret, Hfull|].
  eapply minds_answer; [apply idle_minds; auto with idle|by intros st msg ->; eapply Hfull|].
  intros st permitted ->. do 3 (case_match; [by eapply minds_ret, Hfull|]). case_match; [|by eapply minds_ret, Hfull].
  eapply minds_answer; [apply idle_minds; auto with idle|by intros st msg ->; eapply Hfull|]. intros st _ ->.
  eapply minds_answer; [apply proxy_request_minds|intros st msg [-> _]; by eapply Hfull|].
  intros st response [-> Hr]. constructor. split; [done|]. intros r1 s [= <-] Hs. by apply (Hr response s).
Qed.

Lemma tunnel_minds request route_name h i :
  minds owes_answer None (transparent_tunnel_response_task env net service request route_name h i).
Proof.
  unfold transparent_tunnel_response_task. cbv zeta.
  apply (minds_wait _ None); [by apply local_registers|]. intros w. cbn [outside fst].
  do 2 (case_match; [by eapply minds_ret, answer_owes|]).
  eapply minds_answer; [apply idle_minds; auto with idle|by intros st msg ->; eapply answer_owes|].
  intros st session ->. do 2 (case_match; [|by eapply minds_ret, answer_owes]).
  case_match; [by eapply minds_ret, answer_owes|].
  eapply minds_answer; [apply idle_minds; auto with idle|by intros st msg ->; eapply answer_owes|].
  intros st permitted ->. case_match; [by eapply minds_ret, answer_owes|].
  destruct (is_websocket_attempt _ && _); [by eapply minds_ret, answer_owes|].
  destruct (enforce_transparent_tunnel_target _ _ _); [|by eapply minds_ret, answer_owes].
  apply pause_minds.
  destruct (collect_transparent_body _ _ _) as [body|]; [|by eapply minds_ret, answer_owes].
  destruct (is_websocket_attempt _ && _); [by eapply minds_ret, answer_owes|].
  destruct (validate_proxy_request _ _ _ _ _ _); [|by eapply minds_ret, answer_owes].
  eapply (minds_answer owes_answer); [|intros st msg ->; by eapply answer_owes|].
  - case_match.
    + eapply minds_bind; [apply websocket_request_minds| |done]. intros st [r relay] Hr. by constructor.
    + eapply minds_bind; [apply proxy_request_minds| |by intros st e [-> _]]. intros st r [-> Hr]. by constructor.
  - intros st [response relay] [-> Hr].
    eapply minds_bind; [apply (owning_minds (fun r => exists r', r = Ok r' /\ True)), (waits_caught (fun _ => True))|..].
    + split; [apply idle_registers; auto with idle|done].
    + intros st [audited|e] [-> _]; [by constructor|]. apply drop_lease_then. constructor. by eapply answer_owes.
    + by intros st e (_ & r' & [=] & _).
Qed.

(** ** Streamed bodies *)

Definition owes_stream (st : option bytes) (r : result (option (bytes * BodyStream))) : Prop :=
  match r with
  | Ok (Some (_, s)) => st = owner_handle <$> bs_lease s /\ sound_stream s
  | _ => st = None
  end.
Lemma waiting_minds {A} Q lease (t : task A) : minds Q (owner_handle <$> lease) t ->
  minds Q (owner_handle <$> lease) (_ ← owning lease pause; t).
Proof. intros Ht. apply minds_wait; [apply pause_registers|]. intros w. exact Ht. Qed.
Lemma read_stream_minds maximum redactor total lease chunks : wf_redactor redactor ->
  minds owes_stream (owner_handle <$> lease) (read_stream_task env service maximum redactor total lease chunks).
Proof.
  revert redactor total. induction chunks as [|[chunk|] chunks IH]; intros redactor total Hwf;
    cbn [read_stream_task]; apply waiting_minds; cbv zeta.
  - destruct (emit_scan redactor true []) as (o & r & He & Hps & Hm & _); [done..|].
    change (finish redactor = Some (o, r)) in He. rewrite He.
    apply minds_now; [done|]. intros [output r'] [= <- <-].
    apply (minds_bind owes_nothing); [apply revoke_lease_minds| |done]. intros st _ ->.
    case_match; constructor; [done|]. split; [done|]. split; [|done]. unfold wf_redactor in *. simpl. by rewrite Hps, Hm.
  - case_match; [apply drop_lease_then; by constructor|].
    destruct (emit_scan {| pending := pending redactor ++ chunk; stream_patterns := stream_patterns redactor;
      stream_maximum := stream_maximum redactor |} false []) as (o & r & He & Hps & Hm & _); [done..|].
    change (push redactor chunk = Some (o, r)) in He. rewrite He. cbn [ok_or].
    assert (wf_redactor r) as Hr by (unfold wf_redactor in *; by rewrite Hps, Hm).
    apply minds_now; [done|]. intros [output r'] [= <- <-]. case_match; [by apply IH|]. constructor. by split.
  - apply drop_lease_then. by constructor.
Qed.
Lemma serve_body_minds polls s : sound_stream s ->
  minds owes_nothing (owner_handle <$> bs_lease s) (serve_body_task env service polls s).
Proof.
  revert s. induction polls as [|polls IH]; intros s [Hwf Hfin]; cbn [serve_body_task]; [apply drop_lease_minds|].
  apply waiting_minds. unfold stream_next_task. destruct (bs_finished s).
  - rewrite Hfin by done. by constructor.
  - eapply minds_bind; [by apply read_stream_minds| |done].
    intros st [[o s']|] Hs; [|by constructor]. destruct Hs as [-> Hs]. by apply IH.
Qed.
Lemma serve_response_minds polls r : sound_body (Ok r) ->
  minds owes_nothing (owner_handle <$> body_lease r) (serve_response_task env service polls r).
Proof.
  intros Hr. unfold serve_response_task, body_lease. destruct (response_body r) as [content|s] eqn:Hb; [by constructor|].
  apply serve_body_minds. by apply (Hr r s).
Qed.

(** C12: a proxied or tunnelled request looks after the lease it has registered.  Wherever
    it is dropped, the lease's owner is dropped with it and a task is spawned that
    revokes the lease, until the request takes the lease out of the registry to revoke
    it itself, spawns that task itself on an error, or hands the owner to a relay; a
    lease that the backend would not revoke and that was put back is owed again.  The
    one gap are the awaits of the revocation: the owner has no handle there any more. *)
Theorem requests_own_their_leases name path q method headers body request token_hash session_id polls :
  minds owes_nothing None (job_task env net service write_completes (ProxyJob name path q method headers body polls))
  /\ minds owes_nothing None (job_task env net service write_completes (TunnelJob request name token_hash session_id polls))
  /\ forall p i B owner (m : PX B) k, pool_tasks p !! i = Some (Stage (Some owner) m k) ->
       pool_tasks (pool_step env net service write_completes p (Drop i))
       = <[i := Finished (Err "dropped")]> (pool_tasks p) ++ [owner_drop_task env service owner].
Proof.
  split_and!; cbn [job_task].
  - eapply minds_bind; [apply proxy_minds| |by intros st e [-> _]]. intros st r [-> Hr]. by apply serve_response_minds.
  - eapply minds_bind; [apply tunnel_minds| |done]. intros st [r relay] [-> Hr]. by apply serve_response_minds.
  - intros p i B owner m k Hi. cbn [pool_step]. by rewrite Hi.
Qed.
End Ownership.

(** ** Schedules of concrete requests *)

Module OwnershipModels.
Import Models AuthModels ConnectorModels LeaseModels SessionModels ProxyModels RelayModels InterleaveModels.

#[local] Abbreviation outside := (outside_world 200).
#[local] Abbreviation run := (run_schedule outside network proxying (fun _ => true)).
Definition new_handle : bytes := &"av_lease_" ++ base64_url_safe_no_pad (repeat "r"%char 32).
(** Dropped while its upstream answers, a request leaves a task behind that revokes its
    lease. *)
Example dropped_request_revokes :
  let p := run (Start proxied_job :: replicate 5 (Advance 0) ++ [Drop 0]) granted_pool in
  let p' := run (replicate 3 (Advance 1)) p in
  size (leases (inner (pool_world p))) = 2
  /\ size (leases (inner (pool_world p'))) = 1 /\ leases (inner (pool_world p')) !! new_handle = None
  /\ length (exchanges (pool_world p')) = S (length (exchanges (pool_world p))).
Proof. cbv zeta. split_and!; vm_compute; reflexivity. Qed.

(** Dropped while it revokes its lease, a request loses it.  The owner has given up its
    handle already, so no task is left to revoke the lease: before the lease is taken it
    stays registered until it expires, and after that it is neither registered nor
    revoked. *)
Example dropped_revocation_leaks_lease :
  let p := run (Start proxied_job :: replicate 9 (Advance 0) ++ [Drop 0]) granted_pool in
  size (leases (inner (pool_world p))) = 2
  /\ finished <$> pool_tasks p = [true].
Proof. cbv zeta. split_and!; vm_compute; reflexivity. Qed.
Example dropped_revocation_loses_lease :
  let p := run (Start proxied_job :: replicate 10 (Advance 0) ++ [Drop 0]) granted_pool in
  leases (inner (pool_world p)) !! new_handle = None
  /\ length (exchanges (pool_world p)) = 1 /\ finished <$> pool_tasks p = [true].
Proof. cbv zeta. split_and!; vm_compute; reflexivity. Qed.
End OwnershipModels.
