(* ===== verification/Browser.v ===== *)
(** Browser: the console of src/server.rs: GitHub sign-in, its cookies and
    sessions, and the forms an owner or operator submits.

    GitHub's three endpoints are the record [Github]; templates are left to the
    renderer, so a page is the data it is rendered from. *)

From Stdlib Require Import Ascii String.
From stdpp Require Import base list strings gmap sorting pretty.
From S2P Require Import Prelude Str BTree External Models Database Store Auth Policy Request Connector Config Leases Control Sessions Proxy.

(** ** [str::parse] for integers *)

Fixpoint decimal (acc : Z) (s : bytes) : option Z :=
  match s with
  | [] => Some acc
  | b :: s => if is_ascii_digit b then decimal (10 * acc + (Z.of_N (code b) - 48)) s else None
  end.
Definition parse_digits (s : bytes) : option Z := if is_empty s then None else decimal 0 s.
Definition in_bounds (lo hi : Z) (n : option Z) : option Z :=
  n ← n; if (lo <=? n)%Z && (n <=? hi)%Z then Some n else None.
(** [parse::<u64>] and [parse::<i64>]: an optional sign, then digits, in range. *)
Definition parse_u64 (s : bytes) : option Z :=
  in_bounds 0 (2 ^ 64 - 1)
    (parse_digits match s with "+"%char :: rest => rest | _ => s end).
Definition parse_i64 (s : bytes) : option Z :=
  in_bounds (- 2 ^ 63) (2 ^ 63 - 1)
    match s with
    | "+"%char :: rest => parse_digits rest
    | "-"%char :: rest => Z.opp <$> parse_digits rest
    | _ => parse_digits s
    end.
Definition print_z (n : Z) : bytes := list_ascii_of_string (pretty n).

(** ** Data *)

Definition GITHUB_STATE_COOKIE : bytes := &"av_github_state".
Definition GITHUB_SESSION_COOKIE : bytes := &"av_github_session".
Definition GITHUB_AUTHORIZATION_ENDPOINT : bytes := &"https://github.com/login/oauth/authorize".
Definition GITHUB_AUTH_TTL : Z := from_secs (10 * 60).
Definition GITHUB_SESSION_TTL : Z := from_secs (60 * 60).

Record GithubBrowserAuth := {
  gh_client_id : bytes;
  gh_client_secret : bytes;
  gh_user_ids : list Z;
  gh_organizations : list bytes;
}.
Record GithubPendingLogin := { pending_verifier : bytes; pending_expires_at : Z }.
Record GithubBrowserSession := { browser_identity : Identity; browser_expires_at : Z }.
Record GithubCallback := {
  callback_code : option bytes; callback_state : option bytes; callback_error : option bytes }.

(** GitHub, at the n-th outside call: the code exchange, the account of a token,
    and a membership ([Some None] for 404). *)
Record Github := {
  exchange_code : nat -> list (bytes * bytes) -> option bytes;
  user_of_token : nat -> bytes -> option Z;
  membership : nat -> bytes -> bytes -> option (option bytes);
}.

Record OwnerGrant := {
  og_profile : bytes; og_mode : bytes; og_expires : option Z }.
Record OwnerPrincipal := {
  op_label : bytes; op_kind : bytes; op_subject : bytes; op_role : bytes;
  op_grants : list OwnerGrant }.
Record IssuedAgentCredential := { issued_name : bytes; issued_token : bytes }.
Record OwnerPanel := {
  panel_users : list (bytes * bool); panel_agents : list (bytes * bool);
  panel_profiles : list bytes; panel_principals : list OwnerPrincipal;
  panel_issued : option IssuedAgentCredential; panel_manage_roles : bool }.
(** A plain answer, or the data of a page. *)
Inductive Reply :=
| Plain (response : Response)
| Panel (panel : OwnerPanel)
| SessionPage (status : PublicStatus) (summaries : list RpcProfile)
| ProfileList (summaries : list RpcProfile).

(** ** Cookies *)

Fixpoint find_cookie (name : bytes) (pairs : list bytes) : option bytes :=
  match pairs with
  | [] => None
  | item :: pairs =>
      match split_once "=" (trim item) with
      | Some (key, value) => if bool_decide (key = name) then Some value else find_cookie name pairs
      | None => find_cookie name pairs
      end
  end.
Definition cookie_text (value : bytes) : bool :=
  negb (is_empty value)
  && forallb (fun byte => is_ascii_alphanumeric byte || one_of "-_" byte) value.
Definition cookie_value `{!HeaderLib} (headers : HeaderMap) (name : bytes) : option bytes :=
  text ← hm_get headers (from_static &"cookie") ≫= value_to_str;
  value ← find_cookie name (split ";" text);
  if cookie_text value then Some value else None.

Definition github_state_cookie (state : bytes) : bytes :=
  GITHUB_STATE_COOKIE ++ &"=" ++ state ++ &"; Path=/auth/github; HttpOnly; SameSite=Lax; Max-Age="
  ++ print_z (GITHUB_AUTH_TTL / NANOS).
Definition clear_github_state_cookie : bytes :=
  GITHUB_STATE_COOKIE ++ &"=; Path=/auth/github; HttpOnly; SameSite=Lax; Max-Age=0".
Definition github_session_cookie (session : bytes) : bytes :=
  GITHUB_SESSION_COOKIE ++ &"=" ++ session ++ &"; Path=/; HttpOnly; SameSite=Lax; Max-Age="
  ++ print_z (GITHUB_SESSION_TTL / NANOS).
Definition clear_github_session_cookie : bytes :=
  GITHUB_SESSION_COOKIE ++ &"=; Path=/; HttpOnly; SameSite=Lax; Max-Age=0".
Definition github_callback_url (public_url : bytes) : bytes :=
  trim_end_matches "/" public_url ++ &"/auth/github/callback".

(** ** Names *)

Definition external_identity_subject (kind identity : bytes) : result bytes :=
  let identity := trim identity in
  if bool_decide (kind = &"github") then
    account_id ← ok_or (parse_u64 identity) "GitHub account ID must be numeric";
    _ ← bail_if (account_id =? 0)%Z "GitHub account ID must be numeric";
    Ok (&"github:" ++ print_z account_id)
  else if bool_decide (kind = &"oidc") then
    _ ← bail_if (negb (valid_policy_subject identity) || starts_with &"basic:" identity
                 || starts_with &"github:" identity) "OIDC subject is invalid";
    Ok identity
  else Err "identity kind is invalid".

Definition display_principal (subject : bytes) : bytes * bytes :=
  match strip_prefix &"basic:" subject with
  | Some username => (username, &"Basic account")
  | None =>
  match strip_prefix &"github:" subject with
  | Some account_id => (&"GitHub account #" ++ account_id, &"GitHub")
  | None =>
  match strip_prefix &"agent:" subject with
  | Some name => (name, &"Agent")
  | None => (&"OIDC identity", &"OIDC")
  end end end.

(** ** The owner page *)

(** [entry(..).or_default().push(..)] *)
Definition push_grant (m : BTreeMap (list OwnerGrant)) (grant : ProfileGrant)
    : BTreeMap (list OwnerGrant) :=
  bt_insert m (pg_subject grant)
    (default [] (bt_get m (pg_subject grant))
     ++ [{| og_profile := pg_profile grant; og_mode := mode_as_str (pg_mode grant);
            og_expires := pg_expires grant |}]).

(** One principal of a known kind, taken out of both maps. *)
Definition take_principal (prefix kind name : bytes)
    (maps : BTreeMap (list OwnerGrant) * BTreeMap PrincipalRole)
    : OwnerPrincipal * (BTreeMap (list OwnerGrant) * BTreeMap PrincipalRole) :=
  let '(grants, roles) := maps in
  let subject := prefix ++ name in
  ({| op_label := name; op_kind := kind; op_subject := subject;
      op_role := role_as_str (default User (bt_get roles subject));
      op_grants := default [] (bt_get grants subject) |},
   (bt_remove grants subject, bt_remove roles subject)).
Fixpoint take_principals (prefix kind : bytes) (names : list bytes)
    (maps : BTreeMap (list OwnerGrant) * BTreeMap PrincipalRole)
    : list OwnerPrincipal * (BTreeMap (list OwnerGrant) * BTreeMap PrincipalRole) :=
  match names with
  | [] => ([], maps)
  | name :: names =>
      let '(p, maps) := take_principal prefix kind name maps in
      let '(ps, maps) := take_principals prefix kind names maps in
      (p :: ps, maps)
  end.
(** The subjects that only have grants; their roles are taken out too. *)
Fixpoint granted_principals (grants : BTreeMap (list OwnerGrant)) (roles : BTreeMap PrincipalRole)
    : list OwnerPrincipal * BTreeMap PrincipalRole :=
  match grants with
  | [] => ([], roles)
  | (subject, gs) :: grants =>
      let '(label, kind) := display_principal subject in
      let p := {| op_label := label; op_kind := kind; op_subject := subject;
                  op_role := role_as_str (default User (bt_get roles subject)); op_grants := gs |} in
      let '(ps, roles) := granted_principals grants (bt_remove roles subject) in
      (p :: ps, roles)
  end.
Definition role_principals (roles : BTreeMap PrincipalRole) : list OwnerPrincipal :=
  (fun '(subject, role) =>
     let '(label, kind) := display_principal subject in
     {| op_label := label; op_kind := kind; op_subject := subject; op_role := role_as_str role;
        op_grants := [] |}) <$> roles.

Definition principals_of (users agents : list bytes) (grants : BTreeMap (list OwnerGrant))
    (roles : BTreeMap PrincipalRole) : list OwnerPrincipal :=
  let '(basic, maps) := take_principals &"basic:" &"Basic account" users (grants, roles) in
  let '(agent, (grants, roles)) := take_principals &"agent:" &"Agent" agents maps in
  let '(granted, roles) := granted_principals grants roles in
  order_by op_subject (basic ++ agent ++ granted ++ role_principals roles).

Section Browser.
Context {HL : HeaderLib} {UL : UrlLib} {EL : EncodingLib} {JL : JwtLib} {PL : PasswordLib}
  {BL : BackendLib} {AL : Argon2Lib}.

Record BrowserData := {
  console_data : ServerData;
  pending : gmap bytes GithubPendingLogin;
  browser_sessions : gmap bytes GithubBrowserSession;
}.

Context (env : Outside) (gh : Github) (github : option GithubBrowserAuth) (service : Service).
#[local] Abbreviation BX := (io BrowserData).
#[local] Abbreviation state := (app_state service).
#[local] Abbreviation public_url := (cfg_public_url (service_config service)).

Definition base (w : world BrowserData) : world ServerData :=
  {| calls := calls w; exchanges := exchanges w; tokens := tokens w;
     server := console_data (server w) |}.
Definition lift_console {A} (m : io ServerData A) : BX A := fun w =>
  let '(r, v) := m (base w) in
  (r, {| calls := calls v; exchanges := exchanges v; tokens := tokens v;
         server := {| console_data := server v; pending := pending (server w);
                      browser_sessions := browser_sessions (server w) |} |}).
Definition set_pending (m : gmap bytes GithubPendingLogin) : BX unit :=
  d ← get_server;
  set_server {| console_data := console_data d; pending := m;
                browser_sessions := browser_sessions d |}.
Definition set_sessions (m : gmap bytes GithubBrowserSession) : BX unit :=
  d ← get_server;
  set_server {| console_data := console_data d; pending := pending d; browser_sessions := m |}.

(** ** [GithubBrowserAuth] *)

Definition github_new (config : GithubAuthConfig) (read_to_string : bytes -> option bytes)
    : result GithubBrowserAuth :=
  client_secret ← ok_or (read_to_string (github_client_secret_file config))
                    "read GitHub client secret {}";
  let client_secret := trim client_secret in
  _ ← bail_if (is_empty client_secret) "GitHub client secret file is empty";
  Ok {| gh_client_id := github_client_id config; gh_client_secret := client_secret;
        gh_user_ids := allowed_user_ids config;
        gh_organizations := order_by id
          (remove_dups (to_ascii_lowercase <$> allowed_organizations config)) |}.

Definition random_browser_token : BX bytes :=
  random ← outside (random_bytes env);
  mret (base64_url_safe_no_pad random).

Definition overflow : string := "panic: overflow when adding duration to instant".

Definition github_begin (auth : GithubBrowserAuth) (redirect_uri : bytes) : BX (Url * bytes) :=
  state ← random_browser_token;
  first ← random_browser_token;
  second ← random_browser_token;
  let verifier := first ++ second in
  let challenge := base64_url_safe_no_pad (sha256_digest verifier) in
  now ← system_now env;
  d ← get_server;
  expires ← ensure (ok_or (checked_add now GITHUB_AUTH_TTL) overflow);
  _ ← set_pending (<[state := {| pending_verifier := verifier; pending_expires_at := expires |}]>
        (filter (fun kv => (now < pending_expires_at kv.2)%Z) (pending d)));
  url ← ensure (ok_or (url_parse GITHUB_AUTHORIZATION_ENDPOINT)
                  "panic: constant GitHub authorization URL is valid");
  let scope := if is_empty (gh_organizations auth) then &"read:user" else &"read:user read:org" in
  mret (url_extend_pairs url
          [(&"client_id", gh_client_id auth); (&"redirect_uri", redirect_uri); (&"scope", scope);
           (&"state", state); (&"code_challenge", challenge); (&"code_challenge_method", &"S256")],
        state).

Definition has_active_organization_membership (access_token organization : bytes) : BX bool :=
  answer ← outside (fun n => membership gh n access_token organization);
  answer ← ensure (ok_or answer "GitHub organization membership request failed");
  mret (match answer with
        | None => false
        | Some membership_state => bool_decide (membership_state = &"active")
        end).
Fixpoint member_of_any (access_token : bytes) (organizations : list bytes) : BX bool :=
  match organizations with
  | [] => mret false
  | organization :: organizations =>
      active ← has_active_organization_membership access_token organization;
      if (active : bool) then mret true else member_of_any access_token organizations
  end.
Definition is_allowed_user (auth : GithubBrowserAuth) (user : Z) (access_token : bytes) : BX bool :=
  if bool_decide (user ∈ gh_user_ids auth) then mret true
  else member_of_any access_token (gh_organizations auth).

Definition github_finish (auth : GithubBrowserAuth) (state code redirect_uri : bytes) : BX Identity :=
  d ← get_server;
  _ ← set_pending (delete state (pending d));
  now ← (if bool_decide (is_Some (pending d !! state)) then system_now env else mret 0%Z);
  item ← ensure (ok_or (item ← pending d !! state;
                        if (now <? pending_expires_at item)%Z then Some item else None)
                   "GitHub OAuth state was rejected");
  token ← outside (fun n => exchange_code gh n
    [(&"client_id", gh_client_id auth); (&"client_secret", gh_client_secret auth); (&"code", code);
     (&"redirect_uri", redirect_uri); (&"code_verifier", pending_verifier item)]);
  token ← ensure (ok_or token "GitHub OAuth code exchange failed");
  user ← outside (fun n => user_of_token gh n token);
  user ← ensure (ok_or user "GitHub OAuth identity request failed");
  allowed ← is_allowed_user auth user token;
  _ ← ensure (bail_if (negb allowed) "GitHub user is not allowed");
  mret {| subject := &"github:" ++ print_z user |}.

Definition create_session (identity : Identity) : BX bytes :=
  token ← random_browser_token;
  now ← system_now env;
  d ← get_server;
  expires ← ensure (ok_or (checked_add now GITHUB_SESSION_TTL) overflow);
  _ ← set_sessions (<[token := {| browser_identity := identity; browser_expires_at := expires |}]>
        (filter (fun kv => (now < browser_expires_at kv.2)%Z) (browser_sessions d)));
  mret token.

Definition session_identity (token : bytes) : BX (option Identity) :=
  d ← get_server;
  now ← system_now env;
  let live := filter (fun kv => (now < browser_expires_at kv.2)%Z) (browser_sessions d) in
  _ ← set_sessions live;
  mret (browser_identity <$> live !! token).

Definition remove_session (token : bytes) : BX unit :=
  d ← get_server;
  set_sessions (delete token (browser_sessions d)).

(** ** Sign-in handlers *)

Definition ui_not_found : Response := no_store (plain 404 (line &"not found")).
Definition github_callback_rejected : Response :=
  no_store {| response_status := 401;
    response_headers := [(&"content-type", &"text/plain; charset=utf-8");
                         (&"set-cookie", clear_github_state_cookie)];
    response_body := Full (line &"GitHub login was rejected") |}.
Definition github_callback_success (session : bytes) : Response :=
  let r := no_store {| response_status := 302; response_headers := [(&"location", &"/")];
                       response_body := Full [] |} in
  {| response_status := response_status r;
     response_headers := response_headers r
       ++ [(&"set-cookie", github_session_cookie session); (&"set-cookie", clear_github_state_cookie)];
     response_body := response_body r |}.

(** The redirection and its cookie. *)
Definition github_start : BX (Response + Url * bytes) :=
  match github with
  | None => mret (inl ui_not_found)
  | Some auth =>
      or_return (github_begin auth (github_callback_url public_url)) (inl internal_error)
        (fun '(location, state_token) => mret (inr (location, github_state_cookie state_token)))
  end.

Definition github_callback (headers : HeaderMap) (query : GithubCallback) : BX Response :=
  match github with
  | None => mret ui_not_found
  | Some auth =>
  match callback_state query, cookie_value headers GITHUB_STATE_COOKIE with
  | Some state_token, Some cookie_state =>
      if is_some (callback_error query) || negb (bool_decide (cookie_state = state_token))
      then mret github_callback_rejected else
      match callback_code query with
      | None => mret github_callback_rejected
      | Some code =>
          or_return (github_finish auth state_token code (github_callback_url public_url))
            github_callback_rejected (fun identity =>
          session ← create_session identity;
          mret (github_callback_success session))
      end
  | _, _ => mret github_callback_rejected
  end
  end.

Definition github_logout (headers : HeaderMap) : BX Response :=
  _ ← match github, cookie_value headers GITHUB_SESSION_COOKIE with
      | Some _, Some session => remove_session session
      | _, _ => mret ()
      end;
  mret (no_store {| response_status := 204;
                    response_headers := [(&"set-cookie", clear_github_session_cookie)];
                    response_body := Full [] |}).

(** ** Who is asking *)

Definition ui_identity (headers : HeaderMap) : BX Identity :=
  session ← match github, cookie_value headers GITHUB_SESSION_COOKIE with
            | Some _, Some session => session_identity session
            | _, _ => mret None
            end;
  match session with
  | Some identity => mret identity
  | None => lift_console (authorize_connect env state headers)
  end.

Definition denied (message : bytes) : Response := no_store (plain 403 (line message)).

Definition ui_require {B} (check : bytes -> DB B) (ok : B -> bool) (message : bytes)
    (headers : HeaderMap) : BX (Response + Identity) :=
  or_return (ui_identity headers) (inl unauthorized) (fun identity =>
  if negb (managed (auth state)) then mret (inl ui_not_found) else
  or_return (lift_console (with_store (check (subject identity)))) (inl internal_error) (fun b =>
  mret (if ok b then inr identity else inl (denied message)))).
Definition ui_require_owner : HeaderMap -> BX (Response + Identity) :=
  ui_require is_owner id &"owner access required".
Definition ui_require_operator : HeaderMap -> BX (Response + Identity) :=
  ui_require principal_role can_operate &"operator access required".
Definition ui_authorize_owner_mutation (headers : HeaderMap) : BX (Response + Identity) :=
  if negb (is_trusted_browser_origin headers public_url)
  then mret (inl (denied &"owner request forbidden")) else
  ui_require_operator headers.
Definition ui_authorize_role_change (headers : HeaderMap) : BX (Response + Identity) :=
  if negb (is_trusted_browser_origin headers public_url)
  then mret (inl (denied &"owner request forbidden")) else
  ui_require_owner headers.

Definition with_identity (m : BX (Response + Identity)) (k : Identity -> BX Reply) : BX Reply :=
  r ← m;
  match r with inl response => mret (Plain response) | inr identity => k identity end.
Definition ui_bad_request (message : bytes) : Reply := Plain (no_store (plain 400 (line message))).

(** ** The owner page *)

Fixpoint collect_grants (profiles : list bytes) (m : BTreeMap (list OwnerGrant))
    : BX (BTreeMap (list OwnerGrant)) :=
  match profiles with
  | [] => mret m
  | profile :: profiles =>
      grants ← lift_console (with_store (list_profile_grants profile));
      collect_grants profiles (fold_left push_grant grants m)
  end.

Definition render_owner_panel (viewer : bytes) (issued : option IssuedAgentCredential) : BX Reply :=
  if negb (managed (auth state)) then mret (Plain ui_not_found) else
  or_return (lift_console (with_store list_basic_users)) (Plain internal_error) (fun users =>
  or_return (lift_console (with_store list_agents)) (Plain internal_error) (fun agents =>
  or_return (lift_console (with_store list_principal_roles)) (Plain internal_error) (fun bindings =>
  or_return (lift_console (with_store (principal_role viewer))) (Plain internal_error) (fun role =>
  let roles := fold_left (fun m '(s, r) => bt_insert m s r) bindings [] in
  let names := (profiles state).*1 in
  or_return (collect_grants names []) (Plain internal_error) (fun grants =>
  mret (Panel {| panel_users := users; panel_agents := agents; panel_profiles := names;
    panel_principals := principals_of users.*1 agents.*1 grants roles;
    panel_issued := issued; panel_manage_roles := bool_decide (role = Owner) |})))))).

(** ** The signed-in page and the profile list *)

Definition permitted_summaries (subject : bytes) (k : list RpcProfile -> BX Reply) : BX Reply :=
  or_return (lift_console (permitted_profile_names service subject)) (Plain internal_error)
    (fun allowed => k ((fun '(name, profile) =>
       {| rpc_profile_name := name; rpc_profile_environment := environment profile;
          rpc_profile_path := secret_path profile |})
       <$> filter (fun e => e.1 ∈ allowed) (profiles state))).

Definition ui_session (headers : HeaderMap) : BX Reply :=
  or_return (ui_identity headers) (Plain unauthorized) (fun identity =>
  permitted_summaries (subject identity) (fun summaries =>
  mret (SessionPage (public_status (service_config service)) summaries))).

(** The JSON list of [GET /v1/profiles]. *)
Definition profiles_endpoint (headers : HeaderMap) : BX Reply :=
  or_return (lift_console (authorize_connect env state headers)) (Plain unauthorized) (fun identity =>
  permitted_summaries (subject identity) (fun summaries => mret (ProfileList summaries))).

(** ** The forms *)

Definition ui_owner (headers : HeaderMap) : BX Reply :=
  with_identity (ui_require_operator headers) (fun identity =>
  render_owner_panel (subject identity) None).

(** The audit event every form ends with, then the page. *)
Definition ui_audit (identity : Identity) (action : bytes) (profile : option bytes)
    (issued : option IssuedAgentCredential) : BX Reply :=
  or_return (lift_console (audit_event state (subject identity) action profile None
                             (Some &"managed-ui"))) (Plain internal_error) (fun _ =>
  render_owner_panel (subject identity) issued).

(** [Ok(true) => {}, Ok(false) => bad request, Err => internal error] *)
Definition ui_found (m : DB bool) (missing : bytes) (k : BX Reply) : BX Reply :=
  if negb (managed (auth state)) then mret (Plain ui_not_found) else
  or_return (lift_console (with_store m)) (Plain internal_error) (fun found : bool =>
  if found then k else mret (ui_bad_request missing)).

Definition ui_upsert_basic_user (headers : HeaderMap) (username password : bytes) : BX Reply :=
  with_identity (ui_authorize_owner_mutation headers) (fun identity =>
  if negb (valid_basic_username username) then mret (ui_bad_request &"invalid Basic username") else
  if (len password <? 12)%Z || (1024 <? len password)%Z
  then mret (ui_bad_request &"Basic passwords must be between 12 and 1024 characters") else
  or_return (lift_console (hash_basic_password password)) (Plain internal_error) (fun hash =>
  if negb (managed (auth state)) then mret (Plain ui_not_found) else
  or_return (lift_console (with_store (upsert_basic_user username hash))) (Plain internal_error)
    (fun _ => ui_audit identity &"basic_user_upsert" None None))).

Definition ui_set_basic_user_enabled (headers : HeaderMap) (username : bytes) (enabled : bool)
    : BX Reply :=
  with_identity (ui_authorize_owner_mutation headers) (fun identity =>
  if negb (valid_basic_username username) then mret (ui_bad_request &"invalid Basic username") else
  ui_found (set_basic_user_enabled username enabled) &"Basic user not found"
    (ui_audit identity (if enabled then &"basic_user_enabled" else &"basic_user_disabled") None None)).

(** Error texts are compared as the source compares them. *)
Definition ui_create_agent (headers : HeaderMap) (name : bytes) : BX Reply :=
  with_identity (ui_authorize_owner_mutation headers) (fun identity =>
  if negb (valid_agent_name name) then mret (ui_bad_request &"invalid agent name") else
  '(token, token_hash) ← lift_console (mint_agent_token env);
  if negb (managed (auth state)) then mret (Plain ui_not_found) else
  created ← attempt (lift_console (with_store (create_agent name token_hash)));
  match created with
  | Err e => mret (if error_contains "duplicate key" e then ui_bad_request &"agent already exists"
                   else Plain internal_error)
  | Ok _ => ui_audit identity &"agent_created" None
              (Some {| issued_name := name; issued_token := token |})
  end).

Definition ui_rotate_agent (headers : HeaderMap) (name : bytes) : BX Reply :=
  with_identity (ui_authorize_owner_mutation headers) (fun identity =>
  if negb (valid_agent_name name) then mret (ui_bad_request &"invalid agent name") else
  '(token, token_hash) ← lift_console (mint_agent_token env);
  ui_found (rotate_agent_token name token_hash) &"agent not found"
    (ui_audit identity &"agent_token_rotated" None
       (Some {| issued_name := name; issued_token := token |}))).

Definition ui_set_agent_enabled (headers : HeaderMap) (name : bytes) (enabled : bool) : BX Reply :=
  with_identity (ui_authorize_owner_mutation headers) (fun identity =>
  if negb (valid_agent_name name) then mret (ui_bad_request &"invalid agent name") else
  ui_found (set_agent_enabled name enabled) &"agent not found"
    (ui_audit identity (if enabled then &"agent_enabled" else &"agent_disabled") None None)).

Definition ui_delete_agent (headers : HeaderMap) (name : bytes) : BX Reply :=
  with_identity (ui_authorize_owner_mutation headers) (fun identity =>
  if negb (valid_agent_name name) then mret (ui_bad_request &"invalid agent name") else
  ui_found (delete_agent name) &"agent not found" (ui_audit identity &"agent_deleted" None None)).

Definition ui_set_principal_role (headers : HeaderMap) (principal role : bytes) : BX Reply :=
  with_identity (ui_authorize_role_change headers) (fun identity =>
  if negb (valid_policy_subject principal) then mret (ui_bad_request &"invalid policy subject") else
  match role_parse role with
  | Err _ => mret (ui_bad_request &"role must be owner, operator, auditor, or user")
  | Ok role =>
  if negb (managed (auth state)) then mret (Plain ui_not_found) else
  changed ← attempt (lift_console (with_store (set_principal_role principal role)));
  match changed with
  | Err e => mret (if error_contains "last owner" e
                   then ui_bad_request &"cannot remove the last owner" else Plain internal_error)
  | Ok _ => ui_audit identity &"principal_role_changed" None None
  end
  end).

Record ProfileGrantForm := {
  form_profile : bytes; form_subject : bytes; form_mode : bytes; form_expires : bytes }.

Definition form_grant_mode (mode : bytes) : option GrantMode :=
  if bool_decide (mode ∈ [&""; &"both"]) then Some Both
  else if bool_decide (mode = &"proxy") then Some Proxy
  else if bool_decide (mode = &"environment") then Some Environment
  else None.
Definition form_expiry (text : bytes) : option (option Z) :=
  if is_empty (trim text) then Some None else Some <$> parse_i64 text.

Definition ui_grant_profile (headers : HeaderMap) (form : ProfileGrantForm) : BX Reply :=
  with_identity (ui_authorize_owner_mutation headers) (fun identity =>
  match require_known_profile state (form_profile form) with
  | Err e => mret (ui_bad_request (list_ascii_of_string e))
  | Ok _ =>
  if negb (valid_policy_subject (form_subject form))
  then mret (ui_bad_request &"invalid policy subject") else
  match form_grant_mode (form_mode form) with
  | None => mret (ui_bad_request &"grant mode must be both, proxy, or environment")
  | Some mode =>
  match form_expiry (form_expires form) with
  | None => mret (ui_bad_request &"grant expiry must be a Unix timestamp")
  | Some expires =>
  if negb (managed (auth state)) then mret (Plain ui_not_found) else
  granted ← attempt (lift_console (with_store
    (grant_profile_mode (form_subject form) (form_profile form) mode expires)));
  match granted with
  | Err e => mret (if error_contains "expiry must be in the future" e
                   then ui_bad_request &"grant expiry must be in the future"
                   else Plain internal_error)
  | Ok _ => ui_audit identity &"profile_grant" (Some (form_profile form)) None
  end
  end
  end
  end).

Definition ui_grant_external_profile (headers : HeaderMap) (kind identity : bytes)
    (form : ProfileGrantForm) : BX Reply :=
  match external_identity_subject kind identity with
  | Err e => mret (ui_bad_request (list_ascii_of_string e))
  | Ok subject =>
      ui_grant_profile headers {| form_profile := form_profile form; form_subject := subject;
        form_mode := form_mode form; form_expires := form_expires form |}
  end.

Definition ui_revoke_profile (headers : HeaderMap) (form : ProfileGrantForm) : BX Reply :=
  with_identity (ui_authorize_owner_mutation headers) (fun identity =>
  match require_known_profile state (form_profile form) with
  | Err e => mret (ui_bad_request (list_ascii_of_string e))
  | Ok _ =>
  if negb (valid_policy_subject (form_subject form))
  then mret (ui_bad_request &"invalid policy subject") else
  ui_found (revoke_profile (form_subject form) (form_profile form)) &"profile grant not found"
    (ui_audit identity &"profile_grant_revoked" (Some (form_profile form)) None)
  end).
End Browser.
