(* ===== verification/BrowserFacts.v ===== *)
(** BrowserFacts: the console acts for a signed-in principal, or not at all. *)

From Stdlib Require Import Ascii String.
From stdpp Require Import base list strings gmap relations.
From S2P Require Import Prelude Str BTree External Models Database Store StoreFacts StoreProps Auth Policy Request Connector ConnectorFacts Config ConfigFacts Leases LeaseProps Control ServiceFacts ControlFacts Sessions SessionFacts Proxy ProxyFacts ProxyProps Browser.

(** ** What a form asks for *)

Inductive ConsoleRequest :=
| ConsoleUpsertUser (username password : bytes)
| ConsoleEnableUser (username : bytes) (enabled : bool)
| ConsoleCreateAgent (name : bytes)
| ConsoleRotateAgent (name : bytes)
| ConsoleEnableAgent (name : bytes) (enabled : bool)
| ConsoleDeleteAgent (name : bytes)
| ConsoleSetRole (principal role : bytes)
| ConsoleGrant (form : ProfileGrantForm)
| ConsoleGrantExternal (kind identity : bytes) (form : ProfileGrantForm)
| ConsoleRevoke (form : ProfileGrantForm).

Definition console_needs (rq : ConsoleRequest) : PrincipalRole -> bool :=
  match rq with ConsoleSetRole _ _ => is_owner_role | _ => can_operate end.

Inductive console_asks : ConsoleRequest -> op -> Prop :=
| console_upsert u p h : (12 <= len p <= 1024)%Z ->
    console_asks (ConsoleUpsertUser u p) (UpsertBasicUser u h)
| console_enable_user u e : console_asks (ConsoleEnableUser u e) (SetBasicUserEnabled u e)
| console_create n h : console_asks (ConsoleCreateAgent n) (CreateAgent n h)
| console_rotate n h : console_asks (ConsoleRotateAgent n) (RotateAgentToken n h)
| console_enable_agent n e : console_asks (ConsoleEnableAgent n e) (SetAgentEnabled n e)
| console_delete n : console_asks (ConsoleDeleteAgent n) (DeleteAgent n)
| console_role s r role : role_parse r = Ok role ->
    console_asks (ConsoleSetRole s r) (SetPrincipalRole s role)
| console_grant form mode expires : form_grant_mode (form_mode form) = Some mode ->
    form_expiry (form_expires form) = Some expires ->
    console_asks (ConsoleGrant form)
      (GrantProfileMode (form_subject form) (form_profile form) mode expires)
| console_grant_external kind identity form s mode expires :
    external_identity_subject kind identity = Ok s ->
    form_grant_mode (form_mode form) = Some mode ->
    form_expiry (form_expires form) = Some expires ->
    console_asks (ConsoleGrantExternal kind identity form)
      (GrantProfileMode s (form_profile form) mode expires)
| console_revoke form :
    console_asks (ConsoleRevoke form) (RevokeProfile (form_subject form) (form_profile form)).

Definition console_event (rq : ConsoleRequest) : bytes * option bytes :=
  match rq with
  | ConsoleUpsertUser _ _ => (&"basic_user_upsert", None)
  | ConsoleEnableUser _ e => (if e then &"basic_user_enabled" else &"basic_user_disabled", None)
  | ConsoleCreateAgent _ => (&"agent_created", None)
  | ConsoleRotateAgent _ => (&"agent_token_rotated", None)
  | ConsoleEnableAgent _ e => (if e then &"agent_enabled" else &"agent_disabled", None)
  | ConsoleDeleteAgent _ => (&"agent_deleted", None)
  | ConsoleSetRole _ _ => (&"principal_role_changed", None)
  | ConsoleGrant form | ConsoleGrantExternal _ _ form => (&"profile_grant", Some (form_profile form))
  | ConsoleRevoke form => (&"profile_grant_revoked", Some (form_profile form))
  end.

Definition is_panel (r : result Reply) : bool :=
  match r with Ok (Panel _) => true | _ => false end.

Section Facts.
Context {HL : HeaderLib} {UL : UrlLib} {EL : EncodingLib} {JL : JwtLib} {PL : PasswordLib}
  {BL : BackendLib} {AL : Argon2Lib}.
Context (env : Outside) (gh : Github) (github : option GithubBrowserAuth) (service : Service).
#[local] Abbreviation BX := (io BrowserData).
#[local] Abbreviation W := (Connector.world BrowserData).
#[local] Abbreviation state := (app_state service).
Implicit Types w : W.

Definition console (rq : ConsoleRequest) (headers : HeaderMap) : BX Reply :=
  match rq with
  | ConsoleUpsertUser u p => ui_upsert_basic_user env github service headers u p
  | ConsoleEnableUser u e => ui_set_basic_user_enabled env github service headers u e
  | ConsoleCreateAgent n => ui_create_agent env github service headers n
  | ConsoleRotateAgent n => ui_rotate_agent env github service headers n
  | ConsoleEnableAgent n e => ui_set_agent_enabled env github service headers n e
  | ConsoleDeleteAgent n => ui_delete_agent env github service headers n
  | ConsoleSetRole s r => ui_set_principal_role env github service headers s r
  | ConsoleGrant form => ui_grant_profile env github service headers form
  | ConsoleGrantExternal k i form => ui_grant_external_profile env github service headers k i form
  | ConsoleRevoke form => ui_revoke_profile env github service headers form
  end.

(** A browser session that has not expired, or a credential of the API. *)
Definition signed_in (headers : HeaderMap) w (id : Identity) : Prop :=
  (exists auth token session n, github = Some auth
     /\ cookie_value headers GITHUB_SESSION_COOKIE = Some token
     /\ browser_sessions (server w) !! token = Some session
     /\ (system_time env n < browser_expires_at session)%Z /\ browser_identity session = id)
  \/ credential_for state headers (base w) id.

Definition console_authorised (allowed : PrincipalRole -> bool) (headers : HeaderMap) w
    (id : Identity) : Prop :=
  is_trusted_browser_origin headers (cfg_public_url (service_config service)) = true
  /\ signed_in headers w id
  /\ exists role, stored_role (tbl (base w)) (subject id) = Ok role /\ allowed role = true.

(** What a form may do; the owner page is shown only after its audit event. *)
Inductive console_step (rq : ConsoleRequest) (headers : HeaderMap) w : bool -> Tables -> Prop :=
| ConsoleRefused : console_step rq headers w false (tbl (base w))
| ConsoleUnaudited id o t1 :
    console_authorised (console_needs rq) headers w id -> console_asks rq o ->
    effect o (clk (base w)) (tbl (base w)) t1 -> console_step rq headers w false t1
| ConsoleDone id o t1 now b :
    console_authorised (console_needs rq) headers w id -> console_asks rq o ->
    effect o (clk (base w)) (tbl (base w)) t1 -> clk (base w) = Some now ->
    console_step rq headers w b
      (audited now (subject id) (console_event rq).1 (console_event rq).2 None
         (Some &"managed-ui") t1).

(** ** Steps that only read *)

Definition views {A} (m : BX A) : Prop :=
  forall w, tbl (base (m w).2) = tbl (base w) /\ clk (base (m w).2) = clk (base w).

Lemma views_ret {A} (a : A) : views (mret a).
Proof. done. Qed.
Lemma views_ensure {A} (r : result A) : views (ensure r).
Proof. done. Qed.
Lemma views_outside {A} (f : nat -> A) : views (outside f).
Proof. done. Qed.
Lemma views_set_sessions m : views (Browser.set_sessions m).
Proof. done. Qed.
Lemma views_get : views get_server.
Proof. done. Qed.
Lemma views_bind {A B} (m : BX A) (f : A -> BX B) :
  views m -> (forall a, views (f a)) -> views (m ≫= f).
Proof.
  intros Hm Hf w. destruct (Hm w) as [Ht Hc]. unfold mbind, io_bind.
  destruct (m w) as [[a|e] w1]; cbn [snd] in *; [|done]. destruct (Hf a w1). split; congruence.
Qed.
Lemma views_attempt {A} (m : BX A) : views m -> views (attempt m).
Proof. intros Hm w. specialize (Hm w). unfold attempt. by destruct (m w). Qed.
Lemma views_or_return {A B} (m : BX A) (e : B) k :
  views m -> (forall a, views (k a)) -> views (or_return m e k).
Proof. intros Hm Hk. apply views_bind; [by apply views_attempt|]. by intros [a|]. Qed.
Lemma views_lift {A} (m : io ServerData A) : reads m -> views (lift_console m).
Proof.
  intros Hm w. destruct (Hm (base w)) as [Ht Hc]. unfold lift_console.
  destruct (m (base w)) as [r v]. cbn [snd] in *. rewrite <- Ht, <- Hc. by destruct v.
Qed.
Lemma views_query {A} (m : DB A) : readonly m -> views (lift_console (with_store m)).
Proof. intros Hm. by apply views_lift, reads_with_store. Qed.
#[local] Hint Resolve views_ret views_ensure views_outside views_set_sessions views_get : views.

Lemma views_session_identity token : views (session_identity env token).
Proof.
  unfold session_identity, system_now. repeat (apply views_bind; [auto with views|intros ?]).
  auto with views.
Qed.
Lemma views_ui_identity headers : views (ui_identity env github service headers).
Proof.
  apply views_bind; [repeat case_match; auto using views_session_identity with views|].
  intros []; [auto with views|]. apply views_lift, reads_authorize_connect.
Qed.
Lemma readonly_roles : readonly list_principal_roles.
Proof.
  unfold list_principal_roles. apply readonly_bind; [apply readonly_query|intros ?].
  apply readonly_lift.
Qed.
Lemma readonly_grants p : readonly (list_profile_grants p).
Proof.
  unfold list_profile_grants. apply readonly_bind; [apply readonly_query|intros ?].
  apply readonly_lift.
Qed.
Lemma views_collect profiles m : views (collect_grants profiles m).
Proof.
  revert m. induction profiles as [|p ps IH]; intros m; cbn [collect_grants]; [auto with views|].
  apply views_bind; [apply views_query, readonly_grants|intros ?]. apply IH.
Qed.
Lemma views_panel viewer issued : views (render_owner_panel service viewer issued).
Proof.
  unfold render_owner_panel. destruct (negb _); [auto with views|].
  apply views_or_return; [apply views_query|intros ?].
  { apply readonly_bind; [apply readonly_query|intros ?]. apply readonly_ret. }
  apply views_or_return; [apply views_query|intros ?].
  { apply readonly_bind; [apply readonly_query|intros ?]. apply readonly_ret. }
  apply views_or_return; [apply views_query, readonly_roles|intros ?].
  apply views_or_return; [apply views_query, principal_role_readonly|intros ?].
  apply views_or_return; [apply views_collect|intros ?]. auto with views.
Qed.

(** ** The gates *)

Lemma lift_console_ok {A} (m : io ServerData A) w r w1 :
  lift_console m w = (r, w1) -> exists v, m (base w) = (r, v) /\ base w1 = v.
Proof.
  unfold lift_console. destruct (m (base w)) as [r' v]. intros H.
  apply pair_equal_spec in H as [<- <-]. exists v. by destruct v.
Qed.

Lemma session_identity_ok token w found w1 :
  session_identity env token w = (Ok found, w1) ->
  found = browser_identity <$>
    filter (fun kv => (system_time env (calls w) < browser_expires_at kv.2)%Z)
      (browser_sessions (server w)) !! token
  /\ base w1 = tick (base w).
Proof. intros H. unfold session_identity, system_now in H. inv_io.
  match goal with H : get_server _ = _, H' : outside _ _ = _, H'' : Browser.set_sessions _ _ = _ |- _ =>
    injection H as <- <-; injection H' as <- <-; apply pair_equal_spec in H'' as [_ <-] end. done.
Qed.

Lemma ui_identity_ok headers w id w1 :
  ui_identity env github service headers w = (Ok id, w1) -> signed_in headers w id.
Proof.
  unfold ui_identity. intros H. apply io_bind_ok in H as (found & v & Hs & H).
  assert (found <> None \/ base v = base w \/ base v = tick (base w)) as Hv;
    [|destruct found as [id'|]; [inv_io; left|right]].
  - revert Hs. repeat case_match; intros Hs; inv_io; auto. apply session_identity_ok in Hs as [_ ->].
    auto.
  - revert Hs. repeat case_match; intros Hs; inv_io. apply session_identity_ok in Hs as [Hs _].
    symmetry in Hs. apply fmap_Some in Hs as (session & Hl & ->).
    apply map_lookup_filter_Some in Hl as [Hl Ht]. eauto 10.
  - apply lift_console_ok in H as (? & H & _). apply authorize_connect_ok in H.
    destruct Hv as [?|[Hv|Hv]]; [done| |]; by rewrite Hv in H.
Qed.

Lemma ui_require_ok {B} (check : bytes -> DB B) ok msg headers w id w1 :
  ui_require env github service check ok msg headers w = (Ok (inr id), w1) ->
  managed (auth state) = true /\ signed_in headers w id
  /\ exists b db db', check (subject id) db = (Ok b, db') /\ ok b = true
                     /\ tables db = tbl (base w).
Proof.
  unfold ui_require. intros H. apply or_return_ok in H as [(id' & v & Hi & H)|[[=] _]].
  destruct (managed _); cbn [negb] in H; [|by inv_io].
  apply or_return_ok in H as [(b & v' & Hb & H)|[[=] _]]. inv_io.
  destruct (ok b) eqn:Hok; simplify_eq. split; [done|]. split; [by eapply ui_identity_ok|].
  destruct (views_ui_identity headers w) as [Ht _]. rewrite Hi in Ht.
  apply lift_console_ok in Hb as (? & Hb & _). unfold with_store in Hb.
  destruct (check _ _) as [r db'] eqn:E. apply pair_equal_spec in Hb as [-> _].
  exists b, (database (server (base v))), db'. done.
Qed.

Lemma views_ui_require {B} (check : bytes -> DB B) ok msg headers :
  (forall s, readonly (check s)) -> views (ui_require env github service check ok msg headers).
Proof.
  intros Hc. apply views_or_return; [apply views_ui_identity|intros id].
  destruct (negb _); [auto with views|].
  apply views_or_return; [by apply views_query|auto with views].
Qed.

(** ** Postconditions of a form *)

Definition leaves (Q : bool -> Tables -> Prop) (m : BX Reply) w : Prop :=
  Q (is_panel (m w).1) (tbl (base (m w).2)).

Lemma leaves_plain Q response w : Q false (tbl (base w)) -> leaves Q (mret (Plain response)) w.
Proof. done. Qed.
Lemma leaves_bind {A} Q (m : BX A) k w :
  views m -> Q false (tbl (base w)) ->
  (forall a w1, m w = (Ok a, w1) -> tbl (base w1) = tbl (base w) -> clk (base w1) = clk (base w) ->
     leaves Q (k a) w1) ->
  leaves Q (m ≫= k) w.
Proof.
  intros Hm HQ Hk. destruct (Hm w) as [Ht Hc]. unfold leaves, mbind, io_bind.
  destruct (m w) as [[a|e] w1]; cbn [snd] in *; [by apply Hk|]. by rewrite <- Ht in HQ.
Qed.

(** A store call, whatever the form makes of its error. *)
Lemma leaves_store {A} Q (m : DB A) o (k : result A -> BX Reply) w :
  runs m o -> Q false (tbl (base w)) ->
  (forall t1, effect o (clk (base w)) (tbl (base w)) t1 -> Q false t1) ->
  (forall e w1, Q false (tbl (base w1)) -> leaves Q (k (Err e)) w1) ->
  (forall a w1, effect o (clk (base w)) (tbl (base w)) (tbl (base w1)) ->
     clk (base w1) = clk (base w) -> leaves Q (k (Ok a)) w1) ->
  leaves Q (attempt (lift_console (with_store m)) ≫= k) w.
Proof.
  intros Hm HQ Hfail Herr Hok. destruct (runs_effect m o (store (base w)) Hm) as (Hc & Ht & He).
  unfold leaves, attempt, mbind, io_bind.
  destruct (lift_console (with_store m) w) as [r w1] eqn:E.
  apply lift_console_ok in E as (v & Hv & Hb). unfold with_store in Hv. fold (store (base w)) in Hv.
  destruct (m (store (base w))) as [r' db]. apply pair_equal_spec in Hv as [-> <-]. cbn [fst snd] in *.
  assert (tbl (base w1) = tables db /\ clk (base w1) = clock db) as [Ht1 Hc1] by (by rewrite Hb).
  destruct r as [a|e].
  - apply Hok; rewrite ?Ht1, ?Hc1; auto.
  - apply Herr. rewrite Ht1. destruct Ht as [->|Ht]; auto.
Qed.

Section Form.
Context (rq : ConsoleRequest) (headers : HeaderMap) (w : W).
#[local] Abbreviation Q := (console_step rq headers w).

(** The world of [w1] has the tables and the clock of [w]. *)
Definition same (w1 : W) : Prop :=
  tbl (base w1) = tbl (base w) /\ clk (base w1) = clk (base w).

Lemma leaves_refused response w1 : same w1 -> leaves Q (mret (Plain response)) w1.
Proof. intros [Ht _]. apply leaves_plain. rewrite Ht. constructor. Qed.

Lemma leaves_guard (c : bool) response k w1 :
  same w1 -> (c = false -> leaves Q k w1) -> leaves Q (if c then mret (Plain response) else k) w1.
Proof. intros Hs Hk. destruct c; [by apply leaves_refused|auto]. Qed.

Lemma leaves_step {A} (m : BX A) k w1 :
  views m -> same w1 -> (forall a w2, m w1 = (Ok a, w2) -> same w2 -> leaves Q (k a) w2) ->
  leaves Q (m ≫= k) w1.
Proof.
  intros Hm [Ht Hc] Hk. apply leaves_bind; [done|rewrite Ht; constructor|].
  intros a w2 E Ht2 Hc2. apply (Hk a w2 E). split; congruence.
Qed.

Lemma leaves_audit id o issued w1 :
  managed (auth state) = true -> console_authorised (console_needs rq) headers w id ->
  console_asks rq o -> effect o (clk (base w)) (tbl (base w)) (tbl (base w1)) ->
  clk (base w1) = clk (base w) ->
  leaves Q (ui_audit service id (console_event rq).1 (console_event rq).2 issued) w1.
Proof.
  intros Hm Ha Hasks He Hc. unfold ui_audit, or_return, audit_event. rewrite Hm.
  apply (leaves_store Q _ (RecordAudit (subject id) (console_event rq).1 (console_event rq).2 None
           (Some &"managed-ui"))); [by apply runs_self|by eapply ConsoleUnaudited|..].
  - intros t1 (now & Hnow & ->). eapply ConsoleDone; try done. congruence.
  - intros e w2 HQ. by apply leaves_plain.
  - intros [] w2 (now & Hnow & Ht) _. unfold leaves.
    destruct (views_panel (subject id) issued w2) as [-> _]. rewrite Ht.
    eapply ConsoleDone; try done. congruence.
Qed.

Lemma leaves_change {A} (m : DB A) o id (k : result A -> BX Reply) w1 :
  runs m o -> managed (auth state) = true ->
  console_authorised (console_needs rq) headers w id -> console_asks rq o -> same w1 ->
  (forall e, exists response, k (Err e) = mret (Plain response)) ->
  (forall a, (exists response, k (Ok a) = mret (Plain response))
     \/ exists issued, k (Ok a) = ui_audit service id (console_event rq).1 (console_event rq).2 issued) ->
  leaves Q (attempt (lift_console (with_store m)) ≫= k) w1.
Proof.
  intros Hr Hm Ha Hasks [Ht Hc] Herr Hok.
  apply (leaves_store Q m o); rewrite ?Ht, ?Hc; [done|constructor|..].
  - intros t1 He. by eapply ConsoleUnaudited.
  - intros e w2 HQ. by destruct (Herr e) as [response ->].
  - intros a w2 He Hc2. destruct (Hok a) as [[response ->]|[issued ->]].
    + by eapply leaves_plain, ConsoleUnaudited.
    + by eapply leaves_audit.
Qed.

Lemma leaves_found (m : DB bool) o id missing issued w1 :
  runs m o -> console_authorised (console_needs rq) headers w id -> console_asks rq o -> same w1 ->
  leaves Q (ui_found service m missing
    (ui_audit service id (console_event rq).1 (console_event rq).2 issued)) w1.
Proof.
  intros Hr Ha Hasks Hs. apply leaves_guard; [done|]. intros Hm%negb_false_iff.
  apply (leaves_change m o id); try done; [by eexists|]. intros []; eauto.
Qed.

Lemma leaves_try {A} (m : BX A) response k w1 :
  views m -> same w1 -> (forall a w2, same w2 -> leaves Q (k a) w2) ->
  leaves Q (or_return m (Plain response) k) w1.
Proof.
  intros Hm Hs Hk. apply leaves_step; [by apply views_attempt|done|].
  intros [a|e] w2 _ Hs2; [by apply Hk|by apply leaves_refused].
Qed.

Lemma leaves_gate {B} (check : bytes -> DB B) ok msg k :
  (forall s, readonly (check s)) ->
  (forall s db b db', check s db = (Ok b, db') -> ok b = true ->
     exists role, stored_role (tables db) s = Ok role /\ console_needs rq role = true) ->
  (forall id w1, console_authorised (console_needs rq) headers w id -> same w1 -> leaves Q (k id) w1) ->
  leaves Q (with_identity
    (if negb (is_trusted_browser_origin headers (cfg_public_url (service_config service)))
     then mret (inl (denied &"owner request forbidden"))
     else ui_require env github service check ok msg headers) k) w.
Proof.
  intros Hr Hrole Hk. assert (same w) as Hw by done.
  destruct (is_trusted_browser_origin _ _) eqn:Ho; cbn [negb]; [|by apply leaves_refused].
  apply leaves_step; [by apply views_ui_require|done|].
  intros [response|id] w1 E Hs; [by apply leaves_refused|]. apply Hk; [|done].
  apply ui_require_ok in E as (_ & Hi & b & db & db' & Hc & Hok & Ht).
  destruct (Hrole _ _ _ _ Hc Hok) as (role & Hrl & Hn). rewrite Ht in Hrl.
  split; [done|]. eauto.
Qed.

Lemma leaves_operator k :
  console_needs rq = can_operate ->
  (forall id w1, console_authorised (console_needs rq) headers w id -> same w1 -> leaves Q (k id) w1) ->
  leaves Q (with_identity (ui_authorize_owner_mutation env github service headers) k) w.
Proof.
  intros Hn Hk. apply leaves_gate; [apply principal_role_readonly| |done].
  intros s db b db' Hp Hok. rewrite Hn. apply principal_role_ok in Hp. eauto.
Qed.

Lemma leaves_owner k :
  console_needs rq = is_owner_role ->
  (forall id w1, console_authorised (console_needs rq) headers w id -> same w1 -> leaves Q (k id) w1) ->
  leaves Q (with_identity (ui_authorize_role_change env github service headers) k) w.
Proof.
  intros Hn Hk. apply leaves_gate; [apply is_owner_readonly| |done].
  intros s db b db' Hp Hok. rewrite Hn. unfold is_owner, mbind, db_bind in Hp.
  destruct (principal_role s db) as [[r|] db1] eqn:E; [|done]. apply principal_role_ok in E.
  exists r. split; [done|]. apply pair_equal_spec in Hp as [[= <-] _]. done.
Qed.
End Form.

Lemma views_hash password : views (lift_console (hash_basic_password password)).
Proof. apply views_lift, reads_bind; [apply reads_outside|intros ?; apply reads_ensure]. Qed.
Lemma views_mint : views (lift_console (mint_agent_token env)).
Proof. apply views_lift, reads_bind; [apply reads_outside|intros ?; apply reads_ret]. Qed.

#[local] Ltac open_form := first [apply leaves_operator | apply leaves_owner]; [done|];
  intros id w1 Ha Hs.
#[local] Ltac checked := apply leaves_guard; [done|intros ?].
#[local] Ltac found_with rq o issued := apply (leaves_found rq _ _ _ o _ _ issued);
  [by apply runs_discard|done|by constructor|done].
#[local] Ltac change_with o := eapply (leaves_change _ _ _ _ o);
  [by apply runs_self|by apply negb_false_iff|eassumption|by constructor|done
  |intros ?; case_match; by eexists|intros []; right; by eexists].

Lemma ui_grant_refines rq headers w form :
  console_needs rq = can_operate ->
  console_event rq = (&"profile_grant", Some (form_profile form)) ->
  (forall mode expires, form_grant_mode (form_mode form) = Some mode ->
     form_expiry (form_expires form) = Some expires ->
     console_asks rq (GrantProfileMode (form_subject form) (form_profile form) mode expires)) ->
  leaves (console_step rq headers w) (ui_grant_profile env github service headers form) w.
Proof.
  intros Hn He Hasks. apply leaves_operator; [done|]. intros id w1 Ha Hs.
  destruct (require_known_profile _ _); [|by apply leaves_refused]. checked.
  destruct (form_grant_mode _) as [mode|] eqn:Em; [|by apply leaves_refused].
  destruct (form_expiry _) as [expires|] eqn:Ex; [|by apply leaves_refused]. checked.
  eapply (leaves_change _ _ _ _ (GrantProfileMode (form_subject form) (form_profile form) mode expires));
    [|by apply negb_false_iff|eassumption|by apply Hasks|done
    |intros ?; case_match; by eexists|intros []; right; rewrite He; by eexists].
  apply runs_self. cbn [run_op]. by destruct expires.
Qed.

Lemma console_forms_refine rq headers w :
  leaves (console_step rq headers w) (console rq headers) w.
Proof.
  destruct rq; cbn [console].
  - open_form. checked. checked. apply leaves_try; [apply views_hash|done|]. intros hash w2 Hs2. checked.
    eapply (leaves_change _ _ _ _ (UpsertBasicUser username hash));
      [by apply runs_self|by apply negb_false_iff|eassumption| |done|by eexists|].
    + constructor. breflect in *. lia.
    + intros []; right; by eexists.
  - open_form. checked. found_with (ConsoleEnableUser username enabled) (SetBasicUserEnabled username enabled)
      (@None IssuedAgentCredential).
  - open_form. checked. apply leaves_step; [apply views_mint|done|]. intros [token h] w2 _ Hs2. checked.
    change_with (CreateAgent name h).
  - open_form. checked. apply leaves_step; [apply views_mint|done|]. intros [token h] w2 _ Hs2.
    found_with (ConsoleRotateAgent name) (RotateAgentToken name h)
      (Some {| issued_name := name; issued_token := token |}).
  - open_form. checked. found_with (ConsoleEnableAgent name enabled) (SetAgentEnabled name enabled)
      (@None IssuedAgentCredential).
  - open_form. checked. found_with (ConsoleDeleteAgent name) (DeleteAgent name)
      (@None IssuedAgentCredential).
  - open_form. checked. destruct (role_parse role) as [r|] eqn:Er; [|by apply leaves_refused]. checked.
    change_with (SetPrincipalRole principal r).
  - apply ui_grant_refines; [done|done|]. by constructor.
  - unfold ui_grant_external_profile.
    destruct (external_identity_subject _ _) eqn:Ei; [|by apply leaves_refused].
    apply ui_grant_refines; [done|done|]. intros mode expires. simpl. by constructor.
  - open_form. destruct (require_known_profile _ _); [|by apply leaves_refused]. checked.
    found_with (ConsoleRevoke form) (RevokeProfile (form_subject form) (form_profile form))
      (@None IssuedAgentCredential).
Qed.

(** ** GitHub sign-in *)

(** Steps that leave the two maps alone. *)
Definition keeps_maps {A} (m : BX A) : Prop := forall w, server (m w).2 = server w.

Lemma keeps_maps_bind {A B} (m : BX A) (f : A -> BX B) :
  keeps_maps m -> (forall a, keeps_maps (f a)) -> keeps_maps (m ≫= f).
Proof.
  intros Hm Hf w. specialize (Hm w). unfold mbind, io_bind.
  destruct (m w) as [[a|e] w1]; cbn [snd] in *; [|done]. by rewrite Hf.
Qed.
Lemma keeps_ok {A} (m : BX A) w r w1 : keeps_maps m -> m w = (r, w1) -> server w1 = server w.
Proof. intros Hm H. specialize (Hm w). by rewrite H in Hm. Qed.

(** An account GitHub vouches for and the configuration admits. *)
Definition admitted (auth : GithubBrowserAuth) (user : Z) (token : bytes) : Prop :=
  user ∈ gh_user_ids auth
  \/ exists org n, org ∈ gh_organizations auth
       /\ membership gh n token org = Some (Some &"active").

Lemma keeps_membership token org : keeps_maps (has_active_organization_membership gh token org).
Proof. apply keeps_maps_bind; [done|intros ?]. apply keeps_maps_bind; [done|]. by intros [|]. Qed.
Lemma keeps_member token orgs : keeps_maps (member_of_any gh token orgs).
Proof.
  induction orgs as [|org orgs IH]; [done|]. cbn [member_of_any].
  apply keeps_maps_bind; [apply keeps_membership|]. by intros [].
Qed.
Lemma keeps_allowed auth user token : keeps_maps (is_allowed_user gh auth user token).
Proof. unfold is_allowed_user. case_match; [done|apply keeps_member]. Qed.

Lemma member_of_any_ok token orgs w w1 :
  member_of_any gh token orgs w = (Ok true, w1) ->
  exists org n, org ∈ orgs /\ membership gh n token org = Some (Some &"active").
Proof.
  revert w. induction orgs as [|org orgs IH]; intros w; [done|]. cbn [member_of_any]. intros H.
  apply io_bind_ok in H as (active & w2 & Ha & H). destruct active.
  - unfold has_active_organization_membership in Ha. inv_io.
    match goal with H : outside _ _ = _ |- _ => injection H as <- _ end. inv_ok.
    exists org, (calls w). repeat case_match; simplify_eq; breflect in *. subst.
    split; [set_solver|done].
  - apply IH in H as (o & n & Ho & Hn). exists o, n. split; [set_solver|done].
Qed.

Lemma is_allowed_user_ok auth user token w w1 :
  is_allowed_user gh auth user token w = (Ok true, w1) -> admitted auth user token.
Proof.
  unfold is_allowed_user, admitted. case_bool_decide; [by left|].
  intros Hm. right. by eapply member_of_any_ok.
Qed.

Lemma github_finish_ok auth st code uri w id w1 :
  github_finish env gh auth st code uri w = (Ok id, w1) ->
  exists item token user n,
    pending (server w) !! st = Some item
    /\ (system_time env (calls w) < pending_expires_at item)%Z
    /\ exchange_code gh n
         [(&"client_id", gh_client_id auth); (&"client_secret", gh_client_secret auth);
          (&"code", code); (&"redirect_uri", uri); (&"code_verifier", pending_verifier item)]
       = Some token
    /\ user_of_token gh (S n) token = Some user /\ admitted auth user token
    /\ id = {| subject := &"github:" ++ print_z user |}
    /\ server w1 = {| console_data := console_data (server w);
                      pending := delete st (pending (server w));
                      browser_sessions := browser_sessions (server w) |}.
Proof.
  unfold github_finish. intros H.
  apply io_bind_ok in H as (d & w2 & Hd & H). injection Hd as <- <-.
  apply io_bind_ok in H as ([] & w2 & Hp & H). apply pair_equal_spec in Hp as [_ <-].
  apply io_bind_ok in H as (now & w2 & Hn & H). apply io_bind_ok in H as (item & w3 & Hi & H).
  apply io_ensure_ok in Hi as [Hi ->].
  destruct (pending (server w) !! st) as [item'|] eqn:Ep; [|done]. simpl in Hn, Hi.
  injection Hn as <- <-.
  destruct (_ <? _)%Z eqn:Ex in Hi; [|done]. simpl in Hi. apply Ok_inj in Hi as ->. breflect in Ex.
  inv_io. repeat match goal with H : outside _ _ = _ |- _ => injection H as <- <- end.
  inv_ok. cbn [calls tick] in *.
  match goal with H : is_allowed_user _ _ _ _ _ = (Ok ?b, _) |- _ =>
    pose proof (keeps_ok _ _ _ _ (keeps_allowed _ _ _) H) as Hk; destruct b; [|done];
    apply is_allowed_user_ok in H end.
  do 4 eexists. split_and!; eauto.
Qed.

Lemma checked_add_some t d n : checked_add t d = Some n -> n = (t + d)%Z.
Proof. unfold checked_add. case_match; by intros [= <-]. Qed.

Lemma browser_session_ok id w token w1 :
  create_session env id w = (Ok token, w1) ->
  let now := system_time env (S (calls w)) in
  server w1 = {| console_data := console_data (server w); pending := pending (server w);
    browser_sessions := <[token := {| browser_identity := id;
        browser_expires_at := (now + GITHUB_SESSION_TTL)%Z |}]>
      (filter (fun kv => (now < browser_expires_at kv.2)%Z) (browser_sessions (server w))) |}.
Proof.
  unfold create_session, random_browser_token, system_now. intros H. inv_io.
  repeat match goal with H : outside _ _ = _ |- _ => injection H as <- <- end.
  match goal with H : get_server _ = _ |- _ => injection H as <- <- end.
  match goal with H : Browser.set_sessions _ _ = _ |- _ => apply pair_equal_spec in H as [_ <-] end.
  match goal with H : ok_or _ _ = Ok _ |- _ =>
    apply ok_or_ok, checked_add_some in H as -> end.
  done.
Qed.

(** What a callback that signs somebody in has checked, and what it leaves. *)
Definition signs_in (auth : GithubBrowserAuth) (headers : HeaderMap) (query : GithubCallback) w
    (r : Response) (w' : W) : Prop :=
  exists st code item token user n session k,
    callback_error query = None /\ callback_state query = Some st
    /\ cookie_value headers GITHUB_STATE_COOKIE = Some st /\ callback_code query = Some code
    /\ pending (server w) !! st = Some item
    /\ (system_time env (calls w) < pending_expires_at item)%Z
    /\ exchange_code gh n
         [(&"client_id", gh_client_id auth); (&"client_secret", gh_client_secret auth);
          (&"code", code);
          (&"redirect_uri", github_callback_url (cfg_public_url (service_config service)));
          (&"code_verifier", pending_verifier item)] = Some token
    /\ user_of_token gh (S n) token = Some user /\ admitted auth user token
    /\ r = github_callback_success session
    /\ pending (server w') = delete st (pending (server w))
    /\ browser_sessions (server w') !! session
       = Some {| browser_identity := {| subject := &"github:" ++ print_z user |};
                 browser_expires_at := (system_time env k + GITHUB_SESSION_TTL)%Z |}
    /\ forall other s, other <> session -> browser_sessions (server w') !! other = Some s ->
         browser_sessions (server w) !! other = Some s.

Lemma github_finish_sessions auth st code uri w :
  browser_sessions (server (github_finish env gh auth st code uri w).2)
  = browser_sessions (server w).
Proof.
  unfold github_finish. unfold mbind at 1, io_bind at 1, get_server at 1. cbv beta iota.
  set (v := (set_pending (delete st (pending (server w))) w).2).
  change (browser_sessions (server w)) with (browser_sessions (server v)). f_equal.
  unfold mbind at 1, io_bind at 1. unfold set_pending at 1, get_server, set_server, mbind at 1, io_bind at 1.
  cbv beta iota. match goal with |- server (?m ?u).2 = _ => change (server (m v).2 = server v);
    enough (keeps_maps m) as Hm by apply Hm end.
  apply keeps_maps_bind; [by case_match|intros now]. apply keeps_maps_bind; [done|intros item].
  do 4 (apply keeps_maps_bind; [done|intros ?]). apply keeps_maps_bind; [apply keeps_allowed|intros ?].
  by apply keeps_maps_bind.
Qed.

Lemma github_callback_spec auth headers query w r w' :
  github = Some auth -> github_callback env gh github service headers query w = (Ok r, w') ->
  (r = github_callback_rejected /\ browser_sessions (server w') = browser_sessions (server w))
  \/ signs_in auth headers query w r w'.
Proof.
  intros ->. unfold github_callback.
  destruct (callback_state query) as [st|] eqn:Es; [|intros H; inv_io; auto].
  destruct (cookie_value _ _) as [cookie|] eqn:Ec; [|intros H; inv_io; auto].
  destruct (_ || _) eqn:Eg; [intros H; inv_io; auto|]. breflect in Eg. destruct Eg as [Ee Eq].
  destruct (callback_code query) as [code|] eqn:Ed; [|intros H; inv_io; auto].
  intros H. apply or_return_ok in H as [(id & w1 & Hf & H)|[-> [err Hf]]].
  - apply github_finish_ok in Hf as (item & token & user & n & Hp & Hx & Ht & Hu & Ha & -> & Hs).
    apply io_bind_ok in H as (session & w2 & Hc & H). inv_io.
    apply browser_session_ok in Hc. cbv zeta in Hc. rewrite Hs in Hc. simpl in Hc.
    right. exists st, code, item, token, user, n, session, (S (calls w1)).
    rewrite Hc. simpl. split_and!; try done.
    + by rewrite lookup_insert_eq.
    + intros other s Hne Hl. rewrite lookup_insert_ne in Hl by done.
      by apply map_lookup_filter_Some in Hl as [Hl _].
  - left. split; [done|]. pose proof (github_finish_sessions auth st code
      (github_callback_url (cfg_public_url (service_config service))) w) as Hk.
    by rewrite Hf in Hk.
Qed.
End Facts.
