(* ===== verification/BrowserProps.v ===== *)
(** BrowserProps: what the owner page shows, who may use the console, and who is
    signed in through GitHub. *)

From Stdlib Require Import Ascii String.
From stdpp Require Import base list strings gmap sorting relations.
From S2P Require Import Prelude Str BTree External Models Database Store StoreFacts StoreProps Auth Connector ConnectorFacts Config ConfigFacts Leases LeaseProps Control ServiceFacts ControlFacts Sessions SessionFacts Proxy ProxyFacts ProxyProps Browser BrowserFacts.

(** ** The page, without the order in which it is put together *)

(** One principal, from the two maps as they were read. *)
Definition principal_with (gs : list OwnerGrant) (roles : BTreeMap PrincipalRole) (s : bytes)
    : OwnerPrincipal :=
  {| op_label := (display_principal s).1; op_kind := (display_principal s).2; op_subject := s;
     op_role := role_as_str (default User (bt_get roles s)); op_grants := gs |}.
Definition describe (grants : BTreeMap (list OwnerGrant)) (roles : BTreeMap PrincipalRole)
    (s : bytes) : OwnerPrincipal :=
  principal_with (default [] (bt_get grants s)) roles s.

(** [m'] is [m] without the keys [ks]. *)
Definition without {V} (ks : list bytes) (m m' : BTreeMap V) : Prop :=
  bt_wf m' /\ forall s, bt_get m' s = if decide (s ∈ ks) then None else bt_get m s.

Lemma without_nil {V} (m : BTreeMap V) : bt_wf m -> without [] m m.
Proof. done. Qed.
Lemma without_cons {V} k ks (m m' : BTreeMap V) :
  bt_wf m -> without ks (bt_remove m k) m' -> without (k :: ks) m m'.
Proof.
  intros Hm [Hw Hg]. split; [done|]. intros s. rewrite Hg.
  destruct (decide (s = k)) as [->|Hne].
  - rewrite (decide_True (P := k ∈ k :: ks)) by left.
    case_decide; [done|]. by apply bt_get_remove.
  - rewrite bt_get_remove_ne by done. do 2 case_decide; set_solver.
Qed.
Lemma without_app {V} ks ks' (m m' m'' : BTreeMap V) :
  without ks m m' -> without ks' m' m'' -> without (ks ++ ks') m m''.
Proof.
  intros [_ Hg] [Hw' Hg']. split; [done|]. intros s. rewrite Hg', Hg.
  repeat case_decide; set_solver.
Qed.

Lemma describe_without ks g g' r r' s :
  without ks g g' -> without ks r r' -> s ∉ ks -> describe g' r' s = describe g r s.
Proof. intros [_ Hg] [_ Hr] Hs. unfold describe, principal_with. by rewrite Hg, Hr, !decide_False. Qed.

Lemma take_principals_spec prefix kind names g r ps g' r' :
  (forall name, display_principal (prefix ++ name) = (name, kind)) ->
  NoDup names -> bt_wf g -> bt_wf r ->
  take_principals prefix kind names (g, r) = (ps, (g', r')) ->
  ps = describe g r <$> (app prefix <$> names)
  /\ without (app prefix <$> names) g g' /\ without (app prefix <$> names) r r'.
Proof.
  intros Hd. revert g r ps g' r'. induction names as [|name names IH]; intros g r ps g' r' Hn Hg Hr H.
  - simpl in H. by simplify_eq.
  - apply NoDup_cons in Hn as [Hnot Hn]. cbn [take_principals take_principal] in H.
    destruct (take_principals _ _ _ _) as [qs [g1 r1]] eqn:E. simplify_eq.
    apply IH in E as (-> & Hwg & Hwr); [|done|by apply bt_wf_remove..].
    split_and!; [|by apply without_cons..]. rewrite fmap_cons, fmap_cons. f_equal.
    { unfold describe, principal_with. by rewrite Hd. }
    apply list_fmap_ext. intros i s Hs.
    apply list_elem_of_lookup_2, list_elem_of_fmap in Hs as (n & -> & Hin).
    assert (prefix ++ n <> prefix ++ name) by (intros ?%(inj (app prefix)); by subst).
    unfold describe, principal_with. by rewrite !bt_get_remove_ne.
Qed.

Lemma granted_principals_with g r ps r' :
  NoDup g.*1 -> bt_wf r -> granted_principals g r = (ps, r') ->
  ps = (fun kv => principal_with kv.2 r kv.1) <$> g /\ without g.*1 r r'.
Proof.
  revert r ps r'. induction g as [|[s gs] g IH]; intros r ps r' Hn Hr H; cbn [granted_principals] in H.
  - by simplify_eq.
  - destruct (display_principal s) as [label kind] eqn:Ed.
    destruct (granted_principals _ _) as [qs r1] eqn:E. simplify_eq.
    simpl in Hn. apply NoDup_cons in Hn as [Hnot Hn].
    apply IH in E as (-> & Hw); [|done|by apply bt_wf_remove].
    split; [|by apply without_cons]. rewrite fmap_cons. f_equal.
    { unfold principal_with. cbn [fst snd]. by rewrite Ed. }
    apply list_fmap_ext. intros i [s' gs'] Hs. apply list_elem_of_lookup_2 in Hs.
    unfold principal_with. cbn [fst snd]. rewrite bt_get_remove_ne; [done|].
    intros ->. apply Hnot. apply list_elem_of_fmap. by exists (s', gs').
Qed.

Lemma granted_principals_spec g r ps r' :
  bt_wf g -> bt_wf r -> granted_principals g r = (ps, r') ->
  ps = describe g r <$> g.*1 /\ without g.*1 r r'.
Proof.
  intros Hg Hr H. apply granted_principals_with in H as [-> Hw]; [|by apply bt_wf_NoDup|done].
  split; [|done]. rewrite <- list_fmap_compose. apply list_fmap_ext. intros i [s gs] Hs.
  apply list_elem_of_lookup_2, bt_elem_get in Hs; [|done]. unfold describe. simpl. by rewrite Hs.
Qed.

Lemma display_basic name : display_principal (&"basic:" ++ name) = (name, &"Basic account").
Proof. unfold display_principal. by rewrite strip_prefix_app. Qed.
Lemma display_agent name : display_principal (&"agent:" ++ name) = (name, &"Agent").
Proof. unfold display_principal. by rewrite strip_prefix_app. Qed.

Lemma bt_keys {V} (m : BTreeMap V) k : k ∈ m.*1 <-> is_Some (bt_get m k).
Proof.
  pose proof (bt_get_None m k) as Hn. destruct (bt_get m k) as [v|] eqn:E.
  - split; [by eexists|]. intros _. apply bt_get_elem in E. apply list_elem_of_fmap. by exists (k, v).
  - split; [|by intros [? [=]]]. intros Hk. by apply Hn in Hk.
Qed.
Lemma without_keys {V} ks (m m' : BTreeMap V) k :
  without ks m m' -> k ∈ m'.*1 <-> k ∉ ks /\ is_Some (bt_get m k).
Proof.
  intros [_ Hg]. rewrite bt_keys, Hg. case_decide; [|tauto]. split; [by intros [v Hv]|by intros [Hk _]].
Qed.

Lemma role_principals_spec ks g r r' :
  without ks r r' -> (forall s, s ∉ ks -> bt_get g s = None) ->
  role_principals r' = describe g r <$> r'.*1.
Proof.
  intros Hw Hg. unfold role_principals. rewrite <- list_fmap_compose. apply list_fmap_ext.
  intros i [s role] Hs. apply list_elem_of_lookup_2, bt_elem_get in Hs; [|apply Hw].
  assert (s ∈ r'.*1) as Hk by (apply bt_keys; by rewrite Hs).
  rewrite (without_keys _ _ _ _ Hw) in Hk. destruct Hk as [Hk _].
  destruct Hw as [_ Hget]. rewrite Hget, decide_False in Hs by done.
  unfold describe, principal_with. simpl. rewrite Hs, (Hg s Hk). by destruct (display_principal s).
Qed.

(** The subjects of the page, each once. *)
Lemma principals_of_spec users agents g r :
  NoDup users -> NoDup agents -> bt_wf g -> bt_wf r ->
  exists subjects, NoDup subjects
    /\ (forall s, s ∈ subjects <-> s ∈ app &"basic:" <$> users \/ s ∈ app &"agent:" <$> agents
                               \/ is_Some (bt_get g s) \/ is_Some (bt_get r s))
    /\ principals_of users agents g r ≡ₚ describe g r <$> subjects.
Proof.
  intros Hu Ha Hg Hr. unfold principals_of.
  destruct (take_principals &"basic:" _ users _) as [basic [g1 r1]] eqn:E1.
  apply take_principals_spec in E1 as (-> & Hg1 & Hr1); [|apply display_basic|done..].
  destruct (take_principals &"agent:" _ agents _) as [agent [g2 r2]] eqn:E2.
  apply take_principals_spec in E2 as (-> & Hg2 & Hr2); [|apply display_agent|done|apply Hg1|apply Hr1].
  destruct (granted_principals g2 r2) as [granted r3] eqn:E3.
  apply granted_principals_spec in E3 as (-> & Hr3); [|apply Hg2|apply Hr2].
  set (B := app &"basic:" <$> users) in *. set (A := app &"agent:" <$> agents) in *.
  assert (forall s, s ∈ B -> s ∉ A) as HBA.
  { intros s HB HA. apply list_elem_of_fmap in HB as (u & -> & _).
    apply list_elem_of_fmap in HA as (a & Heq & _). discriminate Heq. }
  pose proof (without_app _ _ _ _ _ Hg1 Hg2) as Wg. pose proof (without_app _ _ _ _ _ Hr1 Hr2) as Wr.
  pose proof (without_app _ _ _ _ _ Wr Hr3) as Wr3.
  exists (B ++ A ++ g2.*1 ++ r3.*1). split_and!.
  - rewrite !NoDup_app. split_and!.
    + by apply (NoDup_fmap_2 _).
    + intros s HB. rewrite !elem_of_app, (without_keys _ _ _ s Wg), (without_keys _ _ _ s Wr3). set_solver.
    + by apply (NoDup_fmap_2 _).
    + intros s HA. rewrite !elem_of_app, (without_keys _ _ _ s Wg), (without_keys _ _ _ s Wr3). set_solver.
    + by apply bt_wf_NoDup, Wg.
    + intros s Hs. rewrite (without_keys _ _ _ s Wr3). set_solver.
    + by apply bt_wf_NoDup, Wr3.
  - intros s. rewrite !elem_of_app, (without_keys _ _ _ s Wr3), !elem_of_app, (without_keys _ _ _ s Wg), elem_of_app.
    destruct (decide (s ∈ B)), (decide (s ∈ A)); [tauto..|].
    destruct (bt_get g s), (bt_get r s); naive_solver.
  - unfold order_by. rewrite merge_sort_Permutation, !fmap_app.
    apply Permutation_app; [done|]. apply Permutation_app; [|apply Permutation_app].
    + apply reflexive_eq, list_fmap_ext. intros i s Hs. apply list_elem_of_lookup_2 in Hs.
      apply (describe_without _ _ _ _ _ _ Hg1 Hr1). set_solver.
    + apply reflexive_eq, list_fmap_ext. intros i s Hs. apply list_elem_of_lookup_2 in Hs.
      apply (describe_without _ _ _ _ _ _ Wg Wr). by apply (without_keys _ _ _ s Wg) in Hs as [? _].
    + apply reflexive_eq. apply (role_principals_spec _ _ _ _ Wr3). intros s Hs.
      destruct (bt_get g s) eqn:Es; [|done]. exfalso. apply Hs. apply elem_of_app.
      destruct (decide (s ∈ B ++ A)); [by left|right]. apply (without_keys _ _ _ s Wg). by rewrite Es.
Qed.

(** ** The page, from the tables *)

(** What a successful query read. *)
Lemma query_ok {A} (f : Tables -> A) db a db' :
  query f db = (Ok a, db') -> a = f (tables db) /\ tables db' = tables db.
Proof.
  intros H. pose proof (readonly_effect _ (readonly_query f) db) as Ht. rewrite H in Ht.
  pose proof (honest_result _ (readonly_honest _ (readonly_query f)) db a) as Hr.
  rewrite H in Hr. specialize (Hr eq_refl). apply ideal_query_ok in Hr as [-> _]. done.
Qed.

Lemma collect_results_elem {A B} (f : A -> result B) rows xs x :
  collect_results f rows = Ok xs -> x ∈ xs <-> exists row, row ∈ rows /\ f row = Ok x.
Proof.
  revert xs. induction rows as [|row rows IH]; intros xs H; cbn [collect_results] in H.
  - apply Ok_inj in H as <-. set_solver.
  - apply bind_ok in H as (y & Hy & H). apply bind_ok in H as (ys & Hys & H). apply Ok_inj in H as <-.
    rewrite elem_of_cons, (IH ys Hys). split.
    + intros [->|(r & Hr & Hx)]; [exists row|exists r]; split; set_solver.
    + intros (r & [->|Hr]%elem_of_cons & Hx); [left; congruence|right; by exists r].
Qed.

Lemma collect_results_all {A B} (f : A -> result B) rows xs row :
  collect_results f rows = Ok xs -> row ∈ rows -> exists x, f row = Ok x.
Proof.
  revert xs. induction rows as [|r rows IH]; intros xs H Hin; cbn [collect_results] in H; [set_solver|].
  apply bind_ok in H as (y & Hy & H). apply bind_ok in H as (ys & Hys & H).
  apply elem_of_cons in Hin as [->|Hin]; eauto.
Qed.

Lemma mode_roundtrip v m : mode_from_database v = Ok m -> mode_as_str m = v.
Proof. unfold mode_from_database. repeat case_bool_decide; intros [= <-]; by subst. Qed.

Lemma list_profile_grants_ok p db gs db' :
  list_profile_grants p db = (Ok gs, db') ->
  (forall s row, av_capability_grants (tables db) !! (s, p) = Some row ->
     exists mode, mode_from_database (grant_mode row) = Ok mode)
  /\ forall g, g ∈ gs <-> pg_profile g = p /\ exists row,
    av_capability_grants (tables db) !! (pg_subject g, p) = Some row
    /\ mode_from_database (grant_mode row) = Ok (pg_mode g) /\ pg_expires g = grant_expires row.
Proof.
  unfold list_profile_grants, mbind, db_bind. intros H.
  destruct (query _ db) as [[rows|] db1] eqn:Eq; [|done]. apply query_ok in Eq as [-> Ht].
  unfold lift in H. apply pair_equal_spec in H as [H _]. split.
  { intros s row Hl. eapply (collect_results_all _ _ _ (s, p, row)) in H as [g Hg].
    - unfold profile_grant_of in Hg. inv_ok. eauto.
    - rewrite elem_of_order_by, elem_of_map_to_list. by apply map_lookup_filter_Some. }
  intros g. rewrite (collect_results_elem _ _ _ _ H). split.
  - intros ([[s q] row] & Hin & Hg). rewrite elem_of_order_by, elem_of_map_to_list in Hin.
    apply map_lookup_filter_Some in Hin as [Hin Hq]. simpl in Hq. subst q.
    unfold profile_grant_of in Hg. inv_ok. subst g. simpl. eauto.
  - intros (Hp & row & Hl & Hm & He). exists (pg_subject g, p, row). split.
    + rewrite elem_of_order_by, elem_of_map_to_list. by apply map_lookup_filter_Some.
    + unfold profile_grant_of. rewrite Hm. simpl. f_equal. destruct g; simpl in *. congruence.
Qed.

Lemma list_rows_ok {R} (get : Tables -> gmap bytes R) (flag : R -> bool) db rows db' :
  (rows ← query (fun t => order_by fst (map_to_list (get t)));
   mret ((fun '(k, row) => (k, flag row)) <$> rows)) db = (Ok rows, db') ->
  NoDup rows.*1 /\ forall k, k ∈ rows.*1 <-> is_Some (get (tables db) !! k).
Proof.
  unfold mbind, db_bind. destruct (query _ db) as [[raw|] db1] eqn:Eq; [|done].
  apply query_ok in Eq as [-> _]. intros H. unfold mret, db_ret in H.
  apply pair_equal_spec in H as [H _]. apply Ok_inj in H as <-.
  assert (((fun '(k, row) => (k, flag row)) <$> order_by fst (map_to_list (get (tables db)))).*1
          ≡ₚ (map_to_list (get (tables db))).*1) as Hp.
  { rewrite <- list_fmap_compose. unfold order_by. rewrite merge_sort_Permutation.
    apply reflexive_eq, list_fmap_ext. by intros i [k row] _. }
  rewrite Hp. split; [apply NoDup_fst_map_to_list|]. intros k. rewrite Hp, list_elem_of_fmap. split.
  - intros ([k' row] & -> & Hin%elem_of_map_to_list). by exists row.
  - intros [row Hl%elem_of_map_to_list]. by exists (k, row).
Qed.

Lemma list_principal_roles_ok db bindings db' :
  list_principal_roles db = (Ok bindings, db') ->
  (forall s r, av_principal_roles (tables db) !! s = Some r -> exists role, role_parse r = Ok role)
  /\ forall s role, (s, role) ∈ bindings <-> exists r, av_principal_roles (tables db) !! s = Some r
                                        /\ role_parse r = Ok role.
Proof.
  unfold list_principal_roles, mbind, db_bind. intros H.
  destruct (query _ db) as [[rows|] db1] eqn:Eq; [|done]. apply query_ok in Eq as [-> Ht].
  unfold lift in H. apply pair_equal_spec in H as [H _]. split.
  { intros s r Hl. eapply (collect_results_all _ _ _ (s, r)) in H as [g Hg].
    - apply bind_ok in Hg as (role & Hr & _). eauto.
    - by rewrite elem_of_order_by, elem_of_map_to_list. }
  intros s role. rewrite (collect_results_elem _ _ _ _ H). split.
  - intros ([s' r] & Hin & Hr). rewrite elem_of_order_by, elem_of_map_to_list in Hin.
    apply bind_ok in Hr as (role' & Hrp & Hr). injection Hr as -> ->. by exists r.
  - intros (r & Hl & Hr). exists (s, r). split; [|by rewrite Hr].
    by rewrite elem_of_order_by, elem_of_map_to_list.
Qed.

(** A [BTreeMap] collected from pairs that agree on their keys. *)
Lemma bt_collect {V} (l : list (bytes * V)) (m : BTreeMap V) k v :
  (forall v', (k, v') ∈ l -> v' = v) ->
  bt_get (fold_left (fun m '(s, r) => bt_insert m s r) l m) k = Some v
  <-> (k, v) ∈ l \/ (k ∉ l.*1 /\ bt_get m k = Some v).
Proof.
  revert m. induction l as [|[k0 v0] l IH]; intros m Hf; [set_solver|]. cbn [fold_left].
  rewrite IH by set_solver. rewrite bt_get_insert, elem_of_cons. simpl. rewrite not_elem_of_cons.
  case_decide as Hk.
  - subst k0. assert (v0 = v) as -> by (apply Hf; left).
    destruct (decide (k ∈ l.*1)) as [Hin|Hout]; [|naive_solver].
    apply list_elem_of_fmap in Hin as ([k' v'] & -> & Hin). simpl in *.
    assert (v' = v) as -> by (apply Hf; by right). tauto.
  - split; [naive_solver|]. intros [[?|?]|?]; naive_solver.
Qed.
Lemma bt_wf_collect {V} (l : list (bytes * V)) (m : BTreeMap V) :
  bt_wf m -> bt_wf (fold_left (fun m '(s, r) => bt_insert m s r) l m).
Proof.
  revert m. induction l as [|[k v] l IH]; intros m Hm; [done|]. by apply IH, bt_wf_insert.
Qed.

(** The grants shown for a subject. *)
Definition shown (m : BTreeMap (list OwnerGrant)) (s : bytes) : list OwnerGrant :=
  default [] (bt_get m s).
Definition owner_grant (g : ProfileGrant) : OwnerGrant :=
  {| og_profile := pg_profile g; og_mode := mode_as_str (pg_mode g); og_expires := pg_expires g |}.
(** Well formed, and no subject without a grant. *)
Definition filled (m : BTreeMap (list OwnerGrant)) : Prop :=
  bt_wf m /\ forall s, bt_get m s <> Some [].

Lemma push_grants_spec gs m :
  filled m -> filled (fold_left push_grant gs m)
  /\ forall s og, og ∈ shown (fold_left push_grant gs m) s
       <-> og ∈ shown m s \/ exists g, g ∈ gs /\ pg_subject g = s /\ og = owner_grant g.
Proof.
  revert m. induction gs as [|g gs IH]; intros m Hm; [split; [done|]; set_solver|].
  cbn [fold_left]. assert (filled (push_grant m g)) as Hp.
  { split; [apply bt_wf_insert, Hm|]. intros s. unfold push_grant. rewrite bt_get_insert.
    case_decide; [|apply Hm]. intros [= E]. by apply app_eq_nil in E as [_ ?]. }
  destruct (IH _ Hp) as [Hf Hs]. split; [done|]. intros s og. rewrite Hs.
  assert (og ∈ shown (push_grant m g) s
          <-> og ∈ shown m s \/ (pg_subject g = s /\ og = owner_grant g)) as ->.
  { unfold shown, push_grant. rewrite bt_get_insert. case_decide as E; [subst s|naive_solver].
    simpl. rewrite elem_of_app, list_elem_of_singleton. naive_solver. }
  set_solver.
Qed.

Section Props.
Context {HL : HeaderLib} {UL : UrlLib} {EL : EncodingLib} {JL : JwtLib} {PL : PasswordLib}
  {BL : BackendLib} {AL : Argon2Lib}.
Context (env : Outside) (gh : Github) (github : option GithubBrowserAuth) (service : Service).
#[local] Abbreviation W := (Connector.world BrowserData).
#[local] Abbreviation state := (app_state service).
Implicit Types w : W.

(** A grant of the tables, as the page shows it. *)
Definition stored_grant (t : Tables) (s : bytes) (og : OwnerGrant) : Prop :=
  exists row, av_capability_grants t !! (s, og_profile og) = Some row
    /\ og_mode og = grant_mode row /\ og_expires og = grant_expires row.

Lemma lift_store_ok {A} (m : DB A) w a w1 :
  lift_console (with_store m) w = (Ok a, w1) -> m (store (base w)) = (Ok a, store (base w1)).
Proof.
  intros H. apply lift_console_ok in H as (v & H & <-). by apply with_store_ok in H.
Qed.

Lemma collect_grants_ok profiles m w m' w' :
  collect_grants profiles m w = (Ok m', w') -> filled m ->
  filled m' /\ forall s og, og ∈ shown m' s
    <-> og ∈ shown m s \/ (og_profile og ∈ profiles /\ stored_grant (tbl (base w)) s og).
Proof.
  revert m w. induction profiles as [|p ps IH]; intros m w H Hm; cbn [collect_grants] in H.
  - inv_io. split; [done|]. set_solver.
  - apply io_bind_ok in H as (gs & w1 & Hg & H). apply lift_store_ok in Hg.
    destruct (push_grants_spec gs m Hm) as [Hp Hs].
    destruct (IH _ _ H Hp) as [Hf Hs']. split; [done|]. intros s og. rewrite Hs', Hs.
    assert (tbl (base w1) = tbl (base w)) as ->.
    { pose proof (readonly_effect _ (readonly_grants p) (store (base w))) as Ht.
      rewrite Hg in Ht. done. }
    destruct (list_profile_grants_ok _ _ _ _ Hg) as [Hall Hiff]. fold (tbl (base w)) in Hall, Hiff.
    assert ((exists g, g ∈ gs /\ pg_subject g = s /\ og = owner_grant g)
            <-> og_profile og = p /\ stored_grant (tbl (base w)) s og) as ->; [split|].
    + intros (g & Hin & <- & ->). apply Hiff in Hin as (Hp' & row & Hl & Hmode & He).
      split; [done|]. exists row. simpl. rewrite Hp'. split_and!; [done|by apply mode_roundtrip|done].
    + intros (Hq & row & Hl & Hmode & He). rewrite Hq in Hl. destruct (Hall _ _ Hl) as [mode Hmd].
      exists {| pg_profile := p; pg_subject := s; pg_mode := mode; pg_expires := grant_expires row |}.
      split_and!; [apply Hiff; simpl; eauto|done|]. destruct og. unfold owner_grant. simpl in *.
      f_equal; [done|by rewrite (mode_roundtrip _ _ Hmd)|done].
    + rewrite elem_of_cons. tauto.
Qed.

(** A subject the page must show. *)
Definition known_subject (t : Tables) (s : bytes) : Prop :=
  (exists name, s = &"basic:" ++ name /\ is_Some (av_basic_users t !! name))
  \/ (exists name, s = &"agent:" ++ name /\ is_Some (av_agents t !! name))
  \/ (exists og, og_profile og ∈ (profiles state).*1 /\ stored_grant t s og)
  \/ is_Some (av_principal_roles t !! s).

(** What the page says of a subject. *)
Definition exact_principal (t : Tables) (pr : OwnerPrincipal) : Prop :=
  (op_label pr, op_kind pr) = display_principal (op_subject pr)
  /\ (exists role, stored_role t (op_subject pr) = Ok role /\ op_role pr = role_as_str role)
  /\ forall og, og ∈ op_grants pr
       <-> og_profile og ∈ (profiles state).*1 /\ stored_grant t (op_subject pr) og.

Lemma filled_some m s : filled m -> is_Some (bt_get m s) <-> exists og, og ∈ shown m s.
Proof.
  intros [_ Hf]. specialize (Hf s). unfold shown. destruct (bt_get m s) as [[|og gs]|]; simpl.
  - done.
  - split; [|done]. intros _. exists og. left.
  - split; [by intros [? ?]|]. intros [og Hog]. set_solver.
Qed.

Lemma panel_read {A} (m : DB A) k w p w' :
  readonly m ->
  or_return (lift_console (with_store m)) (Plain internal_error) k w = (Ok (Panel p), w') ->
  exists a w1 db', m (store (base w)) = (Ok a, db') /\ tbl (base w1) = tbl (base w)
                 /\ k a w1 = (Ok (Panel p), w').
Proof.
  intros Hm H. apply or_return_ok in H as [(a & w1 & Ha & H)|[[=] _]].
  pose proof (views_query m Hm w) as [Ht _]. rewrite Ha in Ht. apply lift_store_ok in Ha. eauto 10.
Qed.

Lemma roles_collected bindings t s :
  (forall s r, av_principal_roles t !! s = Some r -> exists role, role_parse r = Ok role) ->
  (forall s role, (s, role) ∈ bindings <-> exists r, av_principal_roles t !! s = Some r
                                        /\ role_parse r = Ok role) ->
  let roles := fold_left (fun m '(s, r) => bt_insert m s r) bindings [] in
  (is_Some (bt_get roles s) <-> is_Some (av_principal_roles t !! s))
  /\ stored_role t s = Ok (default User (bt_get roles s)).
Proof.
  intros Hall Hiff roles. unfold stored_role.
  destruct (av_principal_roles t !! s) as [r|] eqn:Er.
  - destruct (Hall _ _ Er) as [role Hr].
    assert (bt_get roles s = Some role) as ->; [|done]. apply bt_collect; [|left; apply Hiff; eauto].
    intros v (r' & Hr' & Hv)%Hiff. congruence.
  - destruct (bt_get roles s) as [role|] eqn:Eg; [|done]. exfalso.
    apply bt_collect in Eg as [Hin|[_ [=]]].
    + apply Hiff in Hin as (r & Hr & _). congruence.
    + intros v (r' & Hr' & Hv)%Hiff. congruence.
Qed.

Lemma principals_exact t users agents grants roles :
  NoDup users -> (forall k, k ∈ users <-> is_Some (av_basic_users t !! k)) ->
  NoDup agents -> (forall k, k ∈ agents <-> is_Some (av_agents t !! k)) ->
  filled grants ->
  (forall s og, og ∈ shown grants s <-> og_profile og ∈ (profiles state).*1 /\ stored_grant t s og) ->
  bt_wf roles ->
  (forall s, (is_Some (bt_get roles s) <-> is_Some (av_principal_roles t !! s))
     /\ stored_role t s = Ok (default User (bt_get roles s))) ->
  let ps := principals_of users agents grants roles in
  NoDup (op_subject <$> ps) /\ (forall s, s ∈ op_subject <$> ps <-> known_subject t s)
  /\ forall pr, pr ∈ ps -> exact_principal t pr.
Proof.
  intros NU Hu NA Ha Gf Hg Rw HR ps.
  destruct (principals_of_spec users agents grants roles NU NA (proj1 Gf) Rw)
    as (subjects & Hn & Hs & Hp). fold ps in Hp. clearbody ps.
  assert (op_subject <$> ps ≡ₚ subjects) as Hps.
  { rewrite Hp, <- list_fmap_compose. apply reflexive_eq, list_fmap_id. }
  split_and!.
  - by rewrite Hps.
  - intros s. rewrite Hps, Hs, (filled_some grants s Gf), (proj1 (HR s)), !list_elem_of_fmap.
    unfold known_subject. setoid_rewrite Hu. setoid_rewrite Ha. setoid_rewrite Hg. done.
  - intros pr. rewrite Hp, list_elem_of_fmap. intros (s & -> & Hin). split_and!.
    + by destruct (display_principal s) eqn:E; unfold describe, principal_with; simpl; rewrite E.
    + exists (default User (bt_get roles s)). split; [apply HR|done].
    + intros og. apply Hg.
Qed.

Lemma render_owner_panel_ok viewer issued w p w' :
  render_owner_panel service viewer issued w = (Ok (Panel p), w') ->
  NoDup (op_subject <$> panel_principals p)
  /\ (forall s, s ∈ op_subject <$> panel_principals p <-> known_subject (tbl (base w)) s)
  /\ (forall pr, pr ∈ panel_principals p -> exact_principal (tbl (base w)) pr)
  /\ panel_issued p = issued
  /\ (panel_manage_roles p = true <-> stored_role (tbl (base w)) viewer = Ok Owner).
Proof.
  unfold render_owner_panel. destruct (negb _); [done|]. intros H.
  apply panel_read in H as (users & w1 & ? & Hu & T1 & H);
    [|apply readonly_bind; [apply readonly_query|intros ?; apply readonly_ret]].
  apply panel_read in H as (agents & w2 & ? & Ha & T2 & H);
    [|apply readonly_bind; [apply readonly_query|intros ?; apply readonly_ret]].
  apply panel_read in H as (bindings & w3 & ? & Hb & T3 & H); [|apply readonly_roles].
  apply panel_read in H as (role & w4 & ? & Hv & T4 & H); [|apply principal_role_readonly].
  apply or_return_ok in H as [(grants & w5 & Hg & H)|[[=] _]]. inv_io.
  apply (list_rows_ok av_basic_users user_enabled) in Hu as [NU Hu].
  apply (list_rows_ok av_agents agent_enabled) in Ha as [NA Ha].
  apply list_principal_roles_ok in Hb as [Rall Rb]. apply principal_role_ok in Hv.
  apply collect_grants_ok in Hg as [Gf Hg]; [|split; [apply bt_wf_nil|done]].
  fold (tbl (base w)) (tbl (base w1)) (tbl (base w2)) (tbl (base w3)) in *.
  rewrite T4, T3, T2, T1 in Hg. rewrite T3, T2, T1 in Hv. rewrite T2, T1 in Rall, Rb. rewrite T1 in Ha.
  edestruct (principals_exact (tbl (base w)) users.*1 agents.*1 grants
    (fold_left (fun m '(s, r) => bt_insert m s r) bindings [])) as (Hn & Hk & He); try done.
  - intros s og. rewrite Hg. unfold shown. cbn [bt_get default]. rewrite elem_of_nil. tauto.
  - apply bt_wf_collect, bt_wf_nil.
  - intros s. by apply roles_collected.
  - split_and!; [done..|]. simpl. rewrite Hv. case_bool_decide; naive_solver.
Qed.

(** ** Claims *)

(** C17: Every form of the console refines a role-gated, audited store.  Whatever the
    request, the form either changes nothing, or a signed-in principal whose stored role
    suffices, asking from a trusted origin, makes exactly the store operation the form asks
    for; the owner page is shown only when the audit event of that operation, marked
    [managed-ui], is stored with it. *)
Theorem console_refines rq headers w :
  let run := console env github service rq headers w in
  console_step env github service rq headers w (is_panel run.1) (tbl (base run.2)).
Proof. apply console_forms_refine. Qed.

(** The owner page is shown only to a signed-in operator or owner and changes nothing.
    It lists every Basic user, agent, role binding and grant of a configured profile under
    its subject, each subject once, with the stored role and exactly the stored grants;
    roles can be managed from it only by an owner. *)
Theorem owner_page_exact headers w p w' :
  ui_owner env github service headers w = (Ok (Panel p), w') ->
  tbl (base w') = tbl (base w)
  /\ NoDup (op_subject <$> panel_principals p)
  /\ (forall s, s ∈ op_subject <$> panel_principals p <-> known_subject (tbl (base w)) s)
  /\ (forall pr, pr ∈ panel_principals p -> exact_principal (tbl (base w)) pr)
  /\ panel_issued p = None
  /\ exists id role, signed_in env github service headers w id
       /\ stored_role (tbl (base w)) (subject id) = Ok role /\ can_operate role = true
       /\ (panel_manage_roles p = true <-> role = Owner).
Proof.
  unfold ui_owner, with_identity. intros H. apply io_bind_ok in H as ([response|id] & w1 & Hr & H);
    [by inv_io|].
  pose proof (views_ui_require env github service principal_role can_operate &"operator access required"
    headers principal_role_readonly w) as [Ht _].
  change (ui_require env github service principal_role can_operate _ headers)
    with (ui_require_operator env github service headers) in Ht. rewrite Hr in Ht. cbn [snd] in Ht.
  pose proof (views_panel service (subject id) None w1) as [Ht' _]. rewrite H in Ht'. cbn [snd] in Ht'.
  apply ui_require_ok in Hr as (_ & Hi & role & db & db' & Hc & Hok & Hdb).
  apply principal_role_ok in Hc. rewrite Hdb in Hc.
  apply render_owner_panel_ok in H as (Hn & Hk & He & Hiss & Hm). rewrite Ht in *.
  split_and!; [done..|]. exists id, role. split_and!; [done..|]. rewrite Hm, Hc. split; congruence.
Qed.

(** C18: A GitHub callback either is rejected and starts no session, or the state in the
    query is the one in the caller's cookie and names an unexpired login that is used up by
    it, GitHub exchanged the code under that login's verifier, and the account it names is
    on the list or an active member of a listed organization.  The one session it starts
    belongs to that account for an hour, and the same state is refused afterwards. *)
Theorem github_sign_in_sound auth headers query w r w' :
  github = Some auth -> github_callback env gh github service headers query w = (Ok r, w') ->
  (r = github_callback_rejected /\ browser_sessions (server w') = browser_sessions (server w))
  \/ (signs_in env gh service auth headers query w r w'
      /\ forall headers' query' r' w'', callback_state query' = callback_state query ->
           github_callback env gh github service headers' query' w' = (Ok r', w'') ->
           r' = github_callback_rejected).
Proof.
  intros Hg H. destruct (github_callback_spec env gh github service auth headers query w r w' Hg H)
    as [?|Hs]; [by left|right]. split; [done|]. intros headers' query' r' w'' Hst H'.
  destruct (github_callback_spec env gh github service auth headers' query' w' r' w'' Hg H')
    as [[? _]|Hs']; [done|]. exfalso.
  destruct Hs as (st & _ & _ & _ & _ & _ & _ & _ & _ & Hq & _ & _ & _ & _ & _ & _ & _ & _ & Hp & _).
  destruct Hs' as (st' & _ & item & _ & _ & _ & _ & _ & _ & Hq' & _ & _ & Hl & _).
  assert (st' = st) as -> by congruence. rewrite Hp, lookup_delete_eq in Hl. done.
Qed.
End Props.

Module BrowserModels.
Import Models AuthModels ConnectorModels LeaseModels ConfigModels SessionModels ControlModels ProxyModels.

Definition staffed_world : Connector.world BrowserData := {|
  calls := 0; exchanges := []; tokens := ∅;
  server := {| console_data := {| active := ∅;
      database := {| tables := staffed; clock := Some 10%Z; outcomes := [] |}; keys := cold |};
    pending := ∅; browser_sessions := ∅ |} |}.

(** Account 7 is on the list; account 8 is an active member of [acme]. *)
Definition github_auth : GithubBrowserAuth := {|
  gh_client_id := &"client"; gh_client_secret := &"secret"; gh_user_ids := [7%Z];
  gh_organizations := [&"acme"] |}.
Definition hub (user : Z) : Github := {|
  exchange_code _ fields := Some &"token"; user_of_token _ _ := Some user;
  membership _ _ _ := if (user =? 8)%Z then Some (Some &"active") else Some None |}.

Definition started :=
  github_start (outside_world 200) (Some github_auth) proxying staffed_world.
Definition state_text : bytes := base64_url_safe_no_pad (repeat "r"%char 32).
Definition with_state : HeaderMap := [(&"cookie", &"a=b; av_github_state=" ++ state_text)].
Definition back : GithubCallback := {|
  callback_code := Some &"code"; callback_state := Some state_text; callback_error := None |}.
Definition called (user : Z) := github_callback (outside_world 200) (hub user) (Some github_auth)
  proxying with_state back started.2.

Lemma called_member : (called 8).1 = Ok (github_callback_success state_text).
Proof. vm_compute. reflexivity. Qed.
Example called_stranger : (called 9).1 = Ok github_callback_rejected.
Proof. vm_compute. reflexivity. Qed.

Lemma answers {A X} (run : A * X) a : run.1 = a -> run = (a, run.2).
Proof. by destruct run; simpl; intros ->. Qed.

Lemma github_sign_in_sound_witness :
  (exists session, browser_sessions (server (called 8).2) !! session
     = Some {| browser_identity := {| subject := &"github:8" |};
               browser_expires_at := (from_secs 100 + GITHUB_SESSION_TTL)%Z |})
  /\ (github_callback (outside_world 200) (hub 8) (Some github_auth) proxying with_state back
       (called 8).2).1 = Ok github_callback_rejected.
Proof.
  destruct (github_sign_in_sound (HL := headers) (outside_world 200) (hub 8) (Some github_auth) proxying
    github_auth with_state back started.2 (github_callback_success state_text) (called 8).2)
    as [[Hr _]|[(st & code & item & token & user & n & session & k & _ & _ & _ & _ & _ & _ & _ & Hu & _
                 & _ & _ & Hs & _) Hreplay]].
  - reflexivity.
  - exact (answers _ _ called_member).
  - discriminate Hr.
  - split.
    + exists session. injection Hu as <-. exact Hs.
    + vm_compute. reflexivity.
Defined.

Definition page := ui_owner (outside_world 200) None proxying as_agent staffed_world.
Definition shown_panel : OwnerPanel := {|
  panel_users := [(&"root", true)]; panel_agents := [(&"bot", true)]; panel_profiles := [&"deploy"];
  panel_principals := [
    {| op_label := &"OIDC identity"; op_kind := &"OIDC"; op_subject := &"admin";
       op_role := &"owner"; op_grants := [] |};
    {| op_label := &"bot"; op_kind := &"Agent"; op_subject := &"agent:bot";
       op_role := &"operator"; op_grants := [] |};
    {| op_label := &"root"; op_kind := &"Basic account"; op_subject := &"basic:root";
       op_role := &"owner"; op_grants := [] |}];
  panel_issued := None; panel_manage_roles := false |}.
Lemma page_shown : page.1 = Ok (Panel shown_panel).
Proof. vm_compute. reflexivity. Qed.

Lemma owner_page_exact_witness :
  known_subject proxying staffed &"admin"
  /\ exact_principal proxying staffed
       {| op_label := &"bot"; op_kind := &"Agent"; op_subject := &"agent:bot";
          op_role := &"operator"; op_grants := [] |}.
Proof.
  destruct (owner_page_exact (HL := headers) (outside_world 200) None proxying as_agent staffed_world
    shown_panel page.2) as (_ & _ & Hk & He & _).
  - exact (answers _ _ page_shown).
  - split; [apply Hk; left|apply He; right; left].
Defined.

(** An operator disables the agent; the page that follows is shown. *)
Definition disabled :=
  console (outside_world 200) None proxying (ConsoleEnableAgent &"bot" false) as_agent staffed_world.
Example disabled_shown : is_panel disabled.1 = true /\ length (av_audit_events (tbl (base disabled.2)))
  = S (length (av_audit_events staffed)).
Proof. vm_compute. done. Qed.
(** The same form from another site does nothing. *)
Example forged_refused : is_panel (console (outside_world 200) None proxying
  (ConsoleEnableAgent &"bot" false) (as_agent ++ [(&"sec-fetch-site", &"cross-site")]) staffed_world).1
  = false.
Proof. vm_compute. reflexivity. Qed.
End BrowserModels.
