(* ===== verification/Cli.v ===== *)
(** Cli: the command-line client of src/main.rs.

    Text the client parses (proxy headers, token files, image names) is handled
    by plain functions.  A run of the client is a computation of Connector.v
    over the trace of what it did: the requests it attempted and sent, the child
    it started, the bytes it wrote.  What the machine answers (files, keyring,
    server, child) is the record [Machine]. *)

From Stdlib Require Import Ascii String.
From stdpp Require Import base list strings gmap pretty.
From S2P Require Import Prelude Str BTree External Models Ip Net Connector Config Leases Sessions Browser.

(** ** Text *)

Definition CR : byte := "013"%char.
Definition LF : byte := "010"%char.
Definition CRLF : bytes := [CR; LF].

(** [s.split("\r\n")] *)
Fixpoint split_crlf (s : bytes) : list bytes :=
  match s with
  | [] => [[]]
  | x :: s1 =>
      let other :=
        match split_crlf s1 with piece :: rest => (x :: piece) :: rest | [] => [[x]] end in
      match s1 with
      | y :: s2 => if bool_decide (x = CR /\ y = LF) then [] :: split_crlf s2 else other
      | [] => other
      end
  end.

(** [s.split_ascii_whitespace()] *)
Fixpoint words_from (word s : bytes) : list bytes :=
  match s with
  | [] => if is_empty word then [] else [word]
  | x :: s =>
      if is_ascii_whitespace x
      then (if is_empty word then [] else [word]) ++ words_from [] s
      else words_from (word ++ [x]) s
  end.
Definition split_ascii_whitespace (s : bytes) : list bytes := words_from [] s.

(** [s.rsplit_once(p)] for a string [p] *)
Definition rsplit_once_str (p s : bytes) : option (bytes * bytes) :=
  i ← position (rev p) (rev s);
  Some (take (length s - i - length p) s, drop (length s - i) s).

Definition lower_hex (byte : byte) : bool := is_ascii_digit byte || in_range 97 102 byte.
Definition is_digest (digest : bytes) : bool := (len digest =? 64)%Z && forallb lower_hex digest.

Definition validate_digest_pinned_image (image : bytes) (label : string) : result unit :=
  if match strip_prefix &"sha256:" image with Some digest => is_digest digest | None => false end
  then Ok () else
  match rsplit_once_str &"@sha256:" image with
  | None => Err (label +:+ " must be pinned by sha256 digest")
  | Some (name, digest) =>
      bail_if (is_empty name || contains "@" name || any_whitespace name || negb (is_digest digest))
        (label +:+ " has an invalid sha256 reference")
  end.

Definition valid_env_name (name : bytes) : bool :=
  match name with
  | first :: rest =>
      (is_ascii_alphabetic first || one_of "_" first)
      && forallb (fun byte => is_ascii_alphanumeric byte || one_of "_" byte) rest
  | [] => false
  end.

(** [Path::file_name]: the last component that is a name *)
Definition file_name (path : bytes) : option bytes :=
  name ← last (filter (fun c => c <> [] /\ c <> &".") (split "/" path));
  if bool_decide (name = &"..") then None else Some name.
Definition portable_file_name (path : bytes) : option bytes :=
  name ← file_name path; if utf8_valid name then Some name else None.

(** [Path::parent]: empty and [.] components count only at the front *)
Definition skipped (piece : bytes) : bool := is_empty piece || bool_decide (piece = &".").
Definition parent (path : bytes) : option bytes :=
  match split "/" path with
  | [] => None
  | first :: rest =>
      match drop_while skipped (rev rest) with
      | [] => if is_empty first then None else Some []
      | _ :: above =>
          match first, drop_while skipped above with
          | [], [] => Some &"/"
          | _, above => Some (join "/" (first :: rev above))
          end
      end
  end.

(** [Path::join] with a relative path *)
Definition path_join (path name : bytes) : bytes :=
  if is_empty path || ends_with &"/" path then path ++ name else path ++ &"/" ++ name.

(** ** Commands *)

(** [std::process::Command]: [None] in the environment removes a variable. *)
Record ProcessCommand := {
  program : bytes; cmd_args : list bytes; changes : gmap bytes (option bytes) }.
Definition command_new (program : bytes) : ProcessCommand :=
  {| program := program; cmd_args := []; changes := ∅ |}.
Definition args (more : list bytes) (c : ProcessCommand) : ProcessCommand :=
  {| program := program c; cmd_args := cmd_args c ++ more; changes := changes c |}.
Definition set_change (name : bytes) (value : option bytes) (c : ProcessCommand) : ProcessCommand :=
  {| program := program c; cmd_args := cmd_args c; changes := <[name := value]> (changes c) |}.
Definition envs (values : list (bytes * bytes)) (c : ProcessCommand) : ProcessCommand :=
  fold_left (fun c '(name, value) => set_change name (Some value) c) values c.
Definition env_remove (names : list bytes) (c : ProcessCommand) : ProcessCommand :=
  fold_left (fun c name => set_change name None c) names c.

(** The environment of the child. *)
Definition child_environment (inherited : gmap bytes bytes) (c : ProcessCommand) : gmap bytes bytes :=
  merge (fun old change => match change with Some value => value | None => old end)
    inherited (changes c).

Definition wrapper_credentials : list bytes :=
  [&"AV_AGENT_TOKEN_FILE"; &"AV_AGENT_TOKEN"; &"AV_TOKEN"; &"AV_BASIC_USER"; &"AV_BASIC_PASSWORD";
   &"AV_PROXY_TRANSPORT_CA_FILE"].

Definition profile_command (executable : bytes) (arguments : list bytes) (secrets : BTreeMap bytes)
    : ProcessCommand :=
  env_remove wrapper_credentials (envs secrets (args arguments (command_new executable))).

(** [http] or [https], credential-free and without query, fragment or path *)
Definition bare_origin `{!UrlLib} (url : Url) : bool :=
  bool_decide (url_username url = []) && is_none (url_password url) && is_none (url_query url)
  && is_none (url_fragment url) && bool_decide (url_path url ∈ [[]; &"/"]).

Definition proxy_child_command `{!UrlLib} (url_as_str : Url -> bytes) (executable : bytes)
    (arguments : list bytes) (proxy_url ca_bundle_path additional_ca_path : bytes)
    : result ProcessCommand :=
  proxy_url ← ok_or (url_parse proxy_url) "local proxy URL is invalid";
  _ ← bail_if (negb (bool_decide (url_scheme proxy_url = &"http")) || negb (loopback_url proxy_url)
               || is_none (url_port proxy_url) || negb (bare_origin proxy_url))
        "local proxy URL must be a credential-free loopback HTTP origin";
  let url := url_as_str proxy_url in
  Ok (env_remove
        (wrapper_credentials
         ++ [&"AV_SYSTEM_CA_FILE"; &"NO_PROXY"; &"no_proxy"; &"ALL_PROXY"; &"all_proxy"])
        (envs
          [(&"HTTP_PROXY", url); (&"HTTPS_PROXY", url); (&"http_proxy", url); (&"https_proxy", url);
           (&"SSL_CERT_FILE", ca_bundle_path); (&"NODE_EXTRA_CA_CERTS", additional_ca_path);
           (&"CURL_CA_BUNDLE", ca_bundle_path); (&"REQUESTS_CA_BUNDLE", ca_bundle_path);
           (&"GIT_SSL_CAINFO", ca_bundle_path); (&"CODEX_CA_CERTIFICATE", additional_ca_path)]
          (args arguments (command_new executable)))).

(** [docker run] for the relay; its paths are displayed as they are. *)
Definition container_relay_command
    (helper_image helper_name relay_directory socket_path ready_path : bytes) (uid gid : Z)
    : result ProcessCommand :=
  socket_name ← ok_or (portable_file_name socket_path)
                  "container relay socket has no portable file name";
  ready_name ← ok_or (portable_file_name ready_path)
                 "container relay ready path has no portable file name";
  Ok (args
    [&"run"; &"--detach"; &"--pull"; &"never"; &"--name"; helper_name; &"--network"; &"none";
     &"--read-only"; &"--cap-drop"; &"ALL"; &"--security-opt"; &"no-new-privileges:true";
     &"--pids-limit"; &"64"; &"--user"; print_z uid ++ &":" ++ print_z gid;
     &"--mount"; &"type=bind,src=" ++ relay_directory ++ &",dst=/run/av";
     &"--entrypoint"; &"/usr/local/bin/av"; helper_image; &"container-relay";
     &"--socket"; &"/run/av/" ++ socket_name; &"--ready"; &"/run/av/" ++ ready_name]
    (command_new &"docker")).

Definition container_environment : list bytes :=
  [&"HOME=/home/av"; &"HTTP_PROXY=http://127.0.0.1:3128"; &"HTTPS_PROXY=http://127.0.0.1:3128";
   &"http_proxy=http://127.0.0.1:3128"; &"https_proxy=http://127.0.0.1:3128"; &"NO_PROXY=";
   &"no_proxy="; &"ALL_PROXY="; &"all_proxy="; &"SSL_CERT_FILE=/run/av-ca/ca-bundle.pem";
   &"CURL_CA_BUNDLE=/run/av-ca/ca-bundle.pem"; &"REQUESTS_CA_BUNDLE=/run/av-ca/ca-bundle.pem";
   &"GIT_SSL_CAINFO=/run/av-ca/ca-bundle.pem"; &"NODE_EXTRA_CA_CERTS=/run/av-ca/proxy-ca.pem";
   &"CODEX_CA_CERTIFICATE=/run/av-ca/proxy-ca.pem"].

Definition enforced_container_command
    (image helper_name target_name workspace ca_directory executable : bytes)
    (arguments : list bytes) (uid gid : Z) (is_terminal : bool) : result ProcessCommand :=
  _ ← bail_if (negb (utf8_valid executable)) "container executable must be valid UTF-8";
  _ ← bail_if (is_empty executable) "container executable cannot be empty";
  Ok (args arguments (args [image] (args (if is_terminal then [&"--tty"] else [])
    (args
      ([&"run"; &"--pull"; &"never"; &"--name"; target_name;
        &"--network"; &"container:" ++ helper_name; &"--read-only"; &"--cap-drop"; &"ALL";
        &"--security-opt"; &"no-new-privileges:true"; &"--pids-limit"; &"512";
        &"--user"; print_z uid ++ &":" ++ print_z gid;
        &"--tmpfs"; &"/tmp:rw,nosuid,nodev,noexec,size=1g,mode=1777";
        &"--tmpfs"; &"/home/av:rw,nosuid,nodev,size=256m,mode=1777";
        &"--mount"; &"type=bind,src=" ++ workspace ++ &",dst=/workspace";
        &"--mount"; &"type=bind,src=" ++ ca_directory ++ &",dst=/run/av-ca,readonly";
        &"--workdir"; &"/workspace"]
       ++ (x ← container_environment; [&"--env"; x])
       ++ [&"--entrypoint"; executable; &"--interactive"])
      (command_new &"docker"))))).

(** ** Proxy headers *)

Definition MAX_PROXY_HEADER : Z := 16 * 1024.
Definition HEADER_END : bytes := CRLF ++ CRLF.

(** A stream is the list of what its reads return: [None] fails, and after the
    last one, or on an empty one, the stream is closed. *)
Fixpoint read_proxy_header (buffered : bytes) (reads : list (option bytes))
    : result (bytes * bytes) * list (option bytes) :=
  match position HEADER_END buffered with
  | Some index => (Ok (take (index + 4) buffered, drop (index + 4) buffered), reads)
  | None =>
  if (MAX_PROXY_HEADER <=? len buffered)%Z then (Err "proxy request headers are too large", reads) else
  match reads with
  | [] => (Err "proxy connection closed before request headers", [])
  | None :: reads => (Err "read proxy headers", reads)
  | Some chunk :: reads =>
      if is_empty chunk then (Err "proxy connection closed before request headers", reads)
      else read_proxy_header (buffered ++ chunk) reads
  end
  end.

Definition connect_line (request_line : bytes) : bool :=
  match split_ascii_whitespace request_line with
  | [method; _; version] => bool_decide (method = &"CONNECT") && bool_decide (version = &"HTTP/1.1")
  | _ => false
  end.

(** The loop over the header lines, with the output and the number of hosts. *)
Fixpoint keep_headers (lines : list bytes) (output : bytes) (host_count : nat)
    : result (bytes * nat) :=
  match lines with
  | [] => Ok (output, host_count)
  | line :: lines =>
      if is_empty line then Ok (output, host_count) else
      _ ← bail_if (match line with c :: _ => one_of " " c || bool_decide (c = "009"%char) | [] => false end)
            "proxy request contains folded headers";
      '(name, value) ← ok_or (split_once ":" line) "proxy request has an invalid header";
      if eq_ignore_ascii_case name &"proxy-authorization"
      then keep_headers lines output host_count else
      let host_count := if eq_ignore_ascii_case name &"host" then S host_count else host_count in
      _ ← bail_if (is_empty name || contains CR value || contains LF value)
            "proxy request has an invalid header";
      keep_headers lines (output ++ line ++ CRLF) host_count
  end.

Definition inject_proxy_authorization (header token : bytes) : result bytes :=
  _ ← bail_if (is_empty token || existsb (fun b => is_ascii_whitespace b || is_ascii_control b) token)
        "proxy session token is invalid";
  _ ← bail_if (negb (utf8_valid header)) "proxy request headers are not UTF-8";
  match split_crlf header with
  | [] => Err "proxy request is missing a request line"
  | request_line :: lines =>
      _ ← bail_if (negb (connect_line request_line))
            "local proxy helper accepts CONNECT HTTP/1.1 only";
      '(output, host_count) ← keep_headers lines (request_line ++ CRLF) 0;
      _ ← bail_if (negb (host_count =? 1)) "proxy CONNECT request requires exactly one Host header";
      Ok (output ++ &"Proxy-Authorization: Bearer " ++ token ++ CRLF ++ CRLF)
  end.

Record RemoteProxyTarget := { target_address : bytes; target_server_name : bytes }.

(** [ServerName::try_from] of the rustls crate is [valid_server_name]. *)
Definition remote_proxy_target `{!UrlLib} (valid_server_name : bytes -> bool)
    (remote_proxy_url : bytes) : result RemoteProxyTarget :=
  remote ← ok_or (url_parse remote_proxy_url) "proxy session has an invalid proxy URL";
  _ ← bail_if (negb (bool_decide (url_scheme remote = &"https")) || is_none (url_host_str remote)
               || match url_host_str remote with Some host => is_some (parse_ip_addr host) | None => false end
               || is_none (url_port remote) || negb (bare_origin remote))
        "proxy session has an unsafe proxy URL";
  host ← ok_or (url_host_str remote) "panic: checked host";
  _ ← bail_if (negb (valid_server_name host)) "proxy session has an invalid DNS name";
  port ← ok_or (url_port remote) "panic: checked port";
  let address :=
    match parse_ip_addr host with
    | Some (V6 _) => &"[" ++ host ++ &"]:" ++ print_z port
    | _ => host ++ &":" ++ print_z port
    end in
  Ok {| target_address := address; target_server_name := host |}.

(** ** A run of the client *)

(** The calls of [manage_role] and [manage_agent] *)
Inductive ControlCall :=
| ListRolesCall
| SetRoleCall (subject role : bytes)
| ListAgentsCall
| CreateAgentCall (name : bytes)
| RotateAgentCall (name : bytes)
| EnableAgentCall (name : bytes) (enabled : bool)
| DeleteAgentCall (name : bytes)
| GrantCall (profile subject mode : bytes) (expires_unix_seconds : Z)
| RevokeCall (profile subject : bytes).
#[global] Instance ControlCall_eq_dec : EqDecision ControlCall.
Proof. solve_decision. Defined.
(** The decoded answer, as far as the client looks at it *)
Definition control_reply (call : ControlCall) : Type :=
  match call with
  | ListRolesCall => list (bytes * bytes)
  | ListAgentsCall => list (bytes * bool)
  | CreateAgentCall _ | RotateAgentCall _ => bytes
  | _ => unit
  end.

Record AuthConfigReply := {
  acr_client_id : bytes; acr_scopes : list bytes; acr_token_endpoint : bytes;
  acr_device_authorization_endpoint : bytes }.

Inductive ApiRequest :=
| Control (call : ControlCall)
| GetAuthConfig
| ListProfiles
| ListProxyDestinations
| GetProfileEnvironment (profile executable_basename : bytes)
| RenewProfileEnvironmentLease (lease_id : bytes)
| RevokeProfileEnvironmentLease (lease_id : bytes)
| CreateProxySession (profile : bytes)
| RenewProxySession (session_id : bytes)
| RevokeProxySession (session_id : bytes).
#[global] Instance ApiRequest_eq_dec : EqDecision ApiRequest.
Proof. solve_decision. Defined.

Definition reply_type (rq : ApiRequest) : Type :=
  match rq with
  | Control call => control_reply call
  | GetAuthConfig => AuthConfigReply
  | ListProfiles => list RpcProfile
  | ListProxyDestinations => list RpcProxyDestination
  | GetProfileEnvironment _ _ => ProfileEnvironment
  | RenewProfileEnvironmentLease _ | RevokeProfileEnvironmentLease _ => ProfileEnvironmentLease
  | CreateProxySession _ | RenewProxySession _ | RevokeProxySession _ => ProxySessionLease
  end.
(** The HTTP exchange: 401, any other failure, or a decoded answer. *)
Inductive ApiReply (A : Type) := Unauthorized | Failed | Replied (reply : A).
Arguments Unauthorized {A}.
Arguments Failed {A}.
Arguments Replied {A} reply.

(** The requests begun, and those sent with their [Authorization] header; the
    child; the bytes written to the remote proxy and to the local client. *)
Inductive ClientEvent :=
| Attempted (rq : ApiRequest)
| Sent (url : bytes) (rq : ApiRequest) (authorization : bytes)
| StartedChild (command : ProcessCommand)
| KilledChild
| Dialled (address : bytes)
| ToRemote (data : bytes)
| ToClient (data : bytes)
| Relayed
(** what it prints, the files it writes and protects, the programs it runs to
    their end, the forms it posts and the nanoseconds it waits *)
| Printed (text : bytes)
| CreatedDirectory (path : bytes)
| Restricted (path : bytes) (mode : Z)
| Wrote (path contents : bytes)
| Ran (program : bytes) (arguments : list bytes) (input : bytes)
| Posted (url : bytes) (form : list (bytes * bytes))
| Slept (nanos : Z).

Record FileMetadata := { meta_is_file : bool; meta_len : Z; meta_mode : Z }.

(** How the race of the child with the renewals goes: whether the child is
    polled first, how many renewals come before its end, whether one more is
    under way then, and how the child ends ([None] for a signal). *)
Record Race := {
  child_first : bool; renewals : nat; under_way : bool; spawned : bool; exit_code : result (option Z) }.

Record Machine := {
  env_var : bytes -> option bytes;
  metadata : nat -> bytes -> option FileMetadata;
  file_text : nat -> bytes -> option bytes;
  file_bytes : nat -> bytes -> option bytes;
  create_dir_all : nat -> bytes -> bool;
  set_permissions : nat -> bytes -> bool;
  fs_write : nat -> bytes -> bool;
  (** a new directory with a name that starts as given *)
  temp_dir : nat -> bytes -> option bytes;
  (** the status and the output of a program; [None] when it cannot be run *)
  program_output : nat -> bytes -> list bytes -> option (bool * bytes);
  stdin_written : nat -> bool;
  answer : nat -> forall rq : ApiRequest, bytes -> ApiReply (reply_type rq);
  race : nat -> Race;
  (** the address the loopback listener is bound to *)
  bind_loopback : nat -> result bytes;
  tcp_open : nat -> bytes -> bool;
  (** the handshake under the roots added to the public ones, for a server name *)
  tls_open : nat -> list bytes -> bytes -> bool;
  (** rustls: the provider's installation, the certificates of a PEM text and
      whether one can be a root *)
  install_provider : bool;
  pem_certificates : bytes -> option (list bytes);
  root_accepted : bytes -> bool;
  written : nat -> bool;
  copied : nat -> bool;
}.

Section Client.
Context {UL : UrlLib} {EL : EncodingLib}.
Context (env : Outside) (machine : Machine) (api_url : bytes).
Context (url_as_str : Url -> bytes) (valid_server_name : bytes -> bool).
#[local] Abbreviation CIO := (io (list ClientEvent)).

Definition record_event (e : ClientEvent) : CIO unit :=
  events ← get_server; set_server (events ++ [e]).

(** *** [keyring] *)

Definition DESCRIPTION : bytes := &"av:oidc-access-token".

Definition run_program (program : bytes) (arguments : list bytes) (input : bytes)
    : CIO (option (bool * bytes)) :=
  _ ← record_event (Ran program arguments input);
  outside (fun n => program_output machine n program arguments).

(** A program that only answers a question *)
Definition ask_program (program : bytes) (arguments : list bytes) : CIO (option (bool * bytes)) :=
  outside (fun n => program_output machine n program arguments).

Definition keyring_search : CIO (option bytes) :=
  output ← ask_program &"keyctl" [&"search"; &"@u"; &"user"; DESCRIPTION];
  '(success, stdout) ← ensure (ok_or output
                         "search kernel keyring; install keyutils or set AV_TOKEN");
  if negb success then mret None
  else _ ← ensure (bail_if (negb (utf8_valid stdout)) "invalid utf-8 sequence");
       mret (Some (trim stdout)).

Definition keyring_remove : CIO unit :=
  found ← keyring_search;
  match found with
  | None => mret ()
  | Some id =>
      output ← run_program &"keyctl" [&"unlink"; id; &"@u"] [];
      '(success, _) ← ensure (ok_or output "remove token from kernel keyring");
      ensure (bail_if (negb success) "could not remove OIDC session token from kernel keyring")
  end.

Definition keyring_store (token : bytes) : CIO unit :=
  _ ← ensure (bail_if (is_empty token) "refusing to store an empty token");
  _ ← attempt keyring_remove;
  output ← run_program &"keyctl" [&"padd"; &"user"; DESCRIPTION; &"@u"] token;
  '(success, _) ← ensure (ok_or output "start keyctl");
  written ← outside (stdin_written machine);
  _ ← ensure (bail_if (negb written) "write to keyctl");
  ensure (bail_if (negb success) "keyctl rejected the OIDC session token").

Definition keyring_load : CIO (option bytes) :=
  found ← keyring_search;
  match found with
  | None => mret None
  | Some id =>
      output ← ask_program &"keyctl" [&"pipe"; id];
      '(success, stdout) ← ensure (ok_or output "read token from kernel keyring");
      _ ← ensure (bail_if (negb success) "could not read OIDC session token from kernel keyring");
      _ ← ensure (bail_if (negb (utf8_valid stdout)) "invalid utf-8 sequence");
      mret (Some (trim stdout))
  end.

(** *** Private files *)

Definition restrict (path : bytes) (mode : Z) : CIO unit :=
  done ← outside (fun n => set_permissions machine n path);
  _ ← ensure (bail_if (negb done) "restrict {}");
  record_event (Restricted path mode).
Definition restrict_directory (path : bytes) : CIO unit := restrict path 448.
Definition restrict_file (path : bytes) : CIO unit := restrict path 384.
Definition make_directory (path : bytes) : CIO unit :=
  done ← outside (fun n => create_dir_all machine n path);
  _ ← ensure (bail_if (negb done) "create {}");
  record_event (CreatedDirectory path).

Definition write_private_file (path contents : bytes) : CIO unit :=
  _ ← match parent path with
      | Some directory => _ ← make_directory directory; restrict_directory directory
      | None => mret ()
      end;
  done ← outside (fun n => fs_write machine n path);
  _ ← ensure (bail_if (negb done) "write {}");
  _ ← record_event (Wrote path contents);
  restrict_file path.

(** *** Credentials *)

Definition read_agent_token (path : bytes) : CIO bytes :=
  found ← outside (fun n => metadata machine n path);
  m ← ensure (ok_or found "inspect AV agent token file {}");
  _ ← ensure (bail_if (negb (meta_is_file m) || (256 <? meta_len m)%Z)
                "AV agent token file must be a regular file no larger than 256 bytes");
  _ ← ensure (bail_if (negb (Z.land (meta_mode m) 63 =? 0)%Z)
                "AV agent token file must not be accessible by group or other users");
  text ← outside (fun n => file_text machine n path);
  raw ← ensure (ok_or text "read AV agent token file {}");
  let token := default raw (strip_suffix [LF] raw) in
  _ ← ensure (bail_if (negb (len token =? 52)%Z || negb (starts_with &"av_agent_" token)
                       || contains CR token || contains LF token
                       || negb (forallb url_safe_byte (drop 9 token)))
                "AV agent token file contains an invalid token");
  mret token.

(** The [Authorization] header of an authenticated request. *)
Definition authenticate_request : CIO bytes :=
  match env_var machine &"AV_AGENT_TOKEN_FILE" with
  | Some path => token ← read_agent_token path; mret (&"Agent " ++ token)
  | None =>
  match env_var machine &"AV_AGENT_TOKEN" with
  | Some token => mret (&"Agent " ++ token)
  | None =>
  match env_var machine &"AV_TOKEN" with
  | Some token => mret (&"Bearer " ++ token)
  | None =>
  match env_var machine &"AV_BASIC_USER", env_var machine &"AV_BASIC_PASSWORD" with
  | Some username, Some password =>
      mret (&"Basic " ++ base64_standard (username ++ &":" ++ password))
  | _, _ =>
      stored ← keyring_load;
      token ← ensure (ok_or stored "not logged in; run `av login` or set AV_AGENT_TOKEN/AV_TOKEN");
      mret (&"Bearer " ++ token)
  end end end end.

(** The checks of [client]; the HTTP client itself is built by its library. *)
Definition client : result unit :=
  url ← ok_or (url_parse api_url) "AV_URL must be a URL";
  bail_if (negb (bool_decide (url_scheme url = &"https")) && negb (loopback_url url))
    "AV_URL must use HTTPS unless it is loopback".

Definition control_procedure (call : ControlCall) : bytes :=
  match call with
  | ListRolesCall => &"ListPrincipalRoles"
  | SetRoleCall _ _ => &"SetPrincipalRole"
  | ListAgentsCall => &"ListAgents"
  | CreateAgentCall _ => &"CreateAgent"
  | RotateAgentCall _ => &"RotateAgent"
  | EnableAgentCall _ _ => &"SetAgentEnabled"
  | DeleteAgentCall _ => &"DeleteAgent"
  | GrantCall _ _ _ _ => &"GrantProfile"
  | RevokeCall _ _ => &"RevokeProfile"
  end.
Definition service_name (rq : ApiRequest) : bytes :=
  match rq with Control _ => &"av.v1.ControlService/" | _ => &"av.v1.SessionService/" end.
Definition procedure (rq : ApiRequest) : bytes :=
  service_name rq ++
  match rq with
  | Control call => control_procedure call
  | GetAuthConfig => &"GetAuthConfig"
  | ListProfiles => &"ListProfiles"
  | ListProxyDestinations => &"ListProxyDestinations"
  | GetProfileEnvironment _ _ => &"GetProfileEnvironment"
  | RenewProfileEnvironmentLease _ => &"RenewProfileEnvironmentLease"
  | RevokeProfileEnvironmentLease _ => &"RevokeProfileEnvironmentLease"
  | CreateProxySession _ => &"CreateProxySession"
  | RenewProxySession _ => &"RenewProxySession"
  | RevokeProxySession _ => &"RevokeProxySession"
  end.

(** The [authenticated] argument of [connect_request] *)
Definition authenticated (rq : ApiRequest) : bool :=
  match rq with GetAuthConfig => false | _ => true end.

(** A request without authentication has no [Authorization] header. *)
Definition connect_request (rq : ApiRequest) : CIO (reply_type rq) :=
  _ ← record_event (Attempted rq);
  _ ← ensure client;
  authorization ← (if authenticated rq then authenticate_request else mret []);
  _ ← record_event (Sent (trim_end_matches "/" api_url ++ &"/" ++ procedure rq) rq authorization);
  reply ← outside (fun n => answer machine n rq authorization);
  ensure match reply with
         | Unauthorized => Err "session is unauthorized or expired; run `av login`"
         | Failed => Err "request failed"
         | Replied reply => Ok reply
         end.

(** *** Renewal *)

Definition unix_now : CIO Z :=
  now ← system_now env;
  _ ← ensure (bail_if (now <? 0)%Z "system clock is before Unix epoch");
  let seconds := (now / NANOS)%Z in
  _ ← ensure (bail_if (2 ^ 63 <=? seconds)%Z "system clock is outside supported range");
  mret seconds.

(** [checked_sub] on [i64], then half of what remains and at least a second *)
Definition renewal_delay (expires : Z) : CIO Z :=
  now ← unix_now;
  let remaining := (expires - now)%Z in
  _ ← ensure (bail_if ((remaining <? - 2 ^ 63)%Z || (remaining <=? 0)%Z)
                "{label} expired before renewal");
  mret (Z.max (Z.quot remaining 2) 1).

(** One renewal of each kind: the new expiry. *)
Definition renew_profile_environment_lease_once (lease_id : bytes) : CIO Z :=
  renewed ← context_of (connect_request (RenewProfileEnvironmentLease lease_id))
              "renew dynamic profile lease";
  _ ← ensure (bail_if (negb (bool_decide (pel_lease_id renewed = lease_id)) || pel_revoked renewed)
                "AV returned an invalid dynamic profile lease renewal");
  now ← unix_now;
  _ ← ensure (bail_if (pel_expires_unix_seconds renewed <=? now)%Z
                "AV returned an invalid dynamic profile lease renewal");
  mret (pel_expires_unix_seconds renewed).
Definition renew_proxy_session_once (session_id : bytes) : CIO Z :=
  renewed ← context_of (connect_request (RenewProxySession session_id))
              "renew transparent proxy session";
  _ ← ensure (bail_if (negb (bool_decide (lease_session_id renewed = session_id)) || lease_revoked renewed)
                "AV returned an invalid proxy session renewal");
  now ← unix_now;
  _ ← ensure (bail_if (lease_expires renewed <=? now)%Z "AV returned an invalid proxy session renewal");
  mret (lease_expires renewed).

Definition is_start (e : ClientEvent) : bool := match e with StartedChild _ => true | _ => false end.
Definition start_child (r : Race) (command : ProcessCommand) : CIO unit :=
  if spawned r then record_event (StartedChild command) else ensure (Err "start child process").

(** The renewal loop until the child ends, or its error.  [pending] is the
    child's start when it has not been polled yet; [pending_request] the request
    a renewal begins with. *)
Fixpoint renew_until (once : CIO Z) (pending_request : ApiRequest) (under_way : bool)
    (pending : CIO unit) (n : nat) (expires : Z) : CIO unit :=
  _ ← renewal_delay expires;
  _ ← pending;
  match n with
  | 0 => if under_way then record_event (Attempted pending_request) else mret ()
  | S n =>
      expires ← once;
      renew_until once pending_request under_way (mret ()) n expires
  end.

(** [tokio::select!] between the child and its renewals.  A child that runs when
    a renewal fails is killed as it is dropped. *)
Definition race_child (once : CIO Z) (request : ApiRequest) (command : ProcessCommand) (expires : Z)
    : CIO Z :=
  r ← outside (race machine);
  _ ← (if child_first r then start_child r command else mret ());
  let pending := if child_first r then mret () else start_child r command in
  ended ← attempt (renew_until once request (under_way r) pending (renewals r) expires);
  match ended with
  | Err e =>
      events ← get_server;
      _ ← (if existsb is_start events then record_event KilledChild else mret ());
      ensure (Err e)
  | Ok _ =>
      code ← ensure (exit_code r);
      mret (Z.min (Z.max (default 1%Z code) 0) 255)
  end.

(** A child without a lease to renew. *)
Definition run_child (command : ProcessCommand) : CIO Z :=
  r ← outside (race machine);
  _ ← start_child r command;
  code ← ensure (exit_code r);
  mret (Z.min (Z.max (default 1%Z code) 0) 255).

(** *** [av <profile> -- <command>] *)

Definition usage : string := "usage: av <profile> -- <command> [args...]".

(** The profile, the executable and its arguments. *)
Definition profile_arguments (arguments : list bytes) : result (bytes * bytes * list bytes) :=
  match arguments with
  | profile :: _ :: _ =>
      _ ← bail_if (negb (utf8_valid profile)) "profile must be UTF-8";
      let rest := match tail arguments with
                  | first :: rest => if bool_decide (first = &"--") then rest else first :: rest
                  | [] => []
                  end in
      match rest with
      | executable :: rest => Ok (profile, executable, rest)
      | [] => Err usage
      end
  | _ => Err usage
  end.

(** The values as a map; a name that comes twice is refused. *)
Fixpoint collect_secrets (values : list (bytes * bytes)) (secrets : BTreeMap bytes)
    : result (BTreeMap bytes) :=
  match values with
  | [] => Ok secrets
  | (name, value) :: values =>
      _ ← bail_if (bt_contains secrets name) "profile returned duplicate environment variable {}";
      collect_secrets values (bt_insert secrets name value)
  end.

(** What a run answers, from the child's status and the revocation. *)
Definition run_result (status : result Z) (revoke : result bool) (invalid failed : string) : result Z :=
  match status, revoke with
  | Ok status, Ok true => Ok status
  | Ok _, Ok false => Err invalid
  | Err e, Ok _ => Err e
  | Ok _, Err _ => Err failed
  | Err _, Err _ => Err "child failed and revocation also failed"
  end.

Definition run_profile (arguments : list bytes) : CIO Z :=
  '(profile, executable, arguments) ← ensure (profile_arguments arguments);
  basename ← ensure (ok_or (portable_file_name executable) "command name must be valid UTF-8");
  environment ← connect_request (GetProfileEnvironment profile basename);
  secrets ← ensure (collect_secrets (env_values environment) []);
  _ ← ensure (bail_if (negb (forallb valid_env_name secrets.*1))
                "profile contains a key that is not a valid environment variable: {key}");
  let command := profile_command executable arguments secrets in
  if is_empty (env_lease_id environment) then
    _ ← ensure (bail_if (negb (env_expires_unix_seconds environment =? 0)%Z)
                  "AV returned an invalid static profile environment");
    run_child command
  else
    _ ← ensure (bail_if (env_expires_unix_seconds environment <=? 0)%Z
                  "AV returned an invalid dynamic profile lease");
    let lease_id := env_lease_id environment in
    status ← attempt (race_child (renew_profile_environment_lease_once lease_id)
                        (RenewProfileEnvironmentLease lease_id) command
                        (env_expires_unix_seconds environment));
    revoke ← attempt (connect_request (RevokeProfileEnvironmentLease lease_id));
    ensure (run_result status (pel_revoked <$> revoke)
              "AV returned an invalid dynamic lease revocation" "revoke dynamic profile lease").

(** *** [av run <profile> -- <command>] *)

(** The executable and its arguments, after an optional [--]. *)
Definition run_arguments (command : list bytes) : result (bytes * list bytes) :=
  let command := match command with
                 | first :: rest => if bool_decide (first = &"--") then rest else command
                 | [] => []
                 end in
  match command with
  | executable :: arguments => Ok (executable, arguments)
  | [] => Err "usage: av run <profile> -- <command> [args...]"
  end.

Definition is_file (path : bytes) : CIO bool :=
  found ← outside (fun n => metadata machine n path);
  mret (match found with Some m => meta_is_file m | None => false end).

Definition SYSTEM_CA_BUNDLES : list bytes :=
  [&"/etc/ssl/certs/ca-certificates.crt"; &"/etc/pki/tls/certs/ca-bundle.crt";
   &"/etc/ssl/ca-bundle.pem"; &"/etc/pki/ca-trust/extracted/pem/tls-ca-bundle.pem"].
Definition MAX_SYSTEM_CA_BUNDLE_BYTES : Z := 4 * 1024 * 1024.
Definition PEM_BEGIN : bytes := &"-----BEGIN CERTIFICATE-----".

(** The first absolute path that is a file *)
Fixpoint find_file (paths : list bytes) : CIO (option bytes) :=
  match paths with
  | [] => mret None
  | path :: paths =>
      found ← (if is_absolute path then is_file path else mret false);
      if found : bool then mret (Some path) else find_file paths
  end.

Definition read_system_ca_bundle : CIO bytes :=
  let explicit := option_list (env_var machine &"AV_SYSTEM_CA_FILE") in
  found ← find_file (explicit ++ SYSTEM_CA_BUNDLES);
  path ← ensure (ok_or found
           "no system CA bundle found; set AV_SYSTEM_CA_FILE to an absolute PEM bundle path");
  found ← outside (fun n => metadata machine n path);
  m ← ensure (ok_or found "inspect system CA bundle {}");
  _ ← ensure (bail_if ((meta_len m =? 0)%Z || (MAX_SYSTEM_CA_BUNDLE_BYTES <? meta_len m)%Z)
                "system CA bundle has an unsafe size");
  read ← outside (fun n => file_bytes machine n path);
  bundle ← ensure (ok_or read "read system CA bundle {}");
  _ ← ensure (bail_if (negb (contains_str PEM_BEGIN bundle))
                "system CA bundle does not contain PEM certificates");
  mret bundle.

(** The system's certificates and the proxy's own, which starts on a new line *)
Definition ca_bundle (system_ca certificate_pem : bytes) : bytes :=
  system_ca ++ (if ends_with [LF] system_ca then [] else [LF]) ++ certificate_pem.

(** The paths of the bundle and of the proxy's own certificate *)
Definition write_proxy_ca (certificate_pem : bytes) : CIO (bytes * bytes) :=
  _ ← ensure (bail_if (negb (contains_str PEM_BEGIN certificate_pem)
                       || (256 * 1024 <? len certificate_pem)%Z)
                "AV returned an invalid proxy CA certificate");
  created ← outside (fun n => temp_dir machine n &"av-proxy-");
  directory ← ensure (ok_or created "create private proxy CA directory");
  _ ← restrict_directory directory;
  let additional_path := path_join directory &"proxy-ca.pem" in
  _ ← write_private_file additional_path certificate_pem;
  system_ca ← read_system_ca_bundle;
  let bundle_path := path_join directory &"ca-bundle.pem" in
  _ ← write_private_file bundle_path (ca_bundle system_ca certificate_pem);
  mret (bundle_path, additional_path).

(** The roots that are added to the public ones *)
Definition transport_client_config : CIO (list bytes) :=
  _ ← ensure (bail_if (negb (install_provider machine))
                "install aws-lc-rs as the Rustls crypto provider");
  match env_var machine &"AV_PROXY_TRANSPORT_CA_FILE" with
  | None => mret []
  | Some path =>
      _ ← ensure (bail_if (negb (is_absolute path)) "AV_PROXY_TRANSPORT_CA_FILE must be an absolute path");
      read ← outside (fun n => file_bytes machine n path);
      pem ← ensure (ok_or read "read proxy transport CA certificate {}");
      _ ← ensure (bail_if (256 * 1024 <? len pem)%Z "proxy transport CA certificate is too large");
      certificates ← ensure (ok_or (pem_certificates machine pem) "parse proxy transport CA certificate");
      _ ← ensure (bail_if (is_empty certificates) "proxy transport CA certificate is empty");
      _ ← ensure (bail_if (negb (forallb (root_accepted machine) certificates))
                    "proxy transport CA certificate is invalid");
      mret certificates
  end.

(** The remote target and the listener's address; its loop gives every connection
    to [proxy_local_connection]. *)
Definition start_loopback_proxy_with_tls (remote_proxy_url : bytes) : CIO (RemoteProxyTarget * bytes) :=
  remote ← ensure (remote_proxy_target valid_server_name remote_proxy_url);
  address ← outside (bind_loopback machine);
  address ← ensure address;
  mret (remote, address).

(** The transport's roots besides *)
Definition start_loopback_proxy (remote_proxy_url : bytes) : CIO (list bytes * RemoteProxyTarget * bytes) :=
  transport ← transport_client_config;
  '(remote, address) ← start_loopback_proxy_with_tls remote_proxy_url;
  mret (transport, remote, address).

Definition run_transparent_proxy (profile : bytes) (command : list bytes) : CIO Z :=
  '(executable, arguments) ← ensure (run_arguments command);
  lease ← connect_request (CreateProxySession profile);
  _ ← ensure (bail_if (is_empty (lease_session_id lease) || is_empty (lease_token lease)
                       || is_empty (lease_proxy_url lease) || is_empty (lease_ca_pem lease))
                "AV returned an incomplete proxy session");
  let session_id := lease_session_id lease in
  status ← attempt (
    '(bundle_path, additional_path) ← write_proxy_ca (lease_ca_pem lease);
    '(_, address) ← start_loopback_proxy (lease_proxy_url lease);
    command ← ensure (proxy_child_command url_as_str executable arguments (&"http://" ++ address)
                        bundle_path additional_path);
    race_child (renew_proxy_session_once session_id) (RenewProxySession session_id) command
      (lease_expires lease));
  revoke ← attempt (connect_request (RevokeProxySession session_id));
  ensure (run_result status ((fun _ => true) <$> revoke) "" "revoke transparent proxy session").

(** *** A connection through the local helper *)

Definition write (e : ClientEvent) : CIO unit :=
  _ ← record_event e;
  ok ← outside (written machine);
  ensure (bail_if (negb ok) "write failed").

Definition accepted (response : bytes) : bool :=
  starts_with &"HTTP/1.1 200" response || starts_with &"HTTP/1.0 200" response.

Definition proxy_local_connection (transport : list bytes) (remote : RemoteProxyTarget) (token : bytes)
    (client_reads remote_reads : list (option bytes)) : CIO unit :=
  '(header, remaining) ← ensure (read_proxy_header [] client_reads).1;
  rewritten ← ensure (inject_proxy_authorization header token);
  _ ← record_event (Dialled (target_address remote));
  open ← outside (fun n => tcp_open machine n (target_address remote));
  _ ← ensure (bail_if (negb open) "connect private AV proxy");
  secure ← outside (fun n => tls_open machine n transport (target_server_name remote));
  _ ← ensure (bail_if (negb secure) "verify private AV proxy transport TLS");
  _ ← write (ToRemote rewritten);
  '(response, remote_remaining) ← ensure (read_proxy_header [] remote_reads).1;
  _ ← write (ToClient response);
  if negb (accepted response) then mret () else
  _ ← (if is_empty remaining then mret () else write (ToRemote remaining));
  _ ← (if is_empty remote_remaining then mret () else write (ToClient remote_remaining));
  _ ← record_event Relayed;
  ok ← outside (copied machine);
  ensure (bail_if (negb ok) "relay local proxy connection").
End Client.
