(* ===== verification/CliFacts.v ===== *)
(** CliFacts: the lines and traces of the client.

    Header text is split and joined again line by line; a run only appends to its
    trace, and [extends] says which events a step may append. *)

From Stdlib Require Import Ascii String.
From stdpp Require Import base list strings gmap.
From S2P Require Import Prelude Str BTree External Models Ip Net Connector ConnectorFacts Config ConfigFacts Leases Sessions Browser Cli.

(** ** Lines *)

Lemma split_crlf_end s : split_crlf (CR :: LF :: s) = [] :: split_crlf s.
Proof. done. Qed.
Lemma split_crlf_cons x s :
  ~ (x = CR /\ head s = Some LF) ->
  split_crlf (x :: s) = match split_crlf s with p :: r => (x :: p) :: r | [] => [[x]] end.
Proof.
  intros H. destruct s as [|y s]; [done|]. cbn [split_crlf]. rewrite bool_decide_eq_false_2; [done|].
  intros [-> ->]. by apply H.
Qed.
Lemma split_crlf_some s : exists p r, split_crlf s = p :: r.
Proof.
  destruct s as [|x s]; [by do 2 eexists|].
  destruct (decide (x = CR /\ head s = Some LF)) as [[-> Hs]|Hn].
  - destruct s as [|y s]; [done|]. injection Hs as ->. rewrite split_crlf_end. by do 2 eexists.
  - rewrite split_crlf_cons by done. destruct (split_crlf s); by do 2 eexists.
Qed.

(** A line: it has no line end inside. *)
Definition one_line (l : bytes) : Prop := split_crlf l = [l].

Lemma one_line_cons x l : one_line (x :: l) <-> one_line l /\ ~ (x = CR /\ head l = Some LF).
Proof.
  unfold one_line. destruct (decide (x = CR /\ head l = Some LF)) as [[-> Hl]|Hn].
  - destruct l as [|y l]; [done|]. injection Hl as ->. rewrite split_crlf_end. split; [done|]. intros [_ H]. naive_solver.
  - rewrite split_crlf_cons by done. destruct (split_crlf_some l) as (p & r & ->).
    split; [intros [= -> ->]; done|]. by intros [[= -> ->] _].
Qed.

Lemma split_crlf_line l s : one_line l -> split_crlf (l ++ CRLF ++ s) = l :: split_crlf s.
Proof.
  induction l as [|x l IH]; intros Hl; [done|]. apply one_line_cons in Hl as [Hl Hx].
  rewrite <- app_comm_cons, split_crlf_cons; [by rewrite IH|].
  intros [-> Hh]. apply Hx. by destruct l.
Qed.

Lemma split_crlf_lines ls s :
  Forall one_line ls -> split_crlf (concat ((fun l => l ++ CRLF) <$> ls) ++ s) = ls ++ split_crlf s.
Proof.
  induction 1 as [|l ls Hl _ IH]; [done|]. rewrite fmap_cons. cbn [concat].
  rewrite <- !app_assoc, split_crlf_line, IH by done. done.
Qed.

Lemma split_crlf_pieces s : Forall one_line (split_crlf s).
Proof.
  induction s as [s IH] using (well_founded_induction (Wf_nat.well_founded_ltof _ length)).
  unfold Wf_nat.ltof in IH. destruct s as [|x s]; [by repeat constructor|].
  destruct (decide (x = CR /\ head s = Some LF)) as [[-> Hs]|Hn].
  - destruct s as [|y s]; [done|]. injection Hs as ->. rewrite split_crlf_end. constructor; [done|].
    apply IH. simpl. lia.
  - rewrite split_crlf_cons by done. specialize (IH s ltac:(simpl; lia)).
    destruct s as [|y s]; [by repeat constructor|].
    destruct (split_crlf (y :: s)) as [|p r] eqn:E; [by repeat constructor|].
    apply Forall_cons in IH as [Hp Hr]. constructor; [|done]. apply one_line_cons. split; [done|].
    intros [-> Hh]. apply Hn. split; [done|]. simpl.
    destruct (decide (y = CR /\ head s = Some LF)) as [[-> Hs]|Hn'].
    + destruct s as [|z s]; [done|]. injection Hs as ->. rewrite split_crlf_end in E. by simplify_eq.
    + rewrite split_crlf_cons in E by done.
      destruct (split_crlf s); simplify_eq; simpl in Hh; congruence.
Qed.

Lemma one_line_no_lf l : LF ∉ l -> one_line l.
Proof.
  induction l as [|x l IH]; intros Hn; [done|]. apply one_line_cons. split; [set_solver|].
  intros [_ Hh]. destruct l; simplify_eq. set_solver.
Qed.

(** ** The rewritten CONNECT *)

Definition named (n line : bytes) : bool :=
  match split_once ":" line with Some (name, _) => eq_ignore_ascii_case name n | None => false end.
Definition credential_line : bytes -> bool := named &"proxy-authorization".

(** The lines before the first empty one. *)
Fixpoint block (lines : list bytes) : list bytes :=
  match lines with
  | [] => []
  | line :: lines => if is_empty line then [] else line :: block lines
  end.
Definition kept (lines : list bytes) : list bytes :=
  filter (fun line => credential_line line = false) (block lines).

Definition header_line (line : bytes) : Prop :=
  head line <> Some " "%char /\ head line <> Some "009"%char
  /\ exists name value, split_once ":" line = Some (name, value)
       /\ (credential_line line = true \/ (name <> [] /\ CR ∉ value /\ LF ∉ value)).

Definition hosts (lines : list bytes) : nat := length (filter (fun l => named &"host" l = true) lines).

Lemma keep_header_line line lines out n res :
  line <> [] ->
  keep_headers (line :: lines) out n = Ok res <->
  header_line line /\
  (if credential_line line then keep_headers lines out n
   else keep_headers lines (out ++ line ++ CRLF) (if named &"host" line then S n else n)) = Ok res.
Proof.
  intros Hne. cbn [keep_headers]. destruct line as [|c l]; [done|]. cbn [is_empty].
  unfold header_line, credential_line, named. rewrite bind_ok. setoid_rewrite bail_if_ok.
  assert (one_of " " c || bool_decide (c = "009"%char) = false
          <-> head (c :: l) <> Some " "%char /\ head (c :: l) <> Some "009"%char) as Hfold.
  { rewrite orb_false_iff, bool_decide_eq_false, <- not_true_iff_false, one_of_spec. simpl. set_solver. }
  destruct (split_once ":" (c :: l)) as [[name value]|]; cbn [ok_or].
  2: { split; [by intros (_ & _ & [=])|]. by intros [(_ & _ & ? & ? & [=] & _) _]. }
  change (Ok (name, value) ≫= ?f) with (f (name, value)). cbv beta iota.
  destruct (eq_ignore_ascii_case name &"proxy-authorization").
  - split; [intros ([] & Hf & H)|intros [(H1 & H2 & _) H]].
    + apply Hfold in Hf as []. split; [|done]. split_and!; [done..|]. exists name, value. auto.
    + exists (). split; [by apply Hfold|done].
  - assert (is_empty name || contains CR value || contains LF value = false
            <-> name <> [] /\ CR ∉ value /\ LF ∉ value) as Hv.
    { unfold contains. rewrite !orb_false_iff, !bool_decide_eq_false. destruct name; naive_solver. }
    split.
    + intros ([] & Hf & H). rewrite bind_ok in H. setoid_rewrite bail_if_ok in H.
      destruct H as ([] & Hv' & H). apply Hfold in Hf as []. apply Hv in Hv'.
      split; [|done]. split_and!; [done..|]. exists name, value. auto.
    + intros [(H1 & H2 & name' & value' & Heq & [[=]|Hok]) Hrest]. injection Heq as <- <-.
      exists (). split; [by apply Hfold|]. rewrite bind_ok. setoid_rewrite bail_if_ok.
      exists (). split; [by apply Hv|done].
Qed.

Lemma keep_headers_iff lines out n out' n' :
  keep_headers lines out n = Ok (out', n') <->
  Forall header_line (block lines)
  /\ out' = out ++ concat ((fun l => l ++ CRLF) <$> kept lines) /\ n' = n + hosts (kept lines).
Proof.
  assert (forall out n, Ok (out, n) = Ok (out', n') <->
    Forall header_line [] /\ out' = out ++ [] /\ n' = n + 0) as Hend.
  { intros. rewrite app_nil_r, Nat.add_0_r. split; [by intros [= <- <-]|]. by intros (_ & -> & ->). }
  revert out n. induction lines as [|line lines IH]; intros out n; [apply Hend|].
  unfold kept. cbn [block]. destruct line as [|c l]; [apply Hend|].
  rewrite keep_header_line by done. cbn [is_empty]. rewrite Forall_cons, filter_cons.
  destruct (credential_line (c :: l)) eqn:Ec.
  - rewrite decide_False by done. rewrite IH. unfold kept. tauto.
  - rewrite decide_True by done. rewrite IH. unfold kept, hosts. rewrite fmap_cons, filter_cons. cbn [concat].
    rewrite !app_assoc. destruct (named &"host" (c :: l)).
    + rewrite decide_True by done. cbn [length]. rewrite Nat.add_succ_r. tauto.
    + rewrite decide_False by done. tauto.
Qed.

Definition authorization_line (token : bytes) : bytes := &"Proxy-Authorization: Bearer " ++ token.
Definition good_token (token : bytes) : Prop :=
  token <> [] /\ Forall (fun b => is_ascii_whitespace b = false /\ is_ascii_control b = false) token.

Lemma inject_proxy_authorization_spec header token out :
  inject_proxy_authorization header token = Ok out <->
  good_token token /\ utf8_valid header = true
  /\ exists line lines, split_crlf header = line :: lines /\ connect_line line = true
     /\ Forall header_line (block lines) /\ hosts (kept lines) = 1
     /\ out = line ++ CRLF ++ concat ((fun l => l ++ CRLF) <$> kept lines)
               ++ authorization_line token ++ CRLF ++ CRLF.
Proof.
  unfold inject_proxy_authorization. destruct (split_crlf_some header) as (line & lines & ->).
  assert (is_empty token || existsb (fun b => is_ascii_whitespace b || is_ascii_control b) token = false
          <-> good_token token) as Ht.
  { unfold good_token. rewrite orb_false_iff, existsb_false, (Forall_iff _ token _ (fun b => orb_false_iff _ _)).
    destruct token; split; [by intros [? _]|by intros [? _]|by intros [_ ?]|by intros [_ ?]]. }
  rewrite bind_ok. setoid_rewrite bail_if_ok. split.
  - intros ([] & H1 & H). apply Ht in H1. rewrite bind_ok in H. setoid_rewrite bail_if_ok in H.
    destruct H as ([] & H2 & H). apply negb_false_iff in H2. rewrite bind_ok in H.
    setoid_rewrite bail_if_ok in H. destruct H as ([] & H3 & H). apply negb_false_iff in H3.
    apply bind_ok in H as ([output n] & Hk & H). apply keep_headers_iff in Hk as (Hb & -> & ->).
    apply bind_ok in H as ([] & Hn & H). apply bail_if_ok, negb_false_iff, Nat.eqb_eq in Hn.
    apply Ok_inj in H as <-. split_and!; [done..|]. exists line, lines. split_and!; try done.
    unfold authorization_line. by rewrite <- !app_assoc.
  - intros (H1 & H2 & line' & lines' & [= <- <-] & H3 & Hb & Hn & ->).
    exists (). split; [by apply Ht|]. rewrite H2, H3. simpl.
    rewrite (proj2 (keep_headers_iff lines (line ++ CRLF) 0 _ 1)) by (by rewrite Hn). simpl.
    unfold authorization_line. by rewrite <- !app_assoc.
Qed.

Lemma one_line_app_token p token : LF ∉ p -> good_token token -> one_line (p ++ token).
Proof.
  intros Hp [_ Ht]. apply one_line_no_lf. rewrite elem_of_app. intros [?|Hin]; [done|].
  rewrite Forall_forall in Ht. by destruct (Ht LF Hin).
Qed.

Lemma block_one_line lines : Forall one_line lines -> Forall one_line (block lines).
Proof.
  induction 1 as [|l ls Hl _ IH]; [constructor|]. cbn [block]. destruct (is_empty l); by constructor.
Qed.

(** Read back, the rewritten request has the caller's lines and one credential. *)
Lemma injected_lines header token out :
  inject_proxy_authorization header token = Ok out ->
  exists line lines, split_crlf header = line :: lines /\ connect_line line = true
    /\ split_crlf out = line :: kept lines ++ [authorization_line token; []; []]
    /\ filter (fun l => credential_line l = true) (kept lines ++ [authorization_line token])
       = [authorization_line token]
    /\ hosts (kept lines) = 1.
Proof.
  intros (Ht & _ & line & lines & Hs & Hc & _ & Hh & ->)%inject_proxy_authorization_spec.
  exists line, lines. pose proof (split_crlf_pieces header) as Hp. rewrite Hs in Hp.
  apply Forall_cons in Hp as [Hl Hls]. split_and!; try done.
  - rewrite split_crlf_line, split_crlf_lines by (try done;
      apply block_one_line in Hls; rewrite Forall_forall in *; intros l [_ Hin]%list_elem_of_filter; auto).
    rewrite split_crlf_line; [done|]. apply one_line_app_token; [vm_compute; set_solver|done].
  - rewrite filter_app. assert (filter (fun l => credential_line l = true) (kept lines) = []) as ->;
      [|done]. unfold kept. induction (block lines) as [|l ls IH]; [done|]. rewrite filter_cons.
    case_decide; [rewrite filter_cons, decide_False by congruence|]; done.
Qed.

(** ** Reading a header *)

(** Whatever the reads, the header ends with the first blank line. *)
Lemma read_proxy_header_ok buffered reads header remaining rest :
  read_proxy_header buffered reads = (Ok (header, remaining), rest) ->
  exists used index, reads = (Some <$> used) ++ rest
    /\ position HEADER_END (buffered ++ concat used) = Some index
    /\ header = take (index + 4) (buffered ++ concat used)
    /\ header ++ remaining = buffered ++ concat used.
Proof.
  revert buffered. induction reads as [|read reads IH]; intros buffered H; cbn [read_proxy_header] in H;
    destruct (position HEADER_END buffered) as [index|] eqn:E.
  1,3: injection H as <- <- <-; exists [], index; cbn [concat fmap list_fmap app];
    rewrite app_nil_r; split_and!; [done..|]; by rewrite take_drop.
  - destruct (_ <=? _)%Z; discriminate H.
  - destruct (_ <=? _)%Z; [discriminate H|]. destruct read as [chunk|]; [|discriminate H].
    destruct (is_empty chunk); [discriminate H|].
    apply IH in H as (used & index & -> & Hp & -> & Hr). exists (chunk :: used), index.
    cbn [concat]. rewrite (app_assoc buffered chunk). split_and!; done.
Qed.

(** ** Traces *)

Section Traces.
Context {UL : UrlLib} {EL : EncodingLib}.
Context (env : Outside) (machine : Machine) (api_url : bytes).
Context (url_as_str : Url -> bytes) (valid_server_name : bytes -> bool).
#[local] Abbreviation CIO := (io (list ClientEvent)).
#[local] Abbreviation W := (Connector.world (list ClientEvent)).
Implicit Types w : W.

(** [m] only appends, and only events in [P]. *)
Definition extends (P : ClientEvent -> Prop) {A} (m : CIO A) : Prop :=
  forall w, exists new, server (m w).2 = server w ++ new /\ Forall P new.

Lemma extends_quiet P {A} (m : CIO A) : (forall w, server (m w).2 = server w) -> extends P m.
Proof. intros Hm w. exists []. rewrite Hm, app_nil_r. by split. Qed.
Lemma extends_ret P {A} (a : A) : extends P (mret a).
Proof. by apply extends_quiet. Qed.
Lemma extends_ensure P {A} (r : result A) : extends P (ensure r).
Proof. by apply extends_quiet. Qed.
Lemma extends_outside P {A} (f : nat -> A) : extends P (outside f).
Proof. by apply extends_quiet. Qed.
Lemma extends_record (P : ClientEvent -> Prop) e : P e -> extends P (record_event e).
Proof. intros He w. exists [e]. split; [done|by constructor]. Qed.
Lemma extends_bind P {A B} (m : CIO A) (f : A -> CIO B) :
  extends P m -> (forall a, extends P (f a)) -> extends P (m ≫= f).
Proof.
  intros Hm Hf w. destruct (Hm w) as (new & Hn & HP). unfold mbind, io_bind.
  destruct (m w) as [[a|e] w1]; cbn [snd] in *; [|by exists new].
  destruct (Hf a w1) as (new' & Hn' & HP'). exists (new ++ new'). rewrite Hn', Hn, app_assoc.
  split; [done|]. by apply Forall_app.
Qed.
Lemma extends_attempt P {A} (m : CIO A) : extends P m -> extends P (attempt m).
Proof. intros Hm w. destruct (Hm w) as (new & H). exists new. unfold attempt. by destruct (m w). Qed.
Lemma extends_context P {A} (m : CIO A) msg : extends P m -> extends P (context_of m msg).
Proof. intros Hm w. destruct (Hm w) as (new & H). exists new. unfold context_of. by destruct (m w). Qed.
Lemma extends_weaken (P Q : ClientEvent -> Prop) {A} (m : CIO A) :
  (forall e, P e -> Q e) -> extends P m -> extends Q m.
Proof.
  intros HPQ Hm w. destruct (Hm w) as (new & Hn & HP). exists new. split; [done|].
  by eapply Forall_impl.
Qed.
#[local] Hint Resolve extends_ret extends_ensure extends_outside extends_attempt extends_context : cli.

(** An event of the given request. *)
Definition about (rq : ApiRequest) (e : ClientEvent) : Prop :=
  e = Attempted rq \/ exists url authorization, e = Sent url rq authorization.

Definition silent (_ : ClientEvent) : Prop := False.
Lemma extends_silent {A} (m : CIO A) w r w1 : extends silent m -> m w = (r, w1) -> server w1 = server w.
Proof.
  intros Hm H. destruct (Hm w) as (new & Hn & HP). rewrite H in Hn. cbn [snd] in Hn.
  destruct new as [|e new]; [by rewrite app_nil_r in Hn|]. by apply Forall_cons in HP as [[] _].
Qed.

Lemma extends_keyring_load P : extends P (keyring_load machine).
Proof.
  unfold keyring_load, keyring_search, ask_program. apply extends_bind.
  - apply extends_bind; [auto with cli|intros ?]. apply extends_bind; [auto with cli|intros [success out]].
    case_match; [|apply extends_bind]; auto with cli.
  - intros [id|]; [|auto with cli]. apply extends_bind; [auto with cli|intros ?].
    apply extends_bind; [auto with cli|intros [? ?]].
    repeat (apply extends_bind; [auto with cli|intros ?]). auto with cli.
Qed.
#[local] Hint Resolve extends_keyring_load : cli.
Lemma extends_authenticate P : extends P (authenticate_request machine).
Proof.
  unfold authenticate_request, read_agent_token.
  repeat (case_match; auto with cli); repeat (apply extends_bind; [auto with cli|intros ?]); auto with cli.
Qed.
Lemma extends_authorization P rq :
  extends P (if authenticated rq then authenticate_request machine else mret []).
Proof. case_match; [apply extends_authenticate|auto with cli]. Qed.
Lemma extends_unix_now P : extends P (unix_now env).
Proof.
  unfold unix_now, system_now. repeat (apply extends_bind; [auto with cli|intros ?]). auto with cli.
Qed.
Lemma extends_delay P expires : extends P (renewal_delay env expires).
Proof.
  unfold renewal_delay. apply extends_bind; [apply extends_unix_now|intros ?].
  apply extends_bind; auto with cli.
Qed.
Lemma extends_request (P : ClientEvent -> Prop) rq :
  (forall e, about rq e -> P e) -> extends P (connect_request machine api_url rq).
Proof.
  intros HP. apply extends_bind; [apply extends_record, HP; by left|intros _].
  apply extends_bind; [auto with cli|intros _]. apply extends_bind; [apply extends_authorization|intros a].
  apply extends_bind; [apply extends_record, HP; right; by do 2 eexists|intros _].
  apply extends_bind; auto with cli.
Qed.

(** A step that ended a run, or was passed. *)
Lemma bind_run {A B} (m : CIO A) (f : A -> CIO B) w r w' :
  (m ≫= f) w = (r, w') ->
  (exists a w1, m w = (Ok a, w1) /\ f a w1 = (r, w')) \/ (exists e, m w = (Err e, w') /\ r = Err e).
Proof.
  unfold mbind, io_bind. destruct (m w) as [[a|e] w1]; intros H; [left; eauto|right].
  apply pair_equal_spec in H as [<- <-]. eauto.
Qed.
Lemma ensure_run {A B} (x : result A) (f : A -> CIO B) w r w' :
  (ensure x ≫= f) w = (r, w') ->
  (exists a, x = Ok a /\ f a w = (r, w')) \/ (w' = w /\ exists e, r = Err e).
Proof.
  intros [(a & w1 & [-> ->]%io_ensure_ok & H)|(e & H & ->)]%bind_run; [left; eauto|right].
  unfold ensure in H. apply pair_equal_spec in H as [_ <-]. eauto.
Qed.
Lemma ensure_pass {A B} (a : A) (f : A -> CIO B) w : (ensure (Ok a) ≫= f) w = f a w.
Proof. done. Qed.
Lemma attempt_run {A B} (m : CIO A) (f : result A -> CIO B) w r w' :
  (attempt m ≫= f) w = (r, w') -> exists x w1, m w = (x, w1) /\ f x w1 = (r, w').
Proof.
  intros [(x & w1 & Hx%attempt_ok & H)|(e & H & _)]%bind_run; [eauto|].
  unfold attempt in H. by destruct (m w).
Qed.
Lemma extends_run P {A} (m : CIO A) w r w1 :
  extends P m -> m w = (r, w1) -> exists new, server w1 = server w ++ new /\ Forall P new.
Proof. intros Hm H. destruct (Hm w) as (new & Hn & HP). rewrite H in Hn. eauto. Qed.

Lemma request_run rq w r w1 :
  connect_request machine api_url rq w = (r, w1) ->
  exists sent, server w1 = server w ++ Attempted rq :: sent
    /\ Forall (fun e => exists url authorization, e = Sent url rq authorization) sent
    /\ forall reply, r = Ok reply -> exists n authorization, answer machine n rq authorization = Replied reply.
Proof.
  unfold connect_request. intros H.
  apply bind_run in H as [([] & v & He & H)|(e & He & _)]; [|by injection He].
  assert (server v = server w ++ [Attempted rq]) as Hv by (by injection He as <-).
  apply ensure_run in H as [([] & _ & H)|[-> [e ->]]]; [|exists []; by rewrite Hv].
  apply bind_run in H as [(a & v1 & Ha & H)|(e & Ha & ->)];
    apply (extends_silent _ _ _ _ (extends_authorization silent rq)) in Ha; [|exists []; by rewrite Ha, Hv].
  apply bind_run in H as [([] & v2 & Hs & H)|(e & Hs & _)]; [|by injection Hs].
  assert (server v2 = server w ++ [Attempted rq] ++ [Sent (trim_end_matches "/" api_url ++ &"/" ++
    procedure rq) rq a]) as Hv2 by (rewrite app_assoc, <- Hv, <- Ha; by injection Hs as <-).
  apply bind_run in H as [(reply & v3 & Ho & H)|(e & Ho & _)]; [|by injection Ho].
  injection Ho as <- <-. apply pair_equal_spec in H as [H <-].
  eexists. split; [exact Hv2|]. split; [repeat constructor; by do 2 eexists|].
  intros reply ->. exists (calls v2), a. revert H.
  destruct (answer machine (calls v2) rq a) as [| |reply']; [done..|]. intros [= <-]. done.
Qed.

(** *** The race *)

(** A directory is made, a file written, or one of them closed to others *)
Definition file_event (e : ClientEvent) : Prop :=
  match e with
  | CreatedDirectory _ | Wrote _ _ => True
  | Restricted _ mode => (Z.land mode 63 = 0)%Z
  | _ => False
  end.
Lemma extends_restrict (P : ClientEvent -> Prop) path mode : P (Restricted path mode) ->
  extends P (restrict machine path mode).
Proof.
  intros H. apply extends_bind; [auto with cli|intros d].
  apply extends_bind; [auto with cli|intros _]. by apply extends_record.
Qed.
Lemma extends_private_file (P : ClientEvent -> Prop) path contents : (forall e, file_event e -> P e) ->
  extends P (write_private_file machine path contents).
Proof.
  intros HP. apply extends_bind.
  - destruct (parent path); [|auto with cli]. apply extends_bind; [|intros _; by apply extends_restrict, HP].
    apply extends_bind; [auto with cli|intros d]. apply extends_bind; [auto with cli|intros _].
    by apply extends_record, HP.
  - intros _. apply extends_bind; [auto with cli|intros d]. apply extends_bind; [auto with cli|intros _].
    apply extends_bind; [by apply extends_record, HP|intros _]. by apply extends_restrict, HP.
Qed.
Lemma extends_is_file P path : extends P (is_file machine path).
Proof. by apply extends_quiet. Qed.
Lemma extends_system_ca P : extends P (read_system_ca_bundle machine).
Proof.
  assert (forall paths, extends P (find_file machine paths)) as Hf.
  { induction paths as [|path paths IH]; simpl; [auto with cli|].
    apply extends_bind; [destruct (is_absolute path); auto using extends_is_file with cli|].
    intros []; auto with cli. }
  apply extends_bind; [done|intros ?]. repeat (apply extends_bind; [auto with cli|intros ?]). auto with cli.
Qed.
Lemma extends_proxy_ca (P : ClientEvent -> Prop) pem : (forall e, file_event e -> P e) ->
  extends P (write_proxy_ca machine pem).
Proof.
  intros HP. do 3 (apply extends_bind; [auto with cli|intros ?]).
  apply extends_bind; [by apply extends_restrict, HP|intros _].
  apply extends_bind; [by apply extends_private_file|intros _].
  apply extends_bind; [apply extends_system_ca|intros system_ca].
  apply extends_bind; [by apply extends_private_file|auto with cli].
Qed.
Lemma extends_transport P : extends P (transport_client_config machine).
Proof.
  apply extends_bind; [auto with cli|intros _]. case_match; [|auto with cli].
  repeat (apply extends_bind; [auto with cli|intros ?]). auto with cli.
Qed.

Definition race_event (ok : ProcessCommand -> Prop) (request : ApiRequest) (e : ClientEvent) : Prop :=
  (exists c, e = StartedChild c /\ ok c) \/ e = KilledChild \/ about request e \/ file_event e.

Lemma extends_renew_until (P : ClientEvent -> Prop) once request flag pending n expires :
  extends P once -> P (Attempted request) ->
  extends P pending -> extends P (renew_until env once request flag pending n expires).
Proof.
  intros Ho Ha. revert pending expires. induction n as [|n IH]; intros pending expires Hp; cbn [renew_until];
    (apply extends_bind; [apply extends_delay|intros _]); (apply extends_bind; [done|intros _]).
  - destruct flag; [by apply extends_record|auto with cli].
  - apply extends_bind; [done|]. intros a. apply IH. auto with cli.
Qed.

Section Race.
Context (once : CIO Z) (request : ApiRequest) (ok : ProcessCommand -> Prop).
Context (once_ok : extends (race_event ok request) once).
Context (command : ProcessCommand) (command_ok : ok command).
#[local] Abbreviation P := (race_event ok request).

Lemma extends_start r : extends P (start_child r command).
Proof. unfold start_child. destruct (spawned r); [apply extends_record; left; eauto|apply extends_ensure]. Qed.

Lemma extends_get (P' : ClientEvent -> Prop) : extends P' get_server.
Proof. by apply extends_quiet. Qed.

Lemma extends_race expires : extends P (race_child env machine once request command expires).
Proof.
  unfold race_child. apply extends_bind; [auto with cli|intros r].
  apply extends_bind; [destruct (child_first r); auto using extends_start with cli|intros _].
  apply extends_bind.
  - apply extends_attempt, extends_renew_until; [done|right; right; left; by left|].
    destruct (child_first r); auto using extends_start with cli.
  - intros [u|e].
    + apply extends_bind; auto with cli.
    + apply extends_bind; [apply extends_get|intros events]. apply extends_bind; [|auto with cli].
      case_match; [|auto with cli]. apply extends_record. right; by left.
Qed.
End Race.

Lemma extends_run_child request command :
  extends (race_event (eq command) request) (run_child machine command).
Proof.
  unfold run_child. apply extends_bind; [auto with cli|intros r].
  apply extends_bind; [by apply extends_start|intros _]. apply extends_bind; auto with cli.
Qed.

(** *** Giving back *)

(** The request is begun once, after everything else. *)
Definition begun_last (rq : ApiRequest) (new : list ClientEvent) : Prop :=
  exists pre post, new = pre ++ Attempted rq :: post /\ Attempted rq ∉ pre
    /\ Forall (fun e => exists url authorization, e = Sent url rq authorization) post.
Definition only_child (ok : ProcessCommand -> Prop) (new : list ClientEvent) : Prop :=
  forall c, StartedChild c ∈ new -> ok c.

(** After a race and a revocation. *)
Lemma revoked_trace request revoke ok mid post :
  request <> revoke -> Forall (race_event ok request) mid ->
  Forall (fun e => exists url authorization, e = Sent url revoke authorization) post ->
  begun_last revoke (mid ++ Attempted revoke :: post)
  /\ only_child ok (mid ++ Attempted revoke :: post).
Proof.
  intros Hr Hm Hp. rewrite Forall_forall in Hm. split.
  - exists mid, post. split; [done|]. split; [|done].
    by intros [(? & [=] & _)|[[=]|[[[=]|(? & ? & [=])]|[]]]]%Hm.
  - intros c. rewrite elem_of_app, elem_of_cons. intros [Hin|[[=]|Hin]].
    + by apply Hm in Hin as [(? & [= ->] & ?)|[[=]|[[[=]|(? & ? & [=])]|[]]]].
    + rewrite Forall_forall in Hp. by apply Hp in Hin as (? & ? & [=]).
Qed.

Lemma extends_renew_lease (P : ClientEvent -> Prop) lease_id :
  (forall e, about (RenewProfileEnvironmentLease lease_id) e -> P e) -> extends P
    (renew_profile_environment_lease_once env machine api_url lease_id).
Proof.
  intros HP. unfold renew_profile_environment_lease_once.
  apply extends_bind; [by apply extends_context, extends_request|intros ?].
  apply extends_bind; [auto with cli|intros _]. apply extends_bind; [apply extends_unix_now|intros ?].
  apply extends_bind; auto with cli.
Qed.
Lemma extends_renew_session (P : ClientEvent -> Prop) session_id :
  (forall e, about (RenewProxySession session_id) e -> P e) -> extends P
    (renew_proxy_session_once env machine api_url session_id).
Proof.
  intros HP. unfold renew_proxy_session_once.
  apply extends_bind; [by apply extends_context, extends_request|intros ?].
  apply extends_bind; [auto with cli|intros _]. apply extends_bind; [apply extends_unix_now|intros ?].
  apply extends_bind; auto with cli.
Qed.

Lemma run_result_ok status revoke invalid failed code :
  run_result status revoke invalid failed = Ok code -> status = Ok code /\ revoke = Ok true.
Proof. destruct status, revoke as [[]|]; simpl; by intros [= ->]. Qed.

Lemma revoke_run ok request rv (g : reply_type rv -> bool) (body : CIO Z) invalid failed w r w' :
  extends (race_event ok request) body ->
  (status ← attempt body;
   revoke ← attempt (connect_request machine api_url rv);
   ensure (run_result status (g <$> revoke) invalid failed)) w = (r, w') ->
  exists mid post, server w' = server w ++ mid ++ Attempted rv :: post
    /\ Forall (race_event ok request) mid
    /\ Forall (fun e => exists url authorization, e = Sent url rv authorization) post
    /\ (is_ok r = true -> exists m authorization answered,
         answer machine m rv authorization = Replied answered /\ g answered = true).
Proof.
  intros Hb H. apply attempt_run in H as (status & w2 & Hs & H).
  apply (extends_run _ _ _ _ _ Hb) in Hs as (mid & Hw2 & Hmid).
  apply attempt_run in H as (revoke & w3 & Hq & H).
  apply request_run in Hq as (post & Hw3 & Hpost & Hans). apply pair_equal_spec in H as [<- <-].
  exists mid, post. split_and!; [by rewrite Hw3, Hw2, <- app_assoc|done..|].
  intros [code [_ Hrev]%run_result_ok]%is_ok_true. destruct revoke as [answered|]; [|done].
  destruct (Hans answered eq_refl) as (m & a & Hm). exists m, a, answered. split; [done|].
  by apply Ok_inj in Hrev.
Qed.

(** What a run does with what it was lent: the race, then the revocation. *)
Definition gives_back (ok : ProcessCommand -> Prop) (rv : ApiRequest) (good : reply_type rv -> bool)
    (r : result Z) w1 (w' : W) : Prop :=
  exists new, server w' = server w1 ++ new /\ begun_last rv new /\ only_child ok new
    /\ (is_ok r = true -> exists n authorization answered,
         answer machine n rv authorization = Replied answered /\ good answered = true).

Lemma revoke_gives_back ok request rv good body invalid failed w r w' :
  request <> rv -> extends (race_event ok request) body ->
  (status ← attempt body;
   revoke ← attempt (connect_request machine api_url rv);
   ensure (run_result status (good <$> revoke) invalid failed)) w = (r, w') ->
  gives_back ok rv good r w w'.
Proof.
  intros Hne Hb H. destruct (revoke_run _ _ _ _ _ _ _ _ _ _ Hb H) as (mid & post & Hw & Hm & Hp & Hok).
  destruct (revoked_trace _ _ _ _ _ Hne Hm Hp) as [Hl Ho]. eexists. by split_and!.
Qed.

(** The environment can be given to a child. *)
Definition usable (reply : ProfileEnvironment) (secrets : BTreeMap bytes) : bool :=
  forallb valid_env_name secrets.*1
  && if is_empty (env_lease_id reply) then (env_expires_unix_seconds reply =? 0)%Z
     else (0 <? env_expires_unix_seconds reply)%Z.

Definition profile_run (executable : bytes) (rest : list bytes) (reply : ProfileEnvironment)
    (r : result Z) w1 (w' : W) : Prop :=
  match collect_secrets (env_values reply) [] with
  | Err _ => is_ok r = false /\ w' = w1
  | Ok secrets =>
      let ok := eq (profile_command executable rest secrets) in
      if negb (usable reply secrets) then is_ok r = false /\ w' = w1
      else if is_empty (env_lease_id reply)
      then exists new, server w' = server w1 ++ new /\ only_child ok new
      else gives_back ok (RevokeProfileEnvironmentLease (env_lease_id reply)) pel_revoked r w1 w'
  end.

Lemma run_profile_spec arguments profile executable rest basename w r w' :
  profile_arguments arguments = Ok (profile, executable, rest) ->
  portable_file_name executable = Some basename ->
  run_profile env machine api_url arguments w = (r, w') ->
  match connect_request machine api_url (GetProfileEnvironment profile basename) w with
  | (Ok reply, w1) => profile_run executable rest reply r w1 w'
  | (Err e, w1) => r = Err e /\ w' = w1
  end.
Proof.
  unfold run_profile. intros -> Hb H. rewrite ensure_pass, Hb in H. cbn [ok_or] in H.
  rewrite ensure_pass in H. unfold mbind at 1, io_bind at 1 in H.
  destruct (connect_request _ _ _ w) as [[reply|e] w1]; [|by apply pair_equal_spec in H as [<- <-]].
  unfold profile_run, usable.
  destruct (collect_secrets (env_values reply) []) as [secrets|e];
    [rewrite ensure_pass in H|by apply pair_equal_spec in H as [<- <-]].
  destruct (forallb valid_env_name secrets.*1); cbn [negb bail_if andb] in H |- *;
    [rewrite ensure_pass in H|by apply pair_equal_spec in H as [<- <-]].
  destruct (is_empty (env_lease_id reply)).
  - destruct (env_expires_unix_seconds reply =? 0)%Z; cbn [negb bail_if] in H |- *;
      [rewrite ensure_pass in H|by apply pair_equal_spec in H as [<- <-]].
    apply (extends_run _ _ _ _ _ (extends_run_child (CreateProxySession []) _)) in H as (new & Hn & HP).
    exists new. split; [done|]. intros c Hin. rewrite Forall_forall in HP.
    by apply HP in Hin as [(? & [= ->] & ?)|[[=]|[[[=]|(? & ? & [=])]|[]]]].
  - rewrite Z.ltb_antisym. destruct (env_expires_unix_seconds reply <=? 0)%Z; cbn [negb bail_if] in H |- *;
      [by apply pair_equal_spec in H as [<- <-]|rewrite ensure_pass in H].
    eapply (revoke_gives_back _ (RenewProfileEnvironmentLease (env_lease_id reply))); [done| |exact H].
    apply extends_race; [|done]. apply extends_renew_lease. intros e He. by right; right; left.
Qed.

(** The commands the helper may start. *)
Definition proxied_command (executable : bytes) (arguments : list bytes) (c : ProcessCommand) : Prop :=
  exists address bundle additional,
    proxy_child_command url_as_str executable arguments (&"http://" ++ address) bundle additional = Ok c.


Definition complete (lease : ProxySessionLease) : bool :=
  negb (is_empty (lease_session_id lease) || is_empty (lease_token lease)
        || is_empty (lease_proxy_url lease) || is_empty (lease_ca_pem lease)).

Lemma extends_loopback P url : extends P (start_loopback_proxy machine valid_server_name url).
Proof.
  unfold start_loopback_proxy. apply extends_bind; [apply extends_transport|intros transport].
  apply extends_bind; [|intros [remote address]; auto with cli].
  repeat (apply extends_bind; [auto with cli|intros ?]). auto with cli.
Qed.

Lemma run_transparent_proxy_spec profile command executable arguments w r w' :
  run_arguments command = Ok (executable, arguments) ->
  run_transparent_proxy env machine api_url url_as_str valid_server_name profile command w = (r, w') ->
  match connect_request machine api_url (CreateProxySession profile) w with
  | (Ok lease, w1) =>
      if negb (complete lease) then is_ok r = false /\ w' = w1
      else gives_back (proxied_command executable arguments)
             (RevokeProxySession (lease_session_id lease)) (fun _ => true) r w1 w'
  | (Err e, w1) => r = Err e /\ w' = w1
  end.
Proof.
  unfold run_transparent_proxy. intros -> H. rewrite ensure_pass in H. unfold mbind at 1, io_bind at 1 in H.
  destruct (connect_request _ _ _ w) as [[lease|e] w1]; [|by apply pair_equal_spec in H as [<- <-]].
  unfold complete. rewrite negb_involutive. destruct (_ || _) eqn:Ec in H; rewrite Ec;
    [by apply pair_equal_spec in H as [<- <-]|]. cbn [bail_if] in H. rewrite ensure_pass in H.
  eapply (revoke_gives_back _ (RenewProxySession (lease_session_id lease))); [done| |exact H].
  apply extends_bind; [apply extends_proxy_ca; intros e He; by right; right; right|intros [bundle extra]].
  apply extends_bind; [apply extends_loopback|intros [[transport target] address]].
  destruct (proxy_child_command _ _ _ _ _ _) as [c|e] eqn:Ep; [|by apply extends_quiet].
  apply extends_race; [|by exists address, bundle, extra].
  apply extends_renew_session. intros e He. by right; right; left.
Qed.

(** *** The local helper *)

(** What was written to the remote proxy. *)
Definition to_remote (new : list ClientEvent) : list bytes :=
  omap (fun e => match e with ToRemote data => Some data | _ => None end) new.

(** A step that appends events which write nothing to the remote proxy. *)
Definition unheard (e : ClientEvent) : Prop := match e with ToRemote _ => False | _ => True end.
Lemma unheard_to_remote new : Forall unheard new -> to_remote new = [].
Proof. induction 1 as [|e new He _ IH]; [done|]. destruct e; done. Qed.
Lemma to_remote_app a b : to_remote (a ++ b) = to_remote a ++ to_remote b.
Proof. apply omap_app. Qed.

Lemma write_run e w r w1 : write machine e w = (r, w1) -> server w1 = server w ++ [e].
Proof. intros H. unfold write in H. by injection H as _ <-. Qed.
Lemma extends_write (P : ClientEvent -> Prop) e : P e -> extends P (write machine e).
Proof.
  intros He. apply extends_bind; [by apply extends_record|intros _]. apply extends_bind; auto with cli.
Qed.

(** After the remote proxy's answer. *)
Lemma helper_answer_run (remaining : bytes) (answered : result (bytes * bytes)) w r w' :
  ('(response, remote_remaining) ← ensure answered;
   _ ← write machine (ToClient response);
   if negb (accepted response) then mret () else
   _ ← (if is_empty remaining then mret () else write machine (ToRemote remaining));
   _ ← (if is_empty remote_remaining then mret () else write machine (ToClient remote_remaining));
   _ ← record_event Relayed;
   ok ← outside (copied machine);
   ensure (bail_if (negb ok) "relay local proxy connection")) w = (r, w') ->
  exists new, server w' = server w ++ new
    /\ (to_remote new = []
        \/ to_remote new = [remaining]
           /\ exists response rest, answered = Ok (response, rest) /\ accepted response = true).
Proof.
  intros H. destruct answered as [[response rest]|e];
    [rewrite ensure_pass in H|injection H as _ <-; exists []; rewrite app_nil_r; auto].
  apply bind_run in H as [([] & w1 & H1 & H)|(e & H1 & _)]; apply write_run in H1;
    [|eexists; split; [exact H1|auto]].
  destruct (accepted response) eqn:Ea; cbn [negb] in H.
  2: { apply pair_equal_spec in H as [_ <-]. eexists; split; [exact H1|auto]. }
  assert (exists new, server w' = server w1 ++ new
    /\ (to_remote new = [] \/ to_remote new = [remaining])) as (new & Hn & Hd).
  2: { exists ([ToClient response] ++ new). rewrite Hn, H1, app_assoc, to_remote_app. split; [done|].
       destruct Hd as [-> | ->]; [by left|right]. eauto. }
  assert (extends unheard
    (_ ← (if is_empty rest then mret () else write machine (ToClient rest));
     _ ← record_event Relayed;
     ok ← outside (copied machine);
     ensure (bail_if (negb ok) "relay local proxy connection"))) as Htail.
  { apply extends_bind; [destruct (is_empty rest); auto using extends_write with cli; by apply extends_write|].
    intros _. apply extends_bind; [by apply extends_record|intros _]. apply extends_bind; auto with cli. }
  destruct (is_empty remaining).
  - apply (extends_run _ _ _ _ _ Htail) in H as (new & Hn & Hq). exists new. split; [done|left].
    by apply unheard_to_remote.
  - apply bind_run in H as [([] & w2 & H2 & H)|(e & H2 & _)]; apply write_run in H2;
      [|eexists; split; [exact H2|by right]].
    apply (extends_run _ _ _ _ _ Htail) in H as (new & Hn & Hq). exists ([ToRemote remaining] ++ new).
    rewrite Hn, H2, app_assoc, to_remote_app, (unheard_to_remote new) by done. split; [done|by right].
Qed.

(** What the helper sends: nothing, or the rewritten CONNECT, and the bytes after
    it only when the remote proxy accepted. *)
Lemma proxy_local_connection_spec transport remote token client_reads remote_reads w r w' :
  proxy_local_connection machine transport remote token client_reads remote_reads w = (r, w') ->
  exists new, server w' = server w ++ new
    /\ (to_remote new = []
        \/ exists header remaining rest rewritten,
             read_proxy_header [] client_reads = (Ok (header, remaining), rest)
             /\ inject_proxy_authorization header token = Ok rewritten
             /\ (to_remote new = [rewritten]
                 \/ to_remote new = [rewritten; remaining]
                    /\ exists response rr rest', read_proxy_header [] remote_reads = (Ok (response, rr), rest')
                                        /\ accepted response = true)).
Proof.
  unfold proxy_local_connection. intros H.
  assert (forall w, exists new, server w = server w ++ new /\ to_remote new = []) as Hnil
    by (intros v; exists []; by rewrite app_nil_r).
  destruct (read_proxy_header [] client_reads) as [[[header remaining]|e] rest]; cbn [fst] in H;
    [rewrite ensure_pass in H|injection H as _ <-; destruct (Hnil w) as (new & ? & ?); eauto].
  destruct (inject_proxy_authorization header token) as [rewritten|e] eqn:Ei;
    [rewrite ensure_pass in H|injection H as _ <-; destruct (Hnil w) as (new & ? & ?); eauto].
  apply bind_run in H as [([] & w1 & H1 & H)|(e & H1 & _)]; [|by injection H1].
  assert (server w1 = server w ++ [Dialled (target_address remote)]) as Hw1 by (by injection H1 as <-).
  apply bind_run in H as [(open & w2 & H2 & H)|(e & H2 & _)]; [|by injection H2].
  assert (server w2 = server w1) as Hw2 by (by injection H2 as _ <-).
  destruct open; cbn [negb bail_if] in H;
    [rewrite ensure_pass in H|injection H as _ <-; rewrite Hw2, Hw1; eauto].
  apply bind_run in H as [(secure & w3 & H3 & H)|(e & H3 & _)]; [|by injection H3].
  assert (server w3 = server w2) as Hw3 by (by injection H3 as _ <-).
  destruct secure; cbn [negb bail_if] in H;
    [rewrite ensure_pass in H|injection H as _ <-; rewrite Hw3, Hw2, Hw1; eauto].
  apply bind_run in H as [([] & w4 & H4 & H)|(e & H4 & _)]; apply write_run in H4.
  - apply helper_answer_run in H as (new & Hn & Hd).
    exists ([Dialled (target_address remote)] ++ [ToRemote rewritten] ++ new).
    rewrite !to_remote_app, Hn, H4, Hw3, Hw2, Hw1, <- !app_assoc. split; [done|right].
    exists header, remaining, rest, rewritten. split_and!; [done..|].
    destruct Hd as [->|[-> (response & rr & Hr & Ha)]]; [by left|right]. split; [done|].
    destruct (read_proxy_header [] remote_reads) as [x rest']. cbn [fst] in Hr. subst x. eauto.
  - exists ([Dialled (target_address remote)] ++ [ToRemote rewritten]).
    rewrite H4, Hw3, Hw2, Hw1, <- app_assoc. split; [done|right]. exists header, remaining, rest, rewritten. auto.
Qed.
End Traces.

(** ** What a child sees *)

Lemma changes_remove names c k :
  changes (env_remove names c) !! k = if decide (k ∈ names) then Some None else changes c !! k.
Proof.
  revert c. induction names as [|name names IH]; intros c; [done|]. change (env_remove (name :: names) c) with (env_remove names (set_change name None c)).
  rewrite IH. cbn [set_change changes].
  destruct (decide (k ∈ names)) as [Hin|Hout].
  - by rewrite decide_True by (by right).
  - destruct (decide (k = name)) as [->|Hne].
    + by rewrite lookup_insert_eq, decide_True by left.
    + rewrite lookup_insert_ne by done. by rewrite decide_False by set_solver.
Qed.

Lemma changes_envs values c k :
  NoDup values.*1 ->
  changes (envs values c) !! k
  = match bt_get values k with Some v => Some (Some v) | None => changes c !! k end.
Proof.
  revert c. induction values as [|[name v] values IH]; intros c Hn; [done|].
  apply NoDup_cons in Hn as [Hnot Hn]. cbn [bt_get].
  change (envs ((name, v) :: values) c) with (envs values (set_change name (Some v) c)).
  rewrite (IH _ Hn). cbn [set_change changes].
  case_bool_decide as Hk.
  - subst k. rewrite (proj2 (bt_get_None values name)) by done. by rewrite lookup_insert_eq.
  - by rewrite lookup_insert_ne by done.
Qed.

Lemma child_environment_lookup inherited c k :
  child_environment inherited c !! k
  = match changes c !! k with Some value => value | None => inherited !! k end.
Proof.
  unfold child_environment. rewrite lookup_merge. unfold diag_None.
  by destruct (inherited !! k), (changes c !! k).
Qed.

Lemma collect_secrets_wf values secrets secrets' :
  bt_wf secrets -> collect_secrets values secrets = Ok secrets' -> bt_wf secrets'.
Proof.
  revert secrets. induction values as [|[name v] values IH]; intros secrets Hw H; cbn [collect_secrets] in H.
  - by apply Ok_inj in H as <-.
  - apply bind_ok in H as ([] & _ & H). by apply IH in H; [|apply bt_wf_insert].
Qed.
