(* ===== verification/CliProps.v ===== *)
(** CliProps: what the client's local helper sends, what its children see, and
    that what it was lent is given back. *)

From Stdlib Require Import Ascii String.
From stdpp Require Import base list strings gmap.
From S2P Require Import Prelude Str BTree External Models Ip Net Connector ConnectorFacts Config ConfigFacts Leases Sessions Browser Cli CliFacts.

(** C36: A profile's child sees the profile's variables over the inherited ones, and none of
    the variables that authenticate the wrapper, even when the profile or the caller sets
    them.  A proxied child reaches the network through the loopback helper, trusts the
    deployment's certificate authority, has no proxy exception and no wrapper credential. *)
Theorem child_environment_exact `{UL : !UrlLib} (url_as_str : Url -> bytes) executable arguments inherited :
  (forall values secrets k, collect_secrets values [] = Ok secrets ->
     child_environment inherited (profile_command executable arguments secrets) !! k
     = if decide (k ∈ wrapper_credentials) then None
       else match bt_get secrets k with Some v => Some v | None => inherited !! k end)
  /\ forall url bundle additional c,
       proxy_child_command url_as_str executable arguments url bundle additional = Ok c ->
       exists parsed, url_parse url = Some parsed /\ url_scheme parsed = &"http"
         /\ loopback_url parsed = true /\ url_password parsed = None
         /\ (forall k, k ∈ [&"HTTP_PROXY"; &"HTTPS_PROXY"; &"http_proxy"; &"https_proxy"] ->
               child_environment inherited c !! k = Some (url_as_str parsed))
         /\ (forall k, k ∈ [&"NO_PROXY"; &"no_proxy"; &"ALL_PROXY"; &"all_proxy"] ++ wrapper_credentials ->
               child_environment inherited c !! k = None).
Proof.
  split.
  - intros values secrets k Hs. rewrite child_environment_lookup. unfold profile_command.
    rewrite changes_remove. case_decide; [done|]. rewrite changes_envs.
    + destruct (bt_get secrets k); [done|]. cbn [args command_new changes]. by rewrite lookup_empty.
    + apply bt_wf_NoDup. apply (collect_secrets_wf values [] secrets); [apply bt_wf_nil|done].
  - unfold proxy_child_command. intros url bundle additional c H.
    apply bind_ok in H as (parsed & Hp%ok_or_ok & H). apply bind_ok in H as ([] & Hb%bail_if_ok & H).
    apply Ok_inj in H as <-. breflect in Hb. destruct Hb as (((Hs & Hl) & _) & Ho).
    unfold bare_origin in Ho. breflect in Ho. exists parsed.
    split_and!; [done|done|done|tauto| |]; intros k Hk;
      rewrite child_environment_lookup, changes_remove.
    + rewrite decide_False by (revert Hk; vm_compute; set_solver). rewrite changes_envs.
      * revert Hk. rewrite !elem_of_cons, elem_of_nil. intros [->|[->|[->|[->|[]]]]]; reflexivity.
      * apply (bool_decide_unpack _). vm_compute. done.
    + rewrite decide_True; [done|]. revert Hk. vm_compute. set_solver.
Qed.

Section Claims.
Context {UL : UrlLib} {EL : EncodingLib}.
Context (env : Outside) (machine : Machine) (api_url : bytes).
Context (url_as_str : Url -> bytes) (valid_server_name : bytes -> bool).

(** C34: The local helper rewrites exactly the CONNECT requests that are UTF-8, have a
    CONNECT HTTP/1.1 request line, unfolded well-formed header lines and one Host: the
    output is the request line, every header line but the caller's Proxy-Authorization, and
    the session's own credential.  Read back line by line it carries one credential. *)
Theorem inject_proxy_authorization_iff header token out :
  (inject_proxy_authorization header token = Ok out <->
   good_token token /\ utf8_valid header = true
   /\ exists line lines, split_crlf header = line :: lines /\ connect_line line = true
      /\ Forall header_line (block lines) /\ hosts (kept lines) = 1
      /\ out = line ++ CRLF ++ concat ((fun l => l ++ CRLF) <$> kept lines)
                ++ authorization_line token ++ CRLF ++ CRLF)
  /\ (inject_proxy_authorization header token = Ok out ->
      exists line lines, split_crlf header = line :: lines
        /\ split_crlf out = line :: kept lines ++ [authorization_line token; []; []]
        /\ filter (fun l => credential_line l = true) (kept lines ++ [authorization_line token])
           = [authorization_line token]).
Proof.
  split; [apply inject_proxy_authorization_spec|].
  intros (line & lines & Hs & _ & Ho & Hf & _)%injected_lines. eauto.
Qed.

(** C35: Whatever a local client sends, and in whatever pieces, the helper writes to the
    remote proxy nothing, or the rewritten CONNECT of the client's first header block, and
    what the client sent after it only once the remote proxy has answered with 200; the
    two together are what the client sent, less its credential. *)
Theorem local_helper_confined transport remote token client_reads remote_reads w r w' :
  proxy_local_connection machine transport remote token client_reads remote_reads w = (r, w') ->
  exists new, server w' = server w ++ new
    /\ (to_remote new = []
        \/ exists header remaining rest rewritten used,
             client_reads = (Some <$> used) ++ rest /\ header ++ remaining = concat used
             /\ inject_proxy_authorization header token = Ok rewritten
             /\ (to_remote new = [rewritten]
                 \/ to_remote new = [rewritten; remaining]
                    /\ exists response rr rest', read_proxy_header [] remote_reads = (Ok (response, rr), rest')
                                        /\ accepted response = true)).
Proof.
  intros (new & Hn & Hd)%proxy_local_connection_spec. exists new. split; [done|].
  destruct Hd as [?|(header & remaining & rest & rewritten & Hr & Hi & Hd)]; [by left|right].
  apply read_proxy_header_ok in Hr as (used & index & Hu & _ & _ & Hc).
  exists header, remaining, rest, rewritten, used. by split_and!.
Qed.

(** C19: A profile run starts at most the one command it was asked for, with the variables
    the server returned, all of them distinct and validly named.  Once a dynamic environment
    has been accepted, its lease is asked to be revoked exactly once, after everything else,
    whatever became of the child and of the renewals, and the run succeeds only when the
    server confirms the revocation. *)
Theorem profile_run_revokes arguments profile executable rest basename w r w' :
  profile_arguments arguments = Ok (profile, executable, rest) ->
  portable_file_name executable = Some basename ->
  run_profile env machine api_url arguments w = (r, w') ->
  match connect_request machine api_url (GetProfileEnvironment profile basename) w with
  | (Ok reply, w1) => profile_run machine executable rest reply r w1 w'
  | (Err e, w1) => r = Err e /\ w' = w1
  end.
Proof. intros Ha Hb H. by eapply run_profile_spec. Qed.

(** Once the server has opened a complete proxy session, the run asks for its revocation
    exactly once, after everything else, whatever fails in between, and succeeds only when
    that is answered; the only child it starts is the command asked for, confined to the
    loopback helper. *)
Theorem transparent_run_revokes profile command executable arguments w r w' :
  run_arguments command = Ok (executable, arguments) ->
  run_transparent_proxy env machine api_url url_as_str valid_server_name profile command w = (r, w') ->
  match connect_request machine api_url (CreateProxySession profile) w with
  | (Ok lease, w1) =>
      if negb (complete lease) then is_ok r = false /\ w' = w1
      else gives_back machine (proxied_command url_as_str executable arguments)
             (RevokeProxySession (lease_session_id lease)) (fun _ => true) r w1 w'
  | (Err e, w1) => r = Err e /\ w' = w1
  end.
Proof.
  intros Ha H. by eapply run_transparent_proxy_spec.
Qed.

(** ** Private files *)

(** Where a private file is written its directory is closed to others first, and
    the file itself right after. *)
Lemma private_file_run path contents w w' : write_private_file machine path contents w = (Ok (), w') ->
  exists pre, server w' = server w ++ pre ++ [Wrote path contents; Restricted path 384]
    /\ pre = match parent path with
             | Some directory => [CreatedDirectory directory; Restricted directory 448]
             | None => []
             end.
Proof.
  assert (forall w v p mode, restrict machine p mode w = (Ok (), v) -> server v = server w ++ [Restricted p mode])
    as Hrestrict.
  { intros v v' p mode H. apply io_bind_ok in H as (d & v1 & Ho & H). injection Ho as _ <-.
    apply io_bind_ok in H as ([] & v2 & [_ ->]%io_ensure_ok & H). by injection H as <-. }
  unfold write_private_file. intros H. apply io_bind_ok in H as ([] & w1 & Hp & H).
  eexists. split; [|reflexivity].
  assert (server w1 = server w ++ match parent path with
            | Some directory => [CreatedDirectory directory; Restricted directory 448] | None => [] end) as Hw1.
  { destruct (parent path) as [directory|]; [|injection Hp as ->; by rewrite app_nil_r].
    apply io_bind_ok in Hp as ([] & v & Hm & Hp). apply Hrestrict in Hp. rewrite Hp.
    apply io_bind_ok in Hm as (d & v1 & Ho & Hm). injection Ho as _ <-.
    apply io_bind_ok in Hm as ([] & v2 & [_ ->]%io_ensure_ok & Hm). injection Hm as <-.
    cbn. by rewrite <- app_assoc. }
  apply io_bind_ok in H as (d & w2 & Ho & H). injection Ho as _ <-.
  apply io_bind_ok in H as ([] & w3 & [_ ->]%io_ensure_ok & H).
  apply io_bind_ok in H as ([] & w4 & Hr & H). apply Hrestrict in H. rewrite H. injection Hr as <-. cbn.
  by rewrite Hw1, <- !app_assoc.
Qed.

Definition files_written (events : list ClientEvent) : list (bytes * bytes) :=
  omap (fun e => match e with Wrote path contents => Some (path, contents) | _ => None end) events.
Lemma files_written_app a b : files_written (a ++ b) = files_written a ++ files_written b.
Proof. apply omap_app. Qed.

Lemma private_files_written path contents w w' : write_private_file machine path contents w = (Ok (), w') ->
  exists new, server w' = server w ++ new /\ files_written new = [(path, contents)].
Proof.
  intros (pre & Hw & ->)%private_file_run. eexists. split; [exact Hw|]. by destruct (parent path).
Qed.

Lemma system_ca_read w system_ca w' : read_system_ca_bundle machine w = (Ok system_ca, w') ->
  server w' = server w /\ contains_str PEM_BEGIN system_ca = true.
Proof.
  intros H. split.
  - by eapply extends_silent, H; apply extends_system_ca.
  - unfold read_system_ca_bundle in H. apply io_bind_ok in H as (? & ? & _ & H).
    do 6 apply io_bind_ok in H as (? & ? & _ & H).
    apply io_bind_ok in H as (u & w2 & [Hc _]%io_ensure_ok & H). injection H as -> _.
    by destruct (contains_str PEM_BEGIN system_ca).
Qed.

(** The certificate files of a proxied child: the proxy's certificate by itself,
    and after the system's certificates, from the start of a line. *)
Theorem proxy_ca_written pem bundle_path additional_path w w' :
  write_proxy_ca machine pem w = (Ok (bundle_path, additional_path), w') ->
  exists directory system_ca new, server w' = server w ++ new
    /\ bundle_path = path_join directory &"ca-bundle.pem" /\ additional_path = path_join directory &"proxy-ca.pem"
    /\ contains_str PEM_BEGIN pem = true /\ contains_str PEM_BEGIN system_ca = true
    /\ files_written new = [(additional_path, pem); (bundle_path, ca_bundle system_ca pem)]
    /\ Forall file_event new /\ head new = Some (Restricted directory 448).
Proof.
  intros H. pose proof H as Hx.
  eapply (extends_run file_event) in Hx as (new & Hn & Hf); [|by apply extends_proxy_ca].
  unfold write_proxy_ca in H. apply io_bind_ok in H as ([] & w1 & [Hpem ->]%io_ensure_ok & H).
  apply io_bind_ok in H as (t & w2 & Ho & H). injection Ho as _ <-.
  apply io_bind_ok in H as (directory & w3 & [_ ->]%io_ensure_ok & H).
  apply io_bind_ok in H as ([] & w4 & Hr & H).
  apply io_bind_ok in H as ([] & w5 & (new1 & Hw5 & Hf1)%private_files_written & H).
  apply io_bind_ok in H as (system_ca & w6 & (Hw6 & Hs)%system_ca_read & H).
  apply io_bind_ok in H as ([] & w7 & (new2 & Hw7 & Hf2)%private_files_written & H).
  injection H as <- <- <-.
  assert (server w4 = server w ++ [Restricted directory 448]) as Hw4.
  { apply io_bind_ok in Hr as (d & v1 & Ho & Hr). injection Ho as _ <-.
    apply io_bind_ok in Hr as ([] & v2 & [_ ->]%io_ensure_ok & Hr). by injection Hr as <-. }
  assert (new = Restricted directory 448 :: new1 ++ new2) as ->.
  { rewrite Hw7, Hw6, Hw5, Hw4, <- !app_assoc in Hn. by apply app_inv_head in Hn. }
  exists directory, system_ca, (Restricted directory 448 :: new1 ++ new2).
  split_and!; [done..| |done| |done|done].
  - by destruct (contains_str PEM_BEGIN pem).
  - cbn. by rewrite files_written_app, Hf1, Hf2.
Qed.
End Claims.

Module CliModels.
Import Models ConnectorModels.

Definition request : bytes :=
  &"CONNECT api.example.test:443 HTTP/1.1" ++ CRLF ++ &"Host: api.example.test:443" ++ CRLF
  ++ &"Proxy-Authorization: Bearer mine" ++ CRLF ++ CRLF.
Definition rewritten : bytes :=
  &"CONNECT api.example.test:443 HTTP/1.1" ++ CRLF ++ &"Host: api.example.test:443" ++ CRLF
  ++ &"Proxy-Authorization: Bearer opaque" ++ CRLF ++ CRLF.

Lemma inject_proxy_authorization_iff_witness :
  inject_proxy_authorization request &"opaque" = Ok rewritten
  /\ exists line lines, split_crlf request = line :: lines
       /\ split_crlf rewritten = line :: kept lines ++ [authorization_line &"opaque"; []; []].
Proof.
  split; [vm_compute; reflexivity|].
  destruct (proj2 (inject_proxy_authorization_iff request &"opaque" rewritten))
    as (line & lines & H1 & H2 & _); [vm_compute; reflexivity|]. exists line, lines. split; assumption.
Defined.

(** Only the value of a header is searched for line ends: a name may carry one, and
    a receiver that ends lines at a bare line feed reads a blank line before the
    credential. *)
Example bare_line_feed_passes :
  is_ok (inject_proxy_authorization
    (&"CONNECT h:443 HTTP/1.1" ++ CRLF ++ &"Host: h:443" ++ CRLF ++ [LF] ++ &"X: 1" ++ CRLF ++ CRLF)
    &"opaque") = true.
Proof. vm_compute. reflexivity. Qed.

Definition lease (id : bytes) (expires : Z) (revoked : bool) : ProfileEnvironmentLease :=
  {| pel_lease_id := id; pel_expires_unix_seconds := expires; pel_revoked := revoked |}.
Definition opened (id : bytes) : ProxySessionLease := {|
  lease_session_id := id; lease_token := &"opaque"; lease_proxy_url := &"https://proxy.example.test:14323";
  lease_ca_pem := PEM_BEGIN; lease_expires := 160; lease_revoked := false |}.

(** A server that lends the given variables under the lease [l1]. *)
Definition lending (values : list (bytes * bytes)) : nat -> forall rq, bytes -> ApiReply (reply_type rq) :=
  fun _ rq _ =>
    match rq return ApiReply (reply_type rq) with
    | GetProfileEnvironment _ _ => Replied {| env_values := values; env_lease_id := &"l1";
                                              env_expires_unix_seconds := 160 |}
    | RenewProfileEnvironmentLease id => Replied (lease id 220 false)
    | RevokeProfileEnvironmentLease id => Replied (lease id 0 true)
    | CreateProxySession _ => Replied (opened &"s1")
    | RenewProxySession id => Replied (opened id)
    | RevokeProxySession id => Replied (opened id)
    | _ => Failed
    end.
Definition box (values : list (bytes * bytes)) : Machine := {|
  env_var name := if bool_decide (name = &"AV_TOKEN") then Some &"jwt" else None;
  metadata _ path := if bool_decide (path = &"/etc/ssl/certs/ca-certificates.crt")
    then Some {| meta_is_file := true; meta_len := 27; meta_mode := 420 |} else None;
  file_text _ _ := None; file_bytes _ _ := Some PEM_BEGIN; create_dir_all _ _ := true;
  set_permissions _ path := negb (is_empty path); fs_write _ _ := true;
  temp_dir _ prefix := Some (&"/tmp/" ++ prefix ++ &"1"); program_output _ _ _ := None;
  stdin_written _ := true; install_provider := true; pem_certificates _ := None; root_accepted _ := true;
  answer := lending values;
  race _ := {| child_first := true; renewals := 2; under_way := false; spawned := true;
               exit_code := Ok (Some 7%Z) |};
  bind_loopback _ := Ok &"127.0.0.1:4000"; tcp_open _ _ := true; tls_open _ _ _ := true;
  written _ := true; copied _ := true |}.
Definition quiet : Connector.world (list ClientEvent) :=
  {| calls := 0; exchanges := []; tokens := ∅; server := [] |}.
Definition api : bytes := &"https://av.example.test".

Definition typed : list bytes := [&"deploy"; &"--"; &"/usr/bin/make"; &"all"].
Definition make_run (values : list (bytes * bytes)) :=
  run_profile (outside_world 200) (box values) api typed quiet.
Definition good_values : list (bytes * bytes) := [(&"API_KEY", &"k1"); (&"AV_TOKEN", &"stolen")].

Lemma ran {A X} (run : A * X) a : run.1 = a -> run = (a, run.2).
Proof. by destruct run; simpl; intros ->. Qed.

Lemma make_run_code : (make_run good_values).1 = Ok 7%Z.
Proof. vm_compute. reflexivity. Qed.

(** A variable name the client refuses leaves the lease to expire by itself: the
    request for the environment is all that was ever sent. *)
Example refused_environment_keeps_lease :
  let asked := GetProfileEnvironment &"deploy" &"make" in
  is_ok (make_run [(&"1KEY", &"k1")]).1 = false
  /\ server (make_run [(&"1KEY", &"k1")]).2
     = [Attempted asked;
        Sent &"https://av.example.test/av.v1.SessionService/GetProfileEnvironment" asked &"Bearer jwt"].
Proof. vm_compute. done. Qed.

#[local] Strategy expand [make_run].
Lemma profile_run_revokes_witness :
  exists w1, gives_back (box good_values)
    (eq (profile_command &"/usr/bin/make" [&"all"] [(&"API_KEY", &"k1"); (&"AV_TOKEN", &"stolen")]))
    (RevokeProfileEnvironmentLease &"l1") pel_revoked (Ok 7%Z) w1 (make_run good_values).2.
Proof.
  exists (connect_request (box good_values) api (GetProfileEnvironment &"deploy" &"make") quiet).2.
  refine (profile_run_revokes (outside_world 200) (box good_values) api typed &"deploy" &"/usr/bin/make"
    [&"all"] &"make" quiet (Ok 7%Z) (make_run good_values).2 _ _ _).
  - reflexivity.
  - vm_compute. reflexivity.
  - exact (ran (make_run good_values) (Ok 7%Z) make_run_code).
Defined.

Definition asked_run := run_transparent_proxy (outside_world 200) (box []) api (fun u => &"http://127.0.0.1:4000/")
  (fun _ => true) &"deploy" [&"--"; &"curl"] quiet.
#[local] Strategy expand [asked_run].
Lemma asked_run_code : asked_run.1 = Ok 7%Z.
Proof. vm_compute. reflexivity. Qed.

Lemma transparent_run_revokes_witness :
  exists w1, gives_back (box []) (proxied_command (fun u => &"http://127.0.0.1:4000/") &"curl" [])
    (RevokeProxySession &"s1") (fun _ => true) (Ok 7%Z) w1 asked_run.2.
Proof.
  exists (connect_request (box []) api (CreateProxySession &"deploy") quiet).2.
  refine (transparent_run_revokes (outside_world 200) (box []) api (fun u => &"http://127.0.0.1:4000/")
    (fun _ => true) &"deploy" [&"--"; &"curl"] &"curl" [] quiet (Ok 7%Z) asked_run.2 _ _).
  - reflexivity.
  - exact (ran asked_run (Ok 7%Z) asked_run_code).
Defined.

Definition remote : RemoteProxyTarget :=
  {| target_address := &"proxy.example.test:14323"; target_server_name := &"proxy.example.test" |}.
(** The client sends its header in two pieces, with a byte of the tunnel after it. *)
Definition pieces : list (option bytes) := [Some (take 30 request); Some (drop 30 request ++ &"!")].
Definition helped := proxy_local_connection (box []) [] remote &"opaque" pieces
  [Some (&"HTTP/1.1 200 OK" ++ CRLF ++ CRLF)] quiet.

Lemma local_helper_confined_witness :
  to_remote (server helped.2) = [rewritten; &"!"]
  /\ exists new, server helped.2 = [] ++ new
       /\ (to_remote new = [] \/ exists (header remaining : bytes) used, header ++ remaining = concat used).
Proof.
  split; [vm_compute; reflexivity|].
  destruct (local_helper_confined (box []) [] remote &"opaque" pieces
    [Some (&"HTTP/1.1 200 OK" ++ CRLF ++ CRLF)] quiet helped.1 helped.2) as (new & Hn & Hd).
  - apply surjective_pairing.
  - exists new. split; [exact Hn|].
    destruct Hd as [H|(header & remaining & _ & _ & used & _ & H & _)]; [left; exact H|right].
    exists header, remaining, used. exact H.
Defined.

Lemma child_environment_exact_witness :
  child_environment {[ &"AV_TOKEN" := &"jwt"; &"HOME" := &"/root" ]}
    (profile_command &"make" [] [(&"API_KEY", &"k1"); (&"AV_TOKEN", &"stolen")]) !! &"AV_TOKEN" = None
  /\ child_environment {[ &"AV_TOKEN" := &"jwt"; &"HOME" := &"/root" ]}
    (profile_command &"make" [] [(&"API_KEY", &"k1"); (&"AV_TOKEN", &"stolen")]) !! &"API_KEY" = Some &"k1".
Proof.
  split.
  - rewrite (proj1 (child_environment_exact (fun _ => []) &"make" []
      {[ &"AV_TOKEN" := &"jwt"; &"HOME" := &"/root" ]}) good_values); reflexivity.
  - rewrite (proj1 (child_environment_exact (fun _ => []) &"make" []
      {[ &"AV_TOKEN" := &"jwt"; &"HOME" := &"/root" ]}) good_values); reflexivity.
Defined.
End CliModels.
