(* ===== verification/Account.v ===== *)
(** Account: the commands of src/main.rs that manage an account: login and
    logout with the kernel keyring (src/keyring.rs), the agent and role commands
    and the listings.

    They are computations of Cli.v over the same trace.  [Desk] is what these
    commands meet outside besides [Machine]: the OIDC provider and the clock.  A reading of the clock is at least as late as the waits before it. *)

From Stdlib Require Import Ascii String.
From stdpp Require Import base list strings gmap pretty.
From S2P Require Import Prelude Str BTree External Models Ip Net Connector Config Leases Sessions Browser Cli.

Record DeviceAuthorization := {
  device_code : bytes; user_code : bytes; verification_uri : bytes;
  verification_uri_complete : option bytes; expires_in : Z; interval : Z }.

Record Desk := {
  (** a POST: status and body; [None] when it cannot be sent *)
  post_form : nat -> bytes -> list (bytes * bytes) -> option (Z * bytes);
  decode_device : bytes -> option DeviceAuthorization;
  decode_access_token : bytes -> option bytes;
  decode_oauth_error : bytes -> option bytes;
  (** the clock at a call, without the waits *)
  drift : nat -> Z;
}.

Section Account.
Context {UL : UrlLib} {EL : EncodingLib}.
Context (machine : Machine) (desk : Desk) (api_url : bytes).
#[local] Abbreviation CIO := (io (list ClientEvent)).

Definition print (text : bytes) : CIO unit := record_event (Printed text).

(** ** Agents and roles *)

Definition TAB : byte := "009"%char.
Definition columns (fields : list bytes) : bytes := join TAB fields ++ [LF].

Definition emit_agent_token (token : bytes) (output : option bytes) : CIO unit :=
  match output with
  | Some path =>
      _ ← write_private_file machine path token;
      print (&"agent token written to " ++ path ++ [LF])
  | None => print (token ++ [LF])
  end.

Fixpoint print_all (lines : list bytes) : CIO unit :=
  match lines with
  | [] => mret ()
  | line :: lines => _ ← print line; print_all lines
  end.

Inductive RoleCommand := RoleList | RoleSet (subject role : bytes).
Definition manage_role (command : RoleCommand) : CIO unit :=
  match command with
  | RoleList =>
      roles ← connect_request machine api_url (Control ListRolesCall);
      print_all ((fun '(subject, role) => columns [subject; role]) <$> (roles : list (bytes * bytes)))
  | RoleSet subject role =>
      _ ← connect_request machine api_url (Control (SetRoleCall subject role));
      mret ()
  end.

Inductive AgentCommand :=
| AgentList
| AgentCreate (name : bytes) (out : option bytes)
| AgentRotate (name : bytes) (out : option bytes)
| AgentEnable (name : bytes)
| AgentDisable (name : bytes)
| AgentDelete (name : bytes)
| AgentGrant (name profile mode : bytes) (expires_unix_seconds : Z)
| AgentRevoke (name profile : bytes).

(** The request a command makes *)
Definition agent_call (command : AgentCommand) : ControlCall :=
  match command with
  | AgentList => ListAgentsCall
  | AgentCreate name _ => CreateAgentCall name
  | AgentRotate name _ => RotateAgentCall name
  | AgentEnable name => EnableAgentCall name true
  | AgentDisable name => EnableAgentCall name false
  | AgentDelete name => DeleteAgentCall name
  | AgentGrant name profile mode expires => GrantCall profile (&"agent:" ++ name) mode expires
  | AgentRevoke name profile => RevokeCall profile (&"agent:" ++ name)
  end.
Definition manage_agent (command : AgentCommand) : CIO unit :=
  match command with
  | AgentList =>
      agents ← connect_request machine api_url (Control ListAgentsCall);
      print_all ((fun '(name, enabled) =>
        columns [name; if (enabled : bool) then &"enabled" else &"disabled"])
          <$> (agents : list (bytes * bool)))
  | AgentCreate name out =>
      token ← connect_request machine api_url (Control (CreateAgentCall name));
      emit_agent_token token out
  | AgentRotate name out =>
      token ← connect_request machine api_url (Control (RotateAgentCall name));
      emit_agent_token token out
  | _ =>
      _ ← connect_request machine api_url (Control (agent_call command));
      mret ()
  end.

(** ** Listings *)

Definition list_profiles_command : CIO unit :=
  profiles ← connect_request machine api_url ListProfiles;
  print_all ((fun p => columns [rpc_profile_name p; rpc_profile_environment p; rpc_profile_path p])
    <$> (profiles : list RpcProfile)).
Definition list_proxy_destinations_command : CIO unit :=
  destinations ← connect_request machine api_url ListProxyDestinations;
  print_all ((fun d => columns [rpc_destination d; rpc_mode_name d; rpc_destination_profile d; rpc_host d])
    <$> (destinations : list RpcProxyDestination)).

(** ** [login] *)

Definition post (url : bytes) (form : list (bytes * bytes)) : CIO (Z * bytes) :=
  _ ← record_event (Posted url form);
  reply ← outside (fun n => post_form desk n url form);
  ensure (ok_or reply "error sending request").
Definition is_success (status : Z) : bool := (200 <=? status)%Z && (status <? 300)%Z.

Fixpoint slept (events : list ClientEvent) : Z :=
  match events with
  | [] => 0
  | Slept s :: events => s + slept events
  | _ :: events => slept events
  end.
Definition instant : CIO Z :=
  events ← get_server;
  base ← outside (drift desk);
  mret (base + slept events)%Z.
Definition sleep (duration : Z) : CIO unit := record_event (Slept duration).

Definition out_of_fuel : string := "out of fuel".
Definition token_form (code client_id : bytes) : list (bytes * bytes) :=
  [(&"grant_type", &"urn:ietf:params:oauth:grant-type:device_code"); (&"device_code", code);
   (&"client_id", client_id)].

(** The loop of [login] *)
Fixpoint poll_token (fuel : nat) (token_endpoint code client_id : bytes) (deadline interval : Z)
    : CIO unit :=
  match fuel with
  | O => ensure (Err out_of_fuel)
  | S fuel =>
      now ← instant;
      if (now <? deadline)%Z then
        _ ← sleep (from_secs interval);
        '(status, body) ← post token_endpoint (token_form code client_id);
        if is_success status then
          token ← ensure (ok_or (decode_access_token desk body) "error decoding response body");
          _ ← keyring_store machine token;
          print (&"OIDC session stored in the Linux kernel user keyring" ++ [LF])
        else if (status =? 400)%Z then
          error ← ensure (ok_or (decode_oauth_error desk body) "error decoding response body");
          if bool_decide (error = &"authorization_pending")
          then poll_token fuel token_endpoint code client_id deadline interval
          else if bool_decide (error = &"slow_down")
          then poll_token fuel token_endpoint code client_id deadline (interval + 5)
          else if bool_decide (error = &"access_denied") then ensure (Err "OIDC login was denied")
          else if bool_decide (error = &"expired_token") then ensure (Err "OIDC device code expired")
          else ensure (Err "OIDC login failed: {}")
        else ensure (Err "OIDC token endpoint returned {}")
      else ensure (Err "OIDC device code expired")
  end.

Definition login (fuel : nat) : CIO unit :=
  _ ← ensure (client api_url);
  auth ← connect_request machine api_url GetAuthConfig;
  let device_endpoint := acr_device_authorization_endpoint auth in
  _ ← ensure (bail_if (is_empty device_endpoint)
                "the configured OIDC client does not expose device authorization");
  let token_endpoint := acr_token_endpoint auth in
  _ ← ensure (bail_if (is_empty token_endpoint) "OIDC token endpoint is unavailable");
  '(status, body) ← post device_endpoint
                      [(&"client_id", acr_client_id auth); (&"scope", join " " (acr_scopes auth))];
  _ ← ensure (bail_if ((400 <=? status)%Z && (status <? 600)%Z) "HTTP status error");
  response ← ensure (ok_or (decode_device desk body) "error decoding response body");
  _ ← print (&"Open " ++ verification_uri response ++ &" and enter code " ++ user_code response ++ [LF]);
  let open_url := default (verification_uri response) (verification_uri_complete response) in
  _ ← run_program machine &"xdg-open" [open_url] [];
  started ← instant;
  deadline ← ensure (ok_or (checked_add started (from_secs (expires_in response))) overflow);
  poll_token fuel token_endpoint (device_code response) (acr_client_id auth) deadline
    (Z.max (interval response) 1).

Definition logout : CIO unit :=
  _ ← keyring_remove machine;
  print (&"OIDC session removed from the kernel keyring" ++ [LF]).
End Account.
