(* ===== verification/AccountProps.v ===== *)
(** AccountProps: the device login ends and stores only what the provider
    issued; agent commands; private files. *)

From Stdlib Require Import Ascii String.
From stdpp Require Import base list strings gmap pretty.
From S2P Require Import Prelude Str BTree External Models Ip Net Connector ConnectorFacts Config Leases Sessions Browser Cli CliFacts Account.

Section LoginFacts.
Context {UL : UrlLib} {EL : EncodingLib}.
Context (machine : Machine) (desk : Desk) (api_url : bytes).
#[local] Abbreviation CIO := (io (list ClientEvent)).
#[local] Abbreviation W := (Connector.world (list ClientEvent)).
Implicit Types w : W.

Lemma slept_app a b : slept (a ++ b) = (slept a + slept b)%Z.
Proof. induction a as [|[] a IH]; simpl; lia. Qed.

(** ** The keyring *)

Definition padd : list bytes := [&"padd"; &"user"; DESCRIPTION; &"@u"].
(** The keyring is emptied, and holds at most [token] afterwards. *)
Definition keyring_event (token : bytes) (e : ClientEvent) : Prop :=
  exists arguments input, e = Ran &"keyctl" arguments input /\ (arguments = padd -> input = token).

Create HintDb account.
#[local] Hint Resolve extends_ret extends_ensure extends_outside extends_attempt : account.

Lemma extends_program P program arguments input : P (Ran program arguments input) ->
  extends P (run_program machine program arguments input).
Proof. intros HP. apply extends_bind; [by apply extends_record|auto with account]. Qed.

Lemma keyring_ran token arguments input : arguments <> padd \/ input = token ->
  keyring_event token (Ran &"keyctl" arguments input).
Proof. intros H. exists arguments, input. split; [done|]. naive_solver. Qed.

Lemma extends_keyring_remove token : extends (keyring_event token) (keyring_remove machine).
Proof.
  apply extends_bind.
  { apply extends_bind; [by apply extends_quiet|intros output].
    apply extends_bind; [auto with account|intros [success stdout]].
    case_match; [auto with account|]. apply extends_bind; auto with account. }
  intros [id|]; [|auto with account].
  apply extends_bind; [apply extends_program, keyring_ran; by left|intros output].
  apply extends_bind; [auto with account|intros [success stdout]]. auto with account.
Qed.

Lemma extends_keyring_store token : extends (keyring_event token) (keyring_store machine token).
Proof.
  apply extends_bind; [auto with account|intros _].
  apply extends_bind; [apply extends_attempt, extends_keyring_remove|intros _].
  apply extends_bind; [apply extends_program, keyring_ran; by right|intros output].
  apply extends_bind; [auto with account|intros [success stdout]].
  apply extends_bind; [auto with account|intros written].
  apply extends_bind; auto with account.
Qed.

(** ** One poll *)

Definition polled w e form i : W := {|
  calls := S (S (calls w)); exchanges := exchanges w; tokens := tokens w;
  server := (server w ++ [Slept (from_secs i)]) ++ [Posted e form] |}.

Definition now_of w : Z := (drift desk (calls w) + slept (server w))%Z.

(** What follows an answer of the token endpoint *)
Definition poll_answer (fuel : nat) (e code id : bytes) (deadline i : Z) (status : Z) (body : bytes)
    : CIO unit :=
  if is_success status then
    token ← ensure (ok_or (decode_access_token desk body) "error decoding response body");
    _ ← keyring_store machine token;
    print (&"OIDC session stored in the Linux kernel user keyring" ++ [LF])
  else if (status =? 400)%Z then
    error ← ensure (ok_or (decode_oauth_error desk body) "error decoding response body");
    if bool_decide (error = &"authorization_pending")
    then poll_token machine desk fuel e code id deadline i
    else if bool_decide (error = &"slow_down")
    then poll_token machine desk fuel e code id deadline (i + 5)
    else if bool_decide (error = &"access_denied") then ensure (Err "OIDC login was denied")
    else if bool_decide (error = &"expired_token") then ensure (Err "OIDC device code expired")
    else ensure (Err "OIDC login failed: {}")
  else ensure (Err "OIDC token endpoint returned {}").

Lemma poll_step fuel e code id deadline i w :
  poll_token machine desk (S fuel) e code id deadline i w
  = if (now_of w <? deadline)%Z then
      match post_form desk (S (calls w)) e (token_form code id) with
      | None => (Err "error sending request", polled w e (token_form code id) i)
      | Some (status, body) =>
          poll_answer fuel e code id deadline i status body (polled w e (token_form code id) i)
      end
    else (Err "OIDC device code expired", tick w).
Proof.
  cbn [poll_token].
  assert (instant desk w = (Ok (now_of w), tick w)) as Hi by done.
  unfold mbind at 1, io_bind at 1. rewrite Hi. cbv beta iota.
  destruct (now_of w <? deadline)%Z; [|done].
  assert (post desk e (token_form code id) {| calls := S (calls w); exchanges := exchanges w;
            tokens := tokens w; server := server w ++ [Slept (from_secs i)] |}
          = (ok_or (post_form desk (S (calls w)) e (token_form code id)) "error sending request",
             polled w e (token_form code id) i)) as Hp by done.
  unfold mbind at 1, io_bind at 1. change (sleep (from_secs i) (tick w)) with
    (Ok (), {| calls := S (calls w); exchanges := exchanges w;
               tokens := tokens w; server := server w ++ [Slept (from_secs i)] |}). cbv beta iota.
  unfold mbind at 1, io_bind at 1. rewrite Hp.
  by destruct (post_form desk (S (calls w)) e (token_form code id)) as [[status body]|].
Qed.

(** ** The loop *)

(** Computations that have no loop of their own *)
Definition fuelled {A} (m : CIO A) : Prop := forall w, (m w).1 <> Err out_of_fuel.
Lemma fuelled_bind {A B} (m : CIO A) (f : A -> CIO B) :
  fuelled m -> (forall a, fuelled (f a)) -> fuelled (m ≫= f).
Proof.
  intros Hm Hf w. unfold mbind, io_bind. specialize (Hm w).
  destruct (m w) as [[a|e] w1]; [apply Hf|]. simpl in *. congruence.
Qed.
Lemma fuelled_ensure {A} (r : result A) : r <> Err out_of_fuel -> fuelled (ensure r).
Proof. by intros H w. Qed.
Lemma fuelled_ok {A} (m : CIO A) : (forall w, exists a, (m w).1 = Ok a) -> fuelled m.
Proof. intros Hm w. destruct (Hm w) as [a ->]. done. Qed.
Lemma fuelled_bail c msg : msg <> out_of_fuel -> fuelled (ensure (bail_if c msg)).
Proof. intros H. apply fuelled_ensure. destruct c; simpl; congruence. Qed.
Lemma fuelled_ok_or {A} (o : option A) msg : msg <> out_of_fuel -> fuelled (ensure (ok_or o msg)).
Proof. intros H. apply fuelled_ensure. destruct o; simpl; congruence. Qed.
Lemma fuelled_program program arguments input : fuelled (run_program machine program arguments input).
Proof. apply fuelled_ok. intros w. by eexists. Qed.
Lemma fuelled_attempt {A} (m : CIO A) : fuelled (attempt m).
Proof. apply fuelled_ok. intros w. unfold attempt. destruct (m w). by eexists. Qed.

Lemma fuelled_store token : fuelled (keyring_store machine token).
Proof.
  apply fuelled_bind; [by apply fuelled_bail|intros _].
  apply fuelled_bind; [apply fuelled_attempt|intros _].
  apply fuelled_bind; [apply fuelled_program|intros output].
  apply fuelled_bind; [by apply fuelled_ok_or|intros [success stdout]].
  apply fuelled_bind; [apply fuelled_ok; intros w; by eexists|intros written].
  apply fuelled_bind; [by apply fuelled_bail|intros _]. by apply fuelled_bail.
Qed.

Lemma store_ran token w w' : keyring_store machine token w = (Ok (), w') ->
  exists new, server w' = server w ++ new /\ Ran &"keyctl" padd token ∈ new.
Proof.
  unfold keyring_store. intros H.
  apply io_bind_ok in H as ([] & w1 & He & H). apply io_ensure_ok in He as [_ ->].
  apply io_bind_ok in H as (removed & w2 & Ha & H).
  destruct (extends_attempt _ _ (extends_keyring_remove token) w) as (new & Hn & _).
  rewrite Ha in Hn. cbn [snd] in Hn.
  apply io_bind_ok in H as (output & w3 & Hr & H).
  apply io_bind_ok in H as ([success stdout] & w4 & He & H). apply io_ensure_ok in He as [_ ->].
  apply io_bind_ok in H as (written & w5 & Ho & H). injection Ho as <- <-.
  apply io_bind_ok in H as ([] & w6 & He & H). apply io_ensure_ok in He as [_ ->].
  apply io_ensure_ok in H as [_ ->]. injection Hr as _ <-. simpl.
  exists (new ++ [Ran &"keyctl" padd token]). rewrite Hn, app_assoc. split; [done|].
  apply elem_of_app. right. by left.
Qed.

(** [token] is the access token of a successful answer of the token endpoint. *)
Definition issued (e : bytes) (form : list (bytes * bytes)) (token : bytes) : Prop :=
  exists n status body, post_form desk n e form = Some (status, body)
    /\ is_success status = true /\ decode_access_token desk body = Some token.
Definition storing (e : bytes) (form : list (bytes * bytes)) (ev : ClientEvent) : Prop :=
  (exists token, issued e form token /\ keyring_event token ev) \/ exists text, ev = Printed text.

(** [n] polls, each after a wait that is at least as long as the one before and that begins
    while the waits so far leave something of the time [left] *)
Inductive polling (e : bytes) (form : list (bytes * bytes)) : Z -> Z -> nat -> list ClientEvent -> Prop :=
| polling_stop left i tail : Forall (storing e form) tail -> polling e form left i 0 tail
| polling_again left i i' n rest : (0 < left)%Z -> (i <= i')%Z ->
    polling e form (left - from_secs i) i' n rest ->
    polling e form left i (S n) (Slept (from_secs i) :: Posted e form :: rest).

Definition poll_outcome e form left i (most : nat) w (r : result unit) w' : Prop :=
  exists new n, server w' = server w ++ new /\ polling e form left i n new /\ n <= most
    /\ r <> Err out_of_fuel
    /\ (r = Ok () -> exists token, issued e form token /\ Ran &"keyctl" padd token ∈ new).

Lemma polled_outcome e form left i i' most w r w' : (0 < left)%Z -> (i <= i')%Z ->
  poll_outcome e form (left - from_secs i) i' most (polled w e form i) r w' ->
  poll_outcome e form left i (S most) w r w'.
Proof.
  intros Hl Hi (new & n & Hs & Hp & Hn & Hr & Ht). exists (Slept (from_secs i) :: Posted e form :: new), (S n).
  split_and!; [rewrite Hs; simpl; by rewrite <- !app_assoc|by econstructor|lia|done|].
  intros E. destruct (Ht E) as (token & Hi' & Hin). exists token. split; [done|]. by do 2 right.
Qed.

Lemma stop_outcome e form left i most w r : r <> Err out_of_fuel -> (r = Ok () -> False) ->
  poll_outcome e form left i most w r w.
Proof.
  intros Hr Hok. exists [], 0. rewrite app_nil_r. split_and!; [done|constructor; constructor|lia|done|].
  intros E. by destruct (Hok E).
Qed.

Lemma store_outcome e form left i most token w r w' : issued e form token ->
  (_ ← keyring_store machine token;
   print (&"OIDC session stored in the Linux kernel user keyring" ++ [LF])) w = (r, w') ->
  poll_outcome e form left i most w r w'.
Proof.
  intros Hi H. destruct (extends_keyring_store token w) as (new & Hn & HP).
  pose proof (fuelled_store token w) as Hf. unfold mbind, io_bind in H.
  assert (Forall (storing e form) new) as Hst.
  { eapply Forall_impl; [exact HP|]. intros ev Hev. left. by exists token. }
  destruct (keyring_store machine token w) as [[[]|err] w1] eqn:E; cbn [fst snd] in *.
  - apply pair_equal_spec in H as [<- <-]. eexists (new ++ [_]), 0.
    split_and!; [cbn; by rewrite Hn, app_assoc| |lia|done|].
    + constructor. apply Forall_app. split; [done|]. apply Forall_singleton. right. by eexists.
    + intros _. exists token. split; [done|]. apply elem_of_app. left.
      destruct (store_ran _ _ _ E) as (new' & Hn' & Hin). rewrite Hn in Hn'.
      by apply app_inv_head in Hn' as ->.
  - apply pair_equal_spec in H as [<- <-]. exists new, 0.
    split_and!; [done|by constructor|lia|done|done].
Qed.

(** Time does not go back. *)
Context (drift_mono : forall n m, n <= m -> (drift desk n <= drift desk m)%Z).

Lemma polled_later w e form i : (now_of w + from_secs i <= now_of (polled w e form i))%Z.
Proof.
  unfold now_of, polled. simpl calls. simpl server. rewrite !slept_app. simpl slept.
  pose proof (drift_mono (calls w) (S (S (calls w))) ltac:(lia)). unfold from_secs, NANOS. lia.
Qed.

Lemma poll_ends e code id deadline fuel k left i w r w' :
  k < fuel -> (1 <= i)%Z -> (deadline <= now_of w + left)%Z -> (left <= NANOS * Z.of_nat k)%Z ->
  poll_token machine desk fuel e code id deadline i w = (r, w') ->
  poll_outcome e (token_form code id) left i k w r w'.
Proof.
  revert k left i w. induction fuel as [|fuel IH]; intros k left i w Hk Hi Hd Hl H; [lia|].
  rewrite poll_step in H. destruct (now_of w <? deadline)%Z eqn:Hlt.
  2: { apply pair_equal_spec in H as [<- <-]. by apply (stop_outcome _ _ _ _ _ (tick w)). }
  apply Z.ltb_lt in Hlt. destruct k as [|k]; [unfold NANOS in *; lia|].
  set (form := token_form code id) in *. pose proof (polled_later w e form i) as Hlater.
  assert (NANOS <= from_secs i)%Z as Hsec by (unfold from_secs, NANOS; lia).
  assert (0 < left)%Z as Hleft by lia.
  destruct (post_form desk (S (calls w)) e form) as [[status body]|] eqn:Hpost.
  2: { apply pair_equal_spec in H as [<- <-]. apply (polled_outcome _ _ _ _ i); [done|lia|].
       by apply stop_outcome. }
  assert (forall msg, msg <> out_of_fuel -> ensure (Err msg) (polled w e form i) = (r, w') ->
            poll_outcome e form left i (S k) w r w') as Hstop.
  { intros msg Hm E. apply pair_equal_spec in E as [<- <-]. apply (polled_outcome _ _ _ _ i); [done|lia|].
    apply stop_outcome; congruence. }
  unfold poll_answer in H. destruct (is_success status) eqn:Hs.
  - destruct (decode_access_token desk body) as [token|] eqn:Hdec;
      [|by apply (Hstop "error decoding response body")].
    apply (polled_outcome _ _ _ _ i); [done|lia|]. eapply store_outcome; [|exact H].
    by exists (S (calls w)), status, body.
  - destruct (status =? 400)%Z; [|by apply (Hstop "OIDC token endpoint returned {}")].
    destruct (decode_oauth_error desk body) as [error|];
      [|by apply (Hstop "error decoding response body")].
    change ((if bool_decide (error = &"authorization_pending")
             then poll_token machine desk fuel e code id deadline i
             else if bool_decide (error = &"slow_down")
             then poll_token machine desk fuel e code id deadline (i + 5)
             else if bool_decide (error = &"access_denied") then ensure (Err "OIDC login was denied")
             else if bool_decide (error = &"expired_token") then ensure (Err "OIDC device code expired")
             else ensure (Err "OIDC login failed: {}")) (polled w e form i) = (r, w')) in H.
    destruct (bool_decide (error = &"authorization_pending")).
    { apply (polled_outcome _ _ _ _ i); [done|lia|]. apply (IH k _ i); [lia|lia|lia| |done].
      unfold NANOS in *. lia. }
    destruct (bool_decide (error = &"slow_down")).
    { apply (polled_outcome _ _ _ _ (i + 5)); [done|lia|]. apply (IH k _ (i + 5)%Z); [lia|lia|lia| |done].
      unfold NANOS in *. lia. }
    by repeat case_match; (eapply Hstop; [|exact H]).
Qed.

(** ** [login] *)

(** The server names [auth] as the provider's client. *)
Definition provider (auth : AuthConfigReply) : Prop :=
  exists n authorization, answer machine n GetAuthConfig authorization = Replied auth.
Definition device_form (auth : AuthConfigReply) : list (bytes * bytes) :=
  [(&"client_id", acr_client_id auth); (&"scope", join " " (acr_scopes auth))].
(** What the device endpoint of that provider answered *)
Definition authorized_device (auth : AuthConfigReply) (response : DeviceAuthorization) : Prop :=
  exists n status body,
    post_form desk n (acr_device_authorization_endpoint auth) (device_form auth) = Some (status, body)
    /\ ~ (400 <= status < 600)%Z /\ decode_device desk body = Some response.

(** What happens before the first poll *)
Definition login_prelude (ev : ClientEvent) : Prop :=
  about GetAuthConfig ev \/ (exists text, ev = Printed text)
  \/ (exists url, ev = Ran &"xdg-open" [url] [])
  \/ exists auth, provider auth
       /\ ev = Posted (acr_device_authorization_endpoint auth) (device_form auth).

Definition login_outcome w (r : result unit) w' : Prop :=
  r <> Err out_of_fuel
  /\ exists pre new, server w' = server w ++ pre ++ new /\ Forall login_prelude pre
    /\ (new = [] /\ r <> Ok ()
        \/ exists auth response n,
             let e := acr_token_endpoint auth in
             let form := token_form (device_code response) (acr_client_id auth) in
             provider auth /\ authorized_device auth response
             /\ polling e form (from_secs (expires_in response)) (Z.max (interval response) 1) n new
             /\ (Z.of_nat n <= expires_in response)%Z
             /\ (r = Ok () -> exists token, issued e form token /\ Ran &"keyctl" padd token ∈ new)).

Lemma prelude_ends w e w' pre : e <> out_of_fuel -> server w' = server w ++ pre ->
  Forall login_prelude pre -> login_outcome w (Err e) w'.
Proof.
  intros He Hs Hp. split; [congruence|]. exists pre, []. rewrite app_nil_r. split_and!; [done..|by left].
Qed.

Lemma login_outcome_extend w w1 pre r w' : server w1 = server w ++ pre -> Forall login_prelude pre ->
  login_outcome w1 r w' -> login_outcome w r w'.
Proof.
  intros Hs Hp (Hr & pre' & new & Hs' & Hp' & H). split; [done|]. exists (pre ++ pre'), new.
  split; [rewrite Hs', Hs; by rewrite !app_assoc|]. split; [by apply Forall_app|done].
Qed.

(** A step of the prelude: it appends events of the prelude, and ends the login
    where it fails. *)
Lemma login_step {A} (m : CIO A) (f : A -> CIO unit) w r w' :
  (m ≫= f) w = (r, w') -> extends login_prelude m -> fuelled m ->
  (forall a w1, m w = (Ok a, w1) -> f a w1 = (r, w') -> login_outcome w1 r w') ->
  login_outcome w r w'.
Proof.
  intros H Hm Hf Hk. destruct (Hm w) as (pre & Hs & Hp). specialize (Hf w).
  unfold mbind, io_bind in H. destruct (m w) as [[a|e] w1] eqn:E; cbn [fst snd] in *.
  - eapply login_outcome_extend; [exact Hs|done|]. by apply (Hk a).
  - apply pair_equal_spec in H as [<- <-]. eapply prelude_ends; [congruence|exact Hs|done].
Qed.

Lemma extends_post P url form : P (Posted url form) -> extends P (post desk url form).
Proof.
  intros HP. apply extends_bind; [by apply extends_record|intros _]. apply extends_bind; auto with account.
Qed.
Lemma post_ok url form w reply w' : post desk url form w = (Ok reply, w') ->
  exists n, post_form desk n url form = Some reply.
Proof.
  unfold post. intros H. apply io_bind_ok in H as ([] & w1 & _ & H).
  apply io_bind_ok in H as (r & w2 & Ho & H). apply io_ensure_ok in H as [H _].
  apply ok_or_ok in H. injection Ho as <- _. eauto.
Qed.
Lemma fuelled_post url form : fuelled (post desk url form).
Proof.
  apply fuelled_bind; [apply fuelled_ok; intros w; by eexists|intros _].
  apply fuelled_bind; [apply fuelled_ok; intros w; by eexists|intros reply]. by apply fuelled_ok_or.
Qed.
Lemma client_fuelled : fuelled (ensure (X := list ClientEvent) (client api_url)).
Proof.
  apply fuelled_ensure. unfold client. destruct (url_parse api_url) as [url|]; [|done].
  simpl. by destruct (_ && _).
Qed.
Lemma fuelled_auth_config : fuelled (connect_request machine api_url GetAuthConfig).
Proof.
  apply fuelled_bind; [apply fuelled_ok; intros w; by eexists|intros _].
  apply fuelled_bind; [apply client_fuelled|intros _].
  apply fuelled_bind; [apply fuelled_ok; intros w; by eexists|intros a].
  apply fuelled_bind; [apply fuelled_ok; intros w; by eexists|intros _].
  apply fuelled_bind; [apply fuelled_ok; intros w; by eexists|intros reply].
  apply fuelled_ensure. by destruct reply.
Qed.

(** C21: [av login] ends.  When the clock does not go back, the device code's lifetime in
    seconds bounds the number of polls, so the loop needs no more rounds than that.  Every
    poll asks the token endpoint that the server named, with the device code that the
    provider's device endpoint issued, after a wait of at least a second and of no less than
    the one before it, and every wait begins before the lifetime counted in waits is over
    (the last may end after it).  Nothing but an access token from a successful answer of
    that token endpoint is put into the keyring, and a login that reports success has put
    one there. *)
Theorem login_ends fuel w r w' :
  (forall body response, decode_device desk body = Some response ->
     (0 <= expires_in response)%Z /\ Z.to_nat (expires_in response) < fuel) ->
  login machine desk api_url fuel w = (r, w') -> login_outcome w r w'.
Proof.
  intros Hfuel H. unfold login in H.
  eapply login_step; [exact H|auto with account|apply client_fuelled|clear H; intros [] w0 _ H].
  eapply login_step; [exact H| |apply fuelled_auth_config|clear H; intros auth w1 Hauth H].
  { apply (extends_request machine api_url login_prelude GetAuthConfig). intros ev Hev. by left. }
  destruct (request_run machine api_url GetAuthConfig _ _ _ Hauth) as (_ & _ & _ & Hp). specialize (Hp _ eq_refl).
  fold (provider auth) in Hp. clear Hauth. cbv zeta in H.
  eapply login_step; [exact H|auto with account|by apply fuelled_bail|clear H; intros [] w2 _ H].
  eapply login_step; [exact H|auto with account|by apply fuelled_bail|clear H; intros [] w3 _ H].
  eapply login_step; [exact H| |apply fuelled_post|clear H; intros [status body] w4 [m Hpost]%post_ok H].
  { apply extends_post. do 3 right. by exists auth. }
  eapply login_step; [exact H|auto with account|by apply fuelled_bail|clear H; intros [] w5 Hst H].
  apply io_ensure_ok in Hst as [Hst ->]. apply bail_if_ok in Hst.
  eapply login_step; [exact H|auto with account|by apply fuelled_ok_or|clear H; intros response w6 Hd H].
  apply io_ensure_ok in Hd as [Hd ->]. apply ok_or_ok in Hd.
  eapply login_step; [exact H| |apply fuelled_ok; intros ?; by eexists|clear H; intros [] w7 _ H].
  { apply extends_record. right. left. by eexists. }
  eapply login_step; [exact H| |apply fuelled_program|clear H; intros opened w8 _ H].
  { apply extends_program. do 2 right. left. by eexists. }
  eapply login_step; [exact H| |apply fuelled_ok; intros ?; by eexists|clear H; intros started w9 Hs H].
  { by apply extends_quiet. }
  injection Hs as <- <-.
  eapply login_step; [exact H|auto with account|by apply fuelled_ok_or|clear H; intros deadline w10 Hdl H].
  apply io_ensure_ok in Hdl as [Hdl ->]. apply ok_or_ok in Hdl.
  destruct (Hfuel _ _ Hd) as [Hpos Hlt].
  assert (poll_outcome (acr_token_endpoint auth) (token_form (device_code response) (acr_client_id auth))
            (from_secs (expires_in response)) (Z.max (interval response) 1)
            (Z.to_nat (expires_in response)) (tick w8) r w') as (new & n & Hs & Hpl & Hn & Hr & Ht).
  { eapply poll_ends; [exact Hlt|lia| | |exact H]; [|unfold from_secs, NANOS; lia].
    unfold checked_add in Hdl. case_match; [|done]. injection Hdl as <-.
    pose proof (drift_mono (calls w8) (S (calls w8)) ltac:(lia)).
    unfold now_of. simpl calls. simpl server. lia. }
  split; [done|]. exists [], new. split; [done|]. split; [constructor|]. right.
  exists auth, response, n. split_and!; [done| |done|lia|done].
  exists m, status, body. split_and!; [done| |done]. breflect in Hst. lia.
Qed.
End LoginFacts.

(** ** Concrete runs *)

Module AccountModels.
Import Models.

Definition provider_config : AuthConfigReply := {|
  acr_client_id := &"av"; acr_scopes := [&"openid"; &"profile"];
  acr_token_endpoint := &"https://id.example.test/token";
  acr_device_authorization_endpoint := &"https://id.example.test/device" |}.
Definition answering : nat -> forall rq, bytes -> ApiReply (reply_type rq) :=
  fun _ rq _ =>
    match rq return ApiReply (reply_type rq) with
    | GetAuthConfig => Replied provider_config
    | Control (CreateAgentCall _) => Replied &"av_agent_token"
    | _ => Failed
    end.
(** [chmod] of the empty path fails. *)
Definition laptop : Machine := {|
  env_var name := if bool_decide (name = &"AV_TOKEN") then Some &"jwt" else None;
  metadata _ _ := None; file_text _ _ := None; file_bytes _ _ := None;
  create_dir_all _ _ := true; set_permissions _ path := negb (is_empty path); fs_write _ _ := true;
  temp_dir _ _ := None;
  program_output _ program arguments :=
    Some (negb (bool_decide (head arguments = Some &"search")), []);
  stdin_written _ := true; install_provider := true; pem_certificates _ := None; root_accepted _ := true;
  answer := answering;
  race _ := {| child_first := true; renewals := 0; under_way := false; spawned := true;
               exit_code := Ok (Some 0%Z) |};
  bind_loopback _ := Err "unused"; tcp_open _ _ := false; tls_open _ _ _ := false;
  written _ := true; copied _ := true |}.
(** The provider asks to slow down, then to wait, then issues a token. *)
Definition home : Desk := {|
  post_form n url _ :=
    if bool_decide (url = &"https://id.example.test/device") then Some (200%Z, &"device")
    else if (n <? 6)%nat then Some (400%Z, &"slow_down")
    else if (n <? 8)%nat then Some (400%Z, &"authorization_pending")
    else Some (200%Z, &"jwt-2");
  decode_device _ := Some {| device_code := &"dc"; user_code := &"ABCD";
    verification_uri := &"https://id.example.test/activate"; verification_uri_complete := None;
    expires_in := 600; interval := 0 |};
  decode_access_token body := Some body; decode_oauth_error body := Some body;
  drift n := Z.of_nat n |}.
Definition quiet : Connector.world (list ClientEvent) :=
  {| calls := 0; exchanges := []; tokens := ∅; server := [] |}.
Definition api : bytes := &"https://av.example.test".
Definition waits (events : list ClientEvent) : list Z :=
  omap (fun e => match e with Slept s => Some s | _ => None end) events.

Definition logging_in := login laptop home api 601 quiet.
Example logged_in : is_ok logging_in.1 = true /\ waits (server logging_in.2) = [from_secs 1; from_secs 6; from_secs 6]%Z.
Proof. vm_compute. done. Qed.

Lemma login_ends_witness : login_outcome laptop home quiet logging_in.1 logging_in.2.
Proof.
  apply (login_ends laptop home api (fun n m H => inj_le n m H) 601).
  - intros body response [= <-]. vm_compute. split; [discriminate|lia].
  - unfold logging_in. destruct (login laptop home api 601 quiet). reflexivity.
Defined.

(** The token of a new agent is shown once.  With a bare file name the parent
    directory is the empty path, whose permissions cannot be set: the command
    fails after the server has created the agent, and the token is neither
    printed nor written. *)
Theorem bare_output_loses_token :
  let run := manage_agent laptop api (AgentCreate &"bot" (Some &"bot.token")) quiet in
  parent &"bot.token" = Some []
  /\ is_ok run.1 = false
  /\ Attempted (Control (CreateAgentCall &"bot")) ∈ server run.2
  /\ Forall (fun e => match e with Printed _ | Wrote _ _ => False | _ => True end) (server run.2).
Proof. vm_compute. split_and!; [done|done|by left|]. repeat constructor. Qed.

(** An output below an existing directory takes that directory away from others. *)
Example output_restricts_parent :
  let run := manage_agent laptop api (AgentCreate &"bot" (Some &"/srv/shared/bot.token")) quiet in
  is_ok run.1 = true /\ Restricted &"/srv/shared" 448 ∈ server run.2.
Proof.
  vm_compute. split; [done|]. repeat (apply elem_of_cons; (left; reflexivity) || right).
Qed.

Example parents : parent &"/a/b" = Some &"/a" /\ parent &"/a" = Some &"/" /\ parent &"/" = None
  /\ parent &"./a" = Some &"." /\ parent &"a//b/." = Some &"a" /\ parent [] = None.
Proof. vm_compute. done. Qed.
End AccountModels.
