(* ===== verification/Container.v ===== *)
(** Container: [av run --container] of src/main.rs: a child in a container without
    a network of its own, behind a relay container that shares its network
    namespace with it and reaches the local helper through a Unix socket.

    The Docker client is the program [docker] of Account.v's [Desk]; [Docker] is
    what else the command meets.  How the children and the renewals race is
    decided outside, as in Cli.v. *)

From Stdlib Require Import Ascii String.
From stdpp Require Import base list strings gmap pretty.
From S2P Require Import Prelude Str BTree External Models Ip Net Connector Config Leases Sessions Browser Cli Account.

(** How the target, the relay and an interrupt end the race: an exit status is
    [None] when waiting fails, and holds no code after a signal. *)
Inductive ContainerEnd :=
| TargetEnded (status : option (option Z))
| HelperEnded (waited : bool)
| Interrupted (signalled : bool) (status : option (option Z)).

Record Docker := {
  canonicalize : nat -> bytes -> option bytes;
  is_dir : nat -> bytes -> bool;
  path_exists : nat -> bytes -> bool;
  owner_of : nat -> bytes -> option (Z * Z);
  bind_unix : nat -> bytes -> bool;
  is_socket : nat -> bytes -> bool;
  bind_relay : nat -> bool;
  process_id : Z;
  spawn : nat -> bool;
  stdout_is_terminal : bool;
  (** renewals before the end, whether one more is under way, and the end *)
  container_race : nat -> nat * bool * ContainerEnd;
}.

Definition docker_rm (name : bytes) : list bytes := [&"rm"; &"--force"; name].
Definition docker_wait (helper_name : bytes) : ProcessCommand :=
  args [&"wait"; helper_name] (command_new &"docker").

Section Container.
Context {UL : UrlLib} {EL : EncodingLib}.
Context (env : Outside) (machine : Machine) (desk : Desk) (docker : Docker) (api_url : bytes).
Context (valid_server_name : bytes -> bool).
#[local] Abbreviation CIO := (io (list ClientEvent)).

Definition run_docker (arguments : list bytes) (message : string) : CIO (bool * bytes) :=
  output ← run_program machine &"docker" arguments [];
  ensure (ok_or output message).

Definition docker_preflight (image helper_image : bytes) : CIO unit :=
  '(version, _) ← run_docker [&"version"; &"--format"; &"{{.Server.Version}}"]
                    "run Docker Engine preflight";
  _ ← ensure (bail_if (negb version) "Docker Engine is unavailable");
  '(present, _) ← run_docker [&"image"; &"inspect"; image] "inspect {label}";
  _ ← ensure (bail_if (negb present) "container image is not present locally; pull its exact digest before launch");
  '(present, _) ← run_docker [&"image"; &"inspect"; helper_image] "inspect {label}";
  ensure (bail_if (negb present) "AV helper image is not present locally; pull its exact digest before launch").

Definition unique_container_names : CIO (bytes * bytes) :=
  now ← system_now env;
  _ ← ensure (bail_if (now <? 0)%Z "system clock is before Unix epoch");
  let prefix := &"av-" ++ print_z (process_id docker) ++ &"-" ++ print_z now in
  mret (prefix ++ &"-relay", prefix ++ &"-child").

(** [DockerContainerCleanup] is dropped however the scope is left; [docker rm] may fail. *)
Fixpoint remove_containers (names : list bytes) : CIO unit :=
  match names with
  | [] => mret ()
  | name :: names => _ ← run_program machine &"docker" (docker_rm name) []; remove_containers names
  end.
Definition with_cleanup {A} (names : list bytes) (body : CIO A) : CIO A :=
  r ← attempt body;
  _ ← remove_containers (rev names);
  ensure r.

Definition RELAY_POLL : Z := 100000000.
Fixpoint poll_relay (fuel : nat) (helper_name ready_path : bytes) (deadline : Z) : CIO unit :=
  match fuel with
  | O => ensure (Err out_of_fuel)
  | S fuel =>
      now ← instant desk;
      if (now <? deadline)%Z then
        ready ← is_file machine ready_path;
        if ready : bool then mret ()
        else
          '(success, stdout) ← run_docker [&"inspect"; &"--format"; &"{{.State.Running}}"; helper_name]
                                 "inspect AV container relay";
          _ ← ensure (bail_if (negb success || negb (bool_decide (stdout = &"true" ++ [LF])))
                        "AV network-none relay exited before becoming ready");
          _ ← sleep RELAY_POLL;
          poll_relay fuel helper_name ready_path deadline
      else ensure (Err "AV network-none relay did not become ready")
  end.
(** A hundred waits of a tenth of a second reach the deadline. *)
Definition RELAY_FUEL : nat := 101.
Definition wait_for_container_relay (helper_name ready_path : bytes) : CIO unit :=
  started ← instant desk;
  poll_relay RELAY_FUEL helper_name ready_path (started + from_secs 10).

Definition start_unix_proxy (socket_path remote_proxy_url : bytes) : CIO (list bytes * RemoteProxyTarget) :=
  exists_already ← outside (fun n => path_exists docker n socket_path);
  _ ← ensure (bail_if (negb (is_absolute socket_path) || exists_already)
                "container relay socket must be a new absolute path");
  remote ← ensure (remote_proxy_target valid_server_name remote_proxy_url);
  transport ← transport_client_config machine;
  bound ← outside (fun n => bind_unix docker n socket_path);
  _ ← ensure (bail_if (negb bound) "bind private container relay socket");
  mret (transport, remote).

Definition exit_byte (code : option Z) (missing : Z) : Z := Z.min (Z.max (default missing code) 0) 255.

(** The target is killed on every branch but its own end. *)
Definition race_container (session_id : bytes) (expires : Z) : CIO Z :=
  outcome ← outside (container_race docker);
  let '(renewals, under_way, ending) := outcome in
  let killed {A} (message : string) : CIO A :=
    _ ← record_event KilledChild; ensure (Err message) in
  renewed ← attempt (renew_until env (renew_proxy_session_once env machine api_url session_id)
                       (RenewProxySession session_id) under_way (mret ()) renewals expires);
  match renewed with
  | Err e => killed e
  | Ok _ =>
      match ending with
      | TargetEnded (Some code) => mret (exit_byte code 1)
      | TargetEnded None => killed "wait for enforced container"
      | HelperEnded true => killed "AV network-none relay stopped while the container was running"
      | HelperEnded false => killed "wait for AV container relay"
      | Interrupted false _ => killed "wait for interrupt"
      | Interrupted true None => killed "wait for interrupted container"
      | Interrupted true (Some code) => _ ← record_event KilledChild; mret (exit_byte code 130)
      end
  end.

Definition start_process (command : ProcessCommand) (message : string) : CIO unit :=
  started ← outside (spawn docker);
  _ ← ensure (bail_if (negb started) message);
  record_event (StartedChild command).

(** The two containers, between the choice of their names and their removal *)
Definition run_containers
    (image helper_image helper_name target_name workspace ca_directory relay_directory executable : bytes)
    (arguments : list bytes) (uid gid : Z) (session_id : bytes) (expires : Z) : CIO Z :=
  let socket_path := path_join relay_directory &"proxy.sock" in
  let ready_path := path_join relay_directory &"ready" in
  relay ← ensure (container_relay_command helper_image helper_name relay_directory socket_path
                    ready_path uid gid);
  '(success, _) ← run_docker (cmd_args relay) "start AV network-none relay container";
  _ ← ensure (bail_if (negb success) "AV network-none relay container failed to start");
  _ ← wait_for_container_relay helper_name ready_path;
  target ← ensure (enforced_container_command image helper_name target_name workspace ca_directory
                     executable arguments uid gid (stdout_is_terminal docker));
  _ ← start_process target "start enforced network-none container";
  monitored ← attempt (start_process (docker_wait helper_name) "monitor AV container relay");
  match monitored with
  | Err e => _ ← record_event KilledChild; ensure (Err e)
  | Ok _ => race_container session_id expires
  end.

Definition container_session (image helper_image workspace executable : bytes) (arguments : list bytes)
    (lease : ProxySessionLease) : CIO Z :=
  '(bundle_path, _) ← write_proxy_ca machine (lease_ca_pem lease);
  let ca_directory := default [] (parent bundle_path) in
  directory ← outside (fun n => temp_dir machine n &"av-container-relay-");
  relay_directory ← ensure (ok_or directory "create private container relay directory");
  _ ← restrict_directory machine relay_directory;
  owner ← outside (fun n => owner_of docker n relay_directory);
  '(uid, gid) ← ensure (ok_or owner "inspect container relay directory");
  _ ← start_unix_proxy (path_join relay_directory &"proxy.sock") (lease_proxy_url lease);
  '(helper_name, target_name) ← unique_container_names;
  with_cleanup [helper_name; target_name]
    (run_containers image helper_image helper_name target_name workspace ca_directory relay_directory
       executable arguments uid gid (lease_session_id lease) (lease_expires lease)).

(** [command] without a leading [--] *)
Definition container_arguments (command : list bytes) : result (bytes * list bytes) :=
  let command := match command with
                 | first :: rest => if bool_decide (first = &"--") then rest else command
                 | [] => []
                 end in
  match command with
  | executable :: arguments => Ok (executable, arguments)
  | [] => Err "usage: av run <profile> --container --image <digest> --helper-image <digest> -- <command> [args...]"
  end.

(** The checks before a session is asked for: the resolved workspace *)
Definition container_checks (image helper_image workspace : bytes) : CIO bytes :=
  _ ← ensure (validate_digest_pinned_image image "container image");
  _ ← ensure (validate_digest_pinned_image helper_image "AV helper image");
  resolved ← outside (fun n => canonicalize docker n workspace);
  workspace ← ensure (ok_or resolved "resolve container workspace");
  directory ← outside (fun n => is_dir docker n workspace);
  _ ← ensure (bail_if (negb directory || bool_decide (workspace = &"/"))
                "container workspace must be an existing directory other than /");
  _ ← ensure (bail_if (contains "," workspace) "container workspace cannot contain a comma");
  _ ← docker_preflight image helper_image;
  mret workspace.

Definition run_enforced_container (profile image helper_image workspace : bytes) (command : list bytes)
    : CIO Z :=
  '(executable, arguments) ← ensure (container_arguments command);
  workspace ← container_checks image helper_image workspace;
  lease ← connect_request machine api_url (CreateProxySession profile);
  _ ← ensure (bail_if (is_empty (lease_session_id lease) || is_empty (lease_token lease)
                       || is_empty (lease_proxy_url lease) || is_empty (lease_ca_pem lease))
                "AV returned an incomplete proxy session");
  status ← attempt (container_session image helper_image workspace executable arguments lease);
  revoke ← attempt (connect_request machine api_url (RevokeProxySession (lease_session_id lease)));
  ensure (run_result status ((fun _ => true) <$> revoke) "" "revoke enforced container proxy session").

(** ** The relay inside the helper container *)

(** The loop that accepts connections ends only where accepting fails; what a
    connection does is copying bytes in both directions. *)
Definition run_container_relay (socket_path ready_path : bytes) : CIO unit :=
  socket_is_unix ← outside (fun n => is_socket docker n socket_path);
  ready_exists ← outside (fun n => path_exists docker n ready_path);
  _ ← ensure (bail_if (negb (is_absolute socket_path) || negb (is_absolute ready_path)
                       || negb (bool_decide (parent socket_path = parent ready_path))
                       || negb socket_is_unix || ready_exists)
                "container relay requires a mounted Unix socket and new ready path");
  bound ← outside (bind_relay docker);
  _ ← ensure (bail_if (negb bound) "bind network-none loopback relay");
  _ ← write_private_file machine ready_path (&"ready" ++ [LF]);
  ensure (Err "accept network-none child proxy connection").
End Container.
