(* ===== verification/ContainerProps.v ===== *)
(** ContainerProps: [av run --container] asks for a session only behind its
    checks, starts nothing but the two isolated containers, removes both and then
    revokes; the wait for the relay ends. *)

From Stdlib Require Import Ascii String.
From stdpp Require Import base list strings gmap pretty.
From S2P Require Import Prelude Str BTree External Models Ip Net Connector ConnectorFacts Config Leases Sessions Browser Cli CliFacts CliProps Account AccountProps Container.

(** ** What [docker run] reads in a command line *)

(** Options without a value; every other option takes the next argument. *)
Definition switches : list bytes := [&"--detach"; &"--read-only"; &"--interactive"; &"--tty"].
(** The options up to the image, and the image with what follows it *)
Fixpoint docker_options (arguments : list bytes) : list (bytes * bytes) * list bytes :=
  match arguments with
  | flag :: rest =>
      if negb (starts_with &"-" flag) then ([], arguments)
      else if bool_decide (flag ∈ switches) then
        let '(options, rest) := docker_options rest in ((flag, []) :: options, rest)
      else match rest with
           | value :: rest => let '(options, rest) := docker_options rest in ((flag, value) :: options, rest)
           | [] => ([], arguments)
           end
  | [] => ([], [])
  end.
Definition values_of (name : string) (options : list (bytes * bytes)) : list bytes :=
  (filter (fun o => o.1 = &name) options).*2.

(** A container of the given name that is on the given network alone, with no capability, no new
    privilege and a read-only root, from an image that is not fetched, running
    one program with these mounts *)
Definition isolated (name network image entrypoint : bytes) (mounts rest arguments : list bytes) : Prop :=
  exists options, arguments = &"run" :: tail arguments
    /\ docker_options (tail arguments) = (options, image :: rest)
    /\ values_of "--name" options = [name]
    /\ values_of "--network" options = [network] /\ values_of "--mount" options = mounts
    /\ values_of "--cap-drop" options = [&"ALL"]
    /\ values_of "--security-opt" options = [&"no-new-privileges:true"]
    /\ values_of "--pull" options = [&"never"] /\ values_of "--entrypoint" options = [entrypoint]
    /\ values_of "--read-only" options = [[]]
    /\ Forall (fun name => values_of name options = [])
         ["--privileged"; "--cap-add"; "--volume"; "--volumes-from"; "--device"; "--pid"; "--ipc"; "--userns"].

Definition bind_mount (source target : bytes) (options : list bytes) : bytes :=
  &"type=bind,src=" ++ source ++ &",dst=" ++ target ++ mjoin (map (fun o => &"," ++ o) options).

(** The workspace cannot add fields to its mount. *)
Lemma mount_fields source : contains "," source = false ->
  split "," (bind_mount source &"/workspace" []) = [&"type=bind"; &"src=" ++ source; &"dst=/workspace"].
Proof.
  intros Hs. unfold contains in Hs. apply bool_decide_eq_false in Hs.
  assert (bind_mount source &"/workspace" [] =
    &"type=bind" ++ ","%char :: (&"src=" ++ source) ++ ","%char :: &"dst=/workspace") as -> by done.
  rewrite !split_app, (split_sep_free _ (&"src=" ++ source)); [done|].
  rewrite elem_of_app. intros [H|H]; [|done]. revert H. by vm_compute; set_solver.
Qed.

Lemma docker_switch flag rest options after :
  docker_options rest = (options, after) -> starts_with &"-" flag = true -> flag ∈ switches ->
  docker_options (flag :: rest) = ((flag, []) :: options, after).
Proof. intros Hr Hf Hs. cbn [docker_options]. by rewrite Hf, bool_decide_true, Hr. Qed.
Lemma docker_option flag value rest options after :
  docker_options rest = (options, after) -> starts_with &"-" flag = true -> flag ∉ switches ->
  docker_options (flag :: value :: rest) = ((flag, value) :: options, after).
Proof. intros Hr Hf Hs. cbn [docker_options]. by rewrite Hf, bool_decide_false, Hr. Qed.
Lemma docker_image image rest : starts_with &"-" image = false ->
  docker_options (image :: rest) = ([], image :: rest).
Proof. intros H. cbn [docker_options]. by rewrite H. Qed.

(** Read a command line option by option. *)
Ltac read_options :=
  repeat first [ eapply docker_image; done
               | eapply docker_switch; [|reflexivity|by apply (bool_decide_unpack _)]
               | eapply docker_option; [|reflexivity|by apply (bool_decide_unpack _)] ].

Ltac isolate :=
  eexists; split; [reflexivity|]; split;
  [ cbn -[starts_with switches docker_options]; read_options
  | split_and!; first [reflexivity | repeat constructor] ].

Lemma relay_isolated helper_image helper_name relay_directory socket_path ready_path uid gid c :
  starts_with &"-" helper_image = false ->
  container_relay_command helper_image helper_name relay_directory socket_path ready_path uid gid = Ok c ->
  program c = &"docker" /\ exists rest,
    isolated helper_name &"none" helper_image &"/usr/local/bin/av" [bind_mount relay_directory &"/run/av" []]
      (&"container-relay" :: rest) (cmd_args c).
Proof.
  intros Hi H. unfold container_relay_command in H.
  apply bind_ok in H as (socket_name & _ & H). apply bind_ok in H as (ready_name & _ & H).
  injection H as <-. split; [done|]. eexists. unfold isolated.
  isolate.
Qed.

Lemma target_isolated image helper_name target_name workspace ca_directory executable arguments uid gid
    is_terminal c :
  starts_with &"-" image = false ->
  enforced_container_command image helper_name target_name workspace ca_directory executable arguments
    uid gid is_terminal = Ok c ->
  program c = &"docker"
  /\ isolated target_name (&"container:" ++ helper_name) image executable
       [bind_mount workspace &"/workspace" []; bind_mount ca_directory &"/run/av-ca" [&"readonly"]]
       arguments (cmd_args c).
Proof.
  intros Hi H. unfold enforced_container_command in H.
  apply bind_ok in H as (? & _ & H). apply bind_ok in H as (? & _ & H).
  injection H as <-. split; [done|]. unfold isolated. destruct is_terminal; isolate.
Qed.

(** ** The trace of a run *)

Section ContainerFacts.
Context {UL : UrlLib} {EL : EncodingLib}.
Context (env : Outside) (machine : Machine) (desk : Desk) (docker : Docker) (api_url : bytes).
Context (valid_server_name : bytes -> bool).
#[local] Abbreviation CIO := (io (list ClientEvent)).
#[local] Abbreviation W := (Connector.world (list ClientEvent)).
Implicit Types w : W.

Create HintDb container.
#[local] Hint Resolve extends_ret extends_ensure extends_outside extends_attempt : container.

(** Before the session: questions to Docker alone *)
Definition question (e : ClientEvent) : Prop :=
  exists what rest, e = Ran &"docker" (what :: rest) [] /\ what ∈ [&"version"; &"image"].

Lemma extends_passed P {A B} (x : result A) (f : A -> CIO B) :
  (forall a, x = Ok a -> extends P (f a)) -> extends P (ensure x ≫= f).
Proof. intros Hf. destruct x as [a|e]; [by apply (Hf a)|by apply extends_quiet]. Qed.

Lemma extends_docker (P : ClientEvent -> Prop) arguments msg : P (Ran &"docker" arguments []) ->
  extends P (run_docker machine arguments msg).
Proof. intros HP. apply extends_bind; [by apply extends_program|auto with container]. Qed.

Lemma extends_preflight image helper_image : extends question (docker_preflight machine image helper_image).
Proof.
  assert (forall what rest, what ∈ [&"version"; &"image"] -> question (Ran &"docker" (what :: rest) []))
    as Hq by (intros; by do 2 eexists).
  repeat (apply extends_bind; [first [apply extends_docker, Hq; set_solver|auto with container]
                              |first [intros [? ?]|intros _]]).
  auto with container.
Qed.

Lemma container_checks_run image helper_image workspace w r w' :
  container_checks machine docker image helper_image workspace w = (r, w') ->
  (exists new, server w' = server w ++ new /\ Forall question new)
  /\ forall resolved, r = Ok resolved ->
       validate_digest_pinned_image image "container image" = Ok ()
       /\ validate_digest_pinned_image helper_image "AV helper image" = Ok ()
       /\ (exists n, canonicalize docker n workspace = Some resolved)
       /\ (exists n, is_dir docker n resolved = true)
       /\ resolved <> &"/" /\ contains "," resolved = false.
Proof.
  intros H. split.
  - eapply extends_run; [|exact H]. do 3 (apply extends_bind; [auto with container|intros ?]).
    do 4 (apply extends_bind; [auto with container|intros ?]).
    apply extends_bind; [apply extends_preflight|intros ?]. auto with container.
  - intros resolved ->. unfold container_checks in H.
    apply io_bind_ok in H as ([] & w1 & [H1 ->]%io_ensure_ok & H).
    apply io_bind_ok in H as ([] & w2 & [H2 ->]%io_ensure_ok & H).
    apply io_bind_ok in H as (c & w3 & Ho & H). injection Ho as Hc <-.
    apply io_bind_ok in H as (ws & w4 & [H3 ->]%io_ensure_ok & H). apply ok_or_ok in H3.
    apply io_bind_ok in H as (d & w5 & Ho & H). injection Ho as Hd <-.
    apply io_bind_ok in H as ([] & w6 & [H4 ->]%io_ensure_ok & H).
    apply io_bind_ok in H as ([] & w7 & [H5 ->]%io_ensure_ok & H).
    apply io_bind_ok in H as ([] & w8 & _ & H). injection H as -> _.
    destruct d; [|done]. simpl in H4. case_bool_decide; [done|].
    destruct (contains "," resolved) eqn:E; [done|].
    split_and!; [done|done|by eexists; rewrite Hc|by eexists|done|done].
Qed.

(** Between the session and its revocation, with the containers' names *)
Definition setup (e : ClientEvent) : Prop := file_event e.
Definition container_event (image helper_image workspace executable : bytes) (arguments : list bytes)
    (session_id helper_name target_name : bytes) (e : ClientEvent) : Prop :=
  about (RenewProxySession session_id) e \/ e = KilledChild \/ e = Slept RELAY_POLL
  \/ e = Ran &"docker" [&"inspect"; &"--format"; &"{{.State.Running}}"; helper_name] []
  \/ (exists relay_directory rest line, e = Ran &"docker" line []
        /\ isolated helper_name &"none" helper_image &"/usr/local/bin/av" [bind_mount relay_directory &"/run/av" []]
             (&"container-relay" :: rest) line)
  \/ exists c, e = StartedChild c /\ program c = &"docker"
        /\ (c = docker_wait helper_name
            \/ exists ca_directory,
                 isolated target_name (&"container:" ++ helper_name) image executable
                   [bind_mount workspace &"/workspace" []; bind_mount ca_directory &"/run/av-ca" [&"readonly"]]
                   arguments (cmd_args c)).

Definition removal (name : bytes) : ClientEvent := Ran &"docker" (docker_rm name) [].

(** Either no container was named, or everything after that is between the
    naming and the removal of both. *)
Definition contained (image helper_image workspace executable : bytes) (arguments : list bytes)
    (session_id : bytes) (body : list ClientEvent) : Prop :=
  Forall setup body
  \/ exists before during helper_name target_name,
       body = before ++ during ++ [removal target_name; removal helper_name]
       /\ helper_name <> target_name /\ Forall setup before
       /\ Forall (container_event image helper_image workspace executable arguments session_id
                    helper_name target_name) during.

Lemma extends_poll P fuel helper_name ready_path deadline :
  P (Slept RELAY_POLL) -> P (Ran &"docker" [&"inspect"; &"--format"; &"{{.State.Running}}"; helper_name] []) ->
  extends P (poll_relay machine desk fuel helper_name ready_path deadline).
Proof.
  intros Hs Hi. induction fuel as [|fuel IH]; cbn [poll_relay]; [auto with container|].
  apply extends_bind; [by apply extends_quiet|intros now]. case_match; [|auto with container].
  apply extends_bind; [apply extends_is_file|intros [|]]; [auto with container|].
  apply extends_bind; [by apply extends_docker|intros [success stdout]].
  apply extends_bind; [auto with container|intros _].
  apply extends_bind; [by apply extends_record|done].
Qed.

Section Body.
Context (image helper_image workspace executable : bytes) (arguments : list bytes).
Context (session_id helper_name target_name : bytes).
Context (image_plain : starts_with &"-" image = false).
Context (helper_plain : starts_with &"-" helper_image = false).
#[local] Abbreviation E :=
  (container_event image helper_image workspace executable arguments session_id helper_name target_name).

Lemma extends_killed {A} msg : extends E (_ ← record_event KilledChild; ensure (X := list ClientEvent) (A := A) (Err msg)).
Proof. apply extends_bind; [apply extends_record; right; by left|auto with container]. Qed.
#[local] Hint Resolve extends_killed : container.

Lemma extends_race_container expires :
  extends E (race_container env machine docker api_url session_id expires).
Proof.
  unfold race_container. apply extends_bind; [auto with container|intros [[n flag] ending]].
  apply extends_bind.
  { apply extends_attempt, extends_renew_until; [|by left; left|auto with container].
    apply extends_renew_session. intros e He. by left. }
  intros [u|e]; [|auto with container].
  destruct ending as [[code|]|[|]|[|] [code|]]; auto with container.
  apply extends_bind; [apply extends_record; right; by left|auto with container].
Qed.

Lemma extends_start_process c msg :
  program c = &"docker" ->
  (c = docker_wait helper_name
   \/ exists ca_directory, isolated target_name (&"container:" ++ helper_name) image executable
        [bind_mount workspace &"/workspace" []; bind_mount ca_directory &"/run/av-ca" [&"readonly"]]
        arguments (cmd_args c)) ->
  extends E (start_process docker c msg).
Proof.
  intros Hp Hc. apply extends_bind; [auto with container|intros s].
  apply extends_bind; [auto with container|intros _].
  apply extends_record. do 5 right. by exists c.
Qed.

Lemma extends_run_containers ca_directory relay_directory uid gid expires :
  extends E (run_containers env machine desk docker api_url image helper_image helper_name target_name
    workspace ca_directory relay_directory executable arguments uid gid session_id expires).
Proof.
  unfold run_containers. cbv zeta.
  apply extends_passed; intros relay Hr.
  destruct (relay_isolated _ _ _ _ _ _ _ _ helper_plain Hr) as (_ & rest & Hiso).
  apply extends_bind; [apply extends_docker; do 4 right; left; by do 3 eexists|intros [success out]].
  apply extends_bind; [auto with container|intros _].
  apply extends_bind.
  { apply extends_bind; [by apply extends_quiet|intros now].
    apply extends_poll; [do 2 right; by left|do 3 right; by left]. }
  intros _. apply extends_passed; intros target Ht.
  destruct (target_isolated _ _ _ _ _ _ _ _ _ _ _ image_plain Ht) as (Hp & Hiso').
  apply extends_bind; [apply extends_start_process; [done|right; eauto]|intros _].
  apply extends_bind; [apply extends_attempt, extends_start_process; [done|by left]|].
  intros [u|e]; [apply extends_race_container|auto with container].
Qed.
End Body.

Lemma remove_containers_run names w r w' : remove_containers machine names w = (r, w') ->
  r = Ok () /\ server w' = server w ++ map removal names.
Proof.
  revert w. induction names as [|name names IH]; intros w H; cbn [remove_containers] in H.
  { injection H as <- <-. by rewrite app_nil_r. }
  apply bind_run in H as [(o & w1 & Ho & H)|(e & Ho & _)]; [|by injection Ho].
  apply IH in H as [-> Hw]. split; [done|]. injection Ho as _ <-. rewrite Hw. simpl.
  by rewrite <- app_assoc.
Qed.

(** However the body ends, the containers are removed after it. *)
Lemma cleanup_run P {A} names (body : CIO A) w r w' : extends P body ->
  with_cleanup machine names body w = (r, w') ->
  exists during, server w' = server w ++ during ++ map removal (rev names) /\ Forall P during.
Proof.
  intros Hb H. apply attempt_run in H as (x & w1 & Hx & H).
  apply (extends_run _ _ _ _ _ Hb) in Hx as (during & Hw1 & HP).
  apply bind_run in H as [([] & w2 & Hr & H)|(e & Hr & _)]; apply remove_containers_run in Hr as [Hr Hw2];
    [|done]. apply pair_equal_spec in H as [_ <-]. exists during.
  by rewrite Hw2, Hw1, <- app_assoc.
Qed.

Lemma extends_unix_proxy P socket_path url :
  extends P (start_unix_proxy machine docker valid_server_name socket_path url).
Proof.
  do 3 (apply extends_bind; [auto with container|intros ?]).
  apply extends_bind; [apply extends_transport|intros transport].
  repeat (apply extends_bind; [auto with container|intros ?]). auto with container.
Qed.

Lemma names_differ w helper_name target_name w' :
  unique_container_names env docker w = (Ok (helper_name, target_name), w') -> helper_name <> target_name.
Proof.
  unfold unique_container_names. intros H. apply io_bind_ok in H as (now & w1 & _ & H).
  apply io_bind_ok in H as ([] & w2 & _ & H). injection H as <- <- _.
  intros E. injection E; intros E'. by apply app_inv_head in E'.
Qed.
Lemma extends_names P : extends P (unique_container_names env docker).
Proof.
  apply extends_bind; [by apply extends_quiet|intros now].
  apply extends_bind; auto with container.
Qed.

Section Session.
Context (image helper_image workspace executable : bytes) (arguments : list bytes).
Context (image_plain : starts_with &"-" image = false).
Context (helper_plain : starts_with &"-" helper_image = false).

Definition left_contained (session_id : bytes) w w' : Prop :=
  exists body, server w' = server w ++ body
    /\ contained image helper_image workspace executable arguments session_id body.

Lemma contained_step {A} session_id (m : CIO A) (f : A -> CIO Z) w r w' :
  (m ≫= f) w = (r, w') -> extends setup m ->
  (forall a w1, m w = (Ok a, w1) -> f a w1 = (r, w') -> left_contained session_id w1 w') ->
  left_contained session_id w w'.
Proof.
  intros H Hm Hf. destruct (Hm w) as (new & Hs & HP).
  apply bind_run in H as [(a & w1 & Ha & H)|(e & He & _)].
  - rewrite Ha in Hs. cbn [snd] in Hs. destruct (Hf a w1 Ha H) as (body & Hw & Hc).
    exists (new ++ body). rewrite Hw, Hs, app_assoc. split; [done|].
    destruct Hc as [Hc|(before & during & h & t & -> & Hne & Hb & Hd)]; [left; by apply Forall_app|].
    right. exists (new ++ before), during, h, t. rewrite <- app_assoc. split_and!; [done..| |done].
    by apply Forall_app.
  - rewrite He in Hs. cbn [snd] in Hs. exists new. split; [done|by left].
Qed.

Lemma container_session_contained lease w r w' :
  container_session env machine desk docker api_url valid_server_name image helper_image workspace
    executable arguments lease w = (r, w') ->
  left_contained (lease_session_id lease) w w'.
Proof.
  unfold container_session. intros H.
  eapply contained_step; [exact H|by apply extends_proxy_ca|clear H; intros [bundle extra] w2 _ H].
  eapply contained_step; [exact H|auto with container|clear H; intros directory w3 _ H].
  eapply contained_step; [exact H|auto with container|clear H; intros relay_directory w4 _ H].
  eapply contained_step; [exact H| |clear H; intros [] w5 _ H].
  { by apply extends_restrict. }
  eapply contained_step; [exact H|auto with container|clear H; intros owner w6 _ H].
  eapply contained_step; [exact H|auto with container|clear H; intros [uid gid] w7 _ H].
  eapply contained_step; [exact H|apply extends_unix_proxy|clear H; intros target w8 _ H].
  eapply contained_step; [exact H|apply extends_names|clear H; intros [helper_name target_name] w9 Hn H].
  apply names_differ in Hn.
  eapply cleanup_run in H as (during & Hw & HP); [|by apply extends_run_containers].
  eexists. split; [exact Hw|]. right. by exists [], during, helper_name, target_name.
Qed.
End Session.

Lemma contained_not_begun image helper_image workspace executable arguments session_id body id :
  contained image helper_image workspace executable arguments session_id body ->
  Attempted (RevokeProxySession id) ∉ body.
Proof.
  intros Hc Hin. destruct Hc as [Hc|(before & during & h & t & -> & _ & Hb & Hd)].
  - rewrite Forall_forall in Hc. exact (Hc _ Hin).
  - rewrite Forall_forall in Hb, Hd. rewrite !elem_of_app, !elem_of_cons in Hin.
    destruct Hin as [[]%Hb|[Hin|[[=]|[[=]|Hin]]]]; [|by apply elem_of_nil in Hin].
    apply Hd in Hin as [[[=]|(? & ? & [=])]|[[=]|[[=]|[[=]|[(? & ? & ? & [=] & _)|(? & [=] & _)]]]]].
Qed.

(** What a run with a complete session leaves: the containers' trace, then the
    revocation *)
Definition session_given_back (image helper_image workspace executable : bytes) (arguments : list bytes)
    (session_id : bytes) (r : result Z) w w' : Prop :=
  exists body post, server w' = server w ++ body ++ Attempted (RevokeProxySession session_id) :: post
    /\ contained image helper_image workspace executable arguments session_id body
    /\ Attempted (RevokeProxySession session_id) ∉ body
    /\ Forall (fun e => exists url authorization, e = Sent url (RevokeProxySession session_id) authorization) post
    /\ (is_ok r = true -> exists n authorization answered,
          answer machine n (RevokeProxySession session_id) authorization = Replied answered).

(** C20: A contained run whose image references do not start with a hyphen (which the
    digest check does not exclude) is confined.  Until the images are digest pinned, the
    workspace is an existing directory other than the root and without a comma,
    and Docker has both images, it asks Docker questions and nothing else: no
    session exists that could leak.  With a complete session it starts only
    containers under two names, a relay and a target, and the wait for the relay: as
    [docker run] reads their command lines, the relay has no network and the target only the relay's, both with
    all capabilities dropped, no new privileges, a read-only root, an image that
    is never fetched and nothing mounted but the named directories (and the
    workspace adds no field to its mount).  However the run ends, once the two
    names are chosen the containers of these names are removed, the target first, and the revocation of the
    session is begun exactly once, after the removals; success means that the
    server answered it. *)
Theorem container_run_confined profile image helper_image workspace command executable arguments w r w' :
  container_arguments command = Ok (executable, arguments) ->
  starts_with &"-" image = false -> starts_with &"-" helper_image = false ->
  run_enforced_container env machine desk docker api_url valid_server_name profile image helper_image
    workspace command w = (r, w') ->
  let (checked, w1) := container_checks machine docker image helper_image workspace w in
  (exists new, server w1 = server w ++ new /\ Forall question new)
  /\ match checked with
     | Err e => r = Err e /\ w' = w1
     | Ok resolved =>
         split "," (bind_mount resolved &"/workspace" []) = [&"type=bind"; &"src=" ++ resolved; &"dst=/workspace"]
         /\ validate_digest_pinned_image image "container image" = Ok ()
         /\ validate_digest_pinned_image helper_image "AV helper image" = Ok ()
         /\ resolved <> &"/" /\ (exists n, is_dir docker n resolved = true)
         /\ match connect_request machine api_url (CreateProxySession profile) w1 with
            | (Err e, w2) => r = Err e /\ w' = w2
            | (Ok lease, w2) =>
                if complete lease
                then session_given_back image helper_image resolved executable arguments
                       (lease_session_id lease) r w2 w'
                else is_ok r = false /\ w' = w2
            end
     end.
Proof.
  intros Ha Hi Hh H. unfold run_enforced_container in H. rewrite Ha, ensure_pass in H.
  unfold mbind at 1, io_bind at 1 in H.
  destruct (container_checks machine docker image helper_image workspace w) as [checked w1] eqn:Hc.
  apply container_checks_run in Hc as [Hq Hok]. split; [done|].
  destruct checked as [resolved|e]; [|by apply pair_equal_spec in H as [<- <-]].
  destruct (Hok _ eq_refl) as (H1 & H2 & _ & Hd & Hroot & Hcomma).
  split_and!; [by apply mount_fields|done..|].
  unfold mbind at 1, io_bind at 1 in H.
  destruct (connect_request machine api_url (CreateProxySession profile) w1) as [[lease|e] w2];
    [|by apply pair_equal_spec in H as [<- <-]].
  unfold complete. destruct (_ || _) eqn:Ec in H; rewrite Ec; [by apply pair_equal_spec in H as [<- <-]|].
  cbn [negb bail_if] in H |- *. rewrite ensure_pass in H.
  apply attempt_run in H as (status & w3 & Hs & H).
  apply container_session_contained in Hs as (body & Hw3 & Hb); [|done..].
  apply attempt_run in H as (revoke & w4 & Hrv & H).
  apply request_run in Hrv as (post & Hw4 & Hp & Hans). apply pair_equal_spec in H as [<- <-].
  exists body, post. split_and!; [by rewrite Hw4, Hw3, <- app_assoc|done|by eapply contained_not_begun|done|].
  intros [code [_ Hrev]%run_result_ok]%is_ok_true. destruct revoke as [answered|]; [|done].
  destruct (Hans answered eq_refl) as (n & a & Hn). by exists n, a, answered.
Qed.
End ContainerFacts.

(** ** The wait for the relay *)

Section RelayWait.
Context (machine : Machine) (desk : Desk).
#[local] Abbreviation W := (Connector.world (list ClientEvent)).
Context (drift_mono : forall n m, n <= m -> (drift desk n <= drift desk m)%Z).

Definition inspected (helper_name : bytes) (w : W) : W := {|
  calls := S (S (S (calls w))); exchanges := exchanges w; tokens := tokens w;
  server := (server w ++ [Ran &"docker" [&"inspect"; &"--format"; &"{{.State.Running}}"; helper_name] []])
            ++ [Slept RELAY_POLL] |}.

Lemma inspected_later helper_name w :
  (now_of desk w + RELAY_POLL <= now_of desk (inspected helper_name w))%Z.
Proof.
  unfold now_of, inspected. simpl calls. simpl server. rewrite !slept_app. simpl slept.
  pose proof (drift_mono (calls w) (S (S (S (calls w)))) ltac:(lia)). lia.
Qed.

(** A round that does not end the wait comes back a tenth of a second later. *)
Lemma poll_relay_round fuel helper_name ready_path deadline (w w' : W) :
  poll_relay machine desk (S fuel) helper_name ready_path deadline w = (Err out_of_fuel, w') ->
  (now_of desk w < deadline)%Z
  /\ poll_relay machine desk fuel helper_name ready_path deadline (inspected helper_name w)
     = (Err out_of_fuel, w').
Proof.
  cbn [poll_relay]. intros H.
  apply bind_run in H as [(now & w1 & Hi & H)|(e & Hi & _)]; [|by injection Hi].
  assert (now = now_of desk w /\ w1 = tick w) as [-> ->] by (by injection Hi).
  destruct (now_of desk w <? deadline)%Z eqn:Hlt; [|by injection H]. apply Z.ltb_lt in Hlt.
  split; [done|].
  apply bind_run in H as [(ready & w2 & Ho & H)|(e & Ho & _)]; [|by injection Ho].
  injection Ho as _ <-. destruct ready; [by injection H|].
  apply bind_run in H as [([success stdout] & w3 & Hd & H)|(e & Hd & He)].
  2: { apply bind_run in Hd as [(o & w4 & _ & Hd)|(e' & Hd & _)]; [|by injection Hd].
       injection He as <-. by destruct o; injection Hd. }
  apply io_bind_ok in Hd as (o & w4 & Hr & [_ ->]%io_ensure_ok). injection Hr as _ <-.
  apply bind_run in H as [([] & w5 & [_ ->]%io_ensure_ok & H)|(e & He & [= <-])];
    [|by destruct (_ || _); injection He].
  apply bind_run in H as [([] & w6 & Hs & H)|(e & Hs & _)]; [|by injection Hs].
  injection Hs as <-. exact H.
Qed.

Lemma poll_relay_fuelled fuel k helper_name ready_path deadline (w : W) :
  k < fuel -> (deadline <= now_of desk w + RELAY_POLL * Z.of_nat k)%Z ->
  (poll_relay machine desk fuel helper_name ready_path deadline w).1 <> Err out_of_fuel.
Proof.
  revert k w. induction fuel as [|fuel IH]; intros k w Hk Hd; [lia|].
  destruct (poll_relay machine desk (S fuel) helper_name ready_path deadline w) as [r w'] eqn:H.
  cbn [fst]. intros ->. apply poll_relay_round in H as [Hlt H].
  destruct k as [|k]; [lia|]. pose proof (inspected_later helper_name w).
  apply (IH k (inspected helper_name w)); [lia| |by rewrite H]. lia.
Qed.

(** The wait for the relay ends within its deadline: a hundred rounds are enough. *)
Theorem relay_wait_ends helper_name ready_path : fuelled (wait_for_container_relay machine desk helper_name ready_path).
Proof.
  intros w. change (poll_relay machine desk RELAY_FUEL helper_name ready_path
    (now_of desk w + from_secs 10) (tick w)).1 with
    (wait_for_container_relay machine desk helper_name ready_path w).1.
  apply (poll_relay_fuelled RELAY_FUEL 100); [unfold RELAY_FUEL; lia|].
  pose proof (drift_mono (calls w) (S (calls w)) ltac:(lia)).
  unfold now_of. simpl calls. simpl server. unfold from_secs, RELAY_POLL, NANOS. lia.
Qed.
End RelayWait.

(** ** Concrete runs *)

Module ContainerModels.
Import Models ConnectorModels AccountModels.

Definition digest : bytes := repeat "a"%char 64.
Definition target_image : bytes := &"example.test/tool@sha256:" ++ digest.
Definition relay_image : bytes := &"example.test/av@sha256:" ++ digest.

(** A host with both images and a relay that is ready at the third look *)
Definition engine : Machine := {|
  env_var name := if bool_decide (name = &"AV_TOKEN") then Some &"jwt" else None;
  metadata n path :=
    if bool_decide (path = &"/etc/ssl/certs/ca-certificates.crt") || (45 <=? n)
    then Some {| meta_is_file := true; meta_len := 27; meta_mode := 420 |} else None;
  file_text _ _ := None; file_bytes _ _ := Some PEM_BEGIN; create_dir_all _ _ := true;
  set_permissions _ path := negb (is_empty path); fs_write _ _ := true;
  temp_dir _ prefix := Some (&"/tmp/" ++ prefix ++ &"1");
  program_output _ _ arguments := Some (true, if bool_decide (head arguments = Some &"inspect")
                                              then &"true" ++ [LF] else []);
  stdin_written _ := true; install_provider := true; pem_certificates _ := None; root_accepted _ := true;
  answer := CliModels.lending [];
  race _ := {| child_first := true; renewals := 0; under_way := false; spawned := true;
               exit_code := Ok (Some 0%Z) |};
  bind_loopback _ := Err "unused"; tcp_open _ _ := true; tls_open _ _ _ := true;
  written _ := true; copied _ := true |}.
Definition host (ending : ContainerEnd) : Docker := {|
  canonicalize _ path := Some path; is_dir _ _ := true; path_exists _ _ := false;
  owner_of _ _ := Some (1000%Z, 1000%Z);
  bind_unix _ _ := true; is_socket _ _ := true; bind_relay _ := true; process_id := 42; spawn _ := true; stdout_is_terminal := false;
  container_race _ := (1, false, ending) |}.
Definition contained_run (ending : ContainerEnd) :=
  run_enforced_container (outside_world 200) engine home (host ending) api (fun _ => true)
    &"deploy" target_image relay_image &"/home/me/project" [&"--"; &"/bin/sh"; &"-c"; &"make"] quiet.

Definition asked_events (events : list ClientEvent) : list ApiRequest :=
  omap (fun e => match e with Attempted rq => Some rq | _ => None end) events.

Definition finished := contained_run (TargetEnded (Some (Some 3%Z))).
Lemma finished_code : finished.1 = Ok 3%Z.
Proof. vm_compute. reflexivity. Qed.
Definition lent : ProxySessionLease := CliModels.opened &"s1".

#[local] Strategy expand [finished contained_run].
Lemma container_run_confined_witness :
  exists w2, session_given_back engine target_image relay_image &"/home/me/project" &"/bin/sh"
    [&"-c"; &"make"] &"s1" (Ok 3%Z) w2 finished.2.
Proof.
  pose proof (container_run_confined (outside_world 200) engine home
    (host (TargetEnded (Some (Some 3%Z)))) api (fun _ => true) &"deploy" target_image relay_image
    &"/home/me/project" [&"--"; &"/bin/sh"; &"-c"; &"make"] &"/bin/sh" [&"-c"; &"make"] quiet (Ok 3%Z) finished.2
    eq_refl eq_refl eq_refl (CliModels.ran finished (Ok 3%Z) finished_code)) as H.
  destruct (container_checks _ _ _ _ _ _) as [checked w1] eqn:Hc.
  assert (checked = Ok &"/home/me/project") as -> by (revert Hc; vm_compute; intros [= <- _]; reflexivity).
  destruct H as (_ & _ & _ & _ & _ & _ & H).
  destruct (connect_request _ _ _ w1) as [lease w2] eqn:Hr.
  assert (lease = Ok lent) as ->.
  { revert Hc Hr. vm_compute. intros [= <-]. intros [= <- _]. reflexivity. }
  exists w2. exact H.
Defined.

(** An interrupt and a relay that stops end the run in the same way. *)
Example every_end_gives_back :
  Forall (fun ending => asked_events (server (contained_run ending).2)
            = [CreateProxySession &"deploy"; RenewProxySession &"s1"; RevokeProxySession &"s1"])
    [HelperEnded true; HelperEnded false; Interrupted true (Some None); TargetEnded None]
  /\ (contained_run (Interrupted true (Some None))).1 = Ok 130%Z.
Proof. split; [repeat constructor|]; vm_compute; reflexivity. Qed.

(** A reference may be pinned and still read as an option of [docker run]. *)
Example pinned_option : validate_digest_pinned_image (&"-e@sha256:" ++ digest) "container image" = Ok ().
Proof. vm_compute. reflexivity. Qed.
End ContainerModels.
