(* ===== verification/Local.v ===== *)
(** Local: [av local init] and the dispatch of src/main.rs from a parsed command
    line to the commands of Cli.v, Account.v and Container.v.

    [clap]'s parsing and help text, [serde_json]'s rendering and the server that
    [av serve] runs are outside. *)

From Stdlib Require Import Ascii String.
From stdpp Require Import base list strings gmap pretty.
From S2P Require Import Prelude Str BTree External Models Ip Net Auth Connector Config Leases Sessions Browser Cli Account Container.

Inductive LocalCommand :=
| LocalInit (issuer client_id allowed_role owner_subject : bytes) (config : option bytes) (force : bool).

Inductive Command :=
| Serve (config : bytes)
| Login
| Logout
| Profiles
| Routes
| Run (profile : bytes) (container : bool) (image helper_image workspace : option bytes) (command : list bytes)
| ContainerRelay (socket ready : bytes)
| Agents (command : AgentCommand)
| Roles (command : RoleCommand)
| Local (command : LocalCommand)
| Profile (arguments : list bytes).

(** What [local_init] starts a configuration with *)
Definition local_config (database_url_file owner_subject issuer client_id allowed_role : bytes) : Config := {|
  cfg_listen := &"127.0.0.1:14322";
  cfg_public_url := &"http://127.0.0.1:14322";
  cfg_mode := Managed;
  cfg_managed := Some {|
    database_url_file := database_url_file; database_credentials_file := [];
    postgres := None; database_reload_interval_seconds := 0;
    initial_owner_oidc_subject := owner_subject |};
  cfg_auth := {|
    auth_mode := ModeOidc; issuer := issuer; client_id := client_id; audiences := [client_id];
    scopes := [&"openid"; &"profile"; &"email"]; signing_algorithms := [Rs256];
    allowed_groups := [allowed_role]; group_claim := &"urn:zitadel:iam:org:project:roles";
    basic_users := []; github := None |};
  cfg_connectors := []; cfg_profiles := []; cfg_provider_operations := [];
  cfg_proxy_routes := []; cfg_proxy_tunnels := []; cfg_transparent_proxy := None;
  cfg_max_connector_concurrency := 16; cfg_api_rate_limit_per_second := 50;
  cfg_api_rate_limit_burst := 100 |}.

(** [serde_json::json!]; object keys come out sorted *)
Definition texts (xs : list bytes) : Value := Array (Text <$> xs).
Definition local_value (database_url_file owner_subject : bytes) (c : Config) : Value :=
  let auth := cfg_auth c in
  Object
    [(&"api_rate_limit_burst", Number (print_z (cfg_api_rate_limit_burst c)));
     (&"api_rate_limit_per_second", Number (print_z (cfg_api_rate_limit_per_second c)));
     (&"auth", Object
        [(&"allowed_groups", texts (allowed_groups auth)); (&"audiences", texts (audiences auth));
         (&"basic_users", Array []); (&"client_id", Text (client_id auth));
         (&"group_claim", Text (group_claim auth)); (&"issuer", Text (issuer auth));
         (&"mode", Text &"oidc"); (&"scopes", texts (scopes auth));
         (&"signing_algorithms", texts [&"RS256"])]);
     (&"connectors", Object []);
     (&"listen", Text (cfg_listen c));
     (&"managed", Object
        [(&"database_url_file", Text database_url_file);
         (&"initial_owner_oidc_subject", Text owner_subject)]);
     (&"max_connector_concurrency", Number (print_z (cfg_max_connector_concurrency c)));
     (&"mode", Text &"managed");
     (&"profiles", Object []); (&"provider_operations", Object []);
     (&"proxy_routes", Object []); (&"proxy_tunnels", Object []);
     (&"public_url", Text (cfg_public_url c));
     (&"transparent_proxy", Null)].

Section Local.
Context {HL : HeaderLib} {UL : UrlLib} {EL : EncodingLib}.
Context (env : Outside) (machine : Machine) (desk : Desk) (docker : Docker) (api_url : bytes).
Context (url_as_str : Url -> bytes) (valid_server_name : bytes -> bool).
(** [serde_json::to_vec_pretty]; a path that is not UTF-8 makes [json!] panic. *)
Context (to_vec_pretty : Value -> option bytes).
#[local] Abbreviation CIO := (io (list ClientEvent)).

Definition xdg_path (variable fallback_suffix : bytes) : bytes :=
  match env_var machine variable with
  | Some path => path
  | None => path_join (default &"." (env_var machine &"HOME")) fallback_suffix
  end.

Fixpoint make_private (directories : list bytes) : CIO unit :=
  match directories with
  | [] => mret ()
  | directory :: directories =>
      _ ← make_directory machine directory;
      _ ← restrict_directory machine directory;
      make_private directories
  end.

Definition config_root : bytes := path_join (xdg_path &"XDG_CONFIG_HOME" &".config") &"av".
Definition state_root : bytes := path_join (xdg_path &"XDG_STATE_HOME" &".local/state") &"av".
Definition data_root : bytes := path_join (xdg_path &"XDG_DATA_HOME" &".local/share") &"av".
Definition local_database_url_file : bytes := path_join data_root &"secrets/database-url".
Definition local_database_url : bytes := &"sqlite:" ++ path_join state_root &"av.sqlite3".

Definition local_init (config_path : option bytes) (force : bool)
    (issuer client_id allowed_role owner_subject : bytes) : CIO unit :=
  _ ← ensure (bail_if (is_empty issuer || is_empty client_id || is_empty allowed_role
                       || is_empty owner_subject)
                "issuer, client-id, allowed-role, and owner-subject must be non-empty");
  let config_path := default (path_join config_root &"bootstrap.json") config_path in
  exists_already ← outside (fun n => path_exists docker n config_path);
  _ ← ensure (bail_if (exists_already && negb force)
                "{} already exists; use --force only after reviewing the existing configuration");
  _ ← make_private [config_root; state_root; data_root; path_join data_root &"secrets"];
  _ ← write_private_file machine local_database_url_file local_database_url;
  let config := local_config local_database_url_file owner_subject issuer client_id allowed_role in
  _ ← ensure (validate (env_var machine) config);
  _ ← ensure (bail_if (negb (utf8_valid local_database_url_file))
                "panic: path contains invalid UTF-8 characters");
  rendered ← ensure (ok_or (to_vec_pretty (local_value local_database_url_file owner_subject config))
                       "serialize local AV configuration");
  _ ← write_private_file machine config_path rendered;
  _ ← print (&"local AV initialized at " ++ config_path ++ [LF]);
  print (&"start it with: av serve --config " ++ config_path ++ [LF]).

(** [served] is how the server ended; [help] the text of [print_help]. *)
Definition dispatch (served : result unit) (help : bytes) (login_fuel : nat) (command : option Command)
    : CIO Z :=
  let finished (m : CIO unit) : CIO Z := _ ← m; mret 0%Z in
  match command with
  | Some (Serve _) => finished (ensure served)
  | Some Login => finished (login machine desk api_url login_fuel)
  | Some Logout => finished (logout machine)
  | Some Profiles => finished (list_profiles_command machine api_url)
  | Some Routes => finished (list_proxy_destinations_command machine api_url)
  | Some (Run profile container image helper_image workspace command) =>
      if container then
        image ← ensure (ok_or image "--container requires --image");
        helper_image ← ensure (ok_or helper_image "--container requires --helper-image");
        run_enforced_container env machine desk docker api_url valid_server_name profile image
          helper_image (default &"." workspace) command
      else run_transparent_proxy env machine api_url url_as_str valid_server_name profile command
  | Some (ContainerRelay socket ready) => finished (run_container_relay machine docker socket ready)
  | Some (Agents command) => finished (manage_agent machine api_url command)
  | Some (Roles command) => finished (manage_role machine api_url command)
  | Some (Local (LocalInit issuer client_id allowed_role owner_subject config force)) =>
      finished (local_init config force issuer client_id allowed_role owner_subject)
  | Some (Profile arguments) => run_profile env machine api_url arguments
  | None => _ ← print help; _ ← print [LF]; mret 2%Z
  end.

(** The process's exit code; an error is reported on the standard error. *)
Definition exit_code_of (r : result Z) : Z := match r with Ok code => code | Err _ => 1 end.
End Local.
