(* ===== verification/RateLimit.v ===== *)
(** RateLimit: the token bucket of src/server.rs ([ApiRateLimiter]).

    The bucket is kept in [f64].  A number that occurs in it is a rational, and
    every operation rounds its exact result to 53 significant bits, ties to even.
    Tokens and capacity fit in 33 bits and times are at least a nanosecond, so
    neither overflow nor subnormal numbers occur. *)

From Stdlib Require Import QArith Qround Qpower Qminmax Lqa Sorted.
From stdpp Require Import base list.
From S2P Require Import Prelude.

#[local] Open Scope Q_scope.

(** ** [f64] *)

(** The nearest integer, ties to even *)
Definition nearest_even (m : Q) : Z :=
  let f := Qfloor m in
  match Qcompare (m - inject_Z f) (1 # 2) with
  | Lt => f
  | Gt => (f + 1)%Z
  | Eq => if Z.even f then f else (f + 1)%Z
  end.

Definition two (e : Z) : Q := Qpower 2 e.

(** [2 ^ exponent q <= q < 2 ^ (exponent q + 1)] for positive [q] *)
Definition exponent (q : Q) : Z :=
  let e := (Z.log2 (Qnum q) - Z.log2 (Zpos (Qden q)))%Z in
  if Qle_bool (two e) q then e else (e - 1)%Z.

(** The value an operation with the exact result [q] has, for [0 <= q] *)
Definition f64 (q : Q) : Q :=
  if Qle_bool q 0 then 0
  else let u := (exponent q - 52)%Z in inject_Z (nearest_even (q / two u)) * two u.

(** ** The limiter *)

(** [Duration::as_secs_f64] *)
Definition as_secs_f64 (nanos : Z) : Q :=
  f64 (f64 (inject_Z (nanos / NANOS)) + f64 (f64 (inject_Z (nanos mod NANOS)) / inject_Z NANOS)).

Record ApiRateLimiter := {
  rate_per_second : Q; capacity : Q; available : Q; last_refill : Z }.

Definition limiter_new (rate_per_second burst now : Z) : ApiRateLimiter := {|
  rate_per_second := inject_Z rate_per_second; capacity := inject_Z burst;
  available := inject_Z burst; last_refill := now |}.

(** [Instant::duration_since] is zero when time goes backwards. *)
Definition refilled (l : ApiRateLimiter) (now : Z) : Q :=
  Qmin (f64 (available l + f64 (as_secs_f64 (Z.max 0 (now - last_refill l)) * rate_per_second l)))
       (capacity l).
Definition try_acquire (l : ApiRateLimiter) (now : Z) : bool * ApiRateLimiter :=
  let tokens := refilled l now in
  let refuse := negb (Qle_bool 1 tokens) in
  (negb refuse,
   {| rate_per_second := rate_per_second l; capacity := capacity l;
      available := if refuse then tokens else f64 (tokens - 1); last_refill := now |}).

(** The answers to calls at the given times, and the limiter after them. *)
Fixpoint serve_calls (l : ApiRateLimiter) (times : list Z) : list bool * ApiRateLimiter :=
  match times with
  | [] => ([], l)
  | now :: times =>
      let '(b, l) := try_acquire l now in
      let '(bs, l) := serve_calls l times in
      (b :: bs, l)
  end.
Definition permits (answers : list bool) : nat := length (filter (fun b => b = true) answers).

(** ** Rounding *)

Lemma two_pos e : 0 < two e.
Proof. by apply Qpower_0_lt. Qed.
Lemma two_plus a b : two (a + b) == two a * two b.
Proof. by apply Qpower_plus. Qed.
Lemma two_mono a b : (a <= b)%Z -> two a <= two b.
Proof. intros H. by apply Qpower_le_compat_l. Qed.
Lemma two_Z e : (0 <= e)%Z -> two e == inject_Z (2 ^ e).
Proof. intros H. unfold two. symmetry. exact (Zpower_Qpower 2 e H). Qed.
Lemma two_succ e : two (e + 1) == 2 * two e.
Proof. rewrite two_plus. change (two 1) with 2. lra. Qed.

Lemma nearest_floor m : (Qfloor m <= nearest_even m <= Qfloor m + 1)%Z.
Proof. unfold nearest_even. destruct (_ ?= _); [destruct (Z.even _)|..]; lia. Qed.

Lemma nearest_mono m m' : m <= m' -> (nearest_even m <= nearest_even m')%Z.
Proof.
  intros H. pose proof (Qfloor_resp_le _ _ H) as Hf.
  pose proof (nearest_floor m). pose proof (nearest_floor m').
  destruct (Z.eq_dec (Qfloor m) (Qfloor m')) as [E|E]; [|lia].
  unfold nearest_even. rewrite E. set (f := Qfloor m') in *. clearbody f.
  destruct (Qcompare_spec (m - inject_Z f) (1 # 2)), (Qcompare_spec (m' - inject_Z f) (1 # 2));
    try (destruct (Z.even f); lia); exfalso; lra.
Qed.
Lemma nearest_integer z : nearest_even (inject_Z z) = z.
Proof.
  unfold nearest_even. rewrite Qfloor_Z.
  destruct (Qcompare_spec (inject_Z z - inject_Z z) (1 # 2)); [exfalso; lra|done|exfalso; lra].
Qed.
Lemma nearest_proper m m' : m == m' -> nearest_even m = nearest_even m'.
Proof. intros H. apply Z.le_antisymm; apply nearest_mono; lra. Qed.
Lemma nearest_half m : inject_Z (nearest_even m) <= m + (1 # 2).
Proof.
  pose proof (Qfloor_le m). unfold nearest_even.
  destruct (Qcompare_spec (m - inject_Z (Qfloor m)) (1 # 2)); [destruct (Z.even _)|..];
    rewrite ?inject_Z_plus; change (inject_Z 1) with 1; lra.
Qed.

(** *** Exponents *)

Lemma Qmult_gt (x y z : Q) : 0 < z -> x * z < y * z -> x < y.
Proof. intros Hz. by apply Qmult_lt_r. Qed.

Lemma exponent_spec q : 0 < q -> two (exponent q) <= q /\ q < two (exponent q + 1).
Proof.
  intros Hq. destruct q as [n d].
  assert (0 < n)%Z as Hn by (unfold Qlt in Hq; simpl in Hq; lia).
  destruct (Z.log2_spec n Hn) as [Ha Ha']. destruct (Z.log2_spec (Zpos d) eq_refl) as [Hb Hb'].
  pose proof (Z.log2_nonneg n). pose proof (Z.log2_nonneg (Zpos d)).
  unfold exponent. simpl (Qnum _). simpl (Qden _).
  set (a := Z.log2 n) in *. set (b := Z.log2 (Zpos d)) in *. clearbody a b.
  assert (two a <= inject_Z n) as A by (rewrite two_Z by done; by rewrite <- Zle_Qle).
  assert (inject_Z n < two (a + 1)) as A' by (rewrite two_Z by lia; by rewrite <- Zlt_Qlt).
  assert (two b <= inject_Z (Zpos d)) as B by (rewrite two_Z by done; by rewrite <- Zle_Qle).
  assert (inject_Z (Zpos d) < two (b + 1)) as B' by (rewrite two_Z by lia; by rewrite <- Zlt_Qlt).
  assert ((n # d) * inject_Z (Zpos d) == inject_Z n) as E by (unfold Qeq; simpl; lia).
  assert (n # d < two (a - b + 1)) as Hup.
  { apply (Qmult_gt _ _ (two b)); [apply two_pos|].
    rewrite <- two_plus. replace (a - b + 1 + b)%Z with (a + 1)%Z by lia.
    apply Qle_lt_trans with ((n # d) * inject_Z (Zpos d)); [|by rewrite E].
    apply Qmult_le_l; done. }
  destruct (Qle_bool (two (a - b)) (n # d)) eqn:D; [by apply Qle_bool_iff in D|].
  assert (n # d < two (a - b)) as Hlt.
  { apply Qnot_le_lt. intros D'. apply Qle_bool_iff in D'. congruence. }
  replace (a - b - 1 + 1)%Z with (a - b)%Z by lia. split; [|done].
  apply Qlt_le_weak, (Qmult_gt _ _ (two (b + 1))); [apply two_pos|].
  rewrite <- two_plus. replace (a - b - 1 + (b + 1))%Z with a by lia.
  apply Qle_lt_trans with (inject_Z n); [done|]. rewrite <- E. by apply Qmult_lt_l.
Qed.

Lemma exponent_mono q q' : 0 < q -> q <= q' -> (exponent q <= exponent q')%Z.
Proof.
  intros Hq Hle. assert (0 < q') as Hq' by lra.
  destruct (exponent_spec q Hq) as [H1 H2]. destruct (exponent_spec q' Hq') as [H1' H2'].
  destruct (Z.le_gt_cases (exponent q) (exponent q')) as [|Hlt]; [done|exfalso].
  assert (two (exponent q' + 1) <= two (exponent q)) by (apply two_mono; lia). lra.
Qed.

(** *** [f64] *)

(** The significand of [q] *)
Lemma scaled q : 0 < q ->
  two 52 <= q / two (exponent q - 52) /\ q / two (exponent q - 52) < two 53.
Proof.
  intros Hq. destruct (exponent_spec q Hq) as [H1 H2].
  pose proof (two_pos (exponent q - 52)) as Hu. split.
  - apply Qle_shift_div_l; [done|]. rewrite <- two_plus.
    by replace (52 + (exponent q - 52))%Z with (exponent q) by lia.
  - apply Qlt_shift_div_r; [done|]. rewrite <- two_plus.
    by replace (53 + (exponent q - 52))%Z with (exponent q + 1)%Z by lia.
Qed.

Lemma f64_pos q : 0 < q ->
  f64 q = inject_Z (nearest_even (q / two (exponent q - 52))) * two (exponent q - 52).
Proof.
  intros Hq. unfold f64. destruct (Qle_bool q 0) eqn:D; [|done].
  apply Qle_bool_iff in D. lra.
Qed.
Lemma f64_nonpos q : q <= 0 -> f64 q = 0.
Proof. intros H. unfold f64. apply Qle_bool_iff in H. by rewrite H. Qed.

Lemma f64_binade q : 0 < q -> two (exponent q) <= f64 q <= two (exponent q + 1).
Proof.
  intros Hq. rewrite (f64_pos q Hq). destruct (scaled q Hq) as [H1 H2].
  set (u := (exponent q - 52)%Z) in *. set (m := q / two u) in *.
  replace (exponent q) with (52 + u)%Z by (unfold u; lia).
  replace (52 + u + 1)%Z with (53 + u)%Z by lia. rewrite !two_plus.
  pose proof (two_pos u) as Hu. rewrite two_Z in H1 by lia. rewrite two_Z in H2 by lia.
  apply nearest_mono in H1. apply Qlt_le_weak, nearest_mono in H2.
  rewrite nearest_integer in H1, H2.
  split; apply Qmult_le_compat_r; try lra; rewrite two_Z by lia; by rewrite <- Zle_Qle.
Qed.

Lemma f64_mono q q' : q <= q' -> f64 q <= f64 q'.
Proof.
  intros H. destruct (Qlt_le_dec 0 q) as [Hq|Hq].
  - assert (0 < q') as Hq' by lra. pose proof (exponent_mono q q' Hq H) as He.
    destruct (Z.eq_dec (exponent q) (exponent q')) as [E|E].
    + rewrite (f64_pos q Hq), (f64_pos q' Hq'), E.
      pose proof (two_pos (exponent q' - 52)) as Hu.
      apply Qmult_le_compat_r; [|lra]. rewrite <- Zle_Qle. apply nearest_mono.
      apply Qmult_le_compat_r; [done|]. apply Qinv_le_0_compat. lra.
    + pose proof (f64_binade q Hq). pose proof (f64_binade q' Hq').
      assert (two (exponent q + 1) <= two (exponent q')) by (apply two_mono; lia). lra.
  - rewrite (f64_nonpos q Hq). destruct (Qlt_le_dec 0 q') as [Hq'|Hq'].
    + pose proof (f64_binade q' Hq'). pose proof (two_pos (exponent q')). lra.
    + by rewrite (f64_nonpos q' Hq').
Qed.
Lemma f64_nonneg q : 0 <= f64 q.
Proof.
  destruct (Qlt_le_dec 0 q) as [Hq|Hq]; [|by rewrite (f64_nonpos q Hq)].
  pose proof (f64_binade q Hq). pose proof (two_pos (exponent q)). lra.
Qed.
Lemma f64_proper q q' : q == q' -> f64 q == f64 q'.
Proof. intros H. apply Qle_antisym; apply f64_mono; lra. Qed.
#[export] Instance f64_Proper : Proper (Qeq ==> Qeq) f64.
Proof. intros q q'. apply f64_proper. Qed.

Lemma f64_integer n : (0 <= n < 2 ^ 53)%Z -> f64 (inject_Z n) == inject_Z n.
Proof.
  intros Hn. destruct (Z.eq_dec n 0%Z) as [->|Hz]; [done|].
  assert (0 < inject_Z n) as Hq by (change 0 with (inject_Z 0); rewrite <- Zlt_Qlt; lia).
  rewrite (f64_pos _ Hq). destruct (exponent_spec _ Hq) as [H1 _].
  assert (exponent (inject_Z n) <= 52)%Z as He.
  { destruct (Z.le_gt_cases (exponent (inject_Z n)) 52) as [|Hgt]; [done|exfalso].
    assert (two 53 <= two (exponent (inject_Z n))) as H by (apply two_mono; lia).
    assert (two 53 <= inject_Z n) as H' by lra.
    rewrite two_Z in H' by lia. rewrite <- Zle_Qle in H'. lia. }
  set (u := (exponent (inject_Z n) - 52)%Z).
  assert (two u * two (- u) == 1) as Hinv by (rewrite <- two_plus; by rewrite Z.add_opp_diag_r).
  assert (inject_Z n / two u == inject_Z (n * 2 ^ (- u))) as Hm.
  { rewrite inject_Z_mult, <- two_Z by (unfold u; lia).
    pose proof (two_pos u). field_simplify_eq; [|lra]. nra. }
  rewrite (nearest_proper _ _ Hm), nearest_integer, inject_Z_mult, <- two_Z by (unfold u; lia).
  rewrite <- Qmult_assoc, (Qmult_comm (two (- u))), Hinv. lra.
Qed.

(** Rounding up loses at most one part in 2^53. *)
Definition ulp : Q := 1 # 9007199254740992.
Lemma f64_above q : 0 <= q -> f64 q <= q * (1 + ulp).
Proof.
  intros Hq. destruct (Qlt_le_dec 0 q) as [Hq'|Hq']; [|rewrite (f64_nonpos q Hq'); unfold ulp; lra].
  rewrite (f64_pos q Hq'). pose proof (nearest_half (q / two (exponent q - 52))) as H.
  destruct (scaled q Hq') as [H1 _]. pose proof (two_pos (exponent q - 52)) as Hu.
  set (u := two (exponent q - 52)) in *. set (m := q / u) in *.
  assert (q == m * u) as -> by (unfold m; field; lra). clearbody m u.
  change (two 52) with (inject_Z (2 ^ 52)) in H1.
  assert ((1 # 2) <= m * ulp) as H' by (unfold ulp; change (inject_Z (2 ^ 52)) with (4503599627370496 # 1) in H1; lra).
  set (r := inject_Z _) in *. assert (r <= m * (1 + ulp)) by lra. nra.
Qed.

(** ** The limiter *)

(** What [Config::validate] and [ApiRateLimiter::new] establish and every call keeps *)
Record limiter_ok (l : ApiRateLimiter) := {
  ok_rate : 1 <= rate_per_second l;
  ok_capacity : 1 <= capacity l;
  ok_capacity_small : capacity l <= 50000;
  ok_bounds : 0 <= available l <= capacity l }.

Lemma inject_bounds a z b : (a <= z <= b)%Z -> inject_Z a <= inject_Z z <= inject_Z b.
Proof. intros [H H']. by rewrite <- !Zle_Qle. Qed.

Lemma limiter_new_ok rate burst now :
  (1 <= rate)%Z -> (1 <= burst <= 50000)%Z -> limiter_ok (limiter_new rate burst now).
Proof.
  intros Hr Hb. pose proof (inject_bounds 1 burst 50000 Hb) as [H1 H2].
  pose proof (proj1 (inject_bounds 1 rate rate ltac:(lia))) as H3.
  change (inject_Z 1) with 1 in *. change (inject_Z 50000) with 50000 in *.
  split; simpl; try lra.
Qed.

Lemma refilled_bounds l now : limiter_ok l -> 0 <= refilled l now <= capacity l.
Proof.
  intros [_ Hc _ _]. unfold refilled. split; [|apply Q.le_min_r].
  apply Q.min_glb; [apply f64_nonneg|lra].
Qed.

Lemma try_acquire_available l now :
  available (try_acquire l now).2
  = if Qle_bool 1 (refilled l now) then f64 (refilled l now - 1) else refilled l now.
Proof. unfold try_acquire. simpl. by destruct (Qle_bool 1 (refilled l now)). Qed.
Lemma try_acquire_permit l now : (try_acquire l now).1 = Qle_bool 1 (refilled l now).
Proof. unfold try_acquire. simpl. by destruct (Qle_bool 1 (refilled l now)). Qed.

(** Taking a token off never rounds above the bucket it is taken from. *)
Lemma take_below t c : c <= 50000 -> 0 <= t -> t <= c -> f64 t <= t + c * ulp.
Proof.
  intros Hc Ht Htc. pose proof (f64_above t Ht) as H. unfold ulp in *. lra.
Qed.
Lemma f64_one : f64 1 == 1.
Proof. by apply (f64_integer 1). Qed.

(** The room between the capacity and what is left after a permit *)
Lemma taken_bounds l now : limiter_ok l -> Qle_bool 1 (refilled l now) = true ->
  0 <= f64 (refilled l now - 1) <= capacity l.
Proof.
  intros Hl H. apply Qle_bool_iff in H. pose proof (refilled_bounds l now Hl) as [_ Hr].
  destruct Hl as [_ _ Hc _]. split; [apply f64_nonneg|].
  pose proof (take_below (refilled l now - 1) (capacity l) Hc ltac:(lra) ltac:(lra)) as Ht.
  unfold ulp in Ht. lra.
Qed.

Lemma try_acquire_ok l now : limiter_ok l -> limiter_ok (try_acquire l now).2.
Proof.
  intros Hl. pose proof (refilled_bounds l now Hl) as Hr. pose proof Hl as [H1 H2 H3 H4].
  split; [done..|]. change (capacity (try_acquire l now).2) with (capacity l).
  rewrite try_acquire_available.
  destruct (Qle_bool 1 (refilled l now)) eqn:D; [by apply taken_bounds|done].
Qed.

Lemma serve_calls_cons l now times :
  serve_calls l (now :: times)
  = ((try_acquire l now).1 :: (serve_calls (try_acquire l now).2 times).1,
     (serve_calls (try_acquire l now).2 times).2).
Proof. simpl. destruct (try_acquire l now). simpl. by destruct (serve_calls _ times). Qed.

Lemma serve_calls_ok times l : limiter_ok l -> limiter_ok (serve_calls l times).2.
Proof.
  revert l. induction times as [|now times IH]; [done|]. intros l Hl.
  rewrite serve_calls_cons. by apply IH, try_acquire_ok.
Qed.

(** *** Time *)

Lemma NANOS_pos : (0 < NANOS)%Z.
Proof. done. Qed.
Lemma as_secs_zero : as_secs_f64 0 == 0.
Proof. done. Qed.

Lemma as_secs_second nanos : (NANOS <= nanos)%Z -> 1 <= as_secs_f64 nanos.
Proof.
  intros H. unfold as_secs_f64. rewrite <- f64_one at 1. apply f64_mono.
  assert (1 <= nanos / NANOS)%Z as Hd by (apply Z.div_le_lower_bound; [done|lia]).
  assert (1 <= f64 (inject_Z (nanos / NANOS))) as H1.
  { rewrite <- f64_one at 1. apply f64_mono. change 1 with (inject_Z 1). by rewrite <- Zle_Qle. }
  pose proof (f64_nonneg (f64 (inject_Z (nanos mod NANOS)) / inject_Z NANOS)). lra.
Qed.

(** One more rounding of a sum, a product or a quotient *)
Lemma f64_above_of q b : 0 <= b -> q <= b -> f64 q <= b * (1 + ulp).
Proof.
  intros Hb H. apply Qle_trans with (f64 b); [by apply f64_mono|by apply f64_above].
Qed.

Definition seconds (nanos : Z) : Q := inject_Z nanos / inject_Z NANOS.

Lemma as_secs_above nanos : (0 <= nanos)%Z ->
  as_secs_f64 nanos <= seconds nanos * (1 + 4 * ulp).
Proof.
  intros Hn. unfold as_secs_f64, seconds.
  pose proof (Z.div_pos nanos NANOS Hn NANOS_pos) as Hs.
  pose proof (Z.mod_pos_bound nanos NANOS NANOS_pos) as [Hr _].
  pose proof (Z.div_mod nanos NANOS ltac:(done)) as E.
  set (s := (nanos / NANOS)%Z) in *. set (r := (nanos mod NANOS)%Z) in *.
  assert (inject_Z nanos / inject_Z NANOS == inject_Z s + inject_Z r / inject_Z NANOS) as ->.
  { rewrite E, inject_Z_plus, inject_Z_mult. field. done. }
  clearbody s r. rewrite Zle_Qle in Hs, Hr. change (inject_Z 0) with 0 in *.
  set (qs := inject_Z s) in *. set (qr := inject_Z r) in *. clearbody qs qr.
  assert (0 <= qr / inject_Z NANOS) as Hd by (apply Qle_shift_div_l; [done|lra]).
  pose proof (f64_above qs Hs) as B1. pose proof (f64_above qr Hr) as B2.
  assert (f64 qr / inject_Z NANOS <= qr / inject_Z NANOS * (1 + ulp)) as B3.
  { unfold Qdiv. rewrite <- Qmult_assoc, (Qmult_comm (/ _)), Qmult_assoc.
    by apply Qmult_le_compat_r. }
  set (d := qr / inject_Z NANOS) in *. clearbody d.
  assert (0 <= d * (1 + ulp)) as Hd' by (unfold ulp; lra).
  pose proof (f64_above_of _ _ Hd' B3) as B4.
  assert (f64 qs + f64 (f64 qr / inject_Z NANOS) <= (qs + d) * (1 + ulp) * (1 + ulp)) as B5
    by (unfold ulp in *; lra).
  assert (0 <= (qs + d) * (1 + ulp) * (1 + ulp)) as Hb by (unfold ulp; lra).
  pose proof (f64_above_of _ _ Hb B5) as B6. unfold ulp in *. lra.
Qed.

(** *** Conservation: a permit is paid for by the bucket or by the time that passed *)

Definition paid (b : bool) : Q := if b then 1 else 0.
Definition paid_all (answers : list bool) : Q := inject_Z (Z.of_nat (permits answers)).
Definition earned (l : ApiRateLimiter) (from now : Z) : Q :=
  rate_per_second l * seconds (now - from) * (1 + 8 * ulp).
Definition slack (l : ApiRateLimiter) : Q := capacity l * (2 * ulp).

Lemma seconds_nonneg n : (0 <= n)%Z -> 0 <= seconds n.
Proof.
  intros H. apply Qle_shift_div_l; [done|]. rewrite Zle_Qle in H. change (inject_Z 0) with 0 in H. lra.
Qed.
Lemma seconds_add a b : seconds (a + b) == seconds a + seconds b.
Proof. unfold seconds. rewrite inject_Z_plus. field. done. Qed.

Lemma earned_above l now : limiter_ok l -> (last_refill l <= now)%Z ->
  f64 (as_secs_f64 (Z.max 0 (now - last_refill l)) * rate_per_second l)
  <= earned l (last_refill l) now.
Proof.
  intros [Hr _ _ _] Hn. rewrite Z.max_r by lia. unfold earned.
  pose proof (as_secs_above (now - last_refill l) ltac:(lia)) as H.
  pose proof (seconds_nonneg (now - last_refill l) ltac:(lia)) as Hs.
  set (s := seconds _) in *. set (r := rate_per_second l) in *. set (a := as_secs_f64 _) in *.
  assert (0 <= r * s) as Hrs by (apply Qmult_le_0_compat; lra).
  assert (a * r <= s * (1 + 4 * ulp) * r) as H1 by (apply Qmult_le_compat_r; lra).
  assert (0 <= s * (1 + 4 * ulp) * r) as H2 by (unfold ulp; lra).
  pose proof (f64_above_of _ _ H2 H1) as H3. unfold ulp in *. lra.
Qed.

Lemma refilled_above l now : limiter_ok l -> (last_refill l <= now)%Z ->
  refilled l now <= available l + earned l (last_refill l) now + capacity l * ulp.
Proof.
  intros Hl Hn. pose proof (earned_above l now Hl Hn) as He. unfold refilled.
  set (y := f64 (_ * _)) in *. assert (0 <= y) as Hy by apply f64_nonneg.
  destruct Hl as [_ Hc Hc' [Ha _]]. destruct (Qlt_le_dec (capacity l) (available l + y)) as [H|H].
  - apply Qle_trans with (capacity l); [apply Q.le_min_r|]. unfold ulp. lra.
  - apply Qle_trans with (f64 (available l + y)); [apply Q.le_min_l|].
    pose proof (take_below (available l + y) (capacity l) Hc' ltac:(lra) H) as Ht. lra.
Qed.

Lemma permit_paid l now : limiter_ok l ->
  paid (try_acquire l now).1 + available (try_acquire l now).2 <= refilled l now + capacity l * ulp.
Proof.
  intros Hl. pose proof (refilled_bounds l now Hl) as [_ Hr]. destruct Hl as [_ Hc Hc' _].
  rewrite try_acquire_permit, try_acquire_available.
  destruct (Qle_bool 1 (refilled l now)) eqn:D; simpl; [|unfold ulp; lra].
  apply Qle_bool_iff in D.
  pose proof (take_below (refilled l now - 1) (capacity l) Hc' ltac:(lra) ltac:(lra)). lra.
Qed.

Lemma paid_all_cons b bs : paid_all (b :: bs) == paid b + paid_all bs.
Proof.
  unfold paid_all, permits.
  destruct b; [rewrite filter_cons_True by done|rewrite filter_cons_False by done; simpl paid; lra].
  cbn [length paid]. rewrite Nat2Z.inj_succ. unfold Z.succ. rewrite inject_Z_plus. change (inject_Z 1) with 1. lra.
Qed.

Lemma last_after {A} (x d : A) xs : List.last (x :: xs) d = List.last xs x.
Proof. revert x d. induction xs as [|y xs IH]; [done|]. intros x d. transitivity (List.last (y :: xs) d); [done|]. by rewrite !IH. Qed.

Lemma conserved times l : limiter_ok l -> Sorted Z.le (last_refill l :: times) ->
  paid_all (serve_calls l times).1 + available (serve_calls l times).2
  <= available l + earned l (last_refill l) (List.last times (last_refill l))
     + inject_Z (Z.of_nat (length times)) * slack l.
Proof.
  revert l. induction times as [|now times IH]; intros l Hl Hs.
  - unfold earned. simpl (List.last _ _). rewrite Z.sub_diag.
    assert (seconds 0 == 0) as -> by done. change (paid_all (serve_calls l []).1) with 0.
    change (inject_Z (Z.of_nat (length []))) with 0. simpl snd. lra.
  - inversion Hs as [|? ? Hs' Hh]; subst. inversion Hh as [|? ? Hle]; subst.
    rewrite serve_calls_cons. cbn [fst snd]. rewrite paid_all_cons.
    specialize (IH (try_acquire l now).2 (try_acquire_ok l now Hl) Hs').
    change (last_refill (try_acquire l now).2) with now in IH.
    change (slack (try_acquire l now).2) with (slack l) in IH.
    change (earned (try_acquire l now).2) with (earned l) in IH.
    rewrite last_after.
    assert (earned l (last_refill l) (List.last times now)
            == earned l (last_refill l) now + earned l now (List.last times now)) as ->.
    { unfold earned.
      replace (List.last times now - last_refill l)%Z
        with ((now - last_refill l) + (List.last times now - now))%Z by lia.
      rewrite seconds_add. lra. }
    pose proof (permit_paid l now Hl). pose proof (refilled_above l now Hl Hle).
    simpl (length _). rewrite Nat2Z.inj_succ. unfold Z.succ. rewrite inject_Z_plus.
    change (inject_Z 1) with 1. unfold slack in *. lra.
Qed.

Lemma try_acquire_rate l now : rate_per_second (try_acquire l now).2 = rate_per_second l.
Proof. done. Qed.
Lemma serve_calls_same times l :
  rate_per_second (serve_calls l times).2 = rate_per_second l
  /\ capacity (serve_calls l times).2 = capacity l
  /\ last_refill (serve_calls l times).2 = List.last times (last_refill l).
Proof.
  revert l. induction times as [|now times IH]; [done|]. intros l.
  rewrite serve_calls_cons, last_after. apply (IH (try_acquire l now).2).
Qed.

(** A window of calls that opens at any moment of the limiter's life: the first
    call finds at most a full bucket. *)
Lemma window_permits l s times : limiter_ok l -> Sorted Z.le (s :: times) ->
  paid_all (serve_calls l (s :: times)).1
  <= capacity l + earned l s (List.last times s)
     + inject_Z (Z.of_nat (length (s :: times))) * slack l.
Proof.
  intros Hl Hs. rewrite serve_calls_cons. cbn [fst]. rewrite paid_all_cons.
  pose proof (conserved times (try_acquire l s).2 (try_acquire_ok l s Hl) Hs) as H.
  change (last_refill (try_acquire l s).2) with s in H.
  change (slack (try_acquire l s).2) with (slack l) in H.
  change (earned (try_acquire l s).2) with (earned l) in H.
  pose proof (permit_paid l s Hl). pose proof (refilled_bounds l s Hl) as [_ Hr].
  pose proof (serve_calls_ok times _ (try_acquire_ok l s Hl)) as [_ _ _ [Ha _]].
  destruct Hl as [_ Hc _ _]. simpl length. rewrite Nat2Z.inj_succ. unfold Z.succ.
  rewrite inject_Z_plus. change (inject_Z 1) with 1. unfold slack, ulp in *. lra.
Qed.

(** For windows of up to 2^34 seconds (about 540 years) and 2^34 calls, the
    rounding adds up to less than one permit. *)
Lemma window_permits_small l s times :
  limiter_ok l -> rate_per_second l <= 10000 -> Sorted Z.le (s :: times) ->
  (List.last times s - s <= 2 ^ 34 * NANOS)%Z -> (Z.of_nat (length (s :: times)) <= 2 ^ 34)%Z ->
  paid_all (serve_calls l (s :: times)).1
  < capacity l + rate_per_second l * seconds (List.last times s - s) + 1.
Proof.
  intros Hl Hr Hs Ht Hn. pose proof (window_permits l s times Hl Hs) as H.
  destruct Hl as [Hr1 Hc Hc' _].
  assert (s <= List.last times s)%Z as Hle.
  { clear -Hs. apply Sorted_StronglySorted in Hs; [|intros ???; lia].
    apply StronglySorted_inv in Hs as [_ Hs]. destruct times as [|t times]; [simpl; lia|].
    rewrite Forall_forall in Hs. apply Hs. rewrite last_after.
    clear. revert t. induction times as [|u times IH]; intros t; [by left|].
    rewrite last_after. right. apply IH. }
  pose proof (seconds_nonneg (List.last times s - s) ltac:(lia)) as Hsec.
  assert (seconds (List.last times s - s) <= 17179869184) as Hmax.
  { unfold seconds. apply Qle_shift_div_r; [done|]. rewrite Zle_Qle in Ht.
    eapply Qle_trans; [exact Ht|]. done. }
  unfold earned in H. set (q := seconds _) in *. set (r := rate_per_second l) in *.
  rewrite Zle_Qle in Hn. change (inject_Z (2 ^ 34)) with 17179869184 in Hn.
  set (n := inject_Z (Z.of_nat (length (s :: times)))) in *.
  assert (r * q <= 10000 * 17179869184) as Hrq.
  { apply Qle_trans with (10000 * q); [by apply Qmult_le_compat_r|].
    apply Qmult_le_l; [done|exact Hmax]. }
  assert (n * capacity l <= 17179869184 * 50000) as Hnc.
  { apply Qle_trans with (17179869184 * capacity l); [apply Qmult_le_compat_r; [done|lra]|].
    apply Qmult_le_l; done. }
  clearbody q r n. unfold slack, ulp in *. lra.
Qed.

(** A second without calls brings back at least one token. *)
Lemma second_restores l now : limiter_ok l -> (last_refill l + NANOS <= now)%Z ->
  (try_acquire l now).1 = true.
Proof.
  intros [Hr Hc _ [Ha _]] Hn. pose proof NANOS_pos. rewrite try_acquire_permit.
  apply Qle_bool_iff. unfold refilled.
  rewrite Z.max_r by lia.
  pose proof (as_secs_second (now - last_refill l) ltac:(lia)) as Hs.
  set (a := as_secs_f64 _) in *. apply Q.min_glb; [|done].
  rewrite <- f64_one at 1. apply f64_mono.
  assert (1 <= f64 (a * rate_per_second l)) as Hy; [|lra].
  rewrite <- f64_one at 1. apply f64_mono.
  apply Qle_trans with (1 * rate_per_second l); [lra|]. apply Qmult_le_compat_r; lra.
Qed.

(** *** A burst in one instant *)

Lemma refilled_instant l n : (0 <= n <= 50000)%Z -> available l == inject_Z n ->
  available l <= capacity l -> refilled l (last_refill l) == inject_Z n.
Proof.
  intros Hn Ha Hc. unfold refilled. rewrite Z.sub_diag. change (Z.max 0 0) with 0%Z.
  rewrite as_secs_zero. setoid_replace (0 * rate_per_second l) with 0 using relation Qeq by lra.
  rewrite (f64_nonpos 0) by done. setoid_replace (available l + 0) with (inject_Z n) using relation Qeq by lra.
  rewrite f64_integer by lia. apply Q.min_l. lra.
Qed.

Lemma burst_instant k l n : limiter_ok l -> (0 <= n <= 50000)%Z -> available l == inject_Z n ->
  permits (serve_calls l (replicate k (last_refill l))).1 = min k (Z.to_nat n).
Proof.
  revert l n. induction k as [|k IH]; intros l n Hl Hn Ha; [done|].
  simpl replicate. rewrite serve_calls_cons. cbn [fst].
  pose proof Hl as [_ _ _ [_ Hc]]. pose proof (refilled_instant l n Hn Ha Hc) as Hr.
  pose proof (try_acquire_available l (last_refill l)) as Ha'.
  rewrite try_acquire_permit. change (replicate k (last_refill l))
    with (replicate k (last_refill (try_acquire l (last_refill l)).2)).
  pose proof (try_acquire_ok l (last_refill l) Hl) as Hl'.
  destruct (Qle_bool 1 (refilled l (last_refill l))) eqn:D.
  - apply Qle_bool_iff in D. rewrite Hr in D. change 1 with (inject_Z 1) in D.
    rewrite <- Zle_Qle in D. unfold permits. rewrite filter_cons_True by done. cbn [length].
    fold (permits (serve_calls (try_acquire l (last_refill l)).2
                     (replicate k (last_refill (try_acquire l (last_refill l)).2))).1).
    rewrite (IH _ (n - 1)%Z Hl' ltac:(lia)); [lia|]. rewrite Ha', Hr.
    setoid_replace (inject_Z n - 1) with (inject_Z (n - 1)) using relation Qeq by
      (rewrite <- Z.add_opp_r, inject_Z_plus; change (inject_Z (- (1))) with (- (1)); lra).
    apply f64_integer. lia.
  - assert (n = 0)%Z as ->.
    { destruct (Z.eq_dec n 0%Z) as [|Hnz]; [done|exfalso].
      assert (Qle_bool 1 (refilled l (last_refill l)) = true); [|congruence].
      apply Qle_bool_iff. rewrite Hr. change 1 with (inject_Z 1). rewrite <- Zle_Qle. lia. }
    unfold permits. rewrite filter_cons_False by done.
    fold (permits (serve_calls (try_acquire l (last_refill l)).2
                     (replicate k (last_refill (try_acquire l (last_refill l)).2))).1).
    rewrite (IH _ 0%Z Hl' ltac:(lia)); [simpl; lia|]. by rewrite Ha', Hr.
Qed.

(** *** The first calls of a full bucket *)

Lemma refilled_keeps l n now : limiter_ok l -> (0 <= n <= 50000)%Z ->
  inject_Z n <= available l -> inject_Z n <= refilled l now.
Proof.
  intros [_ _ _ [_ Hc]] Hn Ha. unfold refilled. apply Q.min_glb; [|lra].
  rewrite <- (f64_integer n) at 1 by lia. apply f64_mono.
  pose proof (f64_nonneg (as_secs_f64 (Z.max 0 (now - last_refill l)) * rate_per_second l)). lra.
Qed.

Lemma first_calls_permitted times l n :
  limiter_ok l -> (Z.of_nat (length times) <= n <= 50000)%Z -> inject_Z n <= available l ->
  Forall (fun answer => answer = true) (serve_calls l times).1.
Proof.
  revert l n. induction times as [|now times IH]; intros l n Hl Hn Ha; [constructor|].
  simpl length in Hn. rewrite serve_calls_cons. cbn [fst].
  pose proof (refilled_keeps l n now Hl ltac:(lia) Ha) as Hr.
  assert (Qle_bool 1 (refilled l now) = true) as Hp.
  { apply Qle_bool_iff. apply Qle_trans with (inject_Z n); [|done].
    change 1 with (inject_Z 1). rewrite <- Zle_Qle. lia. }
  constructor; [by rewrite try_acquire_permit|].
  apply (IH _ (n - 1)%Z); [by apply try_acquire_ok|lia|].
  rewrite try_acquire_available, Hp. rewrite <- (f64_integer (n - 1)) at 1 by lia.
  apply f64_mono. rewrite <- Z.add_opp_r, inject_Z_plus. change (inject_Z (- (1))) with (- (1)). lra.
Qed.
