(* ===== verification/Edge.v ===== *)
(** Edge: what every HTTP request meets before and after its handler in
    src/server.rs: the table of [run]'s router, the API rate limit, the response
    header layers, the health probes and the fixed pages.

    The handlers of the other files are [mounted], one for each endpoint, with a state
    of their own; the edge logs which requests reached them.  The bucket of the rate
    limit has three users, the API of the router, CONNECT requests and the requests
    inside intercepted tunnels, and all of them arrive here.  axum's choice among the
    registered patterns and tower-http's [if_not_present] layer are parameters. *)

From Stdlib Require Import Ascii String QArith.
From stdpp Require Import base list strings gmap.
From S2P Require Import Prelude Str BTree External Models Database Store Auth Connector Config Leases Control Sessions Proxy Browser RateLimit.

(** [SetResponseHeaderLayer::if_not_present], on the headers of a response *)
Class LayerLib := if_not_present : bytes -> bytes -> list (bytes * bytes) -> list (bytes * bytes).

(** The first value of a response header *)
Definition header_get (name : bytes) (headers : list (bytes * bytes)) : option bytes :=
  snd <$> head (filter (fun h => h.1 = name) headers).

Class LayerLaws `{!LayerLib} : Prop :=
  header_get_layer name value headers name' :
    header_get name' (if_not_present name value headers) =
      match header_get name headers with
      | Some _ => header_get name' headers
      | None => if decide (name' = name) then Some value else header_get name' headers
      end.

(** ** The routes of [run] *)

Inductive Endpoint :=
| UiIndex | UiCss | UiJs | UiHtmx | Health | Readiness | AuthConfigPage | GithubStart
| GithubCallbackPage | GithubLogout | StatusPage | Profiles | ProfileSecrets | ProxyRoute | UiSession
| UiOwner | UiUpsertBasicUser | UiSetBasicUserEnabled | UiCreateAgent | UiRotateAgent
| UiSetAgentEnabled | UiDeleteAgent | UiSetPrincipalRole | UiGrantProfile
| UiGrantExternalProfile | UiRevokeProfile | ApiNotFound | SessionRpc | ControlRpc | UiNotFound.

(** A pattern, piece by piece between its slashes *)
Inductive Segment := Literal (text : bytes) | Placeholder | Wildcard.
Definition Pattern : Type := list Segment.
#[export] Instance segment_eq : EqDecision Segment.
Proof. solve_decision. Defined.

(** [{name}] stands for one piece and [{*name}] for the rest, neither of them empty. *)
Definition segment_of (piece : bytes) : Segment :=
  if starts_with &"{*" piece then Wildcard
  else if starts_with &"{" piece then Placeholder else Literal piece.
Definition pattern_of (text : bytes) : Pattern := segment_of <$> split "/" text.

Fixpoint matches (p : Pattern) (path : list bytes) : bool :=
  match p, path with
  | [], [] => true
  | [Wildcard], _ => negb (is_empty path) && negb (bool_decide (path = [[]]))
  | Literal text :: p, piece :: path => bool_decide (piece = text) && matches p path
  | Placeholder :: p, piece :: path => negb (is_empty piece) && matches p path
  | _, _ => false
  end.
Definition pattern_matches (p : Pattern) (path : bytes) : bool := matches p (split "/" path).

(** At the first difference a literal comes before a parameter, and both before a
    wildcard. *)
Fixpoint more_specific (p q : Pattern) : bool :=
  match p, q with
  | Literal a :: p, Literal b :: q => bool_decide (a = b) && more_specific p q
  | Placeholder :: p, Placeholder :: q | Wildcard :: p, Wildcard :: q => more_specific p q
  | Literal _ :: _, (Placeholder | Wildcard) :: _ | Placeholder :: _, Wildcard :: _ => true
  | _, _ => false
  end.

Definition routes : list (bytes * Endpoint) := [
  (&"/", UiIndex);
  (&"/assets/av.css", UiCss);
  (&"/assets/av.js", UiJs);
  (&"/assets/htmx-2.0.10.min.js", UiHtmx);
  (&"/healthz", Health);
  (&"/readyz", Readiness);
  (&"/v1/auth/config", AuthConfigPage);
  (&"/auth/github/start", GithubStart);
  (&"/auth/github/callback", GithubCallbackPage);
  (&"/auth/github/logout", GithubLogout);
  (&"/v1/status", StatusPage);
  (&"/v1/profiles", Profiles);
  (&"/v1/profiles/{profile}/secrets", ProfileSecrets);
  (&"/v1/proxy/{route}/{*path}", ProxyRoute);
  (&"/ui/session", UiSession);
  (&"/ui/owner", UiOwner);
  (&"/ui/owner/basic-users", UiUpsertBasicUser);
  (&"/ui/owner/basic-users/enabled", UiSetBasicUserEnabled);
  (&"/ui/owner/agents", UiCreateAgent);
  (&"/ui/owner/agents/rotate", UiRotateAgent);
  (&"/ui/owner/agents/enabled", UiSetAgentEnabled);
  (&"/ui/owner/agents/delete", UiDeleteAgent);
  (&"/ui/owner/roles", UiSetPrincipalRole);
  (&"/ui/owner/grants", UiGrantProfile);
  (&"/ui/owner/external-grants", UiGrantExternalProfile);
  (&"/ui/owner/grants/revoke", UiRevokeProfile);
  (&"/v1/{*path}", ApiNotFound);
  (&"/av.v1.SessionService/{*path}", SessionRpc);
  (&"/av.v1.ControlService/{*path}", ControlRpc)].

(** [Router::call]: the registered pattern a path is handed to, a most specific one of
    those that match *)
Class RouterLib := pick_route : list Pattern -> bytes -> option Pattern.
Class RouterLaws `{!RouterLib} : Prop := {
  pick_route_some patterns path p : pick_route patterns path = Some p ->
    p ∈ patterns /\ pattern_matches p path = true
    /\ forall q, q ∈ patterns -> pattern_matches q path = true -> more_specific q p = false;
  pick_route_none patterns path : pick_route patterns path = None ->
    forall q, q ∈ patterns -> pattern_matches q path = false;
}.

Definition endpoint `{!RouterLib} (path : bytes) : Endpoint :=
  match pick_route ((fun route => pattern_of route.1) <$> routes) path with
  | None => UiNotFound
  | Some p =>
      match List.find (fun route => bool_decide (p = pattern_of route.1)) routes with
      | Some (_, e) => e
      | None => UiNotFound
      end
  end.

(** The endpoints that hand out credentials or act for an API client *)
Definition api_endpoint (e : Endpoint) : bool :=
  match e with
  | AuthConfigPage | StatusPage | Profiles | ProfileSecrets | ProxyRoute | ApiNotFound
  | SessionRpc | ControlRpc => true
  | _ => false
  end.

(** ** The middleware *)

Definition api_path (path : bytes) : bool :=
  starts_with &"/v1/" path || starts_with &"/av.v1." path.

Section Edge.
Context {HL : HeaderLib} {UL : UrlLib} {EL : EncodingLib} {JL : JwtLib} {PL : PasswordLib}
  {BL : BackendLib} {LL : LayerLib}.

Definition too_many_requests : Response :=
  let r := plain status_too_many_requests (line &"api rate limit exceeded") in
  no_store {| response_status := response_status r;
              response_headers := header_insert &"retry-after" &"1" (response_headers r);
              response_body := response_body r |}.

(** ** [content_security_policy] *)

(** [Url::origin().ascii_serialization()] is a parameter. *)
Definition csp_text (connect_src : bytes) : bytes :=
  &"default-src 'self'; connect-src " ++ connect_src
  ++ &"; script-src 'self'; style-src 'self'; img-src 'self' data:; base-uri 'none'; frame-ancestors 'none'; form-action 'self'".
Definition content_security_policy (origin_of : Url -> bytes) (c : Config) : result bytes :=
  connect_src ←
    (if oidc_mode (auth_mode (cfg_auth c)) then
       issuer ← ok_or (url_parse (Auth.issuer (cfg_auth c))) "parse OIDC issuer for CSP";
       Ok (&"'self'" ++ &" " ++ origin_of issuer)
     else Ok &"'self'");
  value ← ok_or (value_from_bytes (csp_text connect_src)) "build Content-Security-Policy";
  Ok (value_as_bytes value).

(** ** Probes and fixed pages *)

Definition health : Response := plain status_ok (line &"ok").
Definition not_ready : Response := plain status_unavailable (line &"not ready").
(** [healthy] is the store's [SELECT 1], [None] when it takes over two seconds;
    there is no store in static mode. *)
Definition readiness (shutting_down : bool) (store : option (option (result unit))) : Response :=
  if shutting_down then not_ready
  else match store with
       | None => health
       | Some (Some (Ok _)) => health
       | Some _ => not_ready
       end.
Definition page (content_type content : bytes) : Response :=
  no_store {| response_status := status_ok; response_headers := [(&"content-type", content_type)];
              response_body := Full content |}.
Definition ui_index (rendered : option bytes) : Response :=
  match rendered with
  | Some html => page &"text/html; charset=utf-8" html
  | None => no_store (plain 500 (line &"UI unavailable"))
  end.
Definition ui_css (asset : bytes) : Response := page &"text/css; charset=utf-8" asset.
Definition ui_js (asset : bytes) : Response := page &"text/javascript; charset=utf-8" asset.
Definition ui_htmx (asset : bytes) : Response := page &"text/javascript; charset=utf-8" asset.
Definition api_not_found : Response := plain 404 (line &"api endpoint not found").

(** ** A request through the layers *)

(** [mounted e] is the method router or service that [run] mounts for [e], and
    [transparent] what follows the check of the bucket in
    [transparent_connect_response] and [transparent_tunnel_response]. *)
Context {RL : RouterLib} {Rq Tq W : Type} (path_of : Rq -> bytes)
  (mounted : Endpoint -> Rq -> W -> Response * W) (transparent : Tq -> W -> Response * W).

(** What comes in: a request to the router, a CONNECT to the transparent listener, or a
    request inside one of its tunnels *)
Inductive Arrival := Http (rq : Rq) | Connect (rq : Tq) | Tunnelled (rq : Tq).

Record EdgeState := { limiter : ApiRateLimiter; behind : W; handled : list Arrival }.

(** [next.run(request)] *)
Definition run_next (rq : Rq) (l : ApiRateLimiter) (s : EdgeState) : Response * EdgeState :=
  let '(r, w) := mounted (endpoint (path_of rq)) rq (behind s) in
  (r, {| limiter := l; behind := w; handled := handled s ++ [Http rq] |}).

Definition enforce_api_rate_limit (now : Z) (rq : Rq) (s : EdgeState) : Response * EdgeState :=
  if api_path (path_of rq) then
    let '(permitted, l) := try_acquire (limiter s) now in
    if permitted then run_next rq l s
    else (too_many_requests, {| limiter := l; behind := behind s; handled := handled s |})
  else run_next rq (limiter s) s.

(** The check that [transparent_connect_response] and [transparent_tunnel_response]
    begin with *)
Definition enforce_transparent_rate_limit (refused : Response) (now : Z) (arrival : Arrival) (rq : Tq)
    (s : EdgeState) : Response * EdgeState :=
  let '(permitted, l) := try_acquire (limiter s) now in
  if permitted : bool then
    let '(r, w) := transparent rq (behind s) in
    (r, {| limiter := l; behind := w; handled := handled s ++ [arrival] |})
  else (refused, {| limiter := l; behind := behind s; handled := handled s |}).

Definition security_headers (csp : bytes) : list (bytes * bytes) := [
  (&"cache-control", &"no-store");
  (&"content-security-policy", csp);
  (&"x-content-type-options", &"nosniff");
  (&"referrer-policy", &"no-referrer");
  (&"permissions-policy", &"camera=(), microphone=(), geolocation=()")].
Definition layered (csp : bytes) (r : Response) : Response :=
  {| response_status := response_status r;
     response_headers := fold_left (fun hs h => if_not_present h.1 h.2 hs)
                           (security_headers csp) (response_headers r);
     response_body := response_body r |}.

Definition serve (csp : bytes) (now : Z) (rq : Rq) (s : EdgeState) : Response * EdgeState :=
  let '(r, s) := enforce_api_rate_limit now rq s in (layered csp r, s).
Definition arrive (csp : bytes) (now : Z) (arrival : Arrival) (s : EdgeState)
    : Response * EdgeState :=
  match arrival with
  | Http rq => serve csp now rq s
  | Connect rq =>
      enforce_transparent_rate_limit (transparent_response status_too_many_requests) now arrival rq s
  | Tunnelled rq =>
      enforce_transparent_rate_limit
        (transparent_full_response status_too_many_requests (line &"proxy rate limit exceeded"))
        now arrival rq s
  end.
Fixpoint serve_all (csp : bytes) (calls : list (Z * Arrival)) (s : EdgeState)
    : list Response * EdgeState :=
  match calls with
  | [] => ([], s)
  | (now, rq) :: calls =>
      let '(r, s) := arrive csp now rq s in
      let '(rs, s) := serve_all csp calls s in
      (r :: rs, s)
  end.
End Edge.
