(* ===== verification/EdgeProps.v ===== *)
(** EdgeProps: the API rate limit seen from a client, and what every answer carries. *)

From Stdlib Require Import Ascii String QArith Qround Lqa Sorted.
From stdpp Require Import base list strings gmap.
From S2P Require Import Prelude Str BTree External Models Database Store Auth Connector ConnectorFacts Config ConfigFacts Leases Control Sessions Proxy RateLimit Edge.

#[local] Open Scope Z_scope.

Section EdgeFacts.
Context {HL : HeaderLib} {UL : UrlLib} {EL : EncodingLib} {JL : JwtLib} {PL : PasswordLib}
  {BL : BackendLib} {LL : LayerLib} {RL : RouterLib}.
Context {Rq Tq W : Type} (path_of : Rq -> bytes) (mounted : Endpoint -> Rq -> W -> Response * W)
  (transparent : Tq -> W -> Response * W).
#[local] Abbreviation state := (EdgeState (Rq := Rq) (Tq := Tq) (W := W)).
#[local] Abbreviation arrive := (arrive path_of mounted transparent).
#[local] Abbreviation serve_all := (serve_all path_of mounted transparent).
#[local] Abbreviation serve := (serve path_of mounted (Tq := Tq)).
Implicit Types (s : state) (calls : list (Z * Arrival (Rq := Rq) (Tq := Tq))).

(** The arrivals that take a token of the bucket: the API and the transparent proxy *)
Definition metered (a : Arrival (Rq := Rq) (Tq := Tq)) : bool :=
  match a with Http rq => api_path (path_of rq) | Connect _ | Tunnelled _ => true end.
Definition metered_times calls : list Z := (filter (fun call => metered call.2 = true) calls).*1.
Definition metered_handled s : Z := Z.of_nat (length (filter (fun a => metered a = true) (handled s))).
(** The API requests among them *)
Definition api_arrival (a : Arrival (Rq := Rq) (Tq := Tq)) : bool :=
  match a with Http rq => api_path (path_of rq) | Connect _ | Tunnelled _ => false end.
Definition api_handled s : Z := Z.of_nat (length (filter (fun a => api_arrival a = true) (handled s))).

Lemma serve_all_cons csp now a calls s :
  (serve_all csp ((now, a) :: calls) s).2 = (serve_all csp calls (arrive csp now a s).2).2.
Proof.
  simpl. destruct (arrive csp now a s) as [r s']. simpl. by destruct (serve_all csp calls s').
Qed.

Lemma serve_state csp now rq s :
  (serve csp now rq s).2 = (enforce_api_rate_limit path_of mounted now rq s).2.
Proof. unfold Edge.serve. by destruct (enforce_api_rate_limit path_of mounted now rq s). Qed.

(** One arrival, seen from the limiter and from the log of handled ones *)
Lemma arrive_step csp now a s :
  let s' := (arrive csp now a s).2 in
  if metered a
  then limiter s' = (try_acquire (limiter s) now).2
       /\ handled s' = handled s ++ (if (try_acquire (limiter s) now).1 then [a] else [])
  else limiter s' = limiter s /\ handled s' = handled s ++ [a].
Proof.
  cbv zeta. destruct a as [rq|rq|rq]; cbn [Edge.arrive metered]; [rewrite serve_state|..];
    unfold enforce_api_rate_limit, enforce_transparent_rate_limit, run_next;
    [destruct (api_path (path_of rq)); [|by destruct (mounted _ rq (behind s))]|..];
    destruct (try_acquire (limiter s) now) as [[] l]; simpl;
    try (by destruct (mounted _ rq (behind s))); try (by destruct (transparent rq (behind s)));
    (split; [done|]; by rewrite app_nil_r).
Qed.

Lemma metered_times_cons now a calls :
  metered_times ((now, a) :: calls)
  = if metered a then now :: metered_times calls else metered_times calls.
Proof. unfold metered_times. rewrite filter_cons. simpl. by destruct (metered a). Qed.

Lemma permits_cons b bs : permits (b :: bs) = ((if b then 1 else 0) + permits bs)%nat.
Proof. by destruct b. Qed.

Lemma serve_all_limiter csp calls s :
  limiter (serve_all csp calls s).2 = (serve_calls (limiter s) (metered_times calls)).2
  /\ metered_handled (serve_all csp calls s).2
     = metered_handled s + Z.of_nat (permits (serve_calls (limiter s) (metered_times calls)).1).
Proof.
  revert s. induction calls as [|[now a] calls IH]; intros s; [split; [done|symmetry; apply Z.add_0_r]|].
  rewrite serve_all_cons, metered_times_cons. pose proof (arrive_step csp now a s) as Hs.
  set (s' := (arrive csp now a s).2) in *. cbv zeta in Hs.
  destruct (IH s') as [IH1 IH2]. rewrite IH1, IH2.
  unfold metered_handled. destruct (metered a) eqn:Ha; destruct Hs as [Hl Hh]; rewrite Hl, Hh.
  - rewrite serve_calls_cons. cbn [fst snd]. split; [done|]. rewrite permits_cons, filter_app, length_app.
    destruct (try_acquire (limiter s) now).1; [rewrite filter_cons_True by done|]; simpl; lia.
  - split; [done|]. rewrite filter_app, length_app, filter_cons_False by (by rewrite Ha). simpl. lia.
Qed.

(** Of what a sequence of arrivals adds to the log, the API requests are a part. *)
Lemma serve_all_handled csp calls s : exists new, handled (serve_all csp calls s).2 = handled s ++ new.
Proof.
  revert s. induction calls as [|[now a] calls IH]; intros s; [exists []; simpl; by rewrite app_nil_r|].
  rewrite serve_all_cons. destruct (IH (arrive csp now a s).2) as [new ->].
  pose proof (arrive_step csp now a s) as Hs. cbv zeta in Hs.
  destruct (metered a); destruct Hs as [_ ->]; eexists; by rewrite <- app_assoc.
Qed.
Lemma api_handled_le csp calls s :
  api_handled (serve_all csp calls s).2 - api_handled s
  <= metered_handled (serve_all csp calls s).2 - metered_handled s.
Proof.
  destruct (serve_all_handled csp calls s) as [new Hn]. unfold api_handled, metered_handled.
  rewrite Hn, !filter_app, !length_app.
  assert (length (filter (fun a => api_arrival a = true) new)
          <= length (filter (fun a => metered a = true) new))%nat; [|lia].
  clear. induction new as [|a new IH]; [done|]. rewrite !filter_cons.
  repeat case_decide; simpl; try lia. by destruct a.
Qed.

(** The state [run] hands to the first request *)
Definition edge_start (c : Config) (now : Z) (w : W) : state := {|
  limiter := limiter_new (cfg_api_rate_limit_per_second c) (cfg_api_rate_limit_burst c) now;
  behind := w; handled := [] |}.

Definition rates_ok (c : Config) : Prop :=
  1 <= cfg_api_rate_limit_per_second c <= 10000 /\ 1 <= cfg_api_rate_limit_burst c <= 50000.

Lemma edge_start_ok c now w : rates_ok c -> limiter_ok (limiter (edge_start c now w)).
Proof. intros [Hr Hb]. apply limiter_new_ok; lia. Qed.

Lemma served_limiter csp c t0 w past : rates_ok c ->
  let l := limiter (serve_all csp past (edge_start c t0 w)).2 in
  limiter_ok l /\ rate_per_second l = inject_Z (cfg_api_rate_limit_per_second c)
  /\ capacity l = inject_Z (cfg_api_rate_limit_burst c)
  /\ last_refill l = List.last (metered_times past) t0.
Proof.
  intros Hc. cbv zeta. rewrite (proj1 (serve_all_limiter csp past (edge_start c t0 w))).
  split; [by apply serve_calls_ok, edge_start_ok|]. apply serve_calls_same.
Qed.

Lemma metered_times_sorted calls : Sorted Z.le calls.*1 -> Sorted Z.le (metered_times calls).
Proof.
  intros H. apply StronglySorted_Sorted. apply Sorted_StronglySorted in H; [|intros ???; lia].
  unfold metered_times. induction calls as [|c calls IH]; [constructor|].
  apply StronglySorted_inv in H as [H Hf]. rewrite filter_cons. destruct (decide _); [|by apply IH].
  constructor; [by apply IH|]. rewrite Forall_forall in Hf |- *. intros t Ht. apply Hf.
  apply list_elem_of_fmap in Ht as (x & -> & Hx%list_elem_of_filter).
  apply list_elem_of_fmap. exists x. by destruct Hx.
Qed.

Lemma metered_times_in calls t :
  t ∈ metered_times calls -> exists call, call ∈ calls /\ call.1 = t /\ metered call.2 = true.
Proof.
  intros (x & -> & Hx%list_elem_of_filter)%list_elem_of_fmap. exists x. by destruct Hx.
Qed.
Lemma last_in {A} (x : A) xs : List.last xs x ∈ x :: xs.
Proof.
  revert x. induction xs as [|y xs IH]; intros x; [by left|]. rewrite last_after. right. apply IH.
Qed.
Lemma metered_times_length calls : (length (metered_times calls) <= length calls)%nat.
Proof. unfold metered_times. rewrite length_fmap. apply length_filter. Qed.

Lemma seconds_mono a b : a <= b -> (seconds a <= seconds b)%Q.
Proof.
  intros H. rewrite Zle_Qle in H. unfold seconds, Qdiv. by apply Qmult_le_compat_r.
Qed.

(** From seconds back to nanoseconds *)
Lemma permits_in_nanos n r b d :
  (inject_Z n < inject_Z b + inject_Z r * seconds d + 1)%Q -> (n - b - 1) * NANOS < r * d.
Proof.
  intros H. unfold seconds in H. rewrite Zlt_Qlt, !inject_Z_mult.
  assert (inject_Z (n - b - 1) == inject_Z n - inject_Z b - 1)%Q as ->.
  { unfold Z.sub. rewrite !inject_Z_plus, !inject_Z_opp. change (inject_Z 1) with 1%Q. lra. }
  assert (inject_Z d == inject_Z d / inject_Z NANOS * inject_Z NANOS)%Q as -> by (field; done).
  rewrite Qmult_assoc. apply Qmult_lt_r; [done|]. lra.
Qed.

(** C15: Whatever came before, of the API requests that arrive within a window of
    [b - a] nanoseconds fewer than [burst + rate * (b - a) / 10^9 + 1] reach a handler,
    also together with the CONNECT requests and the requests inside tunnels, which
    share the bucket, although it is kept in rounded floating point: for any validated
    configuration, windows of up to 2^34 seconds and up to 2^34 arrivals. *)
Theorem api_requests_bounded csp c t0 w past window a b :
  rates_ok c ->
  Sorted Z.le window.*1 ->
  (forall call, call ∈ window -> a <= call.1 <= b) ->
  0 <= b - a <= 2 ^ 34 * NANOS -> Z.of_nat (length window) <= 2 ^ 34 ->
  let s := (serve_all csp past (edge_start c t0 w)).2 in
  let s' := (serve_all csp window s).2 in
  (api_handled s' - api_handled s - cfg_api_rate_limit_burst c - 1) * NANOS
  < cfg_api_rate_limit_per_second c * (b - a)
  /\ (metered_handled s' - metered_handled s - cfg_api_rate_limit_burst c - 1) * NANOS
     < cfg_api_rate_limit_per_second c * (b - a).
Proof.
  intros Hc Hs Hin Hab Hlen. cbv zeta.
  destruct (served_limiter csp c t0 w past Hc) as (Hl & Hr & Hcap & _).
  set (s := (serve_all csp past (edge_start c t0 w)).2) in *.
  pose proof (api_handled_le csp window s) as Hle.
  match goal with |- ?P /\ ?Q => assert Q as HQ; [|split; [|exact HQ]] end.
  2:{ eapply Z.le_lt_trans; [|exact HQ]. apply Z.mul_le_mono_nonneg_r; [done|lia]. }
  clear Hle. rewrite (proj2 (serve_all_limiter csp window s)). apply permits_in_nanos.
  replace (metered_handled s + _ - metered_handled s)
    with (Z.of_nat (permits (serve_calls (limiter s) (metered_times window)).1)) by lia.
  destruct Hc as [Hrate Hburst]. pose proof (seconds_nonneg (b - a) ltac:(lia)) as Hsec.
  assert (1 <= inject_Z (cfg_api_rate_limit_per_second c) <= 10000)%Q as Hrq
    by (apply (inject_bounds 1 _ 10000); lia).
  assert (1 <= inject_Z (cfg_api_rate_limit_burst c))%Q as Hbq by (apply (inject_bounds 1 _ 50000); lia).
  pose proof (metered_times_sorted window Hs) as Hsort.
  pose proof (metered_times_length window) as Hn.
  assert (forall t, t ∈ metered_times window -> a <= t <= b) as Ht.
  { intros t (call & Hcall & <- & _)%metered_times_in. by apply Hin. }
  destruct (metered_times window) as [|first times].
  - change (inject_Z (Z.of_nat (permits (serve_calls (limiter s) []).1))) with 0%Q.
    assert (0 <= inject_Z (cfg_api_rate_limit_per_second c) * seconds (b - a))%Q
      by (apply Qmult_le_0_compat; lra). lra.
  - pose proof (Ht first ltac:(by left)) as Hf. pose proof (Ht _ (last_in first times)) as Hla.
    pose proof (window_permits_small (limiter s) first times Hl) as H. rewrite Hr, Hcap in H.
    simpl length in Hn.
    specialize (H ltac:(lra) Hsort ltac:(lia) ltac:(simpl length; lia)).
    eapply Qlt_le_trans; [exact H|].
    assert (seconds (List.last times first - first) <= seconds (b - a))%Q by (apply seconds_mono; lia).
    set (r := inject_Z (cfg_api_rate_limit_per_second c)) in *.
    assert (r * seconds (List.last times first - first) <= r * seconds (b - a))%Q;
      [apply Qmult_le_l; lra|lra].
Qed.

Lemma all_handled csp calls s :
  Forall (fun answer => answer = true) (serve_calls (limiter s) (metered_times calls)).1 ->
  handled (serve_all csp calls s).2 = handled s ++ calls.*2.
Proof.
  revert s. induction calls as [|[now a] calls IH]; intros s H; [simpl; by rewrite app_nil_r|].
  rewrite serve_all_cons. rewrite metered_times_cons in H.
  pose proof (arrive_step csp now a s) as Hs. cbv zeta in Hs.
  set (s' := (arrive csp now a s).2) in *.
  destruct (metered a); destruct Hs as [Hl Hh].
  - rewrite serve_calls_cons in H. apply Forall_cons in H as [Hp H]. rewrite Hp in Hh.
    rewrite IH by (by rewrite Hl). rewrite Hh. by rewrite <- app_assoc.
  - rewrite IH by (by rewrite Hl). rewrite Hh. by rewrite <- app_assoc.
Qed.

Lemma constant_times (times : list Z) t : (forall u, u ∈ times -> u = t) -> times = replicate (length times) t.
Proof.
  induction times as [|u times IH]; intros H; [done|]. simpl.
  rewrite (H u) by (by left). f_equal. apply IH. intros v Hv. apply H. by right.
Qed.

(** C16: The limiter refuses no more than it has to.  With a validated
    configuration the first [burst] of the requests that share the bucket, to the API,
    to CONNECT and inside tunnels, all reach their handlers, at whatever times they
    come; of any number that come at the instant of the start exactly [burst] do; and
    one that comes a second or more after every earlier one reaches its handler, which
    is what the [Retry-After: 1] of a refusal tells an API client. *)
Theorem api_service_guaranteed csp c t0 w calls :
  rates_ok c ->
  let s := (serve_all csp calls (edge_start c t0 w)).2 in
  (Z.of_nat (length (metered_times calls)) <= cfg_api_rate_limit_burst c -> handled s = calls.*2)
  /\ ((forall t, t ∈ metered_times calls -> t = t0) ->
      metered_handled s = Z.min (Z.of_nat (length (metered_times calls))) (cfg_api_rate_limit_burst c))
  /\ (forall now a, metered a = true -> (forall t, t ∈ metered_times calls -> t + NANOS <= now) ->
      handled (arrive csp now a s).2 = handled s ++ [a]).
Proof.
  intros Hc. cbv zeta. pose proof (edge_start_ok c t0 w Hc) as Hl. pose proof Hc as [_ Hb].
  split_and!.
  - intros Hn. rewrite all_handled; [done|].
    apply (first_calls_permitted _ _ (cfg_api_rate_limit_burst c)); [done|lia|]. simpl. apply Qle_refl.
  - intros Ht. rewrite (proj2 (serve_all_limiter csp calls _)).
    rewrite (constant_times _ _ Ht) at 1.
    pose proof (burst_instant (length (metered_times calls)) (limiter (edge_start c t0 w))
                  (cfg_api_rate_limit_burst c) Hl ltac:(lia) (Qeq_refl _)) as H.
    change (last_refill (limiter (edge_start c t0 w))) with t0 in H. rewrite H.
    change (metered_handled (edge_start c t0 w)) with 0. lia.
  - intros now a Ha Ht. destruct (served_limiter csp c t0 w calls Hc) as (Hok & _ & _ & Hlast).
    pose proof (serve_all_limiter csp calls (edge_start c t0 w)) as [Hlim _].
    pose proof (arrive_step csp now a (serve_all csp calls (edge_start c t0 w)).2) as Hs.
    cbv zeta in Hs. rewrite Ha in Hs. destruct Hs as [_ ->].
    set (s := (serve_all csp calls (edge_start c t0 w)).2) in *.
    assert ((try_acquire (limiter s) now).1 = true) as ->; [|done].
    destruct (metered_times calls) as [|t times].
    + rewrite Hlim. simpl (serve_calls _ _).2.
      pose proof (first_calls_permitted [now] _ (cfg_api_rate_limit_burst c) Hl ltac:(simpl; lia)
                    (Qle_refl _)) as H.
      rewrite serve_calls_cons in H. by apply Forall_cons in H as [H _].
    + apply second_restores; [done|]. rewrite Hlast, last_after. apply Ht. apply last_in.
Qed.

(** ** Routing and headers *)

(** Where each endpoint is to be found *)
Definition url_of (e : Endpoint) : option bytes :=
  match e with
  | UiIndex => Some &"/"
  | UiCss => Some &"/assets/av.css"
  | UiJs => Some &"/assets/av.js"
  | UiHtmx => Some &"/assets/htmx-2.0.10.min.js"
  | Health => Some &"/healthz"
  | Readiness => Some &"/readyz"
  | AuthConfigPage => Some &"/v1/auth/config"
  | GithubStart => Some &"/auth/github/start"
  | GithubCallbackPage => Some &"/auth/github/callback"
  | GithubLogout => Some &"/auth/github/logout"
  | StatusPage => Some &"/v1/status"
  | Profiles => Some &"/v1/profiles"
  | ProfileSecrets => Some &"/v1/profiles/{profile}/secrets"
  | ProxyRoute => Some &"/v1/proxy/{route}/{*path}"
  | UiSession => Some &"/ui/session"
  | UiOwner => Some &"/ui/owner"
  | UiUpsertBasicUser => Some &"/ui/owner/basic-users"
  | UiSetBasicUserEnabled => Some &"/ui/owner/basic-users/enabled"
  | UiCreateAgent => Some &"/ui/owner/agents"
  | UiRotateAgent => Some &"/ui/owner/agents/rotate"
  | UiSetAgentEnabled => Some &"/ui/owner/agents/enabled"
  | UiDeleteAgent => Some &"/ui/owner/agents/delete"
  | UiSetPrincipalRole => Some &"/ui/owner/roles"
  | UiGrantProfile => Some &"/ui/owner/grants"
  | UiGrantExternalProfile => Some &"/ui/owner/external-grants"
  | UiRevokeProfile => Some &"/ui/owner/grants/revoke"
  | ApiNotFound => Some &"/v1/{*path}"
  | SessionRpc => Some &"/av.v1.SessionService/{*path}"
  | ControlRpc => Some &"/av.v1.ControlService/{*path}"
  | UiNotFound => None
  end.

(** [e] is the endpoint for [path]: its URL matches and no more specific one does, or it
    is the fallback and none matches. *)
Definition found_at (e : Endpoint) (path : bytes) : Prop :=
  match url_of e with
  | Some url => pattern_matches (pattern_of url) path = true
      /\ forall e' url', url_of e' = Some url' -> pattern_matches (pattern_of url') path = true ->
           more_specific (pattern_of url') (pattern_of url) = false
  | None => forall e' url', url_of e' = Some url' -> pattern_matches (pattern_of url') path = false
  end.

Lemma routes_urls url e : (url, e) ∈ routes <-> url_of e = Some url.
Proof.
  split.
  - assert (Forall (fun route => url_of route.2 = Some route.1) routes) as H by (by repeat constructor).
    intros Hin. by apply (proj1 (Forall_forall _ _) H) in Hin.
  - intros H. apply list_elem_of_In. destruct e; simpl in H; try discriminate H; injection H as <-;
      unfold routes; simpl; tauto.
Qed.
Lemma routed_pattern q : q ∈ (fun route => pattern_of route.1) <$> routes <->
  exists e url, url_of e = Some url /\ q = pattern_of url.
Proof.
  rewrite list_elem_of_fmap. split.
  - intros ([url e] & -> & Hin%routes_urls). by exists e, url.
  - intros (e & url & Hin%routes_urls & ->). by exists (url, e).
Qed.

Lemma endpoint_found `{!RouterLaws} path : found_at (endpoint path) path.
Proof.
  unfold endpoint. destruct (pick_route _ path) as [p|] eqn:Hp.
  - apply pick_route_some in Hp as (Hin & Hm & Hbest).
    destruct (List.find _ routes) as [[url e]|] eqn:Hf.
    + apply find_some in Hf as [Hr%list_elem_of_In Hpe%bool_decide_eq_true].
      apply routes_urls in Hr. simpl in Hpe. unfold found_at. rewrite Hr, <- Hpe. split; [done|].
      intros e' url' He' Hm'. apply Hbest; [|done]. apply routed_pattern. by exists e', url'.
    + apply routed_pattern in Hin as (e & url & He & ->). apply routes_urls, list_elem_of_In in He.
      apply (find_none _ _ Hf) in He. simpl in He. by rewrite bool_decide_eq_true_2 in He.
  - intros e url He. apply (pick_route_none _ _ Hp), routed_pattern. by exists e, url.
Qed.

(** A path whose first piece is known *)
Lemma pieces_prefix path piece next rest :
  split "/" path = [] :: piece :: next :: rest -> starts_with (&"/" ++ piece ++ &"/") path = true.
Proof.
  intros H. apply starts_with_spec. rewrite <- (join_split "/" path), H.
  exists (join "/" (next :: rest)). cbn [join]. by rewrite <- !app_assoc.
Qed.
Lemma matched_prefix piece last more path :
  matches (Literal [] :: Literal piece :: last :: more) (split "/" path) = true ->
  starts_with (&"/" ++ piece ++ &"/") path = true.
Proof.
  destruct (split "/" path) as [|a [|b pieces]] eqn:E; cbn [matches]; [done|by rewrite andb_false_r|].
  intros [->%bool_decide_eq_true [->%bool_decide_eq_true H]%andb_true_iff]%andb_true_iff.
  destruct pieces as [|c rest]; [by destruct last, more|]. by eapply pieces_prefix.
Qed.
Lemma prefix_of_starts (p q s : bytes) : p `prefix_of` q -> starts_with q s = true -> starts_with p s = true.
Proof. rewrite !starts_with_spec. intros H1 H2. by transitivity q. Qed.

(** Every endpoint that serves API clients is mounted where the limiter looks. *)
Lemma api_endpoint_url e : api_endpoint e = true -> exists url piece last more,
  url_of e = Some url /\ pattern_of url = Literal [] :: Literal piece :: last :: more
  /\ api_path (&"/" ++ piece ++ &"/") = true.
Proof.
  intros He. destruct e; try discriminate He; do 4 eexists; (split; [reflexivity|]);
    (split; [vm_compute; reflexivity|vm_compute; reflexivity]).
Qed.
Lemma api_endpoint_path `{!RouterLaws} path :
  api_endpoint (endpoint path) = true -> api_path path = true.
Proof.
  intros (url & piece & last & more & Hu & Hp & Ha)%api_endpoint_url.
  pose proof (endpoint_found path) as Hf. unfold found_at in Hf. rewrite Hu in Hf.
  destruct Hf as [Hf _]. unfold pattern_matches in Hf. rewrite Hp in Hf.
  apply matched_prefix in Hf. unfold api_path in *. apply orb_true_iff in Ha. apply orb_true_iff.
  destruct Ha as [Ha|Ha]; [left|right]; apply starts_with_spec in Ha; by eapply prefix_of_starts.
Qed.

Lemma header_get_cons name n v headers :
  header_get name ((n, v) :: headers) = if decide (name = n) then Some v else header_get name headers.
Proof.
  unfold header_get. destruct (decide (name = n)) as [->|Hn].
  - by rewrite filter_cons_True.
  - by rewrite filter_cons_False by (simpl; congruence).
Qed.

Lemma layers_get `{!LayerLaws} (added headers : list (bytes * bytes)) name :
  NoDup added.*1 ->
  header_get name (fold_left (fun hs h => if_not_present h.1 h.2 hs) added headers)
  = match header_get name headers with
    | Some value => Some value
    | None => header_get name added
    end.
Proof.
  revert headers. induction added as [|[n v] added IH]; intros headers Hnd.
  - simpl. by destruct (header_get name headers).
  - apply NoDup_cons in Hnd as [Hn Hnd]. simpl fold_left. rewrite IH by done.
    rewrite header_get_layer, header_get_cons.
    destruct (header_get n headers) as [u|] eqn:E.
    + destruct (header_get name headers) eqn:E'; [done|]. by rewrite decide_False by congruence.
    + destruct (decide (name = n)) as [->|Hne]; [by rewrite E|done].
Qed.

Lemma security_names csp : NoDup (security_headers csp).*1.
Proof. simpl. by apply (bool_decide_unpack _). Qed.

Lemma layered_get `{!LayerLaws} csp r name :
  header_get name (response_headers (layered csp r))
  = match header_get name (response_headers r) with
    | Some value => Some value
    | None => header_get name (security_headers csp)
    end.
Proof. exact (layers_get (security_headers csp) (response_headers r) name (security_names csp)). Qed.

Lemma serve_answer csp now rq s :
  (serve csp now rq s).1 = layered csp (enforce_api_rate_limit path_of mounted now rq s).1.
Proof. unfold Edge.serve. by destruct (enforce_api_rate_limit path_of mounted now rq s). Qed.

(** C32: Every request to the router is answered by the handler of its endpoint or
    refused.  The endpoint is the one whose URL matches the path most specifically, and
    the not-found page only where none matches.  A request that reaches the handler
    gets its status and body, and an endpoint that serves API clients is reached only
    against a token of the bucket.  A refusal is a 429 that asks for a second's
    patience, is not cached, and changes nothing behind the edge.  Either way the answer
    carries the content security policy and the other security headers, with the
    handler's own value where it set one. *)
Theorem edge_answer_exact `{RLL : !RouterLaws} `{LLL : !LayerLaws} csp now rq s :
  let answer := (serve csp now rq s).1 in
  let s' := (serve csp now rq s).2 in
  (forall name value, (name, value) ∈ security_headers csp ->
     is_Some (header_get name (response_headers answer)))
  /\ ((exists e r, found_at e (path_of rq)
        /\ mounted e rq (behind s) = (r, behind s') /\ handled s' = handled s ++ [Http rq]
        /\ response_status answer = response_status r /\ response_body answer = response_body r
        /\ (forall name, header_get name (response_headers answer)
              = match header_get name (response_headers r) with
                | Some value => Some value
                | None => header_get name (security_headers csp)
                end)
        /\ (api_endpoint e = true -> (try_acquire (limiter s) now).1 = true))
      \/ api_path (path_of rq) = true /\ (try_acquire (limiter s) now).1 = false
         /\ behind s' = behind s /\ handled s' = handled s
         /\ response_status answer = status_too_many_requests
         /\ header_get &"retry-after" (response_headers answer) = Some &"1"
         /\ header_get &"cache-control" (response_headers answer) = Some &"no-store").
Proof.
  cbv zeta. rewrite serve_answer, serve_state. split.
  - intros name value Hin. rewrite layered_get. destruct (header_get name _); [done|].
    apply Forall_forall with (x := (name, value)) (2 := Hin) (P := fun h => is_Some (header_get h.1 _)).
    repeat constructor; by eexists.
  - pose proof (endpoint_found (path_of rq)) as Hf. pose proof (api_endpoint_path (path_of rq)) as Hapi.
    unfold enforce_api_rate_limit, run_next. destruct (api_path (path_of rq)) eqn:Ha.
    + destruct (try_acquire (limiter s) now) as [[] l] eqn:Ht.
      * left. destruct (mounted _ rq (behind s)) as [r w'] eqn:Em. exists (endpoint (path_of rq)), r.
        simpl fst. simpl snd. split_and!; try done. intros name. apply layered_get.
      * right. split_and!; try done; simpl fst; by rewrite layered_get.
    + left. destruct (mounted _ rq (behind s)) as [r w'] eqn:Em. exists (endpoint (path_of rq)), r.
      simpl fst. simpl snd. split_and!; try done; [intros name; apply layered_get|].
      intros He%Hapi. congruence.
Qed.
End EdgeFacts.

(** ** Concrete runs *)

Module EdgeModels.
Import Models AuthModels ConnectorModels ConfigModels.

#[export] Instance layers : LayerLib := fun name value headers =>
  match header_get name headers with Some _ => headers | None => headers ++ [(name, value)] end.
#[export] Instance layers_laws : LayerLaws.
Proof.
  intros name value headers name'. unfold if_not_present, layers.
  destruct (header_get name headers) as [u|] eqn:E; [done|].
  assert (header_get name' (headers ++ [(name, value)])
          = match header_get name' headers with
            | Some v => Some v
            | None => if decide (name' = name) then Some value else None
            end) as ->.
  { clear. induction headers as [|[n v] headers IH].
    - simpl app. rewrite header_get_cons. done.
    - simpl app. rewrite !header_get_cons. by destruct (decide (name' = n)). }
  destruct (decide (name' = name)) as [->|]; [by rewrite E|by destruct (header_get name' headers)].
Qed.

(** The matching pattern that none is more specific than *)
Definition most_specific (p : Pattern) (ps : list Pattern) : Pattern :=
  foldl (fun best q => if more_specific q best then q else best) p ps.
#[export] Instance router : RouterLib := fun patterns path =>
  match filter (fun p => pattern_matches p path = true) patterns with
  | [] => None
  | p :: ps => Some (most_specific p ps)
  end.

Lemma more_specific_irrefl p : more_specific p p = false.
Proof. induction p as [|[] p IH]; simpl; [done|by rewrite IH, andb_false_r|done..]. Qed.
Lemma more_specific_trans p q r :
  more_specific p q = true -> more_specific q r = true -> more_specific p r = true.
Proof.
  revert q r. induction p as [|[a| |] p IH]; intros [|[b| |] q] [|[c| |] r]; simpl; try done;
    rewrite ?andb_true_iff, ?bool_decide_eq_true; try (by eauto).
  intros [-> H1] [-> H2]. split; [done|]. by eapply IH.
Qed.
Lemma most_specific_spec p ps :
  most_specific p ps ∈ p :: ps
  /\ forall q, q ∈ p :: ps -> more_specific q (most_specific p ps) = false.
Proof.
  unfold most_specific. induction ps as [|q ps [IH1 IH2]] using rev_ind.
  - split; [by left|]. intros q ->%list_elem_of_singleton. apply more_specific_irrefl.
  - rewrite foldl_app. cbn [foldl]. set (best := foldl _ p ps) in *.
    destruct (more_specific q best) eqn:E.
    + split; [apply elem_of_cons; right; apply elem_of_app; right; by left|].
      intros r [-> |[Hr| ->%list_elem_of_singleton]%elem_of_app]%elem_of_cons;
        [..|apply more_specific_irrefl];
        (destruct (more_specific _ q) eqn:E'; [|done]).
      * by rewrite <- (IH2 p ltac:(by left)), (more_specific_trans p q best).
      * by rewrite <- (IH2 r ltac:(by right)), (more_specific_trans r q best).
    + rewrite app_comm_cons. split; [apply elem_of_app; by left|].
      intros r [Hr| ->%list_elem_of_singleton]%elem_of_app; [by apply IH2|done].
Qed.

#[export] Instance router_laws : RouterLaws.
Proof.
  split; intros patterns path; unfold pick_route, router.
  - intros p. destruct (filter _ patterns) as [|first rest] eqn:E; [done|]. intros [= <-].
    destruct (most_specific_spec first rest) as [Hin Hbest]. rewrite <- E in Hin, Hbest.
    apply list_elem_of_filter in Hin as [Hm Hin]. split_and!; [done..|].
    intros q Hq Hmq. apply Hbest, list_elem_of_filter. done.
  - destruct (filter _ patterns) as [|first rest] eqn:E; [|done]. intros _ q Hq.
    destruct (pattern_matches q path) eqn:Hm; [|done].
    assert (q ∈ filter (fun p => pattern_matches p path = true) patterns) as Hin
      by (by apply list_elem_of_filter). rewrite E in Hin. by apply elem_of_nil in Hin.
Qed.

Example routed : endpoint &"/v1/proxy/items/a/b" = ProxyRoute /\ endpoint &"/v1/nothing" = ApiNotFound
  /\ endpoint &"/v1/profiles/deploy/secrets" = ProfileSecrets
  /\ endpoint &"/v1/profiles/deploy/other" = ApiNotFound
  /\ endpoint &"/v1/" = UiNotFound
  /\ endpoint &"/" = UiIndex /\ endpoint &"/other" = UiNotFound.
Proof. vm_compute. done. Qed.

(** Ten calls a second with a burst of two *)
Definition limited : Config := {|
  cfg_listen := default_listen; cfg_public_url := &"https://av.example.test"; cfg_mode := Static;
  cfg_managed := None; cfg_auth := ConfigModels.auth; cfg_connectors := []; cfg_profiles := [];
  cfg_provider_operations := []; cfg_proxy_routes := []; cfg_proxy_tunnels := [];
  cfg_transparent_proxy := None; cfg_max_connector_concurrency := 1;
  cfg_api_rate_limit_per_second := 10; cfg_api_rate_limit_burst := 2 |}.
Definition counting (e : Endpoint) (rq : bytes) (n : nat) : Response * nat := (health, S n).
Definition tunnelling (rq : unit) (n : nat) : Response * nat := (transparent_response status_ok, S n).
Definition ms (n : Z) : Z := n * 1000000.
Definition calls_at (times : list Z) : list (Z * Arrival (Rq := bytes) (Tq := unit)) :=
  (fun t => (ms t, Http &"/v1/status")) <$> times.
Definition after (times : list Z) :=
  serve_all id counting tunnelling &"csp" (calls_at times) (edge_start limited 0 0%nat).

(** The third call of a burst is refused, a tenth of a second later one more is served. *)
Example burst_then_refill :
  response_status <$> (after [0; 0; 0; 50; 100; 120; 160]).1 = [200; 200; 429; 429; 200; 429; 429].
Proof. vm_compute. done. Qed.

(** A CONNECT and a request in its tunnel drain the bucket of the API. *)
Example tunnels_drain_the_api :
  response_status <$> (serve_all id counting tunnelling &"csp"
    [(0, Connect ()); (0, Tunnelled ()); (0, Http &"/v1/status"); (0, Http &"/healthz")]
    (edge_start limited 0 0%nat)).1 = [200; 200; 429; 200].
Proof. vm_compute. done. Qed.

Lemma rates : rates_ok limited.
Proof. split; simpl; lia. Qed.

Lemma api_requests_bounded_witness :
  (api_handled id (serve_all id counting tunnelling &"csp" (calls_at [0; 50; 100]) (after [0]).2).2
   - api_handled id (after [0]).2 - 2 - 1) * NANOS < 10 * (ms 100 - 0).
Proof.
  apply (api_requests_bounded id counting tunnelling &"csp" limited 0 0%nat (calls_at [0])
           (calls_at [0; 50; 100]) 0 (ms 100) rates).
  - repeat constructor; vm_compute; discriminate.
  - intros call Hin. unfold calls_at in Hin. apply list_elem_of_fmap in Hin as (t & -> & Hin).
    apply list_elem_of_In in Hin. simpl in Hin. unfold ms. simpl.
    destruct Hin as [<-|[<-|[<-|[]]]]; lia.
  - vm_compute. split; discriminate.
  - vm_compute. discriminate.
Defined.

Lemma times_at (times : list Z) : metered_times id (calls_at times) = ms <$> times.
Proof.
  induction times as [|t times IH]; [done|].
  change (calls_at (t :: times)) with ((ms t, Http (Tq := unit) &"/v1/status") :: calls_at times).
  by rewrite metered_times_cons, IH.
Qed.

Lemma api_service_guaranteed_witness :
  handled (after [0; 5]).2 = [Http &"/v1/status"; Http &"/v1/status"]
  /\ metered_handled id (after [0; 0; 0]).2 = 2
  /\ handled (arrive id counting tunnelling &"csp" (ms 1005) (Connect ()) (after [0; 5]).2).2
     = handled (after [0; 5]).2 ++ [Connect ()].
Proof.
  pose proof (fun calls => api_service_guaranteed id counting tunnelling &"csp" limited 0 0%nat calls
                             rates) as H.
  split_and!.
  - exact (proj1 (H (calls_at [0; 5])) ltac:(rewrite times_at; simpl; lia)).
  - refine (proj1 (proj2 (H (calls_at [0; 0; 0]))) _). rewrite times_at. simpl fmap.
    intros t Ht. set_solver.
  - refine (proj2 (proj2 (H (calls_at [0; 5]))) (ms 1005) (Connect ()) eq_refl _).
    rewrite times_at. intros t (u & -> & Hu)%list_elem_of_fmap. unfold ms, NANOS.
    assert (u = 0 \/ u = 5) by set_solver. lia.
Defined.

Lemma edge_answer_exact_witness :
  let answer := (serve id counting &"csp" 0 &"/healthz" (after [0; 0; 0]).2).1 in
  is_Some (header_get &"content-security-policy" (response_headers answer)).
Proof.
  refine (proj1 (edge_answer_exact id counting &"csp" 0 &"/healthz" (after [0; 0; 0]).2)
           &"content-security-policy" &"csp" _).
  right. left.
Defined.
End EdgeModels.
