(* ===== verification/Tls.v ===== *)
(** Tls: the certificates of the transparent proxy and its connections:
    src/transport_tls.rs ([ReloadingTransportTls]), src/proxy_ca.rs,
    crates/av-credential-proxy/src/ca.rs ([ProxyCertificateAuthority]) and the
    listener and tunnels of src/server.rs.

    rustls, rcgen and the PEM readers are the parameter [TlsLib].  The file system
    answers each read on its own, so a certificate and its key can be read on
    either side of an update.  What other requests do to the server between two
    requests of a tunnel is part of a tunnel's script. *)

From Stdlib Require Import Ascii String.
From stdpp Require Import base list strings gmap.
From S2P Require Import Prelude Str BTree External Models Host Redaction Database Store Auth Ip Net Policy Request Injection WebSocket Catalog Connector Config Leases Control Sessions Proxy.

(** ** [rcgen] and [rustls] *)

Inductive KeyUsagePurpose := DigitalSignature | KeyEncipherment | KeyCertSign.
Inductive ExtendedKeyUsagePurpose := ServerAuth | ClientAuth.
Record CertificateParams := {
  subject_alt_names : list bytes; is_ca : bool; key_usages : list KeyUsagePurpose;
  extended_key_usages : list ExtendedKeyUsagePurpose; not_before : Z; not_after : Z }.

Class TlsLib := {
  Certificate : Type;
  PrivateKey : Type;
  ServerConfig : Type;
  KeyPair : Type;
  Issuer : Type;
  (** [CertificateDer::pem_slice_iter(..).collect()] and [PrivateKeyDer::from_pem_slice] *)
  certificates_from_pem : bytes -> option (list Certificate);
  private_key_from_pem : bytes -> option PrivateKey;
  (** [ServerConfig::builder()..with_single_cert], which compares chain and key *)
  with_single_cert : list Certificate -> PrivateKey -> option ServerConfig;
  key_pair_from_pem : bytes -> option KeyPair;
  issuer_from_ca_cert_pem : bytes -> KeyPair -> option Issuer;
  (** [CertificateParams::new] *)
  params_new : list bytes -> option CertificateParams;
  serialize_der : KeyPair -> PrivateKey;
  signed_by : CertificateParams -> KeyPair -> Issuer -> option Certificate;
}.
Class TlsLaws `{!TlsLib} : Prop :=
  params_new_names names params : params_new names = Some params -> subject_alt_names params = names.

(** ** [ReloadingTransportTls] *)

Section Transport.
Context {TL : TlsLib}.
(** [install_default] and the contents of a file at the n-th read *)
Context (install_default : bool) (fs_read : nat -> bytes -> option bytes).

(** [RUSTLS_PROVIDER] and how many files have been read *)
Record Process := { provider : option (result unit); reads : nat }.

Definition install_rustls_provider (p : Process) : result unit * Process :=
  match provider p with
  | Some r => (r, p)
  | None =>
      let r := bail_if (negb install_default) "install aws-lc-rs as the Rustls crypto provider" in
      (r, {| provider := Some r; reads := reads p |})
  end.

Definition read_file (path : bytes) (p : Process) : option bytes * Process :=
  (fs_read (reads p) path, {| provider := provider p; reads := S (reads p) |}).

Definition parse_server_config (certificate_pem private_key_pem : bytes) : result ServerConfig :=
  certificates ← ok_or (certificates_from_pem certificate_pem) "parse transport TLS certificate chain";
  _ ← bail_if (is_empty certificates) "transport TLS certificate chain is empty";
  private_key ← ok_or (private_key_from_pem private_key_pem) "parse transport TLS private key";
  ok_or (with_single_cert certificates private_key)
    "transport TLS certificate and private key do not match".

Definition load_server_config (certificate_path private_key_path : bytes) (p : Process)
    : result ServerConfig * Process :=
  let '(installed, p) := install_rustls_provider p in
  match installed with
  | Err e => (Err e, p)
  | Ok _ =>
      let '(certificate_pem, p) := read_file certificate_path p in
      match certificate_pem with
      | None => (Err "read transport TLS certificate {}", p)
      | Some certificate_pem =>
          let '(private_key_pem, p) := read_file private_key_path p in
          match private_key_pem with
          | None => (Err "read transport TLS private key {}", p)
          | Some private_key_pem => (parse_server_config certificate_pem private_key_pem, p)
          end
      end
  end.

(** [poisoned]: a thread panicked while it held the lock on [current]. *)
Record ReloadingTransportTls := {
  certificate_path : bytes; private_key_path : bytes; current : ServerConfig; poisoned : bool }.

Definition transport_load (certificate_path private_key_path : bytes) (p : Process)
    : result ReloadingTransportTls * Process :=
  let '(r, p) := load_server_config certificate_path private_key_path p in
  (current ← r; Ok {| certificate_path := certificate_path; private_key_path := private_key_path;
                      current := current; poisoned := false |}, p).

(** The configuration to accept with, and the error of the reload *)
Definition acceptor (tls : ReloadingTransportTls) (p : Process)
    : ServerConfig * option string * ReloadingTransportTls * Process :=
  let '(next, p) := load_server_config (certificate_path tls) (private_key_path tls) p in
  let '(reload_error, tls) :=
    match next with
    | Ok next =>
        if poisoned tls then (Some "transport TLS state lock is poisoned", tls)
        else (None, {| certificate_path := certificate_path tls;
                       private_key_path := private_key_path tls; current := next;
                       poisoned := false |})
    | Err e => (Some e, tls)
    end in
  (current tls, reload_error, tls, p).

(** [n] connections, one after the other.  In the source the task of a connection calls
    [acceptor]; two that overlap may store what they have loaded in either order, until
    the next connection loads again. *)
Fixpoint accept_connections (n : nat) (tls : ReloadingTransportTls) (p : Process)
    : list (ServerConfig * bool) :=
  match n with
  | O => []
  | S n => let '(config, reload_error, tls, p) := acceptor tls p in
           (config, is_some reload_error) :: accept_connections n tls p
  end.
End Transport.
Arguments Process : clear implicits.

(** ** [ProxyCertificateAuthority] *)

Definition LEAF_VALIDITY : Z := from_secs (8 * 60 * 60).

Section Authority.
Context {UL : UrlLib} {TL : TlsLib}.

Record ProxyCertificateAuthority := { ca_issuer : Issuer; ca_certificate_pem : bytes }.

(** [certificate] and [private_key] are what [read_to_string] gives for the two paths. *)
Definition ca_load (certificate private_key : option bytes) : result ProxyCertificateAuthority :=
  certificate_pem ← ok_or certificate "read proxy CA certificate {}";
  private_key_pem ← ok_or private_key "read proxy CA private key {}";
  signing_key ← ok_or (key_pair_from_pem private_key_pem) "parse proxy CA private key";
  issuer ← ok_or (issuer_from_ca_cert_pem certificate_pem signing_key) "parse proxy CA certificate";
  Ok {| ca_issuer := issuer; ca_certificate_pem := certificate_pem |}.

Definition validate_leaf_host (host : bytes) : result unit :=
  _ ← with_context (canonical_tunnel_host host)
        "proxy leaf host must be one DNS name without wildcard, port, or IP literal";
  Ok ().

Definition leaf_params (defaults : CertificateParams) (now : Z) : CertificateParams := {|
  subject_alt_names := subject_alt_names defaults; is_ca := false;
  key_usages := [DigitalSignature; KeyEncipherment]; extended_key_usages := [ServerAuth];
  not_before := now - from_secs (5 * 60); not_after := now + LEAF_VALIDITY |}.

(** [now] is the clock and [generated] the outcome of [KeyPair::generate]. *)
Definition issue_server_config (ca : ProxyCertificateAuthority) (host : bytes) (now : Z)
    (generated : option KeyPair) : result ServerConfig :=
  _ ← validate_leaf_host host;
  defaults ← ok_or (params_new [host]) "create proxy leaf certificate parameters";
  let params := leaf_params defaults now in
  signing_key ← ok_or generated "generate proxy leaf private key";
  certificate ← ok_or (signed_by params signing_key (ca_issuer ca)) "sign proxy leaf certificate";
  ok_or (with_single_cert [certificate] (serialize_der signing_key)) "configure proxy TLS leaf".
End Authority.

(** ** Connections *)

Section Connections.
Context {HL : HeaderLib} {UL : UrlLib} {EL : EncodingLib} {JL : JwtLib} {PL : PasswordLib}
  {BL : BackendLib} {WL : WebSocketLib} {TL : TlsLib}.

(** The client's side of TLS and of upgrades *)
Record TlsPeer := {
  key_pair_generate : nat -> option KeyPair;
  tls_accept : nat -> ServerConfig -> bool;
  (** [hyper::upgrade::on], after a 2xx answer *)
  upgrade_on : nat -> bool;
}.

Record ConnectRequest := { cr_method : bytes; cr_uri : Uri; cr_headers : HeaderMap }.
(** What a client sends inside a tunnel, and what happens to the server meanwhile *)
Inductive Moment := Ask (request : TunnelRequest) | Meanwhile (change : ServerData -> ServerData).

Context (env : Outside) (net : Network) (service : Service) (peer : TlsPeer).
#[local] Abbreviation PX := (io ProxyData).

Definition meanwhile (change : ServerData -> ServerData) : PX unit :=
  d ← get_server;
  set_server {| server_data := change (server_data d); contacts := contacts d |}.

(** [serve_connection] on the decrypted stream: a request that upgrades to a
    WebSocket is the last one. *)
Fixpoint serve_requests (route_name token_hash session_id : bytes) (script : list Moment)
    : PX (list Response) :=
  match script with
  | [] => mret []
  | Meanwhile change :: script =>
      _ ← meanwhile change;
      serve_requests route_name token_hash session_id script
  | Ask request :: script =>
      '(r, websocket) ← transparent_tunnel_response env net service request route_name token_hash
                          session_id;
      match websocket with
      | Some _ => mret [r]
      | None =>
          rs ← serve_requests route_name token_hash session_id script;
          mret (r :: rs)
      end
  end.

Definition serve_transparent_tls_tunnel (ca : ProxyCertificateAuthority)
    (route_name host token_hash session_id : bytes) (script : list Moment) : PX (list Response) :=
  now ← system_now env;
  generated ← outside (key_pair_generate peer);
  server_config ← ensure (issue_server_config ca host now generated);
  accepted ← outside (fun n => tls_accept peer n server_config);
  _ ← ensure (bail_if (negb accepted) "accept transparent proxy TLS");
  serve_requests route_name token_hash session_id script.

(** [transparent_connect_response] for each request of a connection.  A 2xx answer
    to CONNECT hands the connection to the spawned task: an intercepted tunnel is
    served, a raw one is copied to the dialled upstream and back. *)
Fixpoint serve_transparent_proxy_connection (catalog : TransparentRouteCatalog)
    (ca : ProxyCertificateAuthority) (requests : list ConnectRequest) (script : list Moment)
    : PX (list Response * list Response) :=
  match requests with
  | [] => mret ([], [])
  | request :: requests =>
      '(r, tunnel) ← transparent_connect_response net service catalog (cr_method request)
                       (cr_uri request) (cr_headers request);
      if (response_status r =? status_ok)%Z then
        upgraded ← outside (upgrade_on peer);
        match tunnel with
        | Some (TlsTunnel name host h i) =>
            if upgraded : bool then
              served ← attempt (serve_transparent_tls_tunnel ca name host h i script);
              mret ([r], match served with Ok rs => rs | Err _ => [] end)
            else mret ([r], [])
        | _ => mret ([r], [])
        end
      else
        '(rs, served) ← serve_transparent_proxy_connection catalog ca requests script;
        mret (r :: rs, served)
  end.

(** A client of the listener: what it asks for, and what it sends in its tunnel *)
Record Client := { client_requests : list ConnectRequest; client_script : list Moment }.

(** The accepted connections of [run_transparent_proxy_listener], with the
    certificate each was offered.  Connections are served one at a time; what the
    others do in between is in the scripts. *)
Fixpoint run_transparent_proxy_listener (install_default : bool)
    (fs_read : nat -> bytes -> option bytes) (catalog : TransparentRouteCatalog)
    (ca : ProxyCertificateAuthority) (clients : list Client) (tls : ReloadingTransportTls)
    (p : Process) : PX (list (ServerConfig * option (list Response * list Response))) :=
  match clients with
  | [] => mret []
  | client :: clients =>
      let '(config, _, tls, p) := acceptor install_default fs_read tls p in
      accepted ← outside (fun n => tls_accept peer n config);
      served ← (if accepted : bool
                then r ← attempt (serve_transparent_proxy_connection catalog ca
                                    (client_requests client) (client_script client));
                     mret (match r with Ok served => Some served | Err _ => None end)
                else mret None);
      rest ← run_transparent_proxy_listener install_default fs_read catalog ca clients tls p;
      mret ((config, served) :: rest)
  end.
End Connections.
