(* ===== verification/TlsProps.v ===== *)
(** TlsProps: the listener's certificate across reloads, the certificates of
    intercepted hosts, and what a whole connection may reach. *)

From Stdlib Require Import Ascii String.
From stdpp Require Import base list strings gmap.
From S2P Require Import Prelude Str BTree External Models Host Redaction Database Store StoreFacts StoreProps Auth Ip Net Policy Request Injection WebSocket Catalog Connector ConnectorFacts Config ConfigFacts Leases LeaseProps Control ServiceFacts Sessions SessionFacts Proxy ProxyFacts ProxyProps Tls.

(** ** The listener's certificate *)

Section TransportFacts.
Context {TL : TlsLib} (install_default : bool) (fs_read : nat -> bytes -> option bytes).

(** A configuration built from a complete pair of files *)
Definition complete_config (config : ServerConfig) : Prop :=
  exists n n' certificate_path private_key_path certificate_pem private_key_pem chain key,
    fs_read n certificate_path = Some certificate_pem
    /\ fs_read n' private_key_path = Some private_key_pem
    /\ certificates_from_pem certificate_pem = Some chain /\ chain <> []
    /\ private_key_from_pem private_key_pem = Some key
    /\ with_single_cert chain key = Some config.

Lemma load_complete certificate_path private_key_path p config p' :
  load_server_config install_default fs_read certificate_path private_key_path p = (Ok config, p') ->
  complete_config config.
Proof.
  unfold load_server_config. destruct (install_rustls_provider _ p) as [[[]|e] p1]; [|done].
  unfold read_file. destruct (fs_read _ certificate_path) as [pem|] eqn:E1; [|done].
  destruct (fs_read _ private_key_path) as [key_pem|] eqn:E2; [|done].
  intros [= H <-]. unfold parse_server_config in H. inv_ok.
  eexists _, _, _, _, pem, key_pem, _, _. split_and!; try done. by destruct x.
Qed.

(** What each of the next [n] connections finds in the files *)
Fixpoint reload_results (n : nat) (certificate_path private_key_path : bytes) (p : Process)
    : list (result ServerConfig) :=
  match n with
  | O => []
  | S n =>
      let '(r, p) := load_server_config install_default fs_read certificate_path private_key_path p in
      r :: reload_results n certificate_path private_key_path p
  end.

(** The reference: the newest configuration that could be loaded, with a report
    where the newest files could not *)
Fixpoint newest_valid (last : ServerConfig) (loads : list (result ServerConfig))
    : list (ServerConfig * bool) :=
  match loads with
  | [] => []
  | Ok config :: loads => (config, false) :: newest_valid config loads
  | Err _ :: loads => (last, true) :: newest_valid last loads
  end.

Lemma accept_newest n tls p : poisoned tls = false ->
  accept_connections install_default fs_read n tls p
  = newest_valid (current tls) (reload_results n (certificate_path tls) (private_key_path tls) p).
Proof.
  revert tls p. induction n as [|n IH]; intros tls p Hp; [done|]. simpl. unfold acceptor.
  destruct (load_server_config _ _ _ _ p) as [[config|e] p']; rewrite ?Hp; simpl; by rewrite IH.
Qed.

Lemma reload_complete n c k p config :
  Ok config ∈ reload_results n c k p -> complete_config config.
Proof.
  revert p. induction n as [|n IH]; intros p; simpl; [by intros ?%list_elem_of_In|].
  destruct (load_server_config _ _ c k p) as [r p'] eqn:E. intros [H|H]%elem_of_cons.
  - subst r. by eapply load_complete.
  - by eapply IH.
Qed.

Lemma newest_complete loads last : complete_config last ->
  (forall config, Ok config ∈ loads -> complete_config config) ->
  Forall (fun used => complete_config used.1) (newest_valid last loads).
Proof.
  revert last. induction loads as [|[config|e] loads IH]; intros last Hl Hall; simpl; constructor.
  - apply Hall. by left.
  - apply IH; [apply Hall; by left|]. intros c Hc. apply Hall. by right.
  - done.
  - apply IH; [done|]. intros c Hc. apply Hall. by right.
Qed.

(** C30: Once the transport certificate has been loaded, every later
    connection is offered the newest configuration that could be loaded, however
    and whenever the files change: a valid replacement is used by the very next
    connection, and a missing, unparsable, empty or mismatched pair is reported
    and leaves the last good configuration in use.  Every configuration offered
    was built from a certificate chain and the key that matches it. *)
Theorem transport_tls_newest_valid c k p tls p' n :
  transport_load install_default fs_read c k p = (Ok tls, p') ->
  accept_connections install_default fs_read n tls p'
    = newest_valid (current tls) (reload_results n c k p')
  /\ Forall (fun used => complete_config used.1)
       (accept_connections install_default fs_read n tls p').
Proof.
  unfold transport_load. destruct (load_server_config _ _ c k p) as [[config|e] q] eqn:E; [|done].
  intros [= <- <-]. rewrite accept_newest by done. split; [done|].
  apply newest_complete; [by eapply load_complete|]. intros config'. apply reload_complete.
Qed.
End TransportFacts.

(** ** Certificates of intercepted hosts *)

Section Confinement.
Context {HL : HeaderLib} {UL : UrlLib} {EL : EncodingLib} {JL : JwtLib} {PL : PasswordLib}
  {BL : BackendLib} {WL : WebSocketLib} {TL : TlsLib}.

(** A leaf of [ca] for [host] alone, for servers only and for a working day *)
Definition leaf_for (ca : ProxyCertificateAuthority) (host : bytes) (now : Z)
    (config : ServerConfig) : Prop :=
  exists params key certificate,
    subject_alt_names params = [host] /\ is_ca params = false
    /\ extended_key_usages params = [ServerAuth]
    /\ (not_before params < now < not_after params)%Z
    /\ (not_after params - now = LEAF_VALIDITY)%Z
    /\ signed_by params key (ca_issuer ca) = Some certificate
    /\ with_single_cert [certificate] (serialize_der key) = Some config.

Lemma issue_leaf {TLL : TlsLaws} ca host now generated config :
  issue_server_config ca host now generated = Ok config ->
  leaf_for ca host now config /\ exists name, canonical_tunnel_host host = Ok name.
Proof.
  unfold issue_server_config, validate_leaf_host. intros H. inv_ok.
  destruct (canonical_tunnel_host host) as [name|] eqn:E; [|done]. split; [|by exists name].
  apply params_new_names in H1. eexists (leaf_params _ now), _, _.
  split_and!; try done; [exact H1|..]; unfold leaf_params, LEAF_VALIDITY, from_secs, NANOS; simpl; lia.
Qed.

(** ** What a connection reaches *)

Context (env : Outside) (net : Network) (service : Service) (peer : TlsPeer).
#[local] Abbreviation PX := (io ProxyData).
#[local] Abbreviation W := (Connector.world ProxyData).
Implicit Types w : W.

(** [asked script w request m]: the tunnel serves [request] when the world is [m]. *)
Inductive asked (route_name h i : bytes) : list Moment -> W -> TunnelRequest -> W -> Prop :=
| asked_now request script w : asked route_name h i (Ask request :: script) w request w
| asked_meanwhile change script w request m :
    asked route_name h i script (meanwhile change w).2 request m ->
    asked route_name h i (Meanwhile change :: script) w request m
| asked_later first script w r w1 request m :
    transparent_tunnel_response env net service first route_name h i w = (Ok (r, None), w1) ->
    asked route_name h i script w1 request m ->
    asked route_name h i (Ask first :: script) w request m.

(** [connecting requests w request m]: the connection asks for [request] when the world is
    [m]; none of its earlier requests was answered with 200. *)
Inductive connecting (catalog : TransparentRouteCatalog)
    : list ConnectRequest -> W -> ConnectRequest -> W -> Prop :=
| connecting_now request requests w : connecting catalog (request :: requests) w request w
| connecting_later first requests w r t w1 request m :
    transparent_connect_response net service catalog (cr_method first) (cr_uri first)
      (cr_headers first) w = (Ok (r, t), w1) ->
    response_status r <> status_ok ->
    connecting catalog requests w1 request m ->
    connecting catalog (first :: requests) w request m.

(** The request [request], made when the world was [m], was answered with 200 and [tunnel],
    which starts at [w']. *)
Definition tunnel_opened (catalog : TransparentRouteCatalog) (request : ConnectRequest) (m : W)
    (tunnel : OpenTunnel) (w' : W) : Prop :=
  exists r, transparent_connect_response net service catalog (cr_method request) (cr_uri request)
              (cr_headers request) m = (Ok (r, Some tunnel), w')
            /\ response_status r = status_ok.

Lemma logs_seq {A B} Q (m : PX A) (f : A -> PX B) w :
  logs (Forall Q) (log w) m w ->
  (forall a w1, m w = (Ok a, w1) -> logs (Forall Q) (log w1) (f a) w1) ->
  logs (Forall Q) (log w) (m ≫= f) w.
Proof.
  intros (new & Hl & HP) Hf. unfold logs, mbind, io_bind.
  destruct (m w) as [[a|e] w1] eqn:E; simpl in Hl; [|by exists new].
  destruct (Hf a w1 eq_refl) as (more & Hm & HQ). exists (new ++ more).
  rewrite Hm, Hl, app_assoc. split; [done|]. by apply Forall_app.
Qed.

Lemma logs_nothing {A} Q (m : PX A) w : silent m -> logs (Forall Q) (log w) m w.
Proof. intros Hm. by apply logs_silent. Qed.

Definition asked_for (route_name h i : bytes) (script : list Moment) w (c : Contact) : Prop :=
  exists rq request m, c = Requested rq /\ asked route_name h i script w request m
    /\ tunnelled_admitted env service m request route_name h i rq.

Lemma logs_weaken {A} (P Q : Contact -> Prop) base (m : PX A) w :
  logs (Forall P) base m w -> (forall c, P c -> Q c) -> logs (Forall Q) base m w.
Proof. intros Hm HPQ. eapply logs_impl; [exact Hm|]. intros new Hn. by eapply Forall_impl. Qed.

Lemma serve_requests_logs route_name h i script w :
  logs (Forall (asked_for route_name h i script w)) (log w)
    (serve_requests env net service route_name h i script) w.
Proof.
  revert w. induction script as [|[request|change] script IH]; intros w.
  - by apply logs_nothing.
  - simpl. apply logs_seq.
    + eapply logs_impl; [apply tunnelled_logs|]. intros new [->|(rq & -> & H)]; [constructor|].
      repeat constructor. exists rq, request, w. split_and!; [done|constructor|done].
    + intros [r [relay|]] w1 E; [by apply logs_nothing|]. apply logs_then; [|done].
      eapply logs_weaken; [apply IH|]. intros c (rq & rq' & m & -> & Ha & Hq).
      exists rq, rq', m. split_and!; [done|by eapply asked_later|done].
  - change (serve_requests env net service route_name h i (Meanwhile change :: script))
      with (meanwhile change ≫= fun _ => serve_requests env net service route_name h i script).
    apply logs_seq; [by apply logs_nothing|]. intros [] w1 E.
    eapply logs_weaken; [apply IH|]. intros c (rq & rq' & m & -> & Ha & Hq).
    exists rq, rq', m. split_and!; [done| |done]. constructor. by rewrite E.
Qed.

(** The certificate made at the n-th answer of the outside, with which the client
    completed its handshake *)
Definition offered (ca : ProxyCertificateAuthority) (host : bytes) (n : nat) (config : ServerConfig)
    : Prop :=
  leaf_for ca host (system_time env n) config /\ tls_accept peer (S (S n)) config = true.

Lemma serve_tunnel_logs {TLL : TlsLaws} ca name host h i script w :
  logs (Forall (fun c => (exists config, offered ca host (calls w) config)
                         /\ asked_for name h i script (tick (tick (tick w))) c)) (log w)
    (serve_transparent_tls_tunnel env net service peer ca name host h i script) w.
Proof.
  unfold serve_transparent_tls_tunnel.
  apply logs_seq; [by apply logs_nothing|]. intros now w1 [= <- <-].
  apply logs_seq; [by apply logs_nothing|]. intros generated w2 [= <- <-].
  destruct (issue_server_config ca host _ _) as [config|] eqn:E;
    [|by apply logs_nothing]. apply issue_leaf in E as [Hleaf _].
  apply logs_seq; [by apply logs_nothing|]. intros config' w3 [= <- <-].
  apply logs_seq; [by apply logs_nothing|]. intros accepted w4 [= Ha <-].
  apply logs_seq; [by apply logs_nothing|]. intros [] w5 [Hb ->]%io_ensure_ok.
  apply bail_if_ok, negb_false_iff in Hb. subst accepted.
  eapply logs_weaken; [apply serve_requests_logs|]. intros c Hc. split; [by exists config|done].
Qed.

(** An address dialled for a raw tunnel the client asked for, when its session was live and
    granted *)
Definition dialled_for (catalog : TransparentRouteCatalog) (requests : list ConnectRequest) w
    (c : Contact) : Prop :=
  exists request m ac session a, c = Dialed a /\ connecting catalog requests w request m
    /\ authorize_connect_request (cr_method request) (cr_uri request) (cr_headers request) catalog
       = Ok ac
    /\ tunnel_authorised m ac session (RawTunnel a).

(** A request sent for one the client made inside an intercepted tunnel *)
Definition requested_for (catalog : TransparentRouteCatalog) (ca : ProxyCertificateAuthority)
    (requests : list ConnectRequest) (script : list Moment) w (c : Contact) : Prop :=
  exists rq request m ac session name host h i w1 config ask m', c = Requested rq
    /\ connecting catalog requests w request m
    /\ tunnel_opened catalog request m (TlsTunnel name host h i) w1
    /\ authorize_connect_request (cr_method request) (cr_uri request) (cr_headers request) catalog
       = Ok ac
    /\ tunnel_authorised m ac session (TlsTunnel name host h i)
    /\ offered ca host (S (calls w1)) config
    /\ asked name h i script (tick (tick (tick (tick w1)))) ask m'
    /\ tunnelled_admitted env service m' ask name h i rq.

Lemma connection_logs {TLL : TlsLaws} catalog ca requests script w :
  logs (Forall (fun c => dialled_for catalog requests w c
                         \/ requested_for catalog ca requests script w c)) (log w)
    (serve_transparent_proxy_connection env net service peer catalog ca requests script) w.
Proof.
  revert w. induction requests as [|request requests IH]; intros w; [by apply logs_nothing|].
  simpl. apply logs_seq.
  - eapply logs_weaken; [apply connect_logs|].
    intros c (a & ac & session & -> & Hac & Ha). left.
    exists request, w, ac, session, a. split_and!; try done. constructor.
  - intros [r tunnel] w1 E. destruct (response_status r =? status_ok)%Z eqn:Est.
    + apply Z.eqb_eq in Est. apply logs_seq; [by apply logs_nothing|]. intros upgraded w2 [= _ <-].
      destruct tunnel as [[name host h i|address]|]; [|by apply logs_nothing..].
      destruct upgraded; [|by apply logs_nothing]. apply logs_then; [|done].
      apply logs_attempt. eapply logs_weaken; [apply serve_tunnel_logs|].
      intros c [[config Hleaf] (rq & ask & m' & -> & Hasked & Hadm)]. right.
      destruct (connect_ok _ _ _ _ _ _ _ _ _ _ E) as (ac & session & Hac & Hauth & _).
      exists rq, request, w, ac, session, name, host, h, i, w1, config, ask, m'.
      split_and!; try done; [constructor|by exists r].
    + apply Z.eqb_neq in Est. apply logs_then; [|by intros []]. eapply logs_weaken; [apply IH|].
      intros c [(rq & m & ac & session & a & -> & Hin & H)|H]; [left|right].
      * exists rq, m, ac, session, a. split; [done|]. split; [by eapply connecting_later|done].
      * destruct H as (rq & rq0 & m & ac & session & name & host & h & i & w2 & config & ask & m'
          & -> & Hc & H). exists rq, rq0, m, ac, session, name, host, h, i, w2, config, ask, m'.
        split; [done|]. split; [by eapply connecting_later|done].
Qed.

(** *** The host of a tunnel *)

Lemma authorised_destination method uri headers catalog ac :
  authorize_connect_request method uri headers catalog = Ok ac ->
  bt_get (destinations_by_host catalog) (connect_host ac) = Some (destination ac).
Proof.
  unfold authorize_connect_request. intros H. inv_ok. by subst ac.
Qed.

(** [rq] goes to port 443 of [host] over TLS, the origin [route] is configured with. *)
Definition sent_to_host (route : ProxyRouteConfig) (host : bytes) (rq : UpstreamRequest) : Prop :=
  exists base text, url_parse (base_url route) = Some base
    /\ url_scheme base = &"https" /\ url_port_or_known_default base = Some 443%Z
    /\ url_host_str base = Some text /\ canonical_dns_host text = Ok host
    /\ url_origin (ur_target rq) = url_origin base.

Lemma admitted_origin {UW : UrlLaws} m ask name h i rq route :
  tunnelled_admitted env service m ask name h i rq ->
  bt_get (cfg_proxy_routes (service_config service)) name = Some route ->
  exists base, url_parse (base_url route) = Some base /\ url_origin (ur_target rq) = url_origin base.
Proof.
  intros (session & route' & body & v & _ & _ & Hr & _ & _ & _ & _ & _ & Hrq) Hr'.
  assert (route' = route) as -> by congruence.
  assert (build_target_url route v = Ok (ur_target rq)) as Hb.
  { by destruct Hrq as [(? & ? & ? & ? & ? & ? & ? & ?)|[(? & ? & ? & ? & ? & ? & ? & ? & ? & ? & _) _]]. }
  apply build_target_url_origin in Hb as (base & Hbase & Ho & _). by exists base.
Qed.

Lemma tunnel_host {UW : UrlLaws} catalog method uri headers ac m session name host h i m' ask rq :
  from_config (cfg_proxy_routes (service_config service)) (cfg_proxy_tunnels (service_config service))
    = Ok catalog ->
  bt_wf (cfg_proxy_routes (service_config service)) ->
  authorize_connect_request method uri headers catalog = Ok ac ->
  tunnel_authorised m ac session (TlsTunnel name host h i) ->
  tunnelled_admitted env service m' ask name h i rq ->
  exists route, bt_get (cfg_proxy_routes (service_config service)) name = Some route
    /\ sent_to_host route host rq.
Proof.
  intros Hcat%from_config_ok Hwf Hac (_ & _ & _ & Hd & -> & _) Hadm.
  apply authorised_destination in Hac. rewrite Hd in Hac. apply Hcat in Hac.
  destruct Hac as [((n & route) & Hin & Hroute)|(? & _ & _ & ?)]; [|done].
  destruct Hroute as (url & text & Hu & Hs & Hp & Ht & Hc & [= <- _]). simpl in *.
  apply bt_elem_get in Hin; [|done]. exists route. split; [done|].
  destruct (admitted_origin _ _ _ _ _ _ _ Hadm Hin) as (base & Hb & Ho).
  assert (base = url) as -> by congruence. by exists url, text.
Qed.

(** C3: Whatever a client of the transparent listener asks for and sends, and
    whatever happens to the server in the meantime, everything a whole connection
    reaches is accounted for.  An address is dialled only for a CONNECT that carries a
    session which is live and granted at that moment, and that the catalog binds to a
    raw tunnel of the session's profile whose policy allows the address.  A request is
    sent only after a CONNECT with a live and granted session was answered with 200; the
    client has completed a handshake with a certificate made for exactly the host it
    asked for; at the
    moment of the request the same session is still live and granted for the
    route; and the request goes to port 443 of that same host. *)
Theorem transparent_connection_confined {UW : UrlLaws} {TLL : TlsLaws} catalog ca requests script w :
  from_config (cfg_proxy_routes (service_config service)) (cfg_proxy_tunnels (service_config service))
    = Ok catalog ->
  bt_wf (cfg_proxy_routes (service_config service)) ->
  exists new,
    log (serve_transparent_proxy_connection env net service peer catalog ca requests script w).2
      = log w ++ new
    /\ Forall (fun c => dialled_for catalog requests w c
         \/ exists rq request m ac session name host h i w1 config ask m' route, c = Requested rq
            /\ connecting catalog requests w request m
            /\ tunnel_opened catalog request m (TlsTunnel name host h i) w1
            /\ authorize_connect_request (cr_method request) (cr_uri request) (cr_headers request)
                 catalog = Ok ac
            /\ tunnel_authorised m ac session (TlsTunnel name host h i)
            /\ offered ca host (S (calls w1)) config
            /\ asked name h i script (tick (tick (tick (tick w1)))) ask m'
            /\ tunnelled_admitted env service m' ask name h i rq
            /\ bt_get (cfg_proxy_routes (service_config service)) name = Some route
            /\ sent_to_host route host rq) new.
Proof.
  intros Hcat Hwf. destruct (connection_logs catalog ca requests script w) as (new & Hl & Hnew).
  exists new. split; [done|]. eapply Forall_impl; [exact Hnew|]. intros c [H|H]; [by left|right].
  destruct H as (rq & request & m & ac & session & name & host & h & i & w1 & config & ask & m'
    & -> & Hc & Hop & Hac & Hauth & Hleaf & Hask & Hadm).
  destruct (tunnel_host _ _ _ _ _ _ _ _ _ _ _ _ _ _ Hcat Hwf Hac Hauth Hadm) as (route & Hr & Hs).
  exists rq, request, m, ac, session, name, host, h, i, w1, config, ask, m', route. done.
Qed.
End Confinement.

(** ** Concrete runs *)

Module TlsModels.
Import Models AuthModels ConnectorModels LeaseModels ConfigModels SessionModels ProxyModels.

(** A certificate is the names it is for and the key it was made with. *)
#[export] Instance tls : TlsLib := {
  Certificate := list bytes * bytes; PrivateKey := bytes; ServerConfig := list bytes * bytes;
  KeyPair := bytes; Issuer := bytes;
  certificates_from_pem pem := match split "|" pem with
                               | [name; key] => Some [([name], key)]
                               | [[]] => Some []
                               | _ => None
                               end;
  private_key_from_pem pem := if contains "|" pem then None else Some pem;
  with_single_cert chain key := match chain with
                                | (names, key') :: _ =>
                                    if bool_decide (key = key') then Some (names, key) else None
                                | [] => None
                                end;
  key_pair_from_pem pem := Some pem;
  issuer_from_ca_cert_pem _ key := Some key;
  params_new names := Some {| subject_alt_names := names; is_ca := true; key_usages := [];
                              extended_key_usages := []; not_before := 0; not_after := 0 |};
  serialize_der key := key;
  signed_by params key _ := Some (subject_alt_names params, key);
}.
#[export] Instance tls_laws : TlsLaws.
Proof. by intros names params [= <-]. Qed.

(** The files change between the reads of the certificate and of the key. *)
Definition half_way (n : nat) (path : bytes) : option bytes :=
  if bool_decide (path = &"tls.crt")
  then Some (if (n <? 2)%nat then &"old.example.test|k1" else &"new.example.test|k2")
  else Some (if (n <? 4)%nat then &"k1" else &"k2").
Definition fresh : Process := {| provider := None; reads := 0 |}.
Definition old_config : ServerConfig := ([&"old.example.test"], &"k1").
Definition new_config : ServerConfig := ([&"new.example.test"], &"k2").
Definition reloader : ReloadingTransportTls := {|
  certificate_path := &"tls.crt"; private_key_path := &"tls.key"; current := old_config;
  poisoned := false |}.
Definition ready : Process := {| provider := Some (Ok ()); reads := 2 |}.

Example update_half_way :
  accept_connections true half_way 2 reloader ready = [(old_config, true); (new_config, false)].
Proof. vm_compute. reflexivity. Qed.

Lemma transport_tls_newest_valid_witness :
  Forall (fun used => complete_config half_way used.1)
    (accept_connections true half_way 2 reloader ready).
Proof.
  apply (transport_tls_newest_valid true half_way &"tls.crt" &"tls.key" fresh reloader ready 2).
  vm_compute. reflexivity.
Defined.

Definition intercepting : Config := with_routes leased_config [(&"items", api_route Buffered)].
Definition tls_service : Service := {|
  service_config := intercepting; service_connectors := [(&"bao", ConnectorModels.bao)];
  service_auth := authenticator; transparent_proxy := None; backend := Postgres |}.
Definition tls_catalog : TransparentRouteCatalog :=
  match from_config (cfg_proxy_routes intercepting) (cfg_proxy_tunnels intercepting) with
  | Ok catalog => catalog
  | Err _ => {| destinations_by_host := [] |}
  end.
Definition authority : ProxyCertificateAuthority := {|
  ca_issuer := &"ca-key"; ca_certificate_pem := &"PEM" |}.
Definition friendly : TlsPeer := {|
  key_pair_generate _ := Some &"leaf-key";
  tls_accept _ config := bool_decide (config.1 = [&"api.example.test"]); upgrade_on _ := true |}.
Definition api_connect (token : bytes) : ConnectRequest := {|
  cr_method := &"CONNECT";
  cr_uri := {| uri_scheme := None; uri_authority := Some &"api.example.test:443";
               uri_path := []; uri_query := None |};
  cr_headers := [(&"host", &"api.example.test:443"); (&"proxy-authorization", &"Bearer " ++ token)] |}.

(** The session is revoked between the first and the second request of the tunnel. *)
Definition revoke (d : ServerData) : ServerData :=
  {| active := active d;
     database := {| tables := granted_tables; clock := clock (database d);
                    outcomes := outcomes (database d) |};
     keys := keys d |}.
Definition browsing := serve_transparent_proxy_connection (outside_world 200) network tls_service
  friendly tls_catalog authority [api_connect &"wrong"; api_connect &"abc"]
  [Ask inner_request; Meanwhile revoke; Ask inner_request] (proxy_world session_tables).

Example browsing_answers :
  match browsing.1 with
  | Ok (connects, served) => (response_status <$> connects, response_status <$> served)
  | Err _ => ([], [])
  end = ([407; 200], [200; 407])%Z /\ length (log browsing.2) = 1.
Proof. vm_compute. done. Qed.

Lemma transparent_connection_confined_witness :
  exists new, log browsing.2 = [] ++ new
    /\ Forall (fun c => dialled_for network tls_service tls_catalog
                          [api_connect &"wrong"; api_connect &"abc"] (proxy_world session_tables) c
         \/ exists rq route host, c = Requested rq /\ sent_to_host route host rq) new.
Proof.
  destruct (transparent_connection_confined (outside_world 200) network tls_service friendly tls_catalog
    authority [api_connect &"wrong"; api_connect &"abc"]
    [Ask inner_request; Meanwhile revoke; Ask inner_request] (proxy_world session_tables))
    as (new & Hl & Hnew).
  - vm_compute. reflexivity.
  - repeat constructor.
  - exists new. split; [exact Hl|]. eapply Forall_impl; [exact Hnew|].
    intros c [H|(rq & _ & _ & _ & _ & _ & host & _ & _ & _ & _ & _ & _ & route & Hc & _ & _ & _ & _
      & _ & _ & _ & _ & Hs)]; [left; exact H|right].
    exists rq, route, host. split; [exact Hc|exact Hs].
Defined.
End TlsModels.
