(* ===== verification/Pool.v ===== *)
(** Pool: how src/store.rs opens the managed database and rotates its
    PostgreSQL credentials ([Store::connect], [read_database_credentials],
    [ReloadablePostgres] and the credential reloader).

    sqlx's connection and the JSON decoder are parameters; what the store does
    once connected is Store.v's [connect].  A pool is known by what it was opened
    with; [closed] lists the pools handed to [close]. *)

From Stdlib Require Import Ascii String.
From stdpp Require Import base list strings gmap.
From S2P Require Import Prelude Str BTree External Models Database Store Connector Config.

Record DatabaseCredentials := { db_username : bytes; db_password : bytes }.
(** [PgConnectOptions] as far as the source sets it *)
Record PgConnectOptions := {
  opt_host : bytes; opt_port : Z; opt_database : bytes; opt_username : bytes; opt_password : bytes;
  opt_ssl_mode : ManagedPostgresSslMode }.
(** [pool_role] is the statement every connection of the pool runs first. *)
Record PgPool := { pool_number : nat; pool_options : PgConnectOptions; pool_role : bytes }.

Definition postgres_connect_options (postgres : ManagedPostgresConfig)
    (credentials : DatabaseCredentials) : PgConnectOptions := {|
  opt_host := pg_host postgres; opt_port := pg_port postgres; opt_database := pg_database postgres;
  opt_username := db_username credentials; opt_password := db_password credentials;
  opt_ssl_mode := pg_ssl_mode postgres |}.

Section Pool.
Context {EL : EncodingLib}.
(** [serde_json::from_slice] into [DatabaseCredentials] *)
Context (decode_credentials : bytes -> option DatabaseCredentials).
(** The n-th attempt to open a pool and run [SELECT 1] on it *)
Context (dial : nat -> PgConnectOptions -> bytes -> bool).

(** [file] is what reading the path gave. *)
Definition read_database_credentials (file : option bytes) : result (DatabaseCredentials * bytes) :=
  bytes ← ok_or file "read managed database credential file {}";
  _ ← bail_if (is_empty bytes || (64 * 1024 <? len bytes)%Z)
        "managed database credential file must be non-empty and at most 64 KiB";
  credentials ← ok_or (decode_credentials bytes) "parse managed database credential JSON";
  _ ← bail_if (is_empty (db_username credentials) || (1024 <? len (db_username credentials))%Z
               || any_control (db_username credentials)
               || is_empty (db_password credentials)
               || (16 * 1024 <? len (db_password credentials))%Z)
        "managed database credentials contain invalid bounded fields";
  Ok (credentials, sha256_digest bytes).

Definition read_database_url (file : option bytes) : result bytes :=
  value ← ok_or file "read managed database URL file {}";
  let value := trim value in
  _ ← bail_if (is_empty value || contains (ascii_of_nat 13) value || contains (ascii_of_nat 10) value)
        "managed database URL file must contain one non-empty URL";
  Ok value.

Definition connect_postgres_with_credentials (n : nat) (postgres : ManagedPostgresConfig)
    (credentials : DatabaseCredentials) : result PgPool :=
  let options := postgres_connect_options postgres credentials in
  let role_statement := &"SET ROLE " ++ pg_role postgres in
  _ ← bail_if (negb (dial n options role_statement)) "connect";
  Ok {| pool_number := n; pool_options := options; pool_role := role_statement |}.

Definition connect_postgres_credentials (n : nat) (managed : ManagedConfig) (file : option bytes)
    : result (PgPool * bytes) :=
  postgres ← ok_or (postgres managed) "managed PostgreSQL connection metadata is missing";
  '(credentials, fingerprint) ← read_database_credentials file;
  pool ← connect_postgres_with_credentials n postgres credentials;
  Ok (pool, fingerprint).

(** ** [ReloadablePostgres] *)

Record ReloadablePostgres := {
  current : PgPool; credential_fingerprint : option bytes; generation : Z; closed : list PgPool }.

Definition reloadable_new (pool : PgPool) (fingerprint : option bytes) : ReloadablePostgres := {|
  current := pool; credential_fingerprint := fingerprint; generation := 1; closed := [] |}.

(** One tick of the reloader, the n-th attempt, on what it reads *)
Definition reload_tick (managed : ManagedConfig) (n : nat) (file : option bytes)
    (database : ReloadablePostgres) : ReloadablePostgres :=
  match read_database_credentials file with
  | Err _ => database
  | Ok (credentials, fingerprint) =>
      if bool_decide (credential_fingerprint database = Some fingerprint) then database
      else
        match postgres managed with
        | None => database
        | Some postgres =>
            match connect_postgres_with_credentials n postgres credentials with
            | Err _ => database
            | Ok replacement =>
                {| current := replacement; credential_fingerprint := Some fingerprint;
                   generation := (generation database + 1) mod 2 ^ 64;
                   closed := closed database ++ [current database] |}
            end
        end
  end.

Fixpoint run_reloader (managed : ManagedConfig) (n : nat) (ticks : list (option bytes))
    (database : ReloadablePostgres) : ReloadablePostgres :=
  match ticks with
  | [] => database
  | file :: ticks => run_reloader managed (S n) ticks (reload_tick managed n file database)
  end.

(** ** [Store::connect] *)

Inductive StorePool := PostgresPool (database : ReloadablePostgres) | SqlitePool (url : bytes).
Definition store_backend (s : StorePool) : Backend :=
  match s with PostgresPool _ => Postgres | SqlitePool _ => Sqlite end.

(** [url_pool]: opening the pool of a PostgreSQL URL, or of a SQLite URL once its
    options have been parsed *)
Definition open_store (url_pool : bytes -> option PgPool) (sqlite_pool : bytes -> bool)
    (credentials_file url_file : option bytes) (managed : ManagedConfig) : result StorePool :=
  if negb (is_empty (database_credentials_file managed)) then
    '(pool, fingerprint) ← with_context (connect_postgres_credentials 0 managed credentials_file)
                             "connect managed PostgreSQL database";
    Ok (PostgresPool (reloadable_new pool (Some fingerprint)))
  else
    url ← read_database_url url_file;
    if starts_with &"postgres://" url || starts_with &"postgresql://" url then
      pool ← ok_or (url_pool url) "connect managed PostgreSQL database";
      Ok (PostgresPool (reloadable_new pool None))
    else if starts_with &"sqlite:" url then
      _ ← bail_if (negb (sqlite_pool url)) "connect managed SQLite database";
      Ok (SqlitePool url)
    else Err "managed database URL must use postgres://, postgresql://, or sqlite:".

(** Whether the credential reloader was started is part of the result. *)
Definition store_connect (url_pool : bytes -> option PgPool) (sqlite_pool : bytes -> bool)
    (credentials_file url_file : option bytes) (managed : ManagedConfig) : DB (StorePool * bool) :=
  store ← lift (open_store url_pool sqlite_pool credentials_file url_file managed);
  _ ← connect (store_backend store) (initial_owner_oidc_subject managed);
  if (0 <? database_reload_interval_seconds managed)%Z then
    match store with
    | PostgresPool _ => mret (store, true)
    | SqlitePool _ => lift (Err "managed database hot reload is supported only for PostgreSQL")
    end
  else mret (store, false).
End Pool.
