(* ===== verification/PoolProps.v ===== *)
(** PoolProps: rotation of the database credentials, and what [Store::connect]
    does with a validated configuration. *)

From Stdlib Require Import Ascii String.
From stdpp Require Import base list strings gmap.
From S2P Require Import Prelude Str BTree External Models Database Store StoreFacts StoreProps Auth Connector Config ConfigFacts Pool.

Section PoolFacts.
Context {EL : EncodingLib}.
Context (decode_credentials : bytes -> option DatabaseCredentials).
Context (dial : nat -> PgConnectOptions -> bytes -> bool).
#[local] Abbreviation read := (read_database_credentials decode_credentials).
#[local] Abbreviation tick := (reload_tick decode_credentials dial).
#[local] Abbreviation run := (run_reloader decode_credentials dial).

(** [pool] is the n-th attempt, opened with the credentials of [file]. *)
Definition opened_with (managed : ManagedConfig) (n : nat) (file : option bytes) (pool : PgPool)
    (fingerprint : bytes) : Prop :=
  exists postgres credentials,
    Config.postgres managed = Some postgres /\ read file = Ok (credentials, fingerprint)
    /\ dial n (postgres_connect_options postgres credentials) (&"SET ROLE " ++ pg_role postgres) = true
    /\ pool = {| pool_number := n; pool_options := postgres_connect_options postgres credentials;
                 pool_role := &"SET ROLE " ++ pg_role postgres |}.

(** The n-th attempt offers nothing to replace the pool with. *)
Definition nothing_newer (managed : ManagedConfig) (n : nat) (file : option bytes)
    (fingerprint : option bytes) : Prop :=
  forall pool fresh, opened_with managed n file pool fresh -> fingerprint = Some fresh.

Lemma tick_cases managed n file d :
  tick managed n file d = d
    /\ nothing_newer managed n file (credential_fingerprint d)
  \/ exists pool fingerprint, opened_with managed n file pool fingerprint
     /\ credential_fingerprint d <> Some fingerprint
     /\ tick managed n file d
        = {| current := pool; credential_fingerprint := Some fingerprint;
             generation := (generation d + 1) mod 2 ^ 64; closed := closed d ++ [current d] |}.
Proof.
  unfold reload_tick, nothing_newer, opened_with.
  destruct (read file) as [[credentials fingerprint]|e] eqn:Er;
    [|left; split; [done|]; naive_solver].
  case_bool_decide as Hf.
  { left. split; [done|]. intros pool fresh (pg & cr & _ & [= <- <-] & _). done. }
  destruct (Config.postgres managed) as [pg|]; [|left; split; [done|]; naive_solver].
  unfold connect_postgres_with_credentials.
  destruct (dial n _ _) eqn:Ed; simpl.
  - right. eexists _, fingerprint. split; [by exists pg, credentials|done].
  - left. split; [done|]. intros pool fresh (pg' & cr & [= <-] & [= <- <-] & Hd & _).
    exact (False_ind _ (eq_true_false_abs _ Hd Ed)).
Qed.

Lemma run_snoc managed ticks n file d :
  run managed n (ticks ++ [file]) d = tick managed (n + length ticks) file (run managed n ticks d).
Proof.
  revert n d. induction ticks as [|f ticks IH]; intros n d; simpl; [by rewrite Nat.add_0_r|].
  rewrite IH. by rewrite Nat.add_succ_r.
Qed.

(** The pools in use, one after every tick *)
Fixpoint in_use managed n (ticks : list (option bytes)) d : list PgPool :=
  Pool.current d :: match ticks with
                    | [] => []
                    | file :: ticks => in_use managed (S n) ticks (tick managed n file d)
                    end.
(** Those that gave way to another *)
Fixpoint left_behind (pools : list PgPool) : list PgPool :=
  match pools with
  | p :: ((q :: _) as rest) =>
      if bool_decide (pool_number p = pool_number q) then left_behind rest else p :: left_behind rest
  | _ => []
  end.

Lemma in_use_snoc managed n ticks file d :
  in_use managed n (ticks ++ [file]) d
  = in_use managed n ticks d ++ [Pool.current (run managed n (ticks ++ [file]) d)].
Proof. revert n d. induction ticks as [|f ticks IH]; intros n d; simpl; [done|]. by rewrite IH. Qed.
Lemma in_use_last managed n ticks d : exists before,
  in_use managed n ticks d = before ++ [Pool.current (run managed n ticks d)].
Proof.
  destruct ticks as [|file ticks _] using rev_ind; [by exists []|]. rewrite in_use_snoc. by eexists.
Qed.
Lemma left_behind_snoc pools p q :
  left_behind (pools ++ [p; q])
  = left_behind (pools ++ [p]) ++ if bool_decide (pool_number p = pool_number q) then [] else [p].
Proof.
  induction pools as [|x [|y pools] IH]; [by simpl; repeat case_bool_decide..|].
  cbn [app left_behind] in *. rewrite IH. by destruct (bool_decide (pool_number x = _)).
Qed.
Lemma left_behind_run managed n ticks file d :
  let p := Pool.current (run managed n ticks d) in
  let q := Pool.current (run managed n (ticks ++ [file]) d) in
  left_behind (in_use managed n (ticks ++ [file]) d)
  = left_behind (in_use managed n ticks d)
    ++ if bool_decide (pool_number p = pool_number q) then [] else [p].
Proof.
  cbv zeta. rewrite in_use_snoc. destruct (in_use_last managed n ticks d) as [before ->].
  rewrite <- app_assoc. apply left_behind_snoc.
Qed.

(** Where the pool in use comes from *)
Definition newest_pool managed n (ticks : list (option bytes)) d0 d : Prop :=
  (d = d0 /\ forall j file, ticks !! j = Some file ->
     nothing_newer managed (n + j) file (credential_fingerprint d))
  \/ exists i file fingerprint, ticks !! i = Some file
     /\ opened_with managed (n + i) file (Pool.current d) fingerprint
     /\ credential_fingerprint d = Some fingerprint
     /\ forall j later, i < j -> ticks !! j = Some later ->
          nothing_newer managed (n + j) later (Some fingerprint).

Record rotated managed n ticks d0 d (replaced : list PgPool) : Prop := {
  rot_closed : closed d = closed d0 ++ replaced;
  rot_distinct : NoDup (pool_number <$> replaced ++ [Pool.current d]);
  rot_before : Forall (fun p => pool_number p < n + length ticks) (replaced ++ [Pool.current d]);
  rot_generation : (generation d mod 2 ^ 64
                    = (generation d0 + Z.of_nat (length replaced)) mod 2 ^ 64)%Z;
  rot_newest : newest_pool managed n ticks d0 d }.

Lemma lookup_snoc_inv {A} (xs : list A) x j y :
  (xs ++ [x]) !! j = Some y -> xs !! j = Some y \/ j = length xs /\ y = x.
Proof.
  intros [H|[Hl H]]%lookup_app_Some; [by left|right].
  apply list_lookup_singleton_Some in H as [Hj ->]. split; [lia|done].
Qed.

Lemma newest_keep managed n ticks d0 d file :
  newest_pool managed n ticks d0 d ->
  nothing_newer managed (n + length ticks) file (credential_fingerprint d) ->
  newest_pool managed n (ticks ++ [file]) d0 d.
Proof.
  intros [[-> H]|(i & f & fp & Hi & Ho & Hfp & H)] Hn; [left|right].
  - split; [done|]. intros j later [Hj|[-> ->]]%lookup_snoc_inv; [by apply H|done].
  - exists i, f, fp. split_and!; [by apply lookup_app_l_Some|done|done|].
    intros j later Hij [Hj|[-> ->]]%lookup_snoc_inv; [by apply H|]. by rewrite <- Hfp.
Qed.

Lemma rotated_keep managed n ticks d0 d replaced file :
  rotated managed n ticks d0 d replaced ->
  nothing_newer managed (n + length ticks) file (credential_fingerprint d) ->
  rotated managed n (ticks ++ [file]) d0 d replaced.
Proof.
  intros [H1 H2 H3 H4 H5] Hn. split; try done; [|by apply newest_keep].
  eapply Forall_impl; [exact H3|]. intros p Hp. rewrite length_app. simpl. simpl in Hp. lia.
Qed.

Lemma rotated_replace managed n ticks d0 d replaced file pool fingerprint :
  rotated managed n ticks d0 d replaced ->
  opened_with managed (n + length ticks) file pool fingerprint ->
  rotated managed n (ticks ++ [file]) d0
    {| current := pool; credential_fingerprint := Some fingerprint;
       generation := (generation d + 1) mod 2 ^ 64; closed := closed d ++ [Pool.current d] |}
    (replaced ++ [Pool.current d]).
Proof.
  intros [H1 H2 H3 H4 H5] Ho.
  assert (pool_number pool = n + length ticks) as Hp by (by destruct Ho as (? & ? & _ & _ & _ & ->)).
  split; simpl.
  - by rewrite H1, app_assoc.
  - rewrite fmap_app. apply NoDup_app. split_and!; [done| |apply NoDup_singleton].
    intros k (p & -> & Hin)%list_elem_of_fmap Hk. apply list_elem_of_singleton in Hk.
    rewrite Forall_forall in H3. specialize (H3 p Hin). simpl in H3. lia.
  - apply Forall_app. rewrite length_app. simpl. split.
    + eapply Forall_impl; [exact H3|]. simpl. intros p Hlt. lia.
    + repeat constructor. lia.
  - rewrite Zmod_mod, length_app, Nat2Z.inj_add. simpl (Z.of_nat (length [_])).
    rewrite Z.add_assoc, <- Zplus_mod_idemp_l, H4. by rewrite Zplus_mod_idemp_l.
  - right. exists (length ticks), file, fingerprint.
    split_and!; [by rewrite list_lookup_middle|done|done|].
    intros j later Hj [H|[-> _]]%lookup_snoc_inv; [|lia]. apply lookup_lt_Some in H. lia.
Qed.

(** C29: Through any sequence of reloads, whatever the credential file
    holds and whichever connections fail, the pool in use is the one it started
    with or the one opened with the newest credentials that were valid and could
    connect, and the fingerprint is theirs; every pool that gave way to another has
    been closed, once, in the order in which they were in use, nothing else has, and
    the pool in use never is; the generation counts these replacements. *)
Theorem credential_rotation managed n ticks d0 :
  pool_number (Pool.current d0) < n ->
  rotated managed n ticks d0 (run managed n ticks d0) (left_behind (in_use managed n ticks d0)).
Proof.
  intros Hn. induction ticks as [|file ticks IH] using rev_ind.
  - split; simpl; [by rewrite app_nil_r|apply NoDup_singleton|repeat constructor; lia
      |by rewrite Z.add_0_r|by left].
  - rewrite left_behind_run, run_snoc.
    destruct (tick_cases managed (n + length ticks) file (run managed n ticks d0))
      as [[-> H]|(pool & fp & Ho & _ & ->)].
    + rewrite bool_decide_eq_true_2, app_nil_r by done. by apply rotated_keep.
    + rewrite bool_decide_eq_false_2; [by eapply rotated_replace|].
      destruct Ho as (? & ? & _ & _ & _ & ->). simpl. destruct IH as [_ _ Hb _ _].
      apply Forall_app in Hb as [_ Hb]. inversion Hb; subst. lia.
Qed.
End PoolFacts.

(** ** A concrete rotation *)

Module PoolModels.
Import Models.

Definition decode (file : bytes) : option DatabaseCredentials :=
  Some {| db_username := file; db_password := &"p" |}.
Definition managed : ManagedConfig := {|
  database_url_file := []; database_credentials_file := &"/etc/av/credentials";
  postgres := Some {| pg_host := &"db"; pg_port := 5432; pg_database := &"av"; pg_ssl_mode := VerifyFull;
                      pg_role := &"av_owner" |};
  database_reload_interval_seconds := 30; initial_owner_oidc_subject := &"owner" |}.
(** The user [ben] cannot connect. *)
Definition dial (n : nat) (options : PgConnectOptions) (role : bytes) : bool :=
  negb (bool_decide (opt_username options = &"ben")).
Definition first_pool : PgPool := {|
  pool_number := 0; pool_role := &"SET ROLE av_owner";
  pool_options := {| opt_host := &"db"; opt_port := 5432; opt_database := &"av";
    opt_username := &"ann"; opt_password := &"p"; opt_ssl_mode := VerifyFull |} |}.
Definition first : ReloadablePostgres := reloadable_new first_pool (Some (sha256_digest &"ann")).
Definition ticks : list (option bytes) :=
  [Some &"ann"; None; Some &"ben"; Some &"cat"; Some []; Some &"cat"].
Definition rotating : ReloadablePostgres := run_reloader decode dial managed 1 ticks first.

Example rotates_once : pool_number (Pool.current rotating) = 4 /\ closed rotating = [first_pool]
  /\ generation rotating = 2%Z /\ opt_username (pool_options (Pool.current rotating)) = &"cat".
Proof. vm_compute. done. Qed.

Lemma credential_rotation_witness :
  rotated decode dial managed 1 ticks first rotating
    (left_behind (in_use decode dial managed 1 ticks first)).
Proof. apply (credential_rotation decode dial managed 1 ticks first). simpl. lia. Defined.
End PoolModels.
