(* ===== verification/Startup.v ===== *)
(** Startup: [server::run] up to the point where requests are served, with
    [Authenticator::new] and [public_config] (src/auth.rs), the construction of the
    connectors and the service object every handler is given.

    The HTTP client, the file system at start-up, the sockets and the Google
    client are [StartEnv]; the database statements run in the store's monad. *)

From Stdlib Require Import Ascii String.
From stdpp Require Import base list strings gmap.
From S2P Require Import Prelude Str BTree External Models Database Store Auth Policy Catalog Connector Config Leases Control Sessions Proxy Browser RateLimit Edge Tls Pool.

(** The OIDC provider's discovery document *)
Record Discovery := {
  disc_issuer : bytes; disc_authorization_endpoint : bytes; disc_token_endpoint : bytes;
  disc_jwks_uri : bytes; disc_device_authorization_endpoint : option bytes }.
Record PublicAuthConfig := {
  pub_mode : bytes; pub_issuer : bytes; pub_client_id : bytes; pub_scopes : list bytes;
  pub_authorization_endpoint : option bytes; pub_token_endpoint : option bytes;
  pub_device_authorization_endpoint : option bytes }.
Record RpcAuthConfig := {
  rpc_mode : bytes; rpc_issuer : bytes; rpc_client_id : bytes; rpc_scopes : list bytes;
  rpc_authorization_endpoint : bytes; rpc_token_endpoint : bytes;
  rpc_device_authorization_endpoint : bytes }.

Definition auth_mode_name (m : AuthMode) : bytes :=
  match m with
  | ModeOidc => &"oidc" | ModeBasic => &"basic" | ModeOidcOrBasic => &"oidc_or_basic"
  | ModeGithubOrBasic => &"github_or_basic" | ModeDisabled => &"disabled"
  end.

Definition public_config (c : AuthConfig) (discovery : option Discovery) : PublicAuthConfig := {|
  pub_mode := auth_mode_name (auth_mode c);
  pub_issuer := issuer c;
  pub_client_id := client_id c;
  pub_scopes := if is_empty (scopes c) then [&"openid"] else scopes c;
  pub_authorization_endpoint := disc_authorization_endpoint <$> discovery;
  pub_token_endpoint := disc_token_endpoint <$> discovery;
  pub_device_authorization_endpoint := discovery ≫= disc_device_authorization_endpoint |}.

(** The RPC [get_auth_config], which needs no credential *)
Definition get_auth_config (c : AuthConfig) (discovery : option Discovery) : RpcAuthConfig :=
  let auth := public_config c discovery in {|
  rpc_mode := pub_mode auth; rpc_issuer := pub_issuer auth; rpc_client_id := pub_client_id auth;
  rpc_scopes := pub_scopes auth;
  rpc_authorization_endpoint := default [] (pub_authorization_endpoint auth);
  rpc_token_endpoint := default [] (pub_token_endpoint auth);
  rpc_device_authorization_endpoint := default [] (pub_device_authorization_endpoint auth) |}.

Section Startup.
Context {HL : HeaderLib} {UL : UrlLib} {EL : EncodingLib} {JL : JwtLib} {PL : PasswordLib}
  {BL : BackendLib} {TL : TlsLib}.

Record StartEnv := {
  start_file : bytes -> option bytes;
  start_instant : Z;
  (** [reqwest::Client::builder()..build()] *)
  client_build : bool;
  (** GET, status check and decoding, with the client's [https_only] *)
  fetch_discovery : bool -> bytes -> option Discovery;
  fetch_jwks : bool -> bytes -> option JwkSet;
  (** [SecretManagerService::builder().build()] *)
  google_build : bool;
  (** [Url::origin().ascii_serialization()] *)
  origin_text : Url -> bytes;
  install_provider : bool;
  url_pool : bytes -> option PgPool;
  sqlite_pool : bytes -> bool;
  decode_credentials : bytes -> option DatabaseCredentials;
  dial : nat -> PgConnectOptions -> bytes -> bool;
  tcp_bind : bytes -> bool;
}.

Context (env_var : bytes -> option bytes) (env : StartEnv).

(** ** [Authenticator::new] *)

Definition https_only (c : AuthConfig) : bool := negb (starts_with &"http://127.0.0.1" (issuer c)).
Definition discovery_endpoint (c : AuthConfig) : bytes :=
  trim_end_matches "/" (issuer c) ++ &"/.well-known/openid-configuration".

Definition discover (c : AuthConfig) : result (option Discovery) :=
  if oidc_mode (auth_mode c) then
    discovery ← ok_or (fetch_discovery env (https_only c) (discovery_endpoint c))
                  "fetch OIDC discovery";
    _ ← bail_if (negb (bool_decide (trim_end_matches "/" (disc_issuer discovery)
                                    = trim_end_matches "/" (issuer c))))
          "OIDC discovery issuer does not match configured issuer";
    Ok (Some discovery)
  else Ok None.

Definition authenticator_new (c : AuthConfig) (managed : bool)
    : result (Authenticator * option Discovery * JwksState) :=
  credentials ← load_basic_credentials (start_file env) c;
  _ ← bail_if (negb (client_build env)) "builder error";
  discovered ← discover c;
  let authenticator := {|
    config := c; 
    discovery := (fun d => ok_or (fetch_jwks env (https_only c) (disc_jwks_uri d)) "fetch OIDC JWKS")
                   <$> discovered;
    basic_credentials := credentials; managed := managed |} in
  let empty := {| jwks := None; last_attempt := None |} in
  if is_some discovered then
    let '(refreshed, keys, _) := refresh_jwks authenticator (start_instant env) true empty in
    _ ← refreshed;
    Ok (authenticator, discovered, keys)
  else Ok (authenticator, discovered, empty).

(** ** Connectors *)

Definition check_base_url (base_url : bytes) (allow_insecure_http : bool) (kind : string)
    : result unit :=
  base ← ok_or (url_parse base_url) "invalid {kind} base_url";
  _ ← bail_if (negb (bool_decide (url_scheme base = &"https"))
               && negb (bool_decide (url_scheme base = &"http") && allow_insecure_http))
        "{kind} base_url must use HTTPS";
  bail_if (negb (client_build env)) "builder error".

(** The token cache of a connector is told apart by the connector's name. *)
Definition openbao_new (name : bytes) (c : OpenBaoConfig) (allow_insecure_http : bool)
    : result OpenBaoConnector :=
  _ ← check_base_url (openbao_base_url c) allow_insecure_http "OpenBao";
  Ok {| ob_base_url := openbao_base_url c; ob_namespace := openbao_namespace c;
        ob_auth := openbao_auth c; ob_cell := name |}.
Definition infisical_new (name : bytes) (c : InfisicalConfig) (allow_insecure_http : bool)
    : result InfisicalConnector :=
  _ ← check_base_url (infisical_base_url c) allow_insecure_http "Infisical";
  Ok {| inf_base_url := infisical_base_url c; inf_auth := infisical_auth c; inf_cell := name |}.
Definition connector_new (name : bytes) (c : ConnectorConfig) (allow_insecure_http : bool)
    : result Connector :=
  match c with
  | InfisicalBackend c => connector ← infisical_new name c allow_insecure_http; Ok (ConnInfisical connector)
  | OpenBaoBackend c => connector ← openbao_new name c allow_insecure_http; Ok (ConnOpenBao connector)
  | GoogleSecretManager _ =>
      _ ← bail_if (negb (google_build env))
            "initialize Google Secret Manager with Application Default Credentials";
      Ok ConnGoogle
  end.
Definition build_connectors (c : Config) : result (BTreeMap Connector) :=
  try_fold (fun connectors '(name, connector) =>
    built ← connector_new name connector (allow_insecure_connector_http env_var c);
    Ok (bt_insert connectors name built)) [] (cfg_connectors c).

(** ** [run] *)

Record RuntimeTls := {
  runtime : TransparentProxyRuntime; authority : ProxyCertificateAuthority;
  transport : ReloadingTransportTls }.

(** The reads of the two pairs of files are the first ones of the process. *)
Definition start_runtime (c : Config) : result (option RuntimeTls) :=
  match cfg_transparent_proxy c with
  | None => Ok None
  | Some proxy =>
      catalog ← from_config (cfg_proxy_routes c) (cfg_proxy_tunnels c);
      authority ← ca_load (start_file env (ca_certificate_file proxy))
                    (start_file env (ca_private_key_file proxy));
      transport ← (transport_load (install_provider env) (fun _ => start_file env)
                     (transport_tls_certificate_file proxy) (transport_tls_private_key_file proxy)
                     {| provider := None; reads := 0 |}).1;
      Ok (Some {| runtime := {| runtime_proxy_url := proxy_url proxy;
                                session_ttl := from_secs (session_ttl_seconds proxy);
                                session_max_lifetime := from_secs (session_max_lifetime_seconds proxy);
                                catalog := catalog;
                                certificate_pem := ca_certificate_pem authority |};
                  authority := authority; transport := transport |})
  end.

Definition missing_managed : string :=
  "panic: managed configuration is validated before server startup".
Definition start_store (c : Config) : DB (option (StorePool * bool)) :=
  match cfg_mode c with
  | Static => mret None
  | Managed =>
      match cfg_managed c with
      | None => lift (Err missing_managed)
      | Some managed =>
          store ← store_connect (decode_credentials env) (dial env) (url_pool env) (sqlite_pool env)
                    (start_file env (database_credentials_file managed))
                    (start_file env (database_url_file managed)) managed;
          mret (Some store)
      end
  end.

(** What the handlers are given.  In static mode there is no store, and [backend]
    is not looked at. *)
Record Started := {
  started_service : Service; started_store : option (StorePool * bool);
  started_discovery : option Discovery; started_keys : JwksState;
  started_github : option GithubBrowserAuth; started_csp : bytes;
  started_limiter : ApiRateLimiter; connector_slots : Z;
  started_tls : option RuntimeTls; shutting_down : bool }.

Definition run (c : Config) : DB Started :=
  tls ← lift (start_runtime c);
  store ← start_store c;
  '(auth, discovered, keys) ← lift (authenticator_new (cfg_auth c) (is_some store));
  github ← lift (match github (cfg_auth c) with
                 | None => Ok None
                 | Some github => auth ← github_new github (start_file env); Ok (Some auth)
                 end);
  csp ← lift (content_security_policy (origin_text env) c);
  connectors ← lift (build_connectors c);
  _ ← lift (bail_if (negb (client_build env)) "builder error");
  let started := {|
    started_service := {|
      service_config := c; service_connectors := connectors; service_auth := auth;
      transparent_proxy := runtime <$> tls;
      backend := match store with Some (pool, _) => store_backend pool | None => Postgres end |};
    started_store := store; started_discovery := discovered; started_keys := keys;
    started_github := github; started_csp := csp;
    started_limiter := limiter_new (cfg_api_rate_limit_per_second c) (cfg_api_rate_limit_burst c)
                         (start_instant env);
    connector_slots := cfg_max_connector_concurrency c; started_tls := tls;
    shutting_down := false |} in
  _ ← lift (match cfg_transparent_proxy c with
            | Some proxy => bail_if (negb (tcp_bind env (proxy_listen proxy)))
                              "bind transparent proxy listener {}"
            | None => Ok ()
            end);
  _ ← lift (bail_if (negb (tcp_bind env (cfg_listen c))) "listen on {}");
  mret started.
End Startup.
