(* ===== verification/StartupProps.v ===== *)
(** StartupProps: a service that starts from a validated configuration is wired
    the way the theorems about its handlers assume. *)

From Stdlib Require Import Ascii String.
From stdpp Require Import base list strings gmap.
From S2P Require Import Prelude Str BTree External Models Host Database Store StoreFacts StoreProps Auth Policy Catalog Connector ConnectorFacts Config ConfigFacts Leases Control Sessions Proxy Browser RateLimit Edge EdgeProps Tls TlsProps Pool Startup.

Section StartupFacts.
Context {HL : HeaderLib} {UL : UrlLib} {EL : EncodingLib} {JL : JwtLib} {PL : PasswordLib}
  {BL : BackendLib} {TL : TlsLib}.
Context (env_var : bytes -> option bytes) (env : StartEnv).
#[local] Abbreviation DBW := (Database.world Tables).
Implicit Types w : DBW.

Lemma db_bind_ok {A B} (m : DB A) (f : A -> DB B) w b w' :
  (m ≫= f) w = (Ok b, w') -> exists a w1, m w = (Ok a, w1) /\ f a w1 = (Ok b, w').
Proof. unfold mbind, db_bind. destruct (m w) as [[a|e] w1]; [by exists a, w1|done]. Qed.
Lemma db_lift_ok {A} (r : result A) w a w' : lift r w = (Ok a, w') -> r = Ok a /\ w' = w.
Proof. by intros [-> ->]%pair_equal_spec. Qed.

(** ** The parts *)

Lemma refresh_forced a now u keys b :
  refresh_jwks a now true {| jwks := None; last_attempt := None |} = (Ok u, keys, b) ->
  exists set, discovery a = Some (Ok set) /\ jwks keys = Some set.
Proof.
  unfold refresh_jwks. simpl. destruct (discovery a) as [[set|e]|]; intros H; try discriminate.
  injection H as _ <- _. by exists set.
Qed.

(** The discovery document an OIDC service starts with is its issuer's own, and
    the first key set has arrived. *)
Definition discovered_from (c : AuthConfig) (d : option Discovery) (keys : JwksState) : Prop :=
  if oidc_mode (auth_mode c) then
    exists document set, d = Some document
      /\ fetch_discovery env (https_only c) (discovery_endpoint c) = Some document
      /\ trim_end_matches "/" (disc_issuer document) = trim_end_matches "/" (issuer c)
      /\ fetch_jwks env (https_only c) (disc_jwks_uri document) = Some set
      /\ jwks keys = Some set
  else d = None /\ jwks keys = None.

Lemma authenticator_new_ok c managed a d keys :
  authenticator_new env c managed = Ok (a, d, keys) ->
  config a = c /\ Auth.managed a = managed /\ discovered_from c d keys
  /\ load_basic_credentials (start_file env) c = Ok (basic_credentials a).
Proof.
  unfold authenticator_new, discovered_from, discover. intros H. inv_ok.
  destruct (oidc_mode (auth_mode c)); inv_ok; subst; simpl in *.
  - destruct (refresh_jwks _ _ _ _) as [[r keys'] b] eqn:E. inv_ok. simplify_eq.
    destruct (refresh_forced _ _ _ _ _ E) as (set & Hs & Hk). simpl in Hs.
    split_and!; try done. breflect in H4.
    destruct (fetch_jwks _ _ _) as [set'|] eqn:Ef; [|done]. simpl in Hs. simplify_eq.
    by eexists _, set.
  - by simplify_eq.
Qed.

(** Every configured connector, and no other, built from its own entry *)
Definition connectors_from (c : Config) (connectors : BTreeMap Connector) : Prop :=
  (forall name, is_Some (bt_get connectors name) <-> name ∈ (cfg_connectors c).*1)
  /\ forall name connector, bt_get connectors name = Some connector ->
       exists entry, (name, entry) ∈ cfg_connectors c
         /\ connector_new env name entry (allow_insecure_connector_http env_var c) = Ok connector.

Lemma build_connectors_ok c connectors :
  build_connectors env_var env c = Ok connectors -> connectors_from c connectors.
Proof.
  intros H. unfold build_connectors, connectors_from in *.
  eapply (try_fold_inv (fun done m =>
    (forall name, is_Some (bt_get m name) <-> name ∈ done.*1)
    /\ forall name connector, bt_get m name = Some connector ->
         exists entry, (name, entry) ∈ done
           /\ connector_new env name entry (allow_insecure_connector_http env_var c) = Ok connector));
    [exact H| |].
  - split; [|done]. intros name. simpl. split; [by intros [? [=]]|by intros ?%not_elem_of_nil].
  - intros done [n e] m m' [IH1 IH2] Hstep. inv_ok. subst m'. split.
    + intros name. rewrite bt_get_insert, fmap_app, elem_of_app, <- IH1. simpl.
      rewrite list_elem_of_singleton. destruct (decide (n = name)) as [->|Hn]; [|naive_solver].
      split; [by right|done].
    + intros name connector. rewrite bt_get_insert. destruct (decide (n = name)) as [->|Hn].
      * intros [= <-]. exists e. split; [|done]. apply elem_of_app. right. by apply list_elem_of_singleton.
      * intros (entry & Hin & Hk)%IH2. exists entry. split; [|done]. apply elem_of_app. by left.
Qed.

Lemma transport_load_ok install read_at cert key p tls p' :
  transport_load install read_at cert key p = (Ok tls, p') ->
  complete_config read_at (Tls.current tls) /\ certificate_path tls = cert
  /\ private_key_path tls = key /\ poisoned tls = false.
Proof.
  unfold transport_load. destruct (load_server_config install read_at cert key p) as [[config|e] q] eqn:E;
    [|done]. intros [= <- <-]. split; [by eapply load_complete|done].
Qed.

(** The proxy runtime of the configuration, with the authority its clients trust *)
Definition runtime_from (c : Config) (proxy : TransparentProxyConfig) (rt : RuntimeTls) : Prop :=
  from_config (cfg_proxy_routes c) (cfg_proxy_tunnels c) = Ok (catalog (runtime rt))
  /\ runtime_proxy_url (runtime rt) = proxy_url proxy
  /\ session_ttl (runtime rt) = from_secs (session_ttl_seconds proxy)
  /\ session_max_lifetime (runtime rt) = from_secs (session_max_lifetime_seconds proxy)
  /\ start_file env (ca_certificate_file proxy) = Some (certificate_pem (runtime rt))
  /\ ca_certificate_pem (authority rt) = certificate_pem (runtime rt)
  /\ complete_config (fun _ => start_file env) (Tls.current (transport rt))
  /\ certificate_path (transport rt) = transport_tls_certificate_file proxy
  /\ private_key_path (transport rt) = transport_tls_private_key_file proxy.

Lemma start_runtime_ok c tls :
  start_runtime env c = Ok tls ->
  match cfg_transparent_proxy c, tls with
  | None, None => True
  | Some proxy, Some rt => runtime_from c proxy rt
  | _, _ => False
  end.
Proof.
  unfold start_runtime. destruct (cfg_transparent_proxy c) as [proxy|]; [|by intros [= <-]].
  destruct (transport_load _ _ _ _ _) as [r p] eqn:E. simpl. intros H. inv_ok. subst.
  apply transport_load_ok in E as (Hc & Hp & Hk & _).
  unfold ca_load in *. inv_ok. subst. by split_and!.
Qed.

(** [start_runtime] is the runtime builder the session service is stated with. *)
Lemma start_runtime_agrees c tls :
  start_runtime env c = Ok tls ->
  start_transparent_proxy
    (fun cert key => ca ← ca_load (start_file env cert) (start_file env key); Ok (ca_certificate_pem ca))
    (fun cert key => _ ← (transport_load (install_provider env) (fun _ => start_file env) cert key
                            {| provider := None; reads := 0 |}).1; Ok ()) c
  = Ok (runtime <$> tls).
Proof.
  unfold start_runtime, start_transparent_proxy.
  destruct (cfg_transparent_proxy c) as [proxy|]; [|by intros [= <-]].
  destruct (from_config _ _) as [cat|]; [|done]. simpl.
  destruct (ca_load _ _) as [ca|]; [|done]. simpl.
  destruct (transport_load _ _ _ _ _) as [[t|] p]; [|done]. simpl. by intros [= <-].
Qed.

(** ** The configuration and the store *)

Lemma loaded_validated read_to_string from_str path c :
  load env_var read_to_string from_str path = Ok c -> validate_expanded env_var c = Ok ().
Proof.
  unfold load. intros H. inv_ok. subst. unfold expand_provider_operations in *. inv_ok. subst.
  destruct x2. unfold validate in *. done.
Qed.

Lemma validated_managed c : validate_expanded env_var c = Ok () -> validate_managed c = Ok ().
Proof. unfold validate_expanded. intros H. inv_ok. by destruct x0. Qed.

(** What a validated managed section says of the store that is opened *)
Lemma validated_store c managed : validate_managed c = Ok () -> cfg_managed c = Some managed ->
  initial_owner_oidc_subject managed <> []
  /\ ((0 < database_reload_interval_seconds managed)%Z -> database_credentials_file managed <> []).
Proof.
  unfold validate_managed. destruct (cfg_mode c), (cfg_managed c) as [m|]; intros H E; try done.
  injection E as ->. inv_ok. split.
  - intros E. rewrite E in *. done.
  - intros Hr Hf. rewrite Hf in *. apply Z.ltb_lt in Hr. rewrite Hr in *. done.
Qed.

Lemma open_store_credentials decode d up sp cf uf managed s :
  open_store decode d up sp cf uf managed = Ok s -> database_credentials_file managed <> [] ->
  exists pool fingerprint, s = PostgresPool (reloadable_new pool (Some fingerprint)).
Proof.
  unfold open_store. intros H Hne. destruct (database_credentials_file managed); [done|].
  cbn [is_empty negb] in H. apply bind_ok in H as ([pool fp] & _ & H). inv_ok. by exists pool, fp.
Qed.

(** The managed store is migrated and has its first owner; the reloader runs
    exactly when it is configured, and then on a PostgreSQL pool whose
    credentials came from the file. *)
Definition store_from (c : Config) (store : option (StorePool * bool)) w w' : Prop :=
  match cfg_mode c, store with
  | Static, None => w' = w
  | Managed, Some (pool, reloading) => exists managed, cfg_managed c = Some managed
      /\ tables w' = connected (initial_owner_oidc_subject managed) (tables w)
      /\ (av_owner_bootstrap (tables w) = None \/ av_owners (tables w) <> ∅ -> has_owner (tables w'))
      /\ reloading = (0 <? database_reload_interval_seconds managed)%Z
      /\ (reloading = true -> exists pg fingerprint,
            pool = PostgresPool (reloadable_new pg (Some fingerprint)))
  | _, _ => False
  end.

Lemma start_store_ok c store w w' : validate_managed c = Ok () ->
  start_store env c w = (Ok store, w') -> store_from c store w w'.
Proof.
  intros Hv. unfold start_store, store_from. destruct (cfg_mode c); [by intros [= <- <-]|].
  destruct (cfg_managed c) as [managed|] eqn:Em; [|done].
  destruct (validated_store c managed Hv Em) as [Ho Hr]. intros H.
  apply db_bind_ok in H as ([pool reloading] & w1 & H & [= <- <-]). unfold store_connect in H.
  apply db_bind_ok in H as (s & w2 & [Hs ->]%db_lift_ok & H).
  apply db_bind_ok in H as ([] & w3 & Hc & H). exists managed. split; [done|].
  pose proof (honest_result _ (connect_honest (store_backend s) (initial_owner_oidc_subject managed)) w ()) as Hi. rewrite Hc in Hi. simpl in Hi.
  specialize (Hi eq_refl). rewrite ideal_connect in Hi. injection Hi as Ht.
  assert (pool = s /\ w1 = w3 /\ reloading = (0 <? database_reload_interval_seconds managed)%Z
          ) as (-> & -> & ->).
  { destruct (0 <? _)%Z; [destruct s|]; by try injection H as <- <- <-. }
  split_and!; [done| |done|].
  - intros Hb. rewrite <- Ht. by apply connected_has_owner.
  - intros Hlt%Z.ltb_lt. apply Hr in Hlt. by eapply open_store_credentials.
Qed.

(** ** Panics *)

Definition steady {A} (m : DB A) : Prop := forall w, ~ panics (m w).1.

Lemma steady_bind {A B} (m : DB A) (f : A -> DB B) :
  steady m -> (forall a, steady (f a)) -> steady (m ≫= f).
Proof.
  intros Hm Hf w. unfold mbind, db_bind. specialize (Hm w).
  destruct (m w) as [[a|e] w1]; simpl in *; [apply Hf|].
  intros [msg E]. apply Hm. exists msg. congruence.
Qed.
Lemma steady_lift {A} (r : result A) : ~ panics r -> steady (lift r).
Proof. by intros H w. Qed.
Lemma steady_ret {A} (a : A) : steady (mret a).
Proof. intros w. apply no_panic_ok. Qed.
Lemma steady_statement {A} (f : Tables -> result (A * Tables)) :
  (forall t, ~ panics (f t)) -> steady (statement f).
Proof.
  intros Hf w. unfold statement, next_outcome. specialize (Hf (tables w)).
  assert (~ panics (@Err A "database error")) by (by intros [m [=]]).
  destruct (default Succeeds (head (outcomes w))); simpl; try done;
    destruct (f (tables w)) as [[a t]|e]; simpl; try done; try apply no_panic_ok;
    intros [m E]; apply Hf; exists m; congruence.
Qed.
Lemma steady_execute f : steady (execute f).
Proof. apply steady_statement. intros t. apply no_panic_ok. Qed.

Lemma connect_steady b owner : steady (connect b owner).
Proof.
  unfold connect, migrate, create_table. repeat (apply steady_bind; [|intros ?]);
    try apply steady_execute.
  case_match; [|apply steady_ret]. destruct b; simpl.
  - apply steady_bind; [|intros ?]; apply steady_execute.
  - apply steady_bind; [|intros inserted].
    + apply steady_statement. intros t. case_match; apply no_panic_ok.
    + apply steady_bind; [|intros ?; apply steady_execute].
      case_match; [apply steady_execute|apply steady_ret].
Qed.

Lemma collect_results_no_panic {A B} (f : A -> result B) xs :
  (forall x, ~ panics (f x)) -> ~ panics (collect_results f xs).
Proof.
  intros Hf. induction xs as [|x xs IH]; simpl; [apply no_panic_ok|].
  apply no_panic_bind; [done|intros]. apply no_panic_bind; [done|intros]. apply no_panic_ok.
Qed.

Lemma start_store_steady c : validate_managed c = Ok () -> steady (start_store env c).
Proof.
  intros Hv. unfold start_store. destruct (cfg_mode c) eqn:Em; [apply steady_ret|].
  destruct (cfg_managed c) as [managed|] eqn:Ec.
  2: { unfold validate_managed in Hv. by rewrite Em, Ec in Hv. }
  apply steady_bind; [|intros ?; apply steady_ret]. unfold store_connect.
  apply steady_bind; [|intros s].
  { apply steady_lift. unfold open_store, read_database_url. no_panic. }
  apply steady_bind; [apply connect_steady|intros _].
  case_match; [case_match; [apply steady_ret|apply steady_lift; no_panic]|apply steady_ret].
Qed.

Lemma authenticator_no_panic c managed : ~ panics (authenticator_new env c managed).
Proof.
  unfold authenticator_new, discover, load_basic_credentials. apply no_panic_bind.
  { apply collect_results_no_panic. intros user. unfold load_basic_credential. no_panic. }
  intros credentials _. apply no_panic_bind; [no_panic|intros _ _].
  apply no_panic_bind; [no_panic|intros discovered _]. cbv zeta.
  destruct (is_some discovered); [|no_panic].
  destruct (refresh_jwks _ _ _ _) as [[r keys] b] eqn:E. apply no_panic_bind; [|intros; no_panic].
  unfold refresh_jwks in E. simpl in E. destruct discovered as [d|]; simpl in E.
  - destruct (fetch_jwks _ _ _); simpl in E; simplify_eq; no_panic.
  - simplify_eq. no_panic.
Qed.

Lemma load_server_no_panic install read_at cert key n :
  ~ panics (load_server_config install read_at cert key {| provider := None; reads := n |}).1.
Proof.
  unfold load_server_config, install_rustls_provider, read_file, parse_server_config. simpl.
  destruct install; simpl; [|no_panic]. destruct (read_at n cert); simpl; [|no_panic].
  destruct (read_at (S n) key); simpl; no_panic.
Qed.

Lemma start_runtime_no_panic c : ~ panics (start_runtime env c).
Proof.
  unfold start_runtime, ca_load. case_match; [|no_panic].
  apply no_panic_bind; [apply from_config_no_panic|intros].
  apply no_panic_bind; [no_panic|intros]. apply no_panic_bind; [|intros; no_panic].
  unfold transport_load.
  pose proof (load_server_no_panic (install_provider env) (fun _ => start_file env)
    (transport_tls_certificate_file t) (transport_tls_private_key_file t) 0) as Hl.
  destruct (load_server_config _ _ _ _ _) as [r p]. simpl in *.
  apply no_panic_bind; [done|intros; no_panic].
Qed.

Lemma run_steady c : validate_managed c = Ok () -> steady (run env_var env c).
Proof.
  intros Hm. unfold run.
  apply steady_bind; [apply steady_lift, start_runtime_no_panic|intros tls].
  apply steady_bind; [by apply start_store_steady|intros store].
  apply steady_bind; [apply steady_lift, authenticator_no_panic|intros [[auth d] keys]].
  apply steady_bind; [apply steady_lift; unfold github_new; no_panic|intros gh].
  apply steady_bind; [apply steady_lift; unfold content_security_policy; no_panic|intros csp].
  apply steady_bind; [apply steady_lift|intros connectors].
  { unfold build_connectors, connector_new, infisical_new, openbao_new, check_base_url. no_panic. }
  apply steady_bind; [apply steady_lift; no_panic|intros _]. cbv zeta.
  apply steady_bind; [apply steady_lift; no_panic|intros _].
  apply steady_bind; [apply steady_lift; no_panic|intros _]. apply steady_ret.
Qed.

(** C10: The service that [server::run] builds from a configuration
    [Config::load] accepted is the configured one, and the preconditions of its
    handlers hold: every profile's connector exists, a store is attached exactly
    in managed mode and has an owner, OIDC has the issuer's own document and keys,
    the proxy runtime serves the configured catalog with the authority whose
    certificate it hands out, and the rate limits are usable.  Start-up never
    panics. *)
Theorem started_service_wired read_to_string from_str path c w :
  load env_var read_to_string from_str path = Ok c ->
  ~ panics (run env_var env c w).1
  /\ forall s w', run env_var env c w = (Ok s, w') ->
    service_config (started_service s) = c
    /\ connectors_from c (service_connectors (started_service s))
    /\ (forall name profile, (name, profile) ∈ cfg_profiles c ->
          is_Some (bt_get (service_connectors (started_service s)) (profile_connector profile)))
    /\ config (service_auth (started_service s)) = cfg_auth c
    /\ (managed (service_auth (started_service s)) = true <-> cfg_mode c = Managed)
    /\ discovered_from (cfg_auth c) (started_discovery s) (started_keys s)
    /\ store_from c (started_store s) w w'
    /\ match cfg_transparent_proxy c, started_tls s with
       | None, None => transparent_proxy (started_service s) = None
       | Some proxy, Some rt => runtime_from c proxy rt
           /\ transparent_proxy (started_service s) = Some (runtime rt)
           /\ destinations_by_host (catalog (runtime rt)) <> []
           /\ managed (service_auth (started_service s)) = true
       | _, _ => False
       end
    /\ rates_ok c
    /\ limiter_ok (started_limiter s).
Proof.
  intros Hv%loaded_validated. pose proof (validated_managed c Hv) as Hm.
  apply validate_expanded_ok in Hv. split; [by apply run_steady|]. intros s w' H. unfold run in H.
  apply db_bind_ok in H as (tls & w1 & [Htls ->]%db_lift_ok & H).
  apply db_bind_ok in H as (store & w2 & Hstore & H). apply start_store_ok in Hstore; [|done].
  apply db_bind_ok in H as ([[auth d] keys] & w3 & [Hauth ->]%db_lift_ok & H).
  apply db_bind_ok in H as (gh & w4 & [_ ->]%db_lift_ok & H).
  apply db_bind_ok in H as (csp & w5 & [_ ->]%db_lift_ok & H).
  apply db_bind_ok in H as (connectors & w6 & [Hconn ->]%db_lift_ok & H).
  apply db_bind_ok in H as ([] & w7 & [_ ->]%db_lift_ok & H). cbv zeta in H.
  apply db_bind_ok in H as ([] & w8 & [_ ->]%db_lift_ok & H).
  apply db_bind_ok in H as ([] & w9 & [_ ->]%db_lift_ok & H). injection H as <- <-. simpl.
  apply authenticator_new_ok in Hauth as (Hc & Hman & Hd & _).
  apply build_connectors_ok in Hconn. apply start_runtime_ok in Htls.
  assert (is_some store = true <-> cfg_mode c = Managed) as Hmode.
  { unfold store_from in Hstore. destruct (cfg_mode c), store as [[]|]; done. }
  destruct Hv as [_ Hprofiles _ _ _ _ _ Hrate _ Htransparent].
  split_and!; try done.
  - intros name profile Hin. rewrite Forall_forall in Hprofiles.
    destruct (Hprofiles _ Hin) as (connector & Hb & _). apply (proj1 Hconn).
    apply bt_get_elem in Hb. apply list_elem_of_fmap. by exists (profile_connector profile, connector).
  - by rewrite Hman.
  - destruct (cfg_transparent_proxy c) as [proxy|], tls as [rt|]; try done. simpl.
    destruct (Htransparent proxy eq_refl) as (Hmanaged & _ & _ & _ & _ & cat & Hcat & Hne).
    split_and!; [done|done| |rewrite Hman; by apply Hmode].
    destruct Htls as [Hcat' _]. congruence.
  - apply limiter_new_ok; lia.
Qed.
End StartupFacts.

(** ** Concrete starts *)

Module StartupModels.
Import Models AuthModels ConnectorModels ConfigModels TlsModels.

(** The client sends over plain HTTP only without [https_only]. *)
Definition reachable (https_only : bool) (url : bytes) : bool :=
  starts_with &"https://" url || negb https_only.
Definition document (issuer : bytes) : Discovery := {|
  disc_issuer := issuer ++ &"/"; disc_authorization_endpoint := issuer ++ &"/authorize";
  disc_token_endpoint := issuer ++ &"/token"; disc_jwks_uri := issuer ++ &"/keys";
  disc_device_authorization_endpoint := Some (issuer ++ &"/device") |}.
Definition files (path : bytes) : option bytes :=
  if bool_decide (path = &"/tls/cert") then Some &"proxy.example.test|k1"
  else if bool_decide (path = &"/tls/key") then Some &"k1"
  else if bool_decide (path = &"/etc/av/ann") then Some &"$argon2id$secret"
  else if bool_decide (path = &"/etc/av/database-url") then Some &"sqlite:/var/lib/av.db"
  else Some &"PEM".
Definition start_env (issuer : bytes) : StartEnv := {|
  start_file := files; start_instant := 0; client_build := true;
  fetch_discovery only url := if reachable only url then Some (document issuer) else None;
  fetch_jwks only url := if reachable only url then Some [&"k1"] else None;
  google_build := true; origin_text _ := &"https://id.example.test"; install_provider := true;
  url_pool _ := None; sqlite_pool _ := true; decode_credentials _ := None;
  dial _ _ _ := false; tcp_bind _ := true |}.

Definition new_database : Database.world Tables :=
  {| tables := empty_tables; clock := Some 0%Z; outcomes := [] |}.
Definition starting := run no_env (start_env &"https://id.example.test") expanded new_database.

Example starting_ok : is_ok starting.1 = true.
Proof. vm_compute. reflexivity. Qed.

Lemma started_service_wired_witness :
  ~ panics starting.1
  /\ forall s, starting = (Ok s, starting.2) -> managed (service_auth (started_service s)) = true.
Proof.
  destruct (started_service_wired no_env (start_env &"https://id.example.test")
    (fun _ => Some []) (fun _ => Some config) &"/etc/av/config.json" expanded new_database)
    as [Hp Hs]; [vm_compute; reflexivity|].
  split; [exact Hp|]. intros s H. apply Hs in H as (_ & _ & _ & _ & Hm & _). apply Hm. reflexivity.
Defined.

(** A provider on the local host, named by its address and by [localhost] *)
Definition local_auth (issuer : bytes) : AuthConfig := {|
  auth_mode := ModeOidc; issuer := issuer; client_id := &"av"; audiences := []; scopes := [];
  signing_algorithms := default_oidc_signing_algorithms; group_claim := default_group_claim;
  allowed_groups := [&"ops"]; basic_users := []; github := None |}.

(** Validation accepts a plain-HTTP issuer on either name of the local host, but
    the client built for it sends over plain HTTP only to [127.0.0.1]: with
    [localhost] the service is valid and never starts. *)
Theorem localhost_issuer_never_starts :
  validate_issuer (local_auth &"http://localhost:5556") = Ok ()
  /\ is_ok (authenticator_new (start_env &"http://localhost:5556")
              (local_auth &"http://localhost:5556") true) = false
  /\ validate_issuer (local_auth &"http://127.0.0.1:5556") = Ok ()
  /\ is_ok (authenticator_new (start_env &"http://127.0.0.1:5556")
              (local_auth &"http://127.0.0.1:5556") true) = true.
Proof. vm_compute. done. Qed.
End StartupModels.
