(* ===== verification/LocalProps.v ===== *)
(** LocalProps: [av local init] writes a private configuration that the server
    accepts and that leads it to the database it names. *)

From Stdlib Require Import Ascii String.
From stdpp Require Import base list strings gmap pretty.
From S2P Require Import Prelude Str BTree External Models Ip Net Auth Connector ConnectorFacts Config Leases Sessions Browser Database Store Cli CliFacts CliProps Account AccountProps Container ContainerProps Pool Local.

(** ** Text *)

Definition plain_text (s : bytes) : Prop := Forall (fun b => in_range 32 126 b = true) s.

Lemma plain_code b : in_range 32 126 b = true -> (code b < 128)%N.
Proof. unfold in_range. intros [_ H]%andb_true_iff. apply N.leb_le in H. lia. Qed.

(** Text without white space at its ends is not trimmed. *)
Lemma trim_plain a m z : plain_text (a :: m ++ [z]) ->
  is_whitespace (code a) = false -> is_whitespace (code z) = false -> trim (a :: m ++ [z]) = a :: m ++ [z].
Proof.
  intros Hp Ha Hz. unfold trim. rewrite char_chunks_ascii_text.
  2: { eapply Forall_impl; [exact Hp|]. apply plain_code. }
  rewrite fmap_cons, fmap_app. cbn [drop_while fst]. rewrite Ha. cbv iota.
  cbn [rev]. rewrite rev_app_distr. cbn [rev app fmap list_fmap]. cbn [drop_while fst app]. rewrite Hz. cbv iota.
  change ((code z, [z]) :: rev ((fun b => (code b, [b])) <$> m) ++ [(code a, [a])])
    with ([(code z, [z])] ++ rev ((fun b => (code b, [b])) <$> m) ++ [(code a, [a])]).
  rewrite !rev_app_distr, rev_involutive. cbn [rev app]. rewrite fmap_cons, fmap_app. cbn.
  f_equal. rewrite concat_app. cbn. f_equal. clear. induction m as [|b m IH]; [done|]. cbn. by f_equal.
Qed.

Lemma plain_no_line_end s c : plain_text s -> (code c < 32)%N -> contains c s = false.
Proof.
  intros Hp Hc. apply bool_decide_eq_false. intros Hin. unfold plain_text in Hp. rewrite Forall_forall in Hp.
  specialize (Hp _ Hin). unfold in_range in Hp. apply andb_true_iff in Hp as [H _].
  apply N.leb_le in H. lia.
Qed.

(** ** [local_init] *)

Section LocalFacts.
Context {HL : HeaderLib} {UL : UrlLib} {EL : EncodingLib}.
Context (machine : Machine) (docker : Docker) (to_vec_pretty : Value -> option bytes).
#[local] Abbreviation CIO := (io (list ClientEvent)).
#[local] Abbreviation W := (Connector.world (list ClientEvent)).
Implicit Types w : W.

(** Directories are closed to others (0700) as soon as they are made.  A file is written into a
    directory that has just been closed, and is closed itself (0600) as soon as it is written. *)
Definition private_directory (d : bytes) : list ClientEvent := [CreatedDirectory d; Restricted d 448].
Definition private_file (path contents : bytes) : list ClientEvent :=
  default [] (private_directory <$> parent path) ++ [Wrote path contents; Restricted path 384].
Inductive private : list ClientEvent -> Prop :=
| private_done : private []
| private_text text rest : private rest -> private (Printed text :: rest)
| private_next_directory d rest : private rest -> private (private_directory d ++ rest)
| private_next_file path contents rest : private rest -> private (private_file path contents ++ rest).

(** A computation that appends the given events: all of them where it succeeds, and the first
    ones where it fails *)
Definition emits {A} (m : CIO A) (events : list ClientEvent) : Prop :=
  forall w r w', m w = (r, w') -> exists new, server w' = server w ++ new
    /\ new `prefix_of` events /\ (is_ok r = true -> new = events).

Lemma emits_quiet {A} (m : CIO A) : (forall w, server (m w).2 = server w) -> emits m [].
Proof.
  intros Hm w r w' H. exists []. specialize (Hm w). rewrite H in Hm. simpl in Hm.
  by rewrite app_nil_r.
Qed.
Lemma emits_bind {A B} (m : CIO A) (f : A -> CIO B) first rest :
  emits m first -> (forall a w w1, m w = (Ok a, w1) -> emits (f a) rest) ->
  emits (m ≫= f) (first ++ rest).
Proof.
  intros Hm Hf w r w' H. apply bind_run in H as [(a & w1 & Ha & H)|(e & He & ->)].
  - destruct (Hm _ _ _ Ha) as (new & Hw1 & _ & Hn). specialize (Hn eq_refl) as ->.
    destruct (Hf _ _ _ Ha _ _ _ H) as (new' & Hw' & Hpre & Hok).
    exists (first ++ new'). split; [by rewrite Hw', Hw1, app_assoc|].
    split; [by apply prefix_app|]. intros Hr. by rewrite Hok.
  - destruct (Hm _ _ _ He) as (new & Hw1 & Hpre & _). exists new.
    split_and!; [done|by apply prefix_app_r|done].
Qed.
Lemma emits_record e : emits (record_event e) [e].
Proof. intros w r w' H. injection H as <- <-. by exists [e]. Qed.
Lemma emits_step {A B} (m : CIO A) (f : A -> CIO B) events :
  emits m [] -> (forall a w w1, m w = (Ok a, w1) -> emits (f a) events) -> emits (m ≫= f) events.
Proof. intros Hm Hf. exact (emits_bind m f [] events Hm Hf). Qed.

Create HintDb local_init.
Lemma emits_ensure {A} (r : result A) : emits (ensure r) [].
Proof. by apply emits_quiet. Qed.
Lemma emits_outside {A} (f : nat -> A) : emits (outside f) [].
Proof. by apply emits_quiet. Qed.
Lemma emits_ret {A} (a : A) : emits (mret a) [].
Proof. by apply emits_quiet. Qed.
#[local] Hint Resolve emits_ensure emits_outside emits_ret emits_record : local_init.

(** What the system does, and then the event *)
Lemma emits_effect {A} (f : nat -> A) (check : A -> result unit) e :
  emits (done ← outside f; _ ← ensure (check done); record_event e) [e].
Proof.
  apply emits_step; [auto with local_init|intros d _ _ _].
  apply emits_step; auto with local_init.
Qed.
Lemma emits_directory d :
  emits (_ ← make_directory machine d; restrict_directory machine d) (private_directory d).
Proof. apply (emits_bind _ _ [_] [_]); [apply emits_effect|intros _ _ _ _; apply emits_effect]. Qed.
Lemma emits_directories directories :
  emits (make_private machine directories) (mjoin (private_directory <$> directories)).
Proof.
  induction directories as [|d ds IH]; [apply emits_ret|].
  apply (emits_bind _ _ [_] (Restricted d 448 :: _)); [apply emits_effect|intros _ _ _ _].
  apply (emits_bind _ _ [_] _); [apply emits_effect|done].
Qed.
Lemma emits_file path contents : emits (write_private_file machine path contents) (private_file path contents).
Proof.
  apply emits_bind.
  { destruct (parent path) as [d|]; [apply emits_directory|apply emits_ret]. }
  intros _ _ _ _. apply emits_step; [auto with local_init|intros d _ _ _].
  apply emits_step; [auto with local_init|intros _ _ _ _].
  apply (emits_bind _ _ [_] [_]); [auto with local_init|intros _ _ _ _]. apply emits_effect.
Qed.
Lemma emits_passed {A B} (x : result A) (f : A -> CIO B) events :
  (forall a, x = Ok a -> emits (f a) events) -> emits (ensure x ≫= f) events.
Proof.
  intros Hf. destruct x as [a|e]; [by apply (Hf a)|]. intros w r w' H. injection H as <- <-. exists [].
  rewrite app_nil_r. split_and!; [done|apply prefix_nil|done].
Qed.

Section Init.
Context (config_path : option bytes) (issuer client_id allowed_role owner_subject : bytes).

Definition target_path : bytes := default (path_join (config_root machine) &"bootstrap.json") config_path.
Definition new_config : Config :=
  local_config (local_database_url_file machine) owner_subject issuer client_id allowed_role.
Definition new_value : Value := local_value (local_database_url_file machine) owner_subject new_config.
Definition local_roots : list bytes :=
  [config_root machine; state_root machine; data_root machine; path_join (data_root machine) &"secrets"].
(** The database's URL, and the configuration where it is valid and can be rendered *)
Definition local_files : list (bytes * bytes) :=
  (local_database_url_file machine, local_database_url machine)
  :: match validate (env_var machine) new_config, to_vec_pretty new_value with
     | Ok _, Some rendered => [(target_path, rendered)]
     | _, _ => []
     end.
Definition local_trace : list ClientEvent :=
  mjoin (private_directory <$> local_roots)
  ++ private_file (local_database_url_file machine) (local_database_url machine)
  ++ match validate (env_var machine) new_config, to_vec_pretty new_value with
     | Ok _, Some rendered => private_file target_path rendered
         ++ [Printed (&"local AV initialized at " ++ target_path ++ [LF]);
             Printed (&"start it with: av serve --config " ++ target_path ++ [LF])]
     | _, _ => []
     end.

Lemma local_trace_private : private local_trace.
Proof.
  do 4 (apply (private_next_directory _ (_ ++ _))). apply private_next_file.
  destruct (validate _ _); [destruct (to_vec_pretty _)|]; repeat constructor.
Qed.
Lemma private_file_written path contents : files_written (private_file path contents) = [(path, contents)].
Proof. unfold private_file. by destruct (parent path). Qed.
Lemma local_trace_files : files_written local_trace = local_files.
Proof.
  unfold local_trace, local_files. rewrite !files_written_app, private_file_written. simpl. f_equal.
  destruct (validate _ _); [destruct (to_vec_pretty _)|]; [|done..].
  by rewrite files_written_app, private_file_written.
Qed.

Lemma local_init_emits force :
  emits (local_init machine docker to_vec_pretty config_path force issuer client_id allowed_role owner_subject)
    local_trace.
Proof.
  apply emits_step; [auto with local_init|intros _ _ _ _].
  apply emits_step; [auto with local_init|intros e _ _ _].
  apply emits_step; [auto with local_init|intros _ _ _ _].
  apply emits_bind; [apply emits_directories|intros _ _ _ _].
  apply emits_bind; [apply emits_file|intros _ _ _ _].
  apply emits_passed. intros [] Hv. unfold new_config. rewrite Hv.
  apply emits_step; [auto with local_init|intros _ _ _ _].
  apply emits_passed. intros rendered Hr%ok_or_ok. unfold new_value, new_config. rewrite Hr.
  apply emits_bind; [apply emits_file|intros _ _ _ _].
  apply (emits_bind _ _ [_] [_]); [apply emits_record|intros _ _ _ _; apply emits_record].
Qed.

Lemma local_init_ok force w w' :
  local_init machine docker to_vec_pretty config_path force issuer client_id allowed_role owner_subject w
    = (Ok (), w') ->
  validate (env_var machine) new_config = Ok () /\ is_some (to_vec_pretty new_value) = true.
Proof.
  unfold local_init. intros H. do 5 apply io_bind_ok in H as (? & ? & _ & H).
  apply io_bind_ok in H as ([] & w1 & [Hv _]%io_ensure_ok & H). split; [done|].
  apply io_bind_ok in H as (? & ? & _ & H). apply io_bind_ok in H as (r & w2 & [Hr _]%io_ensure_ok & H).
  apply ok_or_ok in Hr. unfold new_value, new_config. by rewrite Hr.
Qed.

(** An existing configuration stops it before anything is done. *)
Lemma local_init_refused w r w' :
  local_init machine docker to_vec_pretty config_path false issuer client_id allowed_role owner_subject w
    = (r, w') ->
  (forall n, path_exists docker n target_path = true) -> is_ok r = false /\ server w' = server w.
Proof.
  unfold local_init. intros H He. apply ensure_run in H as [([] & _ & H)|[-> [e ->]]]; [|done].
  apply bind_run in H as [(b & w1 & Ho & H)|(e & Ho & _)]; [|by injection Ho].
  injection Ho as <- <-. cbv zeta in H. change (default _ config_path) with target_path in H.
  rewrite He in H. by injection H as <- <-.
Qed.

Lemma joined_text path name : plain_text path -> plain_text name -> plain_text (path_join path name).
Proof.
  unfold path_join. intros Hp Hn. case_match; apply Forall_app; split; try done.
  apply Forall_app. split; [repeat constructor|done].
Qed.
Lemma joined_end path name : exists front, path_join path name = front ++ name.
Proof. unfold path_join. case_match; [by exists path|exists (path ++ &"/")]. by rewrite <- app_assoc. Qed.

(** The server reads the URL back as it was written. *)
Lemma database_url_read : plain_text (state_root machine) ->
  read_database_url (Some (local_database_url machine)) = Ok (local_database_url machine).
Proof.
  intros Hs. assert (plain_text (local_database_url machine)) as Hp.
  { apply Forall_app. split; [repeat constructor|]. apply joined_text; [done|repeat constructor]. }
  assert (trim (local_database_url machine) = local_database_url machine) as Ht.
  { revert Hp. unfold local_database_url.
    destruct (joined_end (state_root machine) &"av.sqlite3") as [front ->]. intros Hp.
    pose proof (trim_plain "s"%char (&"qlite:" ++ front ++ &"av.sqlite") "3"%char) as H.
    rewrite <- !app_assoc in H. by apply H. }
  unfold read_database_url. cbn [ok_or]. unfold mbind, result_bind. rewrite Ht.
  by rewrite !(plain_no_line_end (local_database_url machine)).
Qed.

End Init.
End LocalFacts.

(** ** Concrete runs *)

Module LocalModels.
Import Models ConnectorModels AccountModels ContainerModels.

Definition me : Machine := {|
  env_var name := if bool_decide (name = &"HOME") then Some &"/home/me" else None;
  metadata _ _ := None; file_text _ _ := None; file_bytes _ _ := None; create_dir_all _ _ := true;
  set_permissions _ path := negb (is_empty path); fs_write _ _ := true; temp_dir _ _ := None;
  program_output _ _ _ := None; stdin_written _ := true; install_provider := true;
  pem_certificates _ := None; root_accepted _ := true; answer := answering;
  race _ := {| child_first := true; renewals := 0; under_way := false; spawned := true;
               exit_code := Ok (Some 0%Z) |};
  bind_loopback _ := Err "unused"; tcp_open _ _ := false; tls_open _ _ _ := false;
  written _ := true; copied _ := true |}.
Definition render (v : Value) : option bytes := Some &"{}".
Definition initialised := local_init me (host (TargetEnded None)) render None false
  &"https://id.example.test" &"av" &"operators" &"owner-1" quiet.
Lemma initialised_ok : initialised.1 = Ok ().
Proof. vm_compute. reflexivity. Qed.

#[local] Strategy expand [initialised].
Example initialised_paths :
  local_database_url_file me = &"/home/me/.local/share/av/secrets/database-url"
  /\ local_database_url me = &"sqlite:/home/me/.local/state/av/av.sqlite3".
Proof. vm_compute. done. Qed.

(** Without a home directory the paths are relative, which a configuration may not
    hold: the command fails, after it has written the database's URL. *)
Definition homeless : Machine := {|
  env_var _ := None; metadata := metadata me; file_text := file_text me; file_bytes := file_bytes me;
  create_dir_all := create_dir_all me; set_permissions := set_permissions me; fs_write := fs_write me;
  temp_dir := temp_dir me; program_output := program_output me; stdin_written := stdin_written me;
  install_provider := true; pem_certificates := pem_certificates me; root_accepted := root_accepted me;
  answer := answer me; race := race me; bind_loopback := bind_loopback me; tcp_open := tcp_open me;
  tls_open := tls_open me; written := written me; copied := copied me |}.
Example homeless_leaves_url :
  let run := local_init homeless (host (TargetEnded None)) render None false
               &"https://id.example.test" &"av" &"operators" &"owner-1" quiet in
  is_ok run.1 = false
  /\ files_written (server run.2)
     = [(&"./.local/share/av/secrets/database-url", &"sqlite:./.local/state/av/av.sqlite3")].
Proof. vm_compute. done. Qed.
End LocalModels.
